(* ===== verification/_CoqProject ===== *)
-Q . S2P
Prelude.v
Pow2.v
Bytes.v
CMem.v
CString.v
CSort.v
CNum.v
CPrintf.v
Wire.v
IntrusiveList.v
Cbuf.v
Pmm.v
Vmm.v
VmmSpec.v
VmmInv.v
VmmAlloc.v
VmmSpace.v
Vm.v
VmmExamples.v
Asid.v
Novm.v
Port.v
PortInv.v
PortSafe.v
PortCalls.v
Miniheap.v
Bio.v
BioMem.v
BioReg.v
Bcache.v
KState.v
Mp.v
MpSync.v
Timer.v
Thread.v
ThreadInv.v
ThreadSafety.v
ThreadApi.v
Sync.v
Create.v
PortKernel.v
SyncSpec.v
System.v
LostWakeup.v
Examples.v
PortExamples.v
