(* ===== verification/Prelude.v ===== *)
(** * A verification of the Little Kernel

    LK is a small kernel in C.  This library models its core in Rocq and proves
    what makes it correct.  All file names below are under [src/].

    ** The system and its model

    The scheduler ([kernel/thread.c]) runs threads on a number of cpus; threads
    block on wait queues, with timeouts from the timer queues
    ([kernel/timer.c]), and mutexes, semaphores and events ([kernel/mutex.c],
    [kernel/semaphore.c], [kernel/event.c]) are built on wait queues.  Cpus tell
    each other to reschedule ([kernel/mp.c]).  All kernel queues are intrusive
    lists ([top/include/lk/list.h]).  Ports ([kernel/port.c]) carry packets between
    threads.  Pages come from the physical page allocator ([kernel/vm/pmm.c]) and
    are mapped into the regions of address spaces ([kernel/vm/vmm.c], started by
    [kernel/vm/vm.c], told apart by the ids of [kernel/vm/asid.c]); builds without
    an MMU have [kernel/novm/novm.c] instead.  Small allocations come from the heap
    ([lib/heap/miniheap]).  Storage is a stack of block devices ([lib/bio]) with
    a cache in front ([lib/bcache]).  Circular buffers ([lib/cbuf]) carry bytes
    between drivers and threads.  All of it stands on the C library ([lib/libc]);
    [lib/bytes], [lib/iovec] and [lib/minip/chksum.c] handle bytes in transit.

    - [Prelude]: status codes, faults and the error monad [res], machine
      integers, alignment and time macros, bit masks, the hint database [lk].
    - [Pow2]: [top/include/lk/pow2.h].  [Bytes]: byte arrays with bounds, which
      stand for [memcpy] and [memset] in the kernel files.
    - [CMem]: [memcpy], [memmove] and [memset] on a memory of bytes.  [CString]: the
      string functions and [ctype.c].  [CSort]: [qsort] and [bsearch].  [CNum]:
      [strtol], [strtoul] and the [atoi] family.  [CPrintf]: the printf engine and
      the [snprintf] family.
    - [Wire]: byte order and bit reversal, io vectors and the internet checksum.
    - [IntrusiveList]: [list.h] as pointer code ([Module Ptr]), its
      specification as a pool of sequences ([Module Pool]) and the refinement
      ([Module Refine]).  The kernel files use [Pool].
    - [Cbuf]: the circular buffer, refined to a queue of bytes.
    - [Pmm]: arenas, page structures and the boot allocator; [pinv] is the
      invariant.  [Miniheap]: the heap; [hinv] is the invariant.
    - [Vmm]: regions and address spaces over [Pmm] and over page tables given as a
      record of operations; [VmmSpec]: the region list and the search for a spot;
      [VmmInv]: the laws [MmuLaws] of the page tables and the invariant [ainv];
      [VmmAlloc]: the calls that allocate and free; [VmmSpace]: all address spaces
      together.  [Vm]: the start of the kernel's address space.  [VmmExamples]: a
      page table that satisfies the laws.  [Asid], [Novm]: the ids and the pages
      without an MMU.
    - [Port]: ports over the class [WaitQueues]; [PortInv], [PortSafe], [PortCalls]:
      their invariant and what each call does; [PortKernel]: the scheduler as an
      instance of the class; [PortExamples]: ports at concrete states.
    - [Bio]: devices, the default read, write and erase.  The class [Driver] is
      what these need of a driver's block hooks, the class [BlockDevice] what
      they promise to clients.  [BioMem]: the memory device of [lib/bio/mem.c]
      and the subdevices of [lib/bio/subdev.c] as instances.  [BioReg]: the
      registry, reference counts and publishing.  [Bcache]: the cache, proved
      against [BlockDevice].
    - [KState]: threads, wait queues, timers, cpus and synchronization objects in
      one record, and the state monad [M] with its weakest preconditions [wp].
      [Mp], [Timer], [Thread], [Sync]: the kernel files of these names, one
      definition per C function.
    - [ThreadInv]: the invariant [kinv] of queues, cpus and timers and the
      operations under one hold of the thread lock.  [ThreadSafety], [ThreadApi]:
      the operations that switch threads.  [Create]: creation and the boot.
      [SyncSpec]: mutexes, semaphores and events call by call.  [System]: the
      whole kernel as a step relation.  [MpSync]: [mp_sync_exec] and its interrupt
      as cpus that interleave, apart from the scheduler.  [LostWakeup]: two runs that show a race.
      [Examples]: the theorems at states reached by running the kernel.

    ** How code is modelled

    Integers are [Z]; where C wraps, [u8], [u32], [u64], [s32] and [s64] say so.
    An operation returns [Ok] or a fault: [DEBUG_ASSERT] ([AssertFailed]),
    [panic] ([Panicked]), an access outside of an object or through a null or
    unlinked pointer ([BadAccess]).  So a theorem that an operation returns [Ok]
    also says that no assertion fires.  Loops that are not structural have fuel,
    and too little of it is a fault too ([OutOfFuel]); every caller passes a bound
    that the theorems show to be enough: the number of bytes or blocks left for
    the copy loops, the length of the list for the list walks, the number of
    bits left for the search for a priority, twice the number of queued timers
    for the timer interrupt, twice the number of chunks for trimming the heap,
    the number of the device for a chain of parents, and 33 for the loop of
    [mp_sync_exec] over the cpus of a 32 bit mask; in the C library the number of
    mapped addresses for the loops that end at a zero byte, one frame per element
    for [qsort], two more rounds than elements for [bsearch], the size of the buffer
    for the digits of a number and four folds for the checksum.

    Kernel code under one hold of the thread lock is one atomic step of [M].
    Code that switches threads is a resumption [K], which breaks where others can
    run.  Safety is proved by rely and guarantee: each operation keeps [kinv] at
    every break, and each thread tolerates what the others guarantee.  The
    checks made just before the lock is taken belong to the critical section
    they guard, and a timer tick is one step.  The model is of a 64 bit kernel
    with 4 KiB pages, [WITH_SMP], [WITH_KERNEL_VM] and
    [PLATFORM_HAS_DYNAMIC_TIMER], debug assertions on.  Assertions about the
    interrupt state and about holding the lock, statistics, the stack bounds
    check, the event log, tracing and the debug commands are left out.  The other
    components run under their own lock, so each call is one step.  A page
    allocator behind the heap, a driver behind a device and the page tables behind
    an address space are arguments, with what the code relies on as hypotheses or
    a class.

    ** What is proved

    - The kernel never faults, whatever threads, interrupts, the clock and other
      cpus do within the contracts of the calls, and its invariant holds from the
      boot on ([System]).  The scheduler runs the first eligible thread of the
      highest priority; wait queues wake the longest waiting thread and lose
      none; timers fire when due and in order; mutexes, semaphores and events
      keep their counts in step with their waiters.
    - The list code implements sequences.  The circular buffer implements a
      queue of bytes.  The cache over any device implements an array of blocks,
      and a flush makes the device equal to it.  A subdevice implements a device
      on a window of its parent.
    - The page allocator and the heap hand out only free memory, with the
      requested size and alignment, never the same twice, and freeing restores
      what was there; resizing keeps contents, trimming keeps allocations.
    - A region has pages of its own, its addresses translate to them, and no call
      on any address space, successful or not, changes that for another region or
      loses a page.  The start-up takes the pages of the kernel's image out of the
      free ones.  Ids of address spaces are unique and are not reused before the
      others had their turn.
    - Port calls on live handles never use a missing buffer or freed memory, on the
      scheduler's own wait queues and whatever runs between them; packets arrive in
      order at every reader with room.  The hypothesis that a woken reader still
      has its port is needed, as an example shows.
    - [mp_sync_exec] runs the function once on each target before it returns, never
      touches the stack of a call that is gone, and returns as long as the cpus take
      their interrupts.
    - Reads, writes and erases of any byte range act on exactly that range,
      although the driver transfers whole blocks.  Reference counts of devices
      are those of their handles, and a device goes away with the last one.
    - The C library does what its reference definitions say: [memmove] is a copy
      through a buffer and [memset] a fill, for every alignment and overlap;
      [qsort] sorts any array below 2 GiB and [bsearch] then finds what is there;
      [strtol] saturates and reads back what the integer conversions print;
      [vsnprintf] stays inside its buffer.  The bit swaps reverse bits, numbers
      written are read back, gathering an io vector is a window of its
      concatenation, and a header with its checksum filled in verifies.
    - Some theorems show where the code does not do what it means to; they say so
      in their comments, and the theorems above have the hypotheses that keep
      clear of these cases (for instance a device below 4 GiB).

    ** Not modelled

    The system theorem leaves out the start of secondary cpus, destroying an
    object that has waiters with an immediate reschedule, [thread_join] and
    [thread_detach] (which need a single joiner) and [thread_set_real_time];
    these are defined in [Thread] and [Sync] but no step of the system uses them.
    The boot stops before the second bootstrap thread.  [MpSync] and [System] are
    two systems, not one: the function that [mp_sync_exec] runs is not scheduler
    code.  Architectures, platforms, targets and
    drivers are assembly and hardware access; what the kernel needs of them is
    steps or arguments of the model.  Of the C library, floating point, input and
    output, [strerror], [rand] and the compiler's support routines are left out, of
    networking everything but the checksum.  The kernel files use [Bytes] and not
    [CMem]: the two memories are not connected.  The models of the C library take a
    little endian machine with 64 bit words.  File systems, consoles, graphics, loaders, applications and third-party code are clients
    of the modelled parts or independent of them. *)
From stdpp Require Import prelude gmap.

#[local] Open Scope Z_scope.

(** * Status codes: [top/include/lk/err.h] *)

Definition NO_ERROR : Z := 0.
Definition ERR_GENERIC : Z := -1.
Definition ERR_NOT_FOUND : Z := -2.
Definition ERR_NOT_READY : Z := -3.
Definition ERR_NO_MSG : Z := -4.
Definition ERR_NO_MEMORY : Z := -5.
Definition ERR_INVALID_ARGS : Z := -8.
Definition ERR_NOT_ENOUGH_BUFFER : Z := -9.
Definition ERR_OBJECT_DESTROYED : Z := -11.
Definition ERR_NOT_BLOCKED : Z := -12.
Definition ERR_TIMED_OUT : Z := -13.
Definition ERR_ALREADY_EXISTS : Z := -14.
Definition ERR_NOT_ALLOWED : Z := -17.
Definition ERR_IO : Z := -20.
Definition ERR_NOT_SUPPORTED : Z := -24.
Definition ERR_TOO_BIG : Z := -25.
Definition ERR_CANCELLED : Z := -26.
Definition ERR_BUSY : Z := -33.
Definition ERR_THREAD_DETACHED : Z := -34.
Definition ERR_OUT_OF_RANGE : Z := -37.
Definition ERR_BAD_HANDLE : Z := -42.
Definition ERR_PARTIAL_WRITE : Z := -44.

(** * Faults and the error monad

    [DEBUG_ASSERT], [panic] and an access through a null or unlinked pointer
    end a computation of the model with a fault, so that a theorem that an
    operation returns [Ok] also says that none of its assertions fires.  A loop
    that is given too little fuel ends with [OutOfFuel], so the same theorems
    say that the loops terminate. *)

Inductive fault :=
| AssertFailed
| Panicked
| BadAccess
| OutOfFuel.

Inductive res (A : Type) : Type :=
| Ok (a : A)
| Fault (f : fault).
Arguments Ok {A} _.
Arguments Fault {A} _.

#[global] Instance res_ret : MRet res := @Ok.
#[global] Instance res_bind : MBind res :=
  λ A B f m, match m with Ok a => f a | Fault e => Fault e end.

Definition assert_ (b : bool) : res unit :=
  if b then Ok () else Fault AssertFailed.

Definition of_option {A} (f : fault) (o : option A) : res A :=
  match o with Some a => Ok a | None => Fault f end.

Lemma res_bind_Ok {A B} (m : res A) (f : A → res B) b :
  m ≫= f = Ok b ↔ ∃ a, m = Ok a ∧ f a = Ok b.
Proof.
  destruct m; simpl; [|split; [done|by intros (? & ? & ?)]].
  split; [by eauto|]. intros (? & [= ->] & ?). done.
Qed.

Lemma assert_Ok b u : assert_ b = Ok u ↔ b = true.
Proof. by destruct b, u. Qed.

Lemma of_option_Ok {A} f (o : option A) a : of_option f o = Ok a ↔ o = Some a.
Proof. destruct o; simpl; naive_solver. Qed.

(** * Machine integers *)

Definition u8 (x : Z) : Z := x `mod` 2 ^ 8.
Definition u32 (x : Z) : Z := x `mod` 2 ^ 32.
Definition u64 (x : Z) : Z := x `mod` 2 ^ 64.

Definition s32 (x : Z) : Z := (x + 2 ^ 31) `mod` 2 ^ 32 - 2 ^ 31.
Definition s64 (x : Z) : Z := (x + 2 ^ 63) `mod` 2 ^ 64 - 2 ^ 63.

(** * Alignment macros: [lib/libc/include/stdlib.h]

    The arguments are 64 bit values; [b] is a power of two at every use. *)

Definition MIN (a b : Z) : Z := if a <? b then a else b.
Definition MAX (a b : Z) : Z := if a >? b then a else b.
Definition ROUNDUP (a b : Z) : Z := Z.land (u64 (a + (b - 1))) (Z.lnot (b - 1)).
Definition ROUNDDOWN (a b : Z) : Z := Z.land a (Z.lnot (b - 1)).
Definition IS_ALIGNED (a b : Z) : bool := Z.land a (b - 1) =? 0.

(** * Wrap-around time comparison: [lib/libc/include/sys/types.h] *)

Definition INFINITE_TIME : Z := 2 ^ 32 - 1.
Definition TIME_GTE (a b : Z) : bool := 0 <=? s32 (u32 (a - b)).
Definition TIME_LTE (a b : Z) : bool := s32 (u32 (a - b)) <=? 0.
Definition TIME_GT (a b : Z) : bool := 0 <? s32 (u32 (a - b)).
Definition TIME_LT (a b : Z) : bool := s32 (u32 (a - b)) <? 0.

(** * Single bits of a mask *)

Definition bit (n : Z) : Z := Z.shiftl 1 n.
Definition set_bit (x n : Z) : Z := Z.lor x (bit n).
Definition clear_bit (x n : Z) : Z := Z.land x (Z.lnot (bit n)).

(** [__builtin_ctz] and [__builtin_ctzl] of a value that is not 0. *)
Fixpoint ctz_pos (p : positive) : Z :=
  match p with
  | xO p => 1 + ctz_pos p
  | _ => 0
  end.
Definition ctzl (x : Z) : Z := match x with Zpos p => ctz_pos p | _ => 0 end.

Definition has_flag (x f : Z) : bool := negb (Z.land x f =? 0).

(** * Proof automation *)

Create HintDb lk.

(** Case analysis on boolean integer tests, everywhere. *)
Ltac zbool :=
  repeat match goal with
  | H : (_ && _)%bool = true |- _ => apply andb_true_iff in H; destruct H
  | H : (_ || _)%bool = false |- _ => apply orb_false_iff in H; destruct H
  | H : negb _ = true |- _ => apply negb_true_iff in H
  | H : negb _ = false |- _ => apply negb_false_iff in H
  | H : (_ =? _) = true |- _ => apply Z.eqb_eq in H
  | H : (_ =? _) = false |- _ => apply Z.eqb_neq in H
  | H : (_ <? _) = true |- _ => apply Z.ltb_lt in H
  | H : (_ <? _) = false |- _ => apply Z.ltb_ge in H
  | H : (_ <=? _) = true |- _ => apply Z.leb_le in H
  | H : (_ <=? _) = false |- _ => apply Z.leb_gt in H
  | H : bool_decide _ = true |- _ => apply bool_decide_eq_true in H
  | H : bool_decide _ = false |- _ => apply bool_decide_eq_false in H
  end.

(** Inversion of successful computations of the error monad. *)
Ltac res_inv :=
  repeat match goal with
  | H : Ok _ = Ok _ |- _ => injection H as H
  | H : Fault _ = Ok _ |- _ => discriminate H
  | H : mret _ = Ok _ |- _ => unfold mret, res_ret in H
  | H : (_ ≫= _) = Ok _ |- _ =>
      let a := fresh "r" in let E := fresh "E" in
      apply res_bind_Ok in H; destruct H as (a & E & H); cbn beta in H
  | H : assert_ _ = Ok _ |- _ => apply assert_Ok in H
  | H : of_option _ _ = Ok _ |- _ => apply of_option_Ok in H
  | H : (let '(_, _) := ?p in _) = Ok _ |- _ => destruct p
  | H : (_, _) = (_, _) |- _ => injection H as H
  end.

(** Closed integer comparisons, by computation. *)
Ltac zcalc := vm_compute; solve [reflexivity | let H := fresh in intros H; discriminate H].

(** * Lemmas on machine integers *)

Lemma u32_range x : 0 ≤ u32 x < 2 ^ 32.
Proof. apply Z.mod_pos_bound. lia. Qed.

Lemma u64_range x : 0 ≤ u64 x < 2 ^ 64.
Proof. apply Z.mod_pos_bound. lia. Qed.

Lemma u32_small x : 0 ≤ x < 2 ^ 32 → u32 x = x.
Proof. apply Z.mod_small. Qed.

Lemma u64_small x : 0 ≤ x < 2 ^ 64 → u64 x = x.
Proof. apply Z.mod_small. Qed.

Lemma s32_range x : - 2 ^ 31 ≤ s32 x < 2 ^ 31.
Proof. unfold s32. pose proof (Z.mod_pos_bound (x + 2 ^ 31) (2 ^ 32)). lia. Qed.

Lemma s32_small x : - 2 ^ 31 ≤ x < 2 ^ 31 → s32 x = x.
Proof. intros. unfold s32. rewrite Z.mod_small; lia. Qed.

Lemma s64_small x : - 2 ^ 63 ≤ x < 2 ^ 63 → s64 x = x.
Proof. intros. unfold s64. rewrite Z.mod_small; lia. Qed.

(** The signed reading of a 32 bit difference of two times that are less than
    half the range apart is their difference. *)
Lemma s32_u32_diff d : - 2 ^ 31 ≤ d < 2 ^ 31 → s32 (u32 d) = d.
Proof.
  intros. unfold s32, u32.
  rewrite Zplus_mod_idemp_l, Z.mod_small; lia.
Qed.

(** * Lemmas on bits *)

Lemma land_lnot_ones x k : 0 ≤ k → Z.land x (Z.lnot (2 ^ k - 1)) = 2 ^ k * (x / 2 ^ k).
Proof.
  intros. replace (2 ^ k - 1) with (Z.ones k) by (rewrite Z.ones_equiv; lia).
  rewrite <- Z.ldiff_land, Z.ldiff_ones_r by done.
  rewrite Z.shiftl_mul_pow2, Z.shiftr_div_pow2 by done. lia.
Qed.

Lemma land_ones' x k : 0 ≤ k → Z.land x (2 ^ k - 1) = x `mod` 2 ^ k.
Proof.
  intros. replace (2 ^ k - 1) with (Z.ones k) by (rewrite Z.ones_equiv; lia).
  by apply Z.land_ones.
Qed.

Lemma ROUNDDOWN_spec a k : 0 ≤ k → ROUNDDOWN a (2 ^ k) = a - a `mod` 2 ^ k.
Proof.
  intros. unfold ROUNDDOWN. rewrite land_lnot_ones by done.
  pose proof (Z.div_mod a (2 ^ k)). lia.
Qed.

Lemma ROUNDUP_spec a k :
  0 ≤ k → 0 ≤ a → a + (2 ^ k - 1) < 2 ^ 64 →
  ROUNDUP a (2 ^ k) = 2 ^ k * ((a + (2 ^ k - 1)) / 2 ^ k).
Proof.
  intros. unfold ROUNDUP. rewrite land_lnot_ones, u64_small; [done| |done].
  pose proof (Z.pow_pos_nonneg 2 k). lia.
Qed.

(** [ROUNDUP] is the least multiple of [2^k] that is not below [a]. *)
Lemma ROUNDUP_bounds a k :
  0 ≤ k → 0 ≤ a → a + (2 ^ k - 1) < 2 ^ 64 →
  a ≤ ROUNDUP a (2 ^ k) < a + 2 ^ k ∧ (2 ^ k | ROUNDUP a (2 ^ k)).
Proof.
  intros. rewrite ROUNDUP_spec by done.
  pose proof (Z.pow_pos_nonneg 2 k).
  split; [|by exists ((a + (2 ^ k - 1)) / 2 ^ k); lia].
  pose proof (Z.div_mod (a + (2 ^ k - 1)) (2 ^ k)).
  pose proof (Z.mod_pos_bound (a + (2 ^ k - 1)) (2 ^ k)). lia.
Qed.

Lemma IS_ALIGNED_spec a k : 0 ≤ k → IS_ALIGNED a (2 ^ k) = true ↔ (2 ^ k | a).
Proof.
  intros. unfold IS_ALIGNED. rewrite land_ones' by done. rewrite Z.eqb_eq.
  pose proof (Z.pow_pos_nonneg 2 k).
  rewrite Z.mod_divide by lia. done.
Qed.

Lemma bit_testbit n i : 0 ≤ n → Z.testbit (bit n) i = (n =? i).
Proof.
  intros. unfold bit. rewrite Z.shiftl_1_l.
  destruct (Z.eqb_spec n i) as [->|]; [by apply Z.pow2_bits_true|].
  by apply Z.pow2_bits_false.
Qed.

Lemma has_flag_bit x n : 0 ≤ n → has_flag x (bit n) = Z.testbit x n.
Proof.
  intros Hn. unfold has_flag. destruct (Z.testbit x n) eqn:E.
  - destruct (Z.eqb_spec (Z.land x (bit n)) 0) as [H|]; [|done].
    assert (Z.testbit (Z.land x (bit n)) n = false) as H2 by (rewrite H; apply Z.bits_0).
    rewrite Z.land_spec, bit_testbit, E, Z.eqb_refl in H2 by done. done.
  - destruct (Z.eqb_spec (Z.land x (bit n)) 0) as [|H]; [done|]. destruct H.
    apply Z.bits_inj'. intros i Hi. rewrite Z.land_spec, bit_testbit, Z.bits_0 by done.
    destruct (Z.eqb_spec n i) as [<-|]; [by rewrite E|]. by rewrite andb_false_r.
Qed.

Lemma set_bit_testbit x n i :
  0 ≤ n → Z.testbit (set_bit x n) i = Z.testbit x i || (n =? i).
Proof. intros. unfold set_bit. by rewrite Z.lor_spec, bit_testbit. Qed.

Lemma clear_bit_testbit x n i :
  0 ≤ n → 0 ≤ i → Z.testbit (clear_bit x n) i = Z.testbit x i && negb (n =? i).
Proof.
  intros. unfold clear_bit. by rewrite Z.land_spec, Z.lnot_spec, bit_testbit.
Qed.

Lemma set_bit_nonneg x n : 0 ≤ x → 0 ≤ n → 0 ≤ set_bit x n.
Proof.
  intros. unfold set_bit, bit. apply Z.lor_nonneg. split; [done|].
  apply Z.shiftl_nonneg. lia.
Qed.

Lemma clear_bit_nonneg x n : 0 ≤ x → 0 ≤ clear_bit x n.
Proof. intros. unfold clear_bit. apply Z.land_nonneg. by left. Qed.
#[export] Hint Resolve set_bit_nonneg clear_bit_nonneg u32_range u64_range : lk.

(** A nonnegative number with no bit at or above [n] is below [2^n]. *)
Lemma bits_bound x n :
  0 ≤ x → 0 ≤ n → (∀ i, n ≤ i → Z.testbit x i = false) → x < 2 ^ n.
Proof.
  intros Hx Hn Hb. destruct (decide (x = 0)) as [->|]; [by apply Z.pow_pos_nonneg; lia|].
  apply Z.log2_lt_pow2; [lia|].
  destruct (decide (Z.log2 x < n)); [done|].
  specialize (Hb (Z.log2 x)). rewrite Z.bit_log2 in Hb by lia. naive_solver lia.
Qed.

Lemma testbit_above x n i : 0 ≤ x < 2 ^ n → n ≤ i → Z.testbit x i = false.
Proof.
  intros [Hx Hl] Hi. destruct (decide (x = 0)) as [->|]; [apply Z.bits_0|].
  apply Z.bits_above_log2; [done|].
  assert (0 ≤ n) by (destruct (decide (0 ≤ n)); [done|rewrite Z.pow_neg_r in Hl; lia]).
  apply Z.log2_lt_pow2 in Hl; lia.
Qed.

(** A nonzero mask has its highest set bit at [Z.log2]. *)
Lemma log2_highest x i :
  0 < x → Z.testbit x (Z.log2 x) = true ∧ (Z.log2 x < i → Z.testbit x i = false).
Proof.
  intros. split; [by apply Z.bit_log2|].
  intros. apply Z.bits_above_log2; lia.
Qed.

Lemma ctzl_spec x :
  0 < x → 0 ≤ ctzl x ∧ Z.testbit x (ctzl x) = true ∧ ∀ j, j < ctzl x → Z.testbit x j = false.
Proof.
  destruct x as [|p|p]; try lia. intros _. cbn [ctzl]. induction p as [p IH|p IH|]; cbn [ctz_pos].
  - split_and!; [lia|done|]. intros j Hj. by rewrite Z.testbit_neg_r by lia.
  - destruct IH as (H0 & H1 & H2). change (Z.pos p~0) with (2 * Z.pos p). split_and!; [lia| |].
    + replace (1 + ctz_pos p) with (Z.succ (ctz_pos p)) by lia. by rewrite Z.testbit_even_succ by lia.
    + intros j Hj. destruct (Z.lt_ge_cases j 1); [destruct (Z.eq_dec j 0) as [->|]; [by rewrite Z.testbit_even_0|by rewrite Z.testbit_neg_r by lia]|].
      replace j with (Z.succ (j - 1)) by lia. rewrite Z.testbit_even_succ by lia. apply H2. lia.
  - split_and!; [lia|done|]. intros j Hj. by rewrite Z.testbit_neg_r by lia.
Qed.

Lemma clear_bit_lt x n : 0 < x → Z.testbit x n = true → 0 ≤ clear_bit x n < x.
Proof.
  intros Hx Hn. split; [apply clear_bit_nonneg; lia|].
  assert (0 ≤ n) by (destruct (decide (0 ≤ n)); [done|]; rewrite Z.testbit_neg_r in Hn; [done|lia]).
  assert (x = clear_bit x n + bit n) as Hs; [|].
  { rewrite Z.add_nocarry_lxor; apply Z.bits_inj'; intros i Hi.
    - rewrite Z.lxor_spec, clear_bit_testbit, bit_testbit by done.
      destruct (Z.eqb_spec n i) as [<-|]; [by rewrite Hn|]. by destruct (Z.testbit x i).
    - rewrite Z.land_spec, clear_bit_testbit, bit_testbit, Z.bits_0 by done.
      by destruct (Z.testbit x i), (n =? i). }
  assert (0 < bit n); [|lia].
  unfold bit. rewrite Z.shiftl_1_l. apply Z.pow_pos_nonneg; lia.
Qed.
