(* ===== verification/Pow2.v ===== *)
(** Power-of-two helpers of [top/include/lk/pow2.h]: the definitions the ring
    buffers and block devices compute their indices with, and the arithmetic
    each of the bit tricks stands for. *)
From stdpp Require Import prelude.
From S2P Require Import Prelude.

#[local] Open Scope Z_scope.

(** [__builtin_clz] of a nonzero 32 bit value. *)
Definition clz32 (x : Z) : Z := 31 - Z.log2 x.

Definition ispow2 (val : Z) : bool := Z.land (u32 (val - 1)) val =? 0.
Definition log2_uint (val : Z) : Z :=
  if val =? 0 then 0 else 32 - 1 - clz32 val.
Definition valpow2 (valp2 : Z) : Z := u32 (Z.shiftl 1 valp2).
Definition divpow2 (val divp2 : Z) : Z := Z.shiftr val divp2.
Definition modpow2 (val modp2 : Z) : Z := u32 (Z.land val (Z.shiftl 1 modp2 - 1)).

Definition smear (v n : Z) : Z := Z.lor v (Z.shiftr v n).
Definition round_up_pow2_u32 (v0 : Z) : Z :=
  let v := u32 (v0 - 1) in
  let v := smear v 1 in
  let v := smear v 2 in
  let v := smear v 4 in
  let v := smear v 8 in
  let v := smear v 16 in
  u32 (v + 1).


(** * What the bit tricks compute *)

Lemma log2_uint_pos val : 0 < val → log2_uint val = Z.log2 val.
Proof. intros. unfold log2_uint, clz32. destruct (Z.eqb_spec val 0); lia. Qed.

Lemma log2_uint_range val : 0 ≤ val < 2 ^ 32 → 0 ≤ log2_uint val < 32.
Proof.
  intros. destruct (decide (val = 0)) as [->|]; [done|].
  rewrite log2_uint_pos by lia. split; [apply Z.log2_nonneg|].
  apply Z.log2_lt_pow2; lia.
Qed.

Lemma valpow2_pow k : 0 ≤ k < 32 → valpow2 k = 2 ^ k.
Proof.
  intros. unfold valpow2. rewrite Z.shiftl_1_l. apply u32_small.
  split; [lia|]. apply Z.pow_lt_mono_r; lia.
Qed.

Lemma modpow2_mod val k : 0 ≤ val → 0 ≤ k ≤ 32 → modpow2 val k = val `mod` 2 ^ k.
Proof.
  intros. unfold modpow2. rewrite Z.shiftl_1_l, land_ones' by lia.
  apply u32_small. pose proof (Z.pow_pos_nonneg 2 k).
  pose proof (Z.mod_pos_bound val (2 ^ k)).
  pose proof (Z.pow_le_mono_r 2 k 32). lia.
Qed.

Lemma divpow2_div val k : 0 ≤ k → divpow2 val k = val / 2 ^ k.
Proof. intros. unfold divpow2. by apply Z.shiftr_div_pow2. Qed.

Lemma land_pred_pow2 k : 0 ≤ k → Z.land (2 ^ k - 1) (2 ^ k) = 0.
Proof.
  intros. rewrite Z.land_comm, land_ones' by done. apply Z.mod_same.
  pose proof (Z.pow_pos_nonneg 2 k). lia.
Qed.

(** [ispow2] accepts exactly zero and the powers of two. *)
Lemma ispow2_iff val :
  0 ≤ val < 2 ^ 32 → ispow2 val = true ↔ val = 0 ∨ ∃ k, 0 ≤ k < 32 ∧ val = 2 ^ k.
Proof.
  intros Hr. unfold ispow2. rewrite Z.eqb_eq.
  destruct (decide (val = 0)) as [->|Hne].
  { split; [by left|done]. }
  rewrite u32_small by lia. split.
  - intros Hl. right. exists (Z.log2 val).
    assert (0 ≤ Z.log2 val < 32) as Hk.
    { split; [apply Z.log2_nonneg|apply Z.log2_lt_pow2; lia]. }
    split; [done|].
    destruct (Z.log2_spec val ltac:(lia)) as [Hlo Hhi].
    destruct (decide (val = 2 ^ Z.log2 val)) as [|Hn]; [done|exfalso].
    assert (Z.log2 (val - 1) = Z.log2 val) as Hl2.
    { apply Z.log2_unique; lia. }
    assert (Z.testbit (Z.land (val - 1) val) (Z.log2 val) = true) as Hb.
    { rewrite Z.land_spec, (Z.bit_log2 val) by lia. rewrite <- Hl2, Z.bit_log2; [done|].
      pose proof (Z.pow_pos_nonneg 2 (Z.log2 val)). lia. }
    rewrite Hl, Z.bits_0 in Hb. done.
  - intros [->|(k & Hk & ->)]; [done|]. apply land_pred_pow2. lia.
Qed.

Lemma pow2_log2_uint k : 0 ≤ k < 32 → log2_uint (2 ^ k) = k.
Proof.
  intros. rewrite log2_uint_pos by (apply Z.pow_pos_nonneg; lia).
  apply Z.log2_pow2. lia.
Qed.

(** Bit [i] of a value smeared over a window: some bit of the window
    [i, i + w) of the original is set. *)
Definition smeared (x w v : Z) : Prop :=
  ∀ i, 0 ≤ i → Z.testbit v i = true ↔ ∃ j, i ≤ j < i + w ∧ Z.testbit x j = true.

Lemma smear_step x w v : 0 < w → smeared x w v → smeared x (w + w) (smear v w).
Proof.
  intros Hw Hv i Hi. unfold smear. rewrite Z.lor_spec, Z.shiftr_spec by lia.
  rewrite orb_true_iff, (Hv i) by lia. rewrite (Hv (i + w)) by lia. split.
  - intros [(j & ? & ?)|(j & ? & ?)]; exists j; split; try done; lia.
  - intros (j & ? & ?). destruct (decide (j < i + w)); [left|right]; exists j; split; try done; lia.
Qed.

Lemma smear_32 x v :
  v = smear (smear (smear (smear (smear x 1) 2) 4) 8) 16 → smeared x 32 v.
Proof.
  intros ->.
  apply (smear_step x 16), (smear_step x 8), (smear_step x 4), (smear_step x 2),
    (smear_step x 1); try lia.
  intros i Hi. split; [intros; exists i; split; [lia|done]|].
  intros (j & ? & ?). by replace i with j by lia.
Qed.

(** Smearing a nonzero 32 bit value over 32 bits fills every bit up to the
    highest one. *)
Lemma smeared_32_ones x v :
  0 < x < 2 ^ 32 → 0 ≤ v → smeared x 32 v → v = 2 ^ (Z.log2 x + 1) - 1.
Proof.
  intros Hx Hv Hs.
  assert (0 ≤ Z.log2 x < 32) as Hl.
  { split; [apply Z.log2_nonneg|apply Z.log2_lt_pow2; lia]. }
  replace (2 ^ (Z.log2 x + 1) - 1) with (Z.ones (Z.log2 x + 1)) by (rewrite Z.ones_equiv; lia).
  apply Z.bits_inj'. intros i Hi. rewrite Z.testbit_ones_nonneg by lia.
  apply eq_bool_prop_intro. rewrite !Is_true_true, (Hs i Hi), Z.ltb_lt. split.
  - intros (j & Hj & Hb). destruct (decide (i < Z.log2 x + 1)); [done|].
    rewrite Z.bits_above_log2 in Hb by lia. done.
  - intros. exists (Z.log2 x). split; [lia|]. apply Z.bit_log2; lia.
Qed.

Lemma smear_nonneg v n : 0 ≤ v → 0 ≤ smear v n.
Proof. intros. unfold smear. apply Z.lor_nonneg. split; [done|]. by apply Z.shiftr_nonneg. Qed.

(** [round_up_pow2_u32] returns the least power of two not below its
    argument, for every argument whose result fits in 32 bits. *)
Theorem round_up_pow2_least v :
  1 ≤ v ≤ 2 ^ 31 →
  ∃ k, 0 ≤ k < 32 ∧ round_up_pow2_u32 v = 2 ^ k ∧ v ≤ 2 ^ k ∧ (k = 0 ∨ 2 ^ (k - 1) < v).
Proof.
  intros Hv. unfold round_up_pow2_u32. rewrite (u32_small (v - 1)) by lia. cbv zeta.
  destruct (decide (v = 1)) as [->|].
  { exists 0. repeat split; try lia. }
  rewrite (smeared_32_ones (v - 1) (smear (smear (smear (smear (smear (v - 1) 1) 2) 4) 8) 16));
    [|lia|by repeat apply smear_nonneg; lia|by apply smear_32].
  exists (Z.log2 (v - 1) + 1).
  destruct (Z.log2_spec (v - 1) ltac:(lia)) as [Hlo Hhi].
  assert (Z.log2 (v - 1) < 31) by (apply Z.log2_lt_pow2; lia).
  pose proof (Z.log2_nonneg (v - 1)).
  replace (2 ^ (Z.log2 (v - 1) + 1) - 1 + 1) with (2 ^ (Z.log2 (v - 1) + 1)) by lia.
  rewrite u32_small.
  - repeat split; try lia. right. replace (Z.log2 (v - 1) + 1 - 1) with (Z.log2 (v - 1)) by lia. lia.
  - split; [apply Z.pow_nonneg; lia|]. apply Z.pow_lt_mono_r; lia.
Qed.

Lemma round_up_pow2_least_witness :
  ∃ k, 0 ≤ k < 32 ∧ round_up_pow2_u32 100 = 2 ^ k ∧ 100 ≤ 2 ^ k ∧ (k = 0 ∨ 2 ^ (k - 1) < 100).
Proof. apply (round_up_pow2_least 100). lia. Defined.
