(* ===== verification/Bytes.v ===== *)
(** Byte arrays with bounds: [memcpy] and [memset] of a range, which fault
    outside the array, and their lemmas. *)
From stdpp Require Import prelude.
From S2P Require Import Prelude.

#[local] Open Scope Z_scope.

Definition zlen {A} (l : list A) : Z := Z.of_nat (length l).
Definition ztake {A} (n : Z) (l : list A) : list A := take (Z.to_nat n) l.
Definition zdrop {A} (n : Z) (l : list A) : list A := drop (Z.to_nat n) l.
Definition znth {A} (l : list A) (i : Z) : option A := if i <? 0 then None else l !! Z.to_nat i.

(** The range is inside an array of [size] elements. *)
Definition in_range (off n size : Z) : bool := (0 <=? off) && (0 <=? n) && (off + n <=? size).

Definition mem_read {A} (l : list A) (off n : Z) : res (list A) :=
  if in_range off n (zlen l) then Ok (ztake n (zdrop off l)) else Fault BadAccess.

Definition splice {A} (off : Z) (d l : list A) : list A :=
  ztake off l ++ d ++ zdrop (off + zlen d) l.

Definition mem_write {A} (off : Z) (d l : list A) : res (list A) :=
  if in_range off (zlen d) (zlen l) then Ok (splice off d l) else Fault BadAccess.

(** * Lemmas *)

Lemma zlen_nonneg {A} (l : list A) : 0 ≤ zlen l.
Proof. unfold zlen. lia. Qed.

Lemma zlen_app {A} (l k : list A) : zlen (l ++ k) = zlen l + zlen k.
Proof. unfold zlen. rewrite length_app. lia. Qed.

Lemma zlen_cons {A} (x : A) l : zlen (x :: l) = 1 + zlen l.
Proof. unfold zlen. simpl. lia. Qed.

Lemma zlen_ztake {A} n (l : list A) : 0 ≤ n ≤ zlen l → zlen (ztake n l) = n.
Proof. unfold zlen, ztake. intros. rewrite length_take. lia. Qed.

Lemma zlen_zdrop {A} n (l : list A) : 0 ≤ n ≤ zlen l → zlen (zdrop n l) = zlen l - n.
Proof. unfold zlen, zdrop. intros. rewrite length_drop. lia. Qed.

Lemma zlen_replicate {A} n (x : A) : 0 ≤ n → zlen (replicate (Z.to_nat n) x) = n.
Proof. intros. unfold zlen. rewrite length_replicate. lia. Qed.

Lemma in_range_iff off n size : in_range off n size = true ↔ 0 ≤ off ∧ 0 ≤ n ∧ off + n ≤ size.
Proof. unfold in_range. rewrite !andb_true_iff, !Z.leb_le. tauto. Qed.

Lemma mem_read_Ok {A} (l : list A) off n :
  0 ≤ off → 0 ≤ n → off + n ≤ zlen l → mem_read l off n = Ok (ztake n (zdrop off l)).
Proof. intros. unfold mem_read. by rewrite (proj2 (in_range_iff _ _ _)). Qed.

Lemma mem_write_Ok {A} off (d l : list A) :
  0 ≤ off → off + zlen d ≤ zlen l → mem_write off d l = Ok (splice off d l).
Proof.
  intros. unfold mem_write. rewrite (proj2 (in_range_iff _ _ _)); [done|].
  pose proof (zlen_nonneg d). lia.
Qed.

Lemma znth_lookup {A} (l : list A) i : 0 ≤ i → znth l i = l !! Z.to_nat i.
Proof. intros. unfold znth. by destruct (Z.ltb_spec i 0); [lia|]. Qed.

Lemma znth_Some {A} (l : list A) i : 0 ≤ i < zlen l → is_Some (znth l i).
Proof. unfold zlen. intros. rewrite znth_lookup by lia. apply lookup_lt_is_Some. lia. Qed.

Lemma znth_app_l {A} (l k : list A) i : 0 ≤ i < zlen l → znth (l ++ k) i = znth l i.
Proof. unfold zlen. intros. rewrite !znth_lookup by lia. apply lookup_app_l. lia. Qed.

Lemma znth_app_r {A} (l k : list A) i : zlen l ≤ i → znth (l ++ k) i = znth k (i - zlen l).
Proof.
  unfold zlen. intros. rewrite !znth_lookup by lia. rewrite lookup_app_r by lia. f_equal. lia.
Qed.

Lemma znth_ztake {A} (l : list A) n i : i < n → znth (ztake n l) i = znth l i.
Proof.
  intros. unfold znth, ztake. destruct (Z.ltb_spec i 0); [done|]. apply lookup_take_lt. lia.
Qed.

Lemma znth_zdrop {A} (l : list A) n i : 0 ≤ n → 0 ≤ i → znth (zdrop n l) i = znth l (n + i).
Proof.
  intros. rewrite !znth_lookup by lia. unfold zdrop. rewrite lookup_drop. f_equal. lia.
Qed.

Lemma znth_ge {A} (l : list A) i : zlen l ≤ i → znth l i = None.
Proof. unfold zlen. intros. rewrite znth_lookup by lia. apply lookup_ge_None_2. lia. Qed.

Lemma zlist_eq {A} (l k : list A) :
  zlen l = zlen k → (∀ i, 0 ≤ i < zlen l → znth l i = znth k i) → l = k.
Proof.
  unfold zlen. intros Hl Hi. apply list_eq. intros i. destruct (decide (i < length l)%nat) as [Hlt|Hge].
  - specialize (Hi (Z.of_nat i)). rewrite !znth_lookup, Nat2Z.id in Hi by lia. apply Hi. lia.
  - rewrite !lookup_ge_None_2 by lia. done.
Qed.

Lemma zlen_splice {A} off (d l : list A) :
  0 ≤ off → off + zlen d ≤ zlen l → zlen (splice off d l) = zlen l.
Proof.
  intros. pose proof (zlen_nonneg d). unfold splice. rewrite !zlen_app, zlen_ztake, zlen_zdrop by lia. lia.
Qed.

Lemma znth_splice {A} off (d l : list A) i :
  0 ≤ off → off + zlen d ≤ zlen l → 0 ≤ i →
  znth (splice off d l) i =
    if (off <=? i) && (i <? off + zlen d) then znth d (i - off) else znth l i.
Proof.
  intros Ho Hd Hi. pose proof (zlen_nonneg d) as Hn. unfold splice.
  destruct (Z.leb_spec off i), (Z.ltb_spec i (off + zlen d)); cbn [andb].
  - rewrite znth_app_r, zlen_ztake by (rewrite ?zlen_ztake; lia). by rewrite znth_app_l by lia.
  - rewrite znth_app_r, zlen_ztake by (rewrite ?zlen_ztake; lia). rewrite znth_app_r by lia.
    rewrite znth_zdrop by lia. f_equal. lia.
  - rewrite znth_app_l by (rewrite zlen_ztake; lia). apply znth_ztake. lia.
  - rewrite znth_app_l by (rewrite zlen_ztake; lia). apply znth_ztake. lia.
Qed.

Lemma ztake_app_zdrop {A} n m (l : list A) :
  0 ≤ n → 0 ≤ m → ztake n l ++ ztake m (zdrop n l) = ztake (n + m) l.
Proof.
  intros. unfold ztake, zdrop. rewrite Z2Nat.inj_add by done.
  rewrite take_take_drop. done.
Qed.

(** Taking first from [l] and then, once [l] is used up, from [k]. *)
Lemma ztake_zdrop_app {A} n m (l k : list A) :
  0 ≤ n ≤ zlen l → 0 ≤ m → (m = 0 ∨ n = zlen l) →
  ztake (n + m) (l ++ k) = ztake n l ++ ztake m k ∧ zdrop (n + m) (l ++ k) = zdrop n l ++ zdrop m k.
Proof.
  unfold ztake, zdrop, zlen. intros Hn Hm [->| ->].
  - rewrite Z.add_0_r. simpl. rewrite app_nil_r, take_app_le, drop_app_le by lia. done.
  - rewrite Z2Nat.inj_add, Nat2Z.id by lia.
    by rewrite take_app_add, drop_app_add, firstn_all, drop_all.
Qed.

(** * Slices *)

Definition slice {A} (off n : Z) (l : list A) : list A := ztake n (zdrop off l).

Lemma zlen_slice {A} off n (l : list A) : 0 ≤ off → 0 ≤ n → off + n ≤ zlen l → zlen (slice off n l) = n.
Proof. intros. unfold slice. rewrite zlen_ztake; [done|]. rewrite zlen_zdrop; lia. Qed.

Lemma znth_slice {A} off n (l : list A) i : 0 ≤ off → 0 ≤ i < n → znth (slice off n l) i = znth l (off + i).
Proof. intros. unfold slice. rewrite znth_ztake, znth_zdrop by lia. done. Qed.

Lemma slice_0 {A} off (l : list A) : slice off 0 l = [].
Proof. done. Qed.

Lemma zdrop_zdrop {A} n m (l : list A) : 0 ≤ n → 0 ≤ m → zdrop m (zdrop n l) = zdrop (n + m) l.
Proof. intros. unfold zdrop. rewrite drop_drop. f_equal. lia. Qed.

Lemma slice_app {A} off n m (l : list A) :
  0 ≤ off → 0 ≤ n → 0 ≤ m → slice off n l ++ slice (off + n) m l = slice off (n + m) l.
Proof. intros. unfold slice. rewrite <- (zdrop_zdrop off n) by lia. by apply ztake_app_zdrop. Qed.

Lemma slice_slice {A} o m i n (l : list A) :
  0 ≤ o → 0 ≤ i → 0 ≤ n → i + n ≤ m → o + m ≤ zlen l → slice i n (slice o m l) = slice (o + i) n l.
Proof.
  intros. apply zlist_eq; [rewrite !zlen_slice; rewrite ?zlen_slice; lia|].
  rewrite zlen_slice by (rewrite ?zlen_slice; lia). intros j Hj. rewrite !znth_slice by lia. f_equal. lia.
Qed.

Lemma ztake_slice {A} n o m (l : list A) : 0 ≤ n ≤ m → ztake n (slice o m l) = slice o n l.
Proof. intros. unfold slice, ztake. rewrite take_take. f_equal. lia. Qed.

Lemma ztake_all {A} n (l : list A) : zlen l ≤ n → ztake n l = l.
Proof. unfold ztake, zlen. intros. apply take_ge. lia. Qed.

Lemma splice_nil {A} off (l : list A) : splice off [] l = l.
Proof. unfold splice. change (zlen []) with 0. rewrite Z.add_0_r. unfold ztake, zdrop. cbn [app]. apply take_drop. Qed.

(** Two adjacent writes are one. *)
Lemma splice_app {A} off (a b l : list A) :
  0 ≤ off → off + zlen a + zlen b ≤ zlen l → splice (off + zlen a) b (splice off a l) = splice off (a ++ b) l.
Proof.
  intros Ho Hl. pose proof (zlen_nonneg a) as Ha. pose proof (zlen_nonneg b) as Hb.
  assert (zlen (splice off a l) = zlen l) as Es by (rewrite zlen_splice; lia).
  apply zlist_eq; [rewrite !zlen_splice; rewrite ?zlen_app, ?Es; lia|].
  rewrite zlen_splice by (rewrite ?Es; lia). rewrite Es. intros i Hi.
  rewrite !znth_splice by (rewrite ?Es, ?zlen_app; lia). rewrite zlen_app.
  destruct (Z.leb_spec (off + zlen a) i), (Z.ltb_spec i (off + zlen a + zlen b)),
    (Z.leb_spec off i), (Z.ltb_spec i (off + zlen a)), (Z.ltb_spec i (off + (zlen a + zlen b)));
    cbn [andb]; try lia; try done.
  - rewrite znth_app_r by lia. f_equal. lia.
  - rewrite znth_app_l by lia. done.
Qed.

(** Changing a part of a block and writing the block back changes the part. *)
Lemma splice_block {A} o n r (x l : list A) :
  0 ≤ o → 0 ≤ r → r + zlen x ≤ n → o + n ≤ zlen l →
  splice o (splice r x (slice o n l)) l = splice (o + r) x l.
Proof.
  intros Ho Hr Hx Hn. pose proof (zlen_nonneg x).
  assert (zlen (slice o n l) = n) as E1 by (rewrite zlen_slice; lia).
  assert (zlen (splice r x (slice o n l)) = n) as E2 by (rewrite zlen_splice; lia).
  apply zlist_eq; [rewrite !zlen_splice; lia|]. rewrite zlen_splice by lia. intros i Hi.
  rewrite (znth_splice o), (znth_splice (o + r)), E2 by lia.
  destruct (Z.leb_spec o i), (Z.ltb_spec i (o + n)); cbn [andb].
  - rewrite znth_splice by lia.
    destruct (Z.leb_spec r (i - o)), (Z.ltb_spec (i - o) (r + zlen x)), (Z.leb_spec (o + r) i), (Z.ltb_spec i (o + r + zlen x));
      cbn [andb]; try lia; [f_equal; lia|rewrite znth_slice by lia; f_equal; lia..].
  - destruct (Z.leb_spec (o + r) i), (Z.ltb_spec i (o + r + zlen x)); cbn [andb]; lia || done.
  - destruct (Z.leb_spec (o + r) i), (Z.ltb_spec i (o + r + zlen x)); cbn [andb]; lia || done.
  - destruct (Z.leb_spec (o + r) i), (Z.ltb_spec i (o + r + zlen x)); cbn [andb]; lia || done.
Qed.

(** A part that a write does not touch. *)
Lemma slice_splice_after {A} off (a l : list A) o n :
  0 ≤ off → off + zlen a ≤ o → 0 ≤ n → o + n ≤ zlen l → slice o n (splice off a l) = slice o n l.
Proof.
  intros. pose proof (zlen_nonneg a). assert (zlen (splice off a l) = zlen l) as Es by (rewrite zlen_splice; lia).
  apply zlist_eq; [rewrite !zlen_slice; lia|]. rewrite zlen_slice by lia. intros i Hi.
  rewrite !znth_slice, znth_splice by lia. rewrite (proj2 (Z.ltb_ge _ _)), andb_false_r by lia. done.
Qed.

(** What was written is read back. *)
Lemma slice_splice {A} off (a l : list A) :
  0 ≤ off → off + zlen a ≤ zlen l → slice off (zlen a) (splice off a l) = a.
Proof.
  intros. pose proof (zlen_nonneg a). assert (zlen (splice off a l) = zlen l) as Es by (rewrite zlen_splice; lia).
  apply zlist_eq; [rewrite zlen_slice; lia|]. rewrite zlen_slice by lia. intros i Hi.
  rewrite znth_slice, znth_splice by lia. rewrite (proj2 (Z.leb_le _ _)), (proj2 (Z.ltb_lt _ _)) by lia.
  cbn [andb]. f_equal. lia.
Qed.
