(* ===== verification/CMem.v ===== *)
(** Moving and filling memory: [lib/libc/string/memcpy.c], [memmove.c] and
    [memset.c].

    Memory maps addresses to bytes; an access outside of it is a fault, and so is
    an access to a word that is not aligned.  The loops move words where they can
    and keep their counters in [int]; each is a recursion on the number of its
    rounds.  The theorems say that they do what moving byte by byte through a copy
    of the source does, for every alignment and overlap.  The functions return their
    first argument, so the model returns the memory only. *)
From stdpp Require Import prelude gmap.
From S2P Require Import Prelude.

#[local] Open Scope Z_scope.

Notation mem := (gmap Z Z).

(** * The code *)

Definition load (m : mem) (a : Z) : res Z := of_option BadAccess (m !! a).
Definition store (m : mem) (a v : Z) : res mem := _ ← load m a; Ok (<[a := u8 v]> m).

Fixpoint load_bytes (m : mem) (a : Z) (n : nat) : res (list Z) :=
  match n with
  | O => Ok []
  | S n => b ← load m a; l ← load_bytes m (a + 1) n; Ok (b :: l)
  end.

Fixpoint store_bytes (m : mem) (a : Z) (l : list Z) : res mem :=
  match l with
  | [] => Ok m
  | b :: l => m ← store m a b; store_bytes m (a + 1) l
  end.

(** Little endian words. *)
Fixpoint le_combine (l : list Z) : Z :=
  match l with [] => 0 | b :: l => b + 2 ^ 8 * le_combine l end.
Fixpoint le_split (n : nat) (v : Z) : list Z :=
  match n with O => [] | S n => v `mod` 2 ^ 8 :: le_split n (v / 2 ^ 8) end.

Definition lsize : Z := 8.
Definition lmask : Z := lsize - 1.

Definition load_word (m : mem) (a : Z) : res Z :=
  if Z.land a lmask =? 0 then l ← load_bytes m a 8; Ok (le_combine l) else Fault BadAccess.
Definition store_word (m : mem) (a v : Z) : res mem :=
  if Z.land a lmask =? 0 then store_bytes m a (le_split 8 v) else Fault BadAccess.

(** [for (; len > 0; len--) *d++ = *s++;] *)
Fixpoint move_bytes (len : nat) (d s : Z) (m : mem) : res (Z * Z * mem) :=
  match len with
  | O => Ok (d, s, m)
  | S len => b ← load m s; m ← store m d b; move_bytes len (d + 1) (s + 1) m
  end.

Fixpoint move_words (len : nat) (d s : Z) (m : mem) : res (Z * Z * mem) :=
  match len with
  | O => Ok (d, s, m)
  | S len => w ← load_word m s; m ← store_word m d w; move_words len (d + lsize) (s + lsize) m
  end.

(** [for (; len > 0; len--) *--d = *--s;] *)
Fixpoint move_bytes_down (len : nat) (d s : Z) (m : mem) : res (Z * Z * mem) :=
  match len with
  | O => Ok (d, s, m)
  | S len => b ← load m (s - 1); m ← store m (d - 1) b; move_bytes_down len (d - 1) (s - 1) m
  end.

Fixpoint move_words_down (len : nat) (d s : Z) (m : mem) : res (Z * Z * mem) :=
  match len with
  | O => Ok (d, s, m)
  | S len =>
      w ← load_word m (s - lsize); m ← store_word m (d - lsize) w;
      move_words_down len (d - lsize) (s - lsize) m
  end.

Definition unaligned (d s : Z) : bool := negb (Z.land (Z.lor d s) lmask =? 0).
Definition never_aligned (d s : Z) : bool := negb (Z.land (Z.lxor d s) lmask =? 0).

(** The loops upwards, which [memcpy] and [memmove] share. *)
Definition move_up (d s count : Z) (m : mem) : res mem :=
  '(d, s, count, m) ← (if unaligned d s then
      let len := s32 (if never_aligned d s || (count <? lsize) then count else lsize - Z.land d lmask) in
      '(d, s, m) ← move_bytes (Z.to_nat len) d s m; Ok (d, s, u64 (count - len), m)
    else Ok (d, s, count, m));
  '(d, s, m) ← move_words (Z.to_nat (s32 (count / lsize))) d s m;
  '(_, _, m) ← move_bytes (Z.to_nat (s32 (Z.land count lmask))) d s m;
  Ok m.

Definition move_down (d s count : Z) (m : mem) : res mem :=
  '(d, s, count, m) ← (if unaligned d s then
      let len := s32 (if never_aligned d s || (count <=? lsize) then count else Z.land d lmask) in
      '(d, s, m) ← move_bytes_down (Z.to_nat len) d s m; Ok (d, s, u64 (count - len), m)
    else Ok (d, s, count, m));
  '(d, s, m) ← move_words_down (Z.to_nat (s32 (count / lsize))) d s m;
  '(_, _, m) ← move_bytes_down (Z.to_nat (s32 (Z.land count lmask))) d s m;
  Ok m.

Definition memcpy (dest src count : Z) (m : mem) : res mem :=
  if (count =? 0) || (dest =? src) then Ok m else move_up dest src count m.

Definition memmove (dest src count : Z) (m : mem) : res mem :=
  if (count =? 0) || (dest =? src) then Ok m else
  if s64 dest <? s64 src then move_up dest src count m
  else move_down (dest + count) (src + count) count m.

(** [for (; len > 0; len--) *xs++ = c;] *)
Fixpoint fill_bytes (len : nat) (xs c : Z) (m : mem) : res (Z * mem) :=
  match len with
  | O => Ok (xs, m)
  | S len => m ← store m xs c; fill_bytes len (xs + 1) c m
  end.

Fixpoint fill_words (len : nat) (xs cc : Z) (m : mem) : res (Z * mem) :=
  match len with
  | O => Ok (xs, m)
  | S len => m ← store_word m xs cc; fill_words len (xs + lsize) cc m
  end.

(** The byte [c] in every byte of a word. *)
Definition spread (c : Z) : Z :=
  let cc := Z.land c 255 in
  let cc := Z.lor cc (u64 (Z.shiftl cc 8)) in
  let cc := Z.lor cc (u64 (Z.shiftl cc 16)) in
  Z.lor cc (u64 (Z.shiftl cc 32)).

Definition memset (s c count : Z) (m : mem) : res mem :=
  let len := Z.land (u64 (- s)) lmask in
  '(xs, count, m) ← (if len <? count then
      let count := u64 (count - len) in
      '(xs, m) ← fill_bytes (Z.to_nat len) s c m;
      '(xs, m) ← fill_words (Z.to_nat (count / lsize)) xs (spread c) m;
      Ok (xs, Z.land count lmask, m)
    else Ok (s, count, m));
  '(_, m) ← fill_bytes (Z.to_nat count) xs c m;
  Ok m.

(** * What they are to do *)

(** Through a copy of the source, one byte after the other. *)
Definition memmove_ref (dest src count : Z) (m : mem) : res mem :=
  l ← load_bytes m src (Z.to_nat count); store_bytes m dest l.

Definition memset_ref (s c count : Z) (m : mem) : res mem :=
  store_bytes m s (replicate (Z.to_nat count) c).

Definition mapped (m : mem) (a n : Z) : Prop := ∀ x, a ≤ x < a + n → is_Some (m !! x).
Definition bytes_ok (m : mem) : Prop := map_Forall (λ _ b, 0 ≤ b < 2 ^ 8) m.

(** [n] bytes went from [s] to [d]. *)
Definition copied (m : mem) (d s n : Z) (m' : mem) : Prop :=
  ∀ x, m' !! x = if (d <=? x) && (x <? d + n) then m !! (x - d + s) else m !! x.
Definition disjoint (d s n : Z) : Prop := d + n ≤ s ∨ s + n ≤ d.

(** * Bytes and words *)

Lemma load_Ok m a b : load m a = Ok b ↔ m !! a = Some b.
Proof. apply of_option_Ok. Qed.

Lemma store_mapped m a v : is_Some (m !! a) → store m a v = Ok (<[a := u8 v]> m).
Proof. intros [b Hb]. unfold store, load. by rewrite Hb. Qed.

Lemma mapped_sub m a n b k : mapped m a n → a ≤ b → b + k ≤ a + n → mapped m b k.
Proof. intros H H1 H2 x Hx. apply H. lia. Qed.

Lemma mapped_split m a n k : 0 ≤ k ≤ n → mapped m a n → mapped m a k ∧ mapped m (a + k) (n - k).
Proof. intros Hk H. split; eapply mapped_sub; eauto; lia. Qed.

Lemma mapped_dom m m' a n : dom m' = dom m → mapped m a n → mapped m' a n.
Proof. intros Hd H x Hx. apply elem_of_dom. rewrite Hd. by apply elem_of_dom, H. Qed.

Lemma load_bytes_ok m a n :
  mapped m a (Z.of_nat n) →
  ∃ l, load_bytes m a n = Ok l ∧ length l = n ∧ ∀ i, (i < n)%nat → l !! i = m !! (a + Z.of_nat i).
Proof.
  revert a. induction n as [|n IH]; intros a H; [by exists []; split_and!; [..|lia]|].
  destruct (H a ltac:(lia)) as [b Hb]. destruct (IH (a + 1)) as (l & E & Hl & Hi); [eapply mapped_sub; [done|lia..]|].
  exists (b :: l). cbn [load_bytes length]. unfold load. rewrite Hb. simpl. rewrite E. split_and!; [done|by rewrite Hl|].
  intros [|i] Hlt; [by rewrite Z.add_0_r, Hb|]. simpl. rewrite Hi by lia. f_equal. lia.
Qed.

Lemma store_bytes_ok m a l :
  mapped m a (Z.of_nat (length l)) →
  ∃ m', store_bytes m a l = Ok m' ∧ dom m' = dom m ∧
    ∀ x, m' !! x = if (a <=? x) && (x <? a + Z.of_nat (length l)) then u8 <$> l !! Z.to_nat (x - a) else m !! x.
Proof.
  revert m a. induction l as [|b l IH]; intros m a H.
  { exists m. split_and!; [done..|]. intros x. destruct (Z.leb_spec a x), (Z.ltb_spec x (a + Z.of_nat (length (@nil Z)))); simpl in *; [lia|done..]. }
  cbn [length] in H. destruct (H a ltac:(lia)) as [b0 Hb0]. cbn [store_bytes]. rewrite (store_mapped _ _ b) by done. simpl.
  assert (dom (<[a := u8 b]> m) = dom m) as Hd. { apply dom_insert_lookup_L. by exists b0. }
  destruct (IH (<[a := u8 b]> m) (a + 1)) as (m' & E & Hd' & Hx).
  { eapply mapped_sub; [by apply (mapped_dom m)|lia..]. }
  exists m'. split_and!; [done|congruence|]. intros x. rewrite Hx. cbn [length].
  destruct (Z.eq_dec x a) as [->|].
  { rewrite Z.sub_diag. destruct (Z.leb_spec (a + 1) a), (Z.leb_spec a a), (Z.ltb_spec a (a + Z.of_nat (S (length l)))); try lia.
    simpl. by rewrite lookup_insert_eq. }
  destruct (Z.leb_spec (a + 1) x), (Z.leb_spec a x); try lia; cbn [andb]; [|by rewrite lookup_insert_ne].
  replace (a + 1 + Z.of_nat (length l)) with (a + Z.of_nat (S (length l))) by lia.
  destruct (Z.ltb_spec x (a + Z.of_nat (S (length l)))); [|by rewrite lookup_insert_ne by lia].
  replace (Z.to_nat (x - a)) with (S (Z.to_nat (x - (a + 1)))) by lia. done.
Qed.

Lemma le_split_combine l :
  Forall (λ b, 0 ≤ b < 2 ^ 8) l → le_split (length l) (le_combine l) = l.
Proof.
  induction 1 as [|b l Hb _ IH]; [done|]. cbn [length le_split le_combine].
  rewrite Z.add_comm, Z.mul_comm, Z.div_add_l, Z.div_small, Z.add_0_r by lia.
  rewrite Z.add_comm, Z.mod_add, Z.mod_small by lia. by rewrite IH.
Qed.

Lemma length_le_split n v : length (le_split n v) = n.
Proof. revert v. induction n as [|n IH]; intros v; [done|]. simpl. by rewrite IH. Qed.

Lemma aligned_iff a : Z.land a lmask = 0 ↔ a `mod` lsize = 0.
Proof. unfold lmask, lsize. change (8 - 1) with (2 ^ 3 - 1). rewrite land_ones' by done. done. Qed.

Lemma aligned_next a : (a + lsize) `mod` lsize = a `mod` lsize.
Proof. rewrite <- (Z.mul_1_l lsize) at 1. by apply Z.mod_add. Qed.

Lemma aligned_prev a : (a - lsize) `mod` lsize = a `mod` lsize.
Proof. rewrite <- (aligned_next (a - lsize)). f_equal. lia. Qed.

(** * Copying *)

Lemma copied_dom m d s n m' : mapped m d n → mapped m s n → copied m d s n m' → dom m' = dom m.
Proof.
  intros Hd Hs Hc. apply set_eq. intros x. rewrite !elem_of_dom, Hc.
  destruct (Z.leb_spec d x), (Z.ltb_spec x (d + n)); cbn [andb]; [|done..].
  split; intros _; [apply Hd; lia|apply Hs; lia].
Qed.

Lemma copied_ok m d s n m' : bytes_ok m → copied m d s n m' → bytes_ok m'.
Proof. intros Hb Hc x v. rewrite Hc. destruct (_ && _); apply Hb. Qed.

Lemma copied_0 m d s : copied m d s 0 m.
Proof. intros x. destruct (Z.leb_spec d x), (Z.ltb_spec x (d + 0)); cbn [andb]; done || lia. Qed.

Lemma copied_same m d n : copied m d d n m.
Proof. intros x. destruct (_ && _); [f_equal; lia|done]. Qed.

Lemma copied_up m d s n k m1 m2 :
  0 ≤ n → 0 ≤ k → d ≤ s ∨ disjoint d s (n + k) →
  copied m d s n m1 → copied m1 (d + n) (s + n) k m2 → copied m d s (n + k) m2.
Proof.
  intros Hn Hk Hds H1 H2 x. rewrite H2, !H1. unfold disjoint in Hds.
  destruct (Z.leb_spec d x), (Z.ltb_spec x (d + (n + k))), (Z.leb_spec (d + n) x), (Z.ltb_spec x (d + n + k)); cbn [andb]; try lia.
  all: try (destruct (Z.ltb_spec x (d + n)); cbn [andb]; (lia || done)).
  replace (x - (d + n) + (s + n)) with (x - d + s) by lia.
  destruct (Z.leb_spec d (x - d + s)), (Z.ltb_spec (x - d + s) (d + n)); cbn [andb]; try lia; done.
Qed.

Lemma copied_down m d s n k m1 m2 :
  0 ≤ n → 0 ≤ k → s ≤ d ∨ disjoint d s (k + n) →
  copied m (d + k) (s + k) n m1 → copied m1 d s k m2 → copied m d s (k + n) m2.
Proof.
  intros Hn Hk Hds H1 H2 x. rewrite H2, !H1. unfold disjoint in Hds.
  destruct (Z.leb_spec d x), (Z.ltb_spec x (d + (k + n))), (Z.leb_spec (d + k) x), (Z.ltb_spec x (d + k)), (Z.ltb_spec x (d + k + n)); cbn [andb]; try lia; try done.
  - f_equal. lia.
  - destruct (Z.leb_spec (d + k) (x - d + s)), (Z.ltb_spec (x - d + s) (d + k + n)); cbn [andb]; try lia; done.
Qed.

(** One byte, and one word. *)
Lemma move_byte m d s :
  bytes_ok m → mapped m d 1 → mapped m s 1 →
  ∃ b m', load m s = Ok b ∧ store m d b = Ok m' ∧ copied m d s 1 m'.
Proof.
  intros Hb Hd Hs. destruct (Hs s ltac:(lia)) as [b Es]. exists b, (<[d := u8 b]> m).
  split_and!; [by apply load_Ok|apply store_mapped, Hd; lia|]. intros x. pose proof (Hb _ _ Es).
  destruct (Z.leb_spec d x), (Z.ltb_spec x (d + 1)); cbn [andb]; [|by rewrite lookup_insert_ne by lia..].
  assert (x = d) as -> by lia. rewrite lookup_insert_eq, Z.sub_diag, Z.add_0_l, Es. f_equal. by apply Z.mod_small.
Qed.

Lemma move_word m d s :
  bytes_ok m → mapped m d lsize → mapped m s lsize → d `mod` lsize = 0 → s `mod` lsize = 0 →
  ∃ w m', load_word m s = Ok w ∧ store_word m d w = Ok m' ∧ copied m d s lsize m'.
Proof.
  intros Hb Hd Hs Ad%aligned_iff As%aligned_iff. destruct (load_bytes_ok m s 8 Hs) as (l & El & Hl & Hi).
  assert (Forall (λ b, 0 ≤ b < 2 ^ 8) l) as Hok.
  { apply Forall_lookup. intros i b Eb. apply (Hb (s + Z.of_nat i)). rewrite <- Hi; [done|]. apply lookup_lt_Some in Eb. lia. }
  pose proof (le_split_combine l Hok) as Hsplit. rewrite Hl in Hsplit.
  destruct (store_bytes_ok m d l) as (m' & Em & _ & Hx); [by rewrite Hl|].
  exists (le_combine l), m'. unfold load_word, store_word. split_and!; [by rewrite As, El|by rewrite Ad, Hsplit|].
  intros x. rewrite Hx, Hl. change (Z.of_nat 8) with lsize. destruct (Z.leb_spec d x), (Z.ltb_spec x (d + lsize)); cbn [andb]; [|done..].
  unfold lsize in *. rewrite Hi by lia. replace (s + Z.of_nat (Z.to_nat (x - d))) with (x - d + s) by lia.
  destruct (m !! (x - d + s)) as [b|] eqn:E; [|done]. simpl. f_equal. apply Z.mod_small. by apply (Hb _ _ E).
Qed.

(** What the copying loops have in common: a step that copies [k] bytes, [n] times. *)
Definition copies (m : mem) (d s n : Z) (r : res (Z * Z * mem)) (d' s' : Z) : Prop :=
  ∃ m', r = Ok (d', s', m') ∧ copied m d s n m' ∧ bytes_ok m' ∧ dom m' = dom m.

Lemma copies_intro m d s n m' d' s' :
  bytes_ok m → mapped m d n → mapped m s n → copied m d s n m' → copies m d s n (Ok (d', s', m')) d' s'.
Proof. intros Hb Hd Hs Hc. exists m'. split_and!; [done..|exact (copied_ok _ _ _ _ _ Hb Hc)|exact (copied_dom _ _ _ _ _ Hd Hs Hc)]. Qed.

Lemma move_bytes_ok len m d s :
  let n := Z.of_nat len in
  bytes_ok m → mapped m d n → mapped m s n → d ≤ s ∨ disjoint d s n →
  copies m d s n (move_bytes len d s m) (d + n) (s + n).
Proof.
  revert m d s. induction len as [|len IH]; intros m d s n Hb Hd Hs Ho; unfold n in *; clear n.
  { simpl. rewrite !Z.add_0_r. apply copies_intro; [done..|apply copied_0]. }
  destruct (mapped_split m d (Z.of_nat (S len)) 1 ltac:(lia) Hd) as [Hd1 Hd2]. destruct (mapped_split m s (Z.of_nat (S len)) 1 ltac:(lia) Hs) as [Hs1 Hs2].
  destruct (move_byte m d s) as (b & m1 & E1 & E2 & Hc1); [done..|].
  pose proof (copied_dom _ _ _ _ _ Hd1 Hs1 Hc1) as Hdom. pose proof (copied_ok _ _ _ _ _ Hb Hc1) as Hb1.
  cbn [move_bytes]. rewrite E1. simpl. rewrite E2. simpl. replace (Z.of_nat (S len) - 1) with (Z.of_nat len) in * by lia.
  destruct (IH m1 (d + 1) (s + 1)) as (m2 & E & Hc & Hb2 & Hdm); [done|by apply (mapped_dom m)..|unfold disjoint in *; lia|].
  replace (Z.of_nat (S len)) with (1 + Z.of_nat len) by lia. rewrite !Z.add_assoc.
  exists m2. split_and!; [done| |done|congruence]. eapply copied_up; [lia..| |done|done]. unfold disjoint in *. lia.
Qed.

Lemma move_words_ok len m d s :
  let n := lsize * Z.of_nat len in
  bytes_ok m → mapped m d n → mapped m s n → d `mod` lsize = 0 → s `mod` lsize = 0 → d ≤ s ∨ disjoint d s n →
  copies m d s n (move_words len d s m) (d + n) (s + n).
Proof.
  revert m d s. induction len as [|len IH]; intros m d s n Hb Hd Hs Ad As Ho; unfold n in *; clear n.
  { simpl. rewrite Z.mul_0_r, !Z.add_0_r. rewrite Z.mul_0_r in *. apply copies_intro; [done..|apply copied_0]. }
  destruct (mapped_split m d (lsize * Z.of_nat (S len)) lsize ltac:(unfold lsize; lia) Hd) as [Hd1 Hd2].
  destruct (mapped_split m s (lsize * Z.of_nat (S len)) lsize ltac:(unfold lsize; lia) Hs) as [Hs1 Hs2].
  destruct (move_word m d s) as (b & m1 & E1 & E2 & Hc1); [done..|].
  pose proof (copied_dom _ _ _ _ _ Hd1 Hs1 Hc1) as Hdom. pose proof (copied_ok _ _ _ _ _ Hb Hc1) as Hb1.
  cbn [move_words]. rewrite E1. simpl. rewrite E2. simpl.
  replace (lsize * Z.of_nat (S len)) with (lsize + lsize * Z.of_nat len) in * by lia.
  replace (lsize + lsize * Z.of_nat len - lsize) with (lsize * Z.of_nat len) in * by lia.
  assert (0 < lsize) by done.
  destruct (IH m1 (d + lsize) (s + lsize)) as (m2 & E & Hc & Hb2 & Hdm);
    [done|by apply (mapped_dom m)..|by rewrite aligned_next|by rewrite aligned_next|unfold disjoint in *; lia|].
  rewrite !Z.add_assoc. exists m2. split_and!; [done| |done|congruence]. by eapply copied_up; [lia..| | |].
Qed.

Lemma move_bytes_down_ok len m d s :
  let n := Z.of_nat len in
  bytes_ok m → mapped m (d - n) n → mapped m (s - n) n → s ≤ d ∨ disjoint d s n →
  copies m (d - n) (s - n) n (move_bytes_down len d s m) (d - n) (s - n).
Proof.
  revert m d s. induction len as [|len IH]; intros m d s n Hb Hd Hs Ho; unfold n in *; clear n.
  { simpl. rewrite !Z.sub_0_r in *. apply copies_intro; [done..|apply copied_0]. }
  replace (Z.of_nat (S len)) with (Z.of_nat len + 1) in * by lia. rewrite !Z.sub_add_distr in *.
  replace (d - Z.of_nat len - 1) with (d - 1 - Z.of_nat len) in * by lia.
  replace (s - Z.of_nat len - 1) with (s - 1 - Z.of_nat len) in * by lia.
  set (n := Z.of_nat len) in *.
  destruct (mapped_split m (d - 1 - n) (n + 1) n ltac:(lia) Hd) as [Hd2 Hd1]. destruct (mapped_split m (s - 1 - n) (n + 1) n ltac:(lia) Hs) as [Hs2 Hs1].
  rewrite Z.sub_add, Z.add_simpl_l in Hd1, Hs1.
  destruct (move_byte m (d - 1) (s - 1)) as (b & m1 & E1 & E2 & Hc1); [done..|].
  pose proof (copied_dom _ _ _ _ _ Hd1 Hs1 Hc1) as Hdom. pose proof (copied_ok _ _ _ _ _ Hb Hc1) as Hb1.
  cbn [move_bytes_down]. rewrite E1. simpl. rewrite E2. simpl.
  destruct (IH m1 (d - 1) (s - 1)) as (m2 & E & Hc & Hb2 & Hdm); [done|by apply (mapped_dom m)..|unfold disjoint in *; lia|].
  exists m2. split_and!; [done| |done|congruence].
  eapply copied_down; [lia..| | |exact Hc]; [unfold disjoint in *; lia|]. by rewrite !Z.sub_add.
Qed.

Lemma move_words_down_ok len m d s :
  let n := lsize * Z.of_nat len in
  bytes_ok m → mapped m (d - n) n → mapped m (s - n) n → d `mod` lsize = 0 → s `mod` lsize = 0 → s ≤ d ∨ disjoint d s n →
  copies m (d - n) (s - n) n (move_words_down len d s m) (d - n) (s - n).
Proof.
  revert m d s. induction len as [|len IH]; intros m d s n Hb Hd Hs Ad As Ho; unfold n in *; clear n.
  { simpl. rewrite Z.mul_0_r, !Z.sub_0_r in *. apply copies_intro; [done..|apply copied_0]. }
  replace (lsize * Z.of_nat (S len)) with (lsize * Z.of_nat len + lsize) in * by lia. rewrite !Z.sub_add_distr in *.
  set (n := lsize * Z.of_nat len) in *. assert (0 ≤ n) by (unfold n, lsize; lia). assert (0 < lsize) by done.
  replace (d - n - lsize) with (d - lsize - n) in * by lia. replace (s - n - lsize) with (s - lsize - n) in * by lia.
  destruct (mapped_split m (d - lsize - n) (n + lsize) n ltac:(lia) Hd) as [Hd2 Hd1].
  destruct (mapped_split m (s - lsize - n) (n + lsize) n ltac:(lia) Hs) as [Hs2 Hs1].
  rewrite Z.sub_add, Z.add_simpl_l in Hd1, Hs1.
  destruct (move_word m (d - lsize) (s - lsize)) as (b & m1 & E1 & E2 & Hc1); [done..|by rewrite aligned_prev|by rewrite aligned_prev|].
  pose proof (copied_dom _ _ _ _ _ Hd1 Hs1 Hc1) as Hdom. pose proof (copied_ok _ _ _ _ _ Hb Hc1) as Hb1.
  cbn [move_words_down]. rewrite E1. simpl. rewrite E2. simpl.
  destruct (IH m1 (d - lsize) (s - lsize)) as (m2 & E & Hc & Hb2 & Hdm);
    [done|by apply (mapped_dom m)..|by rewrite aligned_prev|by rewrite aligned_prev|unfold disjoint in *; lia|].
  exists m2. split_and!; [done| |done|congruence].
  eapply copied_down; [lia..| | |exact Hc]; [unfold disjoint in *; lia|]. by rewrite !Z.sub_add.
Qed.

(** ** The parts of a move *)

Definition aligned (d s : Z) : Prop := d `mod` lsize = 0 ∧ s `mod` lsize = 0.

Lemma land_lmask a : Z.land a lmask = a `mod` lsize.
Proof. unfold lmask, lsize. change (8 - 1) with (2 ^ 3 - 1). by rewrite land_ones'. Qed.

Lemma unaligned_false d s : unaligned d s = false ↔ aligned d s.
Proof.
  unfold unaligned, aligned. rewrite negb_false_iff, Z.eqb_eq, Z.land_lor_distr_l, Z.lor_eq_0_iff, !land_lmask. done.
Qed.

Lemma never_aligned_false d s : never_aligned d s = false ↔ d `mod` lsize = s `mod` lsize.
Proof.
  unfold never_aligned. rewrite negb_false_iff, Z.eqb_eq, <- !land_lmask.
  assert (Z.land (Z.lxor d s) lmask = Z.lxor (Z.land d lmask) (Z.land s lmask)) as ->.
  { apply Z.bits_inj'. intros i Hi. rewrite Z.land_spec, !Z.lxor_spec, !Z.land_spec. by destruct (Z.testbit d i), (Z.testbit s i), (Z.testbit lmask i). }
  split; [apply Z.lxor_eq|]. intros ->. apply Z.lxor_nilpotent.
Qed.

(** The number of bytes to a word boundary, up and down. *)
Lemma head_up d s count :
  0 ≤ count < 2 ^ 31 →
  let len := s32 (if never_aligned d s || (count <? lsize) then count else lsize - Z.land d lmask) in
  unaligned d s = true → 0 ≤ len ≤ count ∧ (count - len = 0 ∨ aligned (d + len) (s + len)).
Proof.
  intros Hc len Hu.
  assert (¬ aligned d s) as Hna by (rewrite <- unaligned_false; congruence).
  unfold len. destruct (never_aligned d s) eqn:En; cbn [orb]; [rewrite s32_small; lia|].
  destruct (Z.ltb_spec count lsize); [rewrite s32_small; lia|]. apply never_aligned_false in En. rewrite land_lmask.
  unfold aligned, lsize in *. pose proof (Z.mod_pos_bound d 8). rewrite s32_small by lia. split; [lia|right].
  split; rewrite Z.add_comm; Z.to_euclidean_division_equations; lia.
Qed.

Lemma head_down d s count :
  0 ≤ count < 2 ^ 31 →
  let len := s32 (if never_aligned d s || (count <=? lsize) then count else Z.land d lmask) in
  unaligned d s = true → 0 ≤ len ≤ count ∧ (count - len = 0 ∨ aligned (d - len) (s - len)).
Proof.
  intros Hc len Hu.
  assert (¬ aligned d s) as Hna by (rewrite <- unaligned_false; congruence).
  unfold len. destruct (never_aligned d s) eqn:En; cbn [orb]; [rewrite s32_small; lia|].
  destruct (Z.leb_spec count lsize); [rewrite s32_small; lia|]. apply never_aligned_false in En. rewrite land_lmask.
  unfold aligned, lsize in *. pose proof (Z.mod_pos_bound d 8). rewrite s32_small by lia. split; [lia|right].
  split; Z.to_euclidean_division_equations; lia.
Qed.

Lemma rounds count : 0 ≤ count < 2 ^ 31 →
  let w := s32 (count / lsize) in let b := s32 (Z.land count lmask) in
  0 ≤ w ∧ 0 ≤ b ∧ count = lsize * w + b ∧ (count = 0 → w = 0 ∧ b = 0).
Proof.
  intros Hc w b. unfold w, b. rewrite land_lmask. unfold lsize.
  pose proof (Z.mod_pos_bound count 8). pose proof (Z.div_mod count 8). pose proof (Z.div_pos count 8). rewrite !s32_small by lia. lia.
Qed.

Lemma words_up m d s count :
  0 ≤ count < 2 ^ 31 → bytes_ok m → mapped m d count → mapped m s count → count = 0 ∨ aligned d s → d ≤ s ∨ disjoint d s count →
  ∃ m', ('(d, s, m) ← move_words (Z.to_nat (s32 (count / lsize))) d s m;
         '(_, _, m) ← move_bytes (Z.to_nat (s32 (Z.land count lmask))) d s m; Ok m) = Ok m' ∧ copied m d s count m'.
Proof.
  intros Hc Hb Hd Hs Ha Ho. destruct (rounds count Hc) as (Hw & Hr & E & H0). cbv zeta in *.
  set (w := s32 (count / lsize)) in *. set (r := s32 (Z.land count lmask)) in *. clearbody w r.
  destruct Ha as [->|[Ad As]]. { destruct H0 as [-> ->]; [done|]. exists m. split; [done|apply copied_0]. }
  subst count. set (n := lsize * w) in *. assert (0 ≤ n) by (unfold n, lsize; lia).
  destruct (mapped_split m d (n + r) n ltac:(lia) Hd) as [Hd1 Hd2]. destruct (mapped_split m s (n + r) n ltac:(lia) Hs) as [Hs1 Hs2].
  destruct (move_words_ok (Z.to_nat w) m d s) as (m1 & E1 & Hc1 & Hb1 & Hdom); rewrite ?Z2Nat.id by done; fold n;
    [done..|unfold disjoint in *; lia|].
  rewrite E1. rewrite Z2Nat.id in Hc1 |- * by done. fold n in Hc1 |- *. cbn [mbind res_bind].
  replace (n + r - n) with r in * by lia.
  destruct (move_bytes_ok (Z.to_nat r) m1 (d + n) (s + n)) as (m2 & E2 & Hc2 & _); rewrite ?Z2Nat.id by done;
    [done|by apply (mapped_dom m)..|unfold disjoint in *; lia|].
  simpl. rewrite E2. exists m2. split; [done|]. rewrite Z2Nat.id in Hc2 by done. eapply copied_up; eauto; lia.
Qed.

Lemma words_down m d s count :
  0 ≤ count < 2 ^ 31 → bytes_ok m → mapped m (d - count) count → mapped m (s - count) count →
  count = 0 ∨ aligned d s → s ≤ d ∨ disjoint d s count →
  ∃ m', ('(d, s, m) ← move_words_down (Z.to_nat (s32 (count / lsize))) d s m;
         '(_, _, m) ← move_bytes_down (Z.to_nat (s32 (Z.land count lmask))) d s m; Ok m) = Ok m' ∧
        copied m (d - count) (s - count) count m'.
Proof.
  intros Hc Hb Hd Hs Ha Ho. destruct (rounds count Hc) as (Hw & Hr & E & H0). cbv zeta in *.
  set (w := s32 (count / lsize)) in *. set (r := s32 (Z.land count lmask)) in *. clearbody w r.
  destruct Ha as [->|[Ad As]]. { destruct H0 as [-> ->]; [done|]. exists m. split; [done|apply copied_0]. }
  replace count with (r + lsize * w) in * by lia. clear E H0. set (n := lsize * w) in *. assert (0 ≤ n) by (unfold n, lsize; lia).
  replace (d - (r + n)) with (d - n - r) in * by lia. replace (s - (r + n)) with (s - n - r) in * by lia.
  destruct (mapped_split m (d - n - r) (r + n) r ltac:(lia) Hd) as [Hd1 Hd2].
  destruct (mapped_split m (s - n - r) (r + n) r ltac:(lia) Hs) as [Hs1 Hs2].
  rewrite Z.sub_add, Z.add_simpl_l in Hd2, Hs2.
  destruct (move_words_down_ok (Z.to_nat w) m d s) as (m1 & E1 & Hc1 & Hb1 & Hdom); rewrite ?Z2Nat.id by done; fold n;
    [done..|unfold disjoint in *; lia|].
  rewrite E1. rewrite Z2Nat.id in Hc1 |- * by done. fold n in Hc1 |- *. cbn [mbind res_bind].
  destruct (move_bytes_down_ok (Z.to_nat r) m1 (d - n) (s - n)) as (m2 & E2 & Hc2 & _); rewrite ?Z2Nat.id by done;
    [done|by apply (mapped_dom m)..|unfold disjoint in *; lia|].
  simpl. rewrite E2. exists m2. split; [done|]. rewrite Z2Nat.id in Hc2 by done.
  eapply copied_down; [lia..| | |exact Hc2]; [unfold disjoint in *; lia|]. by rewrite !Z.sub_add.
Qed.

Lemma move_up_ok m d s count :
  0 ≤ count < 2 ^ 31 → bytes_ok m → mapped m d count → mapped m s count → d ≤ s ∨ disjoint d s count →
  ∃ m', move_up d s count m = Ok m' ∧ copied m d s count m'.
Proof.
  intros Hc Hb Hd Hs Ho. unfold move_up. destruct (unaligned d s) eqn:Eu; cbn [mbind res_bind].
  2:{ apply words_up; [done..| |done]. right. by apply unaligned_false. }
  pose proof (head_up d s count Hc Eu) as [Hl Ha]. cbv zeta in *. set (len := s32 _) in *. clearbody len.
  destruct (mapped_split m d count len ltac:(lia) Hd) as [Hd1 Hd2]. destruct (mapped_split m s count len ltac:(lia) Hs) as [Hs1 Hs2].
  destruct (move_bytes_ok (Z.to_nat len) m d s) as (m1 & E1 & Hc1 & Hb1 & Hdom); rewrite ?Z2Nat.id by lia;
    [done..|unfold disjoint in *; lia|].
  simpl. rewrite E1. rewrite Z2Nat.id in Hc1 |- * by lia. simpl. rewrite u64_small by lia.
  destruct (words_up m1 (d + len) (s + len) (count - len)) as (m2 & E2 & Hc2);
    [lia|done|by apply (mapped_dom m)..|done|unfold disjoint in *; lia|].
  exists m2. split; [exact E2|]. replace count with (len + (count - len)) by lia. eapply copied_up; eauto; [lia..|].
  by replace (len + (count - len)) with count by lia.
Qed.

Lemma move_down_ok m d s count :
  0 ≤ count < 2 ^ 31 → bytes_ok m → mapped m (d - count) count → mapped m (s - count) count → s ≤ d ∨ disjoint d s count →
  ∃ m', move_down d s count m = Ok m' ∧ copied m (d - count) (s - count) count m'.
Proof.
  intros Hc Hb Hd Hs Ho. unfold move_down. destruct (unaligned d s) eqn:Eu; cbn [mbind res_bind].
  2:{ apply words_down; [done..| |done]. right. by apply unaligned_false. }
  pose proof (head_down d s count Hc Eu) as [Hl Ha]. cbv zeta in *. set (len := s32 _) in *. clearbody len.
  set (k := count - len) in *. replace count with (k + len) in * by lia. clearbody k. clear count.
  replace (d - (k + len)) with (d - len - k) in * by lia. replace (s - (k + len)) with (s - len - k) in * by lia.
  destruct (mapped_split m (d - len - k) (k + len) k ltac:(lia) Hd) as [Hd2 Hd1].
  destruct (mapped_split m (s - len - k) (k + len) k ltac:(lia) Hs) as [Hs2 Hs1].
  rewrite Z.sub_add, Z.add_simpl_l in Hd1, Hs1.
  destruct (move_bytes_down_ok (Z.to_nat len) m d s) as (m1 & E1 & Hc1 & Hb1 & Hdom); rewrite ?Z2Nat.id by lia;
    [done..|unfold disjoint in *; lia|].
  simpl. rewrite E1. rewrite Z2Nat.id in Hc1 |- * by lia. simpl. replace (k + len - len) with k by lia. rewrite u64_small by lia.
  destruct (words_down m1 (d - len) (s - len) k) as (m2 & E2 & Hc2);
    [lia|done|by apply (mapped_dom m)..|done|unfold disjoint in *; lia|].
  exists m2. split; [exact E2|]. eapply copied_down; [lia..| | |exact Hc2]; [unfold disjoint in *; lia|]. by rewrite !Z.sub_add.
Qed.

(** ** The functions *)

(** A range of addresses that does not wrap around and lies on one side of the
    middle of the address space: addresses are compared as signed numbers. *)
Definition placed (a n : Z) : Prop := 0 ≤ a ∧ a + n ≤ 2 ^ 64 ∧ (a + n ≤ 2 ^ 63 ∨ 2 ^ 63 ≤ a).

Lemma s64_addr a : 0 ≤ a < 2 ^ 64 → s64 a = if a <? 2 ^ 63 then a else a - 2 ^ 64.
Proof.
  intros Ha. destruct (Z.ltb_spec a (2 ^ 63)); [apply s64_small; lia|].
  unfold s64. replace (a + 2 ^ 63) with (a - 2 ^ 63 + 1 * 2 ^ 64) by lia. rewrite Z.mod_add, Z.mod_small by lia. lia.
Qed.

Lemma memmove_ref_ok m d s count :
  0 ≤ count → bytes_ok m → mapped m d count → mapped m s count →
  ∃ m', memmove_ref d s count m = Ok m' ∧ copied m d s count m'.
Proof.
  intros Hc Hb Hd Hs. unfold memmove_ref. destruct (load_bytes_ok m s (Z.to_nat count)) as (l & E & Hl & Hi); [by rewrite Z2Nat.id|].
  rewrite E. simpl. destruct (store_bytes_ok m d l) as (m' & Em & _ & Hx); [by rewrite Hl, Z2Nat.id|].
  exists m'. split; [done|]. intros x. rewrite Hx, Hl, Z2Nat.id by done.
  destruct (Z.leb_spec d x), (Z.ltb_spec x (d + count)); cbn [andb]; [|done..].
  rewrite Hi by lia. replace (s + Z.of_nat (Z.to_nat (x - d))) with (x - d + s) by lia.
  destruct (m !! (x - d + s)) as [b|] eqn:Eb; [|done]. simpl. f_equal. apply Z.mod_small. by apply (Hb _ _ Eb).
Qed.

Lemma copied_eq m d s n m1 m2 : copied m d s n m1 → copied m d s n m2 → m1 = m2.
Proof. intros H1 H2. apply map_eq. intros x. by rewrite H1, H2. Qed.

Lemma memcpy_copied d s count m :
  0 ≤ count < 2 ^ 31 → bytes_ok m → mapped m d count → mapped m s count → d ≤ s ∨ disjoint d s count →
  ∃ m', memcpy d s count m = Ok m' ∧ copied m d s count m'.
Proof.
  intros Hc Hb Hd Hs Ho. unfold memcpy. destruct (Z.eqb_spec count 0) as [->|]; cbn [orb]; [exists m; split; [done|apply copied_0]|].
  destruct (Z.eqb_spec d s) as [->|]; [exists m; split; [done|apply copied_same]|]. by apply move_up_ok.
Qed.

Lemma memmove_copied d s count m :
  0 ≤ count < 2 ^ 31 → bytes_ok m → mapped m d count → mapped m s count → placed d count → placed s count →
  ∃ m', memmove d s count m = Ok m' ∧ copied m d s count m'.
Proof.
  intros Hc Hb Hd Hs (Hd0 & Hd1 & Hd2) (Hs0 & Hs1 & Hs2). unfold memmove.
  destruct (Z.eqb_spec count 0) as [->|]; cbn [orb]; [exists m; split; [done|apply copied_0]|].
  destruct (Z.eqb_spec d s) as [->|]; [exists m; split; [done|apply copied_same]|].
  rewrite !s64_addr by lia.
  destruct (Z.ltb_spec (if d <? 2 ^ 63 then d else d - 2 ^ 64) (if s <? 2 ^ 63 then s else s - 2 ^ 64)) as [Hlt|Hge].
  - apply move_up_ok; [done..|]. unfold disjoint. destruct (Z.ltb_spec d (2 ^ 63)), (Z.ltb_spec s (2 ^ 63)); lia.
  - destruct (move_down_ok m (d + count) (s + count) count) as (m' & E & H); [done..| | | |].
    1,2: by rewrite Z.add_simpl_r. { unfold disjoint. destruct (Z.ltb_spec d (2 ^ 63)), (Z.ltb_spec s (2 ^ 63)); lia. }
    exists m'. split; [done|]. by rewrite !Z.add_simpl_r in H.
Qed.


(** [memcpy] does too when the ranges are apart or the destination is the lower
    one. *)
Theorem memcpy_is_copy dest src count m :
  0 ≤ count < 2 ^ 31 → bytes_ok m → mapped m dest count → mapped m src count → dest ≤ src ∨ disjoint dest src count →
  memcpy dest src count m = memmove_ref dest src count m.
Proof.
  intros Hc Hb Hd Hs Ho. destruct (memcpy_copied dest src count m) as (m1 & -> & H1); [done..|].
  destruct (memmove_ref_ok m dest src count) as (m2 & -> & H2); [lia|done..|]. by rewrite (copied_eq _ _ _ _ _ _ H1 H2).
Qed.

(** * Filling *)

Definition filled (m : mem) (a n c : Z) (m' : mem) : Prop :=
  ∀ x, m' !! x = if (a <=? x) && (x <? a + n) then Some (u8 c) else m !! x.

Lemma filled_dom m a n c m' : mapped m a n → filled m a n c m' → dom m' = dom m.
Proof.
  intros Hm Hf. apply set_eq. intros x. rewrite !elem_of_dom, Hf.
  destruct (Z.leb_spec a x), (Z.ltb_spec x (a + n)); cbn [andb]; [|done..]. split; [intros _; apply Hm; lia|done].
Qed.

Lemma filled_app m a n k c m1 m2 :
  0 ≤ n → 0 ≤ k → filled m a n c m1 → filled m1 (a + n) k c m2 → filled m a (n + k) c m2.
Proof.
  intros Hn Hk H1 H2 x. rewrite H2, H1.
  destruct (Z.leb_spec a x), (Z.ltb_spec x (a + (n + k))), (Z.leb_spec (a + n) x), (Z.ltb_spec x (a + n + k)), (Z.ltb_spec x (a + n));
    cbn [andb]; lia || done.
Qed.

Lemma filled_0 m a c : filled m a 0 c m.
Proof. intros x. destruct (Z.leb_spec a x), (Z.ltb_spec x (a + 0)); cbn [andb]; lia || done. Qed.

Lemma store_bytes_filled m a n c l :
  (∀ b, b ∈ l → u8 b = u8 c) → Z.of_nat (length l) = n → mapped m a n → ∃ m', store_bytes m a l = Ok m' ∧ filled m a n c m'.
Proof.
  intros Hl <- Hm. destruct (store_bytes_ok m a l Hm) as (m' & E & _ & Hx). exists m'. split; [done|]. intros x. rewrite Hx.
  destruct (Z.leb_spec a x), (Z.ltb_spec x (a + Z.of_nat (length l))); cbn [andb]; [|done..].
  destruct (lookup_lt_is_Some_2 l (Z.to_nat (x - a))) as [b Eb]; [lia|]. rewrite Eb. simpl. f_equal. apply Hl.
  by eapply list_elem_of_lookup_2.
Qed.

Lemma spread_spec c : le_split 8 (spread c) = replicate 8 (u8 c).
Proof.
  assert (∀ b, 0 ≤ b < 256 → le_split 8 (spread b) = replicate 8 b) as H.
  { assert (Forall (λ b, le_split 8 (spread b) = replicate 8 b) (seqZ 0 256)) as H by (apply (bool_decide_unpack _); by vm_compute).
    intros b Hb. rewrite Forall_forall in H. apply H, elem_of_seqZ. lia. }
  assert (Z.land c 255 = u8 c) as E by (change 255 with (2 ^ 8 - 1); by apply land_ones').
  pose proof (Z.mod_pos_bound c (2 ^ 8)) as Hc. fold (u8 c) in Hc.
  rewrite <- (H (u8 c)) by lia. f_equal. unfold spread. by rewrite <- E, <- Z.land_assoc.
Qed.

Lemma fill_bytes_ok len m xs c :
  let n := Z.of_nat len in
  mapped m xs n → ∃ m', fill_bytes len xs c m = Ok (xs + n, m') ∧ filled m xs n c m'.
Proof.
  revert m xs. induction len as [|len IH]; intros m xs n Hm; unfold n in *; clear n.
  { exists m. simpl. rewrite Z.add_0_r. split; [done|apply filled_0]. }
  replace (Z.of_nat (S len)) with (1 + Z.of_nat len) in * by lia. destruct (mapped_split m xs (1 + Z.of_nat len) 1 ltac:(lia) Hm) as [H1 H2].
  destruct (store_bytes_filled m xs 1 c [c]) as (m1 & E1 & F1); [by intros b ->%list_elem_of_singleton|done..|].
  cbn [store_bytes] in E1. cbn [fill_bytes]. destruct (store m xs c) as [m1'|] eqn:E; [|done]. injection E1 as ->. simpl.
  rewrite Z.add_simpl_l in H2. pose proof (filled_dom _ _ _ _ _ H1 F1). rewrite Z.add_assoc.
  destruct (IH m1 (xs + 1)) as (m2 & E2 & F2); [by apply (mapped_dom m)|]. exists m2. split; [done|]. eapply filled_app; eauto; lia.
Qed.

Lemma fill_words_ok len m xs c :
  let n := lsize * Z.of_nat len in
  mapped m xs n → xs `mod` lsize = 0 → ∃ m', fill_words len xs (spread c) m = Ok (xs + n, m') ∧ filled m xs n c m'.
Proof.
  revert m xs. induction len as [|len IH]; intros m xs n Hm Ha; unfold n in *; clear n.
  { exists m. simpl. rewrite Z.mul_0_r, Z.add_0_r. split; [done|apply filled_0]. }
  replace (lsize * Z.of_nat (S len)) with (lsize + lsize * Z.of_nat len) in * by lia. set (n := lsize * Z.of_nat len) in *.
  assert (0 ≤ n) by (unfold n, lsize; lia). assert (0 < lsize) by done.
  destruct (mapped_split m xs (lsize + n) lsize ltac:(lia) Hm) as [H1 H2]. rewrite Z.add_simpl_l in H2.
  destruct (store_bytes_filled m xs lsize c (le_split 8 (spread c))) as (m1 & E1 & F1);
    [|by rewrite length_le_split|done|]. { rewrite spread_spec. intros b [-> _]%elem_of_replicate. by apply Z.mod_mod. }
  cbn [fill_words]. unfold store_word. apply aligned_iff in Ha as Ha'. rewrite Ha', E1. simpl. rewrite Z.add_assoc.
  pose proof (filled_dom _ _ _ _ _ H1 F1).
  destruct (IH m1 (xs + lsize)) as (m2 & E2 & F2); [by apply (mapped_dom m)|by rewrite aligned_next|].
  exists m2. split; [done|]. eapply filled_app; eauto; lia.
Qed.

Lemma memset_filled s c count m :
  0 ≤ s → 0 ≤ count < 2 ^ 64 → mapped m s count → ∃ m', memset s c count m = Ok m' ∧ filled m s count c m'.
Proof.
  intros Hs Hc Hm. unfold memset. rewrite land_lmask. set (len := u64 (- s) `mod` lsize).
  assert (0 ≤ len < lsize ∧ (s + len) `mod` lsize = 0) as [Hl Ha].
  { unfold len, u64, lsize. split; [apply Z.mod_pos_bound; lia|].
    rewrite Z.mod_mod_divide by (exists (2 ^ 61); done).
    rewrite Z.add_mod_idemp_r by done. by replace (s + - s) with 0 by lia. }
  clearbody len. destruct (Z.ltb_spec len count) as [Hlt|Hge].
  2:{ simpl. destruct (fill_bytes_ok (Z.to_nat count) m s c) as (m' & E & F); [by rewrite Z2Nat.id by lia|].
      rewrite E, Z2Nat.id in * by lia. simpl. eauto. }
  rewrite u64_small by lia. set (k := count - len) in *. set (w := lsize * (k / lsize)).
  assert (k = w + Z.land k lmask) as Ek by (rewrite land_lmask; apply Z.div_mod; done).
  assert (0 ≤ k / lsize) as Hq by (apply Z.div_pos; unfold lsize; lia). assert (0 ≤ w) as Hw by (apply Z.mul_nonneg_nonneg; done).
  set (r := Z.land k lmask) in *. assert (0 ≤ r) as Hr by (unfold r; rewrite land_lmask; apply Z.mod_pos_bound; done).
  destruct (mapped_split m s count len ltac:(lia) Hm) as [H1 H2]. fold k in H2.
  destruct (fill_bytes_ok (Z.to_nat len) m s c) as (m1 & E1 & F1); [by rewrite Z2Nat.id by lia|]. rewrite Z2Nat.id in E1, F1 by lia.
  pose proof (filled_dom _ _ _ _ _ H1 F1) as D1. apply (mapped_dom _ _ _ _ D1) in H2.
  destruct (mapped_split m1 (s + len) k w ltac:(lia) H2) as [H3 H4].
  destruct (fill_words_ok (Z.to_nat (k / lsize)) m1 (s + len) c) as (m2 & E2 & F2); [by rewrite Z2Nat.id|done|].
  rewrite Z2Nat.id in E2, F2 by done. fold w in E2, F2. pose proof (filled_dom _ _ _ _ _ H3 F2) as D2. apply (mapped_dom _ _ _ _ D2) in H4.
  destruct (fill_bytes_ok (Z.to_nat r) m2 (s + len + w) c) as (m3 & E3 & F3); [rewrite Z2Nat.id by done; by replace r with (k - w) by lia|].
  rewrite Z2Nat.id in E3, F3 by done. exists m3. rewrite E1. simpl. rewrite E2. simpl. rewrite E3. split; [done|].
  replace count with (len + (w + r)) by lia. eapply filled_app; [lia..|exact F1|]. eapply filled_app; eauto; lia.
Qed.

(** [memset] stores the low byte of [c] in every byte of the range and nothing
    elsewhere. *)
Theorem memset_is_fill s c count m :
  0 ≤ s → 0 ≤ count < 2 ^ 64 → mapped m s count → memset s c count m = memset_ref s c count m.
Proof.
  intros Hs Hc Hm. destruct (memset_filled s c count m) as (m1 & -> & F1); [done..|]. unfold memset_ref.
  destruct (store_bytes_filled m s count c (replicate (Z.to_nat count) c)) as (m2 & -> & F2);
    [by intros b [-> _]%elem_of_replicate|rewrite length_replicate; lia|done|]. f_equal. apply map_eq. intros x. by rewrite F1, F2.
Qed.

(** * Concrete memory *)

Fixpoint mem_of (a : Z) (l : list Z) : mem :=
  match l with [] => ∅ | b :: l => <[a := b]> (mem_of (a + 1) l) end.

Lemma lookup_mem_of a l x :
  mem_of a l !! x = if (a <=? x) && (x <? a + Z.of_nat (length l)) then l !! Z.to_nat (x - a) else None.
Proof.
  revert a. induction l as [|b l IH]; intros a; cbn [mem_of length].
  { rewrite lookup_empty. by destruct (_ && _). }
  destruct (Z.eq_dec x a) as [->|].
  { rewrite lookup_insert_eq, Z.sub_diag. by destruct (Z.leb_spec a a), (Z.ltb_spec a (a + Z.of_nat (S (length l)))); try lia. }
  rewrite lookup_insert_ne, IH by done. replace (a + 1 + Z.of_nat (length l)) with (a + Z.of_nat (S (length l))) by lia.
  destruct (Z.leb_spec (a + 1) x), (Z.leb_spec a x), (Z.ltb_spec x (a + Z.of_nat (S (length l)))); try lia; cbn [andb]; [|done..].
  by replace (Z.to_nat (x - a)) with (S (Z.to_nat (x - (a + 1)))) by lia.
Qed.

Lemma mapped_mem_of a l b n : a ≤ b → b + n ≤ a + Z.of_nat (length l) → mapped (mem_of a l) b n.
Proof.
  intros H1 H2 x Hx. rewrite lookup_mem_of.
  destruct (Z.leb_spec a x), (Z.ltb_spec x (a + Z.of_nat (length l))); try lia. apply lookup_lt_is_Some. lia.
Qed.

Lemma bytes_ok_mem_of a l : Forall (λ b, 0 ≤ b < 2 ^ 8) l → bytes_ok (mem_of a l).
Proof.
  intros Hl x b. rewrite lookup_mem_of. destruct (_ && _); [|done]. intros E. exact (Forall_lookup_1 _ _ _ _ Hl E).
Qed.

(** Thirty bytes moved up by three: the ranges overlap and the head is unaligned. *)
Definition ex_mem : mem := mem_of 4093 (seqZ 100 40).

