(* ===== verification/CString.v ===== *)
(** Strings: the files of [lib/libc/string] apart from the ones in [CMem], and
    [lib/libc/ctype.c].

    A string is a run of bytes in memory up to a zero byte; [char] is signed.  A
    loop that ends at the zero byte has the number of mapped addresses as its fuel,
    which is more than the length of any string in memory.  A pointer that may be
    null is an [option]. *)
From stdpp Require Import prelude gmap.
From S2P Require Import Prelude CMem.

#[local] Open Scope Z_scope.

Definition s8 (x : Z) : Z := (x + 2 ^ 7) `mod` 2 ^ 8 - 2 ^ 7.

(** * ctype.c *)

Definition isblank (c : Z) : bool := (c =? 32) || (c =? 9).
Definition isspace (c : Z) : bool :=
  (c =? 32) || (c =? 12) || (c =? 10) || (c =? 13) || (c =? 9) || (c =? 11).
Definition islower (c : Z) : bool := (97 <=? c) && (c <=? 122).
Definition isupper (c : Z) : bool := (65 <=? c) && (c <=? 90).
Definition isdigit (c : Z) : bool := (48 <=? c) && (c <=? 57).
Definition isalpha (c : Z) : bool := isupper c || islower c.
Definition isalnum (c : Z) : bool := isalpha c || isdigit c.
Definition isxdigit (c : Z) : bool :=
  isdigit c || ((97 <=? c) && (c <=? 102)) || ((65 <=? c) && (c <=? 70)).
Definition isgraph (c : Z) : bool := (32 <? c) && (c <? 127).
Definition iscntrl (c : Z) : bool := (c <? 32) || (c =? 127).
Definition isprint (c : Z) : bool := (32 <=? c) && (c <? 127).
Definition ispunct (c : Z) : bool := isgraph c && negb (isalnum c).
Definition tolower (c : Z) : Z := if (65 <=? c) && (c <=? 90) then c + (97 - 65) else c.
Definition toupper (c : Z) : Z := if (97 <=? c) && (c <=? 122) then c + (65 - 97) else c.

(** * Lengths and searches *)

Fixpoint strlen_loop (fuel : nat) (s i : Z) (m : mem) : res Z :=
  match fuel with
  | O => Fault OutOfFuel
  | S fuel => c ← load m (s + i); if c =? 0 then Ok i else strlen_loop fuel s (i + 1) m
  end.
Definition strlen (s : Z) (m : mem) : res Z := strlen_loop (S (size m)) s 0 m.

Fixpoint strnlen_loop (count : nat) (sc : Z) (m : mem) : res Z :=
  match count with
  | O => Ok sc
  | S count => c ← load m sc; if c =? 0 then Ok sc else strnlen_loop count (sc + 1) m
  end.
Definition strnlen (s count : Z) (m : mem) : res Z :=
  sc ← strnlen_loop (Z.to_nat count) s m; Ok (sc - s).

Fixpoint memchr_loop (len : nat) (b x : Z) (m : mem) : res (option Z) :=
  match len with
  | O => Ok None
  | S len => v ← load m b; if v =? x then Ok (Some b) else memchr_loop len (b + 1) x m
  end.
Definition memchr (buf c len : Z) (m : mem) : res (option Z) := memchr_loop (Z.to_nat len) buf (Z.land c 255) m.

Fixpoint memscan_loop (size : nat) (p c : Z) (m : mem) : res Z :=
  match size with
  | O => Ok p
  | S size => v ← load m p; if v =? c then Ok p else memscan_loop size (p + 1) c m
  end.
Definition memscan (addr c size : Z) (m : mem) : res Z := memscan_loop (Z.to_nat size) addr c m.

Fixpoint strchr_loop (fuel : nat) (s c : Z) (m : mem) : res (option Z) :=
  match fuel with
  | O => Fault OutOfFuel
  | S fuel =>
      v ← load m s;
      if s8 v =? s8 c then Ok (Some s) else if v =? 0 then Ok None else strchr_loop fuel (s + 1) c m
  end.
Definition strchr (s c : Z) (m : mem) : res (option Z) := strchr_loop (S (size m)) s c m.

(** [c] is not converted to [char] here. *)
Fixpoint strrchr_loop (fuel : nat) (s c : Z) (last : option Z) (m : mem) : res (option Z) :=
  match fuel with
  | O => Fault OutOfFuel
  | S fuel =>
      v ← load m s;
      if v =? 0 then Ok last else strrchr_loop fuel (s + 1) c (if s8 v =? c then Some s else last) m
  end.
Definition strrchr (s c : Z) (m : mem) : res (option Z) :=
  strrchr_loop (S (size m)) s c (if c =? 0 then Some s else None) m.

(** * Comparisons *)

Fixpoint memcmp_loop (count : nat) (su1 su2 : Z) (m : mem) : res Z :=
  match count with
  | O => Ok 0
  | S count =>
      a ← load m su1; b ← load m su2;
      let r := s8 (a - b) in
      if r =? 0 then memcmp_loop count (su1 + 1) (su2 + 1) m else Ok r
  end.
Definition memcmp (cs ct count : Z) (m : mem) : res Z := memcmp_loop (Z.to_nat count) cs ct m.
Definition bcmp (cs ct count : Z) (m : mem) : res Z := memcmp cs ct count m.

Fixpoint strcmp_loop (fuel : nat) (cs ct : Z) (m : mem) : res Z :=
  match fuel with
  | O => Fault OutOfFuel
  | S fuel =>
      a ← load m cs; b ← load m ct;
      let r := s8 (s8 a - s8 b) in
      if negb (r =? 0) || (a =? 0) then Ok r else strcmp_loop fuel (cs + 1) (ct + 1) m
  end.
Definition strcmp (cs ct : Z) (m : mem) : res Z := strcmp_loop (S (size m)) cs ct m.
Definition strcoll (s1 s2 : Z) (m : mem) : res Z := strcmp s1 s2 m.

Fixpoint strncmp_loop (count : nat) (cs ct r : Z) (m : mem) : res Z :=
  match count with
  | O => Ok r
  | S count =>
      a ← load m cs; b ← load m ct;
      let r := s8 (s8 a - s8 b) in
      if negb (r =? 0) || (a =? 0) then Ok r else strncmp_loop count (cs + 1) (ct + 1) r m
  end.
Definition strncmp (cs ct count : Z) (m : mem) : res Z := strncmp_loop (Z.to_nat count) cs ct 0 m.

Fixpoint strcasecmp_loop (fuel : nat) (cs ct : Z) (m : mem) : res Z :=
  match fuel with
  | O => Fault OutOfFuel
  | S fuel =>
      a ← load m cs; b ← load m ct;
      let r := s8 (tolower (s8 a) - tolower (s8 b)) in
      if negb (r =? 0) || (a =? 0) then Ok r else strcasecmp_loop fuel (cs + 1) (ct + 1) m
  end.
Definition strcasecmp (cs ct : Z) (m : mem) : res Z := strcasecmp_loop (S (size m)) cs ct m.

(** [len] rounds at most, [c1] and [c2] from the round before. *)
Fixpoint strnicmp_loop (len : nat) (s1 s2 c1 c2 : Z) (m : mem) : res Z :=
  match len with
  | O => Ok (c1 - c2)
  | S len =>
      c1 ← load m s1; c2 ← load m s2;
      if (c1 =? 0) || (c2 =? 0) then Ok (c1 - c2) else
      if c1 =? c2 then strnicmp_loop len (s1 + 1) (s2 + 1) c1 c2 m else
      let c1 := u8 (tolower c1) in let c2 := u8 (tolower c2) in
      if negb (c1 =? c2) then Ok (c1 - c2) else strnicmp_loop len (s1 + 1) (s2 + 1) c1 c2 m
  end.
Definition strnicmp (s1 s2 len : Z) (m : mem) : res Z := strnicmp_loop (Z.to_nat len) s1 s2 0 0 m.

(** * Copies *)

Definition bcopy (src dest count : Z) (m : mem) : res mem := memcpy dest src count m.
Definition bzero (dst count : Z) (m : mem) : res mem := memset dst 0 count m.

(** A copy up to the zero byte and with it. *)
Fixpoint copy_string (fuel : nat) (dest src : Z) (m : mem) : res mem :=
  match fuel with
  | O => Fault OutOfFuel
  | S fuel =>
      c ← load m src; m ← store m dest c;
      if c =? 0 then Ok m else copy_string fuel (dest + 1) (src + 1) m
  end.
Definition strcpy (dest src : Z) (m : mem) : res mem := copy_string (S (size m)) dest src m.

(** The first loop of [strncpy] for [count - i] more rounds; it returns [i] after its
    last test and the pointer to write to. *)
Fixpoint strncpy_loop (n : nat) (i dest src : Z) (m : mem) : res (Z * Z * mem) :=
  match n with
  | O => Ok (i + 1, dest, m)
  | S n =>
      c ← load m src; m ← store m dest c;
      if c =? 0 then Ok (i + 1, dest + 1, m) else strncpy_loop n (i + 1) (dest + 1) (src + 1) m
  end.
Definition strncpy (dest src count : Z) (m : mem) : res mem :=
  '(i, dest, m) ← strncpy_loop (Z.to_nat count) 0 dest src m;
  '(_, m) ← fill_bytes (Z.to_nat (count - i)) dest 0 m;
  Ok m.

(** [for (i = 0; i < n && src[i]; i++) dst[i] = src[i];] *)
Fixpoint copy_bounded (n : nat) (i dst src : Z) (m : mem) : res (Z * mem) :=
  match n with
  | O => Ok (i, m)
  | S n =>
      c ← load m (src + i);
      if c =? 0 then Ok (i, m) else m ← store m (dst + i) c; copy_bounded n (i + 1) dst src m
  end.

Definition strlcpy (dst src s : Z) (m : mem) : res (Z * mem) :=
  if s =? 0 then n ← strlen src m; Ok (n, m) else
  '(i, m) ← copy_bounded (Z.to_nat (s - 1)) 0 dst src m;
  m ← store m (dst + i) 0;
  n ← strlen (src + i) m;
  Ok (u64 (i + n), m).

Definition strlcat (dst src s : Z) (m : mem) : res (Z * mem) :=
  j ← strnlen dst s m;
  if s =? 0 then n ← strlen src m; Ok (u64 (j + n), m) else
  let dst := dst + j in
  '(i, m) ← copy_bounded (Z.to_nat (s - 1)) 0 dst src m;
  m ← store m (dst + i) 0;
  n ← strlen (src + i) m;
  Ok (u64 (j + i + n), m).

Definition strcat (dest src : Z) (m : mem) : res mem :=
  n ← strlen dest m; copy_string (S (size m)) (dest + n) src m.

Fixpoint strncat_loop (count : nat) (dest src : Z) (m : mem) : res mem :=
  match count with
  | O => store m dest 0
  | S count =>
      c ← load m src; m ← store m dest c;
      if c =? 0 then Ok m else strncat_loop count (dest + 1) (src + 1) m
  end.
Definition strncat (dest src count : Z) (m : mem) : res mem :=
  if count =? 0 then Ok m else n ← strlen dest m; strncat_loop (Z.to_nat count) (dest + n) src m.

(** [copy] is what [malloc] returns. *)
Definition strdup (str : Z) (copy : option Z) (m : mem) : res (option Z * mem) :=
  n ← strlen str m;
  let len := u64 (n + 1) in
  match copy with
  | None => Ok (None, m)
  | Some copy => m ← memcpy copy str len m; Ok (Some copy, m)
  end.

Definition strxfrm (dest src n : Z) (m : mem) : res (Z * mem) :=
  len ← strlen src m;
  if n =? 0 then Ok (len, m) else
  let copy_len := if len <? n then len else n - 1 in
  m ← memcpy dest src copy_len m;
  m ← store m (dest + copy_len) 0;
  Ok (len, m).

(** * Sets of characters, substrings and tokens *)

Fixpoint in_set (fuel : nat) (a c : Z) (m : mem) : res bool :=
  match fuel with
  | O => Fault OutOfFuel
  | S fuel => v ← load m a; if v =? 0 then Ok false else if c =? v then Ok true else in_set fuel (a + 1) c m
  end.

Fixpoint strspn_loop (fuel : nat) (p accept count : Z) (m : mem) : res Z :=
  match fuel with
  | O => Fault OutOfFuel
  | S fuel =>
      c ← load m p;
      if c =? 0 then Ok count else
      b ← in_set (S (size m)) accept c m;
      if b : bool then strspn_loop fuel (p + 1) accept (count + 1) m else Ok count
  end.
Definition strspn (s accept : Z) (m : mem) : res Z := strspn_loop (S (size m)) s accept 0 m.

Fixpoint strpbrk_loop (fuel : nat) (sc1 ct : Z) (m : mem) : res (option Z) :=
  match fuel with
  | O => Fault OutOfFuel
  | S fuel =>
      c ← load m sc1;
      if c =? 0 then Ok None else
      b ← in_set (S (size m)) ct c m;
      if b : bool then Ok (Some sc1) else strpbrk_loop fuel (sc1 + 1) ct m
  end.
Definition strpbrk (cs ct : Z) (m : mem) : res (option Z) := strpbrk_loop (S (size m)) cs ct m.

(** [while (l1 >= l2)] of [strstr], for [l1 - l2 + 1] rounds. *)
Fixpoint strstr_loop (n : nat) (s1 s2 l2 : Z) (m : mem) : res (option Z) :=
  match n with
  | O => Ok None
  | S n => r ← memcmp s1 s2 l2 m; if r =? 0 then Ok (Some s1) else strstr_loop n (s1 + 1) s2 l2 m
  end.
Definition strstr (s1 s2 : Z) (m : mem) : res (option Z) :=
  n2 ← strlen s2 m;
  let l2 := s32 n2 in
  if l2 =? 0 then Ok (Some s1) else
  n1 ← strlen s1 m;
  let l1 := s32 n1 in
  strstr_loop (Z.to_nat (l1 - l2 + 1)) s1 s2 (u64 l2) m.

(** The static variable [___strtok] is passed and returned. *)
Definition strtok (strtok : option Z) (s : option Z) (ct : Z) (m : mem) : res (option Z * option Z * mem) :=
  match (match s with Some s => Some s | None => strtok end) with
  | None => Ok (None, strtok, m)
  | Some sbegin =>
      n ← strspn sbegin ct m;
      let sbegin := sbegin + n in
      c ← load m sbegin;
      if c =? 0 then Ok (None, None, m) else
      send ← strpbrk sbegin ct m;
      match send with
      | None => Ok (Some sbegin, None, m)
      | Some e =>
          v ← load m e;
          if v =? 0 then Ok (Some sbegin, Some e, m)
          else m ← store m e 0; Ok (Some sbegin, Some (e + 1), m)
      end
  end.

(** * Strings in memory *)

(** The bytes [l] are at [a]. *)
Definition holds (m : mem) (a : Z) (l : list Z) : Prop := ∀ i b, l !! i = Some b → m !! (a + Z.of_nat i) = Some b.
Definition str_at (m : mem) (a : Z) (l : list Z) : Prop := holds m a (l ++ [0]) ∧ 0 ∉ l.

Lemma holds_nil m a : holds m a [].
Proof. intros i b Hi. by rewrite lookup_nil in Hi. Qed.

Lemma holds_cons m a b l : holds m a (b :: l) ↔ m !! a = Some b ∧ holds m (a + 1) l.
Proof.
  split.
  - intros H. split; [rewrite <- (Z.add_0_r a); by apply (H O)|]. intros i c Hi. rewrite <- Z.add_assoc.
    replace (1 + Z.of_nat i) with (Z.of_nat (S i)) by lia. by apply H.
  - intros [H0 H] [|i] c Hi; [injection Hi as <-; by rewrite Z.add_0_r|].
    replace (a + Z.of_nat (S i)) with (a + 1 + Z.of_nat i) by lia. by apply H.
Qed.

Lemma holds_app m a l k : holds m a (l ++ k) ↔ holds m a l ∧ holds m (a + Z.of_nat (length l)) k.
Proof.
  revert a. induction l as [|b l IH]; intros a; cbn [app length].
  { rewrite Z.add_0_r. split; [intros H; split; [apply holds_nil|done]|by intros [_ H]]. }
  rewrite !holds_cons, IH. replace (a + 1 + Z.of_nat (length l)) with (a + Z.of_nat (S (length l))) by lia. tauto.
Qed.

Lemma str_at_nil m a : str_at m a [] ↔ m !! a = Some 0.
Proof.
  unfold str_at. cbn [app]. rewrite holds_cons. split; [naive_solver|]. intros H.
  split_and!; [done|apply holds_nil|apply not_elem_of_nil].
Qed.

Lemma str_at_cons m a b l : str_at m a (b :: l) ↔ m !! a = Some b ∧ b ≠ 0 ∧ str_at m (a + 1) l.
Proof. unfold str_at. cbn [app]. rewrite holds_cons, not_elem_of_cons. naive_solver. Qed.

Lemma str_at_drop m a l n : (n ≤ length l)%nat → str_at m a l → str_at m (a + Z.of_nat n) (drop n l).
Proof.
  revert a l. induction n as [|n IH]; intros a l Hn H; [by rewrite Z.add_0_r|].
  destruct l as [|b l]; [simpl in Hn; lia|]. apply str_at_cons in H as (_ & _ & H). simpl in *.
  replace (a + Z.of_nat (S n)) with (a + 1 + Z.of_nat n) by lia. apply IH; [lia|done].
Qed.

Lemma holds_size m a l : holds m a l → (length l ≤ size m)%nat.
Proof.
  intros H. rewrite <- size_dom. transitivity (size (list_to_set (seqZ a (Z.of_nat (length l))) : gset Z)).
  - rewrite size_list_to_set by apply NoDup_seqZ. rewrite length_seqZ. lia.
  - apply subseteq_size. intros x. rewrite elem_of_list_to_set, elem_of_seqZ, elem_of_dom. intros Hx.
    destruct (lookup_lt_is_Some_2 l (Z.to_nat (x - a))) as [b Eb]; [lia|]. apply H in Eb. exists b.
    by replace x with (a + Z.of_nat (Z.to_nat (x - a))) by lia.
Qed.

(** The fuel of the loops is enough. *)
Lemma str_at_fuel m a l : str_at m a l → (length l < S (size m))%nat.
Proof. intros [H _]. apply holds_size in H. rewrite length_app in H. simpl in H. lia. Qed.

Lemma str_at_inj m a l k : str_at m a l → str_at m a k → l = k.
Proof.
  revert a k. induction l as [|b l IH]; intros a [|c k] Hl Hk; [done|..].
  - apply str_at_nil in Hl. apply str_at_cons in Hk as (E & Hc & _). congruence.
  - apply str_at_nil in Hk. apply str_at_cons in Hl as (E & Hc & _). congruence.
  - apply str_at_cons in Hl as (E1 & _ & Hl), Hk as (E2 & _ & Hk). f_equal; [congruence|by eapply IH].
Qed.

(** * What the functions do *)

Lemma s8_0 x : - 2 ^ 8 < x < 2 ^ 8 → s8 x = 0 ↔ x = 0.
Proof. unfold s8. intros H. Z.to_euclidean_division_equations. lia. Qed.

Lemma s8_small x : - 2 ^ 7 ≤ x < 2 ^ 7 → s8 x = x.
Proof. intros H. unfold s8. rewrite Z.mod_small; lia. Qed.

Lemma s8_sub a b : s8 (s8 a - s8 b) = s8 (a - b).
Proof.
  unfold s8. f_equal. set (x := (a + 2 ^ 7) `mod` 2 ^ 8). set (y := (b + 2 ^ 7) `mod` 2 ^ 8).
  replace (x - 2 ^ 7 - (y - 2 ^ 7) + 2 ^ 7) with (x - y + 2 ^ 7) by lia.
  rewrite <- Z.add_mod_idemp_l by done. unfold x, y. rewrite <- Zminus_mod, Z.add_mod_idemp_l by done. f_equal. lia.
Qed.

Lemma strlen_loop_ok fuel s i m l :
  (length l < fuel)%nat → str_at m (s + i) l → strlen_loop fuel s i m = Ok (i + Z.of_nat (length l)).
Proof.
  revert i l. induction fuel as [|fuel IH]; intros i l Hf H; [lia|]. cbn [strlen_loop]. destruct l as [|b l].
  - apply str_at_nil in H. unfold load. rewrite H. simpl. by rewrite Z.add_0_r.
  - apply str_at_cons in H as (E & Hb & H). unfold load. rewrite E. simpl. destruct (Z.eqb_spec b 0); [done|].
    rewrite (IH _ l); [f_equal; simpl; lia|simpl in Hf; lia|]. by rewrite Z.add_assoc.
Qed.

Lemma strlen_spec m s l : str_at m s l → strlen s m = Ok (Z.of_nat (length l)).
Proof. intros H. apply (strlen_loop_ok _ s 0); [by eapply str_at_fuel|by rewrite Z.add_0_r]. Qed.

(** ** Comparing *)

(** The order of strings as sequences of bytes. *)
Fixpoint lex (l k : list Z) : comparison :=
  match l, k with
  | [], [] => Eq
  | [], _ => Lt
  | _, [] => Gt
  | a :: l, b :: k => if a =? b then lex l k else a ?= b
  end.

Lemma lex_eq l k : lex l k = Eq ↔ l = k.
Proof.
  revert k. induction l as [|a l IH]; intros [|b k]; simpl; [done..|]. destruct (Z.eqb_spec a b) as [->|Hne].
  - rewrite IH. split; [by intros ->|by intros [=]].
  - rewrite Z.compare_eq_iff. naive_solver.
Qed.

Lemma lex_cons a b l k : (if a =? b then lex l k else a ?= b) = lex (a :: l) (b :: k).
Proof. done. Qed.

Definition ascii7 (l : list Z) : Prop := Forall (λ b, b < 2 ^ 7) l.

Lemma str_at_first m a l :
  str_at m a l → ∃ b, load m a = Ok b ∧ ((b = 0 ∧ l = []) ∨ (b ≠ 0 ∧ ∃ k, l = b :: k ∧ str_at m (a + 1) k)).
Proof.
  setoid_rewrite load_Ok. destruct l as [|b l]; [rewrite str_at_nil|rewrite str_at_cons]; [eauto|]. intros (E & Hb & H). exists b. eauto 10.
Qed.

(** The first difference decides; for bytes above 127 its sign may be wrong. *)
Lemma strcmp_loop_ok fuel cs ct m l k :
  (length l < fuel)%nat → bytes_ok m → str_at m cs l → str_at m ct k →
  ∃ r, strcmp_loop fuel cs ct m = Ok r ∧ (r = 0 ↔ l = k) ∧ (ascii7 l → ascii7 k → (r ?= 0) = lex l k).
Proof.
  intros Hf Hm. revert cs ct l k Hf. induction fuel as [|fuel IH]; intros cs ct l k Hf Hl Hk; [lia|]. cbn [strcmp_loop].
  destruct (str_at_first _ _ _ Hl) as (a & Ea & Ha). destruct (str_at_first _ _ _ Hk) as (b & Eb & Hb). rewrite Ea, Eb. simpl. rewrite s8_sub.
  apply load_Ok, Hm in Ea, Eb. cbv beta in Ea, Eb. destruct (Z.eqb_spec (s8 (a - b)) 0) as [E|Hne]; cbn [negb orb].
  - assert (b = a) as -> by (rewrite s8_0 in E; lia).
    destruct Ha as [[-> ->]|(Ha & l' & -> & Hl')], Hb as [[? ->]|(Hb & k' & -> & Hk')]; [by exists 0|done..|]. destruct (Z.eqb_spec a 0); [done|].
    destruct (IH (cs + 1) (ct + 1) l' k') as (r & Er & H0 & Hx); [simpl in Hf; lia|done..|].
    exists r. split_and!; [done|rewrite H0; naive_solver|]. simpl. rewrite Z.eqb_refl. intros [_ H1]%Forall_cons [_ H2]%Forall_cons. by apply Hx.
  - assert (a ≠ b) as Hab by (intros ->; by rewrite Z.sub_diag in Hne). exists (s8 (a - b)). split_and!; [done| |].
    { split; [done|]. intros ->. destruct Ha as [[-> ->]|(Ha & l' & -> & _)], Hb as [[-> E]|(Hb & k' & E & _)]; congruence. }
    intros H1 H2. assert (a < 2 ^ 7 ∧ b < 2 ^ 7) as [Ha7 Hb7].
    { destruct Ha as [[-> ->]|(Ha & l' & -> & _)], Hb as [[-> ->]|(Hb & k' & -> & _)]; unfold ascii7 in *; rewrite ?Forall_cons in *; naive_solver lia. }
    rewrite s8_small by lia. assert (lex l k = (a ?= b)) as ->; [|destruct (Z.compare_spec a b), (Z.compare_spec (a - b) 0); done || lia].
    destruct Ha as [[-> ->]|(Ha & l' & -> & _)], Hb as [[-> ->]|(Hb & k' & -> & _)]; cbn [lex]; [done|..].
    + symmetry. apply Z.compare_lt_iff. lia.
    + symmetry. apply Z.compare_gt_iff. lia.
    + by destruct (Z.eqb_spec a b).
Qed.

(** [strcmp] is 0 for equal strings only, and on strings of ASCII characters it has
    the sign of their order. *)
Theorem strcmp_spec cs ct m l k :
  bytes_ok m → str_at m cs l → str_at m ct k →
  ∃ r, strcmp cs ct m = Ok r ∧ (r = 0 ↔ l = k) ∧ (ascii7 l → ascii7 k → (r ?= 0) = lex l k).
Proof. intros Hm Hl Hk. apply strcmp_loop_ok; [by eapply str_at_fuel|done..]. Qed.

Lemma memcmp_spec cs ct m l k :
  bytes_ok m → holds m cs l → holds m ct k → length l = length k →
  ∃ r, memcmp cs ct (Z.of_nat (length l)) m = Ok r ∧ (r = 0 ↔ l = k).
Proof.
  intros Hm. unfold memcmp. rewrite Nat2Z.id. revert cs ct k. induction l as [|a l IH]; intros cs ct [|b k] Hl Hk Hlen; try done; [by exists 0|].
  apply holds_cons in Hl as [Ea Hl], Hk as [Eb Hk]. cbn [memcmp_loop length]. unfold load. rewrite Ea, Eb. simpl.
  apply Hm in Ea, Eb. cbv beta in Ea, Eb. destruct (Z.eqb_spec (s8 (a - b)) 0) as [E|Hne].
  - assert (b = a) as -> by (rewrite s8_0 in E; lia). destruct (IH (cs + 1) (ct + 1) k) as (r & Er & H0); [done..|by injection Hlen|].
    exists r. split; [done|]. rewrite H0. naive_solver.
  - exists (s8 (a - b)). split; [done|]. split; [done|]. intros [= -> _]. by rewrite Z.sub_diag in Hne.
Qed.

(** The sign of [memcmp] is not the one of the first difference. *)
Example memcmp_sign_wrong : memcmp 0 1 1 (mem_of 0 [200; 1]) = Ok (-57).
Proof. by vm_compute. Qed.

(** ** Searching *)

Lemma in_set_ok fuel a c m d :
  (length d < fuel)%nat → str_at m a d → in_set fuel a c m = Ok (bool_decide (c ∈ d)).
Proof.
  revert a d. induction fuel as [|fuel IH]; intros a d Hf H; [lia|]. cbn [in_set].
  destruct (str_at_first _ _ _ H) as (b & -> & [[-> ->]|(Hb & k & -> & Hk)]); simpl; [done|].
  destruct (Z.eqb_spec b 0); [done|]. destruct (Z.eqb_spec c b) as [->|Hne].
  - f_equal. symmetry. apply bool_decide_true. set_solver.
  - rewrite (IH _ k); [|simpl in Hf; lia|done]. f_equal. apply bool_decide_ext. set_solver.
Qed.

(** The characters in front that are in [d], and the rest. *)
Fixpoint span (d l : list Z) : list Z * list Z :=
  match l with
  | [] => ([], [])
  | c :: k => if bool_decide (c ∈ d) then let '(p, q) := span d k in (c :: p, q) else ([], l)
  end.

Lemma span_app d l : let '(p, q) := span d l in l = p ++ q ∧ Forall (.∈ d) p ∧ (∀ c k, q = c :: k → c ∉ d).
Proof.
  induction l as [|c l IH]; simpl; [done|]. case_bool_decide as Hc; [|split_and!; [done..|by intros ? ? [= <- <-]]].
  destruct (span d l) as [p q]. destruct IH as (-> & Hp & Hq). split_and!; [done|by constructor|done].
Qed.

Lemma strspn_loop_ok fuel p ct count m l d :
  (length l < fuel)%nat → str_at m p l → str_at m ct d →
  strspn_loop fuel p ct count m = Ok (count + Z.of_nat (length (span d l).1)).
Proof.
  revert p count l. induction fuel as [|fuel IH]; intros p count l Hf H Hd; [lia|]. cbn [strspn_loop].
  destruct (str_at_first _ _ _ H) as (b & -> & [[-> ->]|(Hb & k & -> & Hk)]); cbn [mbind res_bind]; [simpl; by rewrite Z.add_0_r|].
  destruct (Z.eqb_spec b 0); [done|]. rewrite (in_set_ok _ _ _ _ d); [|by eapply str_at_fuel|done]. cbn [mbind res_bind span].
  case_bool_decide; [|simpl; by rewrite Z.add_0_r]. rewrite (IH _ _ k); [|simpl in Hf; lia|done..].
  destruct (span d k). simpl. f_equal. lia.
Qed.

(** The characters in front that are not in [d], and the rest. *)
Fixpoint break (d l : list Z) : list Z * list Z :=
  match l with
  | [] => ([], [])
  | c :: k => if bool_decide (c ∈ d) then ([], l) else let '(p, q) := break d k in (c :: p, q)
  end.

Lemma break_app d l : let '(p, q) := break d l in l = p ++ q ∧ Forall (.∉ d) p ∧ (∀ c k, q = c :: k → c ∈ d).
Proof.
  induction l as [|c l IH]; simpl; [done|]. case_bool_decide as Hc; [split_and!; [done..|by intros ? ? [= <- <-]]|].
  destruct (break d l) as [p q]. destruct IH as (-> & Hp & Hq). split_and!; [done|by constructor|done].
Qed.

Lemma strpbrk_loop_ok fuel p ct m l d :
  (length l < fuel)%nat → str_at m p l → str_at m ct d →
  strpbrk_loop fuel p ct m = Ok (let '(w, q) := break d l in if bool_decide (q = []) then None else Some (p + Z.of_nat (length w))).
Proof.
  revert p l. induction fuel as [|fuel IH]; intros p l Hf H Hd; [lia|]. cbn [strpbrk_loop].
  destruct (str_at_first _ _ _ H) as (b & -> & [[-> ->]|(Hb & k & -> & Hk)]); cbn [mbind res_bind]; [done|].
  destruct (Z.eqb_spec b 0); [done|]. rewrite (in_set_ok _ _ _ _ d); [|by eapply str_at_fuel|done]. cbn [mbind res_bind break].
  case_bool_decide; [cbn; by rewrite Z.add_0_r|]. rewrite (IH _ k); [|simpl in Hf; lia|done..].
  destruct (break d k) as [w q]. case_bool_decide; [done|]. do 2 f_equal. simpl. lia.
Qed.

(** A store outside of a string leaves it alone. *)
Lemma str_at_insert m a l x v : str_at m a l → x < a ∨ a + Z.of_nat (length l) < x → str_at (<[x := v]> m) a l.
Proof.
  intros [H H0] Hx. split; [|done]. intros i b Hi. rewrite lookup_insert_ne; [by apply H|]. intros ->.
  apply lookup_lt_Some in Hi. rewrite length_app in Hi. simpl in Hi. lia.
Qed.

Lemma str_at_app m a p q : str_at m a (p ++ q) → 0 ∉ p ∧ str_at m (a + Z.of_nat (length p)) q.
Proof.
  intros [H H0]. rewrite <- app_assoc in H. apply holds_app in H as [_ H]. split; [set_solver|]. split; [done|set_solver].
Qed.

(** A zero byte cuts a string in two. *)
Lemma str_at_cut m a p c q :
  str_at m a (p ++ c :: q) →
  let e := a + Z.of_nat (length p) in let m' := <[e := 0]> m in str_at m' a p ∧ str_at m' (e + 1) q.
Proof.
  intros H e m'. destruct (str_at_app _ _ _ _ H) as [Hp Hq]. split.
  - destruct H as [H _]. rewrite <- app_assoc in H. apply holds_app in H as [H _]. split; [|done]. apply holds_app. split.
    + intros i b Hi. unfold m'. rewrite lookup_insert_ne; [by apply H|]. unfold e. apply lookup_lt_Some in Hi. lia.
    + apply holds_cons. split; [apply lookup_insert_eq|apply holds_nil].
  - apply str_at_cons in Hq as (_ & _ & Hq). apply str_at_insert; [done|]. unfold e. lia.
Qed.

(** One call of [strtok]: it skips the separators in front, ends the word behind
    them with a zero byte and remembers the rest. *)
Theorem strtok_spec st s ct m a l d :
  (s = Some a ∨ s = None ∧ st = Some a) → str_at m a l → str_at m ct d →
  let '(p, q) := span d l in let '(w, r) := break d q in
  let b := a + Z.of_nat (length p) in let e := b + Z.of_nat (length w) in
  strtok st s ct m =
    match q, r with
    | [], _ => Ok (None, None, m)
    | _, [] => Ok (Some b, None, m)
    | _, _ :: _ => Ok (Some b, Some (e + 1), <[e := 0]> m)
    end ∧
  str_at (if r is [] then m else <[e := 0]> m) b w ∧ (∀ c k, r = c :: k → str_at (<[e := 0]> m) (e + 1) k).
Proof.
  intros Hs Hl Hd. pose proof (span_app d l) as Hsp. unfold strtok.
  assert ((match s with Some s => Some s | None => st end) = Some a) as -> by (destruct Hs as [->|[-> ->]]; done).
  unfold strspn. rewrite (strspn_loop_ok _ _ _ _ _ l d); [|by eapply str_at_fuel|done..].
  destruct (span d l) as [p q]. destruct Hsp as (-> & Hp & Hq). cbn [mbind res_bind fst]. rewrite Z.add_0_l.
  apply str_at_app in Hl as [Hp0 Hl]. set (b := a + Z.of_nat (length p)) in *. clearbody b.
  pose proof (break_app d q) as Hbr. destruct (break d q) as [w r] eqn:Eb. destruct Hbr as (Eq & Hw & Hr).
  destruct (str_at_first _ _ _ Hl) as (c & -> & [[-> ->]|(Hc & k & Ek & Hk)]); cbn [mbind res_bind].
  { simpl in Eb. injection Eb as <- <-. done. }
  destruct (Z.eqb_spec c 0); [done|]. unfold strpbrk. rewrite (strpbrk_loop_ok _ _ _ _ q d); [|by eapply str_at_fuel|done..]. rewrite Eb.
  rewrite Eq in Hl. destruct r as [|x r].
  { rewrite app_nil_r in *. subst. split_and!; [done..|]. by intros ? ? ?. }
  case_bool_decide; [done|]. cbn [mbind res_bind]. destruct (str_at_cut _ _ _ _ _ Hl) as [H1 H2].
  apply str_at_app in Hl as [_ Hl]. apply str_at_cons in Hl as (E & Hx & _). unfold load at 1. rewrite E. cbn [mbind res_bind of_option].
  destruct (Z.eqb_spec x 0); [done|]. rewrite store_mapped by (by exists x). subst q.
  split_and!; [by destruct w|done|by intros ? ? [= <- <-]].
Qed.

(** Where [k] is in [l] first. *)
Fixpoint find_sub (k l : list Z) : option nat :=
  if bool_decide (take (length k) l = k) then Some O else
  match l with [] => None | _ :: l => S <$> find_sub k l end.

Lemma find_sub_short k l : (length l < length k)%nat → find_sub k l = None.
Proof.
  induction l as [|c l IH]; intros H; cbn [find_sub]; (rewrite bool_decide_false; [|intros E; apply (f_equal length) in E; rewrite length_take in E; lia]); [done|].
  rewrite IH; [done|]. simpl in H. lia.
Qed.

Lemma strstr_loop_ok n s1 s2 m l k :
  bytes_ok m → n = (length l + 1 - length k)%nat → k ≠ [] → str_at m s1 l → holds m s2 k →
  strstr_loop n s1 s2 (Z.of_nat (length k)) m = Ok ((λ i, s1 + Z.of_nat i) <$> find_sub k l).
Proof.
  intros Hm. revert s1 l. induction n as [|n IH]; intros s1 l Hn Hne Hl Hk.
  { rewrite find_sub_short by lia. done. }
  cbn [strstr_loop]. destruct (memcmp_spec s1 s2 m (take (length k) l) k) as (r & Er & Hr).
  { done. } { destruct Hl as [Hl _]. rewrite <- (take_drop (length k) l), <- app_assoc in Hl. by apply holds_app in Hl as [Hl _]. }
  { done. } { rewrite length_take. lia. }
  rewrite length_take, Nat.min_l in Er by lia. rewrite Er. cbn [mbind res_bind]. destruct (Z.eqb_spec r 0) as [->|Hr0].
  - assert (find_sub k l = Some O) as ->; [|simpl; by rewrite Z.add_0_r].
    destruct l; cbn [find_sub]; rewrite bool_decide_true; tauto.
  - destruct l as [|c l]; [destruct k; simpl in *; [done|lia]|]. cbn [find_sub]. rewrite bool_decide_false by tauto.
    apply str_at_cons in Hl as (_ & _ & Hl). simpl in Hn. rewrite (IH _ l); [|lia|done..].
    destruct (find_sub k l); [|done]. simpl. do 2 f_equal. lia.
Qed.

(** [strstr] finds the first occurrence. *)
Theorem strstr_spec s1 s2 m l k :
  bytes_ok m → str_at m s1 l → str_at m s2 k → Z.of_nat (length l) < 2 ^ 31 → Z.of_nat (length k) < 2 ^ 31 →
  strstr s1 s2 m = Ok ((λ i, s1 + Z.of_nat i) <$> find_sub k l).
Proof.
  intros Hm Hl Hk Bl Bk. unfold strstr. rewrite (strlen_spec _ _ _ Hk). cbn [mbind res_bind]. rewrite s32_small by lia.
  destruct (Z.eqb_spec (Z.of_nat (length k)) 0) as [E|Hne].
  - destruct k; [|simpl in E; lia]. assert (find_sub [] l = Some O) as -> by (by destruct l). simpl. by rewrite Z.add_0_r.
  - rewrite (strlen_spec _ _ _ Hl). cbn [mbind res_bind]. rewrite s32_small, u64_small by lia.
    apply strstr_loop_ok; [done|lia|by intros ->|done|]. destruct Hk as [Hk _]. by apply holds_app in Hk as [Hk _].
Qed.

(** ** Bounded copies *)

Lemma copy_bounded_ok n i dst src m l :
  str_at m (src + i) l → mapped m (dst + i) (Z.of_nat n) → bytes_ok m →
  dst + i + Z.of_nat n ≤ src + i ∨ src + i + Z.of_nat (length l) < dst + i →
  ∃ m', copy_bounded n i dst src m = Ok (i + Z.of_nat (length (take n l)), m') ∧ holds m' (dst + i) (take n l) ∧
    dom m' = dom m ∧ ∀ x, x < dst + i ∨ dst + i + Z.of_nat n ≤ x → m' !! x = m !! x.
Proof.
  revert i m l. induction n as [|n IH]; intros i m l Hl Hm Hb Hd.
  { exists m. simpl. rewrite Z.add_0_r. split_and!; [done|apply holds_nil|done..]. }
  cbn [copy_bounded]. destruct (str_at_first _ _ _ Hl) as (c & E & [[-> ->]|(Hc & k & -> & Hk)]); rewrite E; cbn [mbind res_bind].
  { exists m. simpl. rewrite Z.add_0_r. split_and!; [done|apply holds_nil|done..]. }
  destruct (Z.eqb_spec c 0); [done|]. pose proof (Hm (dst + i) ltac:(lia)) as Hs. rewrite store_mapped by done. cbn [mbind res_bind].
  apply load_Ok, Hb in E as Bc. cbv beta in Bc. assert (u8 c = c) as -> by (by apply Z.mod_small).
  assert (dom (<[dst + i := c]> m) = dom m) as Hdom by (by apply dom_insert_lookup_L). rewrite <- !Z.add_assoc in *. simpl length in Hd.
  destruct (IH (i + 1) (<[dst + i := c]> m) k) as (m' & E' & H1 & H2 & H3).
  - apply str_at_insert; [done|lia].
  - apply (mapped_dom m); [done|]. eapply mapped_sub; [exact Hm|lia..].
  - intros x b. destruct (Z.eq_dec x (dst + i)) as [->|]; [rewrite lookup_insert_eq; by intros [= <-]|rewrite lookup_insert_ne by done; apply Hb].
  - lia.
  - exists m'. rewrite E'. split_and!; [f_equal; f_equal; simpl; lia| |congruence|].
    + cbn [take]. apply holds_cons. rewrite H3, lookup_insert_eq by lia. split; [done|]. by rewrite <- Z.add_assoc.
    + intros x Hx. rewrite H3 by lia. apply lookup_insert_ne. lia.
Qed.

(** [strlcpy] into a buffer of [s] bytes stores the longest beginning of the
    source that fits with its zero byte, writes nothing outside of the buffer, and
    returns the length of the whole source. *)
Theorem strlcpy_spec dst src s m l :
  0 < s < 2 ^ 64 → bytes_ok m → str_at m src l → mapped m dst s → dst + s ≤ src ∨ src + Z.of_nat (length l) < dst →
  Z.of_nat (length l) < 2 ^ 64 →
  ∃ m', strlcpy dst src s m = Ok (Z.of_nat (length l), m') ∧ str_at m' dst (take (Z.to_nat (s - 1)) l) ∧
    ∀ x, x < dst ∨ dst + s ≤ x → m' !! x = m !! x.
Proof.
  intros Hs Hb Hl Hm Hd Hlen. unfold strlcpy. destruct (Z.eqb_spec s 0) as [|_]; [lia|]. set (n := Z.to_nat (s - 1)).
  destruct (copy_bounded_ok n 0 dst src m l) as (m1 & E & H1 & H2 & H3); rewrite ?Z.add_0_r in *; [done|eapply mapped_sub; [done|lia..]|done|lia|].
  rewrite E. cbn [mbind res_bind]. rewrite Z.add_0_l. set (t := take n l) in *.
  assert (length t ≤ n ∧ length t ≤ length l)%nat as [Ht1 Ht2] by (unfold t; rewrite length_take; lia).
  assert (is_Some (m1 !! (dst + Z.of_nat (length t)))) as Hst by (apply (mapped_dom m m1 dst s H2 Hm); lia).
  rewrite store_mapped by done. cbn [mbind res_bind]. change (u8 0) with 0. set (m2 := <[dst + Z.of_nat (length t) := 0]> m1).
  assert (∀ x, x < dst ∨ dst + s ≤ x → m2 !! x = m !! x) as Hout.
  { intros x Hx. unfold m2. rewrite lookup_insert_ne by lia. apply H3. lia. }
  assert (str_at m2 src l) as Hl2.
  { destruct Hl as [Hl Hl0]. split; [|done]. intros i b Hi. rewrite Hout; [by apply Hl|].
    apply lookup_lt_Some in Hi. rewrite length_app in Hi. simpl in Hi. lia. }
  rewrite (strlen_spec _ _ _ (str_at_drop _ _ _ (length t) Ht2 Hl2)). cbn [mbind res_bind]. rewrite length_drop.
  exists m2. split_and!; [f_equal; f_equal; rewrite u64_small; lia| |done]. split.
  - apply holds_app. split; [|apply holds_cons; split; [apply lookup_insert_eq|apply holds_nil]].
    intros i b Hi. unfold m2. rewrite lookup_insert_ne; [by apply H1|]. apply lookup_lt_Some in Hi. lia.
  - destruct Hl as [_ Hl0]. intros Hin. apply Hl0. unfold t in Hin. by apply elem_of_take in Hin as (i & Hi & _); apply list_elem_of_lookup_2 in Hi.
Qed.

(** [strlcat] limits the number of bytes it appends by the size of the whole buffer,
    not by the room that is left: in a buffer of 8 bytes that holds 5 characters it
    writes over the two bytes behind the buffer. *)
Example strlcat_overruns :
  let m := mem_of 0 ([97; 98; 99; 100; 101; 0; 0; 0] ++ [7; 7] ++ [120; 121; 122; 49; 0]) in
  match strlcat 0 10 8 m with
  | Ok (n, m') => n = 9 ∧ m' !! 8 = Some 49 ∧ m' !! 9 = Some 0
  | Fault _ => False
  end.
Proof. by vm_compute. Qed.

Definition ex_strings : mem := mem_of 100 ([7; 7; 7; 7; 7; 7] ++ [104; 101; 108; 108; 111; 0]).

Lemma str_at_mem_of a l b k :
  a ≤ b → 0 ∉ k → take (length k + 1) (drop (Z.to_nat (b - a)) l) = k ++ [0] → str_at (mem_of a l) b k.
Proof.
  intros Hab H0 E. split; [|done]. intros i c Hi. rewrite <- E in Hi. apply lookup_take_Some in Hi as [Hi Hlt].
  rewrite lookup_drop in Hi. rewrite lookup_mem_of. pose proof (lookup_lt_Some _ _ _ Hi).
  destruct (Z.leb_spec a (b + Z.of_nat i)), (Z.ltb_spec (b + Z.of_nat i) (a + Z.of_nat (length l))); try lia. cbn [andb].
  rewrite <- Hi. f_equal. lia.
Qed.

Lemma strlcpy_spec_witness :
  ∃ m', strlcpy 101 106 4 ex_strings = Ok (5, m') ∧ str_at m' 101 [104; 101; 108] ∧ m' !! 105 = Some 7.
Proof.
  destruct (strlcpy_spec 101 106 4 ex_strings [104; 101; 108; 108; 111]) as (m' & E & H & Ho).
  - lia.
  - apply bytes_ok_mem_of. apply (bool_decide_unpack _). by vm_compute.
  - apply str_at_mem_of; [done|apply (bool_decide_unpack _); by vm_compute|done].
  - by apply mapped_mem_of.
  - simpl. lia.
  - simpl. lia.
  - exists m'. split_and!; [done..|]. rewrite Ho by lia. by vm_compute.
Defined.
