(* ===== verification/CSort.v ===== *)
(** Sorting and searching: [lib/libc/qsort.c] and [lib/libc/bsearch.c].

    The array is a list of elements and a pointer into it is the index of an
    element; [es] is the size of an element in bytes.  The swap macros exchange
    elements, as longs or as bytes.  Where the code has a number of bytes in an
    [int], so has the model: [elems] converts it back, and a number that is not a
    multiple of the element size, which an overflow can give, is a fault. *)
From stdpp Require Import prelude sorting.
From S2P Require Import Prelude Bytes.

#[local] Open Scope Z_scope.

Section qsort.
Context {A : Type} (cmp : A → A → Z) (es : Z).

Definition elem (l : list A) (i : Z) : res A := of_option BadAccess (znth l i).
Definition cmp_at (l : list A) (i j : Z) : res Z := x ← elem l i; y ← elem l j; Ok (cmp x y).
Definition elems (bytes : Z) : res Z := if bytes `mod` es =? 0 then Ok (bytes / es) else Fault BadAccess.

Definition swap (l : list A) (i j : Z) : res (list A) :=
  x ← elem l i; y ← elem l j; Ok (<[Z.to_nat j := x]> (<[Z.to_nat i := y]> l)).

(** [n] elements from [i] and from [j] on. *)
Fixpoint vecswap_loop (n : nat) (i j : Z) (l : list A) : res (list A) :=
  match n with
  | O => Ok l
  | S n => l ← swap l i j; vecswap_loop n (i + 1) (j + 1) l
  end.
Definition vecswap (l : list A) (i j r : Z) : res (list A) :=
  if 0 <? r then n ← elems r; vecswap_loop (Z.to_nat n) i j l else Ok l.

Definition med3 (l : list A) (a b c : Z) : res Z :=
  r ← cmp_at l a b;
  if r <? 0 then
    r ← cmp_at l b c;
    if r <? 0 then Ok b else r ← cmp_at l a c; Ok (if r <? 0 then c else a)
  else
    r ← cmp_at l b c;
    if 0 <? r then Ok b else r ← cmp_at l a c; Ok (if r <? 0 then a else c).

(** The element at [pl] moves down past larger ones; [n] is [pl - a]. *)
Fixpoint sift (n : nat) (pl : Z) (l : list A) : res (list A) :=
  match n with
  | O => Ok l
  | S n =>
      r ← cmp_at l (pl - 1) pl;
      if 0 <? r then l ← swap l pl (pl - 1); sift n (pl - 1) l else Ok l
  end.

Fixpoint insertion_loop (n : nat) (a pm : Z) (l : list A) : res (list A) :=
  match n with
  | O => Ok l
  | S n => l ← sift (Z.to_nat (pm - a)) pm l; insertion_loop n a (pm + 1) l
  end.
Definition insertion (a n : Z) (l : list A) : res (list A) := insertion_loop (Z.to_nat (n - 1)) a (a + 1) l.

Definition pivot (a n : Z) (l : list A) : res Z :=
  let pm := a + n / 2 in
  if 7 <? n then
    let pl := a in
    let pn := a + (n - 1) in
    '(pl, pm, pn) ← (if 40 <? n then
        d ← elems (s32 (n / 8 * es));
        pl ← med3 l pl (pl + d) (pl + 2 * d);
        pm ← med3 l (pm - d) pm (pm + d);
        pn ← med3 l (pn - 2 * d) (pn - d) pn;
        Ok (pl, pm, pn)
      else Ok (pl, pm, pn));
    med3 l pl pm pn
  else Ok pm.

(** [while (pb <= pc && (r = cmp(pb, a)) <= 0)], for [pc - pb + 1] rounds at most. *)
Fixpoint scan_up (n : nat) (a pa pb : Z) (swapped : bool) (l : list A) : res (Z * Z * bool * list A) :=
  match n with
  | O => Ok (pa, pb, swapped, l)
  | S n =>
      r ← cmp_at l pb a;
      if r <=? 0 then
        if r =? 0 then l ← swap l pa pb; scan_up n a (pa + 1) (pb + 1) true l
        else scan_up n a pa (pb + 1) swapped l
      else Ok (pa, pb, swapped, l)
  end.

(** [while (pb <= pc && (r = cmp(pc, a)) >= 0)] *)
Fixpoint scan_down (n : nat) (a pc pd : Z) (swapped : bool) (l : list A) : res (Z * Z * bool * list A) :=
  match n with
  | O => Ok (pc, pd, swapped, l)
  | S n =>
      r ← cmp_at l pc a;
      if 0 <=? r then
        if r =? 0 then l ← swap l pc pd; scan_down n a (pc - 1) (pd - 1) true l
        else scan_down n a (pc - 1) pd swapped l
      else Ok (pc, pd, swapped, l)
  end.

Fixpoint partition (fuel : nat) (a pa pb pc pd : Z) (swapped : bool) (l : list A) :
    res (Z * Z * Z * Z * bool * list A) :=
  match fuel with
  | O => Fault OutOfFuel
  | S fuel =>
      '(pa, pb, swapped, l) ← scan_up (Z.to_nat (pc - pb + 1)) a pa pb swapped l;
      '(pc, pd, swapped, l) ← scan_down (Z.to_nat (pc - pb + 1)) a pc pd swapped l;
      if pc <? pb then Ok (pa, pb, pc, pd, swapped, l)
      else l ← swap l pb pc; partition fuel a pa (pb + 1) (pc - 1) pd true l
  end.

(** The elements equal to the pivot go to the middle. *)
Definition gather (a pa pb pc pd pn : Z) (l : list A) : res (list A) :=
  let r := s32 (es * (if pa - a <? pb - pa then pa - a else pb - pa)) in
  k ← elems r; l ← vecswap l a (pb - k) r;
  let r := s32 (es * (if pd - pc <? pn - pd - 1 then pd - pc else pn - pd - 1)) in
  k ← elems r; vecswap l pb (pn - k) r.

(** The part of [n] elements from [a] on. *)
Fixpoint qsort (fuel : nat) (a n : Z) (l : list A) : res (list A) :=
  match fuel with
  | O => Fault OutOfFuel
  | S fuel =>
      if n <? 7 then insertion a n l else
      pm ← pivot a n l;
      l ← swap l a pm;
      '(pa, pb, pc, pd, swapped, l) ← partition (Z.to_nat n) a (a + 1) (a + 1) (a + (n - 1)) (a + (n - 1)) false l;
      if negb swapped then insertion a n l else
      let pn := a + n in
      l ← gather a pa pb pc pd pn l;
      let r := s32 (es * (pb - pa)) in
      l ← (if s32 es <? r then qsort fuel a (r / es) l else Ok l);
      let r := s32 (es * (pd - pc)) in
      if s32 es <? r then k ← elems r; qsort fuel (pn - k) (r / es) l else Ok l
  end.
End qsort.

(** * bsearch *)

Section bsearch.
Context {A : Type} (compare : A → Z) (size : Z).

(** The element at a number of bytes from the base. *)
Definition elem_off (l : list A) (off : Z) : res A :=
  if off `mod` size =? 0 then elem l (off / size) else Fault BadAccess.

Fixpoint bsearch_loop (fuel : nat) (low high : Z) (l : list A) : res (option Z) :=
  match fuel with
  | O => Fault OutOfFuel
  | S fuel =>
      let mid := u64 (low + u64 (high - low) / 2) in
      let off := u64 (mid * size) in
      x ← elem_off l off;
      let r := compare x in
      if r <? 0 then
        if mid =? 0 then Ok None else bsearch_loop fuel low (u64 (mid - 1)) l
      else if 0 <? r then
        let low := u64 (mid + 1) in
        if (low <? mid) || (high <? low) then Ok None else bsearch_loop fuel low high l
      else Ok (Some off)
  end.

(** [compare key] is a function of the element; the result is the offset of the
    element found. *)
Definition bsearch (num_elems : Z) (l : list A) : res (option Z) :=
  if num_elems =? 0 then Ok None else bsearch_loop (S (S (Z.to_nat num_elems))) 0 (num_elems - 1) l.
End bsearch.

(** * Arrays as lists *)

Section arrays.
Context {A : Type} (cmp : A → A → Z).
Implicit Types (l pre post s : list A) (x y a b : A).

Lemma elem_at pre x post i : i = zlen pre → elem (pre ++ x :: post) i = Ok x.
Proof.
  intros ->. unfold elem. rewrite znth_app_r, Z.sub_diag by lia. done.
Qed.

Lemma elem_in l i : 0 ≤ i < zlen l → ∃ x, elem l i = Ok x.
Proof. intros H. destruct (znth_Some l i H) as [x Hx]. exists x. unfold elem. by rewrite Hx. Qed.

Lemma cmp_at_in l i j : 0 ≤ i < zlen l → 0 ≤ j < zlen l → ∃ r, cmp_at cmp l i j = Ok r.
Proof.
  intros Hi Hj. destruct (elem_in l i Hi) as [x Ex], (elem_in l j Hj) as [y Ey]. exists (cmp x y). unfold cmp_at. rewrite Ex, Ey. done.
Qed.

Lemma insert_middle pre x post y i : i = zlen pre → <[Z.to_nat i := y]> (pre ++ x :: post) = pre ++ y :: post.
Proof. intros ->. unfold zlen. rewrite Nat2Z.id. induction pre as [|z pre IH]; [done|]. simpl. by rewrite IH. Qed.

Lemma swap_Ok l i j x y : elem l i = Ok x → elem l j = Ok y → swap l i j = Ok (<[Z.to_nat j := x]> (<[Z.to_nat i := y]> l)).
Proof. intros Ex Ey. unfold swap. by rewrite Ex, Ey. Qed.

Lemma swap_at (x1 x2 x3 : list A) a b i j :
  i = zlen x1 → j = zlen x1 + 1 + zlen x2 →
  swap (x1 ++ a :: x2 ++ b :: x3) i j = Ok (x1 ++ b :: x2 ++ a :: x3) ∧
  swap (x1 ++ a :: x2 ++ b :: x3) j i = Ok (x1 ++ b :: x2 ++ a :: x3).
Proof.
  intros Hi Hj. pose proof (zlen_nonneg x1). pose proof (zlen_nonneg x2).
  assert (∀ c k, x1 ++ c :: x2 ++ k = (x1 ++ c :: x2) ++ k) as Hass by (intros; by rewrite <- app_assoc).
  assert (∀ c : A, j = zlen (x1 ++ c :: x2)) as Hj' by (intros c; rewrite zlen_app; unfold zlen in *; simpl; lia).
  assert (elem (x1 ++ a :: x2 ++ b :: x3) i = Ok a) as Ea by (by apply elem_at).
  assert (elem (x1 ++ a :: x2 ++ b :: x3) j = Ok b) as Eb by (rewrite Hass; by apply elem_at).
  assert (<[Z.to_nat j := a]> (<[Z.to_nat i := b]> (x1 ++ a :: x2 ++ b :: x3)) = x1 ++ b :: x2 ++ a :: x3) as E.
  { rewrite insert_middle by done. rewrite Hass, insert_middle by done. by rewrite <- Hass. }
  rewrite (swap_Ok _ _ _ _ _ Ea Eb), (swap_Ok _ _ _ _ _ Eb Ea), E. split; [done|]. f_equal. rewrite <- E. apply list_insert_insert_ne. lia.
Qed.

Lemma swap_same l i : 0 ≤ i < zlen l → swap l i i = Ok l.
Proof.
  intros Hi. destruct (elem_in l i Hi) as [x Ex]. rewrite (swap_Ok _ _ _ _ _ Ex Ex), list_insert_insert_eq. f_equal.
  apply list_insert_id. unfold elem in Ex. apply of_option_Ok in Ex. by rewrite znth_lookup in Ex by lia.
Qed.

Lemma split_at l i : 0 ≤ i < zlen l → ∃ p x q, l = p ++ x :: q ∧ zlen p = i.
Proof.
  intros Hi. destruct (znth_Some l i Hi) as [x Ex]. rewrite znth_lookup in Ex by lia.
  exists (take (Z.to_nat i) l), x, (drop (S (Z.to_nat i)) l). split; [symmetry; by apply take_drop_middle|].
  unfold zlen in *. rewrite length_take. lia.
Qed.

(** Two elements of a part of the array. *)
Lemma swap_part pre s post i j :
  zlen pre ≤ i < zlen pre + zlen s → zlen pre ≤ j < zlen pre + zlen s →
  ∃ s', swap (pre ++ s ++ post) i j = Ok (pre ++ s' ++ post) ∧ s' ≡ₚ s.
Proof.
  assert (∀ i j, zlen pre ≤ i < j → j < zlen pre + zlen s →
    ∃ s', swap (pre ++ s ++ post) i j = Ok (pre ++ s' ++ post) ∧ swap (pre ++ s ++ post) j i = Ok (pre ++ s' ++ post) ∧ s' ≡ₚ s) as H.
  { clear i j. intros i j Hi Hj. destruct (split_at s (i - zlen pre)) as (x1 & a & y & -> & H1); [lia|].
    rewrite zlen_app, zlen_cons in Hj.
    destruct (split_at y (j - i - 1)) as (x2 & b & x3 & -> & H2); [lia|].
    exists (x1 ++ b :: x2 ++ a :: x3). rewrite <- !app_assoc. simpl. rewrite <- !app_assoc. simpl.
    destruct (swap_at (pre ++ x1) x2 (x3 ++ post) a b i j) as [E1 E2]; [rewrite zlen_app; lia..|]. rewrite <- !app_assoc in E1, E2.
    split_and!; [done..|]. apply Permutation_app_head. rewrite <- !Permutation_middle. constructor. }
  intros Hi Hj. destruct (Z.lt_total i j) as [|[->|]].
  - destruct (H i j) as (s' & ? & _ & ?); [lia..|eauto].
  - exists s. split; [|done]. apply swap_same. rewrite !zlen_app. pose proof (zlen_nonneg pre). pose proof (zlen_nonneg post). lia.
  - destruct (H j i) as (s' & _ & ? & ?); [lia..|eauto].
Qed.
End arrays.

(** What sorting needs of the comparison function. *)
Class CmpLaws {A} (cmp : A → A → Z) := {
  cmp_sym x y : cmp x y < 0 ↔ 0 < cmp y x;
  cmp_trans x y z : cmp x y ≤ 0 → cmp y z ≤ 0 → cmp x z ≤ 0;
}.

Ltac zlens := repeat first [rewrite zlen_app|rewrite zlen_cons]; change (@zlen ?A []) with 0; try lia.
Ltac flatten H :=
  repeat first [rewrite <- app_assoc in H|progress cbn [app] in H]; repeat first [rewrite <- app_assoc|progress cbn [app]].

Section sorting.
Context {A : Type} (cmp : A → A → Z) `{!CmpLaws cmp} (es : Z).
Implicit Types (l pre post s : list A) (x y : A).

Definition cle (x y : A) : Prop := cmp x y ≤ 0.
Definition sorted (l : list A) : Prop := StronglySorted cle l.

Lemma cle_ge x y : 0 ≤ cmp x y ↔ cle y x.
Proof. unfold cle. pose proof (cmp_sym x y). pose proof (cmp_sym y x). lia. Qed.

Lemma cmp_refl x : cmp x x = 0.
Proof. pose proof (cmp_sym x x). lia. Qed.

Lemma sorted_app l k : sorted (l ++ k) ↔ sorted l ∧ sorted k ∧ ∀ x y, x ∈ l → y ∈ k → cle x y.
Proof.
  unfold sorted. rewrite StronglySorted_app. tauto.
Qed.

Lemma sorted_one x : sorted [x].
Proof. repeat constructor. Qed.

(** ** Insertion sort *)

Lemma cmp_at_mid pre x s y post i j :
  i = zlen pre → j = zlen pre + 1 + zlen s →
  cmp_at cmp (pre ++ x :: s ++ y :: post) i j = Ok (cmp x y) ∧ cmp_at cmp (pre ++ x :: s ++ y :: post) j i = Ok (cmp y x).
Proof.
  intros Hi Hj. unfold cmp_at. assert (elem (pre ++ x :: s ++ y :: post) i = Ok x) as -> by (by apply elem_at).
  assert (elem (pre ++ x :: s ++ y :: post) j = Ok y) as ->; [|done].
  assert (pre ++ x :: s ++ y :: post = (pre ++ x :: s) ++ y :: post) as -> by (by rewrite <- app_assoc).
  apply elem_at. rewrite zlen_app, zlen_cons. lia.
Qed.

Lemma sift_ok s pre x post pl :
  pl = zlen pre + zlen s → sorted s →
  ∃ s', sift cmp (length s) pl (pre ++ s ++ x :: post) = Ok (pre ++ s' ++ post) ∧ s' ≡ₚ x :: s ∧ sorted s'.
Proof.
  revert post pl. induction s as [|y s IH] using rev_ind; intros post pl Hpl Hs.
  { exists [x]. split_and!; [done..|apply sorted_one]. }
  rewrite length_app, Nat.add_comm. cbn [length Nat.add sift]. rewrite zlen_app, zlen_cons in Hpl.
  rewrite <- !app_assoc. cbn [app]. destruct (cmp_at_mid (pre ++ s) y [] x post (pl - 1) pl) as [E _]; [rewrite zlen_app; unfold zlen in *; simpl in *; lia..|].
  rewrite <- !app_assoc in E. cbn [app] in E. rewrite E. cbn [mbind res_bind].
  apply sorted_app in Hs as (Hs & _ & Hsy). assert (∀ z, z ∈ s → cle z y) as Hy by (intros z Hz; apply Hsy; [done|by left]).
  destruct (Z.ltb_spec 0 (cmp y x)) as [Hlt|Hge].
  - destruct (swap_at (pre ++ s) [] post y x (pl - 1) pl) as [_ E2]; [rewrite zlen_app; unfold zlen in *; simpl in *; lia..|].
    rewrite <- !app_assoc in E2. cbn [app] in E2. rewrite E2. cbn [mbind res_bind].
    destruct (IH (y :: post) (pl - 1)) as (s' & E3 & P & S'); [unfold zlen in *; simpl in *; lia|done|].
    exists (s' ++ [y]). rewrite <- app_assoc. split_and!; [done|by rewrite P|].
    apply sorted_app. split_and!; [done|apply sorted_one|]. intros a b Ha ->%list_elem_of_singleton. rewrite P in Ha.
    apply elem_of_cons in Ha as [->|Ha]; [|by apply Hy]. apply cle_ge. lia.
  - exists (s ++ [y; x]). rewrite <- app_assoc. split_and!; [done| |].
    + rewrite (Permutation_app_comm s [y; x]), (Permutation_app_comm s [y]). constructor.
    + apply sorted_app. split_and!; [done|repeat constructor; unfold cle; lia|].
      intros a b Ha Hb. assert (b = y ∨ b = x) as [->| ->] by set_solver; [by apply Hy|]. by eapply cmp_trans; [apply Hy|].
Qed.

Lemma insertion_loop_ok u s pre post pm :
  pm = zlen pre + zlen s → sorted s →
  ∃ s', insertion_loop cmp (length u) (zlen pre) pm (pre ++ s ++ u ++ post) = Ok (pre ++ s' ++ post) ∧ s' ≡ₚ s ++ u ∧ sorted s'.
Proof.
  revert s pm. induction u as [|x u IH]; intros s pm Hpm Hs; cbn [length insertion_loop app].
  { exists s. by rewrite app_nil_r. }
  replace (Z.to_nat (pm - zlen pre)) with (length s) by (unfold zlen in *; lia).
  destruct (sift_ok s pre x (u ++ post) pm) as (s1 & E & P & S1); [done..|]. rewrite E. cbn [mbind res_bind].
  destruct (IH s1 (pm + 1)) as (s2 & E2 & P2 & S2); [|done|].
  { assert (length s1 = S (length s)) as Hl by (by rewrite P). unfold zlen in *. lia. }
  exists s2. split_and!; [done| |done]. rewrite P2, P. apply Permutation_middle.
Qed.

Lemma insertion_ok s pre post :
  ∃ s', insertion cmp (zlen pre) (zlen s) (pre ++ s ++ post) = Ok (pre ++ s' ++ post) ∧ s' ≡ₚ s ∧ sorted s'.
Proof.
  unfold insertion. destruct s as [|x u]; [by exists []; split_and!; [..|constructor]|].
  replace (Z.to_nat (zlen (x :: u) - 1)) with (length u) by (unfold zlen; simpl; lia).
  apply (insertion_loop_ok u [x]); [done|apply sorted_one].
Qed.

(** ** The pivot *)

Lemma med3_in l a b c (P : Z → Prop) :
  (∀ i, P i → 0 ≤ i < zlen l) → P a → P b → P c → ∃ i, med3 cmp l a b c = Ok i ∧ P i.
Proof.
  intros HP Ha Hb Hc. unfold med3.
  destruct (cmp_at_in cmp l a b (HP _ Ha) (HP _ Hb)) as [r1 ->]. destruct (cmp_at_in cmp l b c (HP _ Hb) (HP _ Hc)) as [r2 ->].
  destruct (cmp_at_in cmp l a c (HP _ Ha) (HP _ Hc)) as [r3 ->]. cbn [mbind res_bind].
  destruct (r1 <? 0), (r2 <? 0), (0 <? r2), (r3 <? 0); eauto.
Qed.

Lemma elems_ok n : 0 < es → 0 ≤ n → es * n < 2 ^ 31 → elems es (s32 (es * n)) = Ok n ∧ s32 (es * n) = es * n.
Proof.
  intros He Hn Hb. unfold elems. assert (0 ≤ es * n) by lia. rewrite s32_small by lia. rewrite Z.mul_comm, Z.mod_mul, Z.div_mul by lia. done.
Qed.

Lemma pivot_in pre s post :
  0 < es → es * zlen s < 2 ^ 31 → 7 ≤ zlen s →
  ∃ i, pivot cmp es (zlen pre) (zlen s) (pre ++ s ++ post) = Ok i ∧ zlen pre ≤ i < zlen pre + zlen s.
Proof.
  intros He Hb Hn. set (l := pre ++ s ++ post). set (a := zlen pre). set (n := zlen s) in *. unfold pivot.
  assert (∀ i, a ≤ i < a + n → 0 ≤ i < zlen l) as HP.
  { intros i Hi. unfold l. rewrite !zlen_app. pose proof (zlen_nonneg pre). pose proof (zlen_nonneg post). lia. }
  assert (0 < n / 2 < n) by (Z.to_euclidean_division_equations; lia).
  destruct (Z.ltb_spec 7 n); [|eexists; split; [done|lia]].
  destruct (Z.ltb_spec 40 n) as [H40|H40]; cbn [mbind res_bind]; [|apply (med3_in l _ _ _ (λ i, a ≤ i < a + n)); [done|lia..]].
  assert (0 ≤ n / 8 ∧ 2 * (n / 8) < n / 2 ∧ n / 2 + n / 8 < n) as (Hd0 & Hd1 & Hd2) by (Z.to_euclidean_division_equations; lia).
  rewrite (Z.mul_comm _ es). destruct (elems_ok (n / 8)) as [-> _]; [done..|nia|]. cbn [mbind res_bind].
  destruct (med3_in l a (a + n / 8) (a + 2 * (n / 8)) (λ i, a ≤ i < a + n)) as (pl & -> & Hpl); [done|lia..|]. cbn [mbind res_bind].
  destruct (med3_in l (a + n / 2 - n / 8) (a + n / 2) (a + n / 2 + n / 8) (λ i, a ≤ i < a + n)) as (pm & -> & Hpm); [done|lia..|]. cbn [mbind res_bind].
  destruct (med3_in l (a + (n - 1) - 2 * (n / 8)) (a + (n - 1) - n / 8) (a + (n - 1)) (λ i, a ≤ i < a + n)) as (pn & -> & Hpn); [done|lia..|]. cbn [mbind res_bind].
  by apply (med3_in l pl pm pn (λ i, a ≤ i < a + n)).
Qed.

(** ** Partitioning

    While the array is partitioned it is the pivot [p], elements equal to it [e],
    smaller ones [lt], ones not looked at [u], larger ones [gt] and more equal
    ones [f]. *)

Definition arr pre (p : A) (e lt u gt f : list A) post : list A := pre ++ p :: e ++ lt ++ u ++ gt ++ f ++ post.

Record parts (p : A) (e lt gt f : list A) : Prop := {
  parts_e : Forall (λ x, cmp x p = 0) e;
  parts_lt : Forall (λ x, cmp x p < 0) lt;
  parts_gt : Forall (λ x, 0 < cmp x p) gt;
  parts_f : Forall (λ x, cmp x p = 0) f;
}.

Lemma scan_up_ok u pre p e lt gt f post swapped :
  let a := zlen pre in let pa := a + 1 + zlen e in let pb := pa + zlen lt in
  parts p e lt gt f →
  ∃ e' lt' u' sw, scan_up cmp (length u) a pa pb swapped (arr pre p e lt u gt f post) =
      Ok (a + 1 + zlen e', a + 1 + zlen e' + zlen lt', sw, arr pre p e' lt' u' gt f post) ∧
    parts p e' lt' gt f ∧ e' ++ lt' ++ u' ≡ₚ e ++ lt ++ u ∧ (length u' ≤ length u)%nat ∧ (∀ x k, u' = x :: k → 0 < cmp x p).
Proof.
  intros a pa pb HP. revert e lt pa pb swapped HP. induction u as [|x u IH]; intros e lt pa pb swapped HP.
  { exists e, lt, [], swapped. split_and!; [done..|by intros ? ? ?]. }
  cbn [length scan_up].
  assert (cmp_at cmp (arr pre p e lt (x :: u) gt f post) pb a = Ok (cmp x p)) as ->.
  { destruct (cmp_at_mid pre p (e ++ lt) x (u ++ gt ++ f ++ post) a pb) as [_ E]; [done|rewrite zlen_app; unfold pb, pa, a; lia|].
    by rewrite <- app_assoc in E. }
  cbn [mbind res_bind]. destruct (Z.leb_spec (cmp x p) 0) as [Hle|Hgt].
  2:{ exists e, lt, (x :: u), swapped. split_and!; [done..|]. by intros ? ? [= <- <-]. }
  destruct (Z.eqb_spec (cmp x p) 0) as [H0|Hne].
  - assert (∃ lt', swap (arr pre p e lt (x :: u) gt f post) pa pb = Ok (arr pre p (e ++ [x]) lt' u gt f post) ∧ lt' ≡ₚ lt) as (lt' & Es & Pl).
    { destruct lt as [|y lt].
      - exists []. split; [|done]. assert (pb = pa) as -> by (unfold pb, zlen; simpl; lia). unfold arr. cbn [app]. rewrite <- app_assoc. apply swap_same.
        pose proof (zlen_nonneg (u ++ gt ++ f ++ post)). pose proof (zlen_nonneg pre). pose proof (zlen_nonneg e). cbn [app]. rewrite zlen_app, zlen_cons, zlen_app, zlen_cons. unfold pa, a. lia.
      - exists (lt ++ [y]). split; [|symmetry; apply Permutation_cons_append]. unfold arr.
        destruct (swap_at (pre ++ p :: e) lt (u ++ gt ++ f ++ post) y x pa pb) as [Es _];
          [rewrite zlen_app, zlen_cons; unfold pa, a; lia|rewrite zlen_app, zlen_cons; unfold pb, pa, a; rewrite zlen_cons; lia|].
        rewrite <- !app_assoc in Es. cbn [app] in Es. rewrite <- !app_assoc. cbn [app]. exact Es. }
    rewrite Es. cbn [mbind res_bind].
    destruct (IH (e ++ [x]) lt' true) as (e' & l' & u' & sw & Ei & Pi & Pp & Hl & Hx).
    { destruct HP. split; [apply Forall_app; split; [done|by repeat constructor]|by rewrite Pl|done..]. }
    exists e', l', u', sw. split_and!; [|done| |lia|done].
    + rewrite <- Ei. f_equal; [rewrite zlen_app; unfold pa, zlen; simpl; lia|].
      unfold pb, pa. rewrite zlen_app. assert (zlen lt' = zlen lt) as -> by (unfold zlen; by rewrite Pl). unfold zlen. simpl. lia.
    + rewrite Pp, Pl, <- app_assoc. apply Permutation_app_head. simpl. apply Permutation_middle.
  - assert (arr pre p e lt (x :: u) gt f post = arr pre p e (lt ++ [x]) u gt f post) as -> by (unfold arr; by rewrite <- app_assoc).
    destruct (IH e (lt ++ [x]) swapped) as (e' & l' & u' & sw & Ei & Pi & Pp & Hl & Hx).
    { destruct HP. split; [done|apply Forall_app; split; [done|constructor; [cbv beta; lia|constructor]]|done..]. }
    exists e', l', u', sw. split_and!; [|done| |lia|done].
    + rewrite <- Ei. f_equal. rewrite zlen_app. change (zlen [x]) with 1. unfold pb, pa. lia.
    + by rewrite Pp, <- app_assoc.
Qed.

Lemma scan_down_ok u pre p e lt gt f post swapped :
  let a := zlen pre in let pc := a + zlen e + zlen lt + zlen u in let pd := pc + zlen gt in
  parts p e lt gt f →
  ∃ gt' f' u' sw, scan_down cmp (length u) a pc pd swapped (arr pre p e lt u gt f post) =
      Ok (a + zlen e + zlen lt + zlen u', a + zlen e + zlen lt + zlen u' + zlen gt', sw, arr pre p e lt u' gt' f' post) ∧
    parts p e lt gt' f' ∧ u' ++ gt' ++ f' ≡ₚ u ++ gt ++ f ∧ (length u' ≤ length u)%nat ∧
    u' `prefix_of` u ∧ (∀ x k, u' = k ++ [x] → cmp x p < 0).
Proof.
  intros a pc pd HP. revert gt f pc pd swapped HP. induction u as [|x u IH] using rev_ind; intros gt f pc pd swapped HP.
  { exists gt, f, [], swapped. split_and!; [done..|]. by intros x [|? ?]. }
  rewrite length_app, Nat.add_comm. cbn [length Nat.add scan_down]. assert (zlen (u ++ [x]) = zlen u + 1) as Hu by (rewrite zlen_app; done).
  assert (cmp_at cmp (arr pre p e lt (u ++ [x]) gt f post) pc a = Ok (cmp x p)) as ->.
  { destruct (cmp_at_mid pre p (e ++ lt ++ u) x (gt ++ f ++ post) a pc) as [_ E]; [done|rewrite !zlen_app; unfold pc, a; lia|].
    unfold arr. flatten E. exact E. }
  cbn [mbind res_bind]. destruct (Z.leb_spec 0 (cmp x p)) as [Hle|Hgt].
  2:{ exists gt, f, (u ++ [x]), swapped. rewrite length_app. split_and!; [done..|simpl; lia|done|].
      by intros y k [_ [= ->]]%app_inj_2. }
  destruct (Z.eqb_spec (cmp x p) 0) as [H0|Hne].
  - assert (∃ gt', swap (arr pre p e lt (u ++ [x]) gt f post) pc pd = Ok (arr pre p e lt u gt' (x :: f) post) ∧ gt' ≡ₚ gt) as (gt' & Es & Pl).
    { destruct gt as [|y gt _] using rev_ind.
      - exists []. split; [|done]. assert (pd = pc) as -> by (unfold pd, zlen; simpl; lia). unfold arr. cbn [app]. rewrite <- !app_assoc. apply swap_same.
        pose proof (zlen_nonneg (f ++ post)). pose proof (zlen_nonneg pre). pose proof (zlen_nonneg e). pose proof (zlen_nonneg lt). pose proof (zlen_nonneg u).
        cbn [app]. rewrite zlen_app, zlen_cons, !(zlen_app e), !(zlen_app lt), (zlen_app u), zlen_cons. unfold pc, a. lia.
      - exists (y :: gt). split; [|apply Permutation_cons_append]. unfold arr.
        destruct (swap_at (pre ++ p :: e ++ lt ++ u) gt (f ++ post) x y pc pd) as [Es _];
          [unfold pc, a; zlens|unfold pd, pc, a; zlens|].
        flatten Es. exact Es. }
    rewrite Es. cbn [mbind res_bind].
    destruct (IH gt' (x :: f) true) as (g' & f' & u' & sw & Ei & Pi & Pp & Hl & Hpre & Hx).
    { destruct HP. split; [done..|by rewrite Pl|by constructor]. }
    exists g', f', u', sw. split_and!; [|done| |simpl; lia|by apply prefix_app_r|done].
    + rewrite <- Ei. f_equal; [unfold pc; lia|]. unfold pd, pc. assert (zlen gt' = zlen gt) as -> by (unfold zlen; by rewrite Pl). lia.
    + rewrite Pp, Pl, <- !app_assoc. apply Permutation_app_head. simpl. symmetry. apply Permutation_middle.
  - assert (arr pre p e lt (u ++ [x]) gt f post = arr pre p e lt u (x :: gt) f post) as -> by (unfold arr; by rewrite <- app_assoc).
    destruct (IH (x :: gt) f swapped) as (g' & f' & u' & sw & Ei & Pi & Pp & Hl & Hpre & Hx).
    { destruct HP. split; [done..|constructor; [cbv beta; lia|done]|done]. }
    exists g', f', u', sw. split_and!; [|done| |simpl; lia|by apply prefix_app_r|done].
    + rewrite <- Ei. f_equal; [unfold pc; lia|]. rewrite zlen_cons. unfold pd, pc. lia.
    + by rewrite Pp, <- app_assoc.
Qed.

Lemma partition_ok fuel u pre p e lt gt f post swapped :
  let a := zlen pre in let pa := a + 1 + zlen e in let pb := pa + zlen lt in
  let pc := a + zlen e + zlen lt + zlen u in let pd := pc + zlen gt in
  parts p e lt gt f → (length u < fuel)%nat →
  ∃ e' lt' gt' f' sw, partition cmp fuel a pa pb pc pd swapped (arr pre p e lt u gt f post) =
      Ok (a + 1 + zlen e', a + 1 + zlen e' + zlen lt', a + zlen e' + zlen lt', a + zlen e' + zlen lt' + zlen gt', sw,
          arr pre p e' lt' [] gt' f' post) ∧
    parts p e' lt' gt' f' ∧ e' ++ lt' ++ gt' ++ f' ≡ₚ e ++ lt ++ u ++ gt ++ f.
Proof.
  revert u e lt gt f swapped. induction fuel as [|fuel IH]; intros u e lt gt f swapped a pa pb pc pd HP Hf; [lia|]. cbn [partition].
  replace (Z.to_nat (pc - pb + 1)) with (length u) by (unfold pc, pb, pa, zlen; lia).
  unfold pb, pa, a. destruct (scan_up_ok u pre p e lt gt f post swapped HP) as (e1 & lt1 & u1 & sw1 & -> & HP1 & P1 & L1 & H1). cbn [mbind res_bind].
  assert (pc = a + zlen e1 + zlen lt1 + zlen u1) as Epc.
  { apply Permutation_length in P1. rewrite !length_app in P1. unfold pc, zlen. lia. }
  replace (Z.to_nat (pc - (zlen pre + 1 + zlen e1 + zlen lt1) + 1)) with (length u1) by (rewrite Epc; unfold a, zlen; lia).
  unfold pd. rewrite Epc. unfold a.
  destruct (scan_down_ok u1 pre p e1 lt1 gt f post sw1 HP1) as (gt2 & f2 & u2 & sw2 & -> & HP2 & P2 & L2 & Hpre & H2). cbn [mbind res_bind].
  assert (e1 ++ lt1 ++ u2 ++ gt2 ++ f2 ≡ₚ e ++ lt ++ u ++ gt ++ f) as P12.
  { rewrite P2, !app_assoc. rewrite <- (app_assoc e1), P1. by rewrite !app_assoc. }
  destruct u2 as [|x k].
  { exists e1, lt1, gt2, f2, sw2. change (zlen (@nil A)) with 0. rewrite Z.add_0_r.
    destruct (Z.ltb_spec (zlen pre + zlen e1 + zlen lt1) (zlen pre + 1 + zlen e1 + zlen lt1)); [|lia]. done. }
  assert (0 < cmp x p) as Hx by (destruct Hpre as [t ->]; by apply (H1 _ _ eq_refl)).
  destruct k as [|y k _] using rev_ind; [specialize (H2 x [] eq_refl); lia|].
  specialize (H2 y (x :: k) eq_refl). assert (zlen (x :: k ++ [y]) = zlen k + 2) as -> by zlens.
  destruct (Z.ltb_spec (zlen pre + zlen e1 + zlen lt1 + (zlen k + 2)) (zlen pre + 1 + zlen e1 + zlen lt1)); [pose proof (zlen_nonneg k); lia|].
  assert (swap (arr pre p e1 lt1 (x :: k ++ [y]) gt2 f2 post) (zlen pre + 1 + zlen e1 + zlen lt1) (zlen pre + zlen e1 + zlen lt1 + (zlen k + 2)) =
    Ok (arr pre p e1 (lt1 ++ [y]) k (x :: gt2) f2 post)) as ->.
  { destruct (swap_at (pre ++ p :: e1 ++ lt1) k (gt2 ++ f2 ++ post) x y (zlen pre + 1 + zlen e1 + zlen lt1) (zlen pre + zlen e1 + zlen lt1 + (zlen k + 2)))
      as [Es _]; [zlens..|]. unfold arr. flatten Es. exact Es. }
  cbn [mbind res_bind].
  destruct (IH k e1 (lt1 ++ [y]) (x :: gt2) f2 true) as (e3 & lt3 & gt3 & f3 & sw3 & E3 & HP3 & P3).
  { destruct HP2. split; [done|apply Forall_app; split; [done|by repeat constructor]|by constructor|done]. }
  { simpl in L2. rewrite length_app in L2. simpl in L2. lia. }
  exists e3, lt3, gt3, f3, sw3. split_and!; [|done|].
  - rewrite <- E3. f_equal; zlens.
  - rewrite P3, <- P12. apply Permutation_app_head. rewrite <- !app_assoc. apply Permutation_app_head. simpl.
    rewrite <- app_assoc. simpl. rewrite !(Permutation_app_comm k). simpl. constructor.
Qed.

(** ** Moving the equal elements to the middle *)

Lemma vecswap_loop_ok (s1 s2 : list A) pre mid post i j :
  length s1 = length s2 → i = zlen pre → j = zlen pre + zlen s1 + zlen mid →
  vecswap_loop (length s1) i j (pre ++ s1 ++ mid ++ s2 ++ post) = Ok (pre ++ s2 ++ mid ++ s1 ++ post).
Proof.
  revert s2 pre mid i j. induction s1 as [|c s1 IH]; intros [|d s2] pre mid i j Hl Hi Hj; try done. rewrite zlen_cons in Hj.
  cbn [length vecswap_loop]. destruct (swap_at pre (s1 ++ mid) (s2 ++ post) c d i j) as [E _]; [done|zlens|]. flatten E. rewrite E. cbn [mbind res_bind].
  specialize (IH s2 (pre ++ [d]) (mid ++ [c]) (i + 1) (j + 1)). flatten IH. apply IH; [by injection Hl|zlens..].
Qed.

(** Two neighbouring parts change places, each in some order. *)
Lemma vecswap_ok pre (X Y post : list A) k :
  0 < es → es * (zlen X + zlen Y) < 2 ^ 31 → k = (if zlen X <? zlen Y then zlen X else zlen Y) →
  elems es (s32 (es * k)) = Ok k ∧
  ∃ X' Y', vecswap es (pre ++ X ++ Y ++ post) (zlen pre) (zlen pre + zlen X + zlen Y - k) (s32 (es * k)) =
      Ok (pre ++ Y' ++ X' ++ post) ∧ X' ≡ₚ X ∧ Y' ≡ₚ Y.
Proof.
  intros He Hb Hk. pose proof (zlen_nonneg X) as HX. pose proof (zlen_nonneg Y) as HY.
  assert (0 ≤ k ∧ k ≤ zlen X ∧ k ≤ zlen Y ∧ (k = zlen X ∨ k = zlen Y)) as (Hk0 & HkX & HkY & Hor) by (destruct (Z.ltb_spec (zlen X) (zlen Y)); lia).
  destruct (elems_ok k) as [E Es]; [done..|nia|]. split; [done|]. unfold vecswap. rewrite Es.
  destruct (Z.ltb_spec 0 (es * k)) as [Hpos|Hz].
  2:{ assert (k = 0) as -> by nia. exists X, Y. destruct Hor as [H0|H0].
      - assert (X = []) as -> by (destruct X; [done|rewrite zlen_cons in H0; pose proof (zlen_nonneg X); lia]). done.
      - assert (Y = []) as -> by (destruct Y; [done|rewrite zlen_cons in H0; pose proof (zlen_nonneg Y); lia]). done. }
  rewrite Es in E. rewrite E. cbn [mbind res_bind]. destruct Hor as [->| ->].
  - set (n := (length Y - length X)%nat). exists X, (drop n Y ++ take n Y).
    split_and!; [|done|rewrite (Permutation_app_comm (drop n Y)), take_drop; done].
    assert (length (drop n Y) = length X) as Hd by (rewrite length_drop; unfold zlen, n in *; lia).
    assert (length (take n Y) = n) as Ht by (rewrite length_take; unfold n in *; lia).
    assert (pre ++ X ++ Y ++ post = pre ++ X ++ take n Y ++ drop n Y ++ post) as -> by (by rewrite (app_assoc (take n Y)), take_drop).
    rewrite <- app_assoc. replace (Z.to_nat (zlen X)) with (length X) by (unfold zlen; lia).
    apply vecswap_loop_ok; [done..|]. unfold zlen in *. rewrite Ht. unfold n. lia.
  - set (n := length Y). exists (drop n X ++ take n X), Y.
    split_and!; [|rewrite (Permutation_app_comm (drop n X)), take_drop; done|done].
    assert (length (take n X) = n) as Ht by (rewrite length_take; unfold zlen, n in *; lia).
    assert (pre ++ X ++ Y ++ post = pre ++ take n X ++ drop n X ++ Y ++ post) as -> by (by rewrite (app_assoc (take n X)), take_drop).
    rewrite <- app_assoc. replace (Z.to_nat (zlen Y)) with (length (take n X)) by (rewrite Ht; unfold zlen, n; lia).
    apply vecswap_loop_ok; [done..|]. unfold zlen in *. rewrite Ht, length_drop. unfold n in *. lia.
Qed.

(** ** The whole sort *)

(** Sorting a part, which happens only if it has two elements or more. *)
Definition sorts (fuel : nat) (s : list A) : Prop := ∀ pre post,
  ∃ s', qsort cmp es fuel (zlen pre) (zlen s) (pre ++ s ++ post) = Ok (pre ++ s' ++ post) ∧ s' ≡ₚ s ∧ sorted s'.

Lemma sort_part fuel s pre post a :
  0 < es < 2 ^ 31 → es * zlen s < 2 ^ 31 → sorts fuel s → a = zlen pre →
  let r := s32 (es * zlen s) in
  ∃ s', (if s32 es <? r then qsort cmp es fuel a (r / es) (pre ++ s ++ post) else Ok (pre ++ s ++ post)) =
      Ok (pre ++ s' ++ post) ∧ s' ≡ₚ s ∧ sorted s'.
Proof.
  intros He Hb Hs -> r. pose proof (zlen_nonneg s). destruct (elems_ok (zlen s)) as [_ Er]; [lia..|]. unfold r. rewrite Er, s32_small by lia.
  destruct (Z.ltb_spec es (es * zlen s)) as [Hlt|Hge].
  - rewrite Z.mul_comm, Z.div_mul by lia. apply Hs.
  - exists s. split_and!; [done..|]. assert (zlen s ≤ 1) by nia. destruct s as [|x [|y s]]; [constructor|apply sorted_one|].
    rewrite !zlen_cons in *. pose proof (zlen_nonneg s). lia.
Qed.

Lemma sorted_parts p (e lt gt f : list A) :
  Forall (λ x, cmp x p = 0) e → Forall (λ x, cmp x p < 0) lt → Forall (λ x, 0 < cmp x p) gt → Forall (λ x, cmp x p = 0) f →
  sorted lt → sorted gt → sorted (lt ++ e ++ f ++ gt).
Proof.
  intros He Hlt Hgt Hf Sl Sg. rewrite Forall_forall in *.
  assert (∀ x y, cmp x p ≤ 0 → 0 ≤ cmp y p → cle x y) as Hc by (intros x y Hx Hy; eapply cmp_trans; [exact Hx|by apply cle_ge]).
  assert (∀ k : list A, (∀ x, x ∈ k → cmp x p = 0) → sorted k) as Hk.
  { induction k as [|x k IH]; intros Hk; [constructor|]. constructor; [apply IH; intros; apply Hk; by right|].
    apply Forall_forall. intros y Hy. apply Hc; [rewrite (Hk x); [done|by left]|rewrite (Hk y); [done|by right]]. }
  assert (∀ x, x ∈ e ++ f ++ gt → 0 ≤ cmp x p) as H2.
  { intros x. rewrite !elem_of_app. intros [Hx|[Hx|Hx]]; [apply He in Hx|apply Hf in Hx|apply Hgt in Hx]; cbv beta in Hx; lia. }
  apply sorted_app. split_and!; [done| |].
  2:{ intros x y Hx Hy%H2. apply Hlt in Hx. apply Hc; [lia|done]. }
  apply sorted_app. split_and!; [by apply Hk| |].
  2:{ intros x y Hx Hy. apply He in Hx. apply Hc; [lia|]. apply H2. rewrite elem_of_app. by right. }
  apply sorted_app. split_and!; [by apply Hk|done|]. intros x y Hx Hy. apply Hf in Hx. apply Hgt in Hy. apply Hc; lia.
Qed.

Lemma gather_ok pre p (e lt gt f : list A) post pn :
  0 < es → es * (1 + zlen e + zlen lt + zlen gt + zlen f) < 2 ^ 31 → pn = zlen pre + (1 + zlen e + zlen lt + zlen gt + zlen f) →
  let a := zlen pre in let pc := a + zlen e + zlen lt in
  ∃ e' lt' gt' f', gather es a (a + 1 + zlen e) (a + 1 + zlen e + zlen lt) pc (pc + zlen gt) pn (pre ++ p :: e ++ lt ++ gt ++ f ++ post) =
      Ok (pre ++ lt' ++ e' ++ f' ++ gt' ++ post) ∧ e' ≡ₚ p :: e ∧ lt' ≡ₚ lt ∧ gt' ≡ₚ gt ∧ f' ≡ₚ f.
Proof.
  intros He Hb Hpn. cbv zeta. unfold gather.
  pose proof (zlen_nonneg e). pose proof (zlen_nonneg lt). pose proof (zlen_nonneg gt). pose proof (zlen_nonneg f).
  replace (zlen pre + 1 + zlen e - zlen pre) with (zlen (p :: e)) by (rewrite zlen_cons; lia).
  replace (zlen pre + 1 + zlen e + zlen lt - (zlen pre + 1 + zlen e)) with (zlen lt) by lia.
  replace (zlen pre + zlen e + zlen lt + zlen gt - (zlen pre + zlen e + zlen lt)) with (zlen gt) by lia. replace (pn - (zlen pre + zlen e + zlen lt + zlen gt) - 1) with (zlen f) by lia.
  destruct (vecswap_ok pre (p :: e) lt (gt ++ f ++ post) _ He ltac:(rewrite zlen_cons; nia) eq_refl) as (Ek & e' & lt' & E1 & Pe & Pl).
  set (k := if zlen (p :: e) <? zlen lt then _ else _) in *. clearbody k. rewrite Ek. cbn [mbind res_bind].
  replace (zlen pre + 1 + zlen e + zlen lt - k) with (zlen pre + zlen (p :: e) + zlen lt - k) by (rewrite zlen_cons; lia).
  cbn [app] in E1. rewrite E1. clear E1 Ek k. cbn [mbind res_bind].
  assert (zlen e' = 1 + zlen e ∧ zlen lt' = zlen lt) as [Le Ll] by (unfold zlen; rewrite Pe, Pl; simpl; lia).
  destruct (vecswap_ok (pre ++ lt' ++ e') gt f post _ He ltac:(nia) eq_refl) as (Ek & gt' & f' & E2 & Pg & Pf).
  set (k := if zlen gt <? zlen f then _ else _) in *. clearbody k. rewrite Ek. cbn [mbind res_bind].
  exists e', lt', gt', f'. split_and!; [|done..]. flatten E2. rewrite <- E2. f_equal; zlens.
Qed.

Lemma qsort_part fuel s :
  0 < es → es * zlen s < 2 ^ 31 → (length s < fuel)%nat → sorts fuel s.
Proof.
  intros He. revert s. induction fuel as [|fuel IH]; intros s Hb Hf pre post; [lia|]. cbn [qsort].
  destruct (Z.ltb_spec (zlen s) 7) as [H7|H7]; [apply insertion_ok|].
  destruct (pivot_in pre s post) as (i & -> & Hi); [done..|]. cbn [mbind res_bind].
  destruct (swap_part pre s post (zlen pre) i) as (s1 & -> & P1); [lia|done|]. cbn [mbind res_bind].
  destruct s1 as [|p u]; [apply Permutation_nil_l in P1; subst; done|]. assert (zlen s = 1 + zlen u) as Hlen.
  { apply Permutation_length in P1. unfold zlen. simpl in P1. lia. }
  destruct (partition_ok (Z.to_nat (zlen s)) u pre p [] [] [] [] post false) as (e & lt & gt & f & sw & E & [He1 Hlt Hgt Hf1] & P2); [by split|unfold zlen in *; lia|].
  change (zlen (@nil A)) with 0 in E. rewrite !Z.add_0_r in E. replace (zlen pre + (zlen s - 1)) with (zlen pre + zlen u) by lia.
  unfold arr in E. cbn [app] in E. rewrite app_nil_r in P2. cbn [app] in P2 |- *. rewrite E. clear E. cbn [mbind res_bind].
  assert (zlen s = 1 + zlen e + zlen lt + zlen gt + zlen f) as Hn.
  { apply Permutation_length in P2. rewrite !length_app in P2. unfold zlen in *. lia. }
  pose proof (zlen_nonneg e). pose proof (zlen_nonneg lt). pose proof (zlen_nonneg gt). pose proof (zlen_nonneg f).
  destruct sw; cbn [negb].
  2:{ destruct (insertion_ok (p :: e ++ lt ++ gt ++ f) pre post) as (s' & Ei & Pi & Si). flatten Ei.
      replace (zlen s) with (zlen (p :: e ++ lt ++ gt ++ f)) by zlens. exists s'. split_and!; [done| |done]. by rewrite Pi, P2, P1. }
  destruct (gather_ok pre p e lt gt f post (zlen pre + zlen s)) as (e' & lt' & gt' & f' & Eg & Pe & Pl & Pg & Pf); [done|nia|lia|].
  rewrite Eg. clear Eg. cbn [mbind res_bind].
  assert (zlen lt' = zlen lt ∧ zlen gt' = zlen gt ∧ zlen f' + zlen e' = zlen f + zlen e + 1) as (Hl' & Hg' & Hfe).
  { unfold zlen. rewrite Pl, Pg, Pf, Pe. simpl. lia. }
  replace (zlen pre + 1 + zlen e + zlen lt - (zlen pre + 1 + zlen e)) with (zlen lt') by lia.
  replace (zlen pre + zlen e + zlen lt + zlen gt - (zlen pre + zlen e + zlen lt)) with (zlen gt') by lia.
  destruct (sort_part fuel lt' pre (e' ++ f' ++ gt' ++ post) (zlen pre)) as (lt2 & E2 & P3 & S3); [nia|nia| |done|].
  { apply IH; [nia|]. unfold zlen in *. lia. }
  rewrite E2. clear E2. cbn [mbind res_bind]. assert (zlen lt2 = zlen lt') as Hl2 by (unfold zlen; by rewrite P3).
  destruct (elems_ok (zlen gt')) as [Ek _]; [lia|lia|nia|]. rewrite Ek. cbn [mbind res_bind].
  destruct (sort_part fuel gt' (pre ++ lt2 ++ e' ++ f') post (zlen pre + zlen s - zlen gt')) as (gt2 & E2 & P4 & S4); [nia|nia| |zlens|].
  { apply IH; [nia|]. unfold zlen in *. lia. }
  flatten E2. rewrite E2. exists (lt2 ++ e' ++ f' ++ gt2). flatten P2. split_and!; [done| |].
  - rewrite P3, P4, Pl, Pe, Pf, Pg, <- P1, <- P2. simpl. rewrite <- Permutation_middle. constructor.
    rewrite !app_assoc, (Permutation_app_comm lt e), <- !app_assoc. by rewrite (Permutation_app_comm f gt).
  - apply (sorted_parts p); [rewrite Pe; by constructor; [apply cmp_refl|]|by rewrite P3, Pl|by rewrite P4, Pg|by rewrite Pf|done..].
Qed.

(** C16: [qsort] of an array below 2 GiB with a comparison function that is a total
    preorder returns, whatever the order of the input, with a permutation of the
    input in ascending order; a stack of one frame per element is enough. *)
Theorem qsort_sorts l :
  0 < es → es * zlen l < 2 ^ 31 →
  ∃ l', qsort cmp es (S (length l)) 0 (zlen l) l = Ok l' ∧ l' ≡ₚ l ∧ StronglySorted (λ x y, cmp x y ≤ 0) l'.
Proof.
  intros He Hb. destruct (qsort_part (S (length l)) l He Hb ltac:(lia) [] []) as (l' & E & P & S'). cbn [app] in E.
  rewrite !app_nil_r in E. eauto.
Qed.
End sorting.

(** * Searching *)

Section searching.
Context {A : Type} (compare : A → Z) (size : Z).
Implicit Types l : list A.

(** Elements below the key, equal to it and above it, in this order. *)
Definition ordered_for l : Prop := ∀ i j x y, i < j → znth l i = Some x → znth l j = Some y →
  (0 < compare y → 0 < compare x) ∧ (compare x < 0 → compare y < 0).

Lemma elem_off_ok l i x : 0 < size → 0 ≤ i → i * size < 2 ^ 64 → znth l i = Some x → elem_off size l (u64 (i * size)) = Ok x.
Proof.
  intros Hs Hi Hb Hx. unfold elem_off, elem. rewrite u64_small by nia. rewrite Z.mod_mul, Z.div_mul by lia. simpl. by rewrite Hx.
Qed.

(** Below [low] every element is below the key, above [high] above it.  When the
    bounds have crossed, [mid] is half the address space away: for an even element
    size its offset wraps around to the element below [low]. *)
Lemma bsearch_loop_ok fuel low high l :
  0 < size → size `mod` 2 = 0 → zlen l * size < 2 ^ 63 → ordered_for l →
  0 ≤ low ≤ high + 1 → high < zlen l → 0 ≤ high → 0 < low ∨ low ≤ high →
  (∀ i x, i < low → znth l i = Some x → 0 < compare x) → (∀ i x, high < i → znth l i = Some x → compare x < 0) →
  high - low + 2 < Z.of_nat fuel →
  (∃ i x, bsearch_loop compare size fuel low high l = Ok (Some (i * size)) ∧ znth l i = Some x ∧ compare x = 0) ∨
  (bsearch_loop compare size fuel low high l = Ok None ∧ ∀ i x, znth l i = Some x → compare x ≠ 0).
Proof.
  intros Hs Heven Hb Ho. revert low high. induction fuel as [|fuel IH]; intros low high Hl Hh Hh0 Hnz Hlow Hhigh Hf; [lia|]. cbn [bsearch_loop].
  assert (zlen l < 2 ^ 63) as Hlen by nia. destruct (Z.le_gt_cases low high) as [Hle|Hgt].
  - rewrite (u64_small (high - low)) by lia. set (mid := low + (high - low) / 2). 
    assert (low ≤ mid ≤ high) as Hm by (unfold mid; Z.to_euclidean_division_equations; lia).
    rewrite (u64_small mid) by lia. destruct (znth_Some l mid) as [x Hx]; [lia|]. rewrite (elem_off_ok l mid x) by (done || nia). cbn [mbind res_bind].
    destruct (Z.ltb_spec (compare x) 0) as [Hlt|Hge].
    + assert (∀ i y, mid - 1 < i → znth l i = Some y → compare y < 0) as Hhigh'.
      { intros i y Hi Hy. destruct (Z.eq_dec i mid) as [->|]; [congruence|]. by apply (Ho mid i x y); [lia|done..]. }
      destruct (Z.eqb_spec mid 0) as [E0|Hm0].
      { right. split; [done|]. intros i y Hy Hc. assert (compare y < 0); [|lia]. apply (Hhigh' i); [|done].
        unfold znth in Hy. destruct (Z.ltb_spec i 0); [done|lia]. }
      rewrite u64_small by lia. apply IH; [lia..|done|done|lia].
    + destruct (Z.ltb_spec 0 (compare x)) as [Hgt|Hle0].
      2:{ left. exists mid, x. rewrite u64_small by nia. split_and!; [done..|lia]. }
      assert (∀ i y, i < mid + 1 → znth l i = Some y → 0 < compare y) as Hlow'.
      { intros i y Hi Hy. destruct (Z.eq_dec i mid) as [->|]; [congruence|]. by apply (Ho i mid y x); [lia|done..]. }
      rewrite u64_small by lia. destruct (Z.ltb_spec (mid + 1) mid); [lia|]. destruct (Z.ltb_spec high (mid + 1)); cbn [orb].
      { right. split; [done|]. intros i y Hy Hc. destruct (Z.le_gt_cases i high); [assert (0 < compare y) by (apply (Hlow' i); [lia|done])|assert (compare y < 0) by (by apply (Hhigh i))]; lia. }
      apply IH; [lia..|done|done|lia].
  - assert (high = low - 1) as -> by lia. replace (u64 (low - 1 - low)) with (2 ^ 64 - 1) by (replace (low - 1 - low) with (-1) by lia; done).
    change ((2 ^ 64 - 1) / 2) with (2 ^ 63 - 1). rewrite (u64_small (low + _)) by lia.
    assert (u64 ((low + (2 ^ 63 - 1)) * size) = u64 ((low - 1) * size)) as ->.
    { unfold u64. replace ((low + (2 ^ 63 - 1)) * size) with ((low - 1) * size + (size / 2) * 2 ^ 64); [apply Z.mod_add; lia|].
      assert (size = 2 * (size / 2)) by (Z.to_euclidean_division_equations; lia). lia. }
    destruct (znth_Some l (low - 1)) as [x Hx]; [lia|]. rewrite (elem_off_ok l (low - 1) x) by (done || nia). cbn [mbind res_bind].
    assert (0 < compare x) as Hc by (apply (Hlow (low - 1)); [lia|done]). destruct (Z.ltb_spec (compare x) 0); [lia|]. destruct (Z.ltb_spec 0 (compare x)); [|lia].
    rewrite u64_small by lia. destruct (Z.ltb_spec (low - 1) (low + (2 ^ 63 - 1) + 1)); [|lia]. rewrite orb_true_r. right. split; [done|].
    intros i y Hy Hc0. destruct (Z.lt_ge_cases i low); [assert (0 < compare y) by (by apply (Hlow i))|assert (compare y < 0) by (apply (Hhigh i); [lia|done])]; lia.
Qed.

(** [bsearch] with elements of an even size returns: it finds an element equal to
    the key if there is one and returns a null pointer if there is none. *)
Lemma bsearch_ok l :
  0 < size → size `mod` 2 = 0 → zlen l * size < 2 ^ 63 → ordered_for l →
  (∃ i x, bsearch compare size (zlen l) l = Ok (Some (i * size)) ∧ znth l i = Some x ∧ compare x = 0) ∨
  (bsearch compare size (zlen l) l = Ok None ∧ ∀ i x, znth l i = Some x → compare x ≠ 0).
Proof.
  intros Hs He Hb Ho. unfold bsearch. destruct (Z.eqb_spec (zlen l) 0) as [E|Hne].
  - right. split; [done|]. intros i x Hx. destruct l; [|rewrite zlen_cons in E; pose proof (zlen_nonneg l); lia].
    unfold znth in Hx. destruct (i <? 0); [done|]. by rewrite lookup_nil in Hx.
  - pose proof (zlen_nonneg l). apply bsearch_loop_ok; [done..|lia|lia|lia|lia| | |lia].
    + intros i x Hi Hx. unfold znth in Hx. destruct (Z.ltb_spec i 0); [done|lia].
    + intros i x Hi Hx. rewrite znth_ge in Hx by lia. done.
Qed.
End searching.

(** ** Sorting and searching together *)

Lemma sorted_lookup {A} (R : A → A → Prop) l i j x y :
  StronglySorted R l → (i < j)%nat → l !! i = Some x → l !! j = Some y → R x y.
Proof.
  intros Hs. revert i j. induction Hs as [|a l _ IH Ha]; intros i [|j] Hij Hx Hy; [done|done|lia|]. simpl in Hy. destruct i as [|i].
  - injection Hx as <-. exact (Forall_lookup_1 _ _ _ _ Ha Hy).
  - apply (IH i j); [lia|done..].
Qed.

Lemma sorted_ordered {A} (cmp : A → A → Z) `{!CmpLaws cmp} k l : sorted cmp l → ordered_for (cmp k) l.
Proof.
  intros Hs i j x y Hij Hx Hy. unfold znth in *. destruct (Z.ltb_spec i 0), (Z.ltb_spec j 0); [done|done|lia|].
  assert (cmp x y ≤ 0) as Hxy by (apply (sorted_lookup _ l (Z.to_nat i) (Z.to_nat j) x y Hs); [lia|done..]).
  pose proof (cmp_trans k x y). pose proof (cmp_trans x y k). pose proof (cmp_sym k x). pose proof (cmp_sym x k).
  pose proof (cmp_sym k y). pose proof (cmp_sym y k). lia.
Qed.

(** C17: after [qsort], [bsearch] with the same comparison function finds an element
    equal to the key if the array had one and returns null if it had none, for
    elements of an even size. *)
Theorem qsort_then_bsearch {A} (cmp : A → A → Z) `{!CmpLaws cmp} size k l :
  0 < size → size `mod` 2 = 0 → size * zlen l < 2 ^ 31 →
  ∃ l' o, qsort cmp size (S (length l)) 0 (zlen l) l = Ok l' ∧ bsearch (cmp k) size (zlen l) l' = Ok o ∧
    match o with
    | Some off => ∃ x, elem_off size l' off = Ok x ∧ cmp k x = 0
    | None => ∀ x, x ∈ l → cmp k x ≠ 0
    end.
Proof.
  intros Hs He Hb. destruct (qsort_part cmp size (S (length l)) l Hs Hb ltac:(lia) [] []) as (l' & E & P & S'). cbn [app] in E.
  rewrite !app_nil_r in E. assert (zlen l' = zlen l) as Hl by (unfold zlen; by rewrite P). rewrite <- Hl in Hb.
  destruct (bsearch_ok (cmp k) size l') as [(i & x & Eb & Hx & Hc)|[Eb Hn]]; [done..|lia|by apply sorted_ordered| |].
  - exists l', (Some (i * size)). rewrite Hl in Eb. split_and!; [done..|]. exists x. split; [|done].
    unfold elem_off, elem. rewrite Z.mod_mul, Z.div_mul by lia. simpl. by rewrite Hx.
  - exists l', None. rewrite Hl in Eb. split_and!; [done..|]. intros x Hx. rewrite <- P in Hx.
    apply list_elem_of_lookup in Hx as [i Hi]. apply (Hn (Z.of_nat i)). rewrite znth_lookup by lia. by rewrite Nat2Z.id.
Qed.

(** With an odd element size and a key between two elements the search leaves the
    array. *)
Example bsearch_odd_size : bsearch (λ x, 2 - x) 3 2 [1; 3] = Fault BadAccess.
Proof. by vm_compute. Qed.

(** * Examples *)

#[export] Instance Zsub_laws : CmpLaws Z.sub.
Proof. split; lia. Qed.

Definition ex_array : list Z := (λ i, (i * 37) `mod` 23) <$> seqZ 0 60.

Lemma qsort_sorts_witness :
  ∃ l', qsort Z.sub 8 (S (length ex_array)) 0 (zlen ex_array) ex_array = Ok l' ∧ l' ≡ₚ ex_array ∧
    StronglySorted (λ x y, Z.sub x y ≤ 0) l'.
Proof. apply (qsort_sorts Z.sub 8 ex_array); vm_compute; done. Defined.

Lemma qsort_then_bsearch_witness :
  ∃ l' o, qsort Z.sub 8 (S (length ex_array)) 0 (zlen ex_array) ex_array = Ok l' ∧ bsearch (Z.sub 22) 8 (zlen ex_array) l' = Ok o ∧
    match o with
    | Some off => ∃ x, elem_off 8 l' off = Ok x ∧ Z.sub 22 x = 0
    | None => ∀ x, x ∈ ex_array → Z.sub 22 x ≠ 0
    end.
Proof. apply (qsort_then_bsearch Z.sub 8 22 ex_array); vm_compute; done. Defined.
