(* ===== verification/CNum.v ===== *)
(** Numbers from text: [lib/libc/strtol.c], [strtoll.c] and [atoi.c].

    The functions read characters from memory as in [CString].  [long] and
    [long long] have 64 bits; arithmetic on them is written with its wrap-around, and
    the theorems show that [strtol] never wraps: a number that does not fit becomes
    the largest or smallest one and sets [errno], here the last part of the result. *)
From stdpp Require Import prelude gmap.
From S2P Require Import Prelude CMem CString.

#[local] Open Scope Z_scope.

Definition LONG_MAX : Z := 2 ^ 63 - 1.
Definition LONG_MIN : Z := - 2 ^ 63.
Definition ULONG_MAX : Z := 2 ^ 64 - 1.

(** * The code *)

Fixpoint skip_space (fuel : nat) (s : Z) (m : mem) : res Z :=
  match fuel with
  | O => Fault OutOfFuel
  | S fuel => c ← load m s; if isspace c then skip_space fuel (s + 1) m else Ok s
  end.

(** The value of [c] as a digit. *)
Definition digit (c : Z) : option Z :=
  if isdigit c then Some (c - 48)
  else if isalpha c then Some (c - (if isupper c then 65 - 10 else 97 - 10))
  else None.

(** [any] is 0 before the first digit, 1 after it and -1 after an overflow. *)
Fixpoint strtol_loop (fuel : nat) (neg : bool) (base cutoff cutlim : Z) (c s acc any : Z) (erange : bool) (m : mem) :
    res (Z * Z * Z * bool) :=
  match fuel with
  | O => Fault OutOfFuel
  | S fuel =>
      match digit c with
      | None => Ok (acc, any, s, erange)
      | Some d =>
          if base <=? d then Ok (acc, any, s, erange) else
          let '(acc, any, erange) :=
            if any <? 0 then (acc, any, erange)
            else if neg then
              if (acc <? cutoff) || ((acc =? cutoff) && (cutlim <? d)) then (LONG_MIN, -1, true)
              else (s64 (s64 (acc * base) - d), 1, erange)
            else
              if (cutoff <? acc) || ((acc =? cutoff) && (cutlim <? d)) then (LONG_MAX, -1, true)
              else (s64 (s64 (acc * base) + d), 1, erange) in
          c ← load m s;
          strtol_loop fuel neg base cutoff cutlim c (s + 1) acc any erange m
      end
  end.

(** The largest value divided by the base, and what is left. *)
Definition cutoffs (neg : bool) (base : Z) : Z * Z :=
  let cutoff := if neg then LONG_MIN else LONG_MAX in
  let cutlim := Z.rem cutoff base in
  let cutoff := Z.quot cutoff base in
  if neg then
    let '(cutlim, cutoff) := if 0 <? cutlim then (cutlim - base, cutoff + 1) else (cutlim, cutoff) in
    (cutoff, - cutlim)
  else (cutoff, cutlim).

(** The number, what is stored through [endptr], and whether [errno] was set. *)
Definition strtol (nptr base : Z) (m : mem) : res (Z * Z * bool) :=
  s ← skip_space (S (size m)) nptr m;
  c ← load m s;
  let s := s + 1 in
  '(neg, c, s) ← (if c =? 45 then c ← load m s; Ok (true, c, s + 1)
                  else if c =? 43 then c ← load m s; Ok (false, c, s + 1)
                  else Ok (false, c, s));
  '(c, s, base) ← (if ((base =? 0) || (base =? 16)) && (c =? 48) then
      x ← load m s;
      if (x =? 120) || (x =? 88) then c ← load m (s + 1); Ok (c, s + 2, 16) else Ok (c, s, base)
    else Ok (c, s, base));
  let base := if base =? 0 then (if c =? 48 then 8 else 10) else base in
  let '(cutoff, cutlim) := cutoffs neg base in
  '(acc, any, s, erange) ← strtol_loop (S (size m)) neg base cutoff cutlim c s 0 0 false m;
  Ok (acc, (if any =? 0 then nptr else s - 1), erange).

(** The same code for [long long]. *)
Definition strtoll (nptr base : Z) (m : mem) : res (Z * Z * bool) := strtol nptr base m.

Definition hexval (c : Z) : Z :=
  if (48 <=? c) && (c <=? 57) then c - 48
  else if (97 <=? c) && (c <=? 102) then c - 97 + 10
  else if (65 <=? c) && (c <=? 70) then c - 65 + 10
  else 0.

Fixpoint hex_loop (fuel : nat) (wrap : Z → Z) (num value : Z) (m : mem) : res Z :=
  match fuel with
  | O => Fault OutOfFuel
  | S fuel =>
      c ← load m num;
      if negb (c =? 0) && isxdigit (s8 c) then hex_loop fuel wrap (num + 1) (wrap (value * 16 + hexval (s8 c))) m else Ok value
  end.

Fixpoint dec_loop (fuel : nat) (wrap : Z → Z) (num value : Z) (m : mem) : res Z :=
  match fuel with
  | O => Fault OutOfFuel
  | S fuel =>
      c ← load m num;
      if negb (c =? 0) && isdigit (s8 c) then dec_loop fuel wrap (num + 1) (wrap (value * 10 + s8 c - 48)) m else Ok value
  end.

(** Whether a string starts with [0x]. *)
Definition has_0x (num : Z) (m : mem) : res bool :=
  c ← load m num;
  if c =? 48 then x ← load m (num + 1); Ok (x =? 120) else Ok false.

Definition atol (num : Z) (m : mem) : res Z :=
  num ← skip_space (S (size m)) num m;
  hex ← has_0x num m;
  if hex : bool then hex_loop (S (size m)) s64 (num + 2) 0 m else
  c ← load m num;
  let neg := c =? 45 in
  let num := if (c =? 45) || (c =? 43) then num + 1 else num in
  value ← dec_loop (S (size m)) s64 num 0 m;
  Ok (if neg then s64 (- value) else value).
Definition atoi (num : Z) (m : mem) : res Z := v ← atol num m; Ok (s32 v).

Definition atoul (num : Z) (m : mem) : res Z :=
  hex ← has_0x num m;
  if hex : bool then hex_loop (S (size m)) u64 (num + 2) 0 m else dec_loop (S (size m)) u64 num 0 m.
Definition atoull (num : Z) (m : mem) : res Z := atoul num m.
Definition atoui (num : Z) (m : mem) : res Z := v ← atoul num m; Ok (u32 v).

Fixpoint strtoul_loop (fuel : nat) (base nptr ret : Z) (erange : bool) (m : mem) : res (Z * Z * bool) :=
  match fuel with
  | O => Fault OutOfFuel
  | S fuel =>
      c ← load m nptr;
      let v := if isupper (s8 c) then s8 c - 65 + 10 else if islower (s8 c) then s8 c - 97 + 10
               else if isdigit (s8 c) then s8 c - 48 else -1 in
      if (v <? 0) || (base <=? v) then Ok (ret, nptr, erange) else
      let new_ret := u64 (ret * base) in
      if negb (new_ret / base =? ret) || (u64 (new_ret + v) <? new_ret) || (ret =? ULONG_MAX)
      then strtoul_loop fuel base (nptr + 1) ULONG_MAX true m
      else strtoul_loop fuel base (nptr + 1) (u64 (new_ret + v)) erange m
  end.

(** [EINVAL] is [None]. *)
Definition strtoul (nptr base : Z) (m : mem) : res (option (Z * Z * bool)) :=
  if (base <? 0) || (base =? 1) || (36 <? base) then Ok None else
  nptr ← skip_space (S (size m)) nptr m;
  c ← load m nptr;
  let neg := c =? 45 in
  let nptr := if (c =? 43) || (c =? 45) then nptr + 1 else nptr in
  c ← load m nptr;
  hex ← (if (base =? 0) || (base =? 16) then has_0x nptr m else Ok false);
  let '(base, nptr) :=
    if hex : bool then (16, nptr + 2)
    else if (base =? 0) && (c =? 48) then (8, nptr + 1)
    else if base =? 0 then (10, nptr)
    else (base, nptr) in
  '(ret, nptr, erange) ← strtoul_loop (S (size m)) base nptr 0 false m;
  Ok (Some ((if neg && negb (ret =? ULONG_MAX) then u64 (- ret) else ret), nptr, erange)).

(** * Numbers in a base *)

Definition is_digit (base c : Z) : bool := match digit c with Some d => d <? base | None => false end.
Definition dval (c : Z) : Z := default 0 (digit c).

(** The value of digits after a number [v]. *)
Definition value (base v : Z) (ds : list Z) : Z := foldl (λ v c, v * base + dval c) v ds.

Lemma value_cons base v c ds : value base v (c :: ds) = value base (v * base + dval c) ds.
Proof. done. Qed.

Definition ends (base : Z) (l : list Z) : Prop := match l with [] => True | c :: _ => is_digit base c = false end.

Lemma digit_range c d : digit c = Some d → 0 ≤ d < 36.
Proof.
  unfold digit, isdigit, isalpha, isupper, islower. intros H.
  destruct (Z.leb_spec 48 c), (Z.leb_spec c 57); cbn [andb] in H; try (injection H as <-; lia);
    destruct (Z.leb_spec 65 c), (Z.leb_spec c 90), (Z.leb_spec 97 c), (Z.leb_spec c 122); cbn [andb orb] in H; try done; injection H as <-; lia.
Qed.

Lemma value_ge base v ds : 1 ≤ base → 0 ≤ v → v ≤ value base v ds.
Proof.
  intros Hb. revert v. induction ds as [|c ds IH]; intros v Hv; [done|]. simpl.
  assert (0 ≤ dval c) by (unfold dval; destruct (digit c) eqn:E; simpl; [apply digit_range in E|]; lia).
  transitivity (v * base + dval c); [nia|]. apply IH. nia.
Qed.

(** The largest magnitude. *)
Definition limit (neg : bool) : Z := if neg then 2 ^ 63 else 2 ^ 63 - 1.
Definition signed_ (neg : bool) (v : Z) : Z := if neg then - v else v.

Lemma cutoffs_spec neg base : 2 ≤ base → cutoffs neg base = (signed_ neg (limit neg / base), limit neg `mod` base).
Proof.
  intros Hb. unfold cutoffs, signed_, limit, LONG_MIN, LONG_MAX. destruct neg.
  - rewrite Z.rem_opp_l, Z.quot_opp_l, Z.rem_mod_nonneg, Z.quot_div_nonneg by lia.
    pose proof (Z.mod_pos_bound (2 ^ 63) base). destruct (Z.ltb_spec 0 (- (2 ^ 63 `mod` base))); [lia|]. f_equal. lia.
  - by rewrite Z.rem_mod_nonneg, Z.quot_div_nonneg by lia.
Qed.

(** The test for an overflow is exact. *)
Lemma too_big base M v d : 2 ≤ base → 0 ≤ M → 0 ≤ d < base → (M / base < v ∨ v = M / base ∧ M `mod` base < d) ↔ M < v * base + d.
Proof.
  intros Hb HM Hd. pose proof (Z.div_mod M base ltac:(lia)) as E. pose proof (Z.mod_pos_bound M base ltac:(lia)) as Hr.
  set (q := M / base) in *. set (r := M `mod` base) in *. clearbody q r. subst M. destruct (Z.lt_total v q) as [H|[->|H]]; [|lia|].
  - split; [lia|]. intros H2. assert ((v + 1) * base ≤ q * base) by (apply Z.mul_le_mono_nonneg_r; lia). lia.
  - split; [|by left]. intros _. assert ((q + 1) * base ≤ v * base) by (apply Z.mul_le_mono_nonneg_r; lia). lia.
Qed.

Section strtol_loop.
Context (neg : bool) (base : Z) (m : mem) (Hbase : 2 ≤ base).
Let cutoff := signed_ neg (limit neg / base).
Let cutlim := limit neg `mod` base.

Lemma str_first a l : str_at m a l → ∃ c, load m a = Ok c ∧ (c = 0 ∧ l = [] ∨ ∃ k, l = c :: k ∧ str_at m (a + 1) k).
Proof. intros H. destruct (str_at_first _ _ _ H) as (c & E & [?|(_ & k & ? & ?)]); eauto 10. Qed.

Lemma digit_0 : digit 0 = None.
Proof. done. Qed.

Lemma stops c l rest : (c = 0 ∧ l ++ rest = [] ∨ ∃ k, l ++ rest = c :: k) → l = [] → ends base rest → is_digit base c = false.
Proof. intros [[-> _]|[k E]] -> He; [done|]. simpl in E. subst rest. exact He. Qed.

(** After an overflow the digits are skipped. *)
Lemma strtol_loop_over fuel ds rest c s acc er :
  (length ds < fuel)%nat → load m (s - 1) = Ok c → str_at m (s - 1) (ds ++ rest) → Forall (λ c, is_digit base c = true) ds → ends base rest →
  strtol_loop fuel neg base cutoff cutlim c s acc (-1) er m = Ok (acc, -1, s + Z.of_nat (length ds), er).
Proof.
  revert ds c s. induction fuel as [|fuel IH]; intros ds c s Hf Hc Hs Hd He; [lia|]. cbn [strtol_loop].
  destruct (str_first _ _ Hs) as (c' & E & Hk). rewrite Hc in E. injection E as <-. destruct ds as [|x ds].
  - assert (is_digit base c = false) as Hn by (apply (stops c [] rest); naive_solver). unfold is_digit in Hn.
    cbn [length]. rewrite Z.add_0_r. destruct (digit c) as [d|]; [|done]. destruct (Z.ltb_spec d base); [done|]. by destruct (Z.leb_spec base d); [|lia].
  - destruct Hk as [[_ ?]|(k & [= -> <-] & Hs')]; [done|]. apply Forall_cons in Hd as [Hx Hd]. unfold is_digit in Hx.
    destruct (digit c) as [d|]; [|done]. apply Z.ltb_lt in Hx. destruct (Z.leb_spec base d); [lia|]. cbn.
    replace (s - 1 + 1) with s in Hs' by lia. destruct (str_first _ _ Hs') as (c2 & E2 & _). rewrite E2. cbn.
    rewrite (IH ds); [|simpl in Hf; lia|by replace (s + 1 - 1) with s by lia..|done|done]. do 3 f_equal. cbn [length]. lia.
Qed.

Lemma step_exact v d : 0 ≤ v → 0 ≤ d → v * base + d ≤ limit neg →
  (if neg then s64 (s64 (signed_ neg v * base) - d) else s64 (s64 (signed_ neg v * base) + d)) = signed_ neg (v * base + d).
Proof.
  intros Hv Hd Hl. assert (0 ≤ v * base) by nia. unfold signed_, limit in *. destruct neg.
  - rewrite Z.mul_opp_l, (s64_small (- (v * base))), s64_small by lia. lia.
  - by rewrite (s64_small (v * base)), s64_small by lia.
Qed.

Lemma digit_step v d er : 0 ≤ v → 0 ≤ d < base →
  (if neg
   then if (signed_ neg v <? cutoff) || ((signed_ neg v =? cutoff) && (cutlim <? d)) then (LONG_MIN, -1, true) else (s64 (s64 (signed_ neg v * base) - d), 1, er)
   else if (cutoff <? signed_ neg v) || ((signed_ neg v =? cutoff) && (cutlim <? d)) then (LONG_MAX, -1, true) else (s64 (s64 (signed_ neg v * base) + d), 1, er)) =
  if limit neg <? v * base + d then (signed_ neg (limit neg), -1, true) else (signed_ neg (v * base + d), 1, er).
Proof.
  intros Hv Hd. pose proof (too_big base (limit neg) v d Hbase ltac:(unfold limit; destruct neg; lia) Hd) as Hbig.
  pose proof (step_exact v d Hv ltac:(lia)) as Hex. destruct (Z.ltb_spec (limit neg) (v * base + d)) as [Hb|Hb].
  - apply Hbig in Hb. clear Hbig Hex. unfold cutoff, cutlim, signed_, limit in *. destruct neg.
    all: match goal with |- (if ?b then _ else _) = _ => destruct b eqn:Eb; [done|] end; exfalso; lia.
  - specialize (Hex Hb). assert (¬ (limit neg / base < v ∨ v = limit neg / base ∧ limit neg `mod` base < d)) as Hnb by (rewrite Hbig; lia).
    clear Hbig. unfold cutoff, cutlim, signed_, limit in *. destruct neg; rewrite Hex.
    all: match goal with |- (if ?b then _ else _) = _ => destruct b eqn:Eb; [|done] end; exfalso; lia.
Qed.

(** The number is exact up to the limit and stays there. *)
Lemma strtol_loop_ok fuel ds rest c s v any er :
  (length ds < fuel)%nat → load m (s - 1) = Ok c → str_at m (s - 1) (ds ++ rest) → Forall (λ c, is_digit base c = true) ds → ends base rest →
  0 ≤ v ≤ limit neg → 0 ≤ any →
  let w := value base v ds in
  ∃ any', strtol_loop fuel neg base cutoff cutlim c s (signed_ neg v) any er m =
      Ok (signed_ neg (Z.min w (limit neg)), any', s + Z.of_nat (length ds), er || (limit neg <? w)) ∧ (any' = 0 ↔ any = 0 ∧ ds = []).
Proof.
  revert ds c s v any. induction fuel as [|fuel IH]; intros ds c s v any Hf Hc Hs Hd He Hv Ha; [lia|]. cbn [strtol_loop].
  destruct (str_first _ _ Hs) as (c' & E & Hk). rewrite Hc in E. injection E as <-. destruct ds as [|x ds].
  - assert (is_digit base c = false) as Hn by (apply (stops c [] rest); naive_solver). unfold is_digit in Hn.
    cbn [length value foldl]. rewrite Z.add_0_r, Z.min_l by lia. destruct (Z.ltb_spec (limit neg) v); [lia|]. rewrite orb_false_r.
    exists any. split; [|naive_solver]. destruct (digit c) as [d|]; [|done]. destruct (Z.ltb_spec d base); [done|]. by destruct (Z.leb_spec base d); [|lia].
  - destruct Hk as [[_ ?]|(k & [= -> <-] & Hs')]; [done|]. apply Forall_cons in Hd as [Hx Hd]. unfold is_digit in Hx.
    rewrite value_cons. unfold dval. destruct (digit c) as [d|] eqn:Ed; [|done]. apply Z.ltb_lt in Hx. change (default 0 (Some d)) with d. destruct (Z.leb_spec base d); [lia|].
    apply digit_range in Ed. destruct (Z.ltb_spec any 0); [lia|]. replace (s - 1 + 1) with s in Hs' by lia.
    destruct (str_first _ _ Hs') as (c2 & E2 & _).
    rewrite (digit_step v d er) by lia.
    assert (v * base + d ≤ value base (v * base + d) ds) as Hge by (apply value_ge; nia).
    destruct (Z.ltb_spec (limit neg) (v * base + d)) as [Hb|Hb]; rewrite E2; cbn [mbind res_bind].
    + rewrite (strtol_loop_over _ ds rest); [|simpl in Hf; lia|by replace (s + 1 - 1) with s by lia..|done|done].
      rewrite Z.min_r by lia. destruct (Z.ltb_spec (limit neg) (value base (v * base + d) ds)); [|lia].
      rewrite orb_true_r. exists (-1). split; [do 3 f_equal; cbn [length]; lia|naive_solver].
    + destruct (IH ds c2 (s + 1) (v * base + d) 1) as (any' & E & Hany); [simpl in Hf; lia|by replace (s + 1 - 1) with s by lia..|done|done|nia|done|].
      exists any'. rewrite E. split; [do 3 f_equal; cbn [length]; lia|]. rewrite Hany. naive_solver.
Qed.
End strtol_loop.

(** * Whole numbers *)

Lemma digit_char c d : digit c = Some d → 48 ≤ c.
Proof.
  unfold digit, isdigit, isalpha, isupper, islower. intros H.
  destruct (Z.leb_spec 48 c); [done|]. destruct (Z.leb_spec 65 c), (Z.leb_spec 97 c); [lia|lia|lia|]. cbn [andb orb] in H. done.
Qed.

Lemma is_digit_char base c : is_digit base c = true → 48 ≤ c.
Proof. unfold is_digit. destruct (digit c) eqn:E; [|done]. intros _. by apply digit_char in E. Qed.

Lemma isspace_char c : isspace c = true → c ≤ 32.
Proof. unfold isspace. rewrite !orb_true_iff, !Z.eqb_eq. lia. Qed.

Lemma skip_space_ok fuel s m sp l :
  (length sp < fuel)%nat → str_at m s (sp ++ l) → Forall (λ c, isspace c = true) sp → (∀ c k, l = c :: k → isspace c = false) →
  skip_space fuel s m = Ok (s + Z.of_nat (length sp)).
Proof.
  revert s sp. induction fuel as [|fuel IH]; intros s sp Hf Hs Hsp Hl; [lia|]. cbn [skip_space].
  destruct (str_first _ _ _ Hs) as (c & -> & Hk). cbn [mbind res_bind]. destruct sp as [|x sp].
  - assert (isspace c = false) as -> by (destruct Hk as [[-> _]|(k & E & _)]; [done|by apply (Hl c k)]). by rewrite Z.add_0_r.
  - destruct Hk as [[_ ?]|(k & [= -> <-] & Hs')]; [done|]. apply Forall_cons in Hsp as [-> Hsp].
    rewrite (IH _ sp); [|simpl in Hf; lia|done..]. f_equal. cbn [length]. lia.
Qed.

Definition sign_of (sg : list Z) : bool := bool_decide (sg = [45]).

(** [strtol] of blanks, a sign, digits of a base other than 16 and something else. *)
Lemma strtol_ok nptr base m sp sg ds rest :
  2 ≤ base → base ≠ 16 → str_at m nptr (sp ++ sg ++ ds ++ rest) →
  Forall (λ c, isspace c = true) sp → sg ∈ [[]; [43]; [45]] → ds ≠ [] → Forall (λ c, is_digit base c = true) ds → ends base rest →
  let v := value base 0 ds in let M := limit (sign_of sg) in
  strtol nptr base m = Ok (signed_ (sign_of sg) (Z.min v M), nptr + Z.of_nat (length (sp ++ sg ++ ds)), M <? v).
Proof.
  intros Hb Hb16 Hs Hsp Hsg Hne Hd He v M. unfold strtol. destruct ds as [|x ds]; [done|].
  pose proof (Forall_cons_1 _ _ _ Hd) as [Hx _]. apply is_digit_char in Hx as Hx48.
  rewrite (skip_space_ok _ _ _ sp (sg ++ (x :: ds) ++ rest)); [|apply str_at_fuel in Hs; rewrite length_app in Hs; lia|done|done|].
  2:{ intros c k E. apply not_true_iff_false. intros Hc%isspace_char. assert (c = 43 ∨ c = 45 ∨ c = x) as [->|[->| ->]] by set_solver; lia. }
  cbn [mbind res_bind]. apply str_at_app in Hs as [_ Hs]. set (s := nptr + Z.of_nat (length sp)) in *.
  assert (∃ c, load m s = Ok c ∧ (if c =? 45 then c ← load m (s + 1); Ok (true, c, s + 1 + 1) else if c =? 43 then c ← load m (s + 1); Ok (false, c, s + 1 + 1) else Ok (false, c, s + 1)) =
    Ok (sign_of sg, x, s + Z.of_nat (length sg) + 1)) as (c & Ec & Esg).
  { assert (sg = [] ∨ sg = [43] ∨ sg = [45]) as [->|[->| ->]] by set_solver.
    - apply str_at_cons in Hs as (E & _ & _). exists x. split; [by apply load_Ok|]. destruct (Z.eqb_spec x 45), (Z.eqb_spec x 43); [lia..|].
      cbn [length]. by rewrite Z.add_0_r.
    - apply str_at_cons in Hs as (E & _ & Hs). apply str_at_cons in Hs as (E' & _ & _). exists 43. split; [by apply load_Ok|].
      apply load_Ok in E'. cbn. by rewrite E'.
    - apply str_at_cons in Hs as (E & _ & Hs). apply str_at_cons in Hs as (E' & _ & _). exists 45. split; [by apply load_Ok|].
      apply load_Ok in E'. cbn. by rewrite E'. }
  rewrite Ec. cbn [mbind res_bind]. rewrite Esg. cbn [mbind res_bind].
  destruct (Z.eqb_spec base 0); [lia|]. destruct (Z.eqb_spec base 16); [lia|]. cbn [orb andb mbind res_bind].
  destruct (Z.eqb_spec base 0); [lia|]. rewrite (cutoffs_spec (sign_of sg) base Hb).
  apply str_at_app in Hs as [_ Hs]. set (e := s + Z.of_nat (length sg)) in *.
  pose proof (proj1 (str_at_cons _ _ _ _) Hs) as (Ex & _ & _). apply load_Ok in Ex.
  destruct (strtol_loop_ok (sign_of sg) base m Hb (S (size m)) (x :: ds) rest x (e + 1) 0 0 false) as (any & E & Hany).
  { apply str_at_fuel in Hs. rewrite length_app in Hs. lia. }
  1,2: by replace (e + 1 - 1) with e by lia. { done. } { done. } { unfold limit. destruct (sign_of sg); lia. } { done. }
  replace (signed_ (sign_of sg) 0) with 0 in E by (by destruct (sign_of sg)). rewrite E. cbn [mbind res_bind].
  assert (any ≠ 0) as Ha by (rewrite Hany; naive_solver). destruct (Z.eqb_spec any 0); [done|]. do 3 f_equal.
  rewrite !length_app. unfold e, s. lia.
Qed.

(** ** Unsigned numbers *)

Lemma signed_digit c : 0 ≤ c < 2 ^ 8 →
  (if isupper (s8 c) then s8 c - 65 + 10 else if islower (s8 c) then s8 c - 97 + 10 else if isdigit (s8 c) then s8 c - 48 else -1) = default (-1) (digit c).
Proof.
  intros Hc. assert (s8 c = if c <? 128 then c else c - 256) as ->.
  { unfold s8. destruct (Z.ltb_spec c 128); [rewrite Z.mod_small; lia|]. replace (c + 2 ^ 7) with (c - 128 + 1 * 2 ^ 8) by lia. rewrite Z.mod_add, Z.mod_small; lia. }
  unfold digit, isalpha, isupper, islower, isdigit. destruct (Z.ltb_spec c 128).
  - destruct (Z.leb_spec 65 c), (Z.leb_spec c 90), (Z.leb_spec 97 c), (Z.leb_spec c 122), (Z.leb_spec 48 c), (Z.leb_spec c 57); cbn [andb orb from_option]; unfold id; lia.
  - destruct (Z.leb_spec 65 (c - 256)), (Z.leb_spec 97 (c - 256)), (Z.leb_spec 48 (c - 256)); try lia. cbn [andb].
    destruct (Z.leb_spec 65 c), (Z.leb_spec c 90), (Z.leb_spec 97 c), (Z.leb_spec c 122), (Z.leb_spec 48 c), (Z.leb_spec c 57); cbn [andb orb from_option]; unfold id; lia.
Qed.

(** The test for an overflow, which divides the product again, is exact. *)
Lemma utoo_big base ret d : 2 ≤ base ≤ 36 → 0 ≤ d < base → 0 ≤ ret ≤ ULONG_MAX →
  let new_ret := u64 (ret * base) in
  (negb (new_ret / base =? ret) || (u64 (new_ret + d) <? new_ret) || (ret =? ULONG_MAX)) = (ULONG_MAX <? ret * base + d) ∧
  (ret * base + d ≤ ULONG_MAX → u64 (new_ret + d) = ret * base + d).
Proof.
  intros Hb Hd Hr new_ret. unfold ULONG_MAX in *. assert (0 ≤ ret * base) by nia. destruct (Z.lt_ge_cases (ret * base) (2 ^ 64)) as [Hlt|Hge].
  - assert (new_ret = ret * base) as -> by (by apply u64_small). rewrite Z.div_mul, Z.eqb_refl by lia. cbn [negb orb].
    split; [|intros H1; apply u64_small; lia]. destruct (Z.ltb_spec (2 ^ 64 - 1) (ret * base + d)) as [Hbig|Hfit].
    + assert (u64 (ret * base + d) < ret * base) as Hw; [|by apply Z.ltb_lt in Hw as ->].
      unfold u64. replace (ret * base + d) with (ret * base + d - 2 ^ 64 + 1 * 2 ^ 64) by lia. rewrite Z.mod_add, Z.mod_small by nia. nia.
    + rewrite u64_small by lia. apply orb_false_iff. split; [apply Z.ltb_ge|apply Z.eqb_neq]; nia.
  - split; [|nia]. destruct (Z.ltb_spec (2 ^ 64 - 1) (ret * base + d)); [|lia]. pose proof (u64_range (ret * base)) as Hn. fold new_ret in Hn.
    assert (new_ret / base < ret) as Hq by (apply Z.div_lt_upper_bound; lia). destruct (Z.eqb_spec (new_ret / base) ret); [lia|done].
Qed.

Lemma strtoul_loop_ok fuel base m nptr ds rest ret er :
  2 ≤ base ≤ 36 → bytes_ok m → (length ds < fuel)%nat → str_at m nptr (ds ++ rest) → Forall (λ c, is_digit base c = true) ds → ends base rest →
  0 ≤ ret ≤ ULONG_MAX →
  let w := value base ret ds in
  strtoul_loop fuel base nptr ret er m = Ok (Z.min w ULONG_MAX, nptr + Z.of_nat (length ds), er || (ULONG_MAX <? w)).
Proof.
  intros Hb Hm. revert nptr ds ret er. induction fuel as [|fuel IH]; intros nptr ds ret er Hf Hs Hd He Hr; [lia|]. cbn [strtoul_loop].
  destruct (str_first _ _ _ Hs) as (c & Ec & Hk). rewrite Ec. cbn [mbind res_bind]. apply load_Ok, Hm in Ec. cbv beta in Ec.
  rewrite signed_digit by done. destruct ds as [|x ds].
  - assert (is_digit base c = false) as Hn by (apply (stops base c [] rest); naive_solver). unfold is_digit in Hn. cbn [length value foldl].
    rewrite Z.add_0_r, Z.min_l by lia. destruct (Z.ltb_spec ULONG_MAX ret); [lia|]. rewrite orb_false_r.
    destruct (digit c) as [d|]; [|done]. apply Z.ltb_ge in Hn. change (default (-1) (Some d)) with d. apply Z.leb_le in Hn as ->. by rewrite orb_true_r.
  - destruct Hk as [[_ ?]|(k & [= -> <-] & Hs')]; [done|]. apply Forall_cons in Hd as [Hx Hd]. unfold is_digit in Hx.
    rewrite value_cons. unfold dval. destruct (digit c) as [d|] eqn:Ed; [|done]. apply Z.ltb_lt in Hx.
    change (default (-1) (Some d)) with d. change (default 0 (Some d)) with d. apply digit_range in Ed.
    destruct (Z.ltb_spec d 0); [lia|]. destruct (Z.leb_spec base d); [lia|]. cbn [orb].
    destruct (utoo_big base ret d) as [-> Hx2]; [lia..|]. assert (ret * base + d ≤ value base (ret * base + d) ds) as Hge by (apply value_ge; nia).
    destruct (Z.ltb_spec ULONG_MAX (ret * base + d)) as [Hbig|Hfit].
    + rewrite (IH _ ds); [|simpl in Hf; lia|done..|unfold ULONG_MAX; lia]. pose proof (value_ge base ULONG_MAX ds).
      assert (∀ w, value base ULONG_MAX ds = w → Z.min w ULONG_MAX = ULONG_MAX) as Hmin by (unfold ULONG_MAX in *; lia).
      rewrite (Hmin _ eq_refl), Z.min_r by lia. destruct (Z.ltb_spec ULONG_MAX (value base (ret * base + d) ds)); [|lia]. rewrite orb_true_r.
      do 3 f_equal. cbn [length]. lia.
    + rewrite Hx2 by done. rewrite (IH _ ds); [|simpl in Hf; lia|done..|nia]. do 3 f_equal. cbn [length]. lia.
Qed.
