(* ===== verification/CPrintf.v ===== *)
(** Formatted output: [lib/libc/printf.c.inc] without floating point, the integer
    part of [lib/libc/printf_helpers.c], and [vsnprintf].

    The format and the strings it refers to are in memory; the variable arguments are
    a list of values, each converted to the type that [va_arg] names.  What a
    conversion prints is a list of chunks, one per call of the output function,
    which is an argument of the engine with a state of its own.  A local buffer is a
    list of bytes, and a store outside of it is a fault. *)
From stdpp Require Import prelude gmap.
From S2P Require Import Prelude Bytes CMem CString CNum.

#[local] Open Scope Z_scope.

Definition LONGFLAG : Z := 0x1.
Definition LONGLONGFLAG : Z := 0x2.
Definition HALFFLAG : Z := 0x4.
Definition HALFHALFFLAG : Z := 0x8.
Definition SIZETFLAG : Z := 0x10.
Definition INTMAXFLAG : Z := 0x20.
Definition PTRDIFFFLAG : Z := 0x40.
Definition ALTFLAG : Z := 0x80.
Definition CAPSFLAG : Z := 0x100.
Definition SHOWSIGNFLAG : Z := 0x200.
Definition SIGNEDFLAG : Z := 0x400.
Definition LEFTFORMATFLAG : Z := 0x800.
Definition LEADZEROFLAG : Z := 0x1000.
Definition BLANKPOSFLAG : Z := 0x2000.
Definition HAS_PRECISION : Z := 0x4000.

(** * Numbers to text *)

Definition put (buf : list Z) (pos v : Z) : res (list Z) := mem_write pos [u8 v] buf.

Fixpoint dec_digits (fuel : nat) (buf : list Z) (pos n : Z) : res (list Z * Z) :=
  match fuel with
  | O => Fault OutOfFuel
  | S fuel =>
      if 10 <=? n then
        buf ← put buf (pos - 1) (n `mod` 10 + 48); dec_digits fuel buf (pos - 1) (n / 10)
      else buf ← put buf (pos - 1) (n + 48); Ok (buf, pos - 1)
  end.

(** The buffer, the position of the text in it and the sign character. *)
Definition printf_longlong_to_string (buf : list Z) (n len flag : Z) : res (list Z * Z * Z) :=
  let negative := has_flag flag SIGNEDFLAG && (s64 n <? 0) in
  let n := if negative then u64 (- n) else n in
  buf ← put buf (len - 1) 0;
  '(buf, pos) ← dec_digits (Z.to_nat len) buf (len - 1) n;
  let signchar := if negative then 45 else if has_flag flag SHOWSIGNFLAG then 43
                  else if has_flag flag BLANKPOSFLAG then 32 else 0 in
  Ok (buf, pos, signchar).

Definition hextable : list Z := [48; 49; 50; 51; 52; 53; 54; 55; 56; 57; 97; 98; 99; 100; 101; 102].
Definition hextable_caps : list Z := [48; 49; 50; 51; 52; 53; 54; 55; 56; 57; 65; 66; 67; 68; 69; 70].

Fixpoint hex_digits (fuel : nat) (table buf : list Z) (pos u : Z) : res (list Z * Z) :=
  match fuel with
  | O => Fault OutOfFuel
  | S fuel =>
      d ← of_option BadAccess (znth table (u `mod` 16));
      buf ← put buf (pos - 1) d;
      if u / 16 =? 0 then Ok (buf, pos - 1) else hex_digits fuel table buf (pos - 1) (u / 16)
  end.

Definition printf_longlong_to_hexstring (buf : list Z) (u len flag : Z) : res (list Z * Z) :=
  let table := if has_flag flag CAPSFLAG then hextable_caps else hextable in
  buf ← put buf (len - 1) 0;
  hex_digits (Z.to_nat len) table buf (len - 1) u.

(** The string in a buffer: the bytes up to the first zero. *)
Fixpoint cstring (l : list Z) : res (list Z) :=
  match l with
  | [] => Fault BadAccess
  | c :: l => if c =? 0 then Ok [] else s ← cstring l; Ok (c :: s)
  end.

(** * The engine *)

Record fspec := mk_fspec { f_flags : Z; format_num : Z; precision_num : Z }.
Definition add_flag (f : Z) (sp : fspec) : fspec := mk_fspec (Z.lor (f_flags sp) f) (format_num sp) (precision_num sp).
Definition drop_flag (f : Z) (sp : fspec) : fspec := mk_fspec (Z.land (f_flags sp) (Z.lnot f)) (format_num sp) (precision_num sp).
Definition set_num (n : Z) (sp : fspec) : fspec := mk_fspec (f_flags sp) n (precision_num sp).
Definition set_prec (n : Z) (sp : fspec) : fspec := mk_fspec (f_flags sp) (format_num sp) n.
Definition flag_set (f : Z) (sp : fspec) : bool := has_flag (f_flags sp) f.

Definition va_arg (ap : list Z) : res (Z * list Z) :=
  match ap with [] => Fault BadAccess | v :: ap => Ok (v, ap) end.

(** The characters up to the next percent sign or the end; the one that ended them,
    and the pointer behind it. *)
Fixpoint regular (fuel : nat) (fmt : Z) (m : mem) : res (list Z * Z * Z) :=
  match fuel with
  | O => Fault OutOfFuel
  | S fuel =>
      c ← load m fmt;
      if (c =? 0) || (c =? 37) then Ok ([], c, fmt + 1)
      else '(s, e, fmt) ← regular fuel (fmt + 1) m; Ok (c :: s, e, fmt)
  end.

Definition width_digit (c : Z) (sp : fspec) : fspec :=
  if flag_set HAS_PRECISION sp then set_prec (u32 (u32 (precision_num sp * 10) + (c - 48))) sp
  else
    let sp := if (c =? 48) && (format_num sp =? 0) then add_flag LEADZEROFLAG sp else sp in
    set_num (u32 (u32 (format_num sp * 10) + (c - 48))) sp.

Definition star (val : Z) (sp : fspec) : fspec :=
  if flag_set HAS_PRECISION sp then
    if val <? 0 then drop_flag HAS_PRECISION sp else set_prec val sp
  else if val <? 0 then set_num (u32 (- val)) (add_flag LEFTFORMATFLAG sp) else set_num val sp.

(** The modifiers: what character [c] does to the format state, if it is one. *)
Definition modifier (c : Z) (sp : fspec) : option fspec :=
  if isdigit c then Some (width_digit c sp)
  else if c =? 46 then Some (set_prec 0 (add_flag HAS_PRECISION sp))
  else if c =? 45 then Some (add_flag LEFTFORMATFLAG sp)
  else if c =? 43 then Some (add_flag SHOWSIGNFLAG sp)
  else if c =? 32 then Some (add_flag BLANKPOSFLAG sp)
  else if c =? 35 then Some (add_flag ALTFLAG sp)
  else if c =? 108 then Some (add_flag LONGFLAG (if flag_set LONGFLAG sp then add_flag LONGLONGFLAG sp else sp))
  else if c =? 104 then Some (add_flag HALFFLAG (if flag_set HALFFLAG sp then add_flag HALFHALFFLAG sp else sp))
  else if c =? 122 then Some (add_flag SIZETFLAG sp)
  else if c =? 106 then Some (add_flag INTMAXFLAG sp)
  else if c =? 116 then Some (add_flag PTRDIFFFLAG sp)
  else None.

(** [next_format]: up to the conversion character, or nothing at the end. *)
Fixpoint next_format (fuel : nat) (fmt : Z) (sp : fspec) (ap : list Z) (m : mem) : res (option (Z * fspec * list Z * Z)) :=
  match fuel with
  | O => Fault OutOfFuel
  | S fuel =>
      c ← load m fmt;
      if c =? 0 then Ok None
      else if c =? 42 then '(v, ap) ← va_arg ap; next_format fuel (fmt + 1) (star (s32 v) sp) ap m
      else match modifier c sp with
           | Some sp => next_format fuel (fmt + 1) sp ap m
           | None => Ok (Some (c, sp, ap, fmt + 1))
           end
  end.

Definition s16 (x : Z) : Z := (x + 2 ^ 15) `mod` 2 ^ 16 - 2 ^ 15.
Definition u16 (x : Z) : Z := x `mod` 2 ^ 16.

Definition signed_arg (sp : fspec) (v : Z) : Z :=
  if flag_set LONGLONGFLAG sp then s64 v else if flag_set LONGFLAG sp then s64 v
  else if flag_set HALFHALFFLAG sp then s8 v else if flag_set HALFFLAG sp then s16 v
  else if flag_set SIZETFLAG sp then s64 v else if flag_set INTMAXFLAG sp then s64 v
  else if flag_set PTRDIFFFLAG sp then s64 v else s32 v.

Definition unsigned_arg (sp : fspec) (v : Z) : Z :=
  if flag_set LONGLONGFLAG sp then u64 v else if flag_set LONGFLAG sp then u64 v
  else if flag_set HALFHALFFLAG sp then u8 v else if flag_set HALFFLAG sp then u16 v
  else if flag_set SIZETFLAG sp then u64 v else if flag_set INTMAXFLAG sp then u64 v
  else if flag_set PTRDIFFFLAG sp then u64 v else u32 v.

Definition chars (n : Z) (c : Z) : list (list Z) := replicate (Z.to_nat n) [c].

(** Sign, prefix, zeros, the text [s] and padding: [string_len] characters of which
    [precision_fill] are zeros in front. *)
Definition justify (c : Z) (sp : fspec) (signchar : Z) (s : list Z) (string_len precision_fill : Z) : list (list Z) :=
  let sign := if signchar =? 0 then [] else [[signchar]] in
  let width := if negb (signchar =? 0) && (0 <? format_num sp) then format_num sp - 1 else format_num sp in
  let alt := (c =? 120) && flag_set ALTFLAG sp in
  let prefix := if alt then [[48]; [if flag_set CAPSFLAG sp then 88 else 120]] else [] in
  let width := if alt && (2 <=? width) then width - 2 else width in
  let text := chars precision_fill 48 ++ [ztake (string_len - precision_fill) s] in
  if flag_set LEFTFORMATFLAG sp then
    sign ++ prefix ++ text ++ chars (width - u32 string_len) 32
  else
    let zero := flag_set LEADZEROFLAG sp in
    (if zero then sign else []) ++ prefix ++ chars (width - string_len) (if zero then 48 else 32) ++
    (if zero then [] else sign) ++ text.

(** [_output_string]: the text [s] of conversion [c] with its precision. *)
Definition field (c : Z) (sp : fspec) (n signchar : Z) (s : list Z) : list (list Z) :=
  let string_len := zlen s in
  let has_prec := flag_set HAS_PRECISION sp in
  if c =? 115 then justify c sp signchar s (if has_prec then Z.min (precision_num sp) string_len else string_len) 0
  else if ((c =? 100) || (c =? 105) || (c =? 117) || (c =? 120)) && has_prec then
    let sp := drop_flag LEADZEROFLAG sp in
    if (precision_num sp =? 0) && (n =? 0) then justify c sp signchar s 0 0
    else if string_len <? precision_num sp
    then justify c sp signchar s (precision_num sp) (u32 (precision_num sp - string_len))
    else justify c sp signchar s string_len 0
  else justify c sp signchar s string_len 0.

(** The size of the object that [%n] stores to. *)
Definition n_size (sp : fspec) : nat :=
  if flag_set LONGLONGFLAG sp then 8 else if flag_set LONGFLAG sp then 8
  else if flag_set HALFHALFFLAG sp then 1 else if flag_set HALFFLAG sp then 2
  else if flag_set SIZETFLAG sp then 8 else 4.

Definition null_string : list Z := [60; 110; 117; 108; 108; 62].
Definition num_buffer : list Z := replicate 32 0.

(** One conversion: its output, the arguments left, the memory. *)
Definition convert (c : Z) (sp : fspec) (ap : list Z) (written : Z) (m : mem) : res (list (list Z) * list Z * mem) :=
  if c =? 37 then Ok ([[37]], ap, m)
  else if c =? 99 then '(v, ap) ← va_arg ap; Ok ([[u8 v]], ap, m)
  else if c =? 115 then
    '(p, ap) ← va_arg ap;
    s ← (if p =? 0 then Ok null_string else n ← strlen p m; load_bytes m p (Z.to_nat n));
    Ok (field c (drop_flag LEADZEROFLAG sp) 0 0 s, ap, m)
  else if (c =? 105) || (c =? 100) then
    '(v, ap) ← va_arg ap;
    let n := u64 (signed_arg sp v) in
    let sp := add_flag SIGNEDFLAG sp in
    '(buf, pos, signchar) ← printf_longlong_to_string num_buffer n 32 (f_flags sp);
    s ← cstring (zdrop pos buf);
    Ok (field c sp n signchar s, ap, m)
  else if c =? 117 then
    '(v, ap) ← va_arg ap;
    let n := unsigned_arg sp v in
    '(buf, pos, signchar) ← printf_longlong_to_string num_buffer n 32 (f_flags sp);
    s ← cstring (zdrop pos buf);
    Ok (field c sp n signchar s, ap, m)
  else if (c =? 112) || (c =? 88) || (c =? 120) then
    let sp := if c =? 112 then add_flag ALTFLAG (add_flag SIZETFLAG sp) else if c =? 88 then add_flag CAPSFLAG sp else sp in
    '(v, ap) ← va_arg ap;
    let n := unsigned_arg sp v in
    '(buf, pos) ← printf_longlong_to_hexstring num_buffer n 32 (f_flags sp);
    s ← cstring (zdrop pos buf);
    let sp := if n =? 0 then drop_flag ALTFLAG sp else sp in
    Ok (field 120 sp n 0 s, ap, m)
  else if c =? 110 then
    '(p, ap) ← va_arg ap;
    m ← store_bytes m p (le_split (n_size sp) written);
    Ok ([], ap, m)
  else Ok ([[37]; [c]], ap, m).

Section engine.
Context {St : Type} (out : list Z → St → res (Z * St)).

(** [OUTPUT_STRING] for each chunk; a negative result of the output function ends it. *)
Fixpoint emit (chunks : list (list Z)) (st : St) (written : Z) : res (option Z * St * Z) :=
  match chunks with
  | [] => Ok (None, st, written)
  | ch :: chunks =>
      '(err, st) ← out ch st;
      if err <? 0 then Ok (Some err, st, written) else emit chunks st (u64 (written + err))
  end.

Fixpoint printf_engine_loop (fuel : nat) (fmt : Z) (ap : list Z) (st : St) (written : Z) (m : mem) : res (Z * St * mem) :=
  match fuel with
  | O => Fault OutOfFuel
  | S fuel =>
      '(s, c, fmt) ← regular (S (size m)) fmt m;
      '(err, st, written) ← emit [s] st written;
      match err with
      | Some e => Ok (e, st, m)
      | None =>
          if c =? 0 then Ok (s32 written, st, m) else
          o ← next_format (S (size m)) fmt (mk_fspec 0 0 0) ap m;
          match o with
          | None => Ok (s32 written, st, m)
          | Some (c, sp, ap, fmt) =>
              '(chunks, ap, m) ← convert c sp ap written m;
              '(err, st, written) ← emit chunks st written;
              match err with
              | Some e => Ok (e, st, m)
              | None => printf_engine_loop fuel fmt ap st written m
              end
          end
      end
  end.

Definition printf_engine (st : St) (fmt : Z) (ap : list Z) (m : mem) : res (Z * St * mem) :=
  printf_engine_loop (S (size m)) fmt ap st 0 m.
End engine.

(** * vsnprintf *)

(** The buffer and [args.pos]; [len] is [args.len]. *)
Fixpoint vsnprintf_output (len : Z) (str : list Z) (outstr : list Z) (pos : Z) : res (list Z * Z) :=
  match str with
  | [] => Ok (outstr, pos)
  | c :: str =>
      if pos <? len then outstr ← put outstr pos c; vsnprintf_output len str outstr (pos + 1)
      else vsnprintf_output len str outstr pos
  end.

Definition vsnprintf_out (len : Z) (str : list Z) (st : list Z * Z) : res (Z * (list Z * Z)) :=
  st ← vsnprintf_output len str st.1 st.2; Ok (s32 (zlen str), st).

Definition vsnprintf (str : list Z) (len fmt : Z) (ap : list Z) (m : mem) : res (Z * list Z * mem) :=
  '(wlen, (outstr, pos), m) ← printf_engine (vsnprintf_out len) (str, 0) fmt ap m;
  outstr ← (if len =? 0 then Ok outstr
            else if len <=? pos then put outstr (len - 1) 0
            else put outstr wlen 0);
  Ok (wlen, outstr, m).

Definition snprintf (str : list Z) (len fmt : Z) (ap : list Z) (m : mem) : res (Z * list Z * mem) := vsnprintf str len fmt ap m.
Definition vsprintf (str : list Z) (fmt : Z) (ap : list Z) (m : mem) : res (Z * list Z * mem) := vsnprintf str (2 ^ 31 - 1) fmt ap m.
Definition sprintf (str : list Z) (fmt : Z) (ap : list Z) (m : mem) : res (Z * list Z * mem) := vsprintf str fmt ap m.

(** * Decimal numbers *)

Fixpoint decimal (fuel : nat) (n : Z) : list Z :=
  match fuel with
  | O => []
  | S fuel => if n <? 10 then [n + 48] else decimal fuel (n / 10) ++ [n `mod` 10 + 48]
  end.

Definition is_dec (c : Z) : Prop := 48 ≤ c ≤ 57.

Lemma put_ok buf pos v :
  0 ≤ pos < zlen buf → ∃ buf', put buf pos v = Ok buf' ∧ zlen buf' = zlen buf ∧ zdrop pos buf' = u8 v :: zdrop (pos + 1) buf ∧ ztake pos buf' = ztake pos buf.
Proof.
  intros Hp. unfold put. rewrite mem_write_Ok; [|lia|unfold zlen in *; simpl; lia]. exists (splice pos [u8 v] buf). split; [done|].
  split; [apply zlen_splice; unfold zlen in *; simpl; lia|]. unfold splice. change (zlen [u8 v]) with 1. split.
  - unfold zdrop at 1. rewrite drop_app_length'; [done|]. unfold ztake, zlen in *. rewrite length_take. lia.
  - unfold ztake at 1. rewrite take_app_length'; [done|]. unfold ztake, zlen in *. rewrite length_take. lia.
Qed.

Lemma decimal_dec fuel n : 0 ≤ n < 10 ^ Z.of_nat fuel → Forall is_dec (decimal fuel n) ∧ ((0 < fuel)%nat → decimal fuel n ≠ []).
Proof.
  revert n. induction fuel as [|fuel IH]; intros n Hn; [by split; [constructor|lia]|]. cbn [decimal]. destruct (Z.ltb_spec n 10).
  - split; [|done]. constructor; [unfold is_dec; lia|constructor].
  - rewrite Nat2Z.inj_succ, Z.pow_succ_r in Hn by lia. split; [|by intros _ [_ ?]%app_nil].
    apply Forall_app. split; [apply IH; split; [apply Z.div_pos; lia|apply Z.div_lt_upper_bound; lia]|].
    constructor; [|constructor]. unfold is_dec. pose proof (Z.mod_pos_bound n 10). lia.
Qed.

Lemma dec_digits_ok k fuel buf pos n :
  0 ≤ n < 10 ^ Z.of_nat k → (0 < k ≤ fuel)%nat → Z.of_nat k ≤ pos ≤ zlen buf →
  ∃ buf' pos', dec_digits fuel buf pos n = Ok (buf', pos') ∧ zdrop pos' buf' = decimal k n ++ zdrop pos buf.
Proof.
  revert fuel buf pos n. induction k as [|k IH]; intros [|fuel] buf pos n Hn Hf Hp; try lia. cbn [dec_digits decimal].
  assert (∀ v, 0 ≤ v ≤ 9 → u8 (v + 48) = v + 48) as Hu by (intros v Hv; apply Z.mod_small; lia).
  destruct (Z.leb_spec 10 n) as [H10|H10], (Z.ltb_spec n 10); try lia.
  - rewrite Nat2Z.inj_succ, Z.pow_succ_r in Hn by lia. destruct k as [|k]; [simpl in Hn; lia|].
    destruct (put_ok buf (pos - 1) (n `mod` 10 + 48)) as (b1 & E1 & L1 & D1 & _); [lia|]. rewrite E1. cbn [mbind res_bind].
    destruct (IH fuel b1 (pos - 1) (n / 10)) as (b2 & p2 & E2 & D2); [split; [apply Z.div_pos; lia|apply Z.div_lt_upper_bound; lia]|lia|lia|].
    exists b2, p2. split; [done|]. rewrite D2, D1, <- app_assoc, Hu by (pose proof (Z.mod_pos_bound n 10); lia). cbn [app]. do 3 f_equal. lia.
  - destruct (put_ok buf (pos - 1) (n + 48)) as (b1 & E1 & L1 & D1 & _); [lia|]. rewrite E1. exists b1, (pos - 1).
    split; [done|]. rewrite D1, Hu by lia. cbn [app]. do 2 f_equal. lia.
Qed.

Lemma dec_digit c : is_dec c → is_digit 10 c = true ∧ dval c = c - 48.
Proof.
  unfold is_dec, is_digit, dval, digit, isdigit. intros Hc. destruct (Z.leb_spec 48 c), (Z.leb_spec c 57); try lia. cbn [andb].
  split; [apply Z.ltb_lt; lia|done].
Qed.

Lemma value_app base v l k : value base v (l ++ k) = value base (value base v l) k.
Proof. apply foldl_app. Qed.

Lemma value_decimal fuel n : 0 ≤ n < 10 ^ Z.of_nat fuel → value 10 0 (decimal fuel n) = n.
Proof.
  revert n. induction fuel as [|fuel IH]; intros n Hn; [simpl in *; lia|]. cbn [decimal]. destruct (Z.ltb_spec n 10).
  - rewrite value_cons. cbn [value foldl]. rewrite (proj2 (dec_digit (n + 48) ltac:(unfold is_dec; lia))). unfold value. simpl. lia.
  - rewrite Nat2Z.inj_succ, Z.pow_succ_r in Hn by lia. pose proof (Z.mod_pos_bound n 10 ltac:(lia)). pose proof (Z.div_mod n 10 ltac:(lia)).
    rewrite value_app, IH by (split; [apply Z.div_pos; lia|apply Z.div_lt_upper_bound; lia]). rewrite value_cons.
    rewrite (proj2 (dec_digit (n `mod` 10 + 48) ltac:(unfold is_dec; lia))). unfold value. simpl. lia.
Qed.

Lemma cstring_app l rest : 0 ∉ l → cstring (l ++ 0 :: rest) = Ok l.
Proof.
  induction l as [|c l IH]; intros H; [done|]. apply not_elem_of_cons in H as [Hc H]. cbn [app cstring].
  destruct (Z.eqb_spec c 0); [lia|]. by rewrite IH.
Qed.

Lemma dec_no_zero l : Forall is_dec l → 0 ∉ l.
Proof. rewrite Forall_forall. intros H H0%H. unfold is_dec in H0. lia. Qed.

(** The text of a number: its decimal digits. *)
Lemma longlong_to_string_ok n flag :
  0 ≤ n < 2 ^ 64 →
  let neg := has_flag flag SIGNEDFLAG && (s64 n <? 0) in
  let a := if neg then u64 (- n) else n in
  ∃ buf pos, printf_longlong_to_string num_buffer n 32 flag =
      Ok (buf, pos, if neg then 45 else if has_flag flag SHOWSIGNFLAG then 43 else if has_flag flag BLANKPOSFLAG then 32 else 0) ∧
    cstring (zdrop pos buf) = Ok (decimal 20 a) ∧ 0 ≤ a < 10 ^ 20.
Proof.
  intros Hn neg a. unfold printf_longlong_to_string. fold neg. cbv zeta. fold a.
  assert (0 ≤ a < 2 ^ 64) as Ha by (unfold a; destruct neg; [apply u64_range|done]). assert (0 ≤ a < 10 ^ 20) as Ha2 by lia.
  destruct (put_ok num_buffer (32 - 1) 0) as (b0 & E0 & L0 & D0 & _); [done|]. rewrite E0. cbn [mbind res_bind].
  destruct (dec_digits_ok 20 (Z.to_nat 32) b0 (32 - 1) a) as (b1 & p1 & E1 & D1); [done|lia|rewrite L0; done|]. rewrite E1.
  exists b1, p1. split_and!; [done| |lia..]. rewrite D1, D0. apply cstring_app, dec_no_zero. by apply (decimal_dec 20).
Qed.

(** * Printing and reading back *)

Lemma concat_chars n c : concat (chars n c) = replicate (Z.to_nat n) c.
Proof. unfold chars. induction (Z.to_nat n) as [|k IH]; [done|]. simpl. by rewrite IH. Qed.

Lemma flag_add_other f g sp : Z.land f g = 0 → flag_set f (add_flag g sp) = flag_set f sp.
Proof.
  intros H. unfold flag_set, has_flag, add_flag. cbn [f_flags]. f_equal. f_equal. rewrite Z.land_lor_distr_l, (Z.land_comm g f), H. apply Z.lor_0_r.
Qed.

Definition blanks (l : list Z) : Prop := Forall (λ c, c = 32) l.
Definition zeros (l : list Z) : Prop := Forall (λ c, c = 48) l.

Lemma blanks_replicate n : blanks (replicate n 32).
Proof. by apply Forall_replicate. Qed.
Lemma zeros_replicate n : zeros (replicate n 48).
Proof. by apply Forall_replicate. Qed.

Definition sign_text (signchar : Z) : list Z := if (signchar =? 43) || (signchar =? 45) then [signchar] else [].

Lemma justify_shape c sp signchar ds sl fill :
  c ≠ 120 → signchar = 0 ∨ signchar = 43 ∨ signchar = 45 ∨ signchar = 32 → sl - fill = zlen ds →
  ∃ b z t, concat (justify c sp signchar ds sl fill) = b ++ sign_text signchar ++ z ++ ds ++ t ∧ blanks b ∧ zeros z ∧ blanks t.
Proof.
  intros Hc Hsign Hsl. unfold justify. destruct (Z.eqb_spec c 120); [done|]. cbv zeta. cbn [andb]. set (w := if negb _ && _ then _ else _). clearbody w.
  assert (ztake (sl - fill) ds = ds) as -> by (rewrite Hsl; unfold ztake, zlen; rewrite Nat2Z.id; apply firstn_all).
  assert (∃ b0, concat (if signchar =? 0 then [] else [[signchar]]) = b0 ++ sign_text signchar ∧ blanks b0) as (b0 & Es & Hb0).
  { destruct Hsign as [->|[->|[->| ->]]]; [by exists []; split; [|constructor]..|exists [32]; split; [done|by repeat constructor]]. }
  cbn [app].
  destruct (flag_set LEFTFORMATFLAG sp); [|destruct (flag_set LEADZEROFLAG sp)];
    rewrite ?concat_app, ?concat_chars, ?Es; cbn [concat app]; rewrite ?app_nil_r, <- ?app_assoc.
  - eexists b0, _, _. split; [reflexivity|]. split_and!; [done|apply zeros_replicate|apply blanks_replicate].
  - exists b0, (replicate (Z.to_nat (w - sl)) 48 ++ replicate (Z.to_nat fill) 48), []. rewrite app_nil_r, <- !app_assoc. split; [done|].
    split_and!; [done|apply Forall_app; split; apply zeros_replicate|constructor].
  - exists (replicate (Z.to_nat (w - sl)) 32 ++ b0), (replicate (Z.to_nat fill) 48), []. rewrite app_nil_r, <- !app_assoc. split; [done|].
    split_and!; [apply Forall_app; split; [apply blanks_replicate|done]|apply zeros_replicate|constructor].
Qed.

(** A signed number is blanks, its sign, zeros, its digits and blanks, whatever the
    flags, the width and the precision. *)
Lemma field_shape c sp n signchar ds :
  c = 100 ∨ c = 105 → signchar = 0 ∨ signchar = 43 ∨ signchar = 45 ∨ signchar = 32 →
  0 ≤ precision_num sp < 2 ^ 32 → ¬ (flag_set HAS_PRECISION sp = true ∧ precision_num sp = 0 ∧ n = 0) →
  ∃ b z t, concat (field c sp n signchar ds) = b ++ sign_text signchar ++ z ++ ds ++ t ∧ blanks b ∧ zeros z ∧ blanks t.
Proof.
  intros Hc Hsign Hp Hno. unfold field.
  assert (((c =? 100) || (c =? 105) || (c =? 117) || (c =? 120)) = true) as -> by (by destruct Hc as [->| ->]).
  assert ((c =? 115) = false) as -> by (by destruct Hc as [->| ->]). assert (c ≠ 120) as Hx by lia. cbn [andb].
  destruct (flag_set HAS_PRECISION sp) eqn:Eprec; [|apply justify_shape; [done..|lia]]. cbn [precision_num drop_flag].
  destruct ((precision_num sp =? 0) && (n =? 0)) eqn:E0; [exfalso; apply Hno; apply andb_true_iff in E0 as [?%Z.eqb_eq ?%Z.eqb_eq]; done|].
  destruct (Z.ltb_spec (zlen ds) (precision_num sp)); apply justify_shape; try done; [|lia]. pose proof (zlen_nonneg ds). rewrite u32_small; lia.
Qed.

Lemma value_zeros z ds : zeros z → value 10 0 (z ++ ds) = value 10 0 ds.
Proof. intros Hz. rewrite value_app. f_equal. induction Hz as [|c z -> _ IH]; [done|]. by rewrite value_cons. Qed.

(** C18: what [%ld] prints of a number, with any flags, width and precision, [strtol]
    reads back as the same number without an error.  The one exception is zero with a
    precision of zero, of which nothing is printed. *)
Theorem printf_strtol_roundtrip c sp n ap written m :
  c = 100 ∨ c = 105 → flag_set LONGFLAG sp = true → 0 ≤ precision_num sp < 2 ^ 32 →
  ¬ (flag_set HAS_PRECISION sp = true ∧ precision_num sp = 0 ∧ n = 0) → - 2 ^ 63 ≤ n < 2 ^ 63 →
  ∃ chunks, convert c sp (n :: ap) written m = Ok (chunks, ap, m) ∧
    ∀ m' p, str_at m' p (concat chunks) → ∃ e, strtol p 10 m' = Ok (n, e, false).
Proof.
  intros Hc Hl Hp Hno Hn. unfold convert.
  destruct (Z.eqb_spec c 37), (Z.eqb_spec c 99), (Z.eqb_spec c 115); try lia. assert (((c =? 105) || (c =? 100)) = true) as -> by (by destruct Hc as [->| ->]).
  cbn [va_arg mbind res_bind]. assert (signed_arg sp n = n) as -> by (unfold signed_arg; rewrite Hl; destruct (flag_set LONGLONGFLAG sp); by apply s64_small).
  set (sp' := add_flag SIGNEDFLAG sp). destruct (longlong_to_string_ok (u64 n) (f_flags sp')) as (buf & pos & -> & Hs & Ha); [apply u64_range|].
  assert (has_flag (f_flags sp') SIGNEDFLAG = true) as Hsg.
  { unfold sp', add_flag, has_flag. cbn [f_flags]. rewrite Z.land_lor_distr_l. apply negb_true_iff, Z.eqb_neq. intros [_ H]%Z.lor_eq_0_iff. done. }
  rewrite Hsg in *. cbn [andb] in *. assert (s64 (u64 n) = n) as Hsn by (unfold s64, u64; rewrite Z.add_mod_idemp_l by done; by apply s64_small).
  rewrite Hsn in *. cbn [mbind res_bind]. rewrite Hs. cbn [mbind res_bind].
  set (sc := if n <? 0 then 45 else _) in *. set (a := if n <? 0 then u64 (- u64 n) else u64 n) in *.
  assert (a = Z.abs n) as Ea.
  { unfold a. destruct (Z.ltb_spec n 0); [|rewrite u64_small; lia].
    assert (u64 n = n + 2 ^ 64) as -> by (unfold u64; rewrite <- (Z.mod_add n 1), Z.mod_small by lia; lia).
    unfold u64. replace (- (n + 2 ^ 64)) with (- n + (-1) * 2 ^ 64) by lia. rewrite Z.mod_add, Z.mod_small by lia. lia. }
  assert ((sc = 0 ∨ sc = 43 ∨ sc = 45 ∨ sc = 32) ∧ (sc = 45 ↔ n < 0)) as [Hsc Hneg].
  { unfold sc. destruct (Z.ltb_spec n 0), (has_flag (f_flags sp') SHOWSIGNFLAG), (has_flag (f_flags sp') BLANKPOSFLAG); lia. }
  clearbody sc a. eexists. split; [reflexivity|]. intros m' p Hstr.
  destruct (field_shape c sp' (u64 n) sc (decimal 20 a)) as (b & z & t & Ef & Hb & Hz & Ht); [done..| |].
  { unfold sp'. rewrite flag_add_other by done. intros (H1 & H2 & H3). apply Hno. split_and!; [done..|]. rewrite <- Hsn, H3. done. }
  rewrite Ef in Hstr. destruct (decimal_dec 20 a Ha) as [Hd Hne]. assert (Forall (λ c, is_digit 10 c = true) (decimal 20 a)) as Hdig.
  { eapply Forall_impl; [exact Hd|]. intros x Hx. by apply dec_digit. }
  eexists. rewrite (strtol_ok p 10 m' b (sign_text sc) (z ++ decimal 20 a) t).
  - rewrite value_zeros, value_decimal by done. assert (sign_of (sign_text sc) = (n <? 0)) as ->.
    { unfold sign_of, sign_text. destruct (Z.ltb_spec n 0); [by rewrite (proj2 Hneg)|]. destruct Hsc as [->|[->|[->| ->]]]; [done..|lia|done]. }
    unfold signed_, limit. destruct (Z.ltb_spec n 0); rewrite Z.min_l by lia; rewrite (proj2 (Z.ltb_ge _ _)) by lia; do 3 f_equal; lia.
  - done.
  - done.
  - by rewrite <- app_assoc.
  - eapply Forall_impl; [exact Hb|]. by intros x ->.
  - unfold sign_text. destruct Hsc as [->|[->|[->| ->]]]; cbn; rewrite !elem_of_cons; auto.
  - intros [_ ?]%app_nil. by apply Hne; [lia|].
  - apply Forall_app. split; [|done]. eapply Forall_impl; [exact Hz|]. by intros x ->.
  - destruct Ht as [|x t -> _]; done.
Qed.

(** * Truncation *)

(** All of the output. *)
Definition collect (ch acc : list Z) : res (Z * list Z) := Ok (s32 (zlen ch), acc ++ ch).

Lemma zlen_prefix (l k : list Z) : l `prefix_of` k → zlen l ≤ zlen k.
Proof. intros H%prefix_length. unfold zlen. lia. Qed.

Lemma emit_collect chunks acc w o acc' w' :
  emit collect chunks acc w = Ok (o, acc', w') → acc `prefix_of` acc' ∧ (w = zlen acc → zlen acc' < 2 ^ 31 → o = None ∧ w' = zlen acc').
Proof.
  revert acc w. induction chunks as [|ch chunks IH]; intros acc w E; cbn [emit] in E; [by injection E as <- <- <-|].
  cbn [collect mbind res_bind] in E. pose proof (zlen_nonneg ch). pose proof (zlen_nonneg acc).
  assert (acc `prefix_of` acc ++ ch) as Hpre by (by apply prefix_app_r). destruct (Z.ltb_spec (s32 (zlen ch)) 0) as [Hneg|Hpos].
  - injection E as <- <- <-. split; [done|]. intros _ Hb. rewrite zlen_app in Hb. rewrite s32_small in Hneg; lia.
  - apply IH in E as [Hp Hw]. split; [by etransitivity|]. intros -> Hb. apply Hw; [|done]. pose proof (zlen_prefix _ _ Hp) as Hz. rewrite zlen_app in Hz |- *.
    rewrite s32_small, u64_small; lia.
Qed.

Lemma engine_collect fuel fmt ap acc w m r full m' :
  printf_engine_loop collect fuel fmt ap acc w m = Ok (r, full, m') →
  acc `prefix_of` full ∧ (w = zlen acc → zlen full < 2 ^ 31 → r = zlen full).
Proof.
  revert fmt ap acc w m. induction fuel as [|fuel IH]; intros fmt ap acc w m E; [done|]. cbn [printf_engine_loop] in E.
  destruct (regular (S (size m)) fmt m) as [[[s c] fmt']|f]; [|done]. cbn [mbind res_bind] in E.
  destruct (emit collect [s] acc w) as [[[o acc1] w1]|f] eqn:E1; [|done]. apply emit_collect in E1 as [P1 W1]. cbn [mbind res_bind] in E.
  pose proof (zlen_nonneg full).
  destruct o as [e|]; [split; [naive_solver|]; intros Hw Hb; exfalso; naive_solver|].
  destruct (c =? 0). { split; [naive_solver|]. intros Hw Hb. injection E as <- <- <-. destruct (W1 Hw Hb) as [_ ->]. apply s32_small. pose proof (zlen_nonneg acc1). lia. }
  destruct (next_format (S (size m)) fmt' (mk_fspec 0 0 0) ap m) as [[[[[c' sp] ap'] fmt2]|]|f]; [| |done]; cbn [mbind res_bind] in E.
  2:{ split; [naive_solver|]. intros Hw Hb. injection E as <- <- <-. destruct (W1 Hw Hb) as [_ ->]. apply s32_small. pose proof (zlen_nonneg acc1). lia. }
  destruct (convert c' sp ap' w1 m) as [[[chunks ap2] m2]|f]; [|done]. cbn [mbind res_bind] in E.
  destruct (emit collect chunks acc1 w1) as [[[o2 acc2] w2]|f] eqn:E2; [|done]. apply emit_collect in E2 as [P2 W2]. cbn [mbind res_bind] in E.
  destruct o2 as [e|].
  - injection E as <- <- <-. split; [by etransitivity|]. intros Hw Hb. apply W1 in Hw as [_ ->]; [|pose proof (zlen_prefix _ _ P2); lia].
    by destruct (W2 eq_refl Hb).
  - apply IH in E as [P3 W3]. split; [by do 2 (etransitivity; [eassumption|])|]. intros Hw Hb.
    pose proof (zlen_prefix _ _ P2). pose proof (zlen_prefix _ _ P3). apply W1 in Hw as [_ ->]; [|lia]. destruct (W2 eq_refl ltac:(lia)) as [_ ->]. by apply W3.
Qed.

Section vsnprintf.
Context (str : list Z) (len : Z) (Hlen : 0 ≤ len ≤ zlen str).

(** The buffer has the beginning of the output. *)
Definition has_begin (acc : list Z) (st : list Z * Z) : Prop :=
  st.2 = Z.min (zlen acc) len ∧ st.1 = (u8 <$> ztake st.2 acc) ++ zdrop st.2 str.

Lemma has_begin_len acc st : has_begin acc st → zlen st.1 = zlen str ∧ 0 ≤ st.2 ≤ len.
Proof.
  intros [Hp Ho]. pose proof (zlen_nonneg acc). assert (0 ≤ st.2 ≤ len ∧ st.2 ≤ zlen acc) as Hb by lia. split; [|lia]. rewrite Ho, zlen_app.
  rewrite zlen_zdrop by lia. assert (zlen (u8 <$> ztake st.2 acc) = st.2) as ->; [|lia].
  unfold zlen. rewrite length_fmap. fold (zlen (ztake st.2 acc)). apply zlen_ztake. lia.
Qed.

Lemma vsnprintf_output_ok ch acc o pos :
  has_begin acc (o, pos) → ∃ st, vsnprintf_output len ch o pos = Ok st ∧ has_begin (acc ++ ch) st.
Proof.
  revert acc o pos. induction ch as [|c ch IH]; intros acc o pos H; [exists (o, pos); by rewrite app_nil_r|]. cbn [vsnprintf_output].
  pose proof (has_begin_len _ _ H) as [Hl Hp]. destruct H as [Hpos Ho]. cbn [fst snd] in *. rewrite cons_middle, app_assoc.
  assert (zlen (acc ++ [c]) = zlen acc + 1) as Hac by (rewrite zlen_app; done). pose proof (zlen_nonneg acc).
  destruct (Z.ltb_spec pos len) as [Hlt|Hge].
  - destruct (put_ok o pos c) as (o' & E & L' & D & T); [lia|]. rewrite E. cbn [mbind res_bind]. apply IH. split; cbn [fst snd]; [lia|].
    assert (pos = zlen acc) as Ep by lia. rewrite <- (take_drop (Z.to_nat pos) o'). fold (ztake pos o') (zdrop pos o'). rewrite D, T, Ho.
    assert (zlen (u8 <$> ztake pos acc) = pos) as Hz by (unfold zlen; rewrite length_fmap; fold (zlen (ztake pos acc)); apply zlen_ztake; lia).
    assert (ztake pos ((u8 <$> ztake pos acc) ++ zdrop pos str) = u8 <$> ztake pos acc) as ->.
    { unfold ztake at 1. apply take_app_length'. unfold zlen in Hz. lia. }
    assert (zdrop (pos + 1) ((u8 <$> ztake pos acc) ++ zdrop pos str) = zdrop (pos + 1) str) as ->.
    { unfold zdrop. rewrite drop_app_ge by (unfold zlen in Hz; lia). rewrite drop_drop. f_equal. unfold zlen in Hz. lia. }
    assert (ztake (pos + 1) (acc ++ [c]) = acc ++ [c]) as -> by (apply firstn_all2; unfold zlen in *; lia).
    assert (ztake pos acc = acc) as -> by (apply firstn_all2; unfold zlen in *; lia). rewrite fmap_app. by rewrite <- app_assoc.
  - apply IH. split; cbn [fst snd]; [lia|]. rewrite Ho at 1. f_equal. f_equal. unfold ztake. symmetry. apply take_app_le. unfold zlen in *. lia.
Qed.

Definition sim (r1 : res (Z * list Z * mem)) (r2 : res (Z * (list Z * Z) * mem)) : Prop :=
  match r1, r2 with
  | Ok (e1, acc, m1), Ok (e2, st, m2) => e1 = e2 ∧ m1 = m2 ∧ has_begin acc st
  | Fault f1, Fault f2 => f1 = f2
  | _, _ => False
  end.

Lemma emit_sim chunks acc st w :
  has_begin acc st → ∃ o acc' st' w', emit collect chunks acc w = Ok (o, acc', w') ∧ emit (vsnprintf_out len) chunks st w = Ok (o, st', w') ∧ has_begin acc' st'.
Proof.
  revert acc st w. induction chunks as [|ch chunks IH]; intros acc st w H; [by exists None, acc, st, w|]. cbn [emit].
  destruct st as [o pos]. destruct (vsnprintf_output_ok ch acc o pos H) as (st' & E & H').
  assert (vsnprintf_out len ch (o, pos) = Ok (s32 (zlen ch), st')) as -> by (unfold vsnprintf_out; simpl; by rewrite E). cbn [collect mbind res_bind].
  destruct (s32 (zlen ch) <? 0); [|by apply IH]. by eexists _, _, _, _.
Qed.

(** The engine does the same with either output function. *)
Lemma engine_sim fuel fmt ap acc st w m :
  has_begin acc st → sim (printf_engine_loop collect fuel fmt ap acc w m) (printf_engine_loop (vsnprintf_out len) fuel fmt ap st w m).
Proof.
  revert fmt ap acc st w m. induction fuel as [|fuel IH]; intros fmt ap acc st w m H; [done|]. cbn [printf_engine_loop].
  destruct (regular (S (size m)) fmt m) as [[[s c] fmt']|f]; [|done]. cbn [mbind res_bind].
  destruct (emit_sim [s] acc st w H) as (o & acc1 & st1 & w1 & -> & -> & H1). cbn [mbind res_bind]. destruct o; [done|]. destruct (c =? 0); [done|].
  destruct (next_format (S (size m)) fmt' (mk_fspec 0 0 0) ap m) as [[[[[c' sp] ap'] fmt2]|]|f]; [|done|done]. cbn [mbind res_bind].
  destruct (convert c' sp ap' w1 m) as [[[chunks ap2] m2]|f]; [|done]. cbn [mbind res_bind].
  destruct (emit_sim chunks acc1 st1 w1 H1) as (o2 & acc2 & st2 & w2 & -> & -> & H2). cbn [mbind res_bind]. destruct o2; [done|]. by apply IH.
Qed.

(** C19: [vsnprintf] prints what the engine prints, cut off at [len - 1] characters and
    ended by a zero byte; it writes nothing behind [len] bytes and returns the length
    of the whole text, whatever the format and the arguments. *)
Theorem vsnprintf_truncates fmt ap m r full m' :
  0 < len → printf_engine collect [] fmt ap m = Ok (r, full, m') → zlen full < 2 ^ 31 →
  let k := Z.min (len - 1) (zlen full) in
  ∃ out, vsnprintf str len fmt ap m = Ok (zlen full, out, m') ∧ zlen out = zlen str ∧
    ztake (k + 1) out = (u8 <$> ztake k full) ++ [0] ∧ zdrop len out = zdrop len str.
Proof.
  intros Hpos E Hb k. pose proof (zlen_nonneg full). unfold vsnprintf, printf_engine in *.
  assert (has_begin [] (str, 0)) as H0 by (split; cbn [fst snd]; [unfold zlen; simpl; lia|done]).
  pose proof (engine_sim (S (size m)) fmt ap [] (str, 0) 0 m H0) as Hsim. rewrite E in Hsim.
  destruct (engine_collect _ _ _ _ _ _ _ _ _ E) as [_ Hr]. specialize (Hr eq_refl Hb). subst r.
  destruct (printf_engine_loop (vsnprintf_out len) _ _ _ _ _ _) as [[[e2 [o pos]] m2]|]; [|done]. destruct Hsim as (<- & <- & H1).
  pose proof (has_begin_len _ _ H1) as [Hl Hp]. destruct H1 as [Hpos1 Ho]. cbn [fst snd] in *. cbn [mbind res_bind].
  destruct (Z.eqb_spec len 0); [lia|]. set (q := if len <=? pos then len - 1 else zlen full).
  assert (q = k ∧ k ≤ pos ≤ k + 1) as [Hq Hk] by (unfold q, k; destruct (Z.leb_spec len pos); lia).
  destruct (put_ok o q 0) as (o' & E' & L' & D' & T'); [lia|].
  assert ((if len <=? pos then put o (len - 1) 0 else put o (zlen full) 0) = Ok o') as -> by (unfold q in E'; by destruct (len <=? pos)).
  exists o'. split; [done|]. split; [lia|]. rewrite Hq in *.
  assert (zlen (u8 <$> ztake pos full) = pos) as Hz by (unfold zlen; rewrite length_fmap; fold (zlen (ztake pos full)); apply zlen_ztake; lia). split.
  - rewrite <- (ztake_app_zdrop k 1) by lia. rewrite T', D'. change (ztake 1 (u8 0 :: zdrop (k + 1) o)) with [0]. f_equal. rewrite Ho. unfold ztake in *.
    rewrite take_app_le by (unfold zlen in Hz; lia). rewrite <- fmap_take, take_take. do 2 f_equal. lia.
  - assert (zdrop len o' = zdrop (len - (k + 1)) (zdrop 1 (zdrop k o'))) as -> by (unfold zdrop; rewrite !drop_drop; f_equal; lia).
    rewrite D'. change (zdrop 1 (u8 0 :: zdrop (k + 1) o)) with (zdrop (k + 1) o). unfold zdrop. rewrite drop_drop, Ho.
    rewrite drop_app_ge by (unfold zlen in Hz; lia). unfold zdrop. rewrite drop_drop. f_equal. unfold zlen in Hz. lia.
Qed.
End vsnprintf.

(** * Examples *)

(** The format [n=%5d!] and the number -42. *)
Definition ex_fmt : mem := mem_of 800 [110; 61; 37; 53; 100; 33; 0].

Lemma vsnprintf_truncates_witness :
  ∃ out, vsnprintf (replicate 10 7) 6 800 [-42] ex_fmt = Ok (8, out, ex_fmt) ∧ zlen out = 10 ∧
    ztake 6 out = [110; 61; 32; 32; 45; 0] ∧ zdrop 6 out = [7; 7; 7; 7].
Proof.
  destruct (vsnprintf_truncates (replicate 10 7) 6 ltac:(done) 800 [-42] ex_fmt 8 [110; 61; 32; 32; 45; 52; 50; 33] ex_fmt) as (out & E & H); [done..|].
  exists out. split; [exact E|exact H].
Defined.

(** [%08ld] of -42. *)
Lemma printf_strtol_roundtrip_witness :
  ∃ e, strtol 500 10 (mem_of 500 [45; 48; 48; 48; 48; 48; 52; 50; 0]) = Ok (-42, e, false).
Proof.
  destruct (printf_strtol_roundtrip 100 (mk_fspec (Z.lor LONGFLAG LEADZEROFLAG) 8 0) (-42) [] 0 ∅) as (chunks & E & H).
  - by left.
  - done.
  - done.
  - by intros (? & _ & ?).
  - done.
  - vm_compute in E. injection E as <-. apply H. apply str_at_mem_of; [done| |done]. apply (bool_decide_unpack _). by vm_compute.
Defined.
