(* ===== verification/Wire.v ===== *)
(** Bytes in transit: [lib/bytes/bytes.c], [lib/iovec/iovec.c] and the checksum of
    [lib/minip/chksum.c].

    A buffer is a list of bytes and an access outside of it is a fault.  The machine
    is little endian. *)
From stdpp Require Import prelude.
From S2P Require Import Prelude Bytes.

#[local] Open Scope Z_scope.

(** * bytes.c *)

Definition get (buf : list Z) (i : Z) : res Z := of_option BadAccess (znth buf i).

Definition bytes_read_u16_be (buf : list Z) : res Z :=
  b0 ← get buf 0; b1 ← get buf 1; Ok (Z.lor (Z.shiftl b0 8) b1).
Definition bytes_read_u24_be (buf : list Z) : res Z :=
  b0 ← get buf 0; b1 ← get buf 1; b2 ← get buf 2; Ok (Z.lor (Z.lor (Z.shiftl b0 16) (Z.shiftl b1 8)) b2).
Definition bytes_read_u32_be (buf : list Z) : res Z :=
  b0 ← get buf 0; b1 ← get buf 1; b2 ← get buf 2; b3 ← get buf 3;
  Ok (Z.lor (Z.lor (Z.lor (Z.shiftl b0 24) (Z.shiftl b1 16)) (Z.shiftl b2 8)) b3).

(** [*buf++ = v]: the buffer and the index the pointer has reached. *)
Definition push (st : list Z * Z) (v : Z) : res (list Z * Z) :=
  buf ← mem_write st.2 [u8 v] st.1; Ok (buf, st.2 + 1).

Definition bytes_write_u16_be (buf : list Z) (val : Z) : res (list Z * Z) :=
  st ← push (buf, 0) (Z.land (Z.shiftr val 8) 0xFF); push st (Z.land val 0xFF).
Definition bytes_write_u24_be (buf : list Z) (val : Z) : res (list Z * Z) :=
  st ← push (buf, 0) (Z.land (Z.shiftr val 16) 0xFF); st ← push st (Z.land (Z.shiftr val 8) 0xFF);
  push st (Z.land val 0xFF).
Definition bytes_write_u32_be (buf : list Z) (val : Z) : res (list Z * Z) :=
  st ← push (buf, 0) (Z.land (Z.shiftr val 24) 0xFF); st ← push st (Z.land (Z.shiftr val 16) 0xFF);
  st ← push st (Z.land (Z.shiftr val 8) 0xFF); push st (Z.land val 0xFF).

Definition bytes_read_u16_le (buf : list Z) : res Z :=
  b1 ← get buf 1; b0 ← get buf 0; Ok (Z.lor (Z.shiftl b1 8) b0).
Definition bytes_read_u24_le (buf : list Z) : res Z :=
  b2 ← get buf 2; b1 ← get buf 1; b0 ← get buf 0; Ok (Z.lor (Z.lor (Z.shiftl b2 16) (Z.shiftl b1 8)) b0).
Definition bytes_read_u32_le (buf : list Z) : res Z :=
  b3 ← get buf 3; b2 ← get buf 2; b1 ← get buf 1; b0 ← get buf 0;
  Ok (Z.lor (Z.lor (Z.lor (Z.shiftl b3 24) (Z.shiftl b2 16)) (Z.shiftl b1 8)) b0).

Definition bytes_write_u16_le (buf : list Z) (val : Z) : res (list Z * Z) :=
  st ← push (buf, 0) (Z.land val 0xFF); push st (Z.land (Z.shiftr val 8) 0xFF).
Definition bytes_write_u24_le (buf : list Z) (val : Z) : res (list Z * Z) :=
  st ← push (buf, 0) (Z.land val 0xFF); st ← push st (Z.land (Z.shiftr val 8) 0xFF);
  push st (Z.land (Z.shiftr val 16) 0xFF).
Definition bytes_write_u32_le (buf : list Z) (val : Z) : res (list Z * Z) :=
  st ← push (buf, 0) (Z.land val 0xFF); st ← push st (Z.land (Z.shiftr val 8) 0xFF);
  st ← push st (Z.land (Z.shiftr val 16) 0xFF); push st (Z.land (Z.shiftr val 24) 0xFF).

(** Neighbouring groups of [k] bits change places. *)
Definition delta_swap (k mask val : Z) : Z := Z.lor (Z.land (Z.shiftr val k) mask) (Z.shiftl (Z.land val mask) k).

Definition bytes_swap_bits_u8 (val : Z) : Z :=
  let val := u8 (delta_swap 1 0x55 val) in let val := u8 (delta_swap 2 0x33 val) in u8 (delta_swap 4 0x0f val).
Definition bytes_swap_bits_u16 (val : Z) : Z :=
  let u16 x := x `mod` 2 ^ 16 in
  let val := u16 (delta_swap 1 0x5555 val) in let val := u16 (delta_swap 2 0x3333 val) in
  let val := u16 (delta_swap 4 0x0f0f val) in u16 (delta_swap 8 0x00ff val).
Definition bytes_swap_bits_u24 (val : Z) : Z :=
  let val := Z.land val 0x00FFFFFF in
  let val := u32 (delta_swap 1 0x555555 val) in let val := u32 (delta_swap 2 0x333333 val) in
  let val := u32 (delta_swap 4 0x0f0f0f val) in u32 (Z.lor (delta_swap 16 0x0000ff val) (Z.land val 0x00FF00)).
Definition bytes_swap_bits_u32 (val : Z) : Z :=
  let val := u32 (delta_swap 1 0x55555555 val) in let val := u32 (delta_swap 2 0x33333333 val) in
  let val := u32 (delta_swap 4 0x0f0f0f0f val) in let val := u32 (delta_swap 8 0x00ff00ff val) in
  u32 (delta_swap 16 0x0000ffff val).

(** * iovec.c *)

(** [iov] is the array of the chunks, [iov_cnt] how many of them the caller names; an
    entry behind the end of the array is a fault. *)
Fixpoint size_loop (iov_cnt : nat) (iov : list (list Z)) (c : Z) : res Z :=
  match iov_cnt, iov with
  | O, _ => Ok c
  | S n, v :: iov => size_loop n iov (u64 (c + zlen v))
  | S _, [] => Fault BadAccess
  end.

Definition iovec_size (iov : option (list (list Z))) (iov_cnt : Z) : res Z :=
  match iov with
  | None => Ok ERR_INVALID_ARGS
  | Some iov => c ← size_loop (Z.to_nat iov_cnt) iov 0; Ok (s64 c)
  end.

Fixpoint to_membuf_loop (iov_cnt : nat) (buf : list Z) (buf_pos buf_len : Z) (iov : list (list Z)) (iov_pos : Z) : res (Z * list Z) :=
  match iov_cnt, iov with
  | O, _ => Ok (buf_pos, buf)
  | S _, [] => Fault BadAccess
  | S n, v :: iov =>
      if zlen v <=? iov_pos then to_membuf_loop n buf buf_pos buf_len iov (u32 (iov_pos - zlen v)) else
      let to_copy := u64 (zlen v - iov_pos) in
      let to_copy := if buf_len <? to_copy then buf_len else to_copy in
      d ← mem_read v iov_pos to_copy;
      buf ← mem_write buf_pos d buf;
      let buf_pos := u32 (buf_pos + to_copy) in
      let buf_len := u32 (buf_len - to_copy) in
      if buf_len =? 0 then Ok (buf_pos, buf) else to_membuf_loop n buf buf_pos buf_len iov 0
  end.

Definition iovec_to_membuf (buf : option (list Z)) (buf_len : Z) (iov : option (list (list Z))) (iov_cnt iov_pos : Z) : res (Z * option (list Z)) :=
  match buf, iov with
  | Some b, Some iov => '(n, b) ← to_membuf_loop (Z.to_nat iov_cnt) b 0 buf_len iov iov_pos; Ok (n, Some b)
  | _, _ => Ok (ERR_INVALID_ARGS, buf)
  end.

(** * chksum.c *)

Definition fold16 (sum : Z) : Z := u32 (Z.land sum 0xffff + Z.shiftr sum 16).

(** [while (len >= 2)], one round per unit of fuel: the sum, the index [buf] has
    reached and what is left of [len]. *)
Fixpoint ones_sum16_loop (fuel : nat) (sum : Z) (m : list Z) (buf len : Z) : res (Z * Z * Z) :=
  if len <? 2 then Ok (sum, buf, len) else
  match fuel with
  | O => Fault OutOfFuel
  | S fuel =>
      b0 ← get m buf; b1 ← get m (buf + 1);
      let sum := u32 (sum + (b0 + 2 ^ 8 * b1)) in
      let sum := if has_flag sum 0x80000000 then fold16 sum else sum in
      ones_sum16_loop fuel sum m (buf + 2) (len - 2)
  end.

(** [while (sum >> 16)] *)
Fixpoint fold_loop (fuel : nat) (sum : Z) : res Z :=
  match fuel with
  | O => Fault OutOfFuel
  | S fuel => if Z.shiftr sum 16 =? 0 then Ok sum else fold_loop fuel (fold16 sum)
  end.

(** [htons] of a little endian machine. *)
Definition htons (x : Z) : Z := Z.lor (Z.shiftl (Z.land x 0xff) 8) (Z.land (Z.shiftr x 8) 0xff).

(** [if (len)]: the odd byte, also for a negative length. *)
Definition odd_byte (sum : Z) (m : list Z) (buf len : Z) : res Z :=
  if len =? 0 then Ok sum else b ← get m buf; Ok (u32 (sum + htons (Z.shiftl b 8))).

Definition ones_sum16 (sum : Z) (m : list Z) (len : Z) : res Z :=
  '(sum, buf, len) ← ones_sum16_loop (Z.to_nat len) sum m 0 len;
  sum ← odd_byte sum m buf len;
  sum ← fold_loop 4 sum;
  Ok (sum `mod` 2 ^ 16).

(** * The checksum is the ones' complement sum *)

Definition is_byte (b : Z) : Prop := 0 ≤ b < 256.

(** The sum of the little endian 16 bit words, the odd byte padded with zero. *)
Fixpoint ones_total (l : list Z) : Z :=
  match l with
  | b0 :: b1 :: l => b0 + 2 ^ 8 * b1 + ones_total l
  | [b] => b
  | [] => 0
  end.

(** The representative of [t] modulo [2^16 - 1] that is zero for zero only. *)
Definition ones_ref (t : Z) : Z := if t =? 0 then 0 else 1 + (t - 1) `mod` 65535.

Lemma ones_ref_range t : 0 ≤ ones_ref t ≤ 65535.
Proof. unfold ones_ref. case_match; [lia|]. pose proof (Z.mod_pos_bound (t - 1) 65535). lia. Qed.

Lemma ones_ref_small t : 0 ≤ t ≤ 65535 → ones_ref t = t.
Proof. intros. unfold ones_ref. case_match; [lia|]. rewrite Z.mod_small; lia. Qed.

Lemma ones_ref_shift t q : 0 < t → 0 ≤ q → ones_ref (t + q * 65535) = ones_ref t.
Proof.
  intros. unfold ones_ref. rewrite (proj2 (Z.eqb_neq t 0)), (proj2 (Z.eqb_neq _ 0)) by lia.
  replace (t + q * 65535 - 1) with (t - 1 + q * 65535) by lia. by rewrite Z.mod_add by lia.
Qed.

Lemma fold16_eq s : 0 ≤ s < 2 ^ 32 → fold16 s = s `mod` 65536 + s `div` 65536.
Proof.
  intros. unfold fold16, u32. change 0xffff with (Z.ones 16).
  rewrite Z.land_ones, Z.shiftr_div_pow2 by lia. change (2 ^ 16) with 65536.
  pose proof (Z.mod_pos_bound s 65536). apply Z.mod_small.
  assert (s `div` 65536 < 65536) by (apply Z.div_lt_upper_bound; lia).
  assert (0 ≤ s `div` 65536) by (apply Z.div_pos; lia). lia.
Qed.

Lemma fold16_ref s t : 0 ≤ s < 2 ^ 32 → 0 ≤ t → ones_ref (fold16 s + t) = ones_ref (s + t).
Proof.
  intros Hs Ht. rewrite fold16_eq by done.
  pose proof (Z.div_mod s 65536). pose proof (Z.mod_pos_bound s 65536).
  assert (0 ≤ s `div` 65536) by (apply Z.div_pos; lia).
  destruct (decide (s + t = 0)); [replace s with 0 by lia; by replace t with 0 by lia|].
  rewrite <-(ones_ref_shift (s `mod` 65536 + s `div` 65536 + t) (s `div` 65536)) by lia. f_equal. lia.
Qed.

Lemma fold16_le s : 0 ≤ s < 2 ^ 32 → 0 ≤ fold16 s ≤ 65535 + s `div` 65536.
Proof.
  intros. rewrite fold16_eq by done. pose proof (Z.mod_pos_bound s 65536).
  assert (0 ≤ s `div` 65536) by (apply Z.div_pos; lia). lia.
Qed.

Lemma fold_loop_step n s : 0 ≤ s < 2 ^ 32 →
  fold_loop (S n) s = if s <? 65536 then Ok s else fold_loop n (fold16 s).
Proof.
  intros. cbn [fold_loop]. rewrite Z.shiftr_div_pow2 by lia. change (2 ^ 16) with 65536.
  destruct (Z.ltb_spec s 65536); [rewrite Z.div_small by lia; done|].
  rewrite (proj2 (Z.eqb_neq _ _)); [done|].
  assert (1 ≤ s `div` 65536) by (apply Z.div_le_lower_bound; lia). lia.
Qed.

Lemma fold_loop_ok s : 0 ≤ s < 2 ^ 32 → fold_loop 4 s = Ok (ones_ref s).
Proof.
  intros H. pose proof (fold16_le s H) as H1. pose proof (fold16_ref s 0 H ltac:(lia)) as R1.
  assert (s `div` 65536 < 65536) by (apply Z.div_lt_upper_bound; lia).
  pose proof (fold16_le (fold16 s) ltac:(lia)) as H2. pose proof (fold16_ref (fold16 s) 0 ltac:(lia) ltac:(lia)) as R2.
  assert (fold16 s `div` 65536 < 2) by (apply Z.div_lt_upper_bound; lia).
  rewrite !Z.add_0_r in *. rewrite fold_loop_step by lia.
  destruct (Z.ltb_spec s 65536); [by rewrite ones_ref_small by lia|].
  rewrite fold_loop_step by lia.
  destruct (Z.ltb_spec (fold16 s) 65536); [by rewrite <-R1, ones_ref_small by lia|].
  rewrite fold_loop_step by lia.
  assert (fold16 (fold16 s) < 65536).
  { rewrite (fold16_eq (fold16 s)) by lia.
    pose proof (Z.div_mod (fold16 s) 65536). pose proof (Z.mod_pos_bound (fold16 s) 65536). lia. }
  rewrite (proj2 (Z.ltb_lt _ _)) by done. by rewrite <-R1, <-R2, ones_ref_small by lia.
Qed.

Lemma top_flag s : 0 ≤ s < 2 ^ 32 → has_flag s 0x80000000 = (2 ^ 31 <=? s).
Proof.
  intros. change 0x80000000 with (bit 31). rewrite has_flag_bit by lia.
  destruct (Z.leb_spec (2 ^ 31) s).
  - assert (1 ≤ s `div` 2 ^ 31) by (apply Z.div_le_lower_bound; lia).
    assert (s `div` 2 ^ 31 < 2) by (apply Z.div_lt_upper_bound; lia).
    apply Z.testbit_true; [lia|]. by replace (s `div` 2 ^ 31) with 1 by lia.
  - apply Z.testbit_false; [lia|]. rewrite Z.div_small by lia. done.
Qed.

Lemma ones_total_nonneg l : Forall is_byte l → 0 ≤ ones_total l.
Proof.
  revert l. fix IH 1. intros [|b0 [|b1 l]] H; cbn [ones_total]; [lia| |].
  - apply Forall_cons in H as [? _]. unfold is_byte in *. lia.
  - apply Forall_cons in H as [? H]. apply Forall_cons in H as [? H].
    pose proof (IH l H). unfold is_byte in *. lia.
Qed.

Lemma get_app pre b l i : i = zlen pre → get (pre ++ b :: l) i = Ok b.
Proof.
  intros ->. unfold get, znth, zlen. rewrite (proj2 (Z.ltb_ge _ _)) by lia.
  by rewrite Nat2Z.id, list_lookup_middle.
Qed.

(** The loop leaves at most one byte and keeps the sum of what it has read. *)
Lemma ones_sum16_loop_ok fuel pre l sum :
  (length l ≤ fuel)%nat → Forall is_byte l → 0 ≤ sum < 2 ^ 31 →
  ∃ sum' pre' l', ones_sum16_loop fuel sum (pre ++ l) (zlen pre) (zlen l) = Ok (sum', zlen pre', zlen l') ∧
    pre ++ l = pre' ++ l' ∧ (length l' < 2)%nat ∧ Forall is_byte l' ∧ 0 ≤ sum' < 2 ^ 31 ∧
    ones_ref (sum' + ones_total l') = ones_ref (sum + ones_total l).
Proof.
  revert pre l sum. induction fuel as [|fuel IH]; intros pre [|b0 [|b1 l]] sum Hf Hl Hs; cbn [length] in Hf; try lia.
  1,2,3: eexists sum, pre, _; split_and!; [done|done|cbn; lia|done|lia|lia|done].
  apply Forall_cons in Hl as [H0 Hl]. apply Forall_cons in Hl as [H1 Hl]. unfold is_byte in H0, H1.
  pose proof (ones_total_nonneg l Hl).
  assert (zlen (b0 :: b1 :: l) = zlen l + 2) as Hz by (unfold zlen; cbn; lia).
  cbn [ones_sum16_loop ones_total]. rewrite Hz, (proj2 (Z.ltb_ge _ _)) by (pose proof (zlen_nonneg l); lia).
  rewrite (get_app pre b0 (b1 :: l) (zlen pre) eq_refl). cbn -[zlen get].
  rewrite (app_assoc pre [b0] (b1 :: l) : pre ++ b0 :: b1 :: l = _).
  rewrite (get_app (pre ++ [b0]) b1 l) by (unfold zlen; rewrite length_app; cbn; lia). cbn -[zlen get].
  rewrite (app_assoc (pre ++ [b0]) [b1] l : (pre ++ [b0]) ++ b1 :: l = _).
  set (s := u32 (sum + (b0 + 2 ^ 8 * b1))).
  assert (s = sum + (b0 + 2 ^ 8 * b1)) as Es by (apply Z.mod_small; lia). clearbody s.
  rewrite top_flag by lia. pose proof (fold16_le s ltac:(lia)).
  assert (s `div` 65536 < 65536) by (apply Z.div_lt_upper_bound; lia).
  destruct (IH ((pre ++ [b0]) ++ [b1]) l (if 2 ^ 31 <=? s then fold16 s else s)) as (s' & pre' & l' & E & Ea & ? & ? & ? & Er);
    [lia|done|case_match; lia|].
  exists s', pre', l'. split_and!; try done; try lia.
  - rewrite <-E. f_equal; unfold zlen; rewrite ?length_app; cbn; lia.
  - rewrite Er. case_match; [rewrite fold16_ref by lia|]; f_equal; lia.
Qed.

Lemma htons_byte b : is_byte b → htons (Z.shiftl b 8) = b.
Proof.
  intros Hb. unfold htons, is_byte in *. change 0xff with (Z.ones 8).
  rewrite !Z.land_ones, Z.shiftr_div_pow2, !(Z.shiftl_mul_pow2 b) by lia.
  rewrite Z.div_mul, Z.mod_mul, Z.mod_small by lia. done.
Qed.

(** The sum [ones_sum16] returns for a buffer. *)
Lemma ones_sum16_ok sum m :
  Forall is_byte m → 0 ≤ sum < 2 ^ 31 → ones_sum16 sum m (zlen m) = Ok (ones_ref (sum + ones_total m)).
Proof.
  intros Hm Hs. unfold ones_sum16.
  destruct (ones_sum16_loop_ok (Z.to_nat (zlen m)) [] m sum) as (s & pre & l & E & Ea & Hl & Hb & Hs' & Er);
    [unfold zlen; lia|done|done|].
  cbn [app] in E, Ea. change (zlen []) with 0 in E. rewrite E. cbn -[fold_loop odd_byte].
  assert (odd_byte s m (zlen pre) (zlen l) = Ok (s + ones_total l) ∧ ones_total l < 256) as [-> ?].
  { destruct l as [|b [|]]; cbn in Hl; [by rewrite Z.add_0_r| |lia].
    apply Forall_cons in Hb as [Hb _]. unfold odd_byte. cbn -[htons]. rewrite Ea, get_app by done. cbn -[htons].
    rewrite htons_byte by done. unfold is_byte, u32 in *. rewrite Z.mod_small by lia. split; [done|lia]. }
  pose proof (ones_total_nonneg l Hb). cbn -[fold_loop]. rewrite fold_loop_ok by lia. cbn.
  rewrite Er, Z.mod_small; [done|]. pose proof (ones_ref_range (sum + ones_total m)). lia.
Qed.

Lemma ones_total_app pre l : Nat.Even (length pre) → ones_total (pre ++ l) = ones_total pre + ones_total l.
Proof.
  revert pre. fix IH 1. intros [|b0 [|b1 pre]] He; [done| |].
  - destruct He as [k ?]. cbn in *. lia.
  - cbn [app ones_total]. rewrite IH; [lia|]. destruct He as [k ?]. exists (k - 1)%nat. cbn in *. lia.
Qed.

Lemma ones_ref_complement t : 0 ≤ t → ones_ref (t + (65535 - ones_ref t)) = 65535.
Proof.
  intros Ht. destruct (decide (t = 0)) as [->|]; [done|].
  pose proof (ones_ref_range t). pose proof (Z.div_mod (t - 1) 65535 ltac:(lia)).
  assert (0 ≤ (t - 1) `div` 65535) by (apply Z.div_pos; lia).
  assert (ones_ref t = 1 + (t - 1) `mod` 65535) as E by (unfold ones_ref; by rewrite (proj2 (Z.eqb_neq _ _))).
  replace (t + (65535 - ones_ref t)) with (65535 + (t - 1) `div` 65535 * 65535) by lia.
  by rewrite ones_ref_shift by lia.
Qed.

(** [~x] of a [uint16_t], and the two bytes of it in memory. *)
Definition not16 (x : Z) : Z := Z.land (Z.lnot x) 0xffff.
Definition le16 (x : Z) : list Z := [x `mod` 256; x `div` 256].

Lemma not16_eq x : 0 ≤ x ≤ 65535 → not16 x = 65535 - x.
Proof.
  intros. unfold not16. change 0xffff with (Z.ones 16). rewrite Z.land_ones by lia.
  unfold Z.lnot. change (2 ^ 16) with 65536.
  rewrite <-(Z.mod_add (Z.pred (- x)) 1 65536), Z.mod_small by lia. change (Z.ones 16) with 65535. lia.
Qed.

Lemma le16_bytes x : 0 ≤ x ≤ 65535 → Forall is_byte (le16 x) ∧ ∀ l, ones_total (le16 x ++ l) = x + ones_total l.
Proof.
  intros. pose proof (Z.div_mod x 256 ltac:(lia)). pose proof (Z.mod_pos_bound x 256 ltac:(lia)).
  assert (0 ≤ x `div` 256) by (apply Z.div_pos; lia).
  assert (x `div` 256 < 256) by (apply Z.div_lt_upper_bound; lia).
  split; [repeat constructor; unfold is_byte; lia|]. intros l. unfold le16. cbn [app ones_total]. change (2 ^ 8) with 256. lia.
Qed.

(** C21: a header whose checksum field was zero when [~ones_sum16(0, hdr)] was computed and
    then stored into that field, at an even offset, sums to [0xffff], which is what the
    receiving side tests. *)
Theorem header_checksum_verifies pre post :
  Nat.Even (length pre) → Forall is_byte pre → Forall is_byte post →
  ∃ c, ones_sum16 0 (pre ++ le16 0 ++ post) (zlen (pre ++ le16 0 ++ post)) = Ok c ∧
    ones_sum16 0 (pre ++ le16 (not16 c) ++ post) (zlen (pre ++ le16 (not16 c) ++ post)) = Ok 0xffff.
Proof.
  intros He Hpre Hpost.
  assert (∀ x, 0 ≤ x ≤ 65535 → ones_sum16 0 (pre ++ le16 x ++ post) (zlen (pre ++ le16 x ++ post))
                               = Ok (ones_ref (ones_total pre + (x + ones_total post)))) as Hsum.
  { intros x Hx. destruct (le16_bytes x Hx) as [Hb Ht].
    rewrite ones_sum16_ok by (lia || by rewrite !Forall_app). by rewrite ones_total_app, Ht. }
  pose proof (ones_total_nonneg _ Hpre). pose proof (ones_total_nonneg _ Hpost).
  eexists. split; [apply Hsum; lia|].
  set (t := ones_total pre + (0 + ones_total post)). pose proof (ones_ref_range t).
  rewrite not16_eq, Hsum by lia. f_equal.
  etrans; [|apply (ones_ref_complement t); lia]. f_equal. lia.
Qed.

Lemma header_checksum_verifies_witness :
  ∃ c, ones_sum16 0 ([0x45; 0] ++ le16 0 ++ [7]) 5 = Ok c ∧ ones_sum16 0 ([0x45; 0] ++ le16 (not16 c) ++ [7]) 5 = Ok 0xffff.
Proof. apply (header_checksum_verifies [0x45; 0] [7]); [by exists 1%nat| |]; repeat constructor; unfold is_byte; lia. Defined.

Lemma ones_ref_absorb a b : 0 ≤ a → 0 ≤ b → ones_ref (ones_ref a + b) = ones_ref (a + b).
Proof.
  intros Ha Hb. destruct (decide (a = 0)) as [->|]; [done|].
  pose proof (Z.div_mod (a - 1) 65535 ltac:(lia)). pose proof (Z.mod_pos_bound (a - 1) 65535 ltac:(lia)).
  assert (0 ≤ (a - 1) `div` 65535) by (apply Z.div_pos; lia).
  assert (ones_ref a = 1 + (a - 1) `mod` 65535) as -> by (unfold ones_ref; by rewrite (proj2 (Z.eqb_neq _ _))).
  rewrite <-(ones_ref_shift _ ((a - 1) `div` 65535)) by lia. f_equal. lia.
Qed.

(** Summing a buffer in two parts, the first of an even length, gives the sum of the whole. *)
Theorem ones_sum16_chains sum a b :
  Nat.Even (length a) → Forall is_byte a → Forall is_byte b → 0 ≤ sum < 2 ^ 31 →
  (s ← ones_sum16 sum a (zlen a); ones_sum16 s b (zlen b)) = ones_sum16 sum (a ++ b) (zlen (a ++ b)).
Proof.
  intros He Ha Hb Hs. pose proof (ones_total_nonneg _ Ha). pose proof (ones_total_nonneg _ Hb).
  rewrite !ones_sum16_ok by (done || by rewrite Forall_app). cbn -[ones_sum16].
  pose proof (ones_ref_range (sum + ones_total a)). rewrite ones_sum16_ok by (done || lia).
  rewrite ones_ref_absorb, ones_total_app by (done || lia). do 2 f_equal. lia.
Qed.

(** A negative length still reads one byte. *)
Example ones_sum16_negative : ones_sum16 0 [] (-1) = Fault BadAccess.
Proof. reflexivity. Qed.

(** * The bit swaps reverse the bits *)

(** Where [delta_swap k] takes bit [i] from. *)
Definition partner (k i : Z) : Z := if Z.even (i `div` k) then i + k else i - k.

(** In the low [w] bits, [mask] has the lower group of every pair of groups of [k] bits. *)
Definition mask_ok (w : nat) (k mask : Z) : bool :=
  forallb (λ n, let i := Z.of_nat n in let e := Z.even (i `div` k) in
                eqb (Z.testbit mask i) e && (if i <? k then e else eqb (Z.testbit mask (i - k)) (negb e))) (seq 0 w).

Lemma forallb_below (f : nat → bool) w i : forallb f (seq 0 w) = true → 0 ≤ i < Z.of_nat w → f (Z.to_nat i) = true.
Proof. intros H ?. rewrite forallb_forall in H. apply H, in_seq. lia. Qed.

Lemma delta_swap_bit w k mask val i :
  mask_ok w k mask = true → 0 ≤ k → 0 ≤ i < Z.of_nat w →
  Z.testbit (delta_swap k mask val) i = Z.testbit val (partner k i).
Proof.
  intros Hm Hk Hi. pose proof (forallb_below _ _ _ Hm Hi) as H. cbv beta zeta in H.
  rewrite Z2Nat.id in H by lia. apply andb_prop in H as [H1 H2]. apply eqb_prop in H1.
  unfold delta_swap, partner.
  rewrite Z.lor_spec, Z.land_spec, Z.shiftr_spec, H1 by lia.
  destruct (Z.ltb_spec i k).
  - rewrite H2, Z.shiftl_spec_low by lia. by rewrite andb_true_r, orb_false_r.
  - apply eqb_prop in H2. rewrite Z.shiftl_spec, Z.land_spec, H2 by lia.
    destruct (Z.even (i `div` k)); cbn; by rewrite ?andb_true_r, ?andb_false_r, ?orb_false_r.
Qed.

(** A chain of swaps in a variable of [width] bits, the last one first. *)
Fixpoint swaps (width : Z) (steps : list (Z * Z)) (val : Z) : Z :=
  match steps with
  | [] => val
  | (k, mask) :: steps => (delta_swap k mask (swaps width steps val)) `mod` 2 ^ width
  end.

(** Following the swaps back from bit [i] stays in the low [w] bits and ends at [j]. *)
Fixpoint reaches (w : nat) (steps : list (Z * Z)) (i j : Z) : bool :=
  (0 <=? i) && (i <? Z.of_nat w) &&
  match steps with
  | [] => i =? j
  | (k, mask) :: steps => (0 <=? k) && mask_ok w k mask && reaches w steps (partner k i) j
  end.

Lemma swaps_bit width w steps val i j :
  Z.of_nat w ≤ width → reaches w steps i j = true → Z.testbit (swaps width steps val) i = Z.testbit val j.
Proof.
  intros Hw. revert i. induction steps as [|[k mask] steps IH]; intros i H; cbn [reaches swaps] in *;
    rewrite !andb_true_iff in H.
  - destruct H as [_ H]. by apply Z.eqb_eq in H as ->.
  - destruct H as [[? ?] [[? ?] ?]]. rewrite Z.mod_pow2_bits_low by lia.
    rewrite (delta_swap_bit w) by (done || lia). auto.
Qed.

Definition mirrors (w : nat) (steps : list (Z * Z)) : bool :=
  forallb (λ n, reaches w steps (Z.of_nat n) (Z.of_nat w - 1 - Z.of_nat n)) (seq 0 w).

(** What a reversal of the low [w] bits is. *)
Definition reverses (w : nat) (f : Z → Z) : Prop :=
  ∀ val i, 0 ≤ i → Z.testbit (f val) i = (i <? Z.of_nat w) && Z.testbit val (Z.of_nat w - 1 - i).

Lemma mirrors_reverse w width k mask steps f :
  (∀ val, f val = swaps width ((k, mask) :: steps) val) → width = Z.of_nat w →
  mirrors w ((k, mask) :: steps) = true → reverses w f.
Proof.
  intros Hf -> H val i Hi. rewrite Hf. destruct (Z.ltb_spec i (Z.of_nat w)).
  - pose proof (forallb_below _ _ i H ltac:(lia)) as Hr. cbv beta in Hr. rewrite Z2Nat.id in Hr by lia.
    by apply (swaps_bit _ w); [lia|].
  - cbn [swaps]. by rewrite Z.mod_pow2_bits_high by lia.
Qed.

(** The first three swaps of [bytes_swap_bits_u24] reverse each of the three bytes. *)
Definition swaps24 : list (Z * Z) := [(4, 0x0f0f0f); (2, 0x333333); (1, 0x555555)].

Lemma swaps24_bit val j :
  0 ≤ j < 24 → Z.testbit (swaps 32 swaps24 (Z.land val 0x00FFFFFF)) j = Z.testbit val (16 * (j `div` 8) + 7 - j).
Proof.
  intros Hj. assert (forallb (λ n, let j := Z.of_nat n in reaches 24 swaps24 j (16 * (j `div` 8) + 7 - j)) (seq 0 24) = true) as H
    by by vm_compute.
  pose proof (forallb_below _ 24 j H ltac:(lia)) as Hr. cbv beta zeta in Hr. rewrite Z2Nat.id in Hr by lia.
  rewrite (swaps_bit 32 24 _ _ _ _ ltac:(lia) Hr), Z.land_spec. change 0x00FFFFFF with (Z.ones 24).
  pose proof (Z.div_mod j 8 ltac:(lia)). pose proof (Z.mod_pos_bound j 8 ltac:(lia)).
  rewrite Z.ones_spec_low by lia. apply andb_true_r.
Qed.

(** The last step keeps the middle byte and exchanges the outer two. *)
Lemma outer_bytes_bit v i :
  0 ≤ i → Z.testbit (Z.lor (delta_swap 16 0x0000ff v) (Z.land v 0x00FF00)) i =
    (i <? 24) && Z.testbit v (if i <? 8 then i + 16 else if i <? 16 then i else i - 16).
Proof.
  intros Hi. unfold delta_swap. change 0x0000ff with (Z.ones 8). change 0x00FF00 with (Z.shiftl (Z.ones 8) 8).
  rewrite !Z.lor_spec, !Z.land_spec, Z.shiftr_spec, !Z.shiftl_spec, Z.land_spec, !Z.testbit_ones by lia.
  assert (∀ n, n < 0 → Z.testbit v n = false) as Hneg by (intros; by apply Z.testbit_neg_r).
  destruct (Z.ltb_spec i 8), (Z.ltb_spec i 16), (Z.ltb_spec i 24); try lia;
    repeat match goal with |- context [?a <=? ?b] => destruct (Z.leb_spec a b); try lia end;
    repeat match goal with |- context [?a <? ?b] => destruct (Z.ltb_spec a b); try lia end;
    by rewrite ?andb_true_r, ?andb_false_r, ?orb_false_r.
Qed.

Lemma swap_bits_u24_reverses : reverses 24 bytes_swap_bits_u24.
Proof.
  intros val i Hi.
  change (bytes_swap_bits_u24 val) with
    (u32 (Z.lor (delta_swap 16 0x0000ff (swaps 32 swaps24 (Z.land val 0x00FFFFFF)))
                (Z.land (swaps 32 swaps24 (Z.land val 0x00FFFFFF)) 0x00FF00))).
  unfold u32. destruct (Z.ltb_spec i 32);
    [rewrite Z.mod_pow2_bits_low by lia|rewrite Z.mod_pow2_bits_high by lia; by rewrite (proj2 (Z.ltb_ge _ _)) by lia].
  rewrite outer_bytes_bit by lia. change (Z.of_nat 24) with 24.
  destruct (Z.ltb_spec i 24); [cbn [andb]|done].
  rewrite swaps24_bit by (repeat case_match; lia). f_equal.
  destruct (Z.ltb_spec i 8); [|destruct (Z.ltb_spec i 16)].
  - replace ((i + 16) `div` 8) with 2; [lia|]. apply (Z.div_unique _ _ _ i); lia.
  - replace (i `div` 8) with 1; [lia|]. apply (Z.div_unique _ _ _ (i - 8)); lia.
  - replace ((i - 16) `div` 8) with 0; [lia|]. apply (Z.div_unique _ _ _ (i - 16)); lia.
Qed.

(** C20: the four [bytes_swap_bits] functions, written as chains of masks and shifts, are
    the reversal of the low 8, 16, 24 and 32 bits, and clear the bits above. *)
Theorem swap_bits_reverse :
  reverses 8 bytes_swap_bits_u8 ∧ reverses 16 bytes_swap_bits_u16 ∧
  reverses 24 bytes_swap_bits_u24 ∧ reverses 32 bytes_swap_bits_u32.
Proof.
  split_and!; [| |apply swap_bits_u24_reverses|].
  - apply (mirrors_reverse 8 8 4 0x0f [(2, 0x33); (1, 0x55)]); [|done|by vm_compute].
    intros. cbv [bytes_swap_bits_u8 swaps u8]. reflexivity.
  - apply (mirrors_reverse 16 16 8 0x00ff [(4, 0x0f0f); (2, 0x3333); (1, 0x5555)]); [|done|by vm_compute].
    intros. cbv [bytes_swap_bits_u16 swaps]. reflexivity.
  - apply (mirrors_reverse 32 32 16 0x0000ffff [(8, 0x00ff00ff); (4, 0x0f0f0f0f); (2, 0x33333333); (1, 0x55555555)]);
      [|done|by vm_compute].
    intros. cbv [bytes_swap_bits_u32 swaps u32]. reflexivity.
Qed.

(** * Writing a number and reading it back *)

(** Byte [n / 8] of [val] above the lower bytes. *)
Lemma lor_byte val n :
  0 ≤ n → Z.lor (Z.shiftl (u8 (Z.land (Z.shiftr val n) 0xFF)) n) (val `mod` 2 ^ n) = val `mod` 2 ^ (n + 8).
Proof.
  intros Hn. unfold u8. change 0xFF with (Z.ones 8). rewrite Z.land_ones, Z.mod_mod by lia.
  apply Z.bits_inj'. intros i Hi. rewrite Z.lor_spec, Z.shiftl_spec by lia.
  destruct (decide (i < n)); [|destruct (decide (i < n + 8))].
  - rewrite Z.testbit_neg_r, !Z.mod_pow2_bits_low by lia. done.
  - rewrite (Z.mod_pow2_bits_high val n), orb_false_r, !Z.mod_pow2_bits_low, Z.shiftr_spec by lia. f_equal. lia.
  - by rewrite !Z.mod_pow2_bits_high by lia.
Qed.

Lemma low_byte val : u8 (Z.land val 0xFF) = val `mod` 2 ^ 8.
Proof. unfold u8. change 0xFF with (Z.ones 8). by rewrite Z.land_ones, Z.mod_mod by lia. Qed.

Lemma push_app pre b post v i : i = zlen pre → push (pre ++ b :: post, i) v = Ok (pre ++ u8 v :: post, i + 1).
Proof.
  intros ->. unfold push. cbn -[mem_write]. pose proof (zlen_nonneg post).
  rewrite mem_write_Ok by (unfold zlen in *; rewrite ?length_app; cbn; lia). cbn -[splice].
  unfold splice, ztake, zdrop, zlen. rewrite Nat2Z.id, take_app_length.
  replace (Z.to_nat (Z.of_nat (length pre) + Z.of_nat (length [u8 v]))) with (length (pre ++ [b])) by (rewrite length_app; cbn; lia).
  by rewrite (app_assoc pre [b] post : pre ++ b :: post = _), drop_app_length.
Qed.

Ltac push_bytes :=
  repeat match goal with
  | |- context [push (?a :: ?l, 0) ?v] => rewrite (push_app [] a l v 0 eq_refl : push (a :: l, 0) v = Ok (_, 1))
  | |- context [push (?a :: ?b :: ?l, 1) ?v] => rewrite (push_app [a] b l v 1 eq_refl : push (a :: b :: l, 1) v = Ok (_, 2))
  | |- context [push (?a :: ?b :: ?c :: ?l, 2) ?v] => rewrite (push_app [a; b] c l v 2 eq_refl : push (a :: b :: c :: l, 2) v = Ok (_, 3))
  | |- context [push (?a :: ?b :: ?c :: ?d :: ?l, 3) ?v] => rewrite (push_app [a; b; c] d l v 3 eq_refl : push (a :: b :: c :: d :: l, 3) v = Ok (_, 4))
  end; cbn -[push u8 Z.land Z.shiftr Z.modulo].

Ltac join_bytes val :=
  eexists; split; [do 4 push_bytes; reflexivity|];
  unfold bytes_read_u16_be, bytes_read_u16_le, bytes_read_u24_be, bytes_read_u24_le, bytes_read_u32_be, bytes_read_u32_le, get, znth;
  change (Z.to_nat 0) with 0%nat; change (Z.to_nat 1) with 1%nat; try change (Z.to_nat 2) with 2%nat;
  try change (Z.to_nat 3) with 3%nat; cbn -[u8 Z.land Z.shiftr Z.lor Z.shiftl Z.modulo Z.pow];
  rewrite <-?Z.lor_assoc, (low_byte val), (lor_byte val 8) by lia; change (8 + 8) with 16;
  rewrite ?(lor_byte val 16) by lia; change (16 + 8) with 24; rewrite ?(lor_byte val 24) by lia; done.

(** Every number written is read back by the reader of the same width and byte order, and
    the writer returns the pointer behind it. *)
Theorem bytes_write_read a b c d buf val :
  (∃ m, bytes_write_u16_be (a :: b :: buf) val = Ok (m, 2) ∧ bytes_read_u16_be m = Ok (val `mod` 2 ^ 16)) ∧
  (∃ m, bytes_write_u16_le (a :: b :: buf) val = Ok (m, 2) ∧ bytes_read_u16_le m = Ok (val `mod` 2 ^ 16)) ∧
  (∃ m, bytes_write_u24_be (a :: b :: c :: buf) val = Ok (m, 3) ∧ bytes_read_u24_be m = Ok (val `mod` 2 ^ 24)) ∧
  (∃ m, bytes_write_u24_le (a :: b :: c :: buf) val = Ok (m, 3) ∧ bytes_read_u24_le m = Ok (val `mod` 2 ^ 24)) ∧
  (∃ m, bytes_write_u32_be (a :: b :: c :: d :: buf) val = Ok (m, 4) ∧ bytes_read_u32_be m = Ok (u32 val)) ∧
  (∃ m, bytes_write_u32_le (a :: b :: c :: d :: buf) val = Ok (m, 4) ∧ bytes_read_u32_le m = Ok (u32 val)).
Proof.
  unfold bytes_write_u16_be, bytes_write_u16_le, bytes_write_u24_be, bytes_write_u24_le, bytes_write_u32_be, bytes_write_u32_le.
  split_and!; join_bytes val.
Qed.

(** * The gather is a window of the concatenation *)

Definition window (pos n : Z) (iov : list (list Z)) : list Z := ztake n (zdrop pos (concat iov)).

Lemma window_skip pos n v iov : zlen v ≤ pos → window pos n (v :: iov) = window (pos - zlen v) n iov.
Proof.
  intros. unfold window, zdrop, zlen in *. cbn [concat]. rewrite drop_app_ge by lia. do 2 f_equal. lia.
Qed.

Lemma window_split pos n v iov :
  0 ≤ pos ≤ zlen v → zlen v - pos ≤ n → window pos n (v :: iov) = zdrop pos v ++ window 0 (n - (zlen v - pos)) iov.
Proof.
  intros. unfold window, zdrop, ztake, zlen in *. cbn [concat]. rewrite drop_app_le by lia.
  rewrite take_app_ge by (rewrite length_drop; lia). rewrite length_drop, drop_0. do 2 f_equal. lia.
Qed.

Lemma window_inside pos n v iov : 0 ≤ pos → 0 ≤ n → pos + n ≤ zlen v → window pos n (v :: iov) = ztake n (zdrop pos v).
Proof.
  intros. unfold window, zdrop, ztake, zlen in *. cbn [concat]. rewrite drop_app_le by lia.
  by rewrite take_app_le by (rewrite length_drop; lia).
Qed.

Lemma splice_behind pre (d rest : list Z) :
  splice (zlen pre) d (pre ++ rest) = (pre ++ d) ++ zdrop (zlen d) rest.
Proof.
  unfold splice, ztake, zdrop, zlen. rewrite Nat2Z.id, take_app_length, drop_app_ge by lia.
  rewrite <-app_assoc. do 3 f_equal. lia.
Qed.

Lemma to_membuf_loop_ok n pre rest buf_len iov iov_pos :
  (n ≤ length iov)%nat → Forall (λ v, zlen v < 2 ^ 64) iov → 0 ≤ iov_pos < 2 ^ 32 →
  0 ≤ buf_len ≤ zlen rest → zlen pre + buf_len < 2 ^ 32 →
  let d := window iov_pos buf_len (take n iov) in
  to_membuf_loop n (pre ++ rest) (zlen pre) buf_len iov iov_pos = Ok (zlen pre + zlen d, pre ++ d ++ zdrop (zlen d) rest).
Proof.
  revert pre rest buf_len iov iov_pos. induction n as [|n IH]; intros pre rest buf_len iov iov_pos Hn Hv Hp Hl Hb d.
  { assert (d = []) as -> by (unfold d, window, ztake, zdrop; change (concat (take 0 iov)) with (@nil Z); by rewrite drop_nil, take_nil).
    cbn. change (zlen []) with 0. by rewrite Z.add_0_r. }
  destruct iov as [|v iov]; [cbn in Hn; lia|]. apply Forall_cons in Hv as [Hv Hvs]. cbn in Hn.
  pose proof (zlen_nonneg v). pose proof (zlen_nonneg pre). subst d. cbn [to_membuf_loop take].
  destruct (Z.leb_spec (zlen v) iov_pos).
  { unfold u32. rewrite window_skip, Z.mod_small by lia. apply IH; try done; lia. }
  assert (u64 (zlen v - iov_pos) = zlen v - iov_pos) as -> by (apply Z.mod_small; lia).
  destruct (Z.ltb_spec buf_len (zlen v - iov_pos)).
  - rewrite window_inside by lia. rewrite mem_read_Ok by lia. cbn -[mem_write].
    assert (zlen (ztake buf_len (zdrop iov_pos v)) = buf_len) as E by (apply zlen_ztake; rewrite zlen_zdrop; lia).
    rewrite mem_write_Ok by (rewrite ?E, ?zlen_app; lia). cbn -[splice]. rewrite splice_behind, E.
    rewrite Z.sub_diag. unfold u32.
    rewrite (Z.mod_small (zlen pre + buf_len)) by lia. change (0 `mod` 2 ^ 32 =? 0) with true. cbv iota. by rewrite <-app_assoc.
  - rewrite window_split by lia. rewrite mem_read_Ok by lia. cbn -[mem_write].
    assert (zlen (zdrop iov_pos v) = zlen v - iov_pos) as E by (apply zlen_zdrop; lia).
    rewrite ztake_all by lia. rewrite mem_write_Ok by (rewrite ?E, ?zlen_app; lia). cbn -[splice]. rewrite splice_behind, E.
    unfold u32. rewrite (Z.mod_small (zlen pre + _)), (Z.mod_small (buf_len - _)) by lia. set (r := buf_len - (zlen v - iov_pos)).
    replace (zlen pre + (zlen v - iov_pos)) with (zlen (pre ++ zdrop iov_pos v)) by (rewrite zlen_app; lia).
    assert (to_membuf_loop n ((pre ++ zdrop iov_pos v) ++ zdrop (zlen v - iov_pos) rest) (zlen (pre ++ zdrop iov_pos v)) r iov 0
      = Ok (zlen pre + zlen (zdrop iov_pos v ++ window 0 r (take n iov)),
            pre ++ (zdrop iov_pos v ++ window 0 r (take n iov)) ++
            zdrop (zlen (zdrop iov_pos v ++ window 0 r (take n iov))) rest)) as Hrec.
    { assert (zlen (zdrop (zlen v - iov_pos) rest) = zlen rest - (zlen v - iov_pos)) by (apply zlen_zdrop; lia).
      assert (zlen (pre ++ zdrop iov_pos v) = zlen pre + (zlen v - iov_pos)) as E' by (rewrite zlen_app; lia).
      rewrite IH; [|lia|exact Hvs|lia|lia|lia].
      pose proof (zlen_nonneg (window 0 r (take n iov))).
      rewrite zdrop_zdrop, E', (zlen_app (zdrop iov_pos v)), E, <-!app_assoc by lia. do 2 f_equal. lia. }
    destruct (Z.eqb_spec r 0) as [Hr|]; [|exact Hrec]. rewrite Hr.
    change (window 0 0 (take n iov)) with (@nil Z). rewrite app_nil_r, E, zlen_app, E. by rewrite <-app_assoc.
Qed.

(** C22: [iovec_to_membuf] copies to the front of the buffer the bytes of the concatenated
    chunks from [iov_pos] on, as many as there are and fit, returns how many, and leaves
    the rest of the buffer alone; chunk boundaries do not show. *)
Theorem iovec_to_membuf_gathers buf buf_len iov iov_cnt iov_pos :
  0 ≤ iov_cnt ≤ zlen iov → Forall (λ v, zlen v < 2 ^ 64) iov → 0 ≤ iov_pos < 2 ^ 32 →
  0 ≤ buf_len ≤ zlen buf → buf_len < 2 ^ 32 →
  let d := window iov_pos buf_len (ztake iov_cnt iov) in
  iovec_to_membuf (Some buf) buf_len (Some iov) iov_cnt iov_pos = Ok (zlen d, Some (d ++ zdrop (zlen d) buf)).
Proof.
  intros Hc Hv Hp Hl Hb d. unfold iovec_to_membuf.
  pose proof (to_membuf_loop_ok (Z.to_nat iov_cnt) [] buf buf_len iov iov_pos) as H. cbn [app] in H.
  change (zlen []) with 0 in H. rewrite H by (done || (unfold zlen in *; lia)). done.
Qed.

Lemma iovec_to_membuf_gathers_witness :
  let iov := [[1; 2]; []; [3; 4; 5]] in
  let d := window 1 3 (ztake 3 iov) in
  d = [2; 3; 4] ∧ iovec_to_membuf (Some [0; 0; 0; 0]) 3 (Some iov) 3 1 = Ok (zlen d, Some (d ++ zdrop (zlen d) [0; 0; 0; 0])).
Proof.
  split; [reflexivity|].
  refine (iovec_to_membuf_gathers [0; 0; 0; 0] 3 [[1; 2]; []; [3; 4; 5]] 3 1 _ _ _ _ _); unfold zlen; cbn [length]; try lia.
  repeat constructor; cbn [length]; lia.
Defined.
