(* ===== verification/IntrusiveList.v ===== *)
(** The intrusive doubly linked list of [top/include/lk/list.h].

    [Module Ptr] is the code: a heap of [struct list_node] cells and the
    inline functions, with every load and store of the source.  [Module Pool]
    is the specification the rest of the kernel is modelled against: a family
    of sequences, each node a member of at most one of them, with operations
    that fault exactly when the code would follow a null link or splice a node
    that is still linked elsewhere.  The theorems at the end show that the
    code implements the specification. *)
From stdpp Require Import prelude gmap.
From S2P Require Import Prelude.

Module Ptr.

(** Addresses of list nodes; [NULL] is never the address of a cell. *)
Abbreviation addr := nat (only parsing).
Definition NULL : addr := 0%nat.

Record list_node := mk_node { prev : addr; next : addr }.

Abbreviation heap := (gmap nat list_node) (only parsing).

Definition load (h : heap) (a : addr) : res list_node := of_option BadAccess (h !! a).
Definition get_next (h : heap) (a : addr) : res addr := n ← load h a; Ok (next n).
Definition get_prev (h : heap) (a : addr) : res addr := n ← load h a; Ok (prev n).
Definition set_next (h : heap) (a v : addr) : res heap :=
  n ← load h a; Ok (<[a := mk_node (prev n) v]> h).
Definition set_prev (h : heap) (a v : addr) : res heap :=
  n ← load h a; Ok (<[a := mk_node v (next n)]> h).

Definition list_initialize (h : heap) (list : addr) : res heap :=
  h ← set_next h list list;
  set_prev h list list.

Definition list_clear_node (h : heap) (item : addr) : res heap :=
  h ← set_next h item NULL;
  set_prev h item NULL.

Definition list_in_list (h : heap) (item : addr) : res bool :=
  p ← get_prev h item;
  n ← get_next h item;
  Ok (negb (bool_decide (p = NULL) && bool_decide (n = NULL))).

Definition list_add_head (h : heap) (list item : addr) : res heap :=
  n ← get_next h list;
  h ← set_next h item n;
  h ← set_prev h item list;
  n ← get_next h list;
  h ← set_prev h n item;
  set_next h list item.

Definition list_add_after (h : heap) (entry new_entry : addr) : res heap :=
  list_add_head h entry new_entry.

Definition list_add_tail (h : heap) (list item : addr) : res heap :=
  p ← get_prev h list;
  h ← set_prev h item p;
  h ← set_next h item list;
  p ← get_prev h list;
  h ← set_next h p item;
  set_prev h list item.

Definition list_add_before (h : heap) (entry new_entry : addr) : res heap :=
  list_add_tail h entry new_entry.

Definition list_delete (h : heap) (item : addr) : res heap :=
  n ← get_next h item;
  p ← get_prev h item;
  h ← set_prev h n p;
  p ← get_prev h item;
  n ← get_next h item;
  h ← set_next h p n;
  h ← set_next h item NULL;
  set_prev h item NULL.

Definition list_remove_head (h : heap) (list : addr) : res (addr * heap) :=
  n ← get_next h list;
  if bool_decide (n = list) then Ok (NULL, h)
  else
    item ← get_next h list;
    h ← list_delete h item;
    Ok (item, h).

Definition list_remove_tail (h : heap) (list : addr) : res (addr * heap) :=
  p ← get_prev h list;
  if bool_decide (p = list) then Ok (NULL, h)
  else
    item ← get_prev h list;
    h ← list_delete h item;
    Ok (item, h).

Definition list_peek_head (h : heap) (list : addr) : res addr :=
  n ← get_next h list;
  if bool_decide (n = list) then Ok NULL else get_next h list.

Definition list_peek_tail (h : heap) (list : addr) : res addr :=
  p ← get_prev h list;
  if bool_decide (p = list) then Ok NULL else get_prev h list.

Definition list_prev (h : heap) (list item : addr) : res addr :=
  p ← get_prev h item;
  if bool_decide (p = list) then Ok NULL else get_prev h item.

Definition list_prev_wrap (h : heap) (list item : addr) : res addr :=
  p ← get_prev h item;
  if negb (bool_decide (p = list)) then Ok p
  else
    pp ← get_prev h p;
    if negb (bool_decide (pp = list)) then Ok pp else Ok NULL.

Definition list_next (h : heap) (list item : addr) : res addr :=
  n ← get_next h item;
  if bool_decide (n = list) then Ok NULL else get_next h item.

Definition list_next_wrap (h : heap) (list item : addr) : res addr :=
  n ← get_next h item;
  if negb (bool_decide (n = list)) then Ok n
  else
    nn ← get_next h n;
    if negb (bool_decide (nn = list)) then Ok nn else Ok NULL.

Definition list_is_empty (h : heap) (list : addr) : res bool :=
  n ← get_next h list;
  Ok (bool_decide (n = list)).

(** [list_for_every] from [node] on: the nodes visited before the walk comes
    back to [lst]; [None] when [fuel] runs out. *)
Fixpoint list_for_every_from (fuel : nat) (h : heap) (lst node : addr) : res (option (list addr)) :=
  if bool_decide (node = lst) then Ok (Some [])
  else match fuel with
  | O => Ok None
  | S fuel =>
      n ← get_next h node;
      r ← list_for_every_from fuel h lst n;
      Ok (option_map (cons node) r)
  end.

Definition list_for_every (fuel : nat) (h : heap) (lst : addr) : res (option (list addr)) :=
  n ← get_next h lst;
  list_for_every_from fuel h lst n.

Definition list_length (fuel : nat) (h : heap) (list : addr) : res (option nat) :=
  r ← list_for_every fuel h list;
  Ok (option_map length r).

(** ** Representation: the cells of a list form a ring in both directions *)

Definition nxt (h : heap) (a : addr) : option addr := next <$> h !! a.
Definition prv (h : heap) (a : addr) : option addr := prev <$> h !! a.

Fixpoint links (h : heap) (l : list addr) : Prop :=
  match l with
  | a :: (b :: _) as r => nxt h a = Some b ∧ prv h b = Some a ∧ links h r
  | _ => True
  end.

Definition dll (h : heap) (lst : addr) (xs : list addr) : Prop :=
  links h (lst :: xs ++ [lst]) ∧ NoDup (lst :: xs) ∧ NULL ∉ lst :: xs.

(** A node that is in no list. *)
Definition cleared (h : heap) (n : addr) : Prop := h !! n = Some (mk_node NULL NULL).

(** ** Loads and stores *)

Lemma get_next_Ok h a v : get_next h a = Ok v ↔ nxt h a = Some v.
Proof. unfold get_next, load, nxt. destruct (h !! a); simpl; naive_solver. Qed.

Lemma get_prev_Ok h a v : get_prev h a = Ok v ↔ prv h a = Some v.
Proof. unfold get_prev, load, prv. destruct (h !! a); simpl; naive_solver. Qed.

Lemma set_next_spec h a v :
  is_Some (h !! a) →
  ∃ h', set_next h a v = Ok h' ∧ dom h' = dom h ∧
    (∀ b, nxt h' b = if decide (b = a) then Some v else nxt h b) ∧
    (∀ b, prv h' b = prv h b).
Proof.
  intros [n Hn]. unfold set_next, load. rewrite Hn. simpl.
  eexists; split_and!; [done|rewrite dom_insert_lookup_L by eauto; done|..];
    intros b; unfold nxt, prv; destruct (decide (b = a)) as [->|];
    rewrite ?lookup_insert_eq, ?lookup_insert_ne by done; rewrite ?Hn; done.
Qed.

Lemma set_prev_spec h a v :
  is_Some (h !! a) →
  ∃ h', set_prev h a v = Ok h' ∧ dom h' = dom h ∧
    (∀ b, prv h' b = if decide (b = a) then Some v else prv h b) ∧
    (∀ b, nxt h' b = nxt h b).
Proof.
  intros [n Hn]. unfold set_prev, load. rewrite Hn. simpl.
  eexists; split_and!; [done|rewrite dom_insert_lookup_L by eauto; done|..];
    intros b; unfold nxt, prv; destruct (decide (b = a)) as [->|];
    rewrite ?lookup_insert_eq, ?lookup_insert_ne by done; rewrite ?Hn; done.
Qed.

Lemma is_Some_dom {A} (h h' : gmap nat A) a : dom h' = dom h → is_Some (h !! a) → is_Some (h' !! a).
Proof. rewrite <- !elem_of_dom. by intros ->. Qed.

Lemma nxt_is_Some h a v : nxt h a = Some v → is_Some (h !! a).
Proof. unfold nxt. destruct (h !! a); [by eauto|done]. Qed.

Lemma prv_is_Some h a v : prv h a = Some v → is_Some (h !! a).
Proof. unfold prv. destruct (h !! a); [by eauto|done]. Qed.

(** Run the next store of the goal. *)
Ltac ptr_dom :=
  repeat (eapply is_Some_dom; [eassumption|]); eauto using nxt_is_Some, prv_is_Some.

Ltac ptr_store :=
  match goal with
  | |- context [set_next ?h ?a ?v] =>
      let h' := fresh "h" in
      destruct (set_next_spec h a v) as (h' & -> & ? & ? & ?); [ptr_dom|cbn [mbind res_bind]]
  | |- context [set_prev ?h ?a ?v] =>
      let h' := fresh "h" in
      destruct (set_prev_spec h a v) as (h' & -> & ? & ? & ?); [ptr_dom|cbn [mbind res_bind]]
  end.

(** Rewrite a link of a derived heap back to the original one. *)
Ltac ptr_look :=
  repeat match goal with
  | N : ∀ b, nxt ?h b = _ |- context [nxt ?h _] => rewrite N
  | N : ∀ b, prv ?h b = _ |- context [prv ?h _] => rewrite N
  end.

(** Splicing [n] in after [p]: what [list_add_head] writes. *)
Lemma list_add_head_heap h p n q :
  nxt h p = Some q → is_Some (h !! n) → is_Some (h !! q) → n ≠ p → n ≠ q →
  ∃ h', list_add_head h p n = Ok h' ∧ dom h' = dom h ∧
    (∀ b, nxt h' b = if decide (b = p) then Some n else if decide (b = n) then Some q else nxt h b) ∧
    (∀ b, prv h' b = if decide (b = q) then Some n else if decide (b = n) then Some p else prv h b).
Proof.
  intros Hp Hn Hq Hnp Hnq. unfold list_add_head.
  rewrite (proj2 (get_next_Ok h p q) Hp). cbn [mbind res_bind].
  ptr_store. ptr_store.
  rewrite (proj2 (get_next_Ok _ p q)); [|ptr_look; by rewrite decide_False].
  cbn [mbind res_bind]. ptr_store. ptr_store.
  eexists; split_and!; [done|congruence|..]; intros b; ptr_look; repeat case_decide; congruence.
Qed.

(** Splicing [n] in before [q]: what [list_add_tail] writes. *)
Lemma list_add_tail_heap h p n q :
  prv h q = Some p → is_Some (h !! n) → is_Some (h !! p) → n ≠ p → n ≠ q →
  ∃ h', list_add_tail h q n = Ok h' ∧ dom h' = dom h ∧
    (∀ b, nxt h' b = if decide (b = p) then Some n else if decide (b = n) then Some q else nxt h b) ∧
    (∀ b, prv h' b = if decide (b = q) then Some n else if decide (b = n) then Some p else prv h b).
Proof.
  intros Hp Hn Hq Hnp Hnq. unfold list_add_tail.
  rewrite (proj2 (get_prev_Ok h q p) Hp). cbn [mbind res_bind].
  ptr_store. ptr_store.
  rewrite (proj2 (get_prev_Ok _ q p)); [|ptr_look; by rewrite decide_False].
  cbn [mbind res_bind]. ptr_store. ptr_store.
  eexists; split_and!; [done|congruence|..]; intros b; ptr_look; repeat case_decide; congruence.
Qed.

(** Unlinking [n]: what [list_delete] writes. *)
Lemma list_delete_heap h p n q :
  prv h n = Some p → nxt h n = Some q → is_Some (h !! p) → is_Some (h !! q) → n ≠ p → n ≠ q →
  ∃ h', list_delete h n = Ok h' ∧ dom h' = dom h ∧
    (∀ b, nxt h' b = if decide (b = p) then Some q else if decide (b = n) then Some NULL else nxt h b) ∧
    (∀ b, prv h' b = if decide (b = q) then Some p else if decide (b = n) then Some NULL else prv h b).
Proof.
  intros Hp Hq Hsp Hsq Hnp Hnq. unfold list_delete.
  rewrite (proj2 (get_next_Ok h n q) Hq). cbn [mbind res_bind].
  rewrite (proj2 (get_prev_Ok h n p) Hp). cbn [mbind res_bind].
  ptr_store.
  rewrite (proj2 (get_prev_Ok _ n p)); [|ptr_look; by rewrite decide_False].
  cbn [mbind res_bind].
  rewrite (proj2 (get_next_Ok _ n q)); [|by ptr_look].
  cbn [mbind res_bind]. ptr_store. ptr_store. ptr_store.
  eexists; split_and!; [done|congruence|..]; intros b; ptr_look; repeat case_decide; congruence.
Qed.

(** ** Rings *)

Lemma links_app h xs a ys : links h (xs ++ a :: ys) ↔ links h (xs ++ [a]) ∧ links h (a :: ys).
Proof.
  induction xs as [|x [|y xs] IH]; simpl in *; [tauto|tauto|].
  rewrite IH. tauto.
Qed.

Lemma links_ext h h' ws :
  links h ws → (∀ a, a ∈ removelast ws → nxt h' a = nxt h a) →
  (∀ a, a ∈ tail ws → prv h' a = prv h a) → links h' ws.
Proof.
  induction ws as [|a [|b ws] IH]; [done..|].
  intros (Hn & Hp & Hl) Hx Hy. cbn [links].
  split_and!; [rewrite Hx; [done|set_solver]|rewrite Hy; [done|set_solver]|].
  apply IH; [done| |].
  - intros c Hc. apply Hx. change (c ∈ a :: removelast (b :: ws)). set_solver.
  - intros c Hc. apply Hy. simpl in *. set_solver.
Qed.

Lemma links_is_Some h ws a : links h ws → a ∈ removelast ws → is_Some (h !! a).
Proof.
  induction ws as [|x [|y ws] IH]; [set_solver..|].
  intros (Hn & _ & Hl) Ha. change (a ∈ x :: removelast (y :: ws)) in Ha.
  apply elem_of_cons in Ha as [->|Ha]; eauto using nxt_is_Some.
Qed.

Lemma nxt_prv_lookup h h' b : nxt h' b = nxt h b → prv h' b = prv h b → h' !! b = h !! b.
Proof.
  unfold nxt, prv. destruct (h' !! b) as [[]|], (h !! b) as [[]|]; simpl; congruence.
Qed.

(** A list is untouched by changes to other cells. *)
Lemma dll_frame h h' l xs :
  dll h l xs → (∀ b, b ∈ l :: xs → h' !! b = h !! b) → dll h' l xs.
Proof.
  intros (Hl & Hnd & H0) Hf. split_and!; [|done..].
  change (l :: xs ++ [l]) with ((l :: xs) ++ [l]) in *.
  eapply links_ext; [done|..]; intros a Ha; unfold nxt, prv; rewrite Hf; try done.
  - by rewrite removelast_last in Ha.
  - simpl in Ha. set_solver.
Qed.

Lemma dll_is_Some h l xs a : dll h l xs → a ∈ l :: xs → is_Some (h !! a).
Proof.
  intros (Hl & _) Ha. eapply links_is_Some; [done|].
  change (l :: xs ++ [l]) with ((l :: xs) ++ [l]). by rewrite removelast_last.
Qed.

(** The neighbours of a position of the ring. *)
Lemma ring_split (l : nat) (xs ys : list nat) :
  ∃ pre p q post, l :: xs = pre ++ [p] ∧ ys ++ [l] = q :: post ∧
    last (l :: xs) = Some p ∧ head (ys ++ [l]) = Some q.
Proof.
  destruct (last (l :: xs)) as [p|] eqn:Hp; [|by rewrite last_cons in Hp; destruct (last xs)].
  destruct (head (ys ++ [l])) as [q|] eqn:Hq; [|by destruct ys].
  apply last_Some in Hp as [pre Hpre]. apply head_Some in Hq as [post Hpost]. eauto 10.
Qed.

Section ring.
Context (h h' : gmap nat list_node) (l : nat) (xs ys : list nat) (n p q : nat).
Context (Hp : last (l :: xs) = Some p) (Hq : head (ys ++ [l]) = Some q).

Lemma dll_neighbours : dll h l (xs ++ ys) → nxt h p = Some q ∧ prv h q = Some p.
Proof using Hp Hq.
  intros (Hl & _ & _).
  apply last_Some in Hp as [pre Hpre]. apply head_Some in Hq as [post Hpost].
  replace (l :: (xs ++ ys) ++ [l]) with (pre ++ p :: q :: post) in Hl.
  - apply links_app in Hl as [_ (? & ? & _)]. done.
  - rewrite <- Hpost. by rewrite <- (app_assoc xs), (app_comm_cons xs), Hpre, <- app_assoc.
Qed.

Lemma dll_segments : dll h l (xs ++ ys) → links h (l :: xs) ∧ links h (ys ++ [l]).
Proof using Hp Hq.
  intros (Hl & _ & _).
  apply last_Some in Hp as [pre Hpre]. apply head_Some in Hq as [post Hpost].
  replace (l :: (xs ++ ys) ++ [l]) with (pre ++ p :: (ys ++ [l])) in Hl.
  - apply links_app in Hl as [Hl1 Hl2]. rewrite Hpre. split; [done|].
    rewrite Hpost in Hl2 |- *. by destruct Hl2 as (_ & _ & ?).
  - by rewrite <- (app_assoc xs), (app_comm_cons xs), Hpre, <- app_assoc.
Qed.

(** The two segments of the ring around the position survive any change to
    [nxt p], [prv q] and the cell [n]. *)
Lemma segments_ext :
  links h (l :: xs) → links h (ys ++ [l]) → NoDup (l :: xs ++ ys) → n ∉ l :: xs ++ ys →
  (∀ a, a ≠ p → a ≠ n → nxt h' a = nxt h a) → (∀ a, a ≠ q → a ≠ n → prv h' a = prv h a) →
  links h' (l :: xs) ∧ links h' (ys ++ [l]).
Proof using Hp Hq.
  intros H1 H2 Hnd Hn Hnx Hpr.
  apply last_Some in Hp as [pre Hpre]. apply head_Some in Hq as [post Hpost].
  assert (NoDup (pre ++ [p])) as Hnd1
    by (rewrite <- Hpre; revert Hnd; rewrite !NoDup_cons, NoDup_app; set_solver).
  assert (NoDup (ys ++ [l])) as Hnd2.
  { revert Hnd. rewrite NoDup_cons, !NoDup_app. intros (? & ? & ? & ?).
    split_and!; [done|set_solver|apply NoDup_singleton]. }
  assert (p ∈ l :: xs) as Hpi by (rewrite Hpre; set_solver).
  assert (q ∈ ys ++ [l]) as Hqi by (rewrite Hpost; set_solver).
  revert Hnd. rewrite NoDup_cons, NoDup_app. intros (Hl0 & _ & Hdis & _).
  split; eapply links_ext; try done; intros a Ha.
  - rewrite Hpre, removelast_last in Ha. apply Hnx.
    + intros ->. apply NoDup_app in Hnd1. set_solver.
    + intros ->. apply Hn. assert (n ∈ l :: xs) by (rewrite Hpre; set_solver). set_solver.
  - simpl in Ha. apply Hpr; set_solver.
  - rewrite removelast_last in Ha. apply Hnx; set_solver.
  - rewrite Hpost in Ha. simpl in Ha. apply Hpr.
    + intros ->. rewrite Hpost, NoDup_cons in Hnd2. tauto.
    + intros ->. apply Hn. assert (n ∈ ys ++ [l]) by (rewrite Hpost; set_solver). set_solver.
Qed.

Lemma links_glue (zs : list nat) :
  links h' (l :: xs) → links h' (ys ++ [l]) → links h' (p :: zs ++ [q]) →
  links h' (l :: (xs ++ zs ++ ys) ++ [l]).
Proof using Hp Hq.
  intros H1 H2 H3.
  apply last_Some in Hp as [pre Hpre]. apply head_Some in Hq as [post Hpost].
  replace (l :: (xs ++ zs ++ ys) ++ [l]) with (pre ++ p :: zs ++ q :: post).
  - apply links_app. rewrite <- Hpre. split; [done|].
    change (p :: zs ++ q :: post) with ((p :: zs) ++ q :: post).
    apply links_app. split; [done|]. by rewrite <- Hpost.
  - rewrite <- Hpost.
    by rewrite <- (app_assoc xs), <- (app_assoc zs), (app_comm_cons xs), Hpre, <- app_assoc.
Qed.

Lemma dll_insert :
  dll h l (xs ++ ys) → n ∉ l :: xs ++ ys → n ≠ NULL →
  (∀ b, nxt h' b = if decide (b = p) then Some n else if decide (b = n) then Some q else nxt h b) →
  (∀ b, prv h' b = if decide (b = q) then Some n else if decide (b = n) then Some p else prv h b) →
  dll h' l (xs ++ n :: ys).
Proof using Hp Hq.
  intros Hd Hn Hz Hnx Hpr.
  assert (n ≠ p ∧ n ≠ q) as [Hnp Hnq].
  { apply last_Some in Hp as [pre Hpre]. apply head_Some in Hq as [post Hpost].
    assert (p ∈ l :: xs) by (rewrite Hpre; set_solver).
    assert (q ∈ ys ++ [l]) by (rewrite Hpost; set_solver). set_solver. }
  destruct (dll_segments Hd) as [H1 H2]. destruct Hd as (_ & Hnd & H0).
  apply segments_ext in H2 as [H1' H2']; [|done..| |].
  - split_and!; [|..|set_solver].
    + apply (links_glue [n]); [done..|]. simpl. rewrite !Hnx, !Hpr.
      repeat case_decide; congruence || done.
    + revert Hnd. rewrite !NoDup_cons, !NoDup_app, NoDup_cons. set_solver.
  - intros a ??. rewrite Hnx. by rewrite !decide_False.
  - intros a ??. rewrite Hpr. by rewrite !decide_False.
Qed.

Lemma dll_remove :
  dll h l (xs ++ n :: ys) →
  (∀ b, nxt h' b = if decide (b = p) then Some q else if decide (b = n) then Some NULL else nxt h b) →
  (∀ b, prv h' b = if decide (b = q) then Some p else if decide (b = n) then Some NULL else prv h b) →
  dll h' l (xs ++ ys).
Proof using Hp Hq.
  intros (Hl & Hnd & H0) Hnx Hpr.
  assert (links h (l :: xs) ∧ links h (ys ++ [l])) as [H1 H2].
  { assert (l :: (xs ++ n :: ys) ++ [l] = (l :: xs) ++ n :: (ys ++ [l])) as He
      by (simpl; by rewrite <- app_assoc).
    rewrite He in Hl. clear He. apply links_app in Hl as [Hl1 Hl2]. split.
    - clear -Hl1. revert Hl1. generalize (l :: xs). intros zs.
      induction zs as [|a [|b zs] IH]; [done..|]. simpl. intuition.
    - destruct (ys ++ [l]); [done|]. by destruct Hl2 as (_ & _ & ?). }
  assert (NoDup (l :: xs ++ ys) ∧ n ∉ l :: xs ++ ys) as [Hnd' Hn].
  { revert Hnd. rewrite !NoDup_cons, !NoDup_app, NoDup_cons. set_solver. }
  apply segments_ext in H2 as [H1' H2']; [|done..| |].
  - split_and!; [|done|set_solver]. apply (links_glue []); [done..|].
    simpl. rewrite Hnx, Hpr, !decide_True by done. done.
  - intros a ??. rewrite Hnx. by rewrite !decide_False.
  - intros a ??. rewrite Hpr. by rewrite !decide_False.
Qed.

End ring.

(** ** The operations on a well-formed list *)

Lemma dll_node_neq h l xs n : dll h l xs → n ∉ l :: xs → ∀ a, a ∈ l :: xs → n ≠ a.
Proof. intros _ Hn a Ha ->. done. Qed.

(** [list_add_head] on the node before the position, [list_add_tail] on the
    node after it: both splice [n] between [xs] and [ys]. *)
Lemma splice_dll h l xs ys n p q :
  dll h l (xs ++ ys) → is_Some (h !! n) → n ∉ l :: xs ++ ys → n ≠ NULL →
  last (l :: xs) = Some p → head (ys ++ [l]) = Some q →
  ∃ h', list_add_head h p n = Ok h' ∧ list_add_tail h q n = Ok h' ∧ dom h' = dom h ∧
    dll h' l (xs ++ n :: ys) ∧ (∀ b, b ∉ l :: n :: xs ++ ys → h' !! b = h !! b).
Proof.
  intros Hd Hn Hni Hz Hp Hq.
  destruct (dll_neighbours _ _ _ _ _ _ Hp Hq Hd) as [Hpq Hqp].
  assert (p ∈ l :: xs) as Hpi by (apply last_Some in Hp as [? ->]; set_solver).
  assert (q ∈ ys ++ [l]) as Hqi by (apply head_Some in Hq as [? ->]; set_solver).
  assert (n ≠ p ∧ n ≠ q) as [Hnp Hnq] by set_solver.
  destruct (list_add_head_heap h p n q) as (h1 & E1 & D1 & N1 & P1);
    eauto using nxt_is_Some, prv_is_Some.
  destruct (list_add_tail_heap h p n q) as (h2 & E2 & D2 & N2 & P2);
    eauto using nxt_is_Some, prv_is_Some.
  assert (h2 = h1) as ->.
  { apply map_eq. intros b. apply nxt_prv_lookup; [by rewrite N1, N2|by rewrite P1, P2]. }
  exists h1. split_and!; [done..| |].
  - by eapply dll_insert.
  - intros b Hb. apply nxt_prv_lookup; [rewrite N1|rewrite P1];
      rewrite !decide_False; set_solver.
Qed.

Lemma list_delete_dll h l xs ys n :
  dll h l (xs ++ n :: ys) →
  ∃ h', list_delete h n = Ok h' ∧ dom h' = dom h ∧ dll h' l (xs ++ ys) ∧ cleared h' n ∧
    (∀ b, b ∉ l :: xs ++ n :: ys → h' !! b = h !! b).
Proof.
  intros Hd. destruct (ring_split l xs ys) as (pre & p & q & post & Hpre & Hpost & Hp & Hq).
  assert (nxt h p = Some n ∧ prv h n = Some p) as [Hpn Hnp].
  { eapply (dll_neighbours h l xs (n :: ys) p n); [done|done|done]. }
  assert (nxt h n = Some q ∧ prv h q = Some n) as [Hnq Hqn].
  { eapply (dll_neighbours h l (xs ++ [n]) ys n q); [|done|by rewrite <- app_assoc].
    change (l :: xs ++ [n]) with ((l :: xs) ++ [n]). by rewrite last_snoc. }
  assert (n ∉ l :: xs ++ ys) as Hni.
  { destruct Hd as (_ & Hnd & _). revert Hnd. rewrite !NoDup_cons, !NoDup_app, NoDup_cons. set_solver. }
  assert (p ∈ l :: xs) as Hpi by (rewrite Hpre; set_solver).
  assert (q ∈ ys ++ [l]) as Hqi by (rewrite Hpost; set_solver).
  destruct (list_delete_heap h p n q) as (h1 & E1 & D1 & N1 & P1);
    eauto using nxt_is_Some, prv_is_Some; [set_solver..|].
  exists h1. split_and!; [done..| | |].
  - by eapply dll_remove.
  - specialize (N1 n). specialize (P1 n).
    rewrite decide_False, decide_True in N1 by set_solver.
    rewrite decide_False, decide_True in P1 by set_solver.
    unfold nxt, prv, cleared in *. destruct (h1 !! n) as [[]|]; simpl in *; congruence.
  - intros b Hb. apply nxt_prv_lookup; [rewrite N1|rewrite P1];
      rewrite !decide_False; set_solver.
Qed.

Lemma dll_next h l xs : dll h l xs → get_next h l = Ok (default l (head xs)).
Proof.
  intros (Hl & _). apply get_next_Ok. destruct xs; simpl in *; tauto.
Qed.

Lemma dll_prev h l xs : dll h l xs → get_prev h l = Ok (default l (last xs)).
Proof.
  intros Hd. apply get_prev_Ok.
  destruct (ring_split l xs []) as (pre & p & q & post & Hpre & Hpost & Hp & Hq).
  injection Hq as <-.
  destruct (dll_neighbours h l xs [] p l Hp eq_refl) as [_ ->]; [by rewrite app_nil_r|].
  rewrite last_cons in Hp. by destruct (last xs).
Qed.

Lemma list_remove_head_dll h l x xs :
  dll h l (x :: xs) → ∃ h', list_remove_head h l = Ok (x, h') ∧ list_delete h x = Ok h'.
Proof.
  intros Hd. unfold list_remove_head. rewrite (dll_next _ _ _ Hd). simpl.
  rewrite bool_decide_eq_false_2.
  - destruct (list_delete_dll h l [] xs x) as (h' & -> & _); [done|]. simpl. eauto.
  - destruct Hd as (_ & Hnd & _). intros ->. revert Hnd. rewrite NoDup_cons. set_solver.
Qed.

Lemma list_remove_head_dll_nil h l : dll h l [] → list_remove_head h l = Ok (NULL, h).
Proof.
  intros Hd. unfold list_remove_head. rewrite (dll_next _ _ _ Hd). simpl.
  by rewrite bool_decide_eq_true_2.
Qed.

Lemma list_remove_tail_dll h l x xs :
  dll h l (xs ++ [x]) → ∃ h', list_remove_tail h l = Ok (x, h') ∧ list_delete h x = Ok h'.
Proof.
  intros Hd. unfold list_remove_tail. rewrite (dll_prev _ _ _ Hd), last_snoc. simpl.
  rewrite bool_decide_eq_false_2.
  - destruct (list_delete_dll h l xs [] x) as (h' & -> & _); [done|]. simpl. eauto.
  - destruct Hd as (_ & Hnd & _). intros ->. revert Hnd. rewrite NoDup_cons. set_solver.
Qed.

Lemma list_remove_tail_dll_nil h l : dll h l [] → list_remove_tail h l = Ok (NULL, h).
Proof.
  intros Hd. unfold list_remove_tail. rewrite (dll_prev _ _ _ Hd). simpl.
  by rewrite bool_decide_eq_true_2.
Qed.

Lemma list_in_list_linked h l xs n : dll h l xs → n ∈ xs → list_in_list h n = Ok true.
Proof.
  intros Hd (ys & zs & ->)%list_elem_of_split.
  destruct (ring_split l ys zs) as (pre & p & q & post & Hpre & Hpost & Hp & Hq).
  destruct (dll_neighbours h l ys (n :: zs) p n Hp eq_refl Hd) as [_ Hnp].
  assert (is_Some (h !! n)) as [[pn nn] Hn] by (eapply dll_is_Some; [done|set_solver]).
  unfold list_in_list, get_prev, get_next, load, prv in *. rewrite Hn in *. simpl in *.
  simplify_eq. destruct Hd as (_ & _ & H0).
  assert (p ∈ l :: ys) by (rewrite Hpre; set_solver).
  rewrite bool_decide_eq_false_2; [done|set_solver].
Qed.

Lemma list_in_list_cleared h n : cleared h n → list_in_list h n = Ok false.
Proof.
  unfold cleared, list_in_list, get_prev, get_next, load. intros Hn. by rewrite Hn.
Qed.

(** The iteration macro visits the members in order and comes back, given
    fuel for as many nodes as the list has. *)
Lemma list_for_every_dll h l xs fuel :
  dll h l xs → (length xs ≤ fuel)%nat → list_for_every fuel h l = Ok (Some xs).
Proof.
  intros (Hl & Hnd & _) Hf. unfold list_for_every.
  assert (∀ ys a fuel, links h (a :: ys ++ [l]) → l ∉ ys → (length ys ≤ fuel)%nat →
    (n ← get_next h a; list_for_every_from fuel h l n) = Ok (Some ys)) as Hgo.
  { clear. induction ys as [|y ys IH]; intros a fuel Hl Hn Hf.
    - destruct Hl as (Hx & _). apply get_next_Ok in Hx. rewrite Hx. simpl.
      destruct fuel; simpl; by rewrite bool_decide_eq_true_2.
    - destruct fuel as [|fuel]; [simpl in Hf; lia|].
      destruct Hl as (Hx & _ & Hl). apply get_next_Ok in Hx. rewrite Hx. cbn [mbind res_bind].
      cbn [list_for_every_from]. rewrite bool_decide_eq_false_2 by set_solver.
      specialize (IH y fuel Hl ltac:(set_solver) ltac:(simpl in Hf; lia)).
      destruct (get_next h y) as [z|]; cbn [mbind res_bind] in *; [by rewrite IH|done]. }
  apply Hgo; [done| |done]. apply NoDup_cons in Hnd. tauto.
Qed.

End Ptr.

(** * The specification *)

Module Pool.

Section pool.
Context {L N : Type} `{Countable L, Countable N}.

(** The lists, by head, and for every linked node the list it is in. *)
Record pool := mk_pool {
  lists : gmap L (list N);
  owner : gmap N L;
}.

Definition empty_pool : pool := mk_pool ∅ ∅.

Definition members (p : pool) (q : L) : list N := default [] (lists p !! q).

(** [list_initialize] of a head that has no members. *)
Definition init_list (q : L) (p : pool) : pool := mk_pool (<[q := []]> (lists p)) (owner p).

Definition in_list (p : pool) (n : N) : bool := bool_decide (is_Some (owner p !! n)).

Definition is_empty (p : pool) (q : L) : bool := bool_decide (members p q = []).

(** Replace the members of [q]; [n] is now linked there. *)
Definition link (q : L) (n : N) (l : list N) (p : pool) : pool :=
  mk_pool (<[q := l]> (lists p)) (<[n := q]> (owner p)).

Definition add_head (q : L) (n : N) (p : pool) : res pool :=
  l ← of_option BadAccess (lists p !! q);
  if in_list p n then Fault BadAccess else Ok (link q n (n :: l) p).

Definition add_tail (q : L) (n : N) (p : pool) : res pool :=
  l ← of_option BadAccess (lists p !! q);
  if in_list p n then Fault BadAccess else Ok (link q n (l ++ [n]) p).

Fixpoint insert_before (e n : N) (l : list N) : list N :=
  match l with
  | [] => []
  | x :: r => if decide (x = e) then n :: x :: r else x :: insert_before e n r
  end.

Fixpoint insert_after (e n : N) (l : list N) : list N :=
  match l with
  | [] => []
  | x :: r => if decide (x = e) then x :: n :: r else x :: insert_after e n r
  end.

Definition add_before (e n : N) (p : pool) : res pool :=
  q ← of_option BadAccess (owner p !! e);
  if in_list p n then Fault BadAccess else Ok (link q n (insert_before e n (members p q)) p).

Definition add_after (e n : N) (p : pool) : res pool :=
  q ← of_option BadAccess (owner p !! e);
  if in_list p n then Fault BadAccess else Ok (link q n (insert_after e n (members p q)) p).

Definition remove (n : N) (l : list N) : list N := filter (λ x, x ≠ n) l.

Definition delete_node (n : N) (p : pool) : res pool :=
  q ← of_option BadAccess (owner p !! n);
  Ok (mk_pool (<[q := remove n (members p q)]> (lists p)) (delete n (owner p))).

Definition peek_head (p : pool) (q : L) : option N := head (members p q).
Definition peek_tail (p : pool) (q : L) : option N := last (members p q).

Definition remove_head (q : L) (p : pool) : res (option N * pool) :=
  match peek_head p q with
  | None => Ok (None, p)
  | Some n => p' ← delete_node n p; Ok (Some n, p')
  end.

Definition remove_tail (q : L) (p : pool) : res (option N * pool) :=
  match peek_tail p q with
  | None => Ok (None, p)
  | Some n => p' ← delete_node n p; Ok (Some n, p')
  end.

(** ** Well-formed pools *)

Record wf (p : pool) : Prop := {
  wf_owner : ∀ n q, owner p !! n = Some q ↔ n ∈ members p q;
  wf_nodup : ∀ q, NoDup (members p q);
  wf_init : ∀ n q, owner p !! n = Some q → is_Some (lists p !! q);
}.

Lemma wf_empty : wf empty_pool.
Proof.
  split; unfold members, empty_pool; simpl.
  - intros n q. rewrite !lookup_empty. simpl. set_solver.
  - intros q. rewrite lookup_empty. apply NoDup_nil_2.
  - intros n q. by rewrite lookup_empty.
Qed.

Lemma members_insert p q l o q' :
  members (mk_pool (<[q := l]> (lists p)) o) q' = if decide (q' = q) then l else members p q'.
Proof.
  unfold members. simpl. case_decide; subst; [by rewrite lookup_insert_eq|].
  by rewrite lookup_insert_ne.
Qed.

Lemma in_list_false p n : wf p → in_list p n = false ↔ ∀ q, n ∉ members p q.
Proof.
  intros Hwf. unfold in_list. rewrite bool_decide_eq_false. split.
  - intros Hn q Hin. apply Hn. apply (wf_owner _ Hwf) in Hin. eauto.
  - intros Hn [q Hq]. apply (Hn q). by apply (wf_owner _ Hwf).
Qed.

Lemma in_list_true p n : wf p → in_list p n = true ↔ ∃ q, n ∈ members p q.
Proof.
  intros Hwf. unfold in_list. rewrite bool_decide_eq_true. split.
  - intros [q Hq]. exists q. by apply (wf_owner _ Hwf).
  - intros [q Hq]. apply (wf_owner _ Hwf) in Hq. eauto.
Qed.

(** A node is in one list only. *)
Lemma members_disjoint p n q q' : wf p → n ∈ members p q → n ∈ members p q' → q = q'.
Proof. intros Hwf. rewrite <- !(wf_owner _ Hwf). congruence. Qed.

Lemma wf_init_list p q : wf p → members p q = [] → wf (init_list q p).
Proof.
  intros Hwf Hq. split; unfold init_list; simpl.
  - intros n q'. rewrite members_insert. rewrite (wf_owner _ Hwf). case_decide; [|done].
    subst. by rewrite Hq.
  - intros q'. rewrite members_insert. case_decide; [apply NoDup_nil_2|apply (wf_nodup _ Hwf)].
  - intros n q' Hn. apply (wf_init _ Hwf) in Hn. destruct (decide (q' = q)) as [->|].
    + rewrite lookup_insert_eq. eauto.
    + by rewrite lookup_insert_ne.
Qed.

Lemma wf_link p q n l :
  wf p → in_list p n = false → l ≡ₚ n :: members p q → wf (link q n l p).
Proof.
  intros Hwf Hn Hl. pose proof (proj1 (in_list_false _ _ Hwf) Hn) as Hni.
  split; unfold link; simpl.
  - intros m q'. rewrite members_insert. destruct (decide (m = n)) as [->|Hm].
    + rewrite lookup_insert_eq. case_decide as Hq; [subst; rewrite Hl; set_solver|].
      split; [congruence|]. intros Hin. by apply Hni in Hin.
    + rewrite lookup_insert_ne by done. rewrite (wf_owner _ Hwf). case_decide; [|done].
      subst. rewrite Hl. set_solver.
  - intros q'. rewrite members_insert. case_decide; [|apply (wf_nodup _ Hwf)].
    rewrite Hl. apply NoDup_cons. split; [apply Hni|apply (wf_nodup _ Hwf)].
  - intros m q' Hm. destruct (decide (q' = q)) as [->|].
    + rewrite lookup_insert_eq. eauto.
    + rewrite lookup_insert_ne by done. destruct (decide (m = n)) as [->|].
      * rewrite lookup_insert_eq in Hm. congruence.
      * rewrite lookup_insert_ne in Hm by done. by eapply wf_init.
Qed.

Lemma insert_before_split e n xs ys :
  e ∉ xs → insert_before e n (xs ++ e :: ys) = xs ++ n :: e :: ys.
Proof.
  induction xs as [|x xs IH]; intros Hx; simpl; [by rewrite decide_True|].
  rewrite decide_False by set_solver. rewrite IH; set_solver.
Qed.

Lemma insert_after_split e n xs ys :
  e ∉ xs → insert_after e n (xs ++ e :: ys) = xs ++ e :: n :: ys.
Proof.
  induction xs as [|x xs IH]; intros Hx; simpl; [by rewrite decide_True|].
  rewrite decide_False by set_solver. rewrite IH; set_solver.
Qed.

Lemma remove_split n xs ys : n ∉ xs → n ∉ ys → remove n (xs ++ n :: ys) = xs ++ ys.
Proof.
  intros Hx Hy. unfold remove. rewrite filter_app, filter_cons_False by tauto.
  assert (∀ zs : list N, n ∉ zs → filter (λ x, x ≠ n) zs = zs) as Hid.
  { induction zs as [|z zs IH]; [done|]. intros Hz.
    rewrite filter_cons_True by set_solver. rewrite IH; set_solver. }
  by rewrite !Hid.
Qed.

Lemma elem_of_remove n m l : m ∈ remove n l ↔ m ∈ l ∧ m ≠ n.
Proof. unfold remove. rewrite list_elem_of_filter. tauto. Qed.

(** Where a linked node sits. *)
Lemma owner_split p n q :
  wf p → owner p !! n = Some q →
  ∃ xs ys, members p q = xs ++ n :: ys ∧ n ∉ xs ∧ n ∉ ys.
Proof.
  intros Hwf Hn. apply (wf_owner _ Hwf) in Hn.
  apply list_elem_of_split in Hn as (xs & ys & Heq). exists xs, ys.
  pose proof (wf_nodup _ Hwf q) as Hnd. rewrite Heq in Hnd.
  revert Hnd. rewrite NoDup_app, NoDup_cons. set_solver.
Qed.

Lemma add_head_Ok p q n p' :
  add_head q n p = Ok p' ↔
  is_Some (lists p !! q) ∧ in_list p n = false ∧ p' = link q n (n :: members p q) p.
Proof.
  unfold add_head, members. destruct (lists p !! q) as [l|], (in_list p n); simpl;
    (split; [intros; simplify_eq; eauto|intros ([? ?] & ? & ?); simplify_eq; eauto]).
Qed.

Lemma add_tail_Ok p q n p' :
  add_tail q n p = Ok p' ↔
  is_Some (lists p !! q) ∧ in_list p n = false ∧ p' = link q n (members p q ++ [n]) p.
Proof.
  unfold add_tail, members. destruct (lists p !! q) as [l|], (in_list p n); simpl;
    (split; [intros; simplify_eq; eauto|intros ([? ?] & ? & ?); simplify_eq; eauto]).
Qed.

Lemma wf_add_head p q n p' : wf p → add_head q n p = Ok p' → wf p'.
Proof. intros Hwf (? & ? & ->)%add_head_Ok. by apply wf_link. Qed.

Lemma wf_add_tail p q n p' : wf p → add_tail q n p = Ok p' → wf p'.
Proof.
  intros Hwf (? & ? & ->)%add_tail_Ok. apply wf_link; [done..|].
  by rewrite Permutation_app_comm.
Qed.

Lemma wf_add_before p e n p' : wf p → add_before e n p = Ok p' → wf p'.
Proof.
  intros Hwf. unfold add_before. intros Hp.
  destruct (owner p !! e) as [q|] eqn:He; simpl in Hp; [|done].
  destruct (in_list p n) eqn:Hn; [done|]. res_inv. subst p'.
  destruct (owner_split _ _ _ Hwf He) as (xs & ys & Hm & Hx & Hy).
  apply wf_link; [done..|]. rewrite Hm, insert_before_split by done.
  by rewrite Permutation_middle.
Qed.

Lemma wf_add_after p e n p' : wf p → add_after e n p = Ok p' → wf p'.
Proof.
  intros Hwf. unfold add_after. intros Hp.
  destruct (owner p !! e) as [q|] eqn:He; simpl in Hp; [|done].
  destruct (in_list p n) eqn:Hn; [done|]. res_inv. subst p'.
  destruct (owner_split _ _ _ Hwf He) as (xs & ys & Hm & Hx & Hy).
  apply wf_link; [done..|]. rewrite Hm, insert_after_split by done.
  rewrite Permutation_middle. apply Permutation_app_head. constructor.
Qed.

Lemma delete_node_Ok p n p' :
  delete_node n p = Ok p' ↔
  ∃ q, owner p !! n = Some q ∧
    p' = mk_pool (<[q := remove n (members p q)]> (lists p)) (delete n (owner p)).
Proof.
  unfold delete_node. destruct (owner p !! n); simpl; split.
  - intros. simplify_eq. eauto.
  - intros (? & ? & ?). by simplify_eq.
  - done.
  - by intros (? & ? & ?).
Qed.

Lemma wf_delete_node p n p' : wf p → delete_node n p = Ok p' → wf p'.
Proof.
  intros Hwf (q & Hn & ->)%delete_node_Ok. split; simpl.
  - intros m q'. rewrite members_insert. destruct (decide (m = n)) as [->|Hm].
    + rewrite lookup_delete_eq. case_decide as Hq; [subst; rewrite elem_of_remove; naive_solver|].
      split; [done|]. intros Hin. apply (wf_owner _ Hwf) in Hin. congruence.
    + rewrite lookup_delete_ne by done. rewrite (wf_owner _ Hwf). case_decide; [|done].
      subst. rewrite elem_of_remove. naive_solver.
  - intros q'. rewrite members_insert. case_decide; [|apply (wf_nodup _ Hwf)].
    unfold remove. apply NoDup_filter, (wf_nodup _ Hwf).
  - intros m q' Hm. apply lookup_delete_Some in Hm as [_ Hm].
    apply (wf_init _ Hwf) in Hm. destruct (decide (q' = q)) as [->|].
    + rewrite lookup_insert_eq. eauto.
    + by rewrite lookup_insert_ne.
Qed.

Lemma peek_head_Some p q n : peek_head p q = Some n ↔ ∃ l, members p q = n :: l.
Proof. unfold peek_head. by rewrite head_Some. Qed.

Lemma peek_tail_Some p q n : peek_tail p q = Some n ↔ ∃ l, members p q = l ++ [n].
Proof. unfold peek_tail. by rewrite last_Some. Qed.

(** Popping never faults: it returns the first member, or nothing. *)
Lemma remove_head_total p q :
  wf p → ∃ p', remove_head q p = Ok (head (members p q), p') ∧ wf p' ∧
    members p' q = tail (members p q) ∧ (∀ q', q' ≠ q → members p' q' = members p q').
Proof.
  intros Hwf. unfold remove_head, peek_head. destruct (members p q) as [|n l] eqn:Hm; simpl.
  { eexists. split_and!; [done..|by rewrite Hm|done]. }
  assert (owner p !! n = Some q) as Hn by (apply (wf_owner _ Hwf); rewrite Hm; set_solver).
  destruct (delete_node n p) as [p'|] eqn:Hd; [|by unfold delete_node in Hd; rewrite Hn in Hd].
  simpl. exists p'. pose proof (wf_delete_node _ _ _ Hwf Hd) as Hwf'.
  apply delete_node_Ok in Hd as (q2 & Hq2 & ->). simplify_eq.
  split_and!; [done..| |].
  - rewrite members_insert, decide_True, Hm by done.
    pose proof (wf_nodup _ Hwf q) as Hnd. rewrite Hm, NoDup_cons in Hnd.
    apply (remove_split n []); set_solver.
  - intros q' Hq'. by rewrite members_insert, decide_False.
Qed.

Lemma remove_tail_total p q :
  wf p → ∃ p', remove_tail q p = Ok (last (members p q), p') ∧ wf p' ∧
    members p' q = removelast (members p q) ∧ (∀ q', q' ≠ q → members p' q' = members p q').
Proof.
  intros Hwf. unfold remove_tail, peek_tail. destruct (last (members p q)) as [n|] eqn:Hl; simpl.
  - apply last_Some in Hl as [l Hm].
    assert (owner p !! n = Some q) as Hn by (apply (wf_owner _ Hwf); rewrite Hm; set_solver).
    destruct (delete_node n p) as [p'|] eqn:Hd; [|by unfold delete_node in Hd; rewrite Hn in Hd].
    simpl. exists p'. pose proof (wf_delete_node _ _ _ Hwf Hd) as Hwf'.
    apply delete_node_Ok in Hd as (q2 & Hq2 & ->). simplify_eq.
    split_and!; [done..| |].
    + rewrite members_insert, decide_True, Hm, removelast_last by done.
      pose proof (wf_nodup _ Hwf q) as Hnd. rewrite Hm, NoDup_app in Hnd.
      rewrite (remove_split n l []); [by rewrite app_nil_r|set_solver..].
    + intros q' Hq'. by rewrite members_insert, decide_False.
  - apply last_None in Hl. eexists. rewrite Hl. by split_and!.
Qed.

End pool.
Arguments pool L N {_ _ _ _}.
End Pool.

(** * The code implements the specification *)

Module Refine.

Section refine.
Context {L N : Type} `{Countable L, Countable N}.

Inductive list_op :=
| AddHead (q : L) (n : N)
| AddTail (q : L) (n : N)
| AddBefore (e n : N)
| AddAfter (e n : N)
| Delete (n : N)
| RemoveHead (q : L)
| RemoveTail (q : L).

Definition run_spec (op : list_op) (p : Pool.pool L N) : res (option N * Pool.pool L N) :=
  match op with
  | AddHead q n => p' ← Pool.add_head q n p; Ok (None, p')
  | AddTail q n => p' ← Pool.add_tail q n p; Ok (None, p')
  | AddBefore e n => p' ← Pool.add_before e n p; Ok (None, p')
  | AddAfter e n => p' ← Pool.add_after e n p; Ok (None, p')
  | Delete n => p' ← Pool.delete_node n p; Ok (None, p')
  | RemoveHead q => Pool.remove_head q p
  | RemoveTail q => Pool.remove_tail q p
  end.

(** The addresses of the heads and of the embedded nodes. *)
Context (ha : L → nat) (na : N → nat).

Definition run_code (op : list_op) (h : gmap nat Ptr.list_node) :
    res (nat * gmap nat Ptr.list_node) :=
  match op with
  | AddHead q n => h' ← Ptr.list_add_head h (ha q) (na n); Ok (Ptr.NULL, h')
  | AddTail q n => h' ← Ptr.list_add_tail h (ha q) (na n); Ok (Ptr.NULL, h')
  | AddBefore e n => h' ← Ptr.list_add_before h (na e) (na n); Ok (Ptr.NULL, h')
  | AddAfter e n => h' ← Ptr.list_add_after h (na e) (na n); Ok (Ptr.NULL, h')
  | Delete n => h' ← Ptr.list_delete h (na n); Ok (Ptr.NULL, h')
  | RemoveHead q => Ptr.list_remove_head h (ha q)
  | RemoveTail q => Ptr.list_remove_tail h (ha q)
  end.

Definition op_node (op : list_op) : option N :=
  match op with
  | AddHead _ n | AddTail _ n | AddBefore _ n | AddAfter _ n => Some n
  | _ => None
  end.

(** Distinct objects have distinct, non-null addresses. *)
Record layout : Prop := {
  lay_ha : Inj (=) (=) ha;
  lay_na : Inj (=) (=) na;
  lay_sep : ∀ q n, ha q ≠ na n;
  lay_ha0 : ∀ q, ha q ≠ Ptr.NULL;
  lay_na0 : ∀ n, na n ≠ Ptr.NULL;
}.

(** The heap holds every list of the pool as a ring, and every other node of
    [nodes] with cleared links. *)
Record repr (nodes : gset N) (p : Pool.pool L N) (h : gmap nat Ptr.list_node) : Prop := {
  rep_lists : ∀ q l, Pool.lists p !! q = Some l → Ptr.dll h (ha q) (na <$> l);
  rep_free : ∀ n, n ∈ nodes → Pool.owner p !! n = None → Ptr.cleared h (na n);
}.

Context (Hlay : layout).

Lemma na_elem n (l : list N) : na n ∈ na <$> l ↔ n ∈ l.
Proof using Hlay.
  rewrite list_elem_of_fmap. split; [|by eauto].
  intros (m & Hm & ?). by apply (lay_na Hlay) in Hm as ->.
Qed.

Lemma ha_elem q (l : list N) : ha q ∉ na <$> l.
Proof using Hlay. rewrite list_elem_of_fmap. intros (m & Hm & _). by apply (lay_sep Hlay) in Hm. Qed.

Lemma repr_link nodes p h h' q n l :
  Pool.wf p → repr nodes p h → Pool.in_list p n = false → l ≡ₚ n :: Pool.members p q →
  Ptr.dll h' (ha q) (na <$> l) →
  (∀ b, b ∉ ha q :: na n :: (na <$> Pool.members p q) → h' !! b = h !! b) →
  repr nodes (Pool.link q n l p) h'.
Proof using Hlay.
  intros Hwf Hr Hn Hl Hd Hf. pose proof (proj1 (Pool.in_list_false _ _ Hwf) Hn) as Hni.
  split; unfold Pool.link; simpl.
  - intros q' l' Hq'. apply lookup_insert_Some in Hq' as [[<- <-]|[Hne Hq']]; [done|].
    eapply Ptr.dll_frame; [by eapply rep_lists|].
    assert (Pool.members p q' = l') as <- by (unfold Pool.members; by rewrite Hq').
    intros b Hb. apply Hf. intros Hin.
    repeat (rewrite elem_of_cons in Hb || rewrite elem_of_cons in Hin).
    destruct Hb as [->|Hb], Hin as [Hin|[Hin|Hin]].
    + by apply (lay_ha Hlay) in Hin.
    + by apply (lay_sep Hlay) in Hin.
    + by apply ha_elem in Hin.
    + rewrite Hin in Hb. by apply ha_elem in Hb.
    + rewrite Hin, na_elem in Hb. by apply Hni in Hb.
    + apply list_elem_of_fmap in Hb as (m & -> & Hm). rewrite na_elem in Hin.
      by pose proof (Pool.members_disjoint _ _ _ _ Hwf Hm Hin).
  - intros m Hm Ho. apply lookup_insert_None in Ho as [Ho Hne].
    unfold Ptr.cleared. rewrite Hf; [by apply (rep_free _ _ _ Hr)|].
    rewrite !elem_of_cons, na_elem. intros [E|[E|E]].
    + by apply eq_sym, (lay_sep Hlay) in E.
    + apply (lay_na Hlay) in E. by subst.
    + apply (Pool.wf_owner _ Hwf) in E. congruence.
Qed.

Lemma splice_refines nodes p h q n xs ys :
  Pool.wf p → repr nodes p h → n ∈ nodes → Pool.in_list p n = false →
  is_Some (Pool.lists p !! q) → Pool.members p q = xs ++ ys →
  ∃ h', repr nodes (Pool.link q n (xs ++ n :: ys) p) h' ∧
    Ptr.list_add_head h (default (ha q) (na <$> last xs)) (na n) = Ok h' ∧
    Ptr.list_add_tail h (default (ha q) (na <$> head ys)) (na n) = Ok h'.
Proof using Hlay.
  intros Hwf Hr Hnn Hn [l Hq] Hm.
  assert (l = xs ++ ys) as -> by (unfold Pool.members in Hm; by rewrite Hq in Hm).
  pose proof (rep_lists _ _ _ Hr _ _ Hq) as Hd. rewrite fmap_app in Hd.
  pose proof (proj1 (Pool.in_list_false _ _ Hwf) Hn) as Hni.
  assert (Ptr.cleared h (na n)) as Hc.
  { apply (rep_free _ _ _ Hr); [done|]. unfold Pool.in_list in Hn.
    rewrite bool_decide_eq_false in Hn. by apply eq_None_not_Some. }
  destruct (Ptr.splice_dll h (ha q) (na <$> xs) (na <$> ys) (na n)
    (default (ha q) (na <$> last xs)) (default (ha q) (na <$> head ys)))
    as (h' & E1 & E2 & _ & Hd' & Hf).
  - done.
  - eauto.
  - rewrite <- fmap_app, elem_of_cons, na_elem. intros [E|E].
    + by apply eq_sym, (lay_sep Hlay) in E.
    + apply (Hni q). by rewrite Hm.
  - apply (lay_na0 Hlay).
  - rewrite last_cons, fmap_last. by destruct (last xs).
  - by destruct ys.
  - exists h'. split_and!; [|done..]. eapply repr_link; try done.
    + by rewrite Hm, Permutation_middle.
    + by rewrite fmap_app.
    + intros b Hb. apply Hf. rewrite <- fmap_app, <- Hm. set_solver.
Qed.

Lemma delete_refines nodes p h n p' :
  Pool.wf p → repr nodes p h → Pool.delete_node n p = Ok p' →
  ∃ h', Ptr.list_delete h (na n) = Ok h' ∧ repr nodes p' h'.
Proof using Hlay.
  intros Hwf Hr (q & Hn & ->)%Pool.delete_node_Ok.
  destruct (Pool.owner_split _ _ _ Hwf Hn) as (xs & ys & Hm & Hx & Hy).
  destruct (Pool.wf_init _ Hwf _ _ Hn) as [l Hq].
  assert (l = xs ++ n :: ys) as -> by (unfold Pool.members in Hm; by rewrite Hq in Hm).
  pose proof (rep_lists _ _ _ Hr _ _ Hq) as Hd. rewrite fmap_app in Hd.
  destruct (Ptr.list_delete_dll h (ha q) (na <$> xs) (na <$> ys) (na n))
    as (h' & E & _ & Hd' & Hc & Hf); [done|].
  exists h'. split; [done|]. rewrite Hm, Pool.remove_split by done. split; simpl.
  - intros q' l' Hq'. apply lookup_insert_Some in Hq' as [[<- <-]|[Hne Hq']].
    { by rewrite fmap_app. }
    eapply Ptr.dll_frame; [by eapply rep_lists|].
    assert (Pool.members p q' = l') as <- by (unfold Pool.members; by rewrite Hq').
    intros b Hb. apply Hf. rewrite <- fmap_cons, <- fmap_app, <- Hm.
    rewrite elem_of_cons in Hb |- *. destruct Hb as [->|Hb]; intros [Hin|Hin].
    + by apply (lay_ha Hlay) in Hin.
    + by apply ha_elem in Hin.
    + rewrite Hin in Hb. by apply ha_elem in Hb.
    + apply list_elem_of_fmap in Hb as (m & -> & Hb). rewrite na_elem in Hin.
      by pose proof (Pool.members_disjoint _ _ _ _ Hwf Hb Hin).
  - intros m Hmn Ho. destruct (decide (m = n)) as [->|Hne]; [done|].
    rewrite lookup_delete_ne in Ho by done.
    unfold Ptr.cleared. rewrite Hf; [by apply (rep_free _ _ _ Hr)|].
    rewrite <- fmap_cons, <- fmap_app, <- Hm, elem_of_cons, na_elem. intros [E'|E'].
    + by apply eq_sym, (lay_sep Hlay) in E'.
    + apply (Pool.wf_owner _ Hwf) in E'. congruence.
Qed.

Definition op_head (op : list_op) : option L :=
  match op with
  | AddHead q _ | AddTail q _ | RemoveHead q | RemoveTail q => Some q
  | _ => None
  end.

(** The operation names allocated nodes and initialised heads only. *)
Definition op_valid (nodes : gset N) (p : Pool.pool L N) (op : list_op) : Prop :=
  (∀ n, op_node op = Some n → n ∈ nodes) ∧
  (∀ q, op_head op = Some q → is_Some (Pool.lists p !! q)).

Lemma remove_refines nodes p h n p' q (r : res (nat * gmap nat Ptr.list_node)) :
  Pool.wf p → repr nodes p h → Pool.delete_node n p = Ok p' → is_Some (Pool.lists p !! q) →
  (∃ h', r = Ok (na n, h') ∧ Ptr.list_delete h (na n) = Ok h') →
  ∃ h', r = Ok (na n, h') ∧ repr nodes p' h' ∧ Pool.wf p'.
Proof using Hlay.
  intros Hwf Hr Hd _ (h' & -> & E). exists h'. split; [done|].
  split; [|by eapply Pool.wf_delete_node].
  destruct (delete_refines _ _ _ _ _ Hwf Hr Hd) as (h2 & E2 & Hr2). congruence.
Qed.

Lemma repr_dll nodes p h q :
  repr nodes p h → is_Some (Pool.lists p !! q) → Ptr.dll h (ha q) (na <$> Pool.members p q).
Proof.
  intros Hr [l Hl]. unfold Pool.members. rewrite Hl. by apply (rep_lists _ _ _ Hr).
Qed.

Lemma run_refines nodes p h op r p' :
  Pool.wf p → repr nodes p h → op_valid nodes p op → run_spec op p = Ok (r, p') →
  ∃ h', run_code op h = Ok (default Ptr.NULL (na <$> r), h') ∧ repr nodes p' h' ∧ Pool.wf p'.
Proof using Hlay.
  intros Hwf Hr [Hnode Hhead] Hop. destruct op as [q n|q n|e n|e n|n|q|q]; simpl in *.
  - res_inv; subst. pose proof (Pool.wf_add_head _ _ _ _ Hwf E) as Hwf'.
    apply Pool.add_head_Ok in E as (Hq & Hn & ->).
    destruct (splice_refines nodes p h q n [] (Pool.members p q)) as (h' & Hr' & E1 & _); eauto.
    simpl in E1. rewrite E1. simpl. eauto.
  - res_inv; subst. pose proof (Pool.wf_add_tail _ _ _ _ Hwf E) as Hwf'.
    apply Pool.add_tail_Ok in E as (Hq & Hn & ->).
    destruct (splice_refines nodes p h q n (Pool.members p q) []) as (h' & Hr' & _ & E1); eauto.
    { by rewrite app_nil_r. }
    simpl in E1. rewrite E1. simpl. eauto.
  - res_inv; subst. pose proof (Pool.wf_add_before _ _ _ _ Hwf E) as Hwf'.
    unfold Pool.add_before in E. destruct (Pool.owner p !! e) as [q|] eqn:He; simpl in E; [|done].
    destruct (Pool.in_list p n) eqn:Hn; [done|]. res_inv; subst.
    destruct (Pool.owner_split _ _ _ Hwf He) as (xs & ys & Hm & Hx & Hy).
    rewrite Hm, Pool.insert_before_split in * by done.
    destruct (splice_refines nodes p h q n xs (e :: ys)) as (h' & Hr' & _ & E1);
      eauto using Pool.wf_init.
    unfold Ptr.list_add_before. simpl in E1. rewrite E1. simpl. eauto.
  - res_inv; subst. pose proof (Pool.wf_add_after _ _ _ _ Hwf E) as Hwf'.
    unfold Pool.add_after in E. destruct (Pool.owner p !! e) as [q|] eqn:He; simpl in E; [|done].
    destruct (Pool.in_list p n) eqn:Hn; [done|]. res_inv; subst.
    destruct (Pool.owner_split _ _ _ Hwf He) as (xs & ys & Hm & Hx & Hy).
    rewrite Hm, Pool.insert_after_split in * by done.
    destruct (splice_refines nodes p h q n (xs ++ [e]) ys) as (h' & Hr' & E1 & _);
      eauto using Pool.wf_init.
    { by rewrite <- app_assoc. }
    rewrite last_snoc in E1. unfold Ptr.list_add_after. simpl in E1. rewrite E1. simpl.
    rewrite <- app_assoc in Hr'. eauto.
  - res_inv; subst.
    destruct (delete_refines _ _ _ _ _ Hwf Hr E) as (h' & -> & ?). simpl.
    eauto 10 using Pool.wf_delete_node.
  - pose proof (repr_dll _ _ _ _ Hr (Hhead q eq_refl)) as Hd.
    unfold Pool.remove_head, Pool.peek_head in Hop.
    destruct (Pool.members p q) as [|n l] eqn:Hm; simpl in Hop; res_inv; subst.
    + rewrite (Ptr.list_remove_head_dll_nil _ _ Hd). eauto.
    + eapply remove_refines; eauto. by eapply Ptr.list_remove_head_dll.
  - pose proof (repr_dll _ _ _ _ Hr (Hhead q eq_refl)) as Hd.
    unfold Pool.remove_tail, Pool.peek_tail in Hop.
    destruct (last (Pool.members p q)) as [n|] eqn:Hm; simpl in Hop; res_inv; subst.
    + apply last_Some in Hm as [l Hm]. rewrite Hm, fmap_app in Hd.
      eapply remove_refines; eauto. by eapply Ptr.list_remove_tail_dll.
    + apply last_None in Hm. rewrite Hm in Hd.
      rewrite (Ptr.list_remove_tail_dll_nil _ _ Hd). eauto.
Qed.

Lemma run_spec_keeps_heads op p r p' q :
  run_spec op p = Ok (r, p') → is_Some (Pool.lists p !! q) → is_Some (Pool.lists p' !! q).
Proof.
  assert (∀ q2 l o, is_Some (Pool.lists p !! q) →
    is_Some (Pool.lists (Pool.mk_pool (<[q2 := l]> (Pool.lists p)) o) !! q)) as Hins.
  { intros q2 l o Hq. simpl. destruct (decide (q = q2)) as [->|].
    - rewrite lookup_insert_eq. eauto.
    - by rewrite lookup_insert_ne. }
  destruct op; simpl; unfold Pool.add_head, Pool.add_tail, Pool.add_before, Pool.add_after,
    Pool.remove_head, Pool.remove_tail, Pool.delete_node, Pool.link;
    intros; repeat (case_match; res_inv; subst); res_inv; subst; eauto.
Qed.

Fixpoint run_specs (ops : list list_op) (p : Pool.pool L N) :
    res (list (option N) * Pool.pool L N) :=
  match ops with
  | [] => Ok ([], p)
  | op :: ops =>
      '(r, p) ← run_spec op p;
      '(rs, p) ← run_specs ops p;
      Ok (r :: rs, p)
  end.

Fixpoint run_codes (ops : list list_op) (h : gmap nat Ptr.list_node) :
    res (list nat * gmap nat Ptr.list_node) :=
  match ops with
  | [] => Ok ([], h)
  | op :: ops =>
      '(r, h) ← run_code op h;
      '(rs, h) ← run_codes ops h;
      Ok (r :: rs, h)
  end.

Lemma runs_refine nodes ops p h rs p' :
  Pool.wf p → repr nodes p h → Forall (op_valid nodes p) ops → run_specs ops p = Ok (rs, p') →
  ∃ h', run_codes ops h = Ok ((λ r, default Ptr.NULL (na <$> r)) <$> rs, h') ∧ repr nodes p' h'.
Proof using Hlay.
  revert p h rs p'. induction ops as [|op ops IH]; intros p h rs p' Hwf Hr Hv Hrun; simpl in *.
  { res_inv; subst. eauto. }
  apply Forall_cons in Hv as [Hop Hv].
  destruct (run_spec op p) as [[r p1]|] eqn:E1; simpl in Hrun; [|done].
  destruct (run_specs ops p1) as [[rs1 p2]|] eqn:E2; simpl in Hrun; [|done].
  injection Hrun as <- <-.
  destruct (run_refines _ _ _ _ _ _ Hwf Hr Hop E1) as (h1 & -> & Hr1 & Hwf1). simpl.
  edestruct IH as (h2 & E & Hr2); [exact Hwf1|exact Hr1| |exact E2|].
  { eapply Forall_impl; [done|]. intros op' [? ?]. split; [done|].
    eauto using run_spec_keeps_heads. }
  rewrite E. simpl. eauto.
Qed.

End refine.
Arguments list_op L N : clear implicits.

(** A concrete layout, for the examples: heads at even, nodes at odd
    addresses. *)
Definition ha0 (q : nat) : nat := 2 * q + 2.
Definition na0 (n : nat) : nat := 2 * n + 1.

Lemma layout0 : layout ha0 na0.
Proof.
  split; unfold ha0, na0, Ptr.NULL; try (intros ?; lia); try (intros ??; lia).
Qed.

Definition heap0 : gmap nat Ptr.list_node :=
  list_to_map [(2, Ptr.mk_node 2 2); (4, Ptr.mk_node 4 4);
               (1, Ptr.mk_node 0 0); (3, Ptr.mk_node 0 0); (5, Ptr.mk_node 0 0)]%nat.
Definition pool0 : Pool.pool nat nat := Pool.init_list 0%nat (Pool.init_list 1%nat Pool.empty_pool).
Definition nodes0 : gset nat := {[0; 1; 2]}%nat.

Lemma wf_pool0 : Pool.wf pool0.
Proof. apply Pool.wf_init_list; [apply Pool.wf_init_list; [apply Pool.wf_empty|]|]; done. Qed.

Lemma repr0 : repr ha0 na0 nodes0 pool0 heap0.
Proof.
  split.
  - intros q l Hq. unfold pool0, Pool.init_list in Hq. simpl in Hq.
    apply lookup_insert_Some in Hq as [[<- <-]|[_ Hq]];
      [|apply lookup_insert_Some in Hq as [[<- <-]|[_ Hq]]; [|by rewrite lookup_empty in Hq]].
    all: split_and!; [by vm_compute|apply NoDup_singleton|unfold Ptr.NULL, ha0; simpl; set_solver].
  - intros n Hn _. unfold nodes0 in Hn. rewrite !elem_of_union, !elem_of_singleton in Hn.
    destruct Hn as [[->| ->]| ->]; reflexivity.
Qed.

Definition ops0 : list (list_op nat nat) :=
  [AddHead 0 0; AddTail 0 1; AddBefore 1 2; RemoveTail 0; AddTail 1 1; Delete 0; RemoveHead 0]%nat.

(** C3: every sequence of list operations that the specification carries out
    without a fault is carried out by the pointer code of [list.h] with the
    same results, and leaves the heap representing the same lists. *)
Theorem list_code_implements_spec {L N} `{Countable L, Countable N}
    (ha : L → nat) (na : N → nat) (nodes : gset N) ops p h rs p' :
  layout ha na → Pool.wf p → repr ha na nodes p h → Forall (op_valid nodes p) ops →
  run_specs ops p = Ok (rs, p') →
  ∃ h', run_codes ha na ops h = Ok ((λ r, default Ptr.NULL (na <$> r)) <$> rs, h') ∧
        repr ha na nodes p' h'.
Proof. intros. by eapply runs_refine. Qed.

Lemma list_code_implements_spec_witness :
  ∃ h', run_codes ha0 na0 ops0 heap0 = Ok ([0; 0; 0; 3; 0; 0; 5], h')%nat.
Proof.
  destruct (run_specs ops0 pool0) as [[rs p']|] eqn:E; [|by vm_compute in E].
  edestruct (list_code_implements_spec ha0 na0 nodes0 ops0 pool0 heap0)
    as (h' & Hc & _); [apply layout0|apply wf_pool0|apply repr0| |exact E|].
  - apply Forall_forall. intros op Hop. split.
    + intros n Hn. apply (bool_decide_unpack _). 
      repeat (apply elem_of_cons in Hop as [->|Hop]; [simpl in Hn; simplify_eq; by vm_compute|]).
      by apply not_elem_of_nil in Hop.
    + intros q Hq. apply (bool_decide_unpack _).
      repeat (apply elem_of_cons in Hop as [->|Hop]; [simpl in Hq; simplify_eq; by vm_compute|]).
      by apply not_elem_of_nil in Hop.
  - exists h'. rewrite Hc. vm_compute in E. injection E as <- _. reflexivity.
Defined.

(** The iteration macro and [list_length] terminate on a well-formed list:
    they visit its members in order and count them, whatever fuel above the
    length is given. *)
Theorem list_for_every_visits h l xs fuel :
  Ptr.dll h l xs → (length xs ≤ fuel)%nat →
  Ptr.list_for_every fuel h l = Ok (Some xs) ∧ Ptr.list_length fuel h l = Ok (Some (length xs)).
Proof.
  intros Hd Hf. pose proof (Ptr.list_for_every_dll _ _ _ _ Hd Hf) as E.
  split; [done|]. unfold Ptr.list_length. by rewrite E.
Qed.

Lemma list_for_every_visits_witness :
  Ptr.list_length 2 (<[1 := Ptr.mk_node 2 2]> (<[2 := Ptr.mk_node 1 1]> ∅))%nat 2 = Ok (Some 1%nat).
Proof.
  apply (list_for_every_visits _ 2 [1] 2)%nat; [|simpl; lia].
  split_and!; [by vm_compute|apply (bool_decide_unpack _); by vm_compute|unfold Ptr.NULL; set_solver].
Defined.
End Refine.
