(* ===== verification/Cbuf.v ===== *)
(** Circular buffers: [lib/cbuf/cbuf.c] and [lib/cbuf/include/lib/cbuf.h].

    The functions run under the buffer's spinlock, so each is one step on the
    state of the buffer.  Of the event only the signaled bit is kept: waking the
    threads that wait on it, and the preemption that may follow, are the
    kernel's. *)
From stdpp Require Import prelude.
From S2P Require Import Prelude Pow2 Bytes.

#[local] Open Scope Z_scope.

Record cbuf := mk_cbuf {
  head : Z;
  tail : Z;
  len_pow2 : Z;
  buf : list Z;
  signaled : bool;
}.

Definition with_head (h : Z) (c : cbuf) := mk_cbuf h (tail c) (len_pow2 c) (buf c) (signaled c).
Definition with_tail (t : Z) (c : cbuf) := mk_cbuf (head c) t (len_pow2 c) (buf c) (signaled c).
Definition with_buf (b : list Z) (c : cbuf) := mk_cbuf (head c) (tail c) (len_pow2 c) b (signaled c).
Definition with_signaled (b : bool) (c : cbuf) := mk_cbuf (head c) (tail c) (len_pow2 c) (buf c) b.

Definition INC_POINTER (c : cbuf) (ptr inc : Z) : Z := modpow2 (u32 (ptr + inc)) (len_pow2 c).

(** [buf] is the memory the buffer is given, or [None] for a null pointer. *)
Definition cbuf_initialize_etc (len : Z) (b : option (list Z)) : res cbuf :=
  b ← of_option AssertFailed b;
  assert_ (0 <? len);;
  assert_ (ispow2 (u32 len));;
  Ok (mk_cbuf 0 0 (log2_uint (u32 len)) b false).

(** The result of [malloc] is an argument. *)
Definition cbuf_initialize (len : Z) (malloc : option (list Z)) : res cbuf :=
  cbuf_initialize_etc len malloc.

Definition cbuf_size (c : cbuf) : Z := u64 (Z.shiftl 1 (len_pow2 c)).

Definition cbuf_space_avail (c : cbuf) : Z :=
  let consumed := modpow2 (u32 (head c - tail c)) (len_pow2 c) in
  u32 (valpow2 (len_pow2 c) - consumed - 1).

Definition cbuf_is_full (c : cbuf) : bool := INC_POINTER c (head c) 1 =? tail c.

Definition cbuf_space_used (c : cbuf) : Z := modpow2 (u32 (head c - tail c)) (len_pow2 c).

(** How much one pass of the write loop can write. *)
Definition write_len (c : cbuf) (rest : Z) : Z :=
  if tail c <=? head c then
    if tail c =? 0 then MIN (u32 (valpow2 (len_pow2 c) - head c - 1)) rest
    else MIN (u32 (valpow2 (len_pow2 c) - head c)) rest
  else MIN (u32 (tail c - head c - 1)) rest.

(** The loop of [cbuf_write].  A null source writes zeroes. *)
Fixpoint write_loop (fuel : nat) (src : option (list Z)) (len pos : Z) (c : cbuf) : res (Z * cbuf) :=
  match fuel with
  | O => Fault OutOfFuel
  | S fuel =>
      if (pos <? len) && (0 <? cbuf_space_avail c) then
        let n := write_len c (len - pos) in
        if n =? 0 then Ok (pos, c) else
        d ← match src with
            | None => Ok (replicate (Z.to_nat n) 0)
            | Some s => mem_read s pos n
            end;
        b ← mem_write (head c) d (buf c);
        let c := with_buf b c in
        let c := with_head (INC_POINTER c (head c) n) c in
        write_loop fuel src len (pos + n) c
      else Ok (pos, c)
  end.

(** At most two passes write, the third only finds that nothing is left. *)
Definition cbuf_write (c : cbuf) (src : option (list Z)) (len : Z) : res (Z * cbuf) :=
  assert_ (len <? valpow2 (len_pow2 c));;
  '(pos, c) ← write_loop 3 src len 0 c;
  let c := if head c =? tail c then c else with_signaled true c in
  Ok (pos, c).

(** How much one pass of the read loop can read. *)
Definition read_len (c : cbuf) (rest : Z) : Z :=
  if tail c <? head c then MIN (u32 (head c - tail c)) rest
  else MIN (u32 (valpow2 (len_pow2 c) - tail c)) rest.

(** The loop of [cbuf_read]; the bytes read are collected in [acc]. *)
Fixpoint read_loop (fuel : nat) (buflen pos : Z) (acc : list Z) (c : cbuf) : res (Z * list Z * cbuf) :=
  match fuel with
  | O => Fault OutOfFuel
  | S fuel =>
      if (pos <? buflen) && negb (tail c =? head c) then
        let n := read_len c (buflen - pos) in
        d ← mem_read (buf c) (tail c) n;
        let c := with_tail (INC_POINTER c (tail c) n) c in
        read_loop fuel buflen (pos + n) (acc ++ d) c
      else Ok (pos, acc, c)
  end.

(** One attempt, under the lock.  When the caller blocks and the result is 0 it
    waits on the event and tries again. *)
Definition cbuf_read (c : cbuf) (buflen : Z) : res (Z * list Z * cbuf) :=
  if tail c =? head c then Ok (0, [], c) else
  '(pos, d, c) ← read_loop 3 buflen 0 [] c;
  c ← (if tail c =? head c then assert_ (0 <? pos);; Ok (with_signaled false c) else Ok c);
  Ok (pos, d, c).

Definition cbuf_reset (c : cbuf) : res (Z * list Z * cbuf) := cbuf_read c (cbuf_size c).

(** The regions are given as offset and length; [None] is a null base. *)
Definition iovec : Type := option Z * Z.

Definition cbuf_peek (c : cbuf) : res (Z * (iovec * iovec)) :=
  let ret := cbuf_space_used c in
  let sz := cbuf_size c in
  assert_ (tail c <? sz);;
  assert_ (ret <=? sz);;
  let base0 := if ret =? 0 then None else Some (tail c) in
  Ok (ret, if sz <? ret + tail c
           then ((base0, sz - tail c), (Some 0, ret - (sz - tail c)))
           else ((base0, ret), (None, 0))).

Definition cbuf_peek_at (c : cbuf) (offset len : Z) : Z * (iovec * iovec) :=
  let size := cbuf_size c in
  let mask := size - 1 in
  let space_used := Z.land (u32 (head c - tail c)) mask in
  if offset <? space_used then
    let to_copy := MIN (space_used - offset) len in
    let curr_tail := Z.land (u64 (tail c + offset)) mask in
    let chunk1_avail := size - curr_tail in
    (to_copy, if to_copy <=? chunk1_avail
              then ((Some curr_tail, to_copy), (None, 0))
              else ((Some curr_tail, chunk1_avail), (Some 0, to_copy - chunk1_avail)))
  else (0, ((None, 0), (None, 0))).

Definition cbuf_write_char (c : cbuf) (ch : Z) : res (Z * cbuf) :=
  if cbuf_is_full c then Ok (0, c) else
  b ← mem_write (head c) [ch] (buf c);
  let c := with_buf b c in
  let c := with_head (INC_POINTER c (head c) 1) c in
  Ok (1, with_signaled true c).

(** One attempt, as [cbuf_read]. *)
Definition cbuf_read_char (c : cbuf) : res (Z * option Z * cbuf) :=
  if tail c =? head c then Ok (0, None, c) else
  ch ← of_option BadAccess (znth (buf c) (tail c));
  let c := with_tail (INC_POINTER c (tail c) 1) c in
  let c := if tail c =? head c then with_signaled false c else c in
  Ok (1, Some ch, c).

(** * Invariant and contents *)

Definition size (c : cbuf) : Z := 2 ^ len_pow2 c.
Definition used (c : cbuf) : Z := (head c - tail c) `mod` size c.

Record wf0 (c : cbuf) : Prop := {
  wf_len : 0 ≤ len_pow2 c < 32;
  wf_head : 0 ≤ head c < size c;
  wf_tail : 0 ≤ tail c < size c;
  wf_buf : zlen (buf c) = size c;
}.

(** The event is signaled exactly while there is data. *)
Record wf (c : cbuf) : Prop := {
  wf_wf0 : wf0 c;
  wf_event : signaled c = negb (head c =? tail c);
}.

(** The byte at distance [i] from the tail. *)
Definition at_ (c : cbuf) (i : Z) : Z := default 0 (znth (buf c) ((tail c + i) `mod` size c)).

(** The queue the buffer stands for. *)
Definition contents (c : cbuf) : list Z := at_ c <$> seqZ 0 (used c).

(** ** Indices *)

Section indices.
Context (c : cbuf) (Hk : 0 ≤ len_pow2 c < 32).

Lemma size_pos : 0 < size c.
Proof using Hk. apply Z.pow_pos_nonneg; lia. Qed.

Lemma size_lt : size c < 2 ^ 32.
Proof using Hk. apply Z.pow_lt_mono_r; lia. Qed.

Lemma valpow2_size : valpow2 (len_pow2 c) = size c.
Proof using Hk. by apply valpow2_pow. Qed.

Lemma u32_mod_size x : u32 x `mod` size c = x `mod` size c.
Proof using Hk.
  unfold u32, size. replace (2 ^ 32) with (2 ^ len_pow2 c * 2 ^ (32 - len_pow2 c))
    by (rewrite <- Z.pow_add_r by lia; f_equal; lia).
  rewrite Z.rem_mul_r; [|apply Z.pow_nonzero; lia|apply Z.pow_pos_nonneg; lia].
  rewrite Z.mul_comm, Z_mod_plus_full, Zmod_mod. done.
Qed.

Lemma INC_POINTER_mod p n : INC_POINTER c p n = (p + n) `mod` size c.
Proof using Hk.
  unfold INC_POINTER. rewrite modpow2_mod by (try lia; apply u32_range). apply u32_mod_size.
Qed.

Lemma space_used_used : cbuf_space_used c = used c.
Proof using Hk.
  unfold cbuf_space_used. rewrite modpow2_mod by (try lia; apply u32_range). apply u32_mod_size.
Qed.

Lemma used_range : 0 ≤ used c < size c.
Proof using Hk. apply Z.mod_pos_bound, size_pos. Qed.

Lemma space_avail_used : cbuf_space_avail c = size c - used c - 1.
Proof using Hk.
  unfold cbuf_space_avail. rewrite valpow2_size. change (modpow2 _ _) with (cbuf_space_used c).
  rewrite space_used_used. pose proof used_range. pose proof size_lt. apply u32_small. lia.
Qed.

(** Distinct distances from the tail are distinct places. *)
Lemma mod_place_inj t a b :
  0 ≤ a < size c → 0 ≤ b < size c → (t + a) `mod` size c = (t + b) `mod` size c → a = b.
Proof using Hk.
  intros Ha Hb E. pose proof size_pos as Hs.
  assert ((a - b) `mod` size c = 0) as Hz.
  { replace (a - b) with (t + a - (t + b)) by lia. rewrite Zminus_mod, E, Z.sub_diag. apply Zmod_0_l. }
  apply Z.mod_divide in Hz as [q Hq]; [|lia]. clear E. generalize dependent (size c). intros m Ha Hb Hs Hq.
  assert (q < 1) by nia. assert (-1 < q) by nia. assert (q = 0) by lia. subst q. lia.
Qed.
End indices.

Lemma mod_wrap a m : 0 < m → 0 ≤ a < 2 * m → a `mod` m = if a <? m then a else a - m.
Proof.
  intros Hm Ha. destruct (Z.ltb_spec a m); [apply Z.mod_small; lia|].
  symmetry. apply (Z.mod_unique_pos a m 1); lia.
Qed.

Lemma used_cases c :
  wf0 c → used c = if tail c <=? head c then head c - tail c else size c + head c - tail c.
Proof.
  intros [Hk Hh Ht _]. pose proof (size_pos c Hk). unfold used. destruct (Z.leb_spec (tail c) (head c)).
  - apply Z.mod_small. lia.
  - symmetry. apply (Z.mod_unique_pos _ _ (-1)); lia.
Qed.

Lemma head_of_used c : wf0 c → head c = (tail c + used c) `mod` size c.
Proof.
  intros Hw. pose proof (used_cases c Hw) as Hu. destruct Hw as [Hk Hh Ht _].
  rewrite Hu. destruct (Z.leb_spec (tail c) (head c)).
  - replace (tail c + (head c - tail c)) with (head c) by lia. symmetry. by apply Z.mod_small.
  - replace (tail c + (size c + head c - tail c)) with (head c + 1 * size c) by lia.
    rewrite Z_mod_plus_full. symmetry. by apply Z.mod_small.
Qed.

Lemma used_0 c : wf0 c → used c = 0 ↔ head c = tail c.
Proof.
  intros Hw. rewrite (used_cases c Hw). destruct Hw as [Hk Hh Ht _].
  destruct (Z.leb_spec (tail c) (head c)); lia.
Qed.

Lemma length_contents c : wf0 c → zlen (contents c) = used c.
Proof.
  intros Hw. unfold zlen, contents. rewrite length_fmap, length_seqZ.
  pose proof (used_range c (wf_len _ Hw)). lia.
Qed.

Lemma znth_contents c i : wf0 c → 0 ≤ i < used c → znth (contents c) i = Some (at_ c i).
Proof.
  intros Hw Hi. rewrite znth_lookup by lia. unfold contents. rewrite list_lookup_fmap, lookup_seqZ_lt by lia.
  simpl. do 2 f_equal. lia.
Qed.

(** ** One chunk *)

Definition put_chunk (d : list Z) (c : cbuf) : cbuf :=
  with_head (INC_POINTER c (head c) (zlen d)) (with_buf (splice (head c) d (buf c)) c).

Definition get_chunk (n : Z) (c : cbuf) : cbuf := with_tail (INC_POINTER c (tail c) n) c.

Lemma put_chunk_used d c :
  wf0 c → head c + zlen d ≤ size c → used c + zlen d < size c →
  wf0 (put_chunk d c) ∧ used (put_chunk d c) = used c + zlen d.
Proof.
  intros Hw Hh Hu. pose proof (size_pos c (wf_len _ Hw)) as Hs. pose proof (head_of_used c Hw) as Eh.
  pose proof Hw as [Hk Hhd Htl Hb]. pose proof (used_range c Hk). pose proof (zlen_nonneg d).
  unfold put_chunk. rewrite INC_POINTER_mod by done. split.
  - split; simpl; [done|apply Z.mod_pos_bound; done|done|]. change (size _) with (size c).
    rewrite zlen_splice by lia. done.
  - transitivity (((head c + zlen d) `mod` size c - tail c) `mod` size c); [done|].
    rewrite Zminus_mod_idemp_l. replace (head c + zlen d - tail c) with (head c + (zlen d - tail c)) by lia.
    rewrite Eh, Zplus_mod_idemp_l.
    replace (tail c + used c + (zlen d - tail c)) with (used c + zlen d) by lia. apply Z.mod_small. lia.
Qed.

Lemma put_chunk_contents d c :
  wf0 c → head c + zlen d ≤ size c → used c + zlen d < size c →
  contents (put_chunk d c) = contents c ++ d.
Proof.
  intros Hw Hh Hu. destruct (put_chunk_used d c Hw Hh Hu) as [Hw' Hu'].
  pose proof (size_pos c (wf_len _ Hw)) as Hs. pose proof (head_of_used c Hw) as Eh.
  pose proof Hw as [Hk Hhd Htl Hb]. pose proof (used_range c Hk) as Hur. pose proof (zlen_nonneg d) as Hd.
  apply zlist_eq; [rewrite zlen_app, !length_contents by done; lia|].
  rewrite length_contents, Hu' by done. intros i Hi. rewrite znth_contents by (done || lia).
  assert (0 ≤ (tail c + i) `mod` size c < size c) as Hp by (by apply Z.mod_pos_bound).
  unfold at_. simpl. change (size (put_chunk d c)) with (size c). rewrite znth_splice by lia.
  destruct (Z.ltb_spec i (used c)) as [Hlt|Hge].
  - rewrite znth_app_l, znth_contents by (rewrite ?length_contents by done; done || lia).
    destruct (Z.leb_spec (head c) ((tail c + i) `mod` size c)) as [Hl|]; [|done].
    destruct (Z.ltb_spec ((tail c + i) `mod` size c) (head c + zlen d)) as [Hr|]; [|done]. exfalso.
    set (j := (tail c + i) `mod` size c - head c) in *.
    assert (i = used c + j); [|lia]. apply (mod_place_inj c Hk (tail c)); [lia|lia|].
    replace (tail c + (used c + j)) with (tail c + used c + j) by lia.
    rewrite <- (Zplus_mod_idemp_l (tail c + used c)), <- Eh, (Z.mod_small (head c + j)); lia.
  - rewrite znth_app_r, length_contents by (rewrite ?length_contents by done; done || lia).
    assert ((tail c + i) `mod` size c = head c + (i - used c)) as ->.
    { replace (tail c + i) with (tail c + used c + (i - used c)) by lia.
      rewrite <- (Zplus_mod_idemp_l (tail c + used c)), <- Eh. apply Z.mod_small. lia. }
    rewrite (proj2 (Z.leb_le _ _)), (proj2 (Z.ltb_lt _ _)) by lia. simpl.
    replace (head c + (i - used c) - head c) with (i - used c) by lia.
    destruct (znth_Some d (i - used c)) as [x ->]; [lia|done].
Qed.

Lemma get_chunk_used n c :
  wf0 c → 0 ≤ n ≤ used c → wf0 (get_chunk n c) ∧ used (get_chunk n c) = used c - n.
Proof.
  intros Hw Hn. pose proof (size_pos c (wf_len _ Hw)) as Hs. pose proof (head_of_used c Hw) as Eh.
  pose proof Hw as [Hk Hhd Htl Hb]. pose proof (used_range c Hk).
  unfold get_chunk. rewrite INC_POINTER_mod by done. split.
  - split; simpl; [done|done|apply Z.mod_pos_bound; done|done].
  - transitivity ((head c - (tail c + n) `mod` size c) `mod` size c); [done|].
    rewrite Zminus_mod_idemp_r, Eh, Zminus_mod_idemp_l.
    replace (tail c + used c - (tail c + n)) with (used c - n) by lia. apply Z.mod_small. lia.
Qed.

Lemma get_chunk_contents n c :
  wf0 c → 0 ≤ n ≤ used c → tail c + n ≤ size c →
  contents c = ztake n (zdrop (tail c) (buf c)) ++ contents (get_chunk n c).
Proof.
  intros Hw Hn Ht. destruct (get_chunk_used n c Hw Hn) as [Hw' Hu'].
  pose proof (size_pos c (wf_len _ Hw)) as Hs. pose proof Hw as [Hk Hhd Htl Hb]. pose proof (used_range c Hk).
  assert (zlen (ztake n (zdrop (tail c) (buf c))) = n) as Hz.
  { rewrite zlen_ztake; [done|]. rewrite zlen_zdrop; lia. }
  apply zlist_eq; [rewrite zlen_app, Hz, !length_contents by done; lia|].
  rewrite length_contents by done. intros i Hi. rewrite znth_contents by done.
  destruct (Z.ltb_spec i n).
  - rewrite znth_app_l, znth_ztake, znth_zdrop by lia. unfold at_. rewrite Z.mod_small by lia.
    destruct (znth_Some (buf c) (tail c + i)) as [x ->]; [lia|done].
  - rewrite znth_app_r, Hz, znth_contents by (done || lia). unfold at_. simpl.
    change (size (get_chunk n c)) with (size c). rewrite INC_POINTER_mod, Zplus_mod_idemp_l by done.
    do 4 f_equal. lia.
Qed.

(** ** The write loop *)

(** The bytes a call writes from. *)
Definition source (src : option (list Z)) (len : Z) : list Z :=
  match src with None => replicate (Z.to_nat len) 0 | Some s => ztake len s end.

Definition source_ok (src : option (list Z)) (len : Z) : Prop :=
  match src with None => True | Some s => len ≤ zlen s end.

Lemma zlen_source src len : 0 ≤ len → source_ok src len → zlen (source src len) = len.
Proof. destruct src; simpl; intros; [by apply zlen_ztake|by apply zlen_replicate]. Qed.

Lemma source_read src len pos n :
  source_ok src len → 0 ≤ pos → 0 ≤ n → pos + n ≤ len →
  match src with None => Ok (replicate (Z.to_nat n) 0) | Some s => mem_read s pos n end =
    Ok (ztake n (zdrop pos (source src len))).
Proof.
  destruct src as [s|]; simpl; intros Hs Hp Hn Hl.
  - rewrite mem_read_Ok by lia. f_equal. unfold ztake, zdrop.
    rewrite skipn_firstn_comm, take_take, Nat.min_l by lia. done.
  - f_equal. unfold ztake, zdrop. rewrite drop_replicate, take_replicate. f_equal. lia.
Qed.

(** How many passes can still write. *)
Definition passes (c : cbuf) (rest : Z) : nat :=
  if (rest =? 0) || (size c - used c - 1 =? 0) then 0
  else if (0 <? tail c) && (tail c <=? head c) then 2 else 1.

Lemma write_len_spec c rest :
  wf0 c → 0 < rest → rest < 2 ^ 32 → 0 < size c - used c - 1 →
  let n := write_len c rest in
  0 < n ≤ rest ∧ head c + n ≤ size c ∧ used c + n < size c ∧
  (n = rest ∨ used c + n = size c - 1 ∨ (0 < tail c ≤ head c ∧ head c + n = size c)).
Proof.
  intros Hw Hr Hr' Ha. cbv zeta. rewrite (used_cases c Hw) in *. unfold write_len.
  pose proof Hw as [Hk Hh Ht _]. pose proof (size_lt c Hk). rewrite valpow2_size by done. unfold MIN.
  destruct (Z.leb_spec (tail c) (head c)).
  - destruct (Z.eqb_spec (tail c) 0); rewrite u32_small by lia;
      match goal with |- context [if ?b then _ else _] => destruct b eqn:E end; zbool; lia.
  - rewrite u32_small by lia. match goal with |- context [if ?b then _ else _] => destruct b eqn:E end; zbool; lia.
Qed.

Lemma write_loop_spec fuel src len pos c :
  wf0 c → source_ok src len → 0 ≤ pos ≤ len → len < size c → (passes c (len - pos) < fuel)%nat →
  let m := Z.min (len - pos) (size c - used c - 1) in
  ∃ c', write_loop fuel src len pos c = Ok (pos + m, c') ∧ wf0 c' ∧
    tail c' = tail c ∧ len_pow2 c' = len_pow2 c ∧ signaled c' = signaled c ∧
    contents c' = contents c ++ ztake m (zdrop pos (source src len)).
Proof.
  revert pos c. induction fuel as [|fuel IH]; intros pos c Hw Hsrc Hpos Hlen Hf; cbv zeta; [lia|].
  cbn [write_loop]. pose proof Hw as [Hk Hh Ht Hb]. pose proof (used_range c Hk) as Hu.
  rewrite space_avail_used by done.
  destruct ((pos <? len) && (0 <? size c - used c - 1)) eqn:Eg.
  2:{ assert (Z.min (len - pos) (size c - used c - 1) = 0) as ->.
      { apply andb_false_iff in Eg as [E|E]; zbool; lia. }
      exists c. rewrite Z.add_0_r. split_and!; try done. unfold ztake. by rewrite app_nil_r. }
  zbool. pose proof (size_lt c Hk). destruct (write_len_spec c (len - pos)) as (Hn & Hhn & Hun & Hcase); [done|lia..|].
  set (n := write_len c (len - pos)) in *.
  destruct (Z.eqb_spec n 0); [lia|]. rewrite (source_read src len) by (done || lia).
  change (Ok ?x ≫= ?f) with (f x). cbn beta.
  pose proof (zlen_source src len ltac:(lia) Hsrc) as Hsl.
  assert (zlen (ztake n (zdrop pos (source src len))) = n) as Hz.
  { rewrite zlen_ztake; [done|]. rewrite zlen_zdrop; lia. }
  rewrite mem_write_Ok by lia. change (Ok ?x ≫= ?f) with (f x). cbn beta zeta.
  set (d := ztake n _) in *.
  destruct (put_chunk_used d c) as [Hw' Hu']; [done|lia|lia|].
  pose proof (put_chunk_contents d c ltac:(done) ltac:(lia) ltac:(lia)) as Hc'.
  replace (with_head _ _) with (put_chunk d c) by (unfold put_chunk; by rewrite Hz).
  assert (size (put_chunk d c) = size c) as Esz by done.
  destruct (IH (pos + n) (put_chunk d c)) as (c' & E & Hwf & Et & Ek & Es & Hct); [done|done|lia|lia| |].
  { assert ((1 ≤ fuel)%nat ∧ (0 < tail c ≤ head c → (2 ≤ fuel)%nat)) as [Hf1 Hf2].
    { unfold passes in Hf. destruct (Z.eqb_spec (len - pos) 0), (Z.eqb_spec (size c - used c - 1) 0); try lia.
      cbn [orb] in Hf. destruct (Z.ltb_spec 0 (tail c)), (Z.leb_spec (tail c) (head c)); simpl in Hf; lia. }
    unfold passes. rewrite Esz, Hu', Hz. destruct Hcase as [En|[En|[? En]]].
    - replace (len - (pos + n)) with 0 by lia. simpl. lia.
    - replace (size c - (used c + n) - 1) with 0 by lia. rewrite orb_true_r. lia.
    - assert (head (put_chunk d c) = 0) as ->.
      { simpl. rewrite INC_POINTER_mod, Hz, En by done. apply Z.mod_same. lia. }
      change (tail (put_chunk d c)) with (tail c).
      replace (tail c <=? 0) with false by (symmetry; apply Z.leb_gt; lia). rewrite andb_false_r.
      specialize (Hf2 ltac:(done)). case_match; lia. }
  rewrite Esz, Hu', Hz in *. exists c'. split_and!; try done.
  - rewrite E. do 2 f_equal. lia.
  - rewrite Hct, Hc', <- app_assoc. f_equal. subst d.
    replace (zdrop (pos + n) (source src len)) with (zdrop n (zdrop pos (source src len))).
    2:{ unfold zdrop. rewrite drop_drop. f_equal. lia. }
    rewrite ztake_app_zdrop by lia. f_equal. lia.
Qed.

(** ** The read loop *)

Lemma read_len_spec c rest :
  wf0 c → 0 < rest → rest < 2 ^ 64 → 0 < used c →
  let n := read_len c rest in
  0 < n ≤ rest ∧ tail c + n ≤ size c ∧ n ≤ used c ∧
  (n = rest ∨ n = used c ∨ (head c ≤ tail c ∧ tail c + n = size c)).
Proof.
  intros Hw Hr Hr' Ha. cbv zeta. pose proof (used_cases c Hw) as Eu. unfold read_len.
  pose proof Hw as [Hk Hh Ht _]. pose proof (size_lt c Hk). rewrite valpow2_size by done. unfold MIN.
  destruct (Z.ltb_spec (tail c) (head c)), (Z.leb_spec (tail c) (head c)); rewrite u32_small by lia;
    match goal with |- context [if ?b then _ else _] => destruct b eqn:E end; zbool; lia.
Qed.

(** How many passes can still read. *)
Definition read_passes (c : cbuf) (rest : Z) : nat :=
  if (rest =? 0) || (used c =? 0) then 0 else if tail c <? head c then 1 else 2.

Lemma read_loop_spec fuel buflen pos acc c :
  wf0 c → 0 ≤ pos ≤ buflen → buflen < 2 ^ 64 → (read_passes c (buflen - pos) < fuel)%nat →
  let m := Z.min (buflen - pos) (used c) in
  ∃ c', read_loop fuel buflen pos acc c = Ok (pos + m, acc ++ ztake m (contents c), c') ∧ wf0 c' ∧
    head c' = head c ∧ len_pow2 c' = len_pow2 c ∧ signaled c' = signaled c ∧
    contents c' = zdrop m (contents c).
Proof.
  revert pos acc c. induction fuel as [|fuel IH]; intros pos acc c Hw Hpos Hlen Hf; cbv zeta; [lia|].
  cbn [read_loop]. pose proof Hw as [Hk Hh Ht Hb]. pose proof (used_range c Hk) as Hu.
  destruct ((pos <? buflen) && negb (tail c =? head c)) eqn:Eg.
  2:{ assert (Z.min (buflen - pos) (used c) = 0) as ->.
      { apply andb_false_iff in Eg as [E|E]; zbool; [lia|]. rewrite (proj2 (used_0 c Hw)) by done. lia. }
      exists c. rewrite Z.add_0_r. unfold ztake, zdrop. simpl. by rewrite app_nil_r. }
  zbool. assert (used c ≠ 0) as Hu0 by (rewrite used_0 by done; congruence).
  destruct (read_len_spec c (buflen - pos)) as (Hn & Htn & Hnu & Hcase); [done|lia..|].
  set (n := read_len c (buflen - pos)) in *. rewrite mem_read_Ok by lia. cbn [mbind res_bind].
  change (with_tail _ _) with (get_chunk n c). set (d := ztake n _).
  destruct (get_chunk_used n c) as [Hw' Hu']; [done|lia|].
  pose proof (get_chunk_contents n c ltac:(done) ltac:(lia) ltac:(lia)) as Hc'. fold d in Hc'.
  assert (size (get_chunk n c) = size c) as Esz by done.
  assert (zlen d = n) as Hz.
  { unfold d. rewrite zlen_ztake; [done|]. rewrite zlen_zdrop; lia. }
  destruct (IH (pos + n) (acc ++ d) (get_chunk n c)) as (c' & E & Hwf & Et & Ek & Es & Hct); [done|lia|lia| |].
  { unfold read_passes in *. rewrite Hu'. destruct (Z.eqb_spec (buflen - pos) 0), (Z.eqb_spec (used c) 0); try lia.
    cbn [orb] in Hf. destruct Hcase as [En|[En|[? En]]].
    - replace (buflen - (pos + n)) with 0 by lia. simpl. case_match; lia.
    - replace (used c - n) with 0 by lia. rewrite orb_true_r. case_match; lia.
    - replace (tail c <? head c) with false in Hf by (symmetry; apply Z.ltb_ge; lia).
      destruct (Z.eqb_spec (buflen - (pos + n)) 0), (Z.eqb_spec (used c - n) 0); simpl; try lia.
      rewrite INC_POINTER_mod, En, Z.mod_same by (done || lia).
      pose proof (used_0 _ Hw') as Hz0. rewrite Hu' in Hz0. simpl in Hz0.
      rewrite INC_POINTER_mod, En, Z.mod_same in Hz0 by (done || lia).
      destruct (Z.ltb_spec 0 (head c)); [lia|]. exfalso. apply n3, Hz0. lia. }
  rewrite Hu' in *. exists c'. split_and!; try done.
  - rewrite E. rewrite <- app_assoc, Hc'. do 2 f_equal. f_equal; [lia|]. f_equal. unfold ztake.
    rewrite take_app. unfold zlen in Hz. rewrite (take_ge d) by lia. do 2 f_equal. lia.
  - rewrite Hct, Hc'. unfold zdrop. rewrite drop_app. unfold zlen in Hz. rewrite (drop_ge d) by lia. simpl. f_equal. lia.
Qed.

Lemma read_passes_bound c rest : (read_passes c rest ≤ 2)%nat.
Proof. unfold read_passes. repeat case_match; lia. Qed.

Lemma passes_bound c rest : (passes c rest ≤ 2)%nat.
Proof. unfold passes. repeat case_match; lia. Qed.

(** ** What the operations do to the queue *)

(** C40: [cbuf_write] appends as much of the source as fits to the queue, in at
    most two copies, never outside the buffer, and says how much; the invariant
    (and so the signaled state of the event) is preserved. *)
Theorem cbuf_write_appends c src len :
  wf c → source_ok src len → 0 ≤ len < size c →
  let n := Z.min len (size c - 1 - zlen (contents c)) in
  ∃ c', cbuf_write c src len = Ok (n, c') ∧ wf c' ∧ size c' = size c ∧
    contents c' = contents c ++ ztake n (source src len).
Proof.
  intros [Hw He] Hs Hl. cbv zeta. rewrite length_contents by done. unfold cbuf_write.
  rewrite valpow2_size, (proj2 (Z.ltb_lt _ _)) by (apply Hw || lia). cbn [assert_ mbind res_bind].
  destruct (write_loop_spec 3 src len 0 c) as (c' & E & Hw' & Et & Ek & Es & Hc); [done|done|lia|lia| |].
  { pose proof (passes_bound c (len - 0)). lia. }
  rewrite E. cbn [mbind res_bind]. rewrite !Z.sub_0_r, Z.add_0_l in *.
  replace (size c - used c - 1) with (size c - 1 - used c) in * by lia.
  set (c2 := if head c' =? tail c' then c' else with_signaled true c').
  assert (wf0 c2 ∧ len_pow2 c2 = len_pow2 c' ∧ contents c2 = contents c') as (Hw2 & Ek2 & Hc2).
  { unfold c2. case_match; split_and!; try done. destruct Hw'. by split. }
  exists c2. split_and!; [done| |unfold size; congruence|by rewrite Hc2, Hc]. split; [done|].
  unfold c2. destruct (Z.eqb_spec (head c') (tail c')) as [Eht|]; simpl.
  - rewrite Eht, Z.eqb_refl. simpl. rewrite Es, He. apply negb_false_iff, Z.eqb_eq.
    apply (used_0 c); [done|]. apply (used_0 c') in Eht; [|done].
    pose proof (length_contents _ Hw') as L. rewrite Hc, zlen_app, (length_contents c), Eht in L by done.
    pose proof (used_range c (wf_len _ Hw)). pose proof (zlen_nonneg (ztake (Z.min len (size c - 1 - used c)) (zdrop 0 (source src len)))). lia.
  - destruct (Z.eqb_spec (head c') (tail c')); done.
Qed.

(** [cbuf_read] removes bytes from the front of the queue, as many as
    asked for and available, and returns just these, in at most two copies; the
    invariant is preserved and the assertion holds. *)
Theorem cbuf_read_takes c buflen :
  wf c → 0 < buflen < 2 ^ 64 →
  let n := Z.min buflen (zlen (contents c)) in
  ∃ c', cbuf_read c buflen = Ok (n, ztake n (contents c), c') ∧ wf c' ∧ size c' = size c ∧
    contents c' = zdrop n (contents c).
Proof.
  intros [Hw He] Hl. cbv zeta. rewrite length_contents by done. unfold cbuf_read.
  pose proof (used_range c (wf_len _ Hw)) as Hu. pose proof (used_0 c Hw) as H0.
  destruct (Z.eqb_spec (tail c) (head c)) as [Eq|Hne].
  { assert (used c = 0) as E0 by (by apply H0). exists c. rewrite E0, Z.min_r by lia.
    unfold ztake, zdrop. simpl. split_and!; try done. }
  destruct (read_loop_spec 3 buflen 0 [] c) as (c' & E & Hw' & Et & Ek & Es & Hc); [done|lia|lia| |].
  { pose proof (read_passes_bound c (buflen - 0)). lia. }
  rewrite E. cbn [mbind res_bind app]. rewrite !Z.sub_0_r, Z.add_0_l in *.
  assert (used c ≠ 0) as Hn0 by (rewrite H0; congruence).
  assert (signaled c' = true) as Es'.
  { rewrite Es, He. apply negb_true_iff, Z.eqb_neq. congruence. }
  destruct (Z.eqb_spec (tail c') (head c')) as [E2|N2].
  - rewrite (proj2 (Z.ltb_lt _ _)) by lia. cbn [assert_ mbind res_bind]. exists (with_signaled false c'). split_and!; try done.
    + split; [by destruct Hw'; split|]. simpl. by rewrite E2, Z.eqb_refl.
    + unfold size. simpl. by rewrite Ek.
  - simpl. exists c'. split_and!; try done; [|unfold size; by rewrite Ek]. split; [done|].
    rewrite Es'. symmetry. apply negb_true_iff, Z.eqb_neq. congruence.
Qed.

(** ** The other operations *)

Lemma cbuf_is_full_used c : wf0 c → 1 < size c → cbuf_is_full c = (used c =? size c - 1).
Proof.
  intros Hw Hs. pose proof Hw as [Hk Hh Ht _]. unfold cbuf_is_full.
  rewrite INC_POINTER_mod, mod_wrap, (used_cases c Hw) by lia.
  destruct (Z.ltb_spec (head c + 1) (size c)), (Z.leb_spec (tail c) (head c));
    apply eq_true_iff_eq; rewrite !Z.eqb_eq; lia.
Qed.

Lemma with_signaled_id c : with_signaled (signaled c) c = c.
Proof. by destruct c. Qed.

(** [cbuf_write_char] is [cbuf_write] of one byte, on a buffer that can
    hold a byte at all. *)
Theorem cbuf_write_char_is_write c ch :
  wf c → 1 < size c → cbuf_write_char c ch = cbuf_write c (Some [ch]) 1.
Proof.
  intros [Hw He] Hs. pose proof Hw as [Hk Hh Ht Hb]. pose proof (used_range c Hk) as Hu.
  unfold cbuf_write_char, cbuf_write. rewrite valpow2_size, (proj2 (Z.ltb_lt _ _)) by (done || lia).
  rewrite cbuf_is_full_used by done. cbn [assert_ mbind res_bind write_loop].
  rewrite space_avail_used by done. change (0 <? 1) with true.
  destruct (Z.eqb_spec (used c) (size c - 1)) as [E|N].
  - rewrite (proj2 (Z.ltb_ge 0 _)) by lia. cbn [andb mbind res_bind].
    assert (head c ≠ tail c) as Hne by (rewrite <- (used_0 c Hw); lia).
    rewrite (proj2 (Z.eqb_neq _ _)) in * by done. simpl in He. by rewrite <- He, with_signaled_id.
  - rewrite (proj2 (Z.ltb_lt 0 (_ - _))) by lia. cbn [andb].
    destruct (write_len_spec c 1 Hw) as (Hn & Hh1 & Hu1 & _); [lia..|].
    rewrite Z.sub_0_r. assert (write_len c 1 = 1) as -> by lia.
    change (1 =? 0) with false. cbv iota.
    change (mem_read [ch] 0 1) with (Ok [ch]). change (zlen [ch]) with 1 in *.
    cbn [mbind res_bind]. rewrite mem_write_Ok by (change (zlen [ch]) with 1; lia). cbn [mbind res_bind].
    change (0 + 1 <? 1) with false. cbn [andb mbind res_bind].
    destruct (put_chunk_used [ch] c Hw) as [Hw' Hu']; [change (zlen [ch]) with 1; lia..|].
    fold (put_chunk [ch] c). change (with_head _ _) with (put_chunk [ch] c).
    change (zlen [ch]) with 1 in Hu'.
    rewrite (proj2 (Z.eqb_neq _ _)); [done|]. rewrite <- (used_0 _ Hw'). lia.
Qed.

(** [cbuf_read_char] is [cbuf_read] of one byte. *)
Theorem cbuf_read_char_is_read c :
  wf c → cbuf_read c 1 = ('(n, ch, c') ← cbuf_read_char c; Ok (n, option_list ch, c')).
Proof.
  intros [Hw He]. pose proof Hw as [Hk Hh Ht Hb].
  unfold cbuf_read_char, cbuf_read. destruct (Z.eqb_spec (tail c) (head c)) as [E|N]; [done|].
  cbn [mbind res_bind read_loop]. rewrite (proj2 (Z.eqb_neq _ _)) by done. cbn [negb andb].
  assert (0 < used c) as Hu by (pose proof (used_range c Hk); pose proof (used_0 c Hw); lia).
  assert (read_len c (1 - 0) = 1) as -> by (destruct (read_len_spec c (1 - 0)) as (? & ? & _); [done|lia..]).
  change (0 <? 1) with true. cbv iota. rewrite (mem_read_Ok (buf c) (tail c) 1) by lia. cbn [mbind res_bind].
  change (0 + 1 <? 1) with false. cbn [andb mbind res_bind app].
  destruct (znth_Some (buf c) (tail c)) as [ch Ech]; [lia|]. rewrite Ech.
  cbn [of_option mbind res_bind].
  assert (ztake 1 (zdrop (tail c) (buf c)) = [ch]) as ->.
  { rewrite znth_lookup in Ech by lia. unfold ztake, zdrop. by rewrite (drop_S _ _ _ Ech). }
  by destruct (tail (with_tail _ _) =? head (with_tail _ _)).
Qed.

(** The bytes a region points to. *)
Definition region_bytes (c : cbuf) (v : iovec) : list Z :=
  match v with (Some off, n) => ztake n (zdrop off (buf c)) | (None, _) => [] end.

Lemma cbuf_size_size c : 0 ≤ len_pow2 c < 32 → cbuf_size c = size c.
Proof.
  intros Hk. unfold cbuf_size. rewrite Z.shiftl_1_l. apply u64_small.
  pose proof (size_pos c Hk). pose proof (size_lt c Hk). unfold size in *. lia.
Qed.

(** ** Regions *)

(** The [n] bytes of the queue that start at distance [i] from its front are in
    one piece, or in two when they reach past the end of the buffer. *)
Lemma region_one c i n :
  wf0 c → 0 ≤ i → 0 ≤ n → i + n ≤ used c → (tail c + i) `mod` size c + n ≤ size c →
  region_bytes c (Some ((tail c + i) `mod` size c), n) = ztake n (zdrop i (contents c)).
Proof.
  intros Hw Hi Hn Hin Hfit. pose proof Hw as [Hk Hh Ht Hb]. pose proof (size_pos c Hk) as Hp.
  pose proof (Z.mod_pos_bound (tail c + i) (size c) Hp) as Hm. pose proof (used_range c Hk).
  assert (zlen (contents c) = used c) as Hl by (by apply length_contents).
  simpl. apply zlist_eq; [by rewrite !zlen_ztake; rewrite ?zlen_zdrop; lia|].
  rewrite zlen_ztake by (rewrite zlen_zdrop; lia). intros j Hj.
  rewrite !znth_ztake, !znth_zdrop, znth_contents by (done || lia). unfold at_.
  rewrite Z.add_assoc, <- (Zplus_mod_idemp_l (tail c + i)), (Z.mod_small (_ + j)) by lia.
  by destruct (znth_Some (buf c) ((tail c + i) `mod` size c + j)) as [x ->]; [lia|].
Qed.

Lemma region_two c i n :
  wf0 c → 0 ≤ i → i + n ≤ used c → size c < (tail c + i) `mod` size c + n →
  let k := size c - (tail c + i) `mod` size c in
  region_bytes c (Some ((tail c + i) `mod` size c), k) ++ region_bytes c (Some 0, n - k)
  = ztake n (zdrop i (contents c)).
Proof.
  intros Hw Hi Hin Hover. cbv zeta. pose proof Hw as [Hk Hh Ht Hb]. pose proof (size_pos c Hk) as Hp.
  pose proof (Z.mod_pos_bound (tail c + i) (size c) Hp) as Hm. pose proof (used_range c Hk).
  set (k := size c - (tail c + i) `mod` size c) in *.
  assert ((tail c + (i + k)) `mod` size c = 0) as E0.
  { rewrite Z.add_assoc, <- Zplus_mod_idemp_l. replace (_ + k) with (size c) by (unfold k; lia).
    apply Z.mod_same. lia. }
  rewrite (region_one c i k) by (done || unfold k; lia).
  replace (Some 0) with (Some ((tail c + (i + k)) `mod` size c)) by (by rewrite E0).
  rewrite region_one by (done || rewrite ?E0; unfold k in *; lia).
  unfold ztake, zdrop. rewrite Z2Nat.inj_add, <- drop_drop, take_take_drop by (unfold k; lia).
  f_equal. unfold k. lia.
Qed.

(** [cbuf_peek] describes the queue without changing it: its regions lie
    inside the buffer and hold the bytes of the queue in order. *)
Theorem cbuf_peek_contents c :
  wf0 c → ∃ r1 r2, cbuf_peek c = Ok (zlen (contents c), (r1, r2)) ∧
    region_bytes c r1 ++ region_bytes c r2 = contents c.
Proof.
  intros Hw. pose proof Hw as [Hk Hh Ht Hb]. pose proof (used_range c Hk) as Hu.
  pose proof (size_lt c Hk). pose proof (size_pos c Hk) as Hp.
  assert (ztake (used c) (zdrop 0 (contents c)) = contents c) as Eall.
  { unfold ztake, zdrop. simpl. apply take_ge. pose proof (length_contents c Hw) as L. unfold zlen in L. lia. }
  assert ((tail c + 0) `mod` size c = tail c) as Et by (rewrite Z.add_0_r; apply Z.mod_small; lia).
  unfold cbuf_peek. rewrite cbuf_size_size, space_used_used, length_contents by done.
  rewrite (proj2 (Z.ltb_lt (tail c) (size c))), (proj2 (Z.leb_le _ _)) by lia. cbn [assert_ mbind res_bind].
  destruct (Z.ltb_spec (size c) (used c + tail c)) as [Hlt|Hge].
  - eexists _, _. split; [done|]. rewrite (proj2 (Z.eqb_neq _ _)) by lia.
    pose proof (region_two c 0 (used c) Hw) as R. rewrite Et, Eall in R. apply R; lia.
  - eexists _, _. split; [done|]. destruct (Z.eqb_spec (used c) 0) as [E0|N0].
    + simpl. unfold contents. by rewrite E0.
    + rewrite app_nil_r. pose proof (region_one c 0 (used c) Hw) as R. rewrite Et, Eall in R. apply R; lia.
Qed.

(** [cbuf_peek_at] describes the part of the queue from [offset], at most
    [len] bytes of it, and nothing when [offset] is past the end. *)
Theorem cbuf_peek_at_contents c offset len :
  wf0 c → 0 ≤ offset < 2 ^ 63 → 0 ≤ len →
  let d := ztake len (zdrop offset (contents c)) in
  ∃ r1 r2, cbuf_peek_at c offset len = (zlen d, (r1, r2)) ∧ region_bytes c r1 ++ region_bytes c r2 = d.
Proof.
  intros Hw Ho Hl. cbv zeta. pose proof Hw as [Hk Hh Ht Hb]. pose proof (used_range c Hk) as Hu.
  pose proof (size_lt c Hk). pose proof (size_pos c Hk) as Hp. pose proof (length_contents c Hw) as Hlen.
  unfold cbuf_peek_at. rewrite cbuf_size_size by done.
  change (size c - 1) with (2 ^ len_pow2 c - 1). rewrite !land_ones' by lia. fold (size c).
  rewrite u32_mod_size, (u64_small (tail c + offset)) by (done || lia). fold (used c).
  destruct (Z.ltb_spec offset (used c)) as [Hlt|Hge].
  - set (n := MIN (used c - offset) len).
    assert (n = Z.min (used c - offset) len) as En.
    { unfold n, MIN. destruct (Z.ltb_spec (used c - offset) len); lia. }
    assert (ztake len (zdrop offset (contents c)) = ztake n (zdrop offset (contents c))) as ->.
    { rewrite En. unfold ztake. destruct (Z.min_spec (used c - offset) len) as [[? ->]|[? ->]]; [|done].
      pose proof (zlen_zdrop offset (contents c) ltac:(lia)) as L. unfold zlen in L, Hlen. rewrite !take_ge by lia. done. }
    rewrite zlen_ztake by (rewrite zlen_zdrop by lia; lia).
    destruct (Z.leb_spec n (size c - (tail c + offset) `mod` size c)).
    + eexists _, _. split; [done|]. rewrite app_nil_r. apply region_one; done || lia.
    + eexists _, _. split; [done|]. apply region_two; done || lia.
  - eexists _, _. assert (zdrop offset (contents c) = []) as ->.
    { unfold zdrop. apply drop_ge. unfold zlen in Hlen. lia. }
    unfold ztake. rewrite take_nil. done.
Qed.

(** [cbuf_initialize_etc] with memory of a power of two bytes gives an
    empty buffer of that size that satisfies the invariant; every other
    argument trips an assertion. *)
Theorem cbuf_initialize_wf len b :
  0 ≤ len < 2 ^ 32 →
  match cbuf_initialize_etc len b with
  | Ok c => ∃ m, b = Some m ∧ ispow2 len = true ∧ (zlen m = len → wf c) ∧ size c = len ∧ contents c = []
  | Fault f => f = AssertFailed ∧ (b = None ∨ len = 0 ∨ ispow2 len = false)
  end.
Proof.
  intros Hl. unfold cbuf_initialize_etc. destruct b as [m|]; simpl; [|by auto].
  destruct (Z.ltb_spec 0 len) as [Hp|]; simpl; [|split; [done|right; left; lia]].
  rewrite u32_small by done. destruct (ispow2 len) eqn:E; simpl; [|by auto].
  assert (∃ k, 0 ≤ k < 32 ∧ len = 2 ^ k) as (k & Hk & ->).
  { apply ispow2_iff in E; [|done]. destruct E as [->|E]; [lia|done]. }
  assert (log2_uint (2 ^ k) = k) as Ek by (by apply pow2_log2_uint).
  exists m. split_and!; try done.
  - intros Hm. split; [|done]. split; unfold size; simpl; rewrite Ek; lia.
  - unfold size. simpl. by rewrite Ek.
Qed.

(** ** A concrete buffer: eight bytes, the data wraps around the end. *)

Definition ex_cbuf : cbuf := mk_cbuf 2 6 3 [1; 2; 3; 4; 5; 6; 7; 8] true.

Lemma ex_cbuf_wf : wf ex_cbuf.
Proof. split; [split|]; vm_compute; (reflexivity || (split; [intros [=]|reflexivity])). Qed.

Lemma cbuf_write_appends_witness :
  ∃ c', cbuf_write ex_cbuf (Some [11; 12; 13; 14; 15]) 5 = Ok (3, c') ∧ contents c' = [7; 8; 1; 2; 11; 12; 13].
Proof.
  destruct (cbuf_write_appends ex_cbuf (Some [11; 12; 13; 14; 15]) 5) as (c' & E & _ & _ & H);
    [apply ex_cbuf_wf|vm_compute; intros [=]|vm_compute; split; [intros [=]|reflexivity]|].
  exists c'. split; [apply E|apply H].
Defined.

Lemma cbuf_read_takes_witness :
  ∃ c', cbuf_read ex_cbuf 3 = Ok (3, [7; 8; 1], c') ∧ contents c' = [2].
Proof.
  destruct (cbuf_read_takes ex_cbuf 3) as (c' & E & _ & _ & H); [apply ex_cbuf_wf|lia|].
  exists c'. split; [apply E|apply H].
Defined.

Lemma cbuf_write_char_is_write_witness :
  cbuf_write_char ex_cbuf 9 = cbuf_write ex_cbuf (Some [9]) 1.
Proof. apply cbuf_write_char_is_write; [apply ex_cbuf_wf|vm_compute; reflexivity]. Defined.

Lemma cbuf_read_char_is_read_witness :
  cbuf_read ex_cbuf 1 = ('(n, ch, c') ← cbuf_read_char ex_cbuf; Ok (n, option_list ch, c')).
Proof. apply cbuf_read_char_is_read, ex_cbuf_wf. Defined.

Lemma cbuf_peek_contents_witness :
  ∃ r1 r2, cbuf_peek ex_cbuf = Ok (4, (r1, r2)) ∧
    region_bytes ex_cbuf r1 ++ region_bytes ex_cbuf r2 = [7; 8; 1; 2].
Proof. apply (cbuf_peek_contents ex_cbuf), ex_cbuf_wf. Defined.

Lemma cbuf_peek_at_contents_witness :
  ∃ r1 r2, cbuf_peek_at ex_cbuf 1 2 = (2, (r1, r2)) ∧
    region_bytes ex_cbuf r1 ++ region_bytes ex_cbuf r2 = [8; 1].
Proof. apply (cbuf_peek_at_contents ex_cbuf 1 2); [apply ex_cbuf_wf|lia|lia]. Defined.

Lemma cbuf_initialize_wf_witness :
  match cbuf_initialize_etc 8 (Some (replicate 8 0)) with
  | Ok c => ∃ m, Some (replicate 8 0) = Some m ∧ ispow2 8 = true ∧ (zlen m = 8 → wf c) ∧ size c = 8 ∧ contents c = []
  | Fault f => f = AssertFailed ∧ (Some (replicate 8 0) = None ∨ 8 = 0 ∨ ispow2 8 = false)
  end.
Proof. apply (cbuf_initialize_wf 8 (Some (replicate 8 0))). lia. Defined.
