(* ===== verification/Pmm.v ===== *)
(** The physical page allocator: [kernel/vm/pmm.c], with the boot allocator
    [kernel/vm/bootalloc.c] it takes its page arrays from.

    A page structure is its address; the flags of every page are a map from
    addresses.  The arenas are kept as the list of their structures, in list
    order.  A list of pages that a caller passes is a list of addresses, which
    the operations take and return.  The lock of the allocator makes each
    operation one step. *)
From stdpp Require Import prelude gmap sorting strings.
From S2P Require Import Prelude Bytes.

#[local] Open Scope Z_scope.

(** * Data *)

Definition PAGE_SIZE : Z := 4096.
Definition PAGE_SIZE_SHIFT : Z := 12.
Definition VM_PAGE_FLAG_NONFREE : Z := 1.
Definition PMM_ARENA_FLAG_KMAP : Z := 1.

(** Two pointers and 32 bits of flags and reference count, aligned. *)
Definition sizeof_vm_page : Z := 24.

Record arena := mk_arena {
  a_flags : Z;
  a_priority : Z;
  a_base : Z;
  a_size : Z;
  a_free_count : Z;
  a_page_array : Z;
  a_free_list : list Z;
}.

Definition with_free (fc : Z) (fl : list Z) (a : arena) : arena :=
  mk_arena (a_flags a) (a_priority a) (a_base a) (a_size a) fc (a_page_array a) fl.

Record pmm := mk_pmm {
  arena_list : list arena;
  page_flags : gmap Z Z;
  boot_alloc_end : Z;
}.

(** * The boot allocator *)

Definition boot_alloc_mem (len : Z) (s : pmm) : Z * pmm :=
  let ptr := ROUNDUP (boot_alloc_end s) 8 in
  (ptr, mk_pmm (arena_list s) (page_flags s) (u64 (ptr + ROUNDUP len 8))).

(** * Pages and addresses *)

Definition page_count (a : arena) : Z := a_size a / PAGE_SIZE.
Definition page_at (a : arena) (i : Z) : Z := a_page_array a + i * sizeof_vm_page.

Definition PAGE_BELONGS_TO_ARENA (page : Z) (a : arena) : bool :=
  (a_page_array a <=? page) && (page <? a_page_array a + a_size a / PAGE_SIZE * sizeof_vm_page).

Definition PAGE_ADDRESS_FROM_ARENA (page : Z) (a : arena) : Z :=
  u64 ((page - a_page_array a) / sizeof_vm_page * PAGE_SIZE + a_base a).

Definition ADDRESS_IN_ARENA (address : Z) (a : arena) : bool :=
  (a_base a <=? address) && (address <=? u64 (a_base a + a_size a - 1)).

Definition flag_nonfree (f : Z) : bool := has_flag f VM_PAGE_FLAG_NONFREE.

Definition page_is_free (s : pmm) (page : Z) : res bool :=
  f ← of_option BadAccess (page_flags s !! page); Ok (negb (flag_nonfree f)).

Fixpoint vm_page_to_paddr_in (arenas : list arena) (page : Z) : Z :=
  match arenas with
  | [] => 2 ^ 64 - 1
  | a :: rest =>
      if PAGE_BELONGS_TO_ARENA page a then PAGE_ADDRESS_FROM_ARENA page a
      else vm_page_to_paddr_in rest page
  end.

Definition vm_page_to_paddr (s : pmm) (page : Z) : Z := vm_page_to_paddr_in (arena_list s) page.

Fixpoint paddr_to_vm_page_in (arenas : list arena) (addr : Z) : option Z :=
  match arenas with
  | [] => None
  | a :: rest =>
      if ADDRESS_IN_ARENA addr a then Some (page_at a ((addr - a_base a) / PAGE_SIZE))
      else paddr_to_vm_page_in rest addr
  end.

Definition paddr_to_vm_page (s : pmm) (addr : Z) : option Z := paddr_to_vm_page_in (arena_list s) addr.

(** * Adding an arena *)

(** Before the first arena of a larger priority value, or at the tail. *)
Fixpoint insert_arena (new : arena) (arenas : list arena) : list arena :=
  match arenas with
  | [] => [new]
  | a :: rest =>
      if a_priority new <? a_priority a then new :: a :: rest else a :: insert_arena new rest
  end.

(** [memset] of the page array. *)
Definition zero_pages (pages : list Z) (m : gmap Z Z) : gmap Z Z :=
  foldr (λ p m, <[p := 0]> m) m pages.

Definition pmm_add_arena (new : arena) (s : pmm) : res (Z * pmm) :=
  assert_ (IS_ALIGNED (a_base new) PAGE_SIZE);;
  assert_ (IS_ALIGNED (a_size new) PAGE_SIZE);;
  assert_ (0 <? a_size new);;
  let count := a_size new / PAGE_SIZE in
  let '(ptr, s) := boot_alloc_mem (u64 (count * sizeof_vm_page)) s in
  let pages := (λ i, ptr + i * sizeof_vm_page) <$> seqZ 0 count in
  let new := mk_arena (a_flags new) (a_priority new) (a_base new) (a_size new) count ptr pages in
  Ok (NO_ERROR, mk_pmm (insert_arena new (arena_list s)) (zero_pages pages (page_flags s)) (boot_alloc_end s)).

(** * Allocating any pages *)

(** [page->flags |= VM_PAGE_FLAG_NONFREE] *)
Definition set_nonfree (page : Z) (m : gmap Z Z) : res (gmap Z Z) :=
  f ← of_option BadAccess (m !! page); Ok (<[page := Z.lor f VM_PAGE_FLAG_NONFREE]> m).

(** [page->flags &= ~VM_PAGE_FLAG_NONFREE] *)
Definition clear_nonfree (page : Z) (m : gmap Z Z) : res (gmap Z Z) :=
  f ← of_option BadAccess (m !! page); Ok (<[page := Z.land f (Z.lnot VM_PAGE_FLAG_NONFREE)]> m).

(** The [while] loop on one arena.  The flag says that the free list was empty
    in spite of its count, which ends the walk over the arenas. *)
Fixpoint alloc_pages_arena (fl : list Z) (fc count allocated : Z) (m : gmap Z Z) (l : list Z)
    : res (list Z * Z * Z * gmap Z Z * list Z * bool) :=
  if (allocated <? count) && (0 <? fc) then
    match fl with
    | [] => Ok (fl, fc, allocated, m, l, true)
    | page :: fl =>
        m ← set_nonfree page m;
        alloc_pages_arena fl (fc - 1) count (allocated + 1) m (l ++ [page])
    end
  else Ok (fl, fc, allocated, m, l, false).

Fixpoint alloc_pages_loop (arenas : list arena) (count allocated : Z) (m : gmap Z Z) (l : list Z)
    : res (list arena * Z * gmap Z Z * list Z) :=
  match arenas with
  | [] => Ok ([], allocated, m, l)
  | a :: rest =>
      '(fl, fc, allocated, m, l, stop) ← alloc_pages_arena (a_free_list a) (a_free_count a) count allocated m l;
      let a := with_free fc fl a in
      if stop : bool then Ok (a :: rest, allocated, m, l) else
      '(rest, allocated, m, l) ← alloc_pages_loop rest count allocated m l;
      Ok (a :: rest, allocated, m, l)
  end.

Definition pmm_alloc_pages (count : Z) (l : list Z) (s : pmm) : res (Z * list Z * pmm) :=
  if count =? 0 then Ok (0, l, s) else
  '(arenas, allocated, m, l) ← alloc_pages_loop (arena_list s) count 0 (page_flags s) l;
  Ok (allocated, l, mk_pmm arenas m (boot_alloc_end s)).

Definition pmm_alloc_page (s : pmm) : res (option Z * pmm) :=
  '(ret, l, s) ← pmm_alloc_pages 1 [] s;
  if ret =? 0 then Ok (None, s) else
  assert_ (ret =? 1);;
  Ok (head l, s).

(** * Allocating a given range *)

(** [list_delete] from the free list. *)
Definition list_remove (page : Z) (fl : list Z) : list Z := filter (λ p, p ≠ page) fl.

(** The page must be on the arena's free list, which [DEBUG_ASSERT] checks as
    far as it can: that it is on a list. *)
Definition take_page (page : Z) (a : arena) (m : gmap Z Z) : res (arena * gmap Z Z) :=
  assert_ (bool_decide (page ∈ a_free_list a));;
  m ← set_nonfree page m;
  Ok (with_free (a_free_count a - 1) (list_remove page (a_free_list a)) a, m).

Fixpoint alloc_range_arena (fuel : nat) (a : arena) (address count allocated : Z) (m : gmap Z Z) (l : list Z)
    : res (arena * Z * Z * gmap Z Z * list Z) :=
  match fuel with
  | O => Fault OutOfFuel
  | S fuel =>
      if (allocated <? count) && ADDRESS_IN_ARENA address a then
        let index := (address - a_base a) / PAGE_SIZE in
        assert_ (index <? a_size a / PAGE_SIZE);;
        let page := page_at a index in
        f ← of_option BadAccess (m !! page);
        if flag_nonfree f then Ok (a, address, allocated, m, l) else
        '(a, m) ← take_page page a m;
        alloc_range_arena fuel a (u64 (address + PAGE_SIZE)) count (allocated + 1) m (l ++ [page])
      else Ok (a, address, allocated, m, l)
  end.

Fixpoint alloc_range_loop (arenas : list arena) (address count allocated : Z) (m : gmap Z Z) (l : list Z)
    : res (list arena * Z * gmap Z Z * list Z) :=
  match arenas with
  | [] => Ok ([], allocated, m, l)
  | a :: rest =>
      '(a, address, allocated, m, l) ←
        alloc_range_arena (S (Z.to_nat (count - allocated))) a address count allocated m l;
      if allocated =? count then Ok (a :: rest, allocated, m, l) else
      '(rest, allocated, m, l) ← alloc_range_loop rest address count allocated m l;
      Ok (a :: rest, allocated, m, l)
  end.

Definition pmm_alloc_range (address count : Z) (l : list Z) (s : pmm) : res (Z * list Z * pmm) :=
  if count =? 0 then Ok (0, l, s) else
  let address := ROUNDDOWN address PAGE_SIZE in
  '(arenas, allocated, m, l) ← alloc_range_loop (arena_list s) address count 0 (page_flags s) l;
  Ok (allocated, l, mk_pmm arenas m (boot_alloc_end s)).

(** * Freeing *)

(** The walk for one page; [None] when it belongs to no arena. *)
Fixpoint free_to_arena (arenas : list arena) (page : Z) : option (list arena) :=
  match arenas with
  | [] => None
  | a :: rest =>
      if PAGE_BELONGS_TO_ARENA page a
      then Some (with_free (a_free_count a + 1) (page :: a_free_list a) a :: rest)
      else cons a <$> free_to_arena rest page
  end.

Fixpoint free_loop (l : list Z) (count : Z) (arenas : list arena) (m : gmap Z Z)
    : res (Z * list arena * gmap Z Z) :=
  match l with
  | [] => Ok (count, arenas, m)
  | page :: l =>
      f ← of_option BadAccess (m !! page);
      assert_ (flag_nonfree f);;
      match free_to_arena arenas page with
      | Some arenas => m ← clear_nonfree page m; free_loop l (count + 1) arenas m
      | None => free_loop l count arenas m
      end
  end.

(** The list is empty afterwards. *)
Definition pmm_free (l : list Z) (s : pmm) : res (Z * pmm) :=
  '(count, arenas, m) ← free_loop l 0 (arena_list s) (page_flags s);
  Ok (count, mk_pmm arenas m (boot_alloc_end s)).

Definition pmm_free_page (page : Z) (s : pmm) : res (Z * pmm) := pmm_free [page] s.

(** * Allocating a contiguous run *)

(** The inner loop: the index of the first page of the run that is in use. *)
Fixpoint scan_run (n : nat) (i p : Z) (m : gmap Z Z) : res (option Z) :=
  match n with
  | O => Ok None
  | S n =>
      f ← of_option BadAccess (m !! p);
      if flag_nonfree f then Ok (Some i) else scan_run n (i + 1) (p + sizeof_vm_page) m
  end.

Fixpoint find_run (fuel : nat) (m : gmap Z Z) (a : arena) (alignment_log2 aligned_offset start count : Z)
    : res (option Z) :=
  match fuel with
  | O => Fault OutOfFuel
  | S fuel =>
      if (start <? a_size a / PAGE_SIZE) && (u32 (start + count) <=? a_size a / PAGE_SIZE) then
        b ← scan_run (Z.to_nat count) 0 (page_at a start) m;
        match b with
        | None => Ok (Some start)
        | Some i =>
            let start := u32 (ROUNDUP (u32 (start - aligned_offset + i + 1))
                                (Z.shiftl 1 (alignment_log2 - PAGE_SIZE_SHIFT)) + aligned_offset) in
            find_run fuel m a alignment_log2 aligned_offset start count
        end
      else Ok None
  end.

(** Removing the pages of the run from the free list. *)
Fixpoint take_run (n : nat) (i : Z) (a : arena) (m : gmap Z Z) (l : list Z) : res (arena * gmap Z Z * list Z) :=
  match n with
  | O => Ok (a, m, l)
  | S n =>
      let p := page_at a i in
      f ← of_option BadAccess (m !! p);
      assert_ (negb (flag_nonfree f));;
      '(a, m) ← take_page p a m;
      take_run n (i + 1) a m (l ++ [p])
  end.

(** The search in one arena: where it starts, if at all, and what it finds. *)
Definition search_arena (a : arena) (m : gmap Z Z) (count alignment_log2 : Z) : res (option Z) :=
  if has_flag (a_flags a) PMM_ARENA_FLAG_KMAP then
    let rounded_base := ROUNDUP (a_base a) (Z.shiftl 1 alignment_log2) in
    if (rounded_base <? a_base a) || (u64 (a_base a + a_size a - 1) <? rounded_base) then Ok None else
    let aligned_offset := u32 ((rounded_base - a_base a) / PAGE_SIZE) in
    find_run (S (Z.to_nat (a_size a / PAGE_SIZE))) m a alignment_log2 aligned_offset aligned_offset count
  else Ok None.

Fixpoint alloc_contiguous_loop (arenas : list arena) (m : gmap Z Z) (count alignment_log2 : Z) (l : list Z)
    : res (list arena * gmap Z Z * list Z * option Z) :=
  match arenas with
  | [] => Ok ([], m, l, None)
  | a :: rest =>
      r ← search_arena a m count alignment_log2;
      match r with
      | Some start =>
          '(a, m, l) ← take_run (Z.to_nat count) start a m l;
          Ok (a :: rest, m, l, Some (u64 (a_base a + start * PAGE_SIZE)))
      | None =>
          '(rest, m, l, pa) ← alloc_contiguous_loop rest m count alignment_log2 l;
          Ok (a :: rest, m, l, pa)
      end
  end.

(** The result is the number of pages, the physical address of the first and
    the list, to which a caller that passes a null list is indifferent. *)
Definition pmm_alloc_contiguous (count alignment_log2 : Z) (l : list Z) (s : pmm)
    : res (Z * option Z * list Z * pmm) :=
  if count =? 0 then Ok (0, None, l, s) else
  let alignment_log2 := if alignment_log2 <? PAGE_SIZE_SHIFT then PAGE_SIZE_SHIFT else alignment_log2 in
  '(arenas, m, l, pa) ← alloc_contiguous_loop (arena_list s) (page_flags s) count alignment_log2 l;
  Ok (match pa with Some _ => count | None => 0 end, pa, l, mk_pmm arenas m (boot_alloc_end s)).

(** * Kernel pages *)

(** [mmu_initial_mappings], which the platform fills in; the entry of size 0
    ends the table. *)
Record mmu_initial_mapping := mk_mapping {
  phys : Z;
  virt : Z;
  map_size : Z;
  map_flags : Z;
  map_name : option string;
}.

Definition MMU_INITIAL_MAPPING_TEMPORARY : Z := 1.

Fixpoint paddr_to_kvaddr (maps : list mmu_initial_mapping) (pa : Z) : option Z :=
  match maps with
  | [] => None
  | m :: rest =>
      if negb (0 <? map_size m) then None
      else if negb (has_flag (map_flags m) MMU_INITIAL_MAPPING_TEMPORARY) &&
              (phys m <=? pa) && (pa <=? u64 (phys m + map_size m - 1))
      then Some (u64 (virt m + (pa - phys m)))
      else paddr_to_kvaddr rest pa
  end.

Definition pmm_alloc_kpages (maps : list mmu_initial_mapping) (count : Z) (l : list Z) (s : pmm)
    : res (option Z * list Z * pmm) :=
  if count =? 1 then
    '(p, s) ← pmm_alloc_page s;
    match p with
    | None => Ok (None, l, s)
    | Some p => Ok (paddr_to_kvaddr maps (vm_page_to_paddr s p), l, s)
    end
  else
    '(n, pa, l, s) ← pmm_alloc_contiguous count PAGE_SIZE_SHIFT l s;
    if n =? 0 then Ok (None, l, s) else
    pa ← of_option BadAccess pa;
    Ok (paddr_to_kvaddr maps pa, l, s).

(** The pages that back [count] pages of kernel addresses from [ptr];
    [vaddr_to_paddr] asks the page tables, which are the architecture's. *)
Fixpoint kpages_list (vaddr_to_paddr : Z → Z) (s : pmm) (ptr : Z) (count : nat) : list Z :=
  match count with
  | O => []
  | S count =>
      option_list (paddr_to_vm_page s (vaddr_to_paddr ptr)) ++
      kpages_list vaddr_to_paddr s (u64 (ptr + PAGE_SIZE)) count
  end.

Definition pmm_free_kpages (vaddr_to_paddr : Z → Z) (ptr count : Z) (s : pmm) : res (Z * pmm) :=
  pmm_free (kpages_list vaddr_to_paddr s ptr (Z.to_nat count)) s.

(** * Invariant *)

(** What no operation changes of an arena. *)
Definition geo (a : arena) : arena := with_free 0 [] a.

Record geo_ok (a : arena) : Prop := {
  go_base : (PAGE_SIZE | a_base a) ∧ 0 ≤ a_base a;
  go_size : (PAGE_SIZE | a_size a) ∧ 0 < a_size a;
  go_end : a_base a + a_size a ≤ 2 ^ 64;
  go_pages : page_count a < 2 ^ 30;
}.

Definition apart (a b : arena) : Prop :=
  (a_base a + a_size a ≤ a_base b ∨ a_base b + a_size b ≤ a_base a) ∧
  (page_at a (page_count a) ≤ a_page_array b ∨ page_at b (page_count b) ≤ a_page_array a).

(** [p] is a page structure of the arena. *)
Definition is_page (a : arena) (p : Z) : Prop := ∃ i, 0 ≤ i < page_count a ∧ p = page_at a i.

(** A page is on the free list exactly when its flag says that it is free. *)
Record arena_ok (m : gmap Z Z) (a : arena) : Prop := {
  ao_geo : geo_ok a;
  ao_count : a_free_count a = zlen (a_free_list a);
  ao_nodup : NoDup (a_free_list a);
  ao_page : ∀ p, is_page a p → is_Some (m !! p);
  ao_free : ∀ p, p ∈ a_free_list a ↔ is_page a p ∧ flag_nonfree <$> m !! p = Some false;
}.

Definition sorted (arenas : list arena) : Prop :=
  StronglySorted (λ a b, a_priority a ≤ a_priority b) arenas.

Record arenas_ok (arenas : list arena) (m : gmap Z Z) : Prop := {
  as_each : Forall (arena_ok m) arenas;
  as_sorted : sorted arenas;
  as_apart : ∀ i j a b, arenas !! i = Some a → arenas !! j = Some b → i ≠ j → apart a b;
}.

(** The page arrays lie below the end of the boot allocator. *)
Record pinv (s : pmm) : Prop := {
  pi_arenas : arenas_ok (arena_list s) (page_flags s);
  pi_boot : 0 ≤ boot_alloc_end s;
  pi_below : Forall (λ a, 0 ≤ a_page_array a ∧ page_at a (page_count a) ≤ boot_alloc_end s) (arena_list s);
}.

(** The free pages in the order in which they are handed out. *)
Definition free_list_of (arenas : list arena) : list Z := concat (a_free_list <$> arenas).
Definition free_pages (s : pmm) : list Z := free_list_of (arena_list s).

(** A page of an arena that is in use. *)
Definition in_use (s : pmm) (p : Z) : Prop :=
  (∃ a, a ∈ arena_list s ∧ is_page a p) ∧ flag_nonfree <$> page_flags s !! p = Some true.

(** ** Flags *)

Lemma flag_nonfree_testbit f : flag_nonfree f = Z.testbit f 0.
Proof.
  unfold flag_nonfree, has_flag, VM_PAGE_FLAG_NONFREE. change 1 with (Z.ones 1).
  rewrite Z.land_ones, Z.bit0_odd by lia. change (2 ^ 1) with 2. rewrite Zmod_odd. by destruct (Z.odd f).
Qed.

Lemma flag_nonfree_set f : flag_nonfree (Z.lor f VM_PAGE_FLAG_NONFREE) = true.
Proof. rewrite flag_nonfree_testbit, Z.lor_spec. by rewrite orb_true_r. Qed.

Lemma flag_nonfree_clear f : flag_nonfree (Z.land f (Z.lnot VM_PAGE_FLAG_NONFREE)) = false.
Proof. rewrite flag_nonfree_testbit, Z.land_spec, Z.lnot_spec by lia. by rewrite andb_false_r. Qed.

(** ** Geometry *)

Lemma page_at_inj a i j : page_at a i = page_at a j → i = j.
Proof. unfold page_at, sizeof_vm_page. lia. Qed.

Lemma is_page_geo a a' p : geo a' = geo a → is_page a' p ↔ is_page a p.
Proof. intros [= _ _ _ E1 E2]. unfold is_page, page_at, page_count. by rewrite E1, E2. Qed.

Lemma apart_geo a a' b b' : geo a' = geo a → geo b' = geo b → apart a b → apart a' b'.
Proof.
  intros [= _ _ E1 E2 E3] [= _ _ F1 F2 F3]. unfold apart, page_at, page_count. by rewrite E1, E2, E3, F1, F2, F3.
Qed.

Lemma geo_ok_geo a a' : geo a' = geo a → geo_ok a → geo_ok a'.
Proof. intros [= ? ? E1 E2 ?] [? ? ? ?]. unfold page_count in *. split; unfold page_count; by rewrite ?E1, ?E2. Qed.

Lemma is_page_apart a b p : apart a b → is_page a p → is_page b p → False.
Proof.
  unfold apart, is_page, page_at, sizeof_vm_page. intros [_ H] (i & Hi & ->) (j & Hj & E). lia.
Qed.

Lemma apart_sym a b : apart a b → apart b a.
Proof. unfold apart. tauto. Qed.

Lemma belongs_is_page a p : is_page a p → PAGE_BELONGS_TO_ARENA p a = true.
Proof.
  intros (i & Hi & ->). unfold PAGE_BELONGS_TO_ARENA, page_at, page_count, sizeof_vm_page in *.
  apply andb_true_iff. rewrite Z.leb_le, Z.ltb_lt. lia.
Qed.

Lemma not_belongs_apart a b p : apart a b → is_page a p → PAGE_BELONGS_TO_ARENA p b = false.
Proof.
  intros [_ H] (i & Hi & ->). unfold PAGE_BELONGS_TO_ARENA, page_at, page_count, sizeof_vm_page in *.
  apply andb_false_iff. rewrite Z.leb_gt, Z.ltb_ge. lia.
Qed.

(** ** Replacing one arena *)

Lemma sorted_replace pre a a' rest :
  a_priority a' = a_priority a → sorted (pre ++ a :: rest) → sorted (pre ++ a' :: rest).
Proof.
  intros E. unfold sorted. induction pre as [|b pre IH]; cbn [app]; intros H; inversion H as [|x l Hs Hf]; subst.
  - constructor; [done|]. eapply Forall_impl; [exact Hf|]. intros x. cbn beta. by rewrite E.
  - constructor; [by apply IH|]. apply Forall_app in Hf as [H1 H2]. apply Forall_app. split; [done|].
    inversion H2; subst. constructor; [by rewrite E|done].
Qed.

Lemma lookup_replace {A} (pre rest : list A) x x' i y :
  (pre ++ x' :: rest) !! i = Some y →
  (i = length pre ∧ y = x') ∨ (i ≠ length pre ∧ (pre ++ x :: rest) !! i = Some y).
Proof.
  intros H. destruct (decide (i = length pre)) as [->|Hne].
  - left. split; [done|]. rewrite list_lookup_middle in H by done. congruence.
  - right. split; [done|]. destruct (decide (i < length pre)%nat).
    + rewrite lookup_app_l in H |- * by done. done.
    + rewrite lookup_app_r in H |- * by lia. destruct (i - length pre)%nat eqn:E; [lia|done].
Qed.

Lemma arenas_ok_apart pre a rest m b :
  arenas_ok (pre ++ a :: rest) m → b ∈ pre ++ rest → apart a b.
Proof.
  intros [_ _ H] Hb. apply elem_of_app in Hb as [Hb|Hb]; apply list_elem_of_lookup in Hb as [i Hi].
  - apply (H (length pre) i); [by rewrite list_lookup_middle| |apply lookup_lt_Some in Hi; lia].
    by rewrite lookup_app_l by (apply lookup_lt_Some in Hi; lia).
  - apply (H (length pre) (length pre + S i)%nat); [by rewrite list_lookup_middle| |lia].
    rewrite lookup_app_r by lia. by replace (length pre + S i - length pre)%nat with (S i) by lia.
Qed.

(** Other arenas do not see a change of the pages of [a]. *)
Lemma arena_ok_other m m' a b :
  apart a b → (∀ q, ¬ is_page a q → m' !! q = m !! q) → arena_ok m b → arena_ok m' b.
Proof.
  intros Hap Hm [? ? ? Hp Hf]. assert (∀ p, is_page b p → m' !! p = m !! p) as E.
  { intros p Hb. apply Hm. intros Ha. by eapply is_page_apart. }
  split; try done; intros p.
  - intros Hb. rewrite E by done. by apply Hp.
  - rewrite Hf. split; intros [Hb ?]; (split; [done|]); [by rewrite E|by rewrite <- E].
Qed.

Lemma arenas_ok_replace pre a rest m a' m' :
  arenas_ok (pre ++ a :: rest) m → geo a' = geo a →
  (∀ q, ¬ is_page a q → m' !! q = m !! q) → arena_ok m' a' →
  arenas_ok (pre ++ a' :: rest) m'.
Proof.
  intros Hok Hg Hm Ha. pose proof (λ b, arenas_ok_apart pre a rest m b Hok) as Hap. destruct Hok as [He Hs Hd]. split.
  - apply Forall_app in He as [H1 H2]. inversion H2; subst. apply Forall_app. split; [|constructor; [done|]].
    all: apply Forall_forall; intros b Hb; eapply arena_ok_other; [apply Hap|exact Hm|];
      [set_solver|]; eapply Forall_forall; [|exact Hb]; done.
  - eapply sorted_replace; [|exact Hs]. by injection Hg.
  - intros i j b c Hi Hj Hne. apply (lookup_replace _ _ a) in Hi, Hj.
    destruct Hi as [[-> ->]|[Hi1 Hi2]], Hj as [[-> ->]|[Hj1 Hj2]]; [done|..].
    + apply (apart_geo a a' c c Hg eq_refl). apply (Hd (length pre) j); [by rewrite list_lookup_middle|done|done].
    + apply (apart_geo b b a a' eq_refl Hg). apply (Hd i (length pre)); [done|by rewrite list_lookup_middle|done].
    + by apply (Hd i j).
Qed.

(** ** One page *)

Lemma set_nonfree_Some p m f :
  m !! p = Some f → set_nonfree p m = Ok (<[p := Z.lor f VM_PAGE_FLAG_NONFREE]> m).
Proof. intros H. unfold set_nonfree. by rewrite H. Qed.

Lemma is_page_with_free a fc fl p : is_page (with_free fc fl a) p ↔ is_page a p.
Proof. by apply is_page_geo. Qed.

(** Taking the page [p] off the free list, which leaves [fl]. *)
Lemma take_one pre a rest m p fl :
  arenas_ok (pre ++ a :: rest) m → a_free_list a ≡ₚ p :: fl →
  ∃ f, m !! p = Some f ∧ flag_nonfree f = false ∧ is_page a p ∧
    let m' := <[p := Z.lor f VM_PAGE_FLAG_NONFREE]> m in
    arenas_ok (pre ++ with_free (a_free_count a - 1) fl a :: rest) m'.
Proof.
  intros Hok Hp. assert (arena_ok m a) as [Hg Hc Hn Hpg Hf].
  { destruct Hok as [He _ _]. apply Forall_app in He as [_ He]. by inversion He. }
  assert (p ∈ a_free_list a) as Hin by (rewrite Hp; left).
  apply Hf in Hin as [Hip Hfl]. destruct (m !! p) as [f|] eqn:Em; [|done]. simpl in Hfl. injection Hfl as Hfl.
  exists f. split_and!; [done..|]. cbv zeta.
  rewrite Hp in Hn. apply NoDup_cons in Hn as [Hnin Hn].
  eapply arenas_ok_replace; [exact Hok|done| |].
  - intros q Hq. apply lookup_insert_ne. intros ->. done.
  - split; [by apply (geo_ok_geo a)| |done| |]; simpl.
    + rewrite Hc. unfold zlen. rewrite Hp. simpl. lia.
    + intros q Hq. apply is_page_with_free, Hpg in Hq. rewrite lookup_insert_is_Some'. auto.
    + intros q. rewrite is_page_with_free. destruct (decide (p = q)) as [<-|Hne].
      * rewrite lookup_insert_eq. simpl. rewrite flag_nonfree_set. split; [done|]. by intros [_ [=]].
      * rewrite lookup_insert_ne by done. rewrite <- Hf, Hp. set_solver.
Qed.

Lemma list_remove_perm p fl : NoDup fl → p ∈ fl → fl ≡ₚ p :: list_remove p fl.
Proof.
  intros Hn Hp. apply NoDup_Permutation; [done|apply NoDup_cons; split|].
  - unfold list_remove. rewrite list_elem_of_filter. by intros [? _].
  - by apply NoDup_filter.
  - intros q. rewrite elem_of_cons. unfold list_remove. rewrite list_elem_of_filter.
    destruct (decide (q = p)) as [->|]; tauto.
Qed.

Lemma arenas_ok_middle pre a rest m : arenas_ok (pre ++ a :: rest) m → arena_ok m a.
Proof. intros [He _ _]. apply Forall_app in He as [_ He]. by inversion He. Qed.

Lemma take_page_ok pre a rest m p :
  arenas_ok (pre ++ a :: rest) m → p ∈ a_free_list a →
  let fl := list_remove p (a_free_list a) in
  ∃ m', take_page p a m = Ok (with_free (a_free_count a - 1) fl a, m') ∧
    arenas_ok (pre ++ with_free (a_free_count a - 1) fl a :: rest) m' ∧
    a_free_list a ≡ₚ p :: fl ∧ is_page a p ∧
    (∀ q, q ≠ p → m' !! q = m !! q) ∧ flag_nonfree <$> m' !! p = Some true.
Proof.
  intros Hok Hp. cbv zeta. pose proof (arenas_ok_middle _ _ _ _ Hok) as Ha.
  pose proof (list_remove_perm p _ (ao_nodup _ _ Ha) Hp) as Hperm.
  destruct (take_one pre a rest m p _ Hok Hperm) as (f & Hm & Hf & Hpg & Hok').
  eexists. unfold take_page. rewrite bool_decide_eq_true_2 by done.
  cbn [assert_ mbind res_bind]. rewrite (set_nonfree_Some _ _ _ Hm). cbn [mbind res_bind].
  split_and!; [done|done|done|done| |].
  - intros q Hq. by apply lookup_insert_ne.
  - rewrite lookup_insert_eq. simpl. by rewrite flag_nonfree_set.
Qed.

(** ** Allocating any pages *)

Lemma with_free_id a fc fl : a_free_count a = fc → a_free_list a = fl → with_free fc fl a = a.
Proof. destruct a; simpl. by intros -> ->. Qed.

Lemma alloc_pages_arena_ok fl : ∀ pre a rest m count allocated l,
  arenas_ok (pre ++ a :: rest) m → a_free_list a = fl → allocated ≤ count →
  let k := Z.min (count - allocated) (zlen fl) in
  ∃ m', alloc_pages_arena fl (a_free_count a) count allocated m l =
      Ok (zdrop k fl, a_free_count a - k, allocated + k, m', l ++ ztake k fl, false) ∧
    arenas_ok (pre ++ with_free (a_free_count a - k) (zdrop k fl) a :: rest) m'.
Proof.
  induction fl as [|p fl IH]; intros pre a rest m count allocated l Hok Hfl Hle; cbv zeta;
    pose proof (ao_count _ _ (arenas_ok_middle _ _ _ _ Hok)) as Hc; rewrite Hfl in Hc; cbn [alloc_pages_arena].
  - change (zlen []) with 0 in *. rewrite Hc, andb_false_r, Z.min_r by lia. exists m.
    unfold zdrop, ztake. simpl. rewrite Z.add_0_r, app_nil_r. split; [done|].
    by rewrite (with_free_id a) by (lia || done).
  - unfold zlen in Hc. cbn [length] in Hc. destruct (Z.ltb_spec allocated count) as [Hlt|Hge].
    + destruct (take_one pre a rest m p fl Hok) as (f & Hm & _ & _ & Hok'); [by rewrite Hfl|].
      rewrite (proj2 (Z.ltb_lt _ _)), (set_nonfree_Some _ _ _ Hm) by lia. cbn [andb mbind res_bind].
      destruct (IH pre _ rest _ count (allocated + 1) (l ++ [p]) Hok' eq_refl ltac:(lia)) as (m' & E & Ho).
      cbn [with_free a_free_count a_free_list] in E, Ho.
      set (k := Z.min (count - (allocated + 1)) (zlen fl)) in *. exists m'.
      assert (0 ≤ k) by (unfold k, zlen; lia).
      replace (Z.min (count - allocated) (zlen (p :: fl))) with (k + 1) by (unfold k, zlen; simpl; lia).
      unfold zdrop, ztake in *. replace (Z.to_nat (k + 1)) with (S (Z.to_nat k)) by lia. cbn [drop take].
      replace (a_free_count a - (k + 1)) with (a_free_count a - 1 - k) by lia.
      replace (allocated + (k + 1)) with (allocated + 1 + k) by lia.
      split; [by rewrite E, <- app_assoc|exact Ho].
    + assert (Z.min (count - allocated) (zlen (p :: fl)) = 0) as -> by (unfold zlen; simpl; lia).
      unfold zdrop, ztake. cbn [Z.to_nat drop take andb]. rewrite Z.sub_0_r, Z.add_0_r, app_nil_r.
      exists m. split; [done|]. by rewrite (with_free_id a).
Qed.

Lemma zlen_free_cons a rest :
  zlen (free_list_of (a :: rest)) = zlen (a_free_list a) + zlen (free_list_of rest).
Proof. apply zlen_app. Qed.

Lemma alloc_pages_loop_ok rest : ∀ pre m count allocated l,
  arenas_ok (pre ++ rest) m → allocated ≤ count →
  let k := Z.min (count - allocated) (zlen (free_list_of rest)) in
  ∃ rest' m', alloc_pages_loop rest count allocated m l =
      Ok (rest', allocated + k, m', l ++ ztake k (free_list_of rest)) ∧
    arenas_ok (pre ++ rest') m' ∧ geo <$> rest' = geo <$> rest ∧
    free_list_of rest' = zdrop k (free_list_of rest).
Proof.
  induction rest as [|a rest IH]; intros pre m count allocated l Hok Hle; cbv zeta; cbn [alloc_pages_loop].
  - change (zlen (free_list_of [])) with 0. rewrite Z.min_r, Z.add_0_r by lia. exists [], m.
    unfold zdrop, ztake. simpl. by rewrite app_nil_r.
  - destruct (alloc_pages_arena_ok _ pre a rest m count allocated l Hok eq_refl Hle) as (m1 & E & Hok1).
    rewrite E. clear E. cbn [mbind res_bind]. rewrite zlen_free_cons.
    set (k1 := Z.min (count - allocated) (zlen (a_free_list a))) in *.
    set (a1 := with_free _ _ a) in *. replace (pre ++ a1 :: rest) with ((pre ++ [a1]) ++ rest) in Hok1
      by (by rewrite <- app_assoc).
    assert (0 ≤ k1 ≤ zlen (a_free_list a)) by (unfold k1, zlen; lia).
    destruct (IH (pre ++ [a1]) m1 count (allocated + k1) (l ++ ztake k1 (a_free_list a)) Hok1 ltac:(lia))
      as (rest' & m' & E & Hok' & Hg & Hfl). rewrite E. cbn [mbind res_bind]. clear E IH.
    set (k2 := Z.min (count - (allocated + k1)) (zlen (free_list_of rest))) in *.
    pose proof (zlen_nonneg (free_list_of rest)).
    replace (Z.min (count - allocated) _) with (k1 + k2) by (unfold k1, k2 in *; lia).
    assert (k2 = 0 ∨ k1 = zlen (a_free_list a)) as Hk by (unfold k1, k2 in *; lia).
    destruct (ztake_zdrop_app k1 k2 (a_free_list a) (free_list_of rest)) as [Et Ed]; [lia|lia|done|].
    change (free_list_of (a :: rest)) with (a_free_list a ++ free_list_of rest). rewrite Et, Ed.
    exists (a1 :: rest'), m'. rewrite <- app_assoc in Hok'. split_and!; [|exact Hok'| |].
    + by rewrite <- app_assoc, Z.add_assoc.
    + change (geo a :: (geo <$> rest') = geo a :: (geo <$> rest)). by rewrite Hg.
    + change (zdrop k1 (a_free_list a) ++ free_list_of rest' = zdrop k1 (a_free_list a) ++ zdrop k2 (free_list_of rest)).
      by rewrite Hfl.
Qed.

(** The frame of the invariant that only depends on the geometry. *)
Lemma pinv_frame s arenas m :
  pinv s → arenas_ok arenas m → geo <$> arenas = geo <$> arena_list s →
  pinv (mk_pmm arenas m (boot_alloc_end s)).
Proof.
  intros [_ Hb Hl] Hok Hg. split; [done|done|]. cbn [arena_list boot_alloc_end].
  set (P := λ a, 0 ≤ a_page_array a ∧ page_at a (page_count a) ≤ boot_alloc_end s) in *.
  assert (Forall P (geo <$> arena_list s)) as H by (by apply Forall_fmap).
  rewrite <- Hg in H. by apply Forall_fmap in H.
Qed.

Lemma pmm_alloc_pages_ok count l s :
  pinv s → 0 ≤ count →
  let n := Z.min count (zlen (free_pages s)) in
  ∃ s', pmm_alloc_pages count l s = Ok (n, l ++ ztake n (free_pages s), s') ∧ pinv s' ∧
    geo <$> arena_list s' = geo <$> arena_list s ∧ free_pages s' = zdrop n (free_pages s).
Proof.
  intros Hp Hc. cbv zeta. pose proof (zlen_nonneg (free_pages s)). unfold pmm_alloc_pages.
  destruct (Z.eqb_spec count 0) as [->|].
  - exists s. rewrite Z.min_l by lia. unfold ztake, zdrop. cbn [Z.to_nat take drop]. by rewrite app_nil_r.
  - destruct (alloc_pages_loop_ok (arena_list s) [] (page_flags s) count 0 l (pi_arenas _ Hp) Hc)
      as (arenas & m & E & Hok & Hg & Hfl).
    rewrite E. cbn [mbind res_bind]. rewrite Z.sub_0_r, Z.add_0_l in *.
    eexists. split; [done|]. split; [by apply pinv_frame|]. done.
Qed.

(** ** Freeing *)

(** Putting the page [p] back on the free list. *)
Lemma give_one pre a rest m p f :
  arenas_ok (pre ++ a :: rest) m → is_page a p → m !! p = Some f → flag_nonfree f = true →
  arenas_ok (pre ++ with_free (a_free_count a + 1) (p :: a_free_list a) a :: rest)
    (<[p := Z.land f (Z.lnot VM_PAGE_FLAG_NONFREE)]> m).
Proof.
  intros Hok Hip Hm Hnf. pose proof (arenas_ok_middle _ _ _ _ Hok) as [Hg Hc Hn Hpg Hf].
  eapply arenas_ok_replace; [exact Hok|done| |].
  - intros q Hq. apply lookup_insert_ne. intros ->. done.
  - split; [by apply (geo_ok_geo a)|..]; simpl.
    + rewrite Hc. unfold zlen. simpl. lia.
    + apply NoDup_cons. split; [|done]. rewrite Hf, Hm. simpl. rewrite Hnf. by intros [_ [=]].
    + intros q Hq. apply is_page_with_free, Hpg in Hq. rewrite lookup_insert_is_Some'. auto.
    + intros q. rewrite is_page_with_free, elem_of_cons. destruct (decide (p = q)) as [<-|Hne].
      * rewrite lookup_insert_eq. simpl. rewrite flag_nonfree_clear. naive_solver.
      * rewrite lookup_insert_ne by done. rewrite <- Hf. naive_solver.
Qed.

Lemma free_to_arena_split pre a rest p :
  Forall (λ b, PAGE_BELONGS_TO_ARENA p b = false) pre → PAGE_BELONGS_TO_ARENA p a = true →
  free_to_arena (pre ++ a :: rest) p =
    Some (pre ++ with_free (a_free_count a + 1) (p :: a_free_list a) a :: rest).
Proof. induction 1 as [|b pre Hb _ IH]; intros Ha; simpl; [by rewrite Ha|]. by rewrite Hb, IH. Qed.

Lemma geo_replace pre a a' rest :
  geo a' = geo a → geo <$> (pre ++ a' :: rest) = geo <$> (pre ++ a :: rest).
Proof. intros H. rewrite !fmap_app. cbn [fmap list_fmap]. by rewrite H. Qed.

Lemma free_list_of_middle pre a rest :
  free_list_of (pre ++ a :: rest) ≡ₚ a_free_list a ++ free_list_of (pre ++ rest).
Proof.
  unfold free_list_of. rewrite !fmap_app, !concat_app. cbn [fmap list_fmap concat].
  rewrite !(assoc (++)). by rewrite (comm (++) (a_free_list a)).
Qed.

(** The arena a page belongs to, and that it belongs to no arena before it. *)
Lemma page_owner_split arenas m a p :
  arenas_ok arenas m → a ∈ arenas → is_page a p →
  ∃ pre rest, arenas = pre ++ a :: rest ∧ Forall (λ b, PAGE_BELONGS_TO_ARENA p b = false) pre.
Proof.
  intros Hok Ha Hp. apply list_elem_of_split in Ha as (pre & rest & ->). exists pre, rest. split; [done|].
  apply Forall_forall. intros b Hb. apply (not_belongs_apart a); [|done].
  eapply arenas_ok_apart; [exact Hok|]. set_solver.
Qed.

Lemma free_step arenas m p :
  arenas_ok arenas m → (∃ a, a ∈ arenas ∧ is_page a p) → flag_nonfree <$> m !! p = Some true →
  ∃ arenas' f, m !! p = Some f ∧ flag_nonfree f = true ∧ free_to_arena arenas p = Some arenas' ∧
    let m' := <[p := Z.land f (Z.lnot VM_PAGE_FLAG_NONFREE)]> m in
    clear_nonfree p m = Ok m' ∧ arenas_ok arenas' m' ∧
    geo <$> arenas' = geo <$> arenas ∧ free_list_of arenas' ≡ₚ p :: free_list_of arenas.
Proof.
  intros Hok (a & Ha & Hp) Hm. destruct (m !! p) as [f|] eqn:Em; [|done]. injection Hm as Hf.
  destruct (page_owner_split arenas m a p Hok Ha Hp) as (pre & rest & -> & Hpre).
  eexists _, f. split_and!; [done..| |].
  - apply free_to_arena_split; [done|by apply belongs_is_page].
  - cbv zeta. unfold clear_nonfree. rewrite Em. split_and!; [done| |by apply geo_replace|].
    + by apply give_one.
    + by rewrite !free_list_of_middle.
Qed.

Lemma has_page_geo (arenas arenas' : list arena) p :
  geo <$> arenas' = geo <$> arenas → (∃ a, a ∈ arenas ∧ is_page a p) → ∃ a, a ∈ arenas' ∧ is_page a p.
Proof.
  intros Hg (a & Ha & Hp). assert (geo a ∈ geo <$> arenas') as H by (rewrite Hg; by apply list_elem_of_fmap_2).
  apply list_elem_of_fmap in H as (b & Hb & Hin). exists b. split; [done|]. by apply (is_page_geo a b).
Qed.

Lemma free_loop_ok l : ∀ arenas m count,
  arenas_ok arenas m → NoDup l →
  Forall (λ p, (∃ a, a ∈ arenas ∧ is_page a p) ∧ flag_nonfree <$> m !! p = Some true) l →
  ∃ arenas' m', free_loop l count arenas m = Ok (count + zlen l, arenas', m') ∧ arenas_ok arenas' m' ∧
    geo <$> arenas' = geo <$> arenas ∧ free_list_of arenas' ≡ₚ l ++ free_list_of arenas.
Proof.
  induction l as [|p l IH]; intros arenas m count Hok Hn Hl; cbn [free_loop].
  - exists arenas, m. by rewrite Z.add_0_r.
  - apply NoDup_cons in Hn as [Hp Hn]. inversion Hl as [|? ? [Hpg Hpf] Hl']; subst.
    destruct (free_step arenas m p Hok Hpg Hpf) as (ar1 & f & Em & Hf & Ef & Ec & Hok1 & Hg1 & Hfl1).
    rewrite Em. cbn [of_option mbind res_bind]. rewrite Hf, Ef, Ec. cbn [assert_ mbind res_bind].
    destruct (IH ar1 _ (count + 1) Hok1 Hn) as (ar2 & m2 & E2 & Hok2 & Hg2 & Hfl2).
    { apply Forall_forall. intros q Hq. rewrite Forall_forall in Hl'. destruct (Hl' q Hq) as [H1 H2].
      split; [by apply (has_page_geo arenas)|]. rewrite lookup_insert_ne; [done|]. by intros ->. }
    exists ar2, m2. split_and!; [|done|congruence|].
    + rewrite E2. do 3 f_equal. unfold zlen. simpl. lia.
    + rewrite Hfl2, Hfl1. simpl. by rewrite Permutation_middle.
Qed.

Lemma pmm_free_ok l s :
  pinv s → NoDup l → Forall (in_use s) l →
  ∃ s', pmm_free l s = Ok (zlen l, s') ∧ pinv s' ∧
    geo <$> arena_list s' = geo <$> arena_list s ∧ free_pages s' ≡ₚ l ++ free_pages s.
Proof.
  intros Hp Hn Hl. unfold pmm_free.
  destruct (free_loop_ok l (arena_list s) (page_flags s) 0 (pi_arenas _ Hp) Hn Hl)
    as (ar & m & E & Hok & Hg & Hfl). rewrite E. cbn [mbind res_bind].
  eexists. split; [done|]. split; [by apply pinv_frame|]. done.
Qed.

(** ** Free pages and pages in use *)

Lemma arenas_ok_cons a rest m : arenas_ok (a :: rest) m → arenas_ok rest m.
Proof.
  intros [He Hs Hd]. split; [by inversion He|by inversion Hs|].
  intros i j b c Hi Hj Hne. apply (Hd (S i) (S j)); [done|done|lia].
Qed.

Lemma elem_of_free_list_of p arenas : p ∈ free_list_of arenas ↔ ∃ a, a ∈ arenas ∧ p ∈ a_free_list a.
Proof.
  unfold free_list_of. rewrite list_elem_of_In, in_concat. setoid_rewrite <- list_elem_of_In.
  setoid_rewrite list_elem_of_fmap. naive_solver.
Qed.

Lemma arenas_ok_elem a arenas m : arenas_ok arenas m → a ∈ arenas → arena_ok m a.
Proof. intros [He _ _] Ha. rewrite Forall_forall in He. by apply He. Qed.

Lemma free_list_of_NoDup arenas m : arenas_ok arenas m → NoDup (free_list_of arenas).
Proof.
  induction arenas as [|a rest IH]; intros Hok; [constructor|].
  change (free_list_of (a :: rest)) with (a_free_list a ++ free_list_of rest).
  pose proof (arenas_ok_elem a _ _ Hok ltac:(left)) as Ha. apply NoDup_app.
  split_and!; [apply Ha| |apply IH; by apply arenas_ok_cons in Hok].
  intros p Hp Hq. apply elem_of_free_list_of in Hq as (b & Hb & Hq).
  apply (ao_free _ _ Ha) in Hp as [Hp _].
  apply (ao_free m b (arenas_ok_elem b _ _ Hok ltac:(by right))) in Hq as [Hq _].
  eapply is_page_apart; [|exact Hp|exact Hq]. by apply (arenas_ok_apart [] a rest m).
Qed.

Lemma free_pages_page s p : pinv s → p ∈ free_pages s → ∃ a, a ∈ arena_list s ∧ is_page a p.
Proof.
  intros [Hok _ _] Hp. apply elem_of_free_list_of in Hp as (a & Ha & Hp). exists a. split; [done|].
  apply (ao_free _ _ (arenas_ok_elem a _ _ Hok Ha)) in Hp. apply Hp.
Qed.

(** A page of an arena is in use exactly when it is not free. *)
Lemma in_use_iff s p :
  pinv s → (∃ a, a ∈ arena_list s ∧ is_page a p) → in_use s p ↔ p ∉ free_pages s.
Proof.
  intros [Hok _ _] (a & Ha & Hp). unfold free_pages. rewrite elem_of_free_list_of. split.
  - intros [_ Hf] (b & Hb & Hpb). apply (ao_free _ _ (arenas_ok_elem b _ _ Hok Hb)) in Hpb as [_ E]. congruence.
  - intros Hn. split; [by exists a|]. pose proof (arenas_ok_elem a _ _ Hok Ha) as Hao.
    destruct (ao_page _ _ Hao p Hp) as [f Ef]. rewrite Ef. simpl. f_equal.
    destruct (flag_nonfree f) eqn:E; [done|]. destruct Hn. exists a. split; [done|].
    apply (ao_free _ _ Hao). rewrite Ef. simpl. by rewrite E.
Qed.

Lemma taken_in_use s s' taken :
  pinv s → pinv s' → geo <$> arena_list s' = geo <$> arena_list s →
  free_pages s ≡ₚ taken ++ free_pages s' → NoDup taken ∧ Forall (in_use s') taken.
Proof.
  intros Hp Hp' Hg Hfl. pose proof (free_list_of_NoDup _ _ (pi_arenas _ Hp)) as Hn. fold (free_pages s) in Hn.
  rewrite Hfl in Hn. apply NoDup_app in Hn as (H1 & H2 & _). split; [done|].
  apply Forall_forall. intros p Ht. apply in_use_iff; [done| |by apply H2].
  apply (has_page_geo (arena_list s)); [done|]. apply free_pages_page; [done|]. rewrite Hfl. set_solver.
Qed.

(** C31: [pmm_alloc_pages] hands out the free pages of the arenas in priority
    order, as many as asked for and there are, marks just these as in use, and
    preserves the invariant; no assertion or access faults. *)
Theorem pmm_alloc_pages_spec count s :
  pinv s → 0 ≤ count →
  let n := Z.min count (zlen (free_pages s)) in
  ∃ pages s', pmm_alloc_pages count [] s = Ok (n, pages, s') ∧ pinv s' ∧
    pages = ztake n (free_pages s) ∧ free_pages s' = zdrop n (free_pages s) ∧ Forall (in_use s') pages.
Proof.
  intros Hp Hc. destruct (pmm_alloc_pages_ok count [] s Hp Hc) as (s' & E & Hp' & Hg & Hfl).
  eexists _, s'. split_and!; [exact E|done|done|done|]. apply (taken_in_use s s'); [done..|].
  rewrite Hfl. unfold ztake, zdrop. simpl. by rewrite take_drop.
Qed.

(** Freeing distinct pages that are in use returns just these to the free
    pages, counts them, and preserves the invariant. *)
Theorem pmm_free_spec l s :
  pinv s → NoDup l → Forall (in_use s) l →
  ∃ s', pmm_free l s = Ok (zlen l, s') ∧ pinv s' ∧ free_pages s' ≡ₚ l ++ free_pages s.
Proof.
  intros Hp Hn Hu. destruct (pmm_free_ok l s Hp Hn Hu) as (s' & ? & ? & _ & ?). eauto.
Qed.

(** Pages that [pmm_alloc_pages] hands out can be freed again, which
    restores the free pages and their number. *)
Theorem pmm_alloc_free_roundtrip count s :
  pinv s → 0 ≤ count →
  ∃ n pages s' s'', pmm_alloc_pages count [] s = Ok (n, pages, s') ∧
    pmm_free pages s' = Ok (n, s'') ∧ pinv s'' ∧ free_pages s'' ≡ₚ free_pages s.
Proof.
  intros Hp Hc. destruct (pmm_alloc_pages_ok count [] s Hp Hc) as (s' & E & Hp' & Hg & Hfl).
  set (n := Z.min count (zlen (free_pages s))) in *.
  assert (0 ≤ n ≤ zlen (free_pages s)) as Hn by (unfold n, zlen; lia).
  assert (free_pages s = ztake n (free_pages s) ++ free_pages s') as Hsplit.
  { rewrite Hfl. unfold ztake, zdrop. by rewrite take_drop. }
  destruct (taken_in_use s s' (ztake n (free_pages s))) as [Hnd Hu]; [done..|by rewrite <- Hsplit|].
  destruct (pmm_free_ok _ _ Hp' Hnd Hu) as (s'' & E2 & Hp2 & _ & Hfl2).
  rewrite zlen_ztake in E2 by done. exists n, (ztake n (free_pages s)), s', s''.
  split_and!; [done..|]. by rewrite Hfl2, <- Hsplit.
Qed.

(** ** Adding an arena *)

Lemma insert_arena_split new arenas :
  ∃ pre rest, arenas = pre ++ rest ∧ insert_arena new arenas = pre ++ new :: rest ∧
    Forall (λ a, a_priority a ≤ a_priority new) pre ∧
    (∀ a, head rest = Some a → a_priority new < a_priority a).
Proof.
  induction arenas as [|a arenas IH]; simpl.
  - by exists [], [].
  - destruct (Z.ltb_spec (a_priority new) (a_priority a)) as [Hlt|Hge].
    + exists [], (a :: arenas). split_and!; [done..|]. by intros ? [= <-].
    + destruct IH as (pre & rest & -> & E & Hp & Hr). exists (a :: pre), rest. rewrite E. split_and!; auto.
Qed.

Lemma insert_arena_sorted new arenas : sorted arenas → sorted (insert_arena new arenas).
Proof.
  unfold sorted. induction 1 as [|a arenas Hs IH Hf]; simpl; [by repeat constructor|].
  destruct (Z.ltb_spec (a_priority new) (a_priority a)) as [Hlt|Hge].
  - constructor; [by constructor|]. constructor; [lia|]. eapply Forall_impl; [exact Hf|]. cbn beta. lia.
  - constructor; [done|]. destruct (insert_arena_split new arenas) as (pre & rest & -> & -> & _).
    rewrite Forall_app in Hf. rewrite Forall_app, Forall_cons. naive_solver.
Qed.

Lemma lookup_insert_middle {A} (pre rest : list A) x i y :
  (pre ++ x :: rest) !! i = Some y →
  (i = length pre ∧ y = x) ∨
  (∃ j, (pre ++ rest) !! j = Some y ∧ i ≠ length pre ∧ j = if decide (i < length pre)%nat then i else pred i).
Proof.
  intros H. destruct (decide (i < length pre)%nat) as [Hlt|Hge].
  - right. exists i. rewrite lookup_app_l in H |- * by done. split_and!; [done|lia|done].
  - rewrite lookup_app_r in H by lia. destruct (i - length pre)%nat as [|k] eqn:E.
    + left. split; [lia|]. by injection H.
    + right. exists (pred i). split_and!; [|lia|done]. rewrite lookup_app_r by lia.
      by replace (pred i - length pre)%nat with k by lia.
Qed.

Lemma arenas_ok_insert arenas m new m' :
  arenas_ok arenas m → Forall (apart new) arenas → arena_ok m' new →
  (∀ q, ¬ is_page new q → m' !! q = m !! q) → arenas_ok (insert_arena new arenas) m'.
Proof.
  intros [He Hs Hd] Hap Hn Hm. split; [|by apply insert_arena_sorted|];
    destruct (insert_arena_split new arenas) as (pre & rest & -> & -> & _); rewrite Forall_forall in Hap, He.
  - apply Forall_forall. intros b Hb. rewrite elem_of_app, elem_of_cons in Hb.
    assert (b = new ∨ b ∈ pre ++ rest) as [->|Hin] by set_solver; [done|].
    by apply (arena_ok_other m m' new b); auto.
  - intros i j b c Hi Hj Hne. apply lookup_insert_middle in Hi, Hj.
    destruct Hi as [[-> ->]|(i' & Hi & ? & Ei)], Hj as [[-> ->]|(j' & Hj & ? & Ej)]; [done|..].
    + apply Hap. by apply list_elem_of_lookup_2 in Hj.
    + apply apart_sym, Hap. by apply list_elem_of_lookup_2 in Hi.
    + apply (Hd i' j'); [done..|]. repeat case_decide; lia.
Qed.

Lemma zero_pages_in pages m p : p ∈ pages → zero_pages pages m !! p = Some 0.
Proof.
  induction pages as [|q pages IH]; intros Hp; simpl; [by apply elem_of_nil in Hp|].
  destruct (decide (p = q)) as [->|]; [by rewrite lookup_insert_eq|].
  rewrite lookup_insert_ne by done. apply IH. set_solver.
Qed.

Lemma zero_pages_out pages m p : p ∉ pages → zero_pages pages m !! p = m !! p.
Proof.
  induction pages as [|q pages IH]; intros Hp; simpl; [done|].
  rewrite lookup_insert_ne by set_solver. apply IH. set_solver.
Qed.

Definition pages_from (ptr count : Z) : list Z := (λ i, ptr + i * sizeof_vm_page) <$> seqZ 0 count.

Lemma elem_of_pages_from ptr count p :
  p ∈ pages_from ptr count ↔ ∃ i, 0 ≤ i < count ∧ p = ptr + i * sizeof_vm_page.
Proof.
  unfold pages_from. rewrite list_elem_of_fmap. setoid_rewrite elem_of_seqZ. split; intros (i & ? & ?); exists i; lia.
Qed.

Lemma fresh_arena_ok a m :
  geo_ok a → a_free_count a = page_count a → a_free_list a = pages_from (a_page_array a) (page_count a) →
  arena_ok (zero_pages (a_free_list a) m) a.
Proof.
  intros Hg Hc Hf. assert (∀ p, p ∈ a_free_list a ↔ is_page a p) as Hp.
  { intros p. rewrite Hf, elem_of_pages_from. done. }
  split; [done|..].
  - rewrite Hc, Hf. unfold zlen, pages_from. rewrite length_fmap, length_seqZ.
    destruct Hg as [_ [_ Hs] _ _]. unfold page_count, PAGE_SIZE. pose proof (Z.div_pos (a_size a) 4096). lia.
  - rewrite Hf. apply NoDup_fmap; [|apply NoDup_seqZ]. intros i j. unfold sizeof_vm_page. lia.
  - intros p. rewrite <- Hp. intros H. rewrite zero_pages_in by done. eauto.
  - intros p. rewrite <- Hp. split; [|by intros [? _]]. intros H. split; [done|]. by rewrite zero_pages_in.
Qed.

Lemma add_arena_geometry new s :
  pinv s → (PAGE_SIZE | a_base new) → 0 ≤ a_base new → (PAGE_SIZE | a_size new) → 0 < a_size new →
  boot_alloc_end s + a_size new / PAGE_SIZE * sizeof_vm_page + 16 < 2 ^ 64 →
  let count := a_size new / PAGE_SIZE in
  let ptr := ROUNDUP (boot_alloc_end s) 8 in
  0 < count ∧ boot_alloc_end s ≤ ptr ∧ u64 (count * sizeof_vm_page) = count * sizeof_vm_page ∧
  ptr + count * sizeof_vm_page ≤ u64 (ptr + ROUNDUP (count * sizeof_vm_page) 8).
Proof.
  intros [_ Hb _] _ _ Hs Hs0 Hov. cbv zeta. assert (0 < a_size new / PAGE_SIZE) as Hc.
  { destruct Hs as [k Hk]. unfold PAGE_SIZE in *. rewrite Hk, Z.div_mul by lia. lia. }
  unfold sizeof_vm_page in *. set (n := a_size new / PAGE_SIZE) in *.
  pose proof (ROUNDUP_bounds (boot_alloc_end s) 3) as [H1 _]; [lia..|].
  pose proof (ROUNDUP_bounds (n * 24) 3) as [H2 _]; [lia..|].
  change (2 ^ 3) with 8 in *. rewrite !u64_small by lia. lia.
Qed.

(** Arenas of physical memory are apart. *)
Definition memory_apart (new a : arena) : Prop :=
  a_base a + a_size a ≤ a_base new ∨ a_base new + a_size new ≤ a_base a.

(** What the platform promises of the memory it adds. *)
Record addable (new : arena) (s : pmm) : Prop := {
  ad_base : 0 ≤ a_base new;
  ad_end : a_base new + a_size new ≤ 2 ^ 64;
  ad_count : page_count new < 2 ^ 30;
  ad_boot : boot_alloc_end s + a_size new / PAGE_SIZE * sizeof_vm_page + 16 < 2 ^ 64;
  ad_apart : Forall (memory_apart new) (arena_list s);
}.

Lemma pmm_add_arena_ok new s :
  pinv s → addable new s →
  IS_ALIGNED (a_base new) PAGE_SIZE = true → IS_ALIGNED (a_size new) PAGE_SIZE = true → 0 < a_size new →
  ∃ s' ptr, pmm_add_arena new s = Ok (NO_ERROR, s') ∧ pinv s' ∧ boot_alloc_end s ≤ ptr ∧
    free_pages s' ≡ₚ pages_from ptr (page_count new) ++ free_pages s.
Proof.
  intros Hp [Hb0 Hend Hmax Hboot Hap] E1 E2 Hs0. unfold pmm_add_arena.
  rewrite E1, E2, (proj2 (Z.ltb_lt _ _)) by done. cbn [assert_ mbind res_bind].
  apply (IS_ALIGNED_spec _ 12) in E1, E2; [|lia..].
  destruct (add_arena_geometry new s Hp E1 Hb0 E2 Hs0 Hboot) as (Hc & Hptr & Hu & Htop).
  unfold boot_alloc_mem. rewrite Hu. cbn [arena_list page_flags boot_alloc_end].
  set (ptr := ROUNDUP (boot_alloc_end s) 8) in *. set (n := a_size new / PAGE_SIZE) in *.
  set (top := u64 (ptr + _)) in *. fold (pages_from ptr n).
  set (a := mk_arena _ _ _ _ _ _ _). destruct Hp as [Hok Hb Hl]. rewrite Forall_forall in Hl, Hap.
  assert (arenas_ok (insert_arena a (arena_list s)) (zero_pages (pages_from ptr n) (page_flags s))) as Hok'.
  { apply (arenas_ok_insert _ (page_flags s)); [done| |apply (fresh_arena_ok a); [by split|done..]|].
    - apply Forall_forall. intros b Hb'. destruct (Hl b Hb') as [_ Hb2]. specialize (Hap b Hb'). unfold memory_apart in Hap. split; simpl; lia.
    - intros q Hq. apply zero_pages_out. rewrite elem_of_pages_from. exact Hq. }
  eexists _, ptr. split_and!; [done| |done|].
  - split; [done|cbn; unfold top; apply u64_range|]. cbn [arena_list boot_alloc_end].
    destruct (insert_arena_split a (arena_list s)) as (pre & rest & E & -> & _). rewrite E in Hl.
    rewrite Forall_app, Forall_cons, !Forall_forall. unfold sizeof_vm_page in *.
    assert (∀ b, b ∈ pre ++ rest → 0 ≤ a_page_array b ∧ page_at b (page_count b) ≤ top) as Hl'
      by (intros b Hin; specialize (Hl b Hin); lia).
    split_and!; [intros b ?; apply Hl'; set_solver|simpl; lia| |intros b ?; apply Hl'; set_solver].
    exact Htop.
  - unfold free_pages. cbn [arena_list].
    destruct (insert_arena_split a (arena_list s)) as (pre & rest & E & -> & _). rewrite E. apply free_list_of_middle.
Qed.

(** Adding an arena of aligned memory apart from the others makes all its
    pages free, keeps the arenas in priority order, and preserves the
    invariant; an arena that is not aligned or empty trips an assertion. *)
Theorem pmm_add_arena_spec new s :
  pinv s → addable new s →
  if IS_ALIGNED (a_base new) PAGE_SIZE && IS_ALIGNED (a_size new) PAGE_SIZE && (0 <? a_size new) then
    ∃ s' ptr, pmm_add_arena new s = Ok (NO_ERROR, s') ∧ pinv s' ∧ boot_alloc_end s ≤ ptr ∧
      free_pages s' ≡ₚ pages_from ptr (page_count new) ++ free_pages s
  else pmm_add_arena new s = Fault AssertFailed.
Proof.
  intros Hp Ha. destruct (IS_ALIGNED (a_base new) PAGE_SIZE) eqn:E1; [|unfold pmm_add_arena; by rewrite E1].
  destruct (IS_ALIGNED (a_size new) PAGE_SIZE) eqn:E2; [|unfold pmm_add_arena; by rewrite E1, E2].
  destruct (Z.ltb_spec 0 (a_size new)) as [Hs0|Hs0]; [by apply pmm_add_arena_ok|].
  unfold pmm_add_arena. by rewrite E1, E2, (proj2 (Z.ltb_ge _ _)).
Qed.

(** ** Allocating a range *)

Lemma ADDRESS_IN_ARENA_iff x a :
  geo_ok a → ADDRESS_IN_ARENA x a = true ↔ a_base a ≤ x < a_base a + a_size a.
Proof.
  intros [[_ Hb] [_ Hs] He _]. unfold ADDRESS_IN_ARENA. rewrite andb_true_iff, !Z.leb_le, u64_small by lia. lia.
Qed.

(** The index of the page that holds an address of the arena. *)
Definition index_of (a : arena) (x : Z) : Z := (x - a_base a) / PAGE_SIZE.

Lemma index_of_range a x :
  geo_ok a → a_base a ≤ x < a_base a + a_size a → 0 ≤ index_of a x < page_count a.
Proof.
  intros [_ [[k Hk] _] _ _] Hx. unfold index_of, page_count, PAGE_SIZE in *. rewrite Hk, Z.div_mul by lia.
  split; [apply Z.div_pos; lia|apply Z.div_lt_upper_bound; lia].
Qed.

Lemma index_of_next a x : index_of a (x + PAGE_SIZE) = index_of a x + 1.
Proof.
  unfold index_of, PAGE_SIZE. replace (x + 4096 - a_base a) with (x - a_base a + 1 * 4096) by lia.
  by rewrite Z.div_add by lia.
Qed.

(** What the walk takes from one arena, at [x]: [taken] is a run of its pages,
    and it stops when it has enough, at the end of the arena or at a page in
    use. *)
Record range_taken (a a' : arena) (m' : gmap Z Z) (x x' need : Z) (taken : list Z) : Prop := {
  rt_geo : geo a' = geo a;
  rt_free : a_free_list a ≡ₚ taken ++ a_free_list a';
  rt_len : zlen taken ≤ need;
  rt_next : x' = u64 (x + PAGE_SIZE * zlen taken);
  rt_page : ∀ i p, znth taken i = Some p →
    ADDRESS_IN_ARENA (x + PAGE_SIZE * i) a = true ∧ p = page_at a (index_of a (x + PAGE_SIZE * i));
  rt_stop : zlen taken = need ∨ ADDRESS_IN_ARENA x' a = false ∨
    flag_nonfree <$> m' !! page_at a (index_of a x') = Some true;
}.

Lemma range_taken_nil a m' x need :
  0 ≤ need → 0 ≤ x < 2 ^ 64 →
  (need = 0 ∨ ADDRESS_IN_ARENA x a = false ∨ flag_nonfree <$> m' !! page_at a (index_of a x) = Some true) →
  range_taken a a m' x x need [].
Proof.
  intros Hn Hx Hs. split; [done|done|done|..].
  - change (zlen []) with 0. rewrite Z.mul_0_r, Z.add_0_r, u64_small; done.
  - intros i p H. unfold znth in H. case_match; [done|]. by rewrite lookup_nil in H.
  - change (zlen (@nil Z)) with 0. destruct Hs as [->|]; auto.
Qed.

Lemma range_taken_cons a fc fl a' m' x x' need taken :
  geo_ok a → ADDRESS_IN_ARENA x a = true → a_free_list a ≡ₚ page_at a (index_of a x) :: fl →
  u64 (x + PAGE_SIZE) = x + PAGE_SIZE ∨ taken = [] →
  range_taken (with_free fc fl a) a' m' (u64 (x + PAGE_SIZE)) x' need taken →
  range_taken a a' m' x x' (need + 1) (page_at a (index_of a x) :: taken).
Proof.
  intros Hg Hx Hp Hu [H1 H2 H3 H4 H5 H6].
  assert (zlen (page_at a (index_of a x) :: taken) = zlen taken + 1) as Hl by (unfold zlen; simpl; lia).
  split; [done|by rewrite Hp; simpl in *; rewrite H2|lia|..].
  - rewrite H4, Hl. unfold u64. rewrite Zplus_mod_idemp_l. f_equal. lia.
  - intros i p Hi. destruct (decide (i = 0)) as [->|Hi0].
    + rewrite Z.mul_0_r, Z.add_0_r. unfold znth in Hi. simpl in Hi. by injection Hi as <-.
    + assert (znth taken (i - 1) = Some p) as Hi1.
      { unfold znth in *. destruct (Z.ltb_spec i 0); [done|]. destruct (Z.ltb_spec (i - 1) 0); [lia|].
        replace (Z.to_nat i) with (S (Z.to_nat (i - 1))) in Hi by lia. done. }
      destruct Hu as [Hu| ->]; [|unfold znth in Hi1; case_match; [done|by rewrite lookup_nil in Hi1]].
      apply H5 in Hi1. rewrite Hu in Hi1. replace (x + PAGE_SIZE * i) with (x + PAGE_SIZE + PAGE_SIZE * (i - 1)) by lia.
      exact Hi1.
  - destruct H6 as [H6|H6]; [left; lia|right]. exact H6.
Qed.

Lemma alloc_range_next a x :
  geo_ok a → ADDRESS_IN_ARENA x a = true → (PAGE_SIZE | x) →
  let y := u64 (x + PAGE_SIZE) in
  (PAGE_SIZE | y) ∧ 0 ≤ y < 2 ^ 64 ∧ (y = x + PAGE_SIZE ∨ ADDRESS_IN_ARENA y a = false).
Proof.
  intros Hg Hx [k Hk]. cbv zeta. apply ADDRESS_IN_ARENA_iff in Hx; [|done].
  pose proof Hg as [[[b Hb] Hb0] [[n Hn] Hn0] He Hc]. unfold page_count, PAGE_SIZE in *.
  assert (x + 4096 ≤ a_base a + a_size a) by lia. split_and!; [|apply u64_range..|].
  - destruct (Z.eq_dec (x + 4096) (2 ^ 64)) as [E|].
    + exists 0. by rewrite E.
    + exists (k + 1). rewrite u64_small by lia. lia.
  - destruct (Z.eq_dec (x + 4096) (2 ^ 64)) as [E|]; [right|left; apply u64_small; lia].
    rewrite E. change (u64 (2 ^ 64)) with 0. apply not_true_iff_false. rewrite ADDRESS_IN_ARENA_iff by done.
    rewrite Hn, Z.div_mul in Hc by lia. lia.
Qed.

Lemma alloc_range_arena_ok fuel : ∀ pre a rest m x count allocated l,
  arenas_ok (pre ++ a :: rest) m → (PAGE_SIZE | x) → 0 ≤ x < 2 ^ 64 → allocated ≤ count →
  (Z.to_nat (count - allocated) < fuel)%nat →
  ∃ a' x' m' taken,
    alloc_range_arena fuel a x count allocated m l = Ok (a', x', allocated + zlen taken, m', l ++ taken) ∧
    arenas_ok (pre ++ a' :: rest) m' ∧ range_taken a a' m' x x' (count - allocated) taken.
Proof.
  induction fuel as [|fuel IH]; intros pre a rest m x count allocated l Hok Hx Hx0 Hle Hf; [lia|].
  cbn [alloc_range_arena]. pose proof (arenas_ok_middle _ _ _ _ Hok) as Ha. pose proof (ao_geo _ _ Ha) as Hg.
  assert (need_nil : count - allocated = 0 ∨ ADDRESS_IN_ARENA x a = false ∨
      flag_nonfree <$> m !! page_at a (index_of a x) = Some true →
      ∃ a' x' m' taken, Ok (a, x, allocated, m, l) = Ok (a', x', allocated + zlen taken, m', l ++ taken) ∧
        arenas_ok (pre ++ a' :: rest) m' ∧ range_taken a a' m' x x' (count - allocated) taken).
  { intros Hs. exists a, x, m, []. rewrite Z.add_0_r, app_nil_r. split_and!; [done..|].
    apply range_taken_nil; [lia|done..]. }
  destruct (Z.ltb_spec allocated count) as [Hlt|]; [|apply need_nil; left; lia].
  destruct (ADDRESS_IN_ARENA x a) eqn:Hin; [|apply need_nil; by auto]. cbn [andb].
  pose proof (proj1 (ADDRESS_IN_ARENA_iff x a Hg) Hin) as Hxr.
  pose proof (index_of_range a x Hg Hxr) as Hi. fold (index_of a x). change (a_size a / PAGE_SIZE) with (page_count a).
  rewrite (proj2 (Z.ltb_lt _ _)) by lia. cbn [assert_ mbind res_bind].
  assert (is_page a (page_at a (index_of a x))) as Hpg by (by exists (index_of a x)).
  destruct (ao_page _ _ Ha _ Hpg) as [f Ef]. rewrite Ef. cbn [of_option mbind res_bind].
  destruct (flag_nonfree f) eqn:Hff.
  { apply need_nil. right. right. rewrite Ef. simpl. by rewrite Hff. }
  assert (page_at a (index_of a x) ∈ a_free_list a) as Hfree.
  { apply (ao_free _ _ Ha). split; [done|]. rewrite Ef. simpl. by rewrite Hff. }
  destruct (take_page_ok pre a rest m _ Hok Hfree) as (m1 & E1 & Hok1 & Hperm & _). rewrite E1.
  cbn [mbind res_bind].
  destruct (alloc_range_next a x Hg Hin Hx) as (Hy & Hy0 & Hyn).
  destruct (IH pre _ rest m1 (u64 (x + PAGE_SIZE)) count (allocated + 1) (l ++ [page_at a (index_of a x)])
    Hok1 Hy Hy0 ltac:(lia) ltac:(lia)) as (a' & x' & m' & taken & E & Hok' & Ht).
  eexists a', x', m', _. split_and!; [|exact Hok'|].
  - rewrite E, <- app_assoc. cbn [app]. do 4 f_equal. unfold zlen. cbn [length]. lia.
  - replace (count - allocated) with (count - (allocated + 1) + 1) by lia.
    eapply range_taken_cons; [done|done|exact Hperm| |exact Ht]. destruct Hyn as [|Hyn]; [by left|right].
    destruct taken as [|p taken]; [done|]. exfalso.
    destruct (rt_page _ _ _ _ _ _ _ Ht 0 p eq_refl) as [Hbad _].
    rewrite Z.mul_0_r, Z.add_0_r in Hbad. change (ADDRESS_IN_ARENA (u64 (x + PAGE_SIZE)) a = true) in Hbad. congruence.
Qed.

(** The pages of the range that starts at [x] lie in [a] and are free. *)
Definition range_free (a : arena) (x n : Z) : Prop :=
  ∀ i, 0 ≤ i < n → ADDRESS_IN_ARENA (x + PAGE_SIZE * i) a = true ∧
    page_at a (index_of a (x + PAGE_SIZE * i)) ∈ a_free_list a.

Lemma range_taken_all a a' m' x x' need taken :
  arena_ok m' a' → NoDup (a_free_list a) → geo_ok a → range_taken a a' m' x x' need taken →
  range_free a x need → zlen taken = need.
Proof.
  intros Ha' Hnd Hgo [Hg Hp Hl Hn Hpg Hs] Hf. pose proof (zlen_nonneg taken) as Hz.
  destruct (Z.eq_dec (zlen taken) need) as [|Hne]; [done|exfalso].
  destruct (Hf (zlen taken)) as [Hin Hfree]; [lia|].
  assert (x' = x + PAGE_SIZE * zlen taken) as Ex.
  { rewrite Hn. apply u64_small. apply ADDRESS_IN_ARENA_iff in Hin; [|done]. destruct Hgo. lia. }
  rewrite <- Ex in Hin, Hfree. destruct Hs as [?|[?|Hs]]; [lia|congruence|].
  rewrite Hp in Hfree. apply elem_of_app in Hfree as [Ht|Hfl].
  - apply list_elem_of_lookup in Ht as [j Hj]. assert (j < length taken)%nat as Hjl by (by eapply lookup_lt_Some).
    destruct (Hpg (Z.of_nat j) (page_at a (index_of a x'))) as [_ E].
    { rewrite znth_lookup, Nat2Z.id by lia. done. }
    apply page_at_inj in E. rewrite Ex in E. unfold index_of, PAGE_SIZE in E.
    rewrite !(Z.add_sub_swap x), !(Z.mul_comm 4096), !Z.div_add in E by lia. unfold zlen in *. lia.
  - apply (ao_free _ _ Ha') in Hfl as [_ Hfl]. congruence.
Qed.

Lemma address_apart a b x :
  geo_ok a → geo_ok b → apart a b → ADDRESS_IN_ARENA x a = true → ADDRESS_IN_ARENA x b = false.
Proof.
  intros Ha Hb [H _] Hx. apply not_true_iff_false. rewrite ADDRESS_IN_ARENA_iff in * by done. lia.
Qed.

Record range_result (rest rest' : list arena) (x need : Z) (taken : list Z) : Prop := {
  rr_geo : geo <$> rest' = geo <$> rest;
  rr_free : free_list_of rest ≡ₚ taken ++ free_list_of rest';
  rr_len : zlen taken ≤ need;
  rr_page : ∀ i p, znth taken i = Some p → ∃ a, a ∈ rest ∧
    let y := u64 (x + PAGE_SIZE * i) in ADDRESS_IN_ARENA y a = true ∧ p = page_at a (index_of a y);
  rr_all : ∀ a, a ∈ rest → range_free a x need → zlen taken = need;
}.

Lemma taken_page a a' m' x x' need taken i p :
  geo_ok a → range_taken a a' m' x x' need taken → znth taken i = Some p →
  let y := u64 (x + PAGE_SIZE * i) in ADDRESS_IN_ARENA y a = true ∧ p = page_at a (index_of a y).
Proof.
  intros Hg Ht Hi. destruct (rt_page _ _ _ _ _ _ _ Ht i p Hi) as [Hin ->]. cbv zeta.
  rewrite u64_small; [done|]. apply ADDRESS_IN_ARENA_iff in Hin; [|done]. destruct Hg as [? ? ? ?]. lia.
Qed.

Lemma range_result_cons pre a a1 m m1 rest rest' x x1 need taken1 taken2 :
  arenas_ok (pre ++ a :: rest) m → arena_ok m1 a1 → range_taken a a1 m1 x x1 need taken1 → 0 ≤ x < 2 ^ 64 →
  range_result rest rest' x1 (need - zlen taken1) taken2 →
  range_result (a :: rest) (a1 :: rest') x need (taken1 ++ taken2).
Proof.
  intros Hok Ha1 Ht Hx [G1 G2 G3 G4 G5]. pose proof Ht as [H1 H2 H3 H4 H5 H6].
  pose proof (arenas_ok_middle _ _ _ _ Hok) as Ha. pose proof (ao_geo _ _ Ha) as Hg.
  pose proof (zlen_nonneg taken1). pose proof (zlen_nonneg taken2). split.
  - cbn [fmap list_fmap]. by rewrite H1, G1.
  - change (a_free_list a ++ free_list_of rest ≡ₚ (taken1 ++ taken2) ++ a_free_list a1 ++ free_list_of rest').
    rewrite H2, G2. solve_Permutation.
  - rewrite zlen_app. lia.
  - intros i p Hi. destruct (Z.ltb_spec i (zlen taken1)) as [Hlt|Hge].
    + assert (0 ≤ i) by (unfold znth in Hi; destruct (Z.ltb_spec i 0); [done|lia]).
      rewrite znth_app_l in Hi by lia. exists a. split; [left|]. eapply taken_page; done.
    + rewrite znth_app_r in Hi by done. destruct (G4 _ _ Hi) as (b & Hb & Hy). exists b. split; [by right|].
      cbv zeta in Hy. rewrite H4 in Hy. unfold u64 in Hy |- *. rewrite Zplus_mod_idemp_l in Hy.
      by replace (x + PAGE_SIZE * i) with (x + PAGE_SIZE * zlen taken1 + PAGE_SIZE * (i - zlen taken1)) by lia.
  - intros b Hb Hf. rewrite zlen_app. apply elem_of_cons in Hb as [->|Hb].
    + assert (zlen taken1 = need); [|lia]. eapply range_taken_all; [exact Ha1|apply Ha|done|done|done].
    + destruct (decide (need ≤ 0)); [lia|]. destruct (Hf 0) as [Hin _]; [lia|]. rewrite Z.mul_0_r, Z.add_0_r in Hin.
      assert (taken1 = []) as ->.
      { destruct taken1 as [|p ?]; [done|]. destruct (H5 0 p eq_refl) as [Hbad _].
        rewrite Z.mul_0_r, Z.add_0_r in Hbad. rewrite (address_apart b a) in Hbad; [done| |done| |done].
        - apply (ao_geo m). destruct Hok as [He _ _]. rewrite Forall_forall in He. apply He. set_solver.
        - apply apart_sym. eapply arenas_ok_apart; [exact Hok|]. set_solver. }
      rewrite (u64_small (x + _)) in H4; change (zlen (@nil Z)) with 0 in *; [|lia].
      rewrite Z.mul_0_r, Z.add_0_r in H4. subst x1. rewrite Z.sub_0_r in *. rewrite (G5 b Hb Hf). lia.
Qed.

Lemma range_result_stop rest x : range_result rest rest x 0 [].
Proof.
  split; [done..| |done]. intros i p H. unfold znth in H. case_match; [done|]. by rewrite lookup_nil in H.
Qed.

Lemma range_result_end x need : 0 ≤ need → range_result [] [] x need [].
Proof.
  split; [done..| |by intros a ?%elem_of_nil].
  intros i p H'. unfold znth in H'. case_match; [done|]. by rewrite lookup_nil in H'.
Qed.

Lemma aligned_u64 x n : (PAGE_SIZE | x) → (PAGE_SIZE | u64 (x + PAGE_SIZE * n)).
Proof.
  intros [k ->]. unfold u64, PAGE_SIZE. apply Z.mod_divide; [lia|].
  rewrite <- Znumtheory.Zmod_div_mod; [|lia|lia|by exists (2 ^ 52)].
  replace (k * 4096 + 4096 * n) with ((k + n) * 4096) by lia. apply Z.mod_mul. lia.
Qed.

Lemma alloc_range_loop_ok rest : ∀ pre m x count allocated l,
  arenas_ok (pre ++ rest) m → (PAGE_SIZE | x) → 0 ≤ x < 2 ^ 64 → allocated ≤ count →
  ∃ rest' m' taken,
    alloc_range_loop rest x count allocated m l = Ok (rest', allocated + zlen taken, m', l ++ taken) ∧
    arenas_ok (pre ++ rest') m' ∧ range_result rest rest' x (count - allocated) taken.
Proof.
  induction rest as [|a rest IH]; intros pre m x count allocated l Hok Hx Hx0 Hle; cbn [alloc_range_loop].
  - exists [], m, []. rewrite Z.add_0_r, app_nil_r. split_and!; [done..|]. apply range_result_end. lia.
  - destruct (alloc_range_arena_ok (S (Z.to_nat (count - allocated))) pre a rest m x count allocated l
      Hok Hx Hx0 Hle ltac:(lia)) as (a1 & x1 & m1 & t1 & E & Hok1 & Ht). rewrite E. cbn [mbind res_bind]. clear E.
    pose proof (arenas_ok_middle _ _ _ _ Hok1) as Ha1. pose proof (rt_len _ _ _ _ _ _ _ Ht).
    destruct (Z.eqb_spec (allocated + zlen t1) count) as [Ec|Ec].
    + exists (a1 :: rest), m1, t1. split_and!; [done..|]. rewrite <- (app_nil_r t1).
      eapply range_result_cons; [done..|]. replace (_ - _) with 0 by lia. apply range_result_stop.
    + replace (pre ++ a1 :: rest) with ((pre ++ [a1]) ++ rest) in Hok1 by (by rewrite <- app_assoc).
      destruct (IH (pre ++ [a1]) m1 x1 count (allocated + zlen t1) (l ++ t1)) as (rest' & m' & t2 & E & Hok' & Hr);
        [done|rewrite (rt_next _ _ _ _ _ _ _ Ht); by apply aligned_u64|
         rewrite (rt_next _ _ _ _ _ _ _ Ht); apply u64_range|lia|].
      rewrite E. cbn [mbind res_bind]. exists (a1 :: rest'), m', (t1 ++ t2). rewrite <- app_assoc in Hok'.
      split_and!; [by rewrite <- app_assoc, zlen_app, Z.add_assoc|exact Hok'|].
      eapply range_result_cons; [done..|]. by replace (count - allocated - zlen t1) with (count - (allocated + zlen t1)) by lia.
Qed.

Lemma paddr_to_vm_page_in_ok arenas m a x :
  arenas_ok arenas m → a ∈ arenas → ADDRESS_IN_ARENA x a = true →
  paddr_to_vm_page_in arenas x = Some (page_at a (index_of a x)).
Proof.
  intros Hok Ha Hx. induction arenas as [|b arenas IH]; [by apply elem_of_nil in Ha|].
  cbn [paddr_to_vm_page_in]. apply elem_of_cons in Ha as [<-|Ha]; [by rewrite Hx|].
  rewrite (address_apart a b x); [|apply (ao_geo m), (arenas_ok_elem _ _ _ Hok); by right|
    apply (ao_geo m), (arenas_ok_elem _ _ _ Hok); by left| |done].
  - apply IH; [by eapply arenas_ok_cons|done].
  - apply apart_sym. by apply (arenas_ok_apart [] b arenas m).
Qed.

Lemma pmm_alloc_range_ok address count l s :
  pinv s → 0 ≤ address < 2 ^ 64 → 0 ≤ count →
  let x := ROUNDDOWN address PAGE_SIZE in
  ∃ pages s', pmm_alloc_range address count l s = Ok (zlen pages, l ++ pages, s') ∧ pinv s' ∧
    geo <$> arena_list s' = geo <$> arena_list s ∧ zlen pages ≤ count ∧
    free_pages s ≡ₚ pages ++ free_pages s' ∧
    (∀ i p, znth pages i = Some p → paddr_to_vm_page s (u64 (x + PAGE_SIZE * i)) = Some p) ∧
    (∀ a, a ∈ arena_list s → range_free a x count → zlen pages = count).
Proof.
  intros Hp Hx Hc. cbv zeta. unfold pmm_alloc_range. set (x := ROUNDDOWN address PAGE_SIZE).
  assert ((PAGE_SIZE | x) ∧ 0 ≤ x < 2 ^ 64) as [Hxa Hx0].
  { unfold x, PAGE_SIZE. change 4096 with (2 ^ 12). rewrite ROUNDDOWN_spec by lia.
    pose proof (Z.mod_pos_bound address (2 ^ 12) ltac:(lia)).
    pose proof (Z.mod_le address (2 ^ 12) ltac:(lia) ltac:(lia)).
    split; [|lia]. exists (address / 2 ^ 12). pose proof (Z.div_mod address (2 ^ 12)). lia. }
  destruct (Z.eqb_spec count 0) as [->|].
  - exists [], s. rewrite app_nil_r. split_and!; [done..| |done]. intros i p H. unfold znth in H. case_match; [done|]. by rewrite lookup_nil in H.
  - destruct (alloc_range_loop_ok (arena_list s) [] (page_flags s) x count 0 l (pi_arenas _ Hp) Hxa Hx0 Hc)
      as (ar & m & t & E & Hok & [R1 R2 R3 R4 R5]).
    rewrite E. cbn [mbind res_bind app]. rewrite Z.add_0_l, Z.sub_0_r in *.
    assert (pinv (mk_pmm ar m (boot_alloc_end s))) as Hp' by (by apply pinv_frame).
    eexists t, _. split_and!; [done|done|done|done|done| |done].
    intros i p Hi. destruct (R4 i p Hi) as (a & Ha & Hin & ->).
    eapply paddr_to_vm_page_in_ok; [apply Hp|done|done].
Qed.

(** [pmm_alloc_range] hands out free pages that back consecutive physical
    addresses from the given one, at most [count] of them, and exactly [count]
    when they all are free pages of one arena; the invariant is preserved. *)
Theorem pmm_alloc_range_spec address count s :
  pinv s → 0 ≤ address < 2 ^ 64 → 0 ≤ count →
  let x := ROUNDDOWN address PAGE_SIZE in
  ∃ pages s', pmm_alloc_range address count [] s = Ok (zlen pages, pages, s') ∧ pinv s' ∧ zlen pages ≤ count ∧
    free_pages s ≡ₚ pages ++ free_pages s' ∧ Forall (in_use s') pages ∧
    (∀ i p, znth pages i = Some p → paddr_to_vm_page s (u64 (x + PAGE_SIZE * i)) = Some p) ∧
    (∀ a, a ∈ arena_list s → range_free a x count → zlen pages = count).
Proof.
  intros Hp Hx Hc x. destruct (pmm_alloc_range_ok address count [] s Hp Hx Hc) as (pages & s' & E & Hp' & Hg & Hn & Hf & Hpg & Hall).
  exists pages, s'. split_and!; try done. by apply (taken_in_use s).
Qed.

(** ** Contiguous runs *)

Definition page_free (m : gmap Z Z) (a : arena) (i : Z) : Prop :=
  flag_nonfree <$> m !! page_at a i = Some false.
Definition run_free (m : gmap Z Z) (a : arena) (start n : Z) : Prop :=
  ∀ i, start ≤ i < start + n → page_free m a i.

(** A run of [count] pages inside the arena at an aligned address. *)
Definition aligned_run (a : arena) (al count start : Z) : Prop :=
  0 ≤ start ∧ start + count ≤ page_count a ∧ (2 ^ al | a_base a + start * PAGE_SIZE).

Lemma page_at_next a i : page_at a i + sizeof_vm_page = page_at a (i + 1).
Proof. unfold page_at. lia. Qed.

Lemma scan_run_ok n : ∀ m a i k,
  arena_ok m a → 0 ≤ k → k + Z.of_nat n ≤ page_count a →
  (scan_run n i (page_at a k) m = Ok None ∧ run_free m a k (Z.of_nat n)) ∨
  (∃ j, scan_run n i (page_at a k) m = Ok (Some (i + j)) ∧ 0 ≤ j < Z.of_nat n ∧ ¬ page_free m a (k + j)).
Proof.
  induction n as [|n IH]; intros m a i k Ha Hk Hn; cbn [scan_run].
  - left. split; [done|]. intros x Hx. lia.
  - destruct (ao_page _ _ Ha (page_at a k)) as [f Ef]; [exists k; split; [lia|done]|].
    rewrite Ef. cbn [of_option mbind res_bind]. destruct (flag_nonfree f) eqn:Hf.
    + right. exists 0. rewrite Z.add_0_r. split_and!; [done|lia|lia|]. rewrite Z.add_0_r. unfold page_free. rewrite Ef. simpl. by rewrite Hf.
    + rewrite page_at_next. destruct (IH m a (i + 1) (k + 1) Ha) as [[E Hr]|(j & E & Hj & Hb)]; [lia|lia|left|right].
      * split; [done|]. intros x Hx. destruct (decide (x = k)) as [->|]; [|apply Hr; lia].
        unfold page_free. rewrite Ef. simpl. by rewrite Hf.
      * exists (j + 1). rewrite E. split_and!; [f_equal; f_equal; lia|lia|lia|].
        by replace (k + (j + 1)) with (k + 1 + j) by lia.
Qed.

Lemma divide_add_iff d x y : (d | y) → (d | x + y) ↔ (d | x).
Proof.
  intros Hy. split; [|intros; by apply Z.divide_add_r]. intros H.
  apply (Z.divide_add_cancel_r d y x); [done|by rewrite Z.add_comm].
Qed.

(** Where aligned runs can start: from the first aligned page on, in steps. *)
Lemma aligned_steps a al off c :
  geo_ok a → 12 ≤ al → 0 ≤ off → ROUNDUP (a_base a) (2 ^ al) = a_base a + off * PAGE_SIZE →
  a_base a + 2 ^ al - 1 < 2 ^ 64 → 0 ≤ c →
  (2 ^ al | a_base a + c * PAGE_SIZE) ↔ off ≤ c ∧ (2 ^ (al - 12) | c - off).
Proof.
  intros [[_ Hb] _ _ _] Hal Hoff Hr Hov Hc. pose proof (Z.pow_pos_nonneg 2 (al - 12)) as Hpos.
  destruct (ROUNDUP_bounds (a_base a) al) as [Hbd Hdiv]; [lia..|]. rewrite Hr in Hbd, Hdiv.
  assert (2 ^ al = 2 ^ (al - 12) * PAGE_SIZE) as E2.
  { unfold PAGE_SIZE. change 4096 with (2 ^ 12). rewrite <- Z.pow_add_r by lia. f_equal. lia. }
  assert ((2 ^ al | a_base a + c * PAGE_SIZE) ↔ (2 ^ (al - 12) | c - off)) as Hiff.
  { replace (a_base a + c * PAGE_SIZE) with ((c - off) * PAGE_SIZE + (a_base a + off * PAGE_SIZE)) by lia.
    rewrite divide_add_iff, E2 by done. apply Z.mul_divide_cancel_r. done. }
  rewrite Hiff. split; [|by intros [_ ?]]. intros Hd. split; [|done].
  destruct (Z.le_gt_cases off c) as [|Hlt]; [done|exfalso].
  apply Hiff in Hd as [q Hq]. destruct Hdiv as [r Hrr]. unfold PAGE_SIZE in *.
  assert ((r - 1) * 2 ^ al < q * 2 ^ al) as H1 by lia. assert (q * 2 ^ al < r * 2 ^ al) as H2 by lia.
  pose proof (Z.pow_pos_nonneg 2 al). apply Z.mul_lt_mono_pos_r in H1, H2; lia.
Qed.

(** The next candidate after a page in use at distance [i]: every candidate
    before it still contains that page. *)
Lemma next_start al off start i n :
  0 ≤ al - 12 ≤ 19 → 0 ≤ off → off ≤ start → (2 ^ (al - 12) | start - off) → 0 ≤ i → start + i < n → n < 2 ^ 30 →
  let start' := u32 (ROUNDUP (u32 (start - off + i + 1)) (Z.shiftl 1 (al - PAGE_SIZE_SHIFT)) + off) in
  start + i < start' < 2 ^ 31 ∧ (2 ^ (al - 12) | start' - off) ∧
  (∀ c, (2 ^ (al - 12) | c - off) → c < start' → c ≤ start + i).
Proof.
  intros Hal Hoff Hst Hd Hi Hn Hn'. cbv zeta. unfold PAGE_SIZE_SHIFT. rewrite Z.shiftl_1_l.
  assert (2 ^ (al - 12) ≤ 2 ^ 19) as Hp by (apply Z.pow_le_mono_r; lia).
  pose proof (Z.pow_pos_nonneg 2 (al - 12)) as Hp0.
  rewrite (u32_small (start - off + i + 1)) by lia.
  destruct (ROUNDUP_bounds (start - off + i + 1) (al - 12)) as [Hb Hdr]; [lia..|].
  set (r := ROUNDUP _ _) in *. rewrite u32_small by lia. replace (r + off - off) with r by lia.
  split_and!; [lia|lia|done|]. intros c [q Hq] Hc. destruct Hdr as [k Hk].
  assert (q * 2 ^ (al - 12) < k * 2 ^ (al - 12)) as H by lia. apply Z.mul_lt_mono_pos_r in H; [|lia].
  assert (q * 2 ^ (al - 12) ≤ (k - 1) * 2 ^ (al - 12)) by (apply Z.mul_le_mono_nonneg_r; lia). lia.
Qed.

Lemma find_run_ok fuel : ∀ m a al off start count,
  arena_ok m a → 12 ≤ al ≤ 31 → 0 ≤ off ≤ start → start < 2 ^ 31 → 0 < count < 2 ^ 31 →
  (2 ^ (al - 12) | start - off) → (Z.to_nat (page_count a - start) < fuel)%nat →
  (∃ st, find_run fuel m a al off start count = Ok (Some st) ∧
    start ≤ st ∧ st + count ≤ page_count a ∧ (2 ^ (al - 12) | st - off) ∧ run_free m a st count) ∨
  (find_run fuel m a al off start count = Ok None ∧
    ∀ c, start ≤ c → c + count ≤ page_count a → (2 ^ (al - 12) | c - off) → ¬ run_free m a c count).
Proof.
  induction fuel as [|fuel IH]; intros m a al off start count Ha Hal Hoff Hst Hc Hd Hf; [lia|].
  cbn [find_run]. change (a_size a / PAGE_SIZE) with (page_count a). rewrite (u32_small (start + count)) by lia.
  pose proof (go_pages _ (ao_geo _ _ Ha)) as Hmax.
  destruct (Z.ltb_spec start (page_count a)) as [H1|H1]; [|right; split; [done|]; intros; lia].
  destruct (Z.leb_spec (start + count) (page_count a)) as [H2|H2]; [|right; split; [done|]; intros; lia].
  cbn [andb]. destruct (scan_run_ok (Z.to_nat count) m a 0 start Ha) as [[E Hr]|(j & E & Hj & Hb)]; [lia|lia|..];
    rewrite E; cbn [mbind res_bind].
  - left. exists start. rewrite Z2Nat.id in Hr by lia. split_and!; [done|lia|lia|done|done].
  - rewrite Z2Nat.id in Hj by lia. rewrite Z.add_0_l.
    destruct (next_start al off start j (page_count a)) as (Hs1 & Hs2 & Hs3); [lia|lia|lia|done|lia|lia|lia|].
    set (start' := u32 _) in *.
    destruct (IH m a al off start' count) as [(st & Es & R)|(Es & R)]; [done|done|lia|lia|done|done|lia|left|right].
    + exists st. split; [done|]. destruct R as (? & R). split; [lia|done].
    + split; [done|]. intros c Hc1 Hc2 Hc3. destruct (Z.lt_ge_cases c start') as [Hlt|Hge]; [|by apply R].
      intros Hrun. apply Hb. apply Hrun. specialize (Hs3 c Hc3 Hlt). lia.
Qed.

(** Rounding up past the end of the address space gives 0. *)
Lemma ROUNDUP_overflow x al :
  0 ≤ al ≤ 63 → 0 ≤ x < 2 ^ 64 → 2 ^ 64 ≤ x + (2 ^ al - 1) → ROUNDUP x (2 ^ al) = 0.
Proof.
  intros Hal Hx Hov. unfold ROUNDUP. assert (2 ^ al ≤ 2 ^ 63) by (apply Z.pow_le_mono_r; lia).
  assert (u64 (x + (2 ^ al - 1)) = x + (2 ^ al - 1) - 2 ^ 64) as ->.
  { symmetry. apply (Z.mod_unique_pos _ _ 1); lia. }
  rewrite land_lnot_ones, Z.div_small by lia. lia.
Qed.

Lemma search_arena_ok m a al count :
  arena_ok m a → 12 ≤ al ≤ 31 → 0 < count < 2 ^ 31 →
  (∃ st, search_arena a m count al = Ok (Some st) ∧ has_flag (a_flags a) PMM_ARENA_FLAG_KMAP = true ∧
    aligned_run a al count st ∧ run_free m a st count) ∨
  (search_arena a m count al = Ok None ∧
    (has_flag (a_flags a) PMM_ARENA_FLAG_KMAP = true → ∀ c, aligned_run a al count c → ¬ run_free m a c count)).
Proof.
  intros Ha Hal Hc. unfold search_arena. destruct (has_flag _ _); [|by right].
  pose proof (ao_geo _ _ Ha) as Hg. pose proof Hg as [[[b Hb] Hb0] [[n Hn] Hn0] He Hmax].
  rewrite Z.shiftl_1_l. assert (2 ^ al ≤ 2 ^ 31) as Hp by (apply Z.pow_le_mono_r; lia).
  pose proof (Z.pow_pos_nonneg 2 al) as Hp0.
  assert (page_count a = n) as Hpc by (unfold page_count; rewrite Hn; apply Z.div_mul; done). rewrite Hpc in *.
  destruct (Z.lt_ge_cases (a_base a + (2 ^ al - 1)) (2 ^ 64)) as [Hov|Hov].
  - destruct (ROUNDUP_bounds (a_base a) al) as [Hbd Hdiv]; [lia..|].
    set (r := ROUNDUP _ _) in *. rewrite (proj2 (Z.ltb_ge _ _)) by lia. cbn [orb].
    rewrite (u64_small (a_base a + a_size a - 1)) by lia.
    destruct (Z.ltb_spec (a_base a + a_size a - 1) r) as [Hout|Hin].
    + right. split; [done|]. intros _ c (Hc0 & Hc1 & Hc2). exfalso. destruct Hdiv as [q Hq], Hc2 as [p Hcp].
      unfold PAGE_SIZE in *. assert (p * 2 ^ al < q * 2 ^ al) as H by lia. apply Z.mul_lt_mono_pos_r in H; [|lia].
      assert (p * 2 ^ al ≤ (q - 1) * 2 ^ al) by (apply Z.mul_le_mono_nonneg_r; lia). lia.
    + assert (∃ off, r = a_base a + off * PAGE_SIZE ∧ 0 ≤ off < n) as (off & Er & Hoff).
      { destruct Hdiv as [q Hq]. exists (q * 2 ^ (al - 12) - b). unfold PAGE_SIZE in *.
        assert (2 ^ al = 2 ^ (al - 12) * 4096) as E2.
        { change 4096 with (2 ^ 12). rewrite <- Z.pow_add_r by lia. f_equal. lia. }
        rewrite E2 in Hq. split; lia. }
      rewrite Er. replace (a_base a + off * PAGE_SIZE - a_base a) with (off * PAGE_SIZE) by lia.
      rewrite Z.div_mul, u32_small by (done || lia).
      pose proof (λ c, aligned_steps a al off c Hg ltac:(lia) ltac:(lia) Er ltac:(lia)) as Hal'.
      change (a_size a / PAGE_SIZE) with (page_count a). rewrite Hpc.
      destruct (find_run_ok (S (Z.to_nat n)) m a al off off count) as [(st & E & H1 & H2 & H3 & H4)|[E H]];
        [done|done|lia|lia|done|rewrite Z.sub_diag; apply Z.divide_0_r|rewrite Hpc; lia|left|right].
      * exists st. split_and!; [done|done| |done]. split_and!; [lia|lia|]. apply Hal'; [lia|]. done.
      * split; [done|]. intros _ c (Hc0 & Hc1 & Hc2). apply Hal' in Hc2 as [? ?]; [|done]. by apply H; [|lia|].
  - rewrite (ROUNDUP_overflow (a_base a) al) by lia. rewrite (proj2 (Z.ltb_lt _ _)) by lia. right. split; [done|].
    intros _ c (Hc0 & Hc1 & [p Hcp]). exfalso. unfold PAGE_SIZE in *.
    assert (2 ^ 64 = 2 ^ (64 - al) * 2 ^ al) as E64 by (rewrite <- Z.pow_add_r by lia; f_equal; lia).
    assert (p * 2 ^ al < 2 ^ (64 - al) * 2 ^ al) as H by lia. apply Z.mul_lt_mono_pos_r in H; [|lia].
    assert (p * 2 ^ al ≤ (2 ^ (64 - al) - 1) * 2 ^ al) by (apply Z.mul_le_mono_nonneg_r; lia). lia.
Qed.

Lemma run_pages_cons a i n : 0 ≤ n → page_at a i :: (page_at a <$> seqZ (i + 1) n) = page_at a <$> seqZ i (n + 1).
Proof.
  intros. rewrite (seqZ_cons i) by lia. cbn [fmap list_fmap]. do 3 f_equal; lia.
Qed.

Lemma take_run_ok n : ∀ pre a rest m i l,
  arenas_ok (pre ++ a :: rest) m → 0 ≤ i → i + Z.of_nat n ≤ page_count a → run_free m a i (Z.of_nat n) →
  let pages := page_at a <$> seqZ i (Z.of_nat n) in
  ∃ a' m', take_run n i a m l = Ok (a', m', l ++ pages) ∧ arenas_ok (pre ++ a' :: rest) m' ∧
    geo a' = geo a ∧ a_free_list a ≡ₚ pages ++ a_free_list a'.
Proof.
  induction n as [|n IH]; intros pre a rest m i l Hok Hi Hn Hr; cbv zeta; cbn [take_run].
  - exists a, m. simpl. by rewrite app_nil_r.
  - pose proof (arenas_ok_middle _ _ _ _ Hok) as Ha. assert (is_page a (page_at a i)) as Hpg by (exists i; split; [lia|done]).
    pose proof (Hr i ltac:(lia)) as Hfi. unfold page_free in Hfi.
    assert (page_at a i ∈ a_free_list a) as Hin by (by apply (ao_free _ _ Ha)).
    destruct (m !! page_at a i) as [f|] eqn:Ef; [|done]. injection Hfi as Hfi.
    cbn [of_option mbind res_bind]. rewrite Hfi. cbn [negb assert_ mbind res_bind].
    destruct (take_page_ok pre a rest m _ Hok Hin) as (m1 & E1 & Hok1 & Hperm & _ & Hother & _).
    rewrite E1. cbn [mbind res_bind]. set (a1 := with_free _ _ a) in *.
    destruct (IH pre a1 rest m1 (i + 1) (l ++ [page_at a i]) Hok1) as (a' & m' & E & Hok' & Hg & Hfl).
    + lia.
    + change (page_count a1) with (page_count a). lia.
    + intros k Hk. unfold page_free. change (page_at a1 k) with (page_at a k). rewrite Hother; [apply Hr; lia|].
      intros H. apply page_at_inj in H. lia.
    + change (page_at a1) with (page_at a) in *. exists a', m'. rewrite Nat2Z.inj_succ, <- Z.add_1_r, <- run_pages_cons by lia.
      split_and!; [by rewrite E, <- app_assoc|done|done|]. rewrite Hperm. simpl. by rewrite <- Hfl.
Qed.

(** No arena usable for kernel mappings has an aligned run of free pages. *)
Definition no_run (arenas : list arena) (m : gmap Z Z) (al count : Z) : Prop :=
  ∀ a, a ∈ arenas → has_flag (a_flags a) PMM_ARENA_FLAG_KMAP = true →
    ∀ c, aligned_run a al count c → ¬ run_free m a c count.

Definition run_taken (arenas arenas' : list arena) (m : gmap Z Z) (al count pa : Z) (pages : list Z) : Prop :=
  ∃ a st, a ∈ arenas ∧ has_flag (a_flags a) PMM_ARENA_FLAG_KMAP = true ∧ aligned_run a al count st ∧
    run_free m a st count ∧ pa = a_base a + st * PAGE_SIZE ∧ pages = page_at a <$> seqZ st count ∧
    geo <$> arenas' = geo <$> arenas ∧ free_list_of arenas ≡ₚ pages ++ free_list_of arenas'.

Lemma alloc_contiguous_loop_ok rest : ∀ pre m count al l,
  arenas_ok (pre ++ rest) m → 12 ≤ al ≤ 31 → 0 < count < 2 ^ 31 →
  (∃ rest' m' pa pages, alloc_contiguous_loop rest m count al l = Ok (rest', m', l ++ pages, Some pa) ∧
    arenas_ok (pre ++ rest') m' ∧ run_taken rest rest' m al count pa pages) ∨
  (alloc_contiguous_loop rest m count al l = Ok (rest, m, l, None) ∧ no_run rest m al count).
Proof.
  induction rest as [|a rest IH]; intros pre m count al l Hok Hal Hc; cbn [alloc_contiguous_loop].
  - right. split; [done|]. by intros a ?%elem_of_nil.
  - pose proof (arenas_ok_middle _ _ _ _ Hok) as Ha.
    destruct (search_arena_ok m a al count Ha Hal Hc) as [(st & E & Hk & Hrun & Hfr)|[E Hno]]; rewrite E; cbn [mbind res_bind].
    + left. pose proof Hrun as (Hs0 & Hs1 & _).
      destruct (take_run_ok (Z.to_nat count) pre a rest m st l) as (a' & m' & Et & Hok' & Hg & Hfl);
        [done|done|lia|by rewrite Z2Nat.id by lia|]. rewrite Z2Nat.id in Et, Hfl by lia. rewrite Et. cbn [mbind res_bind].
      eexists _, m', _, _. split_and!; [done|exact Hok'|]. exists a, st. split_and!; [left|done|done|done| |done| |].
      * assert (a_base a' = a_base a) as -> by (by injection Hg). apply u64_small.
        destruct (ao_geo _ _ Ha) as [[_ Hb] [[n Hn] _] He _]. unfold page_count in Hs1. rewrite Hn, Z.div_mul in Hs1 by done.
        unfold PAGE_SIZE in *. lia.
      * cbn [fmap list_fmap]. by rewrite Hg.
      * change (a_free_list a ++ free_list_of rest ≡ₚ (page_at a <$> seqZ st count) ++ a_free_list a' ++ free_list_of rest).
        rewrite Hfl. by rewrite app_assoc.
    + replace (pre ++ a :: rest) with ((pre ++ [a]) ++ rest) in Hok by (by rewrite <- app_assoc).
      destruct (IH (pre ++ [a]) m count al l Hok Hal Hc) as [(rest' & m' & pa & pages & Er & Hok' & Ht)|[Er Hno']];
        rewrite Er; cbn [mbind res_bind]; [left|right].
      * exists (a :: rest'), m', pa, pages. rewrite <- app_assoc in Hok'. split_and!; [done|done|].
        destruct Ht as (b & st & Hb & H1 & H2 & H3 & H4 & H5 & Hg & Hfl).
        exists b, st. split_and!; [by right|done..| |]; [cbn [fmap list_fmap]; by rewrite Hg|].
        change (a_free_list a ++ free_list_of rest ≡ₚ pages ++ a_free_list a ++ free_list_of rest').
        rewrite Hfl. solve_Permutation.
      * split; [done|]. intros b [->|Hb]%elem_of_cons Hk; [by apply Hno|by apply Hno'].
Qed.

Lemma pmm_alloc_contiguous_ok count al s :
  pinv s → 0 < count < 2 ^ 31 → 0 ≤ al ≤ 31 →
  (∃ pages pa s', pmm_alloc_contiguous count al [] s = Ok (count, Some pa, pages, s') ∧ pinv s' ∧
    run_taken (arena_list s) (arena_list s') (page_flags s) (Z.max 12 al) count pa pages ∧
    Forall (in_use s') pages) ∨
  (pmm_alloc_contiguous count al [] s = Ok (0, None, [], s) ∧
    no_run (arena_list s) (page_flags s) (Z.max 12 al) count).
Proof.
  intros Hp Hc Hal. unfold pmm_alloc_contiguous. destruct (Z.eqb_spec count 0) as [|_]; [lia|].
  replace (if al <? PAGE_SIZE_SHIFT then PAGE_SIZE_SHIFT else al) with (Z.max 12 al)
    by (unfold PAGE_SIZE_SHIFT; destruct (Z.ltb_spec al 12); lia).
  destruct (alloc_contiguous_loop_ok (arena_list s) [] (page_flags s) count (Z.max 12 al) [] (pi_arenas _ Hp) ltac:(lia) Hc)
    as [(ar & m & pa & pages & E & Hok & Ht)|[E Hno]]; rewrite E; cbn [mbind res_bind]; [left|right].
  - pose proof Ht as (a & st & _ & _ & _ & _ & _ & _ & Hg & Hfl).
    assert (pinv (mk_pmm ar m (boot_alloc_end s))) as Hp' by (by apply pinv_frame).
    eexists pages, pa, _. split_and!; [done|done|done|]. by apply (taken_in_use s).
  - split; [by destruct s|done].
Qed.

(** [pmm_alloc_contiguous] finds a run of free pages at an aligned physical
    address whenever an arena usable for kernel mappings has one, hands out
    exactly that run and reports its address; otherwise it returns 0 and
    changes nothing. *)
Theorem pmm_alloc_contiguous_spec count al s :
  pinv s → 0 < count < 2 ^ 31 → 0 ≤ al ≤ 31 →
  (∃ pages pa s', pmm_alloc_contiguous count al [] s = Ok (count, Some pa, pages, s') ∧ pinv s' ∧
    run_taken (arena_list s) (arena_list s') (page_flags s) (Z.max 12 al) count pa pages ∧
    Forall (in_use s') pages) ∨
  (pmm_alloc_contiguous count al [] s = Ok (0, None, [], s) ∧
    no_run (arena_list s) (page_flags s) (Z.max 12 al) count).
Proof. apply pmm_alloc_contiguous_ok. Qed.

(** ** Addresses and page structures *)

Lemma vm_page_to_paddr_in_ok arenas m a i :
  arenas_ok arenas m → a ∈ arenas → 0 ≤ i < page_count a →
  vm_page_to_paddr_in arenas (page_at a i) = a_base a + i * PAGE_SIZE.
Proof.
  intros Hok Ha Hi. assert (is_page a (page_at a i)) as Hp by (by exists i).
  pose proof (ao_geo _ _ (arenas_ok_elem a _ _ Hok Ha)) as [[_ Hb] [[n Hn] _] He _].
  induction arenas as [|b arenas IH]; [by apply elem_of_nil in Ha|]. cbn [vm_page_to_paddr_in].
  apply elem_of_cons in Ha as [<-|Ha].
  - rewrite belongs_is_page by done. unfold PAGE_ADDRESS_FROM_ARENA, page_at.
    replace (a_page_array a + i * sizeof_vm_page - a_page_array a) with (i * sizeof_vm_page) by lia.
    rewrite Z.div_mul, Z.add_comm by done. apply u64_small.
    unfold page_count in Hi. rewrite Hn, Z.div_mul in Hi by done. unfold PAGE_SIZE in *. lia.
  - rewrite (not_belongs_apart a b); [by apply IH; [eapply arenas_ok_cons|]| |done].
    apply apart_sym. by apply (arenas_ok_apart [] b arenas m).
Qed.

(** The physical address of a page structure leads back to it. *)
Theorem vm_page_paddr_roundtrip a p s :
  pinv s → a ∈ arena_list s → is_page a p → paddr_to_vm_page s (vm_page_to_paddr s p) = Some p.
Proof.
  intros [Hok _ _] Ha (i & Hi & ->). unfold paddr_to_vm_page, vm_page_to_paddr.
  rewrite (vm_page_to_paddr_in_ok _ _ a i Hok Ha Hi).
  pose proof (ao_geo _ _ (arenas_ok_elem a _ _ Hok Ha)) as Hg. pose proof Hg as [_ [[n Hn] _] _ _].
  rewrite (paddr_to_vm_page_in_ok _ _ a _ Hok Ha).
  - unfold index_of. do 2 f_equal. rewrite Z.add_simpl_l. by apply Z.div_mul.
  - apply ADDRESS_IN_ARENA_iff; [done|]. unfold page_count in Hi. rewrite Hn, Z.div_mul in Hi by done.
    unfold PAGE_SIZE in *. lia.
Qed.

(** ** A machine with two arenas

    The first has high memory that the kernel does not map, the second low
    memory that it does. *)

Definition no_arenas : pmm := mk_pmm [] ∅ 0x100000.
Definition high_mem : arena := mk_arena 0 1 0x100000000 0x4000 0 0 [].
Definition low_mem : arena := mk_arena PMM_ARENA_FLAG_KMAP 2 0x1000 0x8000 0 0 [].
Definition after_add (new : arena) (s : pmm) : pmm :=
  match pmm_add_arena new s with Ok (_, s) => s | Fault _ => s end.
Definition one_arena : pmm := after_add high_mem no_arenas.
Definition two_arenas : pmm := after_add low_mem one_arena.
Definition ex_maps : list mmu_initial_mapping := [mk_mapping 0 0x80000000 0x10000 0 None].

Lemma no_arenas_pinv : pinv no_arenas.
Proof. split; [split; [constructor|constructor|done]|done|constructor]. Qed.

Definition addableb (new : arena) (s : pmm) : bool :=
  (0 <=? a_base new) && (a_base new + a_size new <=? 2 ^ 64) && (page_count new <? 2 ^ 30) &&
  (boot_alloc_end s + a_size new / PAGE_SIZE * sizeof_vm_page + 16 <? 2 ^ 64) &&
  forallb (λ a, (a_base a + a_size a <=? a_base new) || (a_base new + a_size new <=? a_base a)) (arena_list s).

Lemma addableb_spec new s : addableb new s = true → addable new s.
Proof.
  unfold addableb. rewrite !andb_true_iff, !Z.leb_le, !Z.ltb_lt, forallb_forall.
  intros [[[[? ?] ?] ?] Hall]. split; [done..|]. apply Forall_forall. intros a Ha.
  apply list_elem_of_In, Hall in Ha. rewrite orb_true_iff, !Z.leb_le in Ha. exact Ha.
Qed.

Lemma after_add_pinv new s :
  pinv s → addableb new s = true →
  IS_ALIGNED (a_base new) PAGE_SIZE && IS_ALIGNED (a_size new) PAGE_SIZE && (0 <? a_size new) = true →
  pinv (after_add new s).
Proof.
  rewrite !andb_true_iff, Z.ltb_lt. intros Hp Ha [[? ?] ?]. unfold after_add.
  by destruct (pmm_add_arena_ok new s Hp (addableb_spec _ _ Ha)) as (s' & ptr & -> & ? & _).
Qed.

Lemma one_arena_pinv : pinv one_arena.
Proof. apply after_add_pinv; [apply no_arenas_pinv|by vm_compute..]. Qed.

Lemma two_arenas_pinv : pinv two_arenas.
Proof. apply after_add_pinv; [apply one_arena_pinv|by vm_compute..]. Qed.

Lemma pmm_alloc_pages_spec_witness :
  ∃ pages s', pmm_alloc_pages 6 [] two_arenas = Ok (6, pages, s') ∧ pinv s' ∧ Forall (in_use s') pages.
Proof.
  destruct (pmm_alloc_pages_spec 6 two_arenas) as (pages & s' & E & ? & _ & _ & ?); [apply two_arenas_pinv|lia|].
  exists pages, s'. split; [exact E|by split].
Defined.

Definition after_alloc : pmm := match pmm_alloc_pages 6 [] two_arenas with Ok (_, _, s) => s | Fault _ => two_arenas end.

Lemma after_alloc_pinv : pinv after_alloc.
Proof.
  unfold after_alloc. by destruct (pmm_alloc_pages_ok 6 [] two_arenas two_arenas_pinv ltac:(lia)) as (s' & -> & ? & _).
Qed.

Lemma pmm_free_spec_witness :
  ∃ s', pmm_free [page_at (mk_arena 0 1 0x100000000 0x4000 0 0x100000 []) 2] after_alloc = Ok (1, s') ∧ pinv s'.
Proof.
  destruct (pmm_free_spec [page_at (mk_arena 0 1 0x100000000 0x4000 0 0x100000 []) 2] after_alloc)
    as (s' & E & Hp & _); [apply after_alloc_pinv|apply NoDup_singleton| |exact (ex_intro _ s' (conj E Hp))].
  constructor; [|constructor]. split; [|by vm_compute].
  eexists. split; [left|]. exists 2. split; [vm_compute; by split|by vm_compute].
Defined.

Lemma pmm_alloc_free_roundtrip_witness :
  ∃ n pages s' s'', pmm_alloc_pages 6 [] two_arenas = Ok (n, pages, s') ∧ pmm_free pages s' = Ok (n, s'') ∧
    free_pages s'' ≡ₚ free_pages two_arenas.
Proof.
  destruct (pmm_alloc_free_roundtrip 6 two_arenas) as (n & pages & s' & s'' & E & E2 & _ & H);
    [apply two_arenas_pinv|lia|]. exists n, pages, s', s''. exact (conj E (conj E2 H)).
Defined.

Lemma pmm_add_arena_spec_witness :
  ∃ s' ptr, pmm_add_arena low_mem one_arena = Ok (NO_ERROR, s') ∧ pinv s' ∧ boot_alloc_end one_arena ≤ ptr ∧
    free_pages s' ≡ₚ pages_from ptr (page_count low_mem) ++ free_pages one_arena.
Proof.
  exact (pmm_add_arena_spec low_mem one_arena one_arena_pinv (addableb_spec low_mem one_arena eq_refl)).
Defined.

Lemma pmm_alloc_range_spec_witness :
  ∃ pages s', pmm_alloc_range 0x2345 3 [] two_arenas = Ok (3, pages, s') ∧ pinv s'.
Proof.
  destruct (pmm_alloc_range_spec 0x2345 3 two_arenas) as (pages & s' & E & ? & _); [apply two_arenas_pinv|lia|lia|].
  exists pages, s'. split; [|done]. rewrite E. do 3 f_equal. vm_compute in E. by injection E.
Defined.

Lemma pmm_alloc_contiguous_spec_witness :
  ∃ pages pa s', pmm_alloc_contiguous 3 14 [] two_arenas = Ok (3, Some pa, pages, s') ∧ pinv s'.
Proof.
  destruct (pmm_alloc_contiguous_spec 3 14 two_arenas) as [(pages & pa & s' & E & Hp & _)|[E _]];
    [apply two_arenas_pinv|lia|lia| |vm_compute in E; discriminate E]. exact (ex_intro _ pages (ex_intro _ pa (ex_intro _ s' (conj E Hp)))).
Defined.

Lemma vm_page_paddr_roundtrip_witness :
  paddr_to_vm_page one_arena (vm_page_to_paddr one_arena 0x100018) = Some 0x100018.
Proof.
  eapply vm_page_paddr_roundtrip; [apply one_arena_pinv|left|]. exists 1. split; [vm_compute; by split|by vm_compute].
Defined.

(** [pmm_alloc_kpages] of a single page takes any page: here one that the kernel
    does not map, so that the caller gets no pointer and the page is lost,
    although mapped pages are free. *)
Theorem alloc_kpage_leaks :
  ∃ s', pmm_alloc_kpages ex_maps 1 [] two_arenas = Ok (None, [], s') ∧
    zlen (free_pages s') = zlen (free_pages two_arenas) - 1 ∧
    is_Some (paddr_to_kvaddr ex_maps (a_base low_mem)).
Proof. eexists. split; [by vm_compute|]. split; [by vm_compute|]. by eexists; vm_compute. Qed.
