(* ===== verification/Vmm.v ===== *)
(** Virtual address spaces: [kernel/vm/vmm.c].

    An address space is its range, the list of its regions in list order, and
    the state of the architecture's page tables, which is a type [A] with the
    operations of [arch/include/arch/mmu.h] as a record.  A region structure is
    known by its address [r_addr]; what [calloc] returns is an argument.  The
    physical pages come from the allocator in [Pmm], whose state is threaded
    through.  A call that takes [void **ptr] gets what it points to, if it is not
    null, and returns what it points to afterwards.  The lock makes each call one
    step. *)
From stdpp Require Import prelude strings gmap sorting.
From S2P Require Import Prelude Bytes Pmm.

#[local] Open Scope Z_scope.

(** * Data *)

Record region := mk_region {
  r_addr : Z;
  r_name : string;
  r_flags : Z;
  r_mmu_flags : Z;
  r_base : Z;
  r_size : Z;
  r_page_list : list Z;
}.

#[export] Instance region_eq_dec : EqDecision region.
Proof. solve_decision. Defined.

Record aspace (A : Type) := mk_aspace {
  as_name : string;
  as_flags : Z;
  as_base : Z;
  as_size : Z;
  region_list : list region;
  arch_aspace : A;
}.
Arguments mk_aspace {A}.
Arguments as_name {A}.
Arguments as_flags {A}.
Arguments as_base {A}.
Arguments as_size {A}.
Arguments region_list {A}.
Arguments arch_aspace {A}.

Definition VMM_ASPACE_FLAG_KERNEL : Z := 1.
Definition VMM_REGION_FLAG_RESERVED : Z := 1.
Definition VMM_REGION_FLAG_PHYSICAL : Z := 2.
Definition VMM_FLAG_VALLOC_SPECIFIC : Z := 1.
Definition ARCH_ASPACE_FLAG_KERNEL : Z := 1.

(** [(vaddr_t)-1] *)
Definition NO_SPOT : Z := 2 ^ 64 - 1.

(** The architecture: mapping [count] pages from [va] to [pa] on returns a status,
    a context switch changes both page tables, and so on. *)
Record mmu_ops (A : Type) := mk_mmu {
  arch_mmu_map : A → Z → Z → Z → Z → Z * A;
  arch_mmu_unmap : A → Z → Z → A;
  arch_mmu_query : A → Z → Z;
  arch_mmu_init_aspace : Z → Z → Z → Z * A;
  arch_mmu_supports_user_aspaces : bool;
  arch_aspace_active_cpus : A → Z;
  arch_mmu_context_switch : option A → option A → option A * option A;
  arch_mmu_destroy_aspace : A → A;
}.
Arguments arch_mmu_map {A}.
Arguments arch_mmu_unmap {A}.
Arguments arch_mmu_query {A}.
Arguments arch_mmu_init_aspace {A}.
Arguments arch_mmu_supports_user_aspaces {A}.
Arguments arch_aspace_active_cpus {A}.
Arguments arch_mmu_context_switch {A}.
Arguments arch_mmu_destroy_aspace {A}.

(** The ranges of the address spaces, which the platform defines. *)
Record layout := mk_layout {
  KERNEL_ASPACE_BASE : Z;
  KERNEL_ASPACE_SIZE : Z;
  USER_ASPACE_BASE : Z;
  USER_ASPACE_SIZE : Z;
}.

Definition with_regions {A} (l : list region) (a : aspace A) : aspace A :=
  mk_aspace (as_name a) (as_flags a) (as_base a) (as_size a) l (arch_aspace a).
Definition with_arch {A} (x : A) (a : aspace A) : aspace A :=
  mk_aspace (as_name a) (as_flags a) (as_base a) (as_size a) (region_list a) x.
Definition with_pages (ps : list Z) (r : region) : region :=
  mk_region (r_addr r) (r_name r) (r_flags r) (r_mmu_flags r) (r_base r) (r_size r) ps.

Definition IS_PAGE_ALIGNED (x : Z) : bool := IS_ALIGNED x PAGE_SIZE.

(** [strlcpy] into an array of 32 characters. *)
Definition copy_name (nm : string) : string := String.substring 0 31 nm.

(** * Regions *)

Section regions.
Context {A : Type}.
Implicit Type a : aspace A.

Definition is_inside_aspace a (vaddr : Z) : bool :=
  (as_base a <=? vaddr) && (vaddr <=? u64 (as_base a + as_size a - 1)).

Definition is_region_inside_aspace a (vaddr size : Z) : bool :=
  if negb (is_inside_aspace a vaddr) then false
  else if size =? 0 then true
  else if u64 (vaddr + size - 1) <? vaddr then false
  else if u64 (as_base a + as_size a - 1) <? u64 (vaddr + size - 1) then false
  else true.

Definition trim_to_aspace a (vaddr size : Z) : res Z :=
  assert_ (is_inside_aspace a vaddr);;
  if size =? 0 then Ok size else
  let offset := u64 (vaddr - as_base a) in
  let size := if u64 (offset + size) <? offset then u64 (2 ^ 64 - 1 - offset - 1) else size in
  let size := if u64 (as_size a - 1) <=? u64 (offset + size) then u64 (as_size a - offset) else size in
  Ok size.

(** [calloc] returned [mem]. *)
Definition alloc_region_struct (mem : option Z) (name : string) (base size flags mmu_flags : Z) : option region :=
  match mem with
  | None => None
  | Some addr => Some (mk_region addr (copy_name name) flags mmu_flags base size [])
  end.

Definition region_end (r : region) : Z := u64 (r_base r + r_size r - 1).

(** The walk of [add_region_to_aspace] for the spot after a region. *)
Fixpoint add_after (r : region) (l : list region) : option (list region) :=
  match l with
  | [] => None
  | last :: l =>
      if (region_end last <? r_base r) && (match l with [] => true | next :: _ => region_end r <? r_base next end)
      then Some (last :: r :: l)
      else cons last <$> add_after r l
  end.

Definition add_region_to_aspace a (r : region) : Z * aspace A :=
  if (r_size r =? 0) || negb (is_region_inside_aspace a (r_base r) (r_size r)) then (ERR_OUT_OF_RANGE, a)
  else if match region_list a with [] => true | first :: _ => region_end r <? r_base first end
  then (NO_ERROR, with_regions (r :: region_list a) a)
  else match add_after r (region_list a) with
       | Some l => (NO_ERROR, with_regions l a)
       | None => (ERR_NO_MEMORY, a)
       end.

Definition arch_mmu_pick_spot (base align : Z) : Z := ROUNDUP base align.

(** [None] to continue the search, else the spot. *)
Definition check_gap a (prev next : option region) (align size : Z) : option Z :=
  let gap_beg := match prev with Some p => u64 (r_base p + r_size p) | None => as_base a end in
  let try_gap gap_end :=
    let pva := arch_mmu_pick_spot gap_beg align in
    if pva <? gap_beg then Some NO_SPOT
    else if (pva <? gap_end) && (size <=? u64 (gap_end - pva + 1)) then Some pva
    else None in
  match next with
  | Some n => if gap_beg =? r_base n then None else try_gap (u64 (r_base n - 1))
  | None => if gap_beg =? u64 (as_base a + as_size a) then Some NO_SPOT else try_gap (u64 (as_base a + as_size a - 1))
  end.

(** The search behind the [n] regions already passed: the spot and the number of
    regions in front of it. *)
Fixpoint spot_walk a (l : list region) (align size : Z) (n : nat) : Z * nat :=
  match l with
  | [] => (NO_SPOT, 0%nat)
  | r :: l =>
      match check_gap a (Some r) (head l) align size with
      | Some spot => (spot, S n)
      | None => spot_walk a l align size (S n)
      end
  end.

Definition alloc_spot a (size align_pow2 : Z) : res (Z * nat) :=
  assert_ ((0 <? size) && IS_PAGE_ALIGNED size);;
  let align_pow2 := if align_pow2 <? PAGE_SIZE_SHIFT then PAGE_SIZE_SHIFT else align_pow2 in
  let align := u64 (Z.shiftl 1 align_pow2) in
  match check_gap a None (head (region_list a)) align size with
  | Some spot => Ok (spot, 0%nat)
  | None => Ok (spot_walk a (region_list a) align size 0)
  end.

Definition alloc_region a (mem : option Z) (name : string) (size vaddr align_pow2 vmm_flags region_flags mmu_flags : Z)
    : res (option region * aspace A) :=
  match alloc_region_struct mem name vaddr size region_flags mmu_flags with
  | None => Ok (None, a)
  | Some r =>
      if has_flag vmm_flags VMM_FLAG_VALLOC_SPECIFIC then
        let '(err, a') := add_region_to_aspace a r in
        if err <? 0 then Ok (None, a) else Ok (Some r, a')
      else
        '(spot, n) ← alloc_spot a size align_pow2;
        if spot =? NO_SPOT then Ok (None, a) else
        let r := mk_region (r_addr r) (r_name r) (r_flags r) (r_mmu_flags r) spot (r_size r) [] in
        Ok (Some r, with_regions (take n (region_list a) ++ r :: drop n (region_list a)) a)
  end.

Fixpoint find_region (l : list region) (vaddr : Z) : option region :=
  match l with
  | [] => None
  | r :: l => if (r_base r <=? vaddr) && (vaddr <=? region_end r) then Some r else find_region l vaddr
  end.

Definition vmm_find_region a (vaddr : Z) : option region := find_region (region_list a) vaddr.

(** The new contents of the region structure at the address of [r]. *)
Definition put_region (r : region) (l : list region) : list region :=
  (λ r', if r_addr r' =? r_addr r then r else r') <$> l.
End regions.

(** * Allocating and freeing regions *)

Section operations.
Context {A : Type} (mmu : mmu_ops A).
Implicit Type a : aspace A.

(** Regions are taken off the list and unmapped; the structure stays. *)
Definition vmm_remove_region_locked a (vaddr : Z) : option (region * aspace A) :=
  match vmm_find_region a vaddr with
  | None => None
  | Some r =>
      let a := with_regions (filter (λ r', r_addr r' ≠ r_addr r) (region_list a)) a in
      Some (r, with_arch (arch_mmu_unmap mmu (arch_aspace a) (r_base r) (u32 (r_size r / PAGE_SIZE))) a)
  end.

(** The removal on an error path: it must find the region that was just added. *)
Definition remove_new_region a (r : region) : res (aspace A) :=
  match vmm_remove_region_locked a (r_base r) with
  | None => Fault AssertFailed
  | Some (r_temp, a) => assert_ (r_addr r_temp =? r_addr r);; Ok a
  end.

Definition vmm_reserve_space a (mem : option Z) (name : option string) (size vaddr : Z) : res (Z * aspace A) :=
  assert_ (IS_PAGE_ALIGNED vaddr);;
  assert_ (IS_PAGE_ALIGNED size);;
  let name := default EmptyString name in
  if size =? 0 then Ok (NO_ERROR, a)
  else if negb (IS_PAGE_ALIGNED vaddr) || negb (IS_PAGE_ALIGNED size) then Ok (ERR_INVALID_ARGS, a)
  else if negb (is_inside_aspace a vaddr) then Ok (ERR_OUT_OF_RANGE, a)
  else
    size ← trim_to_aspace a vaddr size;
    let mmu_flags := arch_mmu_query mmu (arch_aspace a) vaddr in
    '(r, a) ← alloc_region a mem name size vaddr 0 VMM_FLAG_VALLOC_SPECIFIC VMM_REGION_FLAG_RESERVED mmu_flags;
    Ok (match r with Some _ => NO_ERROR | None => ERR_NO_MEMORY end, a).

(** The address asked for, unless there is a flag for one and no pointer. *)
Definition requested_vaddr (ptr : option Z) (vmm_flags : Z) : option Z :=
  if has_flag vmm_flags VMM_FLAG_VALLOC_SPECIFIC then ptr else Some 0.

(** What a pointer that is not null points to afterwards. *)
Definition store_ptr (ptr : option Z) (v : Z) : option Z := (λ _, v) <$> ptr.

Definition vmm_alloc_physical a (mem : option Z) (name : option string) (size : Z) (ptr : option Z)
    (align_log2 paddr vmm_flags mmu_flags : Z) : res (Z * option Z * aspace A) :=
  assert_ (IS_PAGE_ALIGNED paddr);;
  assert_ (IS_PAGE_ALIGNED size);;
  let name := default EmptyString name in
  if size =? 0 then Ok (NO_ERROR, ptr, a)
  else if negb (IS_PAGE_ALIGNED paddr) || negb (IS_PAGE_ALIGNED size) then Ok (ERR_INVALID_ARGS, ptr, a)
  else match requested_vaddr ptr vmm_flags with
  | None => Ok (ERR_INVALID_ARGS, ptr, a)
  | Some vaddr =>
      '(o, a) ← alloc_region a mem name size vaddr align_log2 vmm_flags VMM_REGION_FLAG_PHYSICAL mmu_flags;
      match o with
      | None => Ok (ERR_NO_MEMORY, ptr, a)
      | Some r =>
          let ptr := store_ptr ptr (r_base r) in
          let '(err, x) := arch_mmu_map mmu (arch_aspace a) (r_base r) paddr (u32 (size / PAGE_SIZE)) mmu_flags in
          let a := with_arch x a in
          if err <? NO_ERROR then a ← remove_new_region a r; Ok (err, ptr, a)
          else Ok (NO_ERROR, ptr, a)
      end
  end.

Definition vmm_alloc_contiguous a (mem : option Z) (name : option string) (size : Z) (ptr : option Z)
    (align_pow2 vmm_flags mmu_flags : Z) (s : pmm) : res (Z * option Z * aspace A * pmm) :=
  let size := ROUNDUP size PAGE_SIZE in
  if size =? 0 then Ok (ERR_INVALID_ARGS, ptr, a, s) else
  let name := default EmptyString name in
  match requested_vaddr ptr vmm_flags with
  | None => Ok (ERR_INVALID_ARGS, ptr, a, s)
  | Some vaddr =>
      '(count, pa, page_list, s) ← pmm_alloc_contiguous (u32 (size / PAGE_SIZE)) align_pow2 [] s;
      if count <? size / PAGE_SIZE then
        assert_ (count =? 0);;
        Ok (ERR_NO_MEMORY, ptr, a, s)
      else
        '(o, a) ← alloc_region a mem name size vaddr align_pow2 vmm_flags VMM_REGION_FLAG_PHYSICAL mmu_flags;
        match o with
        | None => '(_, s) ← pmm_free page_list s; Ok (ERR_NO_MEMORY, ptr, a, s)
        | Some r =>
            let ptr := store_ptr ptr (r_base r) in
            let '(err, x) := arch_mmu_map mmu (arch_aspace a) (r_base r) (default 0 pa) (u32 (size / PAGE_SIZE)) mmu_flags in
            let a := with_arch x a in
            if err <? NO_ERROR then
              a ← remove_new_region a r;
              '(_, s) ← pmm_free page_list s;
              Ok (err, ptr, a, s)
            else Ok (NO_ERROR, ptr, with_regions (put_region (with_pages page_list r) (region_list a)) a, s)
        end
  end.

(** The loop that maps the pages one by one.  The result is the last status, the
    page tables, the pages mapped and the pages left, with the one that failed at
    the tail. *)
Fixpoint map_pages (s : pmm) (r : region) (mmu_flags : Z) (page_list : list Z) (va : Z) (mapped : list Z) (x : A)
    : res (Z * A * list Z * list Z) :=
  match page_list with
  | [] => Ok (NO_ERROR, x, mapped, [])
  | p :: page_list =>
      assert_ (va <=? region_end r);;
      let pa := vm_page_to_paddr s p in
      assert_ (IS_PAGE_ALIGNED pa);;
      let '(err, x) := arch_mmu_map mmu x va pa 1 mmu_flags in
      if err <? NO_ERROR then Ok (err, x, mapped, page_list ++ [p])
      else map_pages s r mmu_flags page_list (u64 (va + PAGE_SIZE)) (mapped ++ [p]) x
  end.

Definition vmm_alloc a (mem : option Z) (name : option string) (size : Z) (ptr : option Z)
    (align_pow2 vmm_flags mmu_flags : Z) (s : pmm) : res (Z * option Z * aspace A * pmm) :=
  let size := ROUNDUP size PAGE_SIZE in
  if size =? 0 then Ok (ERR_INVALID_ARGS, ptr, a, s) else
  let name := default EmptyString name in
  match requested_vaddr ptr vmm_flags with
  | None => Ok (ERR_INVALID_ARGS, ptr, a, s)
  | Some vaddr =>
      '(count, page_list, s) ← pmm_alloc_pages (u32 (size / PAGE_SIZE)) [] s;
      assert_ (count <=? size / PAGE_SIZE);;
      if count <? size / PAGE_SIZE then
        '(_, s) ← pmm_free page_list s;
        Ok (ERR_NO_MEMORY, ptr, a, s)
      else
        '(o, a) ← alloc_region a mem name size vaddr align_pow2 vmm_flags VMM_REGION_FLAG_PHYSICAL mmu_flags;
        match o with
        | None => '(_, s) ← pmm_free page_list s; Ok (ERR_NO_MEMORY, ptr, a, s)
        | Some r =>
            assert_ (IS_PAGE_ALIGNED (r_base r));;
            '(err, x, mapped, page_list) ← map_pages s r mmu_flags page_list (r_base r) [] (arch_aspace a);
            let a := with_arch x (with_regions (put_region (with_pages mapped r) (region_list a)) a) in
            if err <? NO_ERROR then
              a ← remove_new_region a r;
              '(_, s) ← pmm_free mapped s;
              '(_, s) ← pmm_free page_list s;
              Ok (err, ptr, a, s)
            else Ok (NO_ERROR, store_ptr ptr (r_base r), a, s)
        end
  end.

Definition vmm_free_region a (vaddr : Z) (s : pmm) : res (Z * aspace A * pmm) :=
  match vmm_remove_region_locked a vaddr with
  | None => Ok (ERR_NOT_FOUND, a, s)
  | Some (r, a) => '(_, s) ← pmm_free (r_page_list r) s; Ok (NO_ERROR, a, s)
  end.
End operations.

(** * Address spaces *)

(** [aspace_list] has the linked address spaces, [cur_aspace] is that of the
    current thread. *)
Record vmm (A : Type) := mk_vmm {
  aspaces : gmap nat (aspace A);
  aspace_list : list nat;
  phys_mem : pmm;
  cur_aspace : option nat;
}.
Arguments mk_vmm {A}.
Arguments aspaces {A}.
Arguments aspace_list {A}.
Arguments phys_mem {A}.
Arguments cur_aspace {A}.

Section spaces.
Context {A : Type} (mmu : mmu_ops A) (ly : layout).
Implicit Type v : vmm A.

Definition with_aspaces (m : gmap nat (aspace A)) v : vmm A := mk_vmm m (aspace_list v) (phys_mem v) (cur_aspace v).

(** The kernel's own address space [i] is static. *)
Definition vmm_init_preheap (i : nat) v : vmm A :=
  let '(_, x) := arch_mmu_init_aspace mmu (KERNEL_ASPACE_BASE ly) (KERNEL_ASPACE_SIZE ly) ARCH_ASPACE_FLAG_KERNEL in
  mk_vmm (<[i := mk_aspace "kernel"%string VMM_ASPACE_FLAG_KERNEL (KERNEL_ASPACE_BASE ly) (KERNEL_ASPACE_SIZE ly) [] x]> (aspaces v))
    (i :: aspace_list v) (phys_mem v) (cur_aspace v).

(** [i] is the new structure, if [calloc] returned one. *)
Definition vmm_create_aspace (i : option nat) (name : option string) (flags : Z) v : Z * option nat * vmm A :=
  match i with
  | None => (ERR_NO_MEMORY, None, v)
  | Some i =>
      let kernel := has_flag flags VMM_ASPACE_FLAG_KERNEL in
      if negb kernel && negb (arch_mmu_supports_user_aspaces mmu) then (ERR_NOT_SUPPORTED, None, v) else
      let base := if kernel then KERNEL_ASPACE_BASE ly else USER_ASPACE_BASE ly in
      let size := if kernel then KERNEL_ASPACE_SIZE ly else USER_ASPACE_SIZE ly in
      let '(err, x) := arch_mmu_init_aspace mmu base size (if kernel then ARCH_ASPACE_FLAG_KERNEL else 0) in
      if err <? 0 then (err, None, v) else
      let a := mk_aspace (copy_name (default "unnamed"%string name)) flags base size [] x in
      (NO_ERROR, Some i, mk_vmm (<[i := a]> (aspaces v)) (i :: aspace_list v) (phys_mem v) (cur_aspace v))
  end.

(** The page tables of two address spaces, either of which may be null. *)
Definition vmm_switch (old new : option nat) v : vmm A :=
  let at_ o := o ≫= λ i, arch_aspace <$> aspaces v !! i in
  let '(x, y) := arch_mmu_context_switch mmu (at_ old) (at_ new) in
  let put (o : option nat) (x : option A) (m : gmap nat (aspace A)) :=
    match o, x with Some i, Some x => alter (with_arch x) i m | _, _ => m end in
  with_aspaces (put new y (put old x (aspaces v))) v.

Definition with_cur (o : option nat) v : vmm A := mk_vmm (aspaces v) (aspace_list v) (phys_mem v) o.

Definition vmm_set_active_aspace (o : option nat) v : option nat * vmm A :=
  if bool_decide (o = cur_aspace v) then (o, v)
  else (cur_aspace v, vmm_switch (cur_aspace v) o (with_cur o v)).

(** The first walk over the regions unmaps them, the second frees their pages. *)
Fixpoint unmap_regions (l : list region) (x : A) : A :=
  match l with
  | [] => x
  | r :: l => unmap_regions l (arch_mmu_unmap mmu x (r_base r) (u32 (r_size r / PAGE_SIZE)))
  end.

Fixpoint free_regions (l : list region) (s : pmm) : res pmm :=
  match l with
  | [] => Ok s
  | r :: l => '(_, s) ← pmm_free (r_page_list r) s; free_regions l s
  end.

(** The last result is what is left of the page tables, if they were destroyed. *)
Definition vmm_free_aspace (i : nat) v : res (Z * vmm A * option A) :=
  let v := if bool_decide (cur_aspace v = Some i) then vmm_switch (Some i) None (with_cur None v) else v in
  a ← of_option BadAccess (aspaces v !! i);
  if negb (arch_aspace_active_cpus mmu (arch_aspace a) =? 0) then Ok (ERR_BUSY, v, None)
  else if negb (bool_decide (i ∈ aspace_list v)) then Ok (ERR_INVALID_ARGS, v, None)
  else
    let x := unmap_regions (region_list a) (arch_aspace a) in
    s ← free_regions (region_list a) (phys_mem v);
    Ok (NO_ERROR, mk_vmm (delete i (aspaces v)) (filter (.≠ i) (aspace_list v)) s (cur_aspace v),
        Some (arch_mmu_destroy_aspace mmu x)).
End spaces.
