(* ===== verification/VmmSpec.v ===== *)
(** What the functions of [Vmm] promise.

    The regions of an address space lie in its range, page aligned, in ascending
    order and apart.  The search for a spot is first fit and complete; the region
    list functions keep the order. *)
From stdpp Require Import prelude strings gmap sorting.
From S2P Require Import Prelude Bytes Pmm Vmm.

#[local] Open Scope Z_scope.

(** * The layout of regions *)

Notation paged x := (PAGE_SIZE | x).

(** One past the last byte. *)
Definition r_limit (r : region) : Z := r_base r + r_size r.

(** The regions [l] lie in order in [lo, hi). *)
Fixpoint laid_out (lo hi : Z) (l : list region) : Prop :=
  match l with
  | [] => lo ≤ hi
  | r :: l => lo ≤ r_base r ∧ 0 < r_size r ∧ paged (r_base r) ∧ paged (r_size r) ∧ laid_out (r_limit r) hi l
  end.

(** The range [v, v + size) is in [lo, hi) and meets no region. *)
Definition vacant (lo hi : Z) (l : list region) (v size : Z) : Prop :=
  lo ≤ v ∧ v + size ≤ hi ∧ Forall (λ r, v + size ≤ r_base r ∨ r_limit r ≤ v) l.

Record range_ok (lo hi : Z) : Prop := {
  rg_lo : 0 ≤ lo ∧ paged lo;
  rg_hi : hi ≤ 2 ^ 64 ∧ paged hi;
  rg_size : 0 < hi - lo < 2 ^ 64;
}.

Definition as_limit {A} (a : aspace A) : Z := as_base a + as_size a.

(** A well-formed address space. *)
Record awf {A} (a : aspace A) : Prop := {
  aw_range : range_ok (as_base a) (as_limit a);
  aw_regions : laid_out (as_base a) (as_limit a) (region_list a);
  aw_addr : NoDup (r_addr <$> region_list a);
}.

Lemma paged_add x y : paged x → paged y → paged (x + y).
Proof. apply Z.divide_add_r. Qed.

Lemma paged_gap x y : paged x → paged y → x < y → x + PAGE_SIZE ≤ y.
Proof. intros [a ->] [b ->] H. unfold PAGE_SIZE in *. lia. Qed.

Lemma IS_PAGE_ALIGNED_iff x : IS_PAGE_ALIGNED x = true ↔ paged x.
Proof. apply (IS_ALIGNED_spec x 12). done. Qed.

Lemma laid_out_le lo hi l : laid_out lo hi l → lo ≤ hi.
Proof.
  revert lo. induction l as [|r l IH]; intros lo; [done|]. intros (H1 & H2 & _ & _ & H). apply IH in H.
  unfold r_limit in *. lia.
Qed.

Lemma laid_out_weaken lo lo' hi l : lo' ≤ lo → laid_out lo hi l → laid_out lo' hi l.
Proof. destruct l as [|r l]; simpl; [lia|]. intros ? (? & ?). split; [lia|done]. Qed.

Lemma laid_out_app lo hi l k :
  laid_out lo hi (l ++ k) ↔ ∃ m, lo ≤ m ∧ laid_out lo m l ∧ laid_out m hi k.
Proof.
  revert lo. induction l as [|r l IH]; intros lo; simpl.
  - split; [intros H; exists lo; split_and!; [lia|lia|done]|]. intros (m & Hm & _ & H). by eapply laid_out_weaken.
  - rewrite IH. split.
    + intros (H1 & H2 & H3 & H4 & m & Hm & Hl & Hk). exists m. split_and!; try done. unfold r_limit in *. lia.
    + intros (m & Hm & (H1 & H2 & H3 & H4 & Hl) & Hk). split_and!; try done. exists m. split_and!; try done.
      by apply laid_out_le in Hl.
Qed.

Lemma laid_out_bounds lo hi l r :
  laid_out lo hi l → r ∈ l → lo ≤ r_base r ∧ 0 < r_size r ∧ paged (r_base r) ∧ paged (r_size r) ∧ r_limit r ≤ hi.
Proof.
  intros H Hr. apply list_elem_of_split in Hr as (l1 & l2 & ->).
  apply laid_out_app in H as (m & Hm & H1 & H2 & H3 & H4 & H5 & H). apply laid_out_le in H. split_and!; try done; lia.
Qed.

(** Removing a region and putting one back. *)
Lemma laid_out_remove lo hi l1 r l2 : laid_out lo hi (l1 ++ r :: l2) → laid_out lo hi (l1 ++ l2).
Proof.
  rewrite !laid_out_app. intros (m & Hm & H1 & H2 & H3 & _ & _ & H). exists m. split_and!; try done.
  eapply laid_out_weaken; [|done]. unfold r_limit. lia.
Qed.

Lemma laid_out_insert lo hi l1 r l2 :
  laid_out lo hi (l1 ++ l2) → 0 < r_size r → paged (r_base r) → paged (r_size r) →
  lo ≤ r_base r → r_limit r ≤ hi →
  Forall (λ r', r_limit r' ≤ r_base r) l1 → Forall (λ r', r_limit r ≤ r_base r') l2 → laid_out lo hi (l1 ++ r :: l2).
Proof.
  intros H Hs Hb Hz Hlo Hhi H1 H2. apply laid_out_app in H as (m & Hm & Hl1 & Hl2). apply laid_out_app.
  exists (r_base r). split_and!; try done; try lia.
  - clear -Hl1 H1 Hlo. revert lo Hlo Hl1. induction H1 as [|r' l1 H1 _ IH]; intros lo Hlo; [done|].
    intros (? & ? & ? & ? & Hl). split_and!; try done. by apply IH.
  - split_and!; try done; try lia. destruct H2 as [|r' l2 Hr' _]; [done|]. destruct Hl2 as (? & ?). by split.
Qed.

(** Regions in front of and behind a vacant range. *)
Lemma laid_out_order lo hi l1 r l2 r' :
  laid_out lo hi (l1 ++ r :: l2) → r' ∈ l1 ++ l2 → if decide (r' ∈ l1) then r_limit r' ≤ r_base r else r_limit r ≤ r_base r'.
Proof.
  intros H Hr'. apply laid_out_app in H as (m & Hm & H1 & H2). destruct H2 as (H2 & H3 & _ & _ & H4).
  destruct (decide _) as [Hi|Hi].
  - destruct (laid_out_bounds _ _ _ _ H1 Hi) as (_ & _ & _ & _ & ?). lia.
  - assert (r' ∈ l2) as Hi2 by set_solver. by destruct (laid_out_bounds _ _ _ _ H4 Hi2) as (? & _).
Qed.

(** ** Looking up a region *)

Lemma region_end_eq r : 0 ≤ r_base r → 0 < r_size r → r_limit r ≤ 2 ^ 64 → region_end r = r_limit r - 1.
Proof. intros. unfold region_end, r_limit in *. by apply u64_small; lia. Qed.

Lemma laid_out_end lo hi l r : 0 ≤ lo → hi ≤ 2 ^ 64 → laid_out lo hi l → r ∈ l → region_end r = r_limit r - 1.
Proof.
  intros Hlo Hhi Hl Hr. destruct (laid_out_bounds _ _ _ _ Hl Hr) as (? & ? & _ & _ & ?).
  apply region_end_eq; lia.
Qed.

Definition covers (r : region) (vaddr : Z) : Prop := r_base r ≤ vaddr < r_limit r.

Lemma find_region_ok lo hi l vaddr :
  range_ok lo hi → laid_out lo hi l →
  match find_region l vaddr with
  | Some r => r ∈ l ∧ covers r vaddr
  | None => ∀ r, r ∈ l → ¬ covers r vaddr
  end.
Proof.
  intros Hr H. assert (∀ r, r ∈ l → region_end r = r_limit r - 1) as He by (destruct Hr as [[? _] [? _] _]; intros; by eapply laid_out_end).
  clear H. induction l as [|r l IH]; simpl; [set_solver|]. unfold covers in *.
  rewrite (He r) by set_solver. destruct (Z.leb_spec (r_base r) vaddr); destruct (Z.leb_spec vaddr (r_limit r - 1)); simpl.
  { split; [set_solver|lia]. }
  all: destruct (find_region l vaddr); [destruct IH as [? ?]; [set_solver|]; split; [set_solver|done]|].
  all: intros r' [->|Hr']%elem_of_cons; [lia|]; apply IH; set_solver.
Qed.

(** Regions do not overlap, so an address is in one of them at most. *)
Lemma laid_out_unique lo hi l r r' v :
  laid_out lo hi l → r ∈ l → r' ∈ l → covers r v → covers r' v → r = r'.
Proof.
  intros H Hr Hr' Hc Hc'. apply list_elem_of_split in Hr as (l1 & l2 & ->).
  destruct (decide (r' = r)) as [|Hne]; [done|]. assert (r' ∈ l1 ++ l2) as Hi by set_solver.
  pose proof (laid_out_order _ _ _ _ _ _ H Hi). unfold covers in *. destruct (decide _); unfold r_limit in *; lia.
Qed.

(** [vmm_find_region] returns the one region that has the address, or null if
    there is none. *)
Theorem vmm_find_region_spec {A} (a : aspace A) vaddr r :
  awf a → vmm_find_region a vaddr = Some r ↔ r ∈ region_list a ∧ covers r vaddr.
Proof.
  intros [Hg Hl _]. pose proof (find_region_ok _ _ _ vaddr Hg Hl) as H. unfold vmm_find_region.
  destruct (find_region _ vaddr) as [r'|]; split.
  - by intros [= ->].
  - intros [Hr Hc]. destruct H as [Hr' Hc']. f_equal. by eapply laid_out_unique.
  - done.
  - intros [Hr Hc]. by destruct (H r Hr).
Qed.

(** ** The search for a spot *)

#[local] Arguments NO_SPOT : simpl never.
#[local] Arguments check_gap : simpl never.
#[local] Arguments Z.eqb : simpl never.
#[local] Arguments Z.pow : simpl never.

(** Rounding up gives the least multiple that is not below, or there is none in
    the address range. *)
Lemma ROUNDUP_least g k v :
  0 ≤ k ≤ 63 → 0 ≤ g < 2 ^ 64 → (2 ^ k | v) → g ≤ v →
  if ROUNDUP g (2 ^ k) <? g then 2 ^ 64 ≤ v else ROUNDUP g (2 ^ k) ≤ v.
Proof.
  intros Hk Hg [q ->] Hv. assert (0 < 2 ^ k) by (apply Z.pow_pos_nonneg; lia).
  destruct (Z.le_gt_cases (2 ^ 64) (g + (2 ^ k - 1))) as [Hov|Hin].
  - rewrite ROUNDUP_overflow by lia. assert (2 ^ k ≤ 2 ^ 63) by (apply Z.pow_le_mono_r; lia).
    rewrite (proj2 (Z.ltb_lt 0 g)) by lia. replace (2 ^ 64) with (2 ^ (64 - k) * 2 ^ k) in * by (rewrite <- Z.pow_add_r by lia; f_equal; lia).
    apply Z.mul_le_mono_nonneg_r; [lia|]. assert (2 ^ (64 - k) - 1 < q); [|lia]. apply (Z.mul_lt_mono_pos_r (2 ^ k)); lia.
  - destruct (ROUNDUP_bounds g k) as [Hb [c Hc]]; [lia..|]. rewrite (proj2 (Z.ltb_ge _ g)) by lia. rewrite Hc in *.
    apply Z.mul_le_mono_nonneg_r; [lia|]. assert (c < q + 1); [|lia]. apply (Z.mul_lt_mono_pos_r (2 ^ k)); lia.
Qed.

Lemma ROUNDUP_no_wrap g k :
  0 ≤ k ≤ 63 → 0 ≤ g < 2 ^ 64 → g ≤ ROUNDUP g (2 ^ k) → (2 ^ k | ROUNDUP g (2 ^ k)).
Proof.
  intros Hk Hg Hge. destruct (Z.le_gt_cases (2 ^ 64) (g + (2 ^ k - 1))) as [Hov|Hin].
  - rewrite ROUNDUP_overflow in * by lia. apply Z.divide_0_r.
  - by destruct (ROUNDUP_bounds g k) as [_ ?]; [lia..|].
Qed.

Section search.
Context {A : Type} (a : aspace A) (k size : Z).
Context (Hg : range_ok (as_base a) (as_limit a)) (Hk : 12 ≤ k ≤ 63) (Hs : 0 < size).

Definition gap_from (prev : option region) : Z := match prev with Some p => r_limit p | None => as_base a end.
Definition gap_to (next : option region) : Z := match next with Some n => r_base n | None => as_limit a end.

(** The test of one gap finds the first aligned address at which [size] bytes
    fit, or says that they do not fit there, or that they fit nowhere behind. *)
Definition gap_result (g e : Z) (o : option Z) : Prop :=
  match o with
  | None => ∀ v, (2 ^ k | v) → g ≤ v → ¬ v + size ≤ e
  | Some spot =>
      if spot =? NO_SPOT then ∀ v, (2 ^ k | v) → g ≤ v → ¬ v + size ≤ as_limit a
      else (2 ^ k | spot) ∧ g ≤ spot ∧ spot + size ≤ e ∧ ∀ v, (2 ^ k | v) → g ≤ v → spot ≤ v
  end.

Lemma paged_pow v : (2 ^ k | v) → paged v.
Proof.
  intros H. etrans; [|exact H]. exists (2 ^ (k - 12)). unfold PAGE_SIZE. change 4096 with (2 ^ 12).
  rewrite <- Z.pow_add_r by lia. f_equal. lia.
Qed.

Lemma not_no_spot v : paged v → (v =? NO_SPOT) = false.
Proof. intros [c ->]. apply Z.eqb_neq. unfold PAGE_SIZE, NO_SPOT. lia. Qed.

(** The test behind the comparison with the start of the gap. *)
Lemma try_gap_ok g e :
  as_base a ≤ g → g < e → e ≤ as_limit a → paged g → paged e →
  gap_result g e
    (let pva := arch_mmu_pick_spot g (2 ^ k) in
     if pva <? g then Some NO_SPOT
     else if (pva <? e - 1) && (size <=? u64 (e - 1 - pva + 1)) then Some pva else None).
Proof.
  destruct Hg as [[Hlo _] [Hhi _] Hsz]. intros Hag Hge Hel Hpg Hpe. cbv zeta. unfold arch_mmu_pick_spot, gap_result.
  assert (0 ≤ g < 2 ^ 64) as Hgr by lia.
  assert (0 ≤ k ≤ 63) as Hk0 by lia.
  pose proof (λ v Hv Hle, ROUNDUP_least g k v Hk0 Hgr Hv Hle) as Hleast.
  destruct (Z.ltb_spec (ROUNDUP g (2 ^ k)) g) as [Hw|Hw].
  { rewrite Z.eqb_refl. intros v Hv Hle. specialize (Hleast v Hv Hle). lia. }
  assert (2 ^ k | ROUNDUP g (2 ^ k)) as Hal by (by apply ROUNDUP_no_wrap).
  destruct (Z.ltb_spec (ROUNDUP g (2 ^ k)) (e - 1)) as [Hlt|Hlt]; cbn [andb].
  - rewrite u64_small by lia. destruct (Z.leb_spec size (e - 1 - ROUNDUP g (2 ^ k) + 1)).
    + rewrite not_no_spot by (by apply paged_pow). split_and!; [done|done|lia|done].
    + intros v Hv Hle. specialize (Hleast v Hv Hle). lia.
  - intros v Hv Hle Hfit. specialize (Hleast v Hv Hle).
    assert (e ≤ ROUNDUP g (2 ^ k)); [|lia]. apply Z.nlt_ge. intros Hlt'.
    pose proof (paged_gap _ _ (paged_pow _ Hal) Hpe Hlt'). unfold PAGE_SIZE in *. lia.
Qed.

Lemma check_gap_ok prev next :
  as_base a ≤ gap_from prev → gap_from prev ≤ gap_to next → gap_to next ≤ as_limit a →
  paged (gap_from prev) → paged (gap_to next) →
  match next with Some n => r_base n < as_limit a | None => True end →
  gap_result (gap_from prev) (gap_to next) (check_gap a prev next (2 ^ k) size).
Proof.
  intros H1 H2 H3 H4 H5 Hn. pose proof Hg as [[Hlo _] [Hhi _] Hsz]. unfold check_gap.
  replace (match prev with Some p => u64 (r_base p + r_size p) | None => as_base a end)
    with (if gap_from prev =? 2 ^ 64 then 0 else gap_from prev); last first.
  { destruct prev as [p|]; simpl in *; [change (r_base p + r_size p) with (r_limit p)|by rewrite (proj2 (Z.eqb_neq _ _)) by lia].
    destruct (Z.eqb_spec (r_limit p) (2 ^ 64)) as [->|]; [done|]. symmetry. apply u64_small. lia. }
  destruct next as [n|]; cbn [gap_to] in *.
  - rewrite (proj2 (Z.eqb_neq (gap_from prev) (2 ^ 64))) by lia.
    destruct (Z.eqb_spec (gap_from prev) (r_base n)) as [E|E]; [intros v ? ?; lia|].
    rewrite (u64_small (r_base n - 1)) by lia. apply try_gap_ok; done || lia.
  - change (as_base a + as_size a) with (as_limit a). destruct (Z.eqb_spec (gap_from prev) (2 ^ 64)) as [E|E].
    + assert (as_limit a = 2 ^ 64) as -> by lia. rewrite Z.eqb_refl. simpl. intros v ? ?. lia.
    + destruct (Z.eqb_spec (gap_from prev) (u64 (as_limit a))) as [E'|E'].
      * simpl. intros v Hv Hle. assert (as_limit a ≤ gap_from prev); [|lia]. rewrite E'.
        destruct (Z.eq_dec (as_limit a) (2 ^ 64)) as [El|El]; [rewrite El in E'; change (u64 (2 ^ 64)) with 0 in E'; lia|].
        rewrite u64_small; lia.
      * rewrite (u64_small (as_limit a - 1)) by lia. apply try_gap_ok; try done; try lia.
        assert (gap_from prev ≠ as_limit a); [|lia]. intros E2. apply E'. rewrite <- E2. symmetry. apply u64_small. lia.
Qed.

(** The search from the gap behind [prev] on, [n] regions having been passed. *)
Definition search (prev : option region) (l : list region) (n : nat) : Z * nat :=
  match check_gap a prev (head l) (2 ^ k) size with
  | Some spot => (spot, n)
  | None => spot_walk a l (2 ^ k) size n
  end.

Definition search_result (g : Z) (l : list region) (n : nat) (res : Z * nat) : Prop :=
  let '(spot, m) := res in
  if spot =? NO_SPOT then ∀ v, (2 ^ k | v) → ¬ vacant g (as_limit a) l v size
  else (2 ^ k | spot) ∧ g ≤ spot ∧ spot + size ≤ as_limit a ∧ (n ≤ m)%nat ∧
    Forall (λ r, r_limit r ≤ spot) (take (m - n) l) ∧ Forall (λ r, spot + size ≤ r_base r) (drop (m - n) l) ∧
    ∀ v, (2 ^ k | v) → vacant g (as_limit a) l v size → spot ≤ v.

Lemma laid_out_behind lo hi l e :
  laid_out lo hi l → match l with r :: _ => e ≤ r_base r | [] => True end → Forall (λ r, e ≤ r_base r) l.
Proof.
  destruct l as [|r l]; [constructor|]. intros (_ & H2 & _ & _ & H) He. constructor; [done|].
  apply Forall_forall. intros r' Hr'. destruct (laid_out_bounds _ _ _ _ H Hr') as (? & _). unfold r_limit in *. lia.
Qed.

Lemma search_ok l : ∀ prev n,
  as_base a ≤ gap_from prev → paged (gap_from prev) → laid_out (gap_from prev) (as_limit a) l →
  search_result (gap_from prev) l n (search prev l n).
Proof.
  pose proof Hg as [[_ Hpl] [_ Hph] _]. induction l as [|r l IH]; intros prev n Hlo Hpg Hl; unfold search.
  - pose proof (check_gap_ok prev None Hlo Hl ltac:(simpl; lia) Hpg Hph I) as H. simpl in *.
    destruct (check_gap a prev None (2 ^ k) size) as [spot|]; simpl in *; unfold search_result.
    + destruct (spot =? NO_SPOT) eqn:E; [intros v Hv (? & ? & _); by apply (H v)|].
      destruct H as (H1 & H2 & H3 & H4). rewrite Nat.sub_diag. split_and!; try done; try (constructor; fail). by intros v Hv (? & _); apply H4.
    + intros v Hv (? & ? & _). by apply (H v).
  - destruct Hl as (Hb & Hz & Hpb & Hpz & Hl). pose proof (laid_out_le _ _ _ Hl) as Hle.
    assert (r_base r < as_limit a) as Hlt by (unfold r_limit in Hle; lia).
    pose proof (check_gap_ok prev (Some r) Hlo Hb ltac:(simpl; lia) Hpg Hpb Hlt) as H. change (head (r :: l)) with (Some r).
    destruct (check_gap a prev (Some r) (2 ^ k) size) as [spot|]; simpl in H; simpl; unfold search_result.
    + destruct (spot =? NO_SPOT) eqn:E; [intros v Hv (? & ? & _); by apply (H v)|].
      destruct H as (H1 & H2 & H3 & H4). rewrite Nat.sub_diag. split_and!; try done; try lia.
      * apply (laid_out_behind (r_base r) (as_limit a)); [|done]. by split_and!; [lia|..].
      * by intros v Hv (? & _); apply H4.
    + assert (as_base a ≤ r_limit r) as Hlo' by (unfold r_limit; lia).
      specialize (IH (Some r) (S n) Hlo' (paged_add _ _ Hpb Hpz) Hl). unfold search in IH. simpl in IH.
      assert (∀ v, (2 ^ k | v) → vacant (gap_from prev) (as_limit a) (r :: l) v size → vacant (r_limit r) (as_limit a) l v size) as Hv'.
      { intros v Hv (Hv1 & Hv2 & [Hv3 Hv4]%Forall_cons). destruct Hv3 as [Hv3|Hv3]; [by destruct (H v Hv Hv1)|]. done. }
      destruct (check_gap a (Some r) (head l) (2 ^ k) size) as [spot|] eqn:E.
      2: destruct (spot_walk a l (2 ^ k) size (S n)) as [spot m].
      1: rename n into n0; set (m := S n0) in *; set (n := n0) in *.
      all: unfold search_result in *; destruct (spot =? NO_SPOT); [intros v Hv Hva; by apply (IH v), Hv'|].
      all: destruct IH as (H1 & H2 & H3 & H4 & H5 & H6 & H7).
      all: replace (m - n)%nat with (S (m - S n)) by lia; simpl.
      all: split_and!; [done|unfold r_limit in *; lia|done|lia|by constructor|done|].
      all: intros v Hv Hva; by apply H7, Hv'.
Qed.
End search.

(** The boundary that is used: at least a page. *)
Definition spot_log2 (align_pow2 : Z) : Z := Z.max PAGE_SIZE_SHIFT align_pow2.

Lemma alloc_spot_ok {A} (a : aspace A) size align_pow2 :
  awf a → 0 < size → paged size → 0 ≤ align_pow2 ≤ 63 →
  ∃ spot n, alloc_spot a size align_pow2 = Ok (spot, n) ∧
    search_result a (spot_log2 align_pow2) size (as_base a) (region_list a) 0 (spot, n).
Proof.
  intros [Hg Hl _] Hs Hp Hal. unfold alloc_spot. rewrite (proj2 (Z.ltb_lt 0 size)), (proj2 (IS_PAGE_ALIGNED_iff size)) by done.
  cbn [andb assert_ mbind res_bind]. set (k := spot_log2 align_pow2).
  replace (u64 (Z.shiftl 1 (if align_pow2 <? PAGE_SIZE_SHIFT then PAGE_SIZE_SHIFT else align_pow2))) with (2 ^ k).
  2: { unfold k, spot_log2, PAGE_SIZE_SHIFT in *. rewrite Z.shiftl_1_l. destruct (Z.ltb_spec align_pow2 12).
       - by rewrite Z.max_l by lia.
       - rewrite Z.max_r by lia. symmetry. apply u64_small. split; [apply Z.pow_nonneg; lia|apply Z.pow_lt_mono_r; lia]. }
  assert (12 ≤ k ≤ 63) as Hk by (unfold k, spot_log2, PAGE_SIZE_SHIFT; lia).
  pose proof Hg as [[_ Hpl] _ _].
  pose proof (search_ok a k size Hg Hk Hs (region_list a) None 0%nat ltac:(simpl; lia) Hpl Hl) as H. unfold search in H.
  destruct (check_gap a None _ (2 ^ k) size) as [spot|]; [by exists spot, 0%nat|].
  destruct (spot_walk a _ (2 ^ k) size 0) as [spot n]. by exists spot, n.
Qed.

(** C32: [alloc_spot] is first fit and complete.  It returns the lowest address in
    the address space that has the alignment and at which [size] bytes are
    vacant, together with the number of regions in front of it, and [-1] only if
    there is no such address. *)
Theorem alloc_spot_first_fit {A} (a : aspace A) size align_pow2 :
  awf a → 0 < size → paged size → 0 ≤ align_pow2 ≤ 63 →
  let spots v := (2 ^ spot_log2 align_pow2 | v) ∧ vacant (as_base a) (as_limit a) (region_list a) v size in
  ∃ spot n, alloc_spot a size align_pow2 = Ok (spot, n) ∧
    if spot =? NO_SPOT then ∀ v, ¬ spots v
    else spots spot ∧ (∀ v, spots v → spot ≤ v) ∧
      Forall (λ r, r_limit r ≤ spot) (take n (region_list a)) ∧
      Forall (λ r, spot + size ≤ r_base r) (drop n (region_list a)).
Proof.
  intros Hw Hs Hp Hal spots. destruct (alloc_spot_ok a size align_pow2 Hw Hs Hp Hal) as (spot & n & E & H).
  exists spot, n. split; [done|]. unfold search_result in H. destruct (spot =? NO_SPOT).
  { intros v [Hv Hva]. by apply (H v). }
  rewrite Nat.sub_0_r in H. destruct H as (H1 & H2 & H3 & _ & H5 & H6 & H7). split_and!; try done.
  - split; [done|]. split_and!; try done. rewrite <- (take_drop n (region_list a)). apply Forall_app. split.
    + eapply Forall_impl; [exact H5|]. intros; by right.
    + eapply Forall_impl; [exact H6|]. intros; by left.
  - intros v [Hv Hva]. by apply H7.
Qed.

(** ** Adding a region *)

Lemma is_inside_aspace_iff {A} (a : aspace A) v :
  range_ok (as_base a) (as_limit a) → is_inside_aspace a v = true ↔ as_base a ≤ v < as_limit a.
Proof.
  intros [[? _] [? _] ?]. unfold is_inside_aspace. change (as_base a + as_size a) with (as_limit a).
  rewrite u64_small by lia. rewrite andb_true_iff, !Z.leb_le. lia.
Qed.

Lemma is_region_inside_aspace_iff {A} (a : aspace A) v size :
  range_ok (as_base a) (as_limit a) → 0 ≤ v < 2 ^ 64 → 0 < size < 2 ^ 64 →
  is_region_inside_aspace a v size = true ↔ as_base a ≤ v ∧ v + size ≤ as_limit a.
Proof.
  intros Hg Hv Hs. unfold is_region_inside_aspace. change (as_base a + as_size a) with (as_limit a).
  pose proof (is_inside_aspace_iff a v Hg) as Hi. destruct Hg as [[? _] [? _] ?].
  rewrite (u64_small (as_limit a - 1)), (proj2 (Z.eqb_neq size 0)) by lia.
  destruct (is_inside_aspace a v); cbn [negb]; [|split; [done|]; intros; assert (false = true) by (apply Hi; lia); done].
  destruct (proj1 Hi eq_refl) as [H1 H2]. unfold u64.
  destruct (Z.le_gt_cases (2 ^ 64) (v + size - 1)) as [Hw|Hw].
  - assert ((v + size - 1) `mod` 2 ^ 64 = v + size - 1 - 2 ^ 64) as -> by (symmetry; apply (Z.mod_unique_pos _ _ 1); lia).
    rewrite (proj2 (Z.ltb_lt _ v)) by lia. split; [done|lia].
  - rewrite (Z.mod_small (v + size - 1)) by lia. rewrite (proj2 (Z.ltb_ge _ v)) by lia.
    destruct (Z.ltb_spec (as_limit a - 1) (v + size - 1)); split; done || lia.
Qed.

(** The regions in front of and behind the place of [r]. *)
Definition splits (r : region) (l l1 l2 : list region) : Prop :=
  l = l1 ++ l2 ∧ Forall (λ r', r_limit r' ≤ r_base r) l1 ∧ Forall (λ r', r_limit r ≤ r_base r') l2.

Lemma add_after_ok r l : ∀ lo hi,
  0 ≤ lo → hi ≤ 2 ^ 64 → laid_out lo hi l → 0 < r_size r → region_end r = r_limit r - 1 →
  match add_after r l with
  | Some l' => ∃ l1 l2, l1 ≠ [] ∧ splits r l l1 l2 ∧ l' = l1 ++ r :: l2
  | None => match l with [] => True | x :: _ => r_limit x ≤ r_base r → ¬ Forall (λ r', r_limit r ≤ r_base r' ∨ r_limit r' ≤ r_base r) l end
  end.
Proof.
  induction l as [|x l IH]; intros lo hi Hlo Hg Hl Hs He; [done|]. pose proof Hl as Hl0. destruct Hl as (H1 & H2 & H3 & H4 & Hl).
  assert (region_end x = r_limit x - 1) as Hx by (apply (laid_out_end lo hi (x :: l)); [done..|set_solver]).
  cbn [add_after]. rewrite Hx, He.
  set (b := match l with [] => true | next :: _ => r_limit r - 1 <? r_base next end).
  assert (0 ≤ r_limit x) as Hlx by (unfold r_limit; lia).
  destruct ((r_limit x - 1 <? r_base r) && b) eqn:E.
  - apply andb_true_iff in E as [E1%Z.ltb_lt Eb]. exists [x], l. split_and!; [done| |done].
    split_and!; [done|by constructor; [lia|]|].
    apply (laid_out_behind _ _ _ _ Hl). subst b. destruct l; [done|]. apply Z.ltb_lt in Eb. lia.
  - specialize (IH (r_limit x) hi Hlx Hg Hl Hs He). destruct (add_after r l) as [l'|] eqn:El; simpl.
    + destruct IH as (l1 & l2 & Hne & (-> & Hl1 & Hl2) & ->). exists (x :: l1), l2. split_and!; [done| |done].
      split_and!; try done. constructor; [|done]. destruct l1 as [|y l1]; [done|].
      apply Forall_cons in Hl1 as [Hy _]. destruct Hl as (? & ? & _). unfold r_limit in *. lia.
    + intros Hxr [_ Hf]%Forall_cons. rewrite (proj2 (Z.ltb_lt _ _)) in E by lia. subst b.
      destruct l as [|y l]; [done|]. simpl in E. apply Z.ltb_ge in E. apply IH; [|done].
      apply Forall_cons in Hf as [[Hy|Hy] _]; lia.
Qed.

Lemma Forall_app_vacant r l l1 l2 lo hi :
  splits r l l1 l2 → lo ≤ r_base r → r_limit r ≤ hi → vacant lo hi l (r_base r) (r_size r).
Proof.
  intros (-> & H1 & H2) ? ?. split_and!; [done..|]. apply Forall_app. split.
  - eapply Forall_impl; [exact H1|]. intros; by right.
  - eapply Forall_impl; [exact H2|]. intros; by left.
Qed.

Lemma add_region_ok {A} (a : aspace A) r :
  awf a → 0 ≤ r_base r < 2 ^ 64 → 0 ≤ r_size r < 2 ^ 64 →
  let '(err, a') := add_region_to_aspace a r in
  (err = NO_ERROR ∧ ∃ l1 l2, splits r (region_list a) l1 l2 ∧ 0 < r_size r ∧ as_base a ≤ r_base r ∧ r_limit r ≤ as_limit a ∧
    a' = with_regions (l1 ++ r :: l2) a) ∨
  (a' = a ∧ err = ERR_OUT_OF_RANGE ∧ (r_size r = 0 ∨ ¬ (as_base a ≤ r_base r ∧ r_limit r ≤ as_limit a))) ∨
  (a' = a ∧ err = ERR_NO_MEMORY ∧ ¬ vacant (as_base a) (as_limit a) (region_list a) (r_base r) (r_size r)).
Proof.
  intros [Hg Hl _] Hb Hs. unfold add_region_to_aspace. destruct (Z.eqb_spec (r_size r) 0) as [|Hnz]; cbn [orb]; [naive_solver|].
  pose proof (is_region_inside_aspace_iff a (r_base r) (r_size r) Hg Hb ltac:(lia)) as Hi.
  destruct (is_region_inside_aspace a _ _); cbn [negb]; [|right; left; split_and!; [done..|]; right; intros H; by apply Hi in H].
  destruct (proj1 Hi eq_refl) as [Hlo Hhi]. pose proof Hg as [[Hz _] [Hm Hph] Hsz].
  assert (region_end r = r_limit r - 1) as He by (apply region_end_eq; unfold r_limit; lia). rewrite He.
  destruct (region_list a) as [|x l] eqn:El.
  { left. split; [done|]. exists [], []. split_and!; done || lia. }
  destruct (Z.ltb_spec (r_limit r - 1) (r_base x)) as [Hx|Hx].
  { left. split; [done|]. exists [], (x :: l). split_and!; try (done || lia).
    split_and!; [done..|]. apply (laid_out_behind _ _ _ _ Hl). lia. }
  pose proof (add_after_ok r (x :: l) _ _ Hz Hm Hl ltac:(lia) He) as H. destruct (add_after r (x :: l)) as [l'|].
  - left. split; [done|]. destruct H as (l1 & l2 & _ & Hsp & ->). exists l1, l2. split_and!; done || lia.
  - right. right. split_and!; [done..|]. intros (_ & _ & Hf). pose proof Hf as [[Hf1|Hf1] _]%Forall_cons.
    + unfold r_limit in Hx. lia.
    + by apply H.
Qed.

Lemma awf_insert {A} (a : aspace A) r l1 l2 :
  awf a → splits r (region_list a) l1 l2 → r_addr r ∉ r_addr <$> region_list a →
  0 < r_size r → paged (r_base r) → paged (r_size r) → as_base a ≤ r_base r → r_limit r ≤ as_limit a →
  awf (with_regions (l1 ++ r :: l2) a).
Proof.
  intros [Hg Hl Hn] (E & H1 & H2) Hf Hs Hb Hz Hlo Hhi. rewrite E in *. split; [done|by apply laid_out_insert|].
  cbn [region_list with_regions]. rewrite <- Permutation_middle. simpl. by constructor.
Qed.

(** C33: [add_region_to_aspace] puts a region into the list exactly when its range
    is inside the address space and vacant, and the list stays in order. *)
Theorem add_region_spec {A} (a : aspace A) r :
  awf a → 0 ≤ r_base r < 2 ^ 64 → 0 < r_size r < 2 ^ 64 → paged (r_base r) → paged (r_size r) →
  r_addr r ∉ r_addr <$> region_list a →
  let '(err, a') := add_region_to_aspace a r in
  awf a' ∧ (err = NO_ERROR ↔ vacant (as_base a) (as_limit a) (region_list a) (r_base r) (r_size r)) ∧
  if err =? NO_ERROR then region_list a' ≡ₚ r :: region_list a ∧ arch_aspace a' = arch_aspace a else a' = a.
Proof.
  intros Hw Hb Hs Hpb Hps Hf. pose proof (add_region_ok a r Hw Hb ltac:(lia)) as H.
  destruct (add_region_to_aspace a r) as [err a']. destruct H as [(-> & l1 & l2 & Hsp & _ & Hlo & Hhi & ->)|H].
  - split_and!; [apply awf_insert; done || apply Hs|split; [intros _; by eapply Forall_app_vacant|done]|]. simpl. split; [|done].
    destruct Hsp as (-> & _ & _). by rewrite Permutation_middle.
  - assert (a' = a ∧ err < 0 ∧ ¬ vacant (as_base a) (as_limit a) (region_list a) (r_base r) (r_size r)) as (-> & He & Hv).
    { destruct H as [(-> & -> & Ho)|(-> & -> & Hv)]; split_and!; try done. intros (? & ? & _). unfold r_limit in Ho. lia. }
    unfold NO_ERROR. rewrite (proj2 (Z.eqb_neq err 0)) by lia. split_and!; [done|split; [lia|done]|done].
Qed.

(** ** A new region *)

(** The call that names its place has a page aligned one. *)
Definition place_ok (vmm_flags vaddr : Z) : Prop :=
  has_flag vmm_flags VMM_FLAG_VALLOC_SPECIFIC = true → 0 ≤ vaddr < 2 ^ 64 ∧ paged vaddr.

(** The structure from the heap is not one of a region in the list. *)
Definition fresh_mem {A} (a : aspace A) (mem : option Z) : Prop :=
  match mem with Some addr => addr ∉ r_addr <$> region_list a | None => True end.

(** The places at which the region may go. *)
Definition placeable {A} (a : aspace A) (size vaddr align_pow2 vmm_flags v : Z) : Prop :=
  vacant (as_base a) (as_limit a) (region_list a) v size ∧
  if has_flag vmm_flags VMM_FLAG_VALLOC_SPECIFIC then v = vaddr else (2 ^ spot_log2 align_pow2 | v).

Lemma alloc_region_ok {A} (a : aspace A) mem name size vaddr align_pow2 vmm_flags region_flags mmu_flags :
  awf a → fresh_mem a mem → 0 < size < 2 ^ 64 → paged size → 0 ≤ align_pow2 ≤ 63 → place_ok vmm_flags vaddr →
  (alloc_region a mem name size vaddr align_pow2 vmm_flags region_flags mmu_flags = Ok (None, a) ∧
    (mem = None ∨ ∀ v, ¬ placeable a size vaddr align_pow2 vmm_flags v)) ∨
  (∃ addr v l1 l2, let r := mk_region addr (copy_name name) region_flags mmu_flags v size [] in
    mem = Some addr ∧ placeable a size vaddr align_pow2 vmm_flags v ∧ paged v ∧
    (∀ v', placeable a size vaddr align_pow2 vmm_flags v' → v ≤ v') ∧
    region_list a = l1 ++ l2 ∧
    alloc_region a mem name size vaddr align_pow2 vmm_flags region_flags mmu_flags =
      Ok (Some r, with_regions (l1 ++ r :: l2) a) ∧ awf (with_regions (l1 ++ r :: l2) a)).
Proof.
  intros Hw Hf Hs Hp Hal Hpl. unfold alloc_region, alloc_region_struct, placeable.
  destruct mem as [addr|]; [|by left; split; [|left]]. unfold place_ok in Hpl.
  destruct (has_flag vmm_flags VMM_FLAG_VALLOC_SPECIFIC) eqn:Efl.
  - destruct (Hpl eq_refl) as [Hv Hpv]. set (r := mk_region addr _ _ _ vaddr size []).
    pose proof (add_region_ok a r Hw Hv ltac:(simpl; lia)) as H. destruct (add_region_to_aspace a r) as [err a'].
    destruct H as [(-> & l1 & l2 & Hsp & _ & Hlo & Hhi & ->)|H].
    + right. exists addr, vaddr, l1, l2. pose proof Hsp as (E & _ & _). split_and!; try done.
      * by apply (Forall_app_vacant r _ l1 l2).
      * intros v' [_ ->]. lia.
      * apply awf_insert; done || apply Hs.
    + left. assert (a' = a ∧ err < 0 ∧ ¬ vacant (as_base a) (as_limit a) (region_list a) vaddr size) as (-> & He & Hnv).
      { destruct H as [(-> & -> & Ho)|(-> & -> & Hnv)]; split_and!; try done. intros (? & ? & _). unfold r_limit in Ho. simpl in Ho. lia. }
      rewrite (proj2 (Z.ltb_lt err 0)) by lia. split; [done|]. right. by intros v [Hva ->].
  - destruct (alloc_spot_ok a size align_pow2 Hw ltac:(lia) Hp Hal) as (spot & n & E & H). rewrite E. cbn [mbind res_bind].
    unfold search_result in H. destruct (spot =? NO_SPOT) eqn:En.
    + left. split; [done|]. right. intros v [Hva Hv]. by apply (H v).
    + rewrite Nat.sub_0_r in H. destruct H as (H1 & H2 & H3 & _ & H5 & H6 & H7). right.
      set (r := mk_region addr (copy_name name) region_flags mmu_flags spot size []).
      assert (splits r (region_list a) (take n (region_list a)) (drop n (region_list a))) as Hsp by (split_and!; [by rewrite take_drop|done..]).
      assert (paged spot) as Hps by (apply (paged_pow (spot_log2 align_pow2)); [unfold spot_log2, PAGE_SIZE_SHIFT; lia|done]).
      exists addr, spot, (take n (region_list a)), (drop n (region_list a)). split_and!; try done.
      * by apply (Forall_app_vacant r _ _ _ _ _ Hsp).
      * intros v' [Hva Hv]. by apply H7.
      * by rewrite take_drop.
      * apply awf_insert; done || apply Hs.
Qed.

(** ** Replacing and removing a region *)

Lemma put_region_other r l : r_addr r ∉ r_addr <$> l → put_region r l = l.
Proof.
  induction l as [|x l IH]; [done|]. intros H. unfold put_region in *. csimpl in *.
  rewrite not_elem_of_cons in H. destruct H as [H1 H2]. rewrite IH by done.
  by rewrite (proj2 (Z.eqb_neq _ _)) by congruence.
Qed.

Lemma put_region_at r r' l1 l2 :
  NoDup (r_addr <$> l1 ++ r :: l2) → r_addr r' = r_addr r → put_region r' (l1 ++ r :: l2) = l1 ++ r' :: l2.
Proof.
  rewrite fmap_app, fmap_cons. intros (_ & Hd & [Hn _]%NoDup_cons)%NoDup_app E.
  assert (put_region r' l1 = l1) as E1 by (apply put_region_other; rewrite E; intros Hi; apply (Hd _ Hi); set_solver).
  assert (put_region r' l2 = l2) as E2 by (apply put_region_other; by rewrite E).
  unfold put_region in *. rewrite fmap_app, fmap_cons, E1, E2. by rewrite (proj2 (Z.eqb_eq _ _)).
Qed.

Lemma filter_all {B} (P : B → Prop) `{∀ x, Decision (P x)} (l : list B) : (∀ x, x ∈ l → P x) → filter P l = l.
Proof.
  induction l as [|x l IH]; intros Hl; [done|]. rewrite filter_cons_True by (apply Hl; set_solver).
  rewrite IH; [done|]. intros y Hy. apply Hl. set_solver.
Qed.

Lemma filter_addr r l1 l2 :
  NoDup (r_addr <$> l1 ++ r :: l2) → filter (λ r', r_addr r' ≠ r_addr r) (l1 ++ r :: l2) = l1 ++ l2.
Proof.
  rewrite fmap_app, fmap_cons. intros (_ & Hd & [Hn _]%NoDup_cons)%NoDup_app.
  rewrite filter_app, filter_cons_False by naive_solver. f_equal; apply filter_all; intros r' Hr' E.
  - apply (Hd (r_addr r')); [by apply list_elem_of_fmap_2|]. rewrite E. set_solver.
  - apply Hn. rewrite <- E. by apply list_elem_of_fmap_2.
Qed.

Lemma awf_remove {A} (a : aspace A) l1 r l2 : awf a → region_list a = l1 ++ r :: l2 → awf (with_regions (l1 ++ l2) a).
Proof.
  intros [Hg Hl Hn] E. rewrite E in *. split; [done|by apply laid_out_remove in Hl|]. simpl.
  rewrite <- Permutation_middle in Hn. by apply NoDup_cons in Hn as [_ ?].
Qed.

Lemma awf_replace {A} (a : aspace A) l1 r r' l2 :
  awf a → region_list a = l1 ++ r :: l2 → r_addr r' = r_addr r → r_base r' = r_base r → r_size r' = r_size r →
  awf (with_regions (l1 ++ r' :: l2) a).
Proof.
  intros [Hg Hl Hn] E E1 E2 E3. rewrite E in *. split; [done| |].
  - simpl. rewrite laid_out_app in *. destruct Hl as (m & ? & ? & Hl). exists m. split_and!; [done..|].
    simpl in *. unfold r_limit in *. by rewrite E2, E3.
  - simpl. rewrite fmap_app, fmap_cons in *. by rewrite E1.
Qed.

Lemma covers_base {A} (a : aspace A) r : awf a → r ∈ region_list a → covers r (r_base r).
Proof. intros [_ Hl _] Hr. destruct (laid_out_bounds _ _ _ _ Hl Hr) as (_ & ? & _). unfold covers, r_limit. lia. Qed.

Lemma remove_region_ok {A} (mmu : mmu_ops A) (a : aspace A) l1 r l2 v :
  awf a → region_list a = l1 ++ r :: l2 → covers r v →
  vmm_remove_region_locked mmu a v =
    Some (r, with_arch (arch_mmu_unmap mmu (arch_aspace a) (r_base r) (u32 (r_size r / PAGE_SIZE))) (with_regions (l1 ++ l2) a)).
Proof.
  intros Hw E Hc. unfold vmm_remove_region_locked, vmm_find_region. pose proof Hw as [Hg Hl Hn].
  pose proof (find_region_ok _ _ _ v Hg Hl) as H. assert (r ∈ region_list a) as Hr by (rewrite E; set_solver).
  destruct (find_region _ v) as [r'|]; [|by destruct (H r Hr)]. destruct H as [Hr' Hc'].
  assert (r' = r) as -> by (by eapply laid_out_unique). rewrite E, filter_addr by (by rewrite <- E). done.
Qed.

Lemma remove_region_none {A} (mmu : mmu_ops A) (a : aspace A) v :
  awf a → (∀ r, r ∈ region_list a → ¬ covers r v) → vmm_remove_region_locked mmu a v = None.
Proof.
  intros [Hg Hl _] H. unfold vmm_remove_region_locked, vmm_find_region.
  pose proof (find_region_ok _ _ _ v Hg Hl) as Hf. destruct (find_region _ v) as [r|]; [|done]. destruct Hf as [Hr Hc].
  by destruct (H r Hr).
Qed.

Lemma remove_new_ok {A} (mmu : mmu_ops A) (a : aspace A) l1 r l2 r' :
  awf a → region_list a = l1 ++ r :: l2 → r_base r' = r_base r → r_addr r' = r_addr r →
  remove_new_region mmu a r' =
    Ok (with_arch (arch_mmu_unmap mmu (arch_aspace a) (r_base r) (u32 (r_size r / PAGE_SIZE))) (with_regions (l1 ++ l2) a)).
Proof.
  intros Hw E Eb Ea. unfold remove_new_region. rewrite Eb, (remove_region_ok mmu a l1 r l2); [|done..|].
  - by rewrite Ea, Z.eqb_refl.
  - eapply covers_base; [done|]. rewrite E. set_solver.
Qed.

(** * Pages taken and given back *)

(** From [s] to [s'] just the pages [l] were taken. *)
Definition taken (s s' : pmm) (l : list Z) : Prop :=
  pinv s ∧ pinv s' ∧ geo <$> arena_list s' = geo <$> arena_list s ∧ free_pages s ≡ₚ l ++ free_pages s'.

Lemma taken_refl s : pinv s → taken s s [].
Proof. done. Qed.

Lemma taken_all_in_use s s' l : taken s s' l → NoDup l ∧ Forall (in_use s') l.
Proof. intros (? & ? & ? & ?). by apply (taken_in_use s). Qed.

Lemma taken_keeps s s' l p : taken s s' l → in_use s p → in_use s' p.
Proof.
  intros (Hp & Hp' & Hg & Hf) Hu. pose proof Hu as [Hpg _]. apply in_use_iff; [done|by eapply has_page_geo|].
  apply in_use_iff in Hu; [|done..]. rewrite Hf in Hu. set_solver.
Qed.

Lemma given_keeps s s' l p : taken s' s l → in_use s p → p ∉ l → in_use s' p.
Proof.
  intros (Hp & Hp' & Hg & Hf) Hu Hn. pose proof Hu as [Hpg _]. apply in_use_iff; [done|by eapply has_page_geo|].
  apply in_use_iff in Hu; [|done..]. rewrite Hf. set_solver.
Qed.

Lemma taken_given s s1 s' l k : taken s s1 (l ++ k) → taken s' s1 l → taken s s' k.
Proof.
  intros (Hp & Hp1 & Hg & Hf) (Hp' & _ & Hg' & Hf'). split_and!; [done|done|congruence|].
  rewrite Hf, Hf', <- app_assoc. apply Permutation_app_swap_app.
Qed.

Lemma taken_free s s1 l k :
  taken s s1 (l ++ k) → ∃ s', pmm_free l s1 = Ok (zlen l, s') ∧ taken s s' k.
Proof.
  intros Ht. pose proof Ht as (Hp & Hp1 & Hg & Hf). destruct (taken_all_in_use _ _ _ Ht) as [Hn Hu].
  apply NoDup_app in Hn as (Hn & _ & _). apply Forall_app in Hu as [Hu _].
  destruct (pmm_free_ok l s1 Hp1 Hn Hu) as (s' & E & Hp' & Hg' & Hf'). exists s'. split; [done|].
  apply (taken_given s s1 s' l k); [done|]. split_and!; [done..|]. done.
Qed.

Lemma vm_page_to_paddr_geo s s' p :
  geo <$> arena_list s' = geo <$> arena_list s → vm_page_to_paddr s' p = vm_page_to_paddr s p.
Proof.
  unfold vm_page_to_paddr. generalize (arena_list s). induction (arena_list s') as [|b l' IH]; intros [|b0 l] H; try done.
  rewrite !fmap_cons in H. apply (inj2 cons) in H as [H1 H2]. cbn [vm_page_to_paddr_in]. rewrite (IH l H2).
  pose proof (f_equal a_base H1) as Eb. pose proof (f_equal a_size H1) as Es. pose proof (f_equal a_page_array H1) as Ep.
  cbn in Eb, Es, Ep. unfold PAGE_BELONGS_TO_ARENA, PAGE_ADDRESS_FROM_ARENA. by rewrite Eb, Es, Ep.
Qed.

Lemma vm_page_to_paddr_ok s p :
  pinv s → (∃ a, a ∈ arena_list s ∧ is_page a p) → paged (vm_page_to_paddr s p) ∧ 0 ≤ vm_page_to_paddr s p.
Proof.
  intros [Hok _ _] (a & Ha & i & Hi & ->). unfold vm_page_to_paddr. rewrite (vm_page_to_paddr_in_ok _ _ a i Hok Ha Hi).
  pose proof (ao_geo _ _ (arenas_ok_elem a _ _ Hok Ha)) as [[Hb ?] _ _ _]. split.
  - apply paged_add; [done|]. by exists i.
  - unfold PAGE_SIZE. lia.
Qed.
