(* ===== verification/VmmInv.v ===== *)
(** Address spaces over page tables.

    [MmuLaws] states what the architecture promises: mapping and unmapping change
    the translations of just the pages named.  The invariant [ainv] of an address
    space says that its regions are laid out in its range, that each page of a
    region is in use and belongs to one region only, and that the addresses of a
    region with pages translate to these pages.  Every call keeps it, whatever
    fails on the way, and leaves the translations of the other regions alone. *)
From stdpp Require Import prelude strings gmap sorting.
From S2P Require Import Prelude Bytes Pmm Vmm VmmSpec.

#[local] Open Scope Z_scope.

(** [tr x v] is the physical address of the page at [v]; [spans x lo hi] says that
    the tables were set up for [lo, hi). *)
Class MmuLaws {A} (mmu : mmu_ops A) (tr : A → Z → option Z) (spans : A → Z → Z → Prop) := {
  mmu_map_spans x lo hi va pa n fl : spans x lo hi → spans (snd (arch_mmu_map mmu x va pa n fl)) lo hi;
  mmu_unmap_spans x lo hi va n : spans x lo hi → spans (arch_mmu_unmap mmu x va n) lo hi;
  mmu_map_in x lo hi va pa n fl i :
    spans x lo hi → paged va → paged pa → 0 < n < 2 ^ 32 → lo ≤ va → va + n * PAGE_SIZE ≤ hi →
    0 ≤ fst (arch_mmu_map mmu x va pa n fl) → 0 ≤ i < n →
    tr (snd (arch_mmu_map mmu x va pa n fl)) (va + i * PAGE_SIZE) = Some (pa + i * PAGE_SIZE);
  mmu_map_out x lo hi va pa n fl v :
    spans x lo hi → paged va → paged pa → 0 < n < 2 ^ 32 → lo ≤ va → va + n * PAGE_SIZE ≤ hi →
    ¬ va ≤ v < va + n * PAGE_SIZE → tr (snd (arch_mmu_map mmu x va pa n fl)) v = tr x v;
  mmu_unmap_tr x lo hi va n v :
    spans x lo hi → paged va → 0 ≤ n < 2 ^ 32 → lo ≤ va → va + n * PAGE_SIZE ≤ hi →
    tr (arch_mmu_unmap mmu x va n) v = if (va <=? v) && (v <? va + n * PAGE_SIZE) then None else tr x v;
  mmu_init_spans base size fl :
    0 ≤ fst (arch_mmu_init_aspace mmu base size fl) → spans (snd (arch_mmu_init_aspace mmu base size fl)) base (base + size);
  mmu_switch old new :
    let keep (o o' : option A) :=
      match o, o' with
      | Some x, Some x' => tr x' = tr x ∧ ∀ lo hi, spans x lo hi → spans x' lo hi
      | None, None => True
      | _, _ => False
      end in
    keep old (fst (arch_mmu_context_switch mmu old new)) ∧ keep new (snd (arch_mmu_context_switch mmu old new));
}.

Lemma awf_arch {A} (a : aspace A) x : awf a → awf (with_arch x a).
Proof. intros [? ? ?]. by split. Qed.

(** A region and another one share no address. *)
Lemma others_apart {A} (a : aspace A) l1 r l2 r' v :
  awf a → region_list a = l1 ++ r :: l2 → r' ∈ l1 ++ l2 → covers r' v → ¬ covers r v.
Proof.
  intros [_ Hl Hn] E Hr' Hc' Hc. assert (r' = r) as ->.
  { apply (laid_out_unique _ _ _ r' r v Hl); rewrite ?E; set_solver. }
  rewrite E, <- Permutation_middle in Hn. apply NoDup_cons in Hn as [Hn _]. apply Hn. by apply list_elem_of_fmap_2.
Qed.

(** The pages of all regions. *)
Definition pages_of (l : list region) : list Z := concat (r_page_list <$> l).

Lemma pages_of_app l k : pages_of (l ++ k) = pages_of l ++ pages_of k.
Proof. unfold pages_of. by rewrite fmap_app, concat_app. Qed.

Lemma pages_of_middle l1 r l2 : pages_of (l1 ++ r :: l2) ≡ₚ r_page_list r ++ pages_of (l1 ++ l2).
Proof.
  rewrite !pages_of_app. unfold pages_of. rewrite fmap_cons. simpl. apply Permutation_app_swap_app.
Qed.

Lemma elem_of_pages_of p l : p ∈ pages_of l ↔ ∃ r, r ∈ l ∧ p ∈ r_page_list r.
Proof.
  induction l as [|r l IH]; unfold pages_of in *; csimpl; [set_solver|]. rewrite elem_of_app, IH. set_solver.
Qed.

Section inv.
Context {A : Type} (mmu : mmu_ops A) (tr : A → Z → option Z) (spans : A → Z → Z → Prop) {LAWS : MmuLaws mmu tr spans}.
Implicit Type a : aspace A.

(** The pages of the region are as many as it has room for, and its addresses
    translate to them in order. *)
Definition backed (x : A) (s : pmm) (r : region) : Prop :=
  zlen (r_page_list r) = r_size r / PAGE_SIZE ∧
  ∀ i p, 0 ≤ i → znth (r_page_list r) i = Some p → tr x (r_base r + i * PAGE_SIZE) = Some (vm_page_to_paddr s p).

(** A reservation or a mapping of given physical memory has no pages. *)
Definition region_ok (x : A) (s : pmm) (r : region) : Prop := r_page_list r = [] ∨ backed x s r.

Record ainv (s : pmm) a : Prop := {
  ai_wf : awf a;
  ai_spans : spans (arch_aspace a) (as_base a) (as_limit a);
  ai_pmm : pinv s;
  ai_nodup : NoDup (pages_of (region_list a));
  ai_used : Forall (in_use s) (pages_of (region_list a));
  ai_backed : Forall (region_ok (arch_aspace a) s) (region_list a);
}.

(** The pages of a region that translate as before. *)
Lemma region_ok_tr x x' s s' r :
  geo <$> arena_list s' = geo <$> arena_list s → 0 < r_size r →
  (∀ v, r_base r ≤ v < r_limit r → tr x' v = tr x v) → region_ok x s r → region_ok x' s' r.
Proof.
  intros Hg Hs Htr [?|[Hn Hb]]; [by left|right]. split; [done|]. intros i p Hi Hp.
  rewrite (vm_page_to_paddr_geo s s') by done. rewrite <- (Hb i p Hi Hp). apply Htr.
  assert (i < zlen (r_page_list r)) as Hlt by (apply Z.nle_gt; intros ?; rewrite znth_ge in Hp by done; done).
  rewrite Hn in Hlt. pose proof (Z.mul_div_le (r_size r) PAGE_SIZE ltac:(done)). unfold r_limit, PAGE_SIZE in *. nia.
Qed.

(** What another address space or a failed call sees: the translations of all
    regions are as before. *)
Definition regions_keep (l : list region) (x x' : A) : Prop :=
  ∀ r v, r ∈ l → r_base r ≤ v < r_limit r → tr x' v = tr x v.

(** Pages taken or given back that are not of these regions. *)
Definition pmm_frame (s s' : pmm) (l : list region) : Prop :=
  pinv s' ∧ geo <$> arena_list s' = geo <$> arena_list s ∧ ∀ p, p ∈ pages_of l → in_use s p → in_use s' p.

Lemma taken_frame s s' ps l : taken s s' ps → pmm_frame s s' l.
Proof. intros Ht. pose proof Ht as (_ & ? & ? & _). split_and!; [done..|]. intros p _ Hu. by eapply taken_keeps. Qed.

(** The invariant for a part of the regions, other tables and other pages. *)
Lemma ainv_part s s' a l x' :
  ainv s a → awf (with_regions l a) → (∀ r, r ∈ l → r ∈ region_list a) → NoDup (pages_of l) →
  spans x' (as_base a) (as_limit a) → regions_keep l (arch_aspace a) x' → pmm_frame s s' l →
  ainv s' (with_arch x' (with_regions l a)).
Proof.
  intros [Hw Hsp Hp Hn Hu Hb] Hw' Hin Hn' Hsp' Hk (Hp' & Hg & Hfr).
  assert (∀ p, p ∈ pages_of l → p ∈ pages_of (region_list a)) as Hpin.
  { intros p. rewrite !elem_of_pages_of. naive_solver. }
  split; try done; simpl.
  - destruct Hw' as [? ? ?]. by split.
  - apply Forall_forall. intros p Hpl. apply Hfr; [done|]. rewrite Forall_forall in Hu. auto.
  - apply Forall_forall. intros r Hr. apply (region_ok_tr (arch_aspace a) x' s s'); [done| |by intros v; apply Hk|].
    + by destruct (laid_out_bounds _ _ _ _ (aw_regions _ Hw') Hr) as (_ & ? & _).
    + rewrite Forall_forall in Hb. auto.
Qed.

(** A region was removed, or a new one was not kept: only translations of its own
    addresses changed. *)
Lemma ainv_without s s' a l1 r l2 l x' :
  ainv s a → awf (with_regions (l1 ++ r :: l2) a) → (∀ r', r' ∈ l1 ++ l2 → r' ∈ region_list a) →
  NoDup (pages_of (l1 ++ l2)) → l = l1 ++ l2 →
  spans x' (as_base a) (as_limit a) → (∀ v, ¬ covers r v → tr x' v = tr (arch_aspace a) v) →
  pmm_frame s s' (l1 ++ l2) → ainv s' (with_arch x' (with_regions l a)).
Proof.
  intros Ha Hw Hin Hn -> Hsp Htr Hfr. eapply ainv_part; try done.
  - apply (awf_remove _ l1 r l2) in Hw; [|done]. destruct Hw as [? ? ?]. by split.
  - intros r' v Hr' Hv. apply Htr. by apply (others_apart _ l1 r l2 r' v Hw).
Qed.

(** A new region with pages of its own, to which its addresses translate. *)
Lemma ainv_insert s s' a l1 r l2 x' :
  ainv s a → region_list a = l1 ++ l2 → awf (with_regions (l1 ++ r :: l2) a) →
  spans x' (as_base a) (as_limit a) → (∀ v, ¬ covers r v → tr x' v = tr (arch_aspace a) v) →
  taken s s' (r_page_list r) → region_ok x' s' r → ainv s' (with_arch x' (with_regions (l1 ++ r :: l2) a)).
Proof.
  intros Ha E Hw Hsp Htr Ht Hr. destruct (taken_all_in_use _ _ _ Ht) as [Hn Hu].
  assert (ainv s' (with_arch x' (with_regions (l1 ++ l2) a))) as [_ _ Hp' Hn' Hu' Hb'].
  { eapply (ainv_without s); try done; [by rewrite E|rewrite <- E; apply Ha|by eapply taken_frame]. }
  split; try done; simpl in *.
  - by apply awf_arch.
  - rewrite pages_of_middle. apply NoDup_app. split_and!; [done| |done]. intros p Hp Hp2.
    destruct Ha as [_ _ Hps _ Hus _]. rewrite <- E in Hp2. rewrite Forall_forall in Hus. apply Hus in Hp2.
    apply in_use_iff in Hp2; [|done|apply Hp2]. destruct Ht as (_ & _ & _ & Hf). rewrite Hf in Hp2. set_solver.
  - rewrite pages_of_middle. by apply Forall_app.
  - apply Forall_app in Hb' as [? ?]. apply Forall_app. split; [done|]. by constructor.
Qed.

(** ** Mapping the pages of a region *)

Lemma range_map x lo hi va pa n fl :
  spans x lo hi → paged va → paged pa → 0 < n < 2 ^ 32 → lo ≤ va → va + n * PAGE_SIZE ≤ hi →
  let '(err, x') := arch_mmu_map mmu x va pa n fl in
  spans x' lo hi ∧ (0 ≤ err → ∀ i, 0 ≤ i < n → tr x' (va + i * PAGE_SIZE) = Some (pa + i * PAGE_SIZE)) ∧
  ∀ v, ¬ va ≤ v < va + n * PAGE_SIZE → tr x' v = tr x v.
Proof.
  intros Hsp Hva Hpa Hn Hlo Hhi. destruct (arch_mmu_map mmu x va pa n fl) as [err x'] eqn:E.
  pose proof (mmu_map_spans x lo hi va pa n fl Hsp) as H1. pose proof (λ i, mmu_map_in x lo hi va pa n fl i) as H2.
  pose proof (λ v, mmu_map_out x lo hi va pa n fl v) as H3. rewrite E in H1, H2, H3. simpl in *. split_and!; auto.
Qed.

(** The addresses of the pages listed translate to them. *)
Definition maps (x : A) (s : pmm) (base : Z) (ps : list Z) : Prop :=
  ∀ i p, 0 ≤ i → znth ps i = Some p → tr x (base + i * PAGE_SIZE) = Some (vm_page_to_paddr s p).

Lemma maps_snoc x x' s base ps p :
  maps x s base ps → tr x' (base + zlen ps * PAGE_SIZE) = Some (vm_page_to_paddr s p) →
  (∀ v, ¬ base + zlen ps * PAGE_SIZE ≤ v < base + zlen ps * PAGE_SIZE + PAGE_SIZE → tr x' v = tr x v) →
  maps x' s base (ps ++ [p]).
Proof.
  intros Hm Hp Htr i q Hi Hq. pose proof (zlen_nonneg ps). destruct (Z.lt_ge_cases i (zlen ps)) as [Hlt|Hge].
  - rewrite znth_app_l in Hq by lia. rewrite Htr; [by apply Hm|]. unfold PAGE_SIZE. lia.
  - rewrite znth_app_r in Hq by lia. destruct (Z.eq_dec i (zlen ps)) as [->|Hne].
    + rewrite Z.sub_diag in Hq. change (znth [p] 0) with (Some p) in Hq. injection Hq as <-. done.
    + rewrite znth_ge in Hq by (change (zlen [p]) with 1; lia). done.
Qed.

Lemma map_pages_ok s r fl lo hi ps : ∀ mapped x,
  0 ≤ lo → lo ≤ r_base r → r_limit r ≤ hi → hi ≤ 2 ^ 64 → paged (r_base r) → 0 < r_size r →
  r_size r = (zlen mapped + zlen ps) * PAGE_SIZE →
  Forall (λ p, paged (vm_page_to_paddr s p)) ps → spans x lo hi → maps x s (r_base r) mapped →
  ∃ err x' mapped' rest,
    map_pages mmu s r fl ps (u64 (r_base r + zlen mapped * PAGE_SIZE)) mapped x = Ok (err, x', mapped', rest) ∧
    spans x' lo hi ∧ (∀ v, ¬ covers r v → tr x' v = tr x v) ∧
    (if err <? NO_ERROR then mapped' ++ rest ≡ₚ mapped ++ ps ∧ ∃ y va pa, fst (arch_mmu_map mmu y va pa 1 fl) = err
     else err = NO_ERROR ∧ rest = [] ∧ mapped' = mapped ++ ps ∧ maps x' s (r_base r) mapped').
Proof.
  induction ps as [|p ps IH]; intros mapped x H0 Hlo Hhi Hm Hpb Hs Hsz Hps Hsp Hmp.
  { exists NO_ERROR, x, mapped, []. split_and!; try done. cbn. by rewrite app_nil_r. }
  pose proof (zlen_nonneg mapped). pose proof (zlen_nonneg ps). apply Forall_cons in Hps as [Hp Hps].
  assert (zlen (p :: ps) = 1 + zlen ps) as Ez by (unfold zlen; simpl; lia). rewrite Ez in Hsz.
  set (va := r_base r + zlen mapped * PAGE_SIZE). assert (r_limit r = r_base r + r_size r) as El by done.
  assert (va + PAGE_SIZE ≤ r_limit r) as Hva by (unfold va, PAGE_SIZE in *; lia).
  assert (0 ≤ va) as Hva0 by (unfold va, PAGE_SIZE in *; lia).
  assert (paged va) as Hpva by (apply paged_add; [done|by exists (zlen mapped)]).
  rewrite (u64_small va) by (unfold PAGE_SIZE in *; lia). cbn [map_pages].
  rewrite region_end_eq by lia. rewrite (proj2 (Z.leb_le va (r_limit r - 1))) by (unfold PAGE_SIZE in *; lia).
  rewrite (proj2 (IS_PAGE_ALIGNED_iff _)) by done. cbn [assert_ mbind res_bind].
  pose proof (range_map x lo hi va (vm_page_to_paddr s p) 1 fl Hsp Hpva Hp ltac:(lia) ltac:(unfold va, PAGE_SIZE; lia) ltac:(lia)) as Hmap.
  destruct (arch_mmu_map mmu x va (vm_page_to_paddr s p) 1 fl) as [err x1] eqn:Emap. destruct Hmap as (Hsp1 & Hin & Hout).
  rewrite Z.mul_1_l in Hout.
  assert (∀ v, ¬ covers r v → tr x1 v = tr x v) as Hout'.
  { intros v Hv. apply Hout. unfold covers, va, PAGE_SIZE in *. lia. }
  destruct (err <? NO_ERROR) eqn:Ee.
  - exists err, x1, mapped, (ps ++ [p]). split_and!; [done..|]. rewrite Ee. split.
    + f_equiv. by rewrite Permutation_app_comm.
    + exists x, va, (vm_page_to_paddr s p). by rewrite Emap.
  - apply Z.ltb_ge in Ee. unfold NO_ERROR in Ee.
    assert (zlen (mapped ++ [p]) = zlen mapped + 1) as Ez' by (by rewrite zlen_app).
    replace (u64 (va + PAGE_SIZE)) with (u64 (r_base r + zlen (mapped ++ [p]) * PAGE_SIZE)) by (f_equal; unfold va; lia).
    destruct (IH (mapped ++ [p]) x1) as (err' & x' & mapped' & rest & E & Hsp' & Htr & Hres); try done; [lia| |].
    { apply (maps_snoc x); [done| |done]. specialize (Hin Ee 0 ltac:(lia)). by rewrite !Z.mul_0_l, !Z.add_0_r in Hin. }
    exists err', x', mapped', rest. split_and!; [done|done|intros v Hv; rewrite Htr by done; by apply Hout'|].
    rewrite <- app_assoc in Hres. done.
Qed.
End inv.
