(* ===== verification/VmmAlloc.v ===== *)
(** The calls that allocate and free regions keep the invariant.

    Each theorem gives the outcome of a call in full: what a call that succeeds
    adds or removes, and that a call that fails, at whatever point, leaves the
    regions, their translations and the free pages as they were. *)
From stdpp Require Import prelude strings gmap sorting.
From S2P Require Import Prelude Bytes Pmm Vmm VmmSpec VmmInv.

#[local] Open Scope Z_scope.

Section alloc.
Context {A : Type} (mmu : mmu_ops A) (tr : A → Z → option Z) (spans : A → Z → Z → Prop) {LAWS : MmuLaws mmu tr spans}.
Implicit Type a : aspace A.
#[local] Notation ainv := (ainv tr spans).
#[local] Notation maps := (maps tr).

(** What a caller has to respect. *)
Record request_ok a (mem ptr : option Z) (align_pow2 vmm_flags : Z) : Prop := {
  rq_mem : fresh_mem a mem;
  rq_align : 0 ≤ align_pow2 ≤ 63;
  rq_place : ∀ v, requested_vaddr ptr vmm_flags = Some v → place_ok vmm_flags v;
}.

(** The call failed: the tables have lost, at most, translations outside all
    regions. *)
Definition undone (s : pmm) a (s' : pmm) (a' : aspace A) : Prop :=
  taken s s' [] ∧ (∃ x, a' = with_arch x a) ∧ regions_keep tr (region_list a) (arch_aspace a) (arch_aspace a') ∧
  ∀ v, tr (arch_aspace a') v ≠ tr (arch_aspace a) v → tr (arch_aspace a') v = None.

(** The region [r] was added at the lowest place that will do, with the pages
    taken from [s]; nothing else changed. *)
Definition added (s : pmm) a (mem ptr : option Z) (size align_pow2 vmm_flags : Z) (r : region) (s' : pmm) (a' : aspace A) : Prop :=
  ∃ l1 l2 vaddr, region_list a = l1 ++ l2 ∧ a' = with_arch (arch_aspace a') (with_regions (l1 ++ r :: l2) a) ∧
    mem = Some (r_addr r) ∧ r_size r = size ∧ requested_vaddr ptr vmm_flags = Some vaddr ∧
    placeable a size vaddr align_pow2 vmm_flags (r_base r) ∧
    (∀ v, placeable a size vaddr align_pow2 vmm_flags v → r_base r ≤ v) ∧
    taken s s' (r_page_list r) ∧ ∀ v, ¬ covers r v → tr (arch_aspace a') v = tr (arch_aspace a) v.

(** No structure from the heap or no place. *)
Definition no_room a (mem ptr : option Z) (size align_pow2 vmm_flags : Z) : Prop :=
  mem = None ∨ ∃ vaddr, requested_vaddr ptr vmm_flags = Some vaddr ∧ ∀ v, ¬ placeable a size vaddr align_pow2 vmm_flags v.

Lemma with_arch_id a : with_arch (arch_aspace a) a = a.
Proof. by destruct a. Qed.

Lemma undone_pages s a s' : taken s s' [] → undone s a s' a.
Proof. intros Ht. split_and!; [done|exists (arch_aspace a); by rewrite with_arch_id|done|done]. Qed.

(** The invariant after a failure. *)
Lemma undone_ainv s a s' a' : ainv s a → spans (arch_aspace a') (as_base a) (as_limit a) → undone s a s' a' → ainv s' a'.
Proof.
  intros Ha Hsp (Ht & (x & ->) & Hk & _). simpl in *.
  replace (with_arch x a) with (with_arch x (with_regions (region_list a) a)) by (by destruct a).
  eapply ainv_part; try done; [|apply Ha|by eapply taken_frame]. destruct Ha as [[? ? ?] _ _ _ _ _]. by split.
Qed.

(** Removing a region that is not kept undoes what was mapped in its range. *)
Lemma unmap_undone s a l1 r l2 s' x1 :
  ainv s a → region_list a = l1 ++ l2 → awf (with_regions (l1 ++ r :: l2) a) → r_size r < 2 ^ 44 →
  spans x1 (as_base a) (as_limit a) → (∀ v, ¬ covers r v → tr x1 v = tr (arch_aspace a) v) → taken s s' [] →
  let x2 := arch_mmu_unmap mmu x1 (r_base r) (u32 (r_size r / PAGE_SIZE)) in
  undone s a s' (with_arch x2 a) ∧ ainv s' (with_arch x2 a).
Proof.
  intros Ha E Hw Hs Hsp Htr Ht x2.
  assert (r ∈ l1 ++ r :: l2) as Hin by set_solver.
  destruct (laid_out_bounds _ _ _ _ (aw_regions _ Hw) Hin) as (Hlo & H0 & Hpb & [n Hn] & Hhi). simpl in *.
  assert (r_size r / PAGE_SIZE = n) as En by (rewrite Hn; by apply Z.div_mul).
  assert (0 ≤ n < 2 ^ 32) as Hn' by (unfold PAGE_SIZE in Hn; lia).
  assert (∀ v, tr x2 v = if (r_base r <=? v) && (v <? r_limit r) then None else tr x1 v) as Hx2.
  { intros v. unfold x2. rewrite En, u32_small by lia.
    rewrite (mmu_unmap_tr x1 (as_base a) (as_limit a)); rewrite <- ?Hn; done || lia. }
  assert (spans x2 (as_base a) (as_limit a)) as Hsp2 by (by apply mmu_unmap_spans).
  assert (undone s a s' (with_arch x2 a)) as Hun; [|split; [done|by eapply undone_ainv]].
  split_and!; [done|by exists x2| |].
  - intros r' v Hr' Hv. simpl. rewrite E in Hr'. pose proof (others_apart _ l1 r l2 r' v Hw eq_refl Hr' Hv) as Hnc.
    rewrite Hx2. unfold covers in Hnc. destruct (Z.leb_spec (r_base r) v), (Z.ltb_spec v (r_limit r)); simpl; try lia; by apply Htr.
  - intros v. simpl. rewrite Hx2. unfold covers in Htr.
    destruct (Z.leb_spec (r_base r) v), (Z.ltb_spec v (r_limit r)); simpl; try done; rewrite Htr by lia; done.
Qed.

(** ** vmm_alloc *)

Lemma pages_step n s :
  pinv s → 0 < n →
  ∃ count ps s1, pmm_alloc_pages (u32 n) [] s = Ok (count, ps, s1) ∧ taken s s1 ps ∧ zlen ps = count ∧
    count ≤ n ∧ (count < n → zlen (free_pages s) < n ∨ 2 ^ 32 ≤ n) ∧ (count = n → n < 2 ^ 32).
Proof.
  intros Hp Hn. pose proof (u32_range n). pose proof (zlen_nonneg (free_pages s)).
  assert (u32 n ≤ n) as Hle by (unfold u32; apply Z.mod_le; lia).
  destruct (pmm_alloc_pages_ok (u32 n) [] s Hp ltac:(lia)) as (s1 & E & Hp1 & Hg & Hf).
  set (c := Z.min (u32 n) (zlen (free_pages s))) in *. exists c, (ztake c (free_pages s)), s1.
  split_and!; [done| |apply zlen_ztake; lia|lia| |].
  - split_and!; [done..|]. rewrite Hf. unfold ztake, zdrop. by rewrite take_drop.
  - intros Hc. destruct (Z.lt_ge_cases n (2 ^ 32)); [|by right]. left.
    assert (u32 n = n) by (apply u32_small; lia). unfold c in Hc. lia.
  - intros Hc. destruct (Z.lt_ge_cases n (2 ^ 32)); [done|]. lia.
Qed.

Lemma taken_paged s s1 ps : taken s s1 ps → Forall (λ p, paged (vm_page_to_paddr s1 p)) ps.
Proof.
  intros Ht. destruct (taken_all_in_use _ _ _ Ht) as [_ Hu]. destruct Ht as (_ & Hp & _). eapply Forall_impl; [done|].
  intros p [Hpg _]. by apply vm_page_to_paddr_ok.
Qed.

(** From the new region [r] on: the pages are mapped, or everything is undone. *)
Lemma vmm_alloc_map s s1 a l1 r l2 fl ps :
  ainv s a → region_list a = l1 ++ l2 → awf (with_regions (l1 ++ r :: l2) a) →
  r_size r = zlen ps * PAGE_SIZE → zlen ps < 2 ^ 32 → r_page_list r = [] → taken s s1 ps →
  ∃ err x mapped rest, map_pages mmu s1 r fl ps (r_base r) [] (arch_aspace a) = Ok (err, x, mapped, rest) ∧
    let a1 := with_arch x (with_regions (put_region (with_pages mapped r) (l1 ++ r :: l2)) (with_regions (l1 ++ r :: l2) a)) in
    if err <? NO_ERROR then
      ∃ a' s2 s', remove_new_region mmu a1 r = Ok a' ∧ pmm_free mapped s1 = Ok (zlen mapped, s2) ∧
        pmm_free rest s2 = Ok (zlen rest, s') ∧ undone s a s' a' ∧ ainv s' a' ∧
        ∃ y va pa, fst (arch_mmu_map mmu y va pa 1 fl) = err
    else let r' := with_pages ps r in
      a1 = with_arch x (with_regions (l1 ++ r' :: l2) a) ∧ ainv s1 a1 ∧ backed tr x s1 r' ∧
      ∀ v, ¬ covers r v → tr x v = tr (arch_aspace a) v.
Proof.
  intros Ha E Hw Hsz Hlt Hnil Ht. pose proof Ha as [Hwa Hspa _ _ _ _]. destruct Hwa as [[[H0 _] [Hm _] _] _ _].
  assert (r ∈ l1 ++ r :: l2) as Hin by set_solver.
  destruct (laid_out_bounds _ _ _ _ (aw_regions _ Hw) Hin) as (Hlo & Hs & Hpb & Hps & Hhi). simpl in Hlo.
  change (as_limit (with_regions _ a)) with (as_limit a) in Hhi.
  destruct (map_pages_ok mmu tr spans s1 r fl (as_base a) (as_limit a) ps [] (arch_aspace a))
    as (err & x & mapped & rest & Emap & Hsp & Htr & Hres); try done.
  { by eapply taken_paged. }
  { intros i p Hi. by rewrite znth_ge. }
  change (zlen []) with 0 in Emap. rewrite Z.mul_0_l, Z.add_0_r, u64_small in Emap by (unfold r_limit in *; lia).
  exists err, x, mapped, rest. split; [done|]. cbv zeta.
  rewrite (put_region_at r) by (apply Hw || done). destruct (err <? NO_ERROR).
  - destruct Hres as [Hres Hmmu]. simpl in Hres. assert (taken s s1 (mapped ++ rest)) as Ht'.
    { destruct Ht as (? & ? & ? & Hf). split_and!; try done. by rewrite Hres. }
    destruct (taken_free s s1 mapped rest Ht') as (s2 & E2 & Ht2).
    destruct (taken_free s s2 rest []) as (s' & E3 & Ht3); [by rewrite app_nil_r|].
    rewrite (remove_new_ok mmu _ l1 (with_pages mapped r) l2); try done.
    2: { apply awf_arch. by apply (awf_replace (with_regions (l1 ++ r :: l2) a) l1 r). }
    eexists _, s2, s'. split_and!; [done..| | |done]; simpl.
    all: replace (with_arch _ _) with (with_arch (arch_mmu_unmap mmu x (r_base r) (u32 (r_size r / PAGE_SIZE))) a)
      by (destruct a; simpl in *; by rewrite E).
    all: eapply (unmap_undone s a l1 r l2 s' x); try done; unfold PAGE_SIZE in *; lia.
  - destruct Hres as (-> & -> & -> & Hmaps). split_and!; [done| | |done].
    + eapply (ainv_insert mmu tr spans s s1 a l1 (with_pages ps r) l2 x); try done.
      * by apply (awf_replace (with_regions (l1 ++ r :: l2) a) l1 r).
      * right. split; [|done]. simpl. rewrite Hsz. symmetry. by apply Z.div_mul.
    + split; [|done]. simpl. rewrite Hsz. symmetry. by apply Z.div_mul.
Qed.

Lemma page_size_range size : 0 ≤ ROUNDUP size PAGE_SIZE < 2 ^ 64 ∧ paged (ROUNDUP size PAGE_SIZE).
Proof.
  unfold ROUNDUP. change PAGE_SIZE with (2 ^ 12). rewrite land_lnot_ones by done.
  pose proof (u64_range (size + (2 ^ 12 - 1))). split; [|by eexists; rewrite Z.mul_comm].
  pose proof (Z.mul_div_le (u64 (size + (2 ^ 12 - 1))) (2 ^ 12)). pose proof (Z.div_pos (u64 (size + (2 ^ 12 - 1))) (2 ^ 12)). lia.
Qed.

(** Why an allocation of [size] bytes fails. *)
Definition alloc_reason (s : pmm) a (mem ptr : option Z) (size align_pow2 vmm_flags mmu_flags err : Z) : Prop :=
  (err = ERR_INVALID_ARGS ∧ (size = 0 ∨ requested_vaddr ptr vmm_flags = None)) ∨
  (err = ERR_NO_MEMORY ∧
    (zlen (free_pages s) < size / PAGE_SIZE ∨ 2 ^ 32 ≤ size / PAGE_SIZE ∨ no_room a mem ptr size align_pow2 vmm_flags)) ∨
  (err < 0 ∧ ∃ x va pa, fst (arch_mmu_map mmu x va pa 1 mmu_flags) = err).

(** What a call that asked for [sz] bytes of memory returned. *)
Definition alloc_outcome (s : pmm) a (mem ptr : option Z) (sz align_pow2 vmm_flags mmu_flags : Z)
    (res : Z * option Z * aspace A * pmm) : Prop :=
  let '(err, ptr', a', s') := res in
  ainv s' a' ∧
  ((err = NO_ERROR ∧ ∃ r, ptr' = store_ptr ptr (r_base r) ∧ backed tr (arch_aspace a') s' r ∧
      added s a mem ptr sz align_pow2 vmm_flags r s' a') ∨
   (ptr' = ptr ∧ undone s a s' a' ∧ alloc_reason s a mem ptr sz align_pow2 vmm_flags mmu_flags err)).

(** Refused before the address space was changed. *)
Lemma refused s a mem ptr sz align_pow2 vmm_flags mmu_flags err s' :
  ainv s a → taken s s' [] → alloc_reason s a mem ptr sz align_pow2 vmm_flags mmu_flags err →
  alloc_outcome s a mem ptr sz align_pow2 vmm_flags mmu_flags (err, ptr, a, s').
Proof.
  intros Ha Ht Hr. split; [eapply undone_ainv; [done|apply Ha|by apply undone_pages]|]. right.
  split_and!; [done|by apply undone_pages|done].
Qed.

(** The region was allocated, with the pages [ps] at hand. *)
Lemma vmm_alloc_region s s1 a mem name n ptr vaddr align_pow2 vmm_flags mmu_flags ps :
  let sz := n * PAGE_SIZE in
  ainv s a → request_ok a mem ptr align_pow2 vmm_flags → requested_vaddr ptr vmm_flags = Some vaddr →
  0 < n < 2 ^ 32 → zlen ps = n → taken s s1 ps →
  ∃ out, ('(o, a) ← alloc_region a mem name sz vaddr align_pow2 vmm_flags VMM_REGION_FLAG_PHYSICAL mmu_flags;
    match o with
    | None => '(_, s) ← pmm_free ps s1; Ok (ERR_NO_MEMORY, ptr, a, s)
    | Some r =>
        assert_ (IS_PAGE_ALIGNED (r_base r));;
        '(err, x, mapped, page_list) ← map_pages mmu s1 r mmu_flags ps (r_base r) [] (arch_aspace a);
        let a := with_arch x (with_regions (put_region (with_pages mapped r) (region_list a)) a) in
        if err <? NO_ERROR then
          a ← remove_new_region mmu a r;
          '(_, s) ← pmm_free mapped s1;
          '(_, s) ← pmm_free page_list s;
          Ok (err, ptr, a, s)
        else Ok (NO_ERROR, store_ptr ptr (r_base r), a, s1)
    end) = Ok out ∧ alloc_outcome s a mem ptr sz align_pow2 vmm_flags mmu_flags out.
Proof.
  intros sz Ha [Hmem Hal Hpl] Erq Hn Hlen Ht.
  destruct (taken_free s s1 ps []) as (s2 & E2 & Ht2); [by rewrite app_nil_r|].
  assert (paged sz) as Hp by (by exists n). assert (0 < sz < 2 ^ 64) as Hr by (unfold sz, PAGE_SIZE; lia).
  destruct (alloc_region_ok a mem name sz vaddr align_pow2 vmm_flags VMM_REGION_FLAG_PHYSICAL mmu_flags)
    as [[E3 Hno]|(addr & v & l1 & l2 & Em & Hv & Hpv & Hleast & El & E3 & Hw)]; try done; [apply Ha|by apply Hpl| |];
    rewrite E3; cbn [mbind res_bind].
  { rewrite E2. cbn [mbind res_bind]. eexists. split; [done|]. apply refused; [done|done|]. right. left. split; [done|].
    right. right. destruct Hno; [by left|right; eauto]. }
  set (r := mk_region addr _ _ _ v sz []) in *. change (IS_PAGE_ALIGNED (r_base r)) with (IS_PAGE_ALIGNED v).
  rewrite (proj2 (IS_PAGE_ALIGNED_iff v)) by done. cbn [assert_ mbind res_bind].
  destruct (vmm_alloc_map s s1 a l1 r l2 mmu_flags ps) as (err & x & mapped & rest & E4 & Hres); try done;
    [by rewrite Hlen|by rewrite Hlen; apply Hn|].
  cbn [arch_aspace with_regions]. rewrite E4. cbn [mbind res_bind]. cbn [region_list with_regions] in *.
  destruct (Z.ltb_spec err NO_ERROR) as [He|He].
  - destruct Hres as (a' & s3 & s' & E5 & E6 & E7 & Hun & Hinv & Hmm). rewrite E5. cbn [mbind res_bind].
    rewrite E6. cbn [mbind res_bind]. rewrite E7. cbn [mbind res_bind]. eexists. split; [done|]. split; [done|].
    right. split_and!; [done..|]. right. right. done.
  - destruct Hres as (E5 & Hinv & Hb & Htr). eexists. split; [done|]. split; [done|]. left. split; [done|].
    exists (with_pages ps r). rewrite E5 in *. split_and!; [done|done|]. exists l1, l2, vaddr. split_and!; done.
Qed.

Lemma vmm_alloc_ok s a mem name size ptr align_pow2 vmm_flags mmu_flags :
  ainv s a → request_ok a mem ptr align_pow2 vmm_flags →
  ∃ out, vmm_alloc mmu a mem name size ptr align_pow2 vmm_flags mmu_flags s = Ok out ∧
    alloc_outcome s a mem ptr (ROUNDUP size PAGE_SIZE) align_pow2 vmm_flags mmu_flags out.
Proof.
  intros Ha Hrq. unfold vmm_alloc. destruct (page_size_range size) as [Hr Hp]. set (sz := ROUNDUP size PAGE_SIZE) in *.
  pose proof (ai_pmm _ _ _ _ Ha) as Hps.
  destruct (Z.eqb_spec sz 0) as [Hz|Hnz]; [eexists; split; [done|]; apply refused; [done..|]; left; auto|].
  destruct (requested_vaddr ptr vmm_flags) as [vaddr|] eqn:Erq; [|eexists; split; [done|]; apply refused; [done..|]; left; auto].
  destruct Hp as [n Hn]. rewrite Hn. rewrite (Z.div_mul n PAGE_SIZE) by done.
  assert (0 < n) as Hn0 by (unfold PAGE_SIZE in Hn; lia).
  destruct (pages_step n s Hps Hn0) as (count & ps & s1 & E1 & Ht & Hlen & Hle & Hfew & Hall). rewrite E1. cbn [mbind res_bind].
  rewrite (proj2 (Z.leb_le count n)) by done. cbn [assert_ mbind res_bind].
  destruct (Z.ltb_spec count n) as [Hc|Hc].
  - destruct (taken_free s s1 ps []) as (s2 & E2 & Ht2); [by rewrite app_nil_r|].
    rewrite E2. cbn [mbind res_bind]. eexists. split; [done|]. apply refused; [done..|]. right. left. split; [done|].
    rewrite (Z.div_mul n PAGE_SIZE) by done. destruct (Hfew Hc); auto.
  - assert (count = n) as -> by lia. eapply vmm_alloc_region; try done. auto.
Qed.

(** C12: [vmm_alloc] with its size rounded up to pages either adds one region, at
    the lowest place that is free and aligned or at the place asked for, backed
    page by page by free pages that become its own and to which its addresses
    translate; or it returns an error, for a reason named, and the regions, their
    translations and the free pages are as before.  The invariant holds in either
    case and no assertion fails. *)
Theorem vmm_alloc_spec s a mem name size ptr align_pow2 vmm_flags mmu_flags :
  ainv s a → request_ok a mem ptr align_pow2 vmm_flags →
  ∃ out, vmm_alloc mmu a mem name size ptr align_pow2 vmm_flags mmu_flags s = Ok out ∧
    alloc_outcome s a mem ptr (ROUNDUP size PAGE_SIZE) align_pow2 vmm_flags mmu_flags out.
Proof. apply vmm_alloc_ok. Qed.

(** ** vmm_free_region *)

(** The end of the addresses that are unmapped: the count of pages has 32 bits. *)
Definition unmap_limit (r : region) : Z := r_base r + u32 (r_size r / PAGE_SIZE) * PAGE_SIZE.

Lemma unmap_limit_ok r : paged (r_size r) → 0 < r_size r → r_base r ≤ unmap_limit r ≤ r_limit r.
Proof.
  intros [n Hn] H0. unfold unmap_limit, r_limit. rewrite Hn, (Z.div_mul n PAGE_SIZE) by done.
  assert (0 < n) by (unfold PAGE_SIZE in Hn; lia). pose proof (u32_range n).
  assert (u32 n ≤ n) by (apply Z.mod_le; lia). unfold PAGE_SIZE. lia.
Qed.

Lemma unmap_limit_small r : paged (r_size r) → 0 < r_size r < 2 ^ 44 → unmap_limit r = r_limit r.
Proof.
  intros [n Hn] H0. unfold unmap_limit, r_limit. rewrite Hn, (Z.div_mul n PAGE_SIZE), u32_small; [done| |done].
  unfold PAGE_SIZE in Hn. lia.
Qed.

Lemma unmap_region_tr a r w :
  awf a → spans (arch_aspace a) (as_base a) (as_limit a) → r ∈ region_list a →
  tr (arch_mmu_unmap mmu (arch_aspace a) (r_base r) (u32 (r_size r / PAGE_SIZE))) w =
    if (r_base r <=? w) && (w <? unmap_limit r) then None else tr (arch_aspace a) w.
Proof.
  intros Hw Hsp Hin. destruct (laid_out_bounds _ _ _ _ (aw_regions _ Hw) Hin) as (Hlo & H0 & Hpb & Hps & Hhi).
  pose proof (unmap_limit_ok r Hps H0) as Hu. unfold unmap_limit in *.
  rewrite (mmu_unmap_tr (arch_aspace a) (as_base a) (as_limit a)); [done..| |lia|lia]. apply u32_range.
Qed.

Lemma free_region_ok s a l1 r l2 v :
  ainv s a → region_list a = l1 ++ r :: l2 → covers r v →
  ∃ x s', vmm_free_region mmu a v s = Ok (NO_ERROR, with_arch x (with_regions (l1 ++ l2) a), s') ∧
    ainv s' (with_arch x (with_regions (l1 ++ l2) a)) ∧ taken s' s (r_page_list r) ∧
    ∀ v, tr x v = if (r_base r <=? v) && (v <? unmap_limit r) then None else tr (arch_aspace a) v.
Proof.
  intros Ha E Hc. pose proof Ha as [Hw Hsp Hp Hn Hu _]. unfold vmm_free_region.
  rewrite (remove_region_ok mmu a l1 r l2 v Hw E Hc). rewrite E, pages_of_middle in Hn, Hu.
  apply NoDup_app in Hn as (Hn1 & Hd & Hn2). apply Forall_app in Hu as [Hu1 Hu2].
  destruct (pmm_free_ok (r_page_list r) s Hp Hn1 Hu1) as (s' & Ef & Hp' & Hg & Hf). rewrite Ef. cbn [mbind res_bind].
  set (x := arch_mmu_unmap mmu _ _ _). exists x, s'. assert (taken s' s (r_page_list r)) as Ht by (split_and!; done).
  assert (awf (with_regions (l1 ++ r :: l2) a)) as Hwr by (rewrite <- E; by destruct a).
  assert (r ∈ region_list a) as Hin by (rewrite E; set_solver).
  destruct (laid_out_bounds _ _ _ _ (aw_regions _ Hw) Hin) as (_ & H0 & _ & Hps & _).
  pose proof (λ w, unmap_region_tr a r w Hw Hsp Hin) as Htr. pose proof (unmap_limit_ok r Hps H0) as Hul.
  split_and!; [done| |done|done].
  eapply (ainv_without tr spans s s' a l1 r l2); try done.
  - rewrite E. set_solver.
  - by apply mmu_unmap_spans.
  - intros w Hw'. change (tr x w = tr (arch_aspace a) w). unfold x. rewrite Htr. unfold covers in Hw'.
    destruct (Z.leb_spec (r_base r) w), (Z.ltb_spec w (unmap_limit r)); done || lia.
  - split_and!; [done..|]. intros p Hpl Hup. apply (given_keeps s s' (r_page_list r)); [done..|]. intros Hpr. by apply (Hd p).
Qed.

(** [vmm_free_region] finds the region that has the address, takes it off the
    list, clears the translations of its addresses and no others, and returns its
    pages to the free pages; at an address of no region it changes nothing. *)
Theorem vmm_free_region_spec s a v :
  ainv s a → Forall (λ r, r_size r < 2 ^ 44) (region_list a) →
  match vmm_find_region a v with
  | None => vmm_free_region mmu a v s = Ok (ERR_NOT_FOUND, a, s) ∧ ∀ r, r ∈ region_list a → ¬ covers r v
  | Some r =>
      covers r v ∧ ∃ l1 l2 x s', region_list a = l1 ++ r :: l2 ∧
        let a' := with_arch x (with_regions (l1 ++ l2) a) in
        vmm_free_region mmu a v s = Ok (NO_ERROR, a', s') ∧ ainv s' a' ∧ taken s' s (r_page_list r) ∧
        ∀ v, tr x v = if (r_base r <=? v) && (v <? r_limit r) then None else tr (arch_aspace a) v
  end.
Proof.
  intros Ha Hs. pose proof Ha as [[Hg Hl _] _ _ _ _ _]. pose proof (find_region_ok _ _ _ v Hg Hl) as H.
  unfold vmm_find_region. destruct (find_region _ v) as [r|].
  - destruct H as [Hr Hc]. split; [done|]. pose proof Hr as (l1 & l2 & E)%list_elem_of_split.
    rewrite Forall_forall in Hs. destruct (free_region_ok s a l1 r l2 v Ha E Hc) as (x & s' & E1 & Hinv & Ht & Htr).
    destruct (laid_out_bounds _ _ _ _ Hl Hr) as (_ & H0 & _ & Hps & _).
    rewrite unmap_limit_small in Htr by (done || by split; [|apply Hs]). exists l1, l2, x, s'. split_and!; done.
  - split; [|done]. unfold vmm_free_region. rewrite remove_region_none; [done|apply Ha|done].
Qed.


(** ** Mapping a range of physical memory *)

Lemma map_range_ok s a l1 r l2 pa n fl :
  ainv s a → region_list a = l1 ++ l2 → awf (with_regions (l1 ++ r :: l2) a) →
  r_size r = n * PAGE_SIZE → 0 < n < 2 ^ 32 → paged pa →
  let '(err, x) := arch_mmu_map mmu (arch_aspace a) (r_base r) pa n fl in
  spans x (as_base a) (as_limit a) ∧ (∀ v, ¬ covers r v → tr x v = tr (arch_aspace a) v) ∧
  if err <? NO_ERROR then
    ∃ x2, remove_new_region mmu (with_arch x (with_regions (l1 ++ r :: l2) a)) r = Ok (with_arch x2 a) ∧
      ∀ s', taken s s' [] → undone s a s' (with_arch x2 a) ∧ ainv s' (with_arch x2 a)
  else ∀ i, 0 ≤ i < n → tr x (r_base r + i * PAGE_SIZE) = Some (pa + i * PAGE_SIZE).
Proof.
  intros Ha E Hw Hsz Hn Hpa. assert (r ∈ l1 ++ r :: l2) as Hin by set_solver.
  destruct (laid_out_bounds _ _ _ _ (aw_regions _ Hw) Hin) as (Hlo & Hs & Hpb & Hps & Hhi).
  change (as_limit (with_regions _ a)) with (as_limit a) in Hhi. simpl in Hlo. unfold r_limit in Hhi. rewrite Hsz in Hhi.
  pose proof (range_map mmu tr spans (arch_aspace a) (as_base a) (as_limit a) (r_base r) pa n fl (ai_spans _ _ _ _ Ha) Hpb Hpa Hn Hlo Hhi) as H.
  destruct (arch_mmu_map mmu (arch_aspace a) (r_base r) pa n fl) as [err x]. destruct H as (Hsp & Hin' & Hout).
  assert (∀ v, ¬ covers r v → tr x v = tr (arch_aspace a) v) as Htr.
  { intros v Hv. apply Hout. unfold covers, r_limit in Hv. rewrite Hsz in Hv. done. }
  split_and!; [done..|]. destruct (Z.ltb_spec err NO_ERROR) as [He|He]; [|by apply Hin'].
  eexists. split; [rewrite (remove_new_ok mmu _ l1 r l2); [|by apply awf_arch|done..]|].
  { simpl. unfold with_arch, with_regions. simpl. rewrite <- E. done. }
  intros s' Ht. eapply unmap_undone; try done. unfold PAGE_SIZE in Hsz. lia.
Qed.

(** [vmm_alloc_physical] adds a region without pages of its own, at the place
    asked for or the lowest one, whose addresses translate to the physical range
    in order; or it returns an error and undoes what it did. *)
Theorem vmm_alloc_physical_spec s a mem name size ptr align_log2 paddr vmm_flags mmu_flags :
  ainv s a → request_ok a mem ptr align_log2 vmm_flags → 0 < size < 2 ^ 44 → paged size → paged paddr →
  ∃ err ptr' a', vmm_alloc_physical mmu a mem name size ptr align_log2 paddr vmm_flags mmu_flags = Ok (err, ptr', a') ∧ ainv s a' ∧
    ((err = NO_ERROR ∧ ∃ r, ptr' = store_ptr ptr (r_base r) ∧ r_page_list r = [] ∧ added s a mem ptr size align_log2 vmm_flags r s a' ∧
        ∀ i, 0 ≤ i < size / PAGE_SIZE → tr (arch_aspace a') (r_base r + i * PAGE_SIZE) = Some (paddr + i * PAGE_SIZE)) ∨
     (undone s a s a' ∧
       ((err = ERR_INVALID_ARGS ∧ requested_vaddr ptr vmm_flags = None ∧ ptr' = ptr) ∨
        (err = ERR_NO_MEMORY ∧ no_room a mem ptr size align_log2 vmm_flags ∧ ptr' = ptr) ∨
        (err < 0 ∧ ∃ va, fst (arch_mmu_map mmu (arch_aspace a) va paddr (size / PAGE_SIZE) mmu_flags) = err)))).
Proof.
  intros Ha [Hmem Hal Hpl] Hs Hp Hpa. pose proof (ai_pmm _ _ _ _ Ha) as Hps. unfold vmm_alloc_physical.
  rewrite (proj2 (IS_PAGE_ALIGNED_iff paddr)), (proj2 (IS_PAGE_ALIGNED_iff size)) by done. cbn [assert_ mbind res_bind negb orb].
  rewrite (proj2 (Z.eqb_neq size 0)) by lia. destruct (requested_vaddr ptr vmm_flags) as [vaddr|] eqn:Erq.
  2: { eexists _, _, _. split; [done|]. split; [done|]. right. split; [by apply undone_pages|]. auto. }
  destruct (alloc_region_ok a mem (default EmptyString name) size vaddr align_log2 vmm_flags VMM_REGION_FLAG_PHYSICAL mmu_flags)
    as [[E3 Hno]|(addr & v & l1 & l2 & Em & Hv & Hpv & Hleast & El & E3 & Hw)]; try done; try lia; [apply Ha|by apply Hpl| |];
    rewrite E3; cbn [mbind res_bind].
  { eexists _, _, _. split; [done|]. split; [done|]. right. split; [by apply undone_pages|]. right. left.
    split_and!; [done| |done]. destruct Hno; [by left|right; eauto]. }
  set (r := mk_region addr _ _ _ v size []) in *. destruct Hp as [n Hn].
  assert (size / PAGE_SIZE = n) as En by (rewrite Hn; by apply Z.div_mul). rewrite En.
  assert (0 < n < 2 ^ 32) as Hnr by (unfold PAGE_SIZE in Hn; lia). rewrite u32_small by lia.
  pose proof (map_range_ok s a l1 r l2 paddr n mmu_flags Ha El Hw Hn Hnr Hpa) as H. cbn [arch_aspace with_regions].
  destruct (arch_mmu_map mmu (arch_aspace a) (r_base r) paddr n mmu_flags) as [err x] eqn:Emap. destruct H as (Hsp & Htr & Hres).
  destruct (Z.ltb_spec err NO_ERROR) as [He|He].
  - destruct Hres as (x2 & E5 & Hun). destruct (Hun s (taken_refl s Hps)) as [Hun' Hinv]. rewrite E5. cbn [mbind res_bind].
    eexists _, _, _. split; [done|]. split; [done|]. right. split; [done|]. right. right. split; [done|].
    exists (r_base r). by rewrite Emap.
  - eexists _, _, _. split; [done|]. split.
    { eapply (ainv_insert mmu tr spans s s a l1 r l2 x); try done. by left. }
    left. split; [done|]. exists r. split_and!; [done..| |done]. exists l1, l2, vaddr. split_and!; done.
Qed.

(** ** vmm_alloc_contiguous *)

Definition contiguous (s : pmm) (pa : Z) (ps : list Z) : Prop :=
  ∀ i p, 0 ≤ i → znth ps i = Some p → vm_page_to_paddr s p = pa + i * PAGE_SIZE.

Lemma run_step n al s :
  pinv s → 0 < n < 2 ^ 31 → 0 ≤ al ≤ 31 →
  (∃ ps pa s1, pmm_alloc_contiguous n al [] s = Ok (n, Some pa, ps, s1) ∧ taken s s1 ps ∧ zlen ps = n ∧
    paged pa ∧ (2 ^ spot_log2 al | pa) ∧ contiguous s1 pa ps) ∨
  (pmm_alloc_contiguous n al [] s = Ok (0, None, [], s) ∧ no_run (arena_list s) (page_flags s) (spot_log2 al) n).
Proof.
  intros Hp Hn Hal. change (spot_log2 al) with (Z.max 12 al).
  destruct (pmm_alloc_contiguous_ok n al s Hp Hn Hal) as [(ps & pa & s1 & E & Hp1 & Hr & _)|?]; [left|by right].
  destruct Hr as (ar & st & Har & _ & (Hst & Hend & Hdiv) & _ & Epa & Eps & Hg & Hf).
  exists ps, pa, s1. split_and!; [done|split_and!; done| | |by rewrite Epa|].
  - rewrite Eps. unfold zlen. rewrite length_fmap, length_seqZ. lia.
  - rewrite Epa. apply (paged_pow (Z.max 12 al)); [lia|done].
  - intros i p Hi Hz. rewrite (vm_page_to_paddr_geo s s1) by done. rewrite Eps, znth_lookup, list_lookup_fmap_Some in Hz by done.
    destruct Hz as (j & -> & Ej). apply lookup_seqZ in Ej as [-> Hj]. unfold vm_page_to_paddr.
    rewrite (vm_page_to_paddr_in_ok _ _ ar _ (pi_arenas _ Hp) Har) by lia. rewrite Epa. unfold PAGE_SIZE. lia.
Qed.

(** [vmm_alloc_contiguous] with its size rounded up to pages adds a region
    backed by a run of free pages that are contiguous from an address with the
    alignment asked for, or returns an error and undoes what it did. *)
Theorem vmm_alloc_contiguous_spec s a mem name size ptr align_pow2 vmm_flags mmu_flags :
  let sz := ROUNDUP size PAGE_SIZE in
  ainv s a → request_ok a mem ptr align_pow2 vmm_flags → align_pow2 ≤ 31 → 0 < sz < 2 ^ 43 →
  ∃ err ptr' a' s', vmm_alloc_contiguous mmu a mem name size ptr align_pow2 vmm_flags mmu_flags s = Ok (err, ptr', a', s') ∧ ainv s' a' ∧
    ((err = NO_ERROR ∧ ∃ r pa, ptr' = store_ptr ptr (r_base r) ∧ backed tr (arch_aspace a') s' r ∧
        contiguous s' pa (r_page_list r) ∧ (2 ^ spot_log2 align_pow2 | pa) ∧ added s a mem ptr sz align_pow2 vmm_flags r s' a') ∨
     (undone s a s' a' ∧
       ((err = ERR_INVALID_ARGS ∧ requested_vaddr ptr vmm_flags = None) ∨
        (err = ERR_NO_MEMORY ∧ (no_room a mem ptr sz align_pow2 vmm_flags ∨
          no_run (arena_list s) (page_flags s) (spot_log2 align_pow2) (sz / PAGE_SIZE))) ∨
        (err < 0 ∧ ∃ va pa, fst (arch_mmu_map mmu (arch_aspace a) va pa (sz / PAGE_SIZE) mmu_flags) = err)))).
Proof.
  intros sz Ha [Hmem Hal Hpl] Hal' Hs. pose proof (ai_pmm _ _ _ _ Ha) as Hps. unfold vmm_alloc_contiguous. fold sz.
  assert (∀ s', taken s s' [] → ainv s' a) as Hback by (intros; eapply undone_ainv; [done|apply Ha|by apply undone_pages]).
  rewrite (proj2 (Z.eqb_neq sz 0)) by lia. destruct (requested_vaddr ptr vmm_flags) as [vaddr|] eqn:Erq.
  2: { eexists _, _, _, _. split; [done|]. split; [done|]. right. split; [by apply undone_pages|]. auto. }
  destruct (page_size_range size) as [_ Hp]. fold sz in Hp. pose proof Hp as [n Hn].
  assert (sz / PAGE_SIZE = n) as En by (rewrite Hn; by apply Z.div_mul). rewrite !En.
  assert (0 < n < 2 ^ 31) as Hnr by (unfold PAGE_SIZE in Hn; lia). rewrite u32_small by lia.
  destruct (run_step n align_pow2 s Hps Hnr ltac:(lia)) as [(ps & pa & s1 & E1 & Ht & Hlen & Hpa & Hdiv & Hco)|[E1 Hno]];
    rewrite E1; cbn [mbind res_bind].
  2: { rewrite (proj2 (Z.ltb_lt 0 n)) by lia. cbn [Z.eqb assert_ mbind res_bind]. eexists _, _, _, _. split; [done|].
       split; [done|]. right. split; [by apply undone_pages|]. auto. }
  rewrite Z.ltb_irrefl. destruct (taken_free s s1 ps []) as (s2 & E2 & Ht2); [by rewrite app_nil_r|].
  destruct (alloc_region_ok a mem (default EmptyString name) sz vaddr align_pow2 vmm_flags VMM_REGION_FLAG_PHYSICAL mmu_flags)
    as [[E3 Hno]|(addr & v & l1 & l2 & Em & Hv & Hpv & Hleast & El & E3 & Hw)]; try done; try lia; [apply Ha|by apply Hpl| |];
    rewrite E3; cbn [mbind res_bind].
  { rewrite E2. cbn [mbind res_bind]. eexists _, _, _, _. split; [done|]. split; [by apply Hback|]. right.
    split; [by apply undone_pages|]. right. left. split; [done|]. left. destruct Hno; [by left|right; eauto]. }
  set (r := mk_region addr _ _ _ v sz []) in *. cbn [arch_aspace with_regions default from_option]. unfold id.
  pose proof (map_range_ok s a l1 r l2 pa n mmu_flags Ha El Hw Hn ltac:(lia) Hpa) as H.
  destruct (arch_mmu_map mmu (arch_aspace a) (r_base r) pa n mmu_flags) as [err x] eqn:Emap. destruct H as (Hsp & Htr & Hres).
  destruct (Z.ltb_spec err NO_ERROR) as [He|He].
  - destruct Hres as (x2 & E5 & Hun). destruct (Hun s2 Ht2) as [Hun' Hinv]. rewrite E5. cbn [mbind res_bind].
    rewrite E2. cbn [mbind res_bind]. eexists _, _, _, _. split; [done|]. split; [done|]. right. split; [done|]. right. right.
    split; [done|]. exists (r_base r), pa. by rewrite Emap.
  - assert (backed tr x s1 (with_pages ps r)) as Hb.
    { split; [by rewrite <- En in Hlen|]. intros i p Hi Hz. simpl. rewrite (Hco i p Hi Hz). apply Hres. split; [done|].
      apply Z.nle_gt. intros ?. rewrite znth_ge in Hz by (simpl; lia). done. }
    cbn [region_list with_arch with_regions]. rewrite (put_region_at r) by (apply Hw || done).
    eexists _, _, _, _. split; [done|]. split.
    { eapply (ainv_insert mmu tr spans s s1 a l1 (with_pages ps r) l2 x); try done; [|by right].
      by apply (awf_replace (with_regions (l1 ++ r :: l2) a) l1 r). }
    left. split; [done|]. exists (with_pages ps r), pa. split_and!; [done..|]. exists l1, l2, vaddr. split_and!; done.
Qed.
End alloc.
