(* ===== verification/VmmSpace.v ===== *)
(** All address spaces together.

    [vinv] is the invariant of the machine's address spaces over one physical
    allocator: each one satisfies [ainv], and no page belongs to two of them.
    Every call on an address space, with whatever result, keeps it and returns
    without a failed assertion; so any sequence of calls does. *)
From stdpp Require Import prelude strings gmap sorting.
From S2P Require Import Prelude Bytes Pmm Vmm VmmSpec VmmInv VmmAlloc.

#[local] Open Scope Z_scope.

(** ** Reserving a range *)

(** The size is cut at the end of the address space, whatever the sum with the
    offset is on 64 bits. *)
Lemma trim_to_aspace_ok {A} (a : aspace A) v size :
  range_ok (as_base a) (as_limit a) → as_base a ≤ v < as_limit a → paged v → 0 < size < 2 ^ 64 → paged size →
  trim_to_aspace a v size = Ok (Z.min size (as_limit a - v)).
Proof.
  intros Hg Hv Hpv Hs Hps. unfold trim_to_aspace. rewrite (proj2 (is_inside_aspace_iff a v Hg)) by done. cbn [assert_ mbind res_bind].
  destruct Hg as [[? Hpl] [? Hph] Hsz]. rewrite (proj2 (Z.eqb_neq size 0)) by lia.
  assert (as_limit a - as_base a = as_size a) as El by (unfold as_limit; lia).
  rewrite (u64_small (v - as_base a)), (u64_small (as_size a - 1)) by lia. set (off := v - as_base a).
  assert (u64 (as_size a - off) = as_limit a - v) as Er by (rewrite u64_small; lia).
  destruct (Z.le_gt_cases (2 ^ 64) (off + size)) as [Hw|Hw].
  - assert (u64 (off + size) = off + size - 2 ^ 64) as -> by (symmetry; apply (Z.mod_unique_pos _ _ 1); lia).
    rewrite (proj2 (Z.ltb_lt _ off)) by lia. rewrite (u64_small (2 ^ 64 - 1 - off - 1)) by lia.
    rewrite (u64_small (off + _)), (proj2 (Z.leb_le (as_size a - 1) _)), Er by lia. f_equal. lia.
  - rewrite (u64_small (off + size)), (proj2 (Z.ltb_ge _ off)) by lia. rewrite (u64_small (off + size)) by lia.
    destruct (Z.leb_spec (as_size a - 1) (off + size)) as [Hge|Hlt]; rewrite ?Er; f_equal; [|lia].
    assert (as_limit a ≤ v + size); [|lia]. apply Z.nlt_ge. intros Hlt.
    pose proof (paged_gap _ _ (paged_add _ _ Hpv Hps) Hph Hlt). unfold PAGE_SIZE in *. lia.
Qed.

Section spaces.
Context {A : Type} (mmu : mmu_ops A) (tr : A → Z → option Z) (spans : A → Z → Z → Prop) {LAWS : MmuLaws mmu tr spans}.
Implicit Types (a : aspace A) (v : vmm A).
#[local] Notation ainv := (ainv tr spans).

(** [vmm_reserve_space] marks the range from [vaddr] on, cut at the end of the
    address space, as a region if it is vacant there, and touches neither pages
    nor translations. *)
Lemma vmm_reserve_space_ok s a mem name size vaddr :
  ainv s a → fresh_mem a mem → 0 ≤ size < 2 ^ 64 → paged size → 0 ≤ vaddr < 2 ^ 64 → paged vaddr →
  let sz := Z.min size (as_limit a - vaddr) in
  ∃ err a', vmm_reserve_space mmu a mem name size vaddr = Ok (err, a') ∧ ainv s a' ∧
    ((a' = a ∧ ((err = NO_ERROR ∧ size = 0) ∨ (err = ERR_OUT_OF_RANGE ∧ ¬ as_base a ≤ vaddr < as_limit a) ∨
        (err = ERR_NO_MEMORY ∧ (mem = None ∨ ¬ vacant (as_base a) (as_limit a) (region_list a) vaddr sz)))) ∨
     (err = NO_ERROR ∧ ∃ r l1 l2, region_list a = l1 ++ l2 ∧ a' = with_regions (l1 ++ r :: l2) a ∧
        vacant (as_base a) (as_limit a) (region_list a) vaddr sz ∧
        r_flags r = VMM_REGION_FLAG_RESERVED ∧ r_base r = vaddr ∧ r_size r = sz ∧ mem = Some (r_addr r) ∧ r_page_list r = [])).
Proof.
  intros Ha Hmem Hs Hps Hv Hpv sz. pose proof Ha as [Hw Hsp Hp _ _ _]. pose proof Hw as [Hg _ _]. unfold vmm_reserve_space.
  rewrite (proj2 (IS_PAGE_ALIGNED_iff vaddr)), (proj2 (IS_PAGE_ALIGNED_iff size)) by done. cbn [assert_ mbind res_bind negb orb].
  destruct (Z.eqb_spec size 0) as [|Hnz]; [eexists _, _; split; [done|]; split; [done|]; left; auto|].
  pose proof (is_inside_aspace_iff a vaddr Hg) as Hi. destruct (is_inside_aspace a vaddr); cbn [negb]; last first.
  { eexists _, _; split; [done|]; split; [done|]. left. split; [done|]. right. left. split; [done|]. intros H. by apply Hi in H. }
  pose proof (proj1 Hi eq_refl) as Hin. rewrite trim_to_aspace_ok by (done || lia). cbn [mbind res_bind]. fold sz.
  assert (paged sz) as Hpz. { unfold sz. destruct (Z.min_spec size (as_limit a - vaddr)) as [[_ ->]|[_ ->]]; [done|]. apply Z.divide_sub_r; [apply Hg|done]. }
  destruct (alloc_region_ok a mem (default EmptyString name) sz vaddr 0 VMM_FLAG_VALLOC_SPECIFIC VMM_REGION_FLAG_RESERVED
    (arch_mmu_query mmu (arch_aspace a) vaddr)) as [[E3 Hno]|(addr & w & l1 & l2 & Em & [Hva Ew] & Hpw & Hleast & El & E3 & Hw')];
    try done; try lia; rewrite E3; cbn [mbind res_bind].
  - eexists _, _; split; [done|]; split; [done|]. left. split; [done|]. right. right. split; [done|]. destruct Hno as [|Hno]; [by left|right].
    intros Hva. by apply (Hno vaddr).
  - simpl in Ew. subst w. eexists _, _; split; [done|]. split; [|right; split; [done|]; eexists _, l1, l2; split_and!; done].
    set (r := mk_region _ _ _ _ _ _ _) in *. replace (with_regions (l1 ++ r :: l2) a) with (with_arch (arch_aspace a) (with_regions (l1 ++ r :: l2) a)) by (by destruct a).
    eapply (ainv_insert mmu tr spans s s a l1 r l2); try done. by left.
Qed.

(** ** One call on one address space *)

(** What the other address spaces see of it: its pages were its own or free, and
    the pages in use elsewhere stay in use. *)
Record step_ok (s : pmm) a (s' : pmm) (a' : aspace A) : Prop := {
  so_inv : ainv s' a';
  so_geo : geo <$> arena_list s' = geo <$> arena_list s;
  so_pages : ∀ p, p ∈ pages_of (region_list a') → p ∈ pages_of (region_list a) ∨ p ∈ free_pages s;
  so_frame : ∀ p, in_use s p → p ∉ pages_of (region_list a) → in_use s' p;
}.

Lemma step_refl s a : ainv s a → step_ok s a s a.
Proof. intros Ha. split; auto. Qed.

Lemma step_undone s a s' a' : ainv s' a' → undone tr s a s' a' → step_ok s a s' a'.
Proof.
  intros Ha' (Ht & (x & ->) & _). split; [done|apply Ht|by left|]. intros p Hp _. by eapply taken_keeps.
Qed.

Lemma step_added s a mem ptr sz al fl r s' a' : ainv s' a' → added tr s a mem ptr sz al fl r s' a' → step_ok s a s' a'.
Proof.
  intros Ha' (l1 & l2 & vaddr & E & Ea & _ & _ & _ & _ & _ & Ht & _). split; [done|apply Ht| |].
  - intros p. rewrite Ea. simpl. rewrite pages_of_middle, E, elem_of_app. intros [Hp|Hp]; [right|by left].
    destruct Ht as (_ & _ & _ & Hf). rewrite Hf. set_solver.
  - intros p Hp _. by eapply taken_keeps.
Qed.

Lemma step_insert s a r l1 l2 :
  ainv s (with_regions (l1 ++ r :: l2) a) → region_list a = l1 ++ l2 → r_page_list r = [] → step_ok s a s (with_regions (l1 ++ r :: l2) a).
Proof. intros Ha E Hr. split; [done|done| |done]. intros p. simpl. rewrite pages_of_middle, Hr, E. by left. Qed.

Lemma step_free_region s a w :
  ainv s a → ∃ err a' s', vmm_free_region mmu a w s = Ok (err, a', s') ∧ step_ok s a s' a'.
Proof.
  intros Ha. pose proof Ha as [[Hg Hl _] _ _ Hn _ _]. pose proof (find_region_ok _ _ _ w Hg Hl) as H.
  destruct (find_region _ w) as [r|] eqn:Er.
  - destruct H as [(l1 & l2 & E)%list_elem_of_split Hc].
    destruct (free_region_ok mmu tr spans s a l1 r l2 w Ha E Hc) as (x & s' & E1 & Hinv & Ht & _).
    eexists _, _, s'. split; [done|]. split; [done|by destruct Ht as (_ & _ & -> & _)| |].
    + intros p Hp. simpl in Hp. left. rewrite E, pages_of_middle. set_solver.
    + intros p Hp Hnp. apply (given_keeps s s' (r_page_list r)); [done..|]. rewrite E, pages_of_middle in Hnp. set_solver.
  - unfold vmm_free_region. rewrite remove_region_none by (done || apply Ha). eexists _, _, _. split; [done|]. by apply step_refl.
Qed.

(** ** The invariant of all address spaces *)

Record vinv v : Prop := {
  vi_pmm : pinv (phys_mem v);
  vi_each : ∀ i a, aspaces v !! i = Some a → ainv (phys_mem v) a;
  vi_apart : ∀ i j a b p, aspaces v !! i = Some a → aspaces v !! j = Some b → i ≠ j →
    p ∈ pages_of (region_list a) → p ∉ pages_of (region_list b);
  vi_list : NoDup (aspace_list v) ∧ ∀ i, i ∈ aspace_list v ↔ is_Some (aspaces v !! i);
  vi_cur : ∀ i, cur_aspace v = Some i → is_Some (aspaces v !! i);
}.

(** An address space that another one's call leaves alone. *)
Lemma ainv_frame s s' a :
  ainv s a → pinv s' → geo <$> arena_list s' = geo <$> arena_list s →
  (∀ p, p ∈ pages_of (region_list a) → in_use s p → in_use s' p) → ainv s' a.
Proof.
  intros Ha Hp Hg Hfr. replace a with (with_arch (arch_aspace a) (with_regions (region_list a) a)) by (by destruct a).
  eapply (ainv_part tr spans s); try done; [|apply Ha|apply Ha]. destruct Ha as [[? ? ?] _ _ _ _ _]. by split.
Qed.

Lemma pages_used s a p : ainv s a → p ∈ pages_of (region_list a) → in_use s p.
Proof. intros [_ _ _ _ Hu _]. rewrite Forall_forall in Hu. apply Hu. Qed.

Definition set_aspace (i : nat) (a : aspace A) (s : pmm) v : vmm A :=
  mk_vmm (<[i := a]> (aspaces v)) (aspace_list v) s (cur_aspace v).

Lemma vinv_step v i a s' a' :
  vinv v → aspaces v !! i = Some a → step_ok (phys_mem v) a s' a' → vinv (set_aspace i a' s' v).
Proof.
  intros [Hp He Hap Hl Hc] Hi [Ha' Hg Hpg Hfr].
  assert (∀ j b p, aspaces v !! j = Some b → j ≠ i → p ∈ pages_of (region_list b) → p ∉ pages_of (region_list a')) as Hd.
  { intros j b p Hj Hji Hpb [Hpa|Hpa]%Hpg; [by apply (Hap j i b a p)|]. pose proof (pages_used _ _ _ (He _ _ Hj) Hpb) as Hu.
    by apply in_use_iff in Hu; [|done|apply Hu]. }
  split; simpl.
  - apply Ha'.
  - intros j b. destruct (decide (j = i)) as [->|Hji]; [rewrite lookup_insert_eq; by intros [= <-]|].
    rewrite lookup_insert_ne by done. intros Hj. apply (ainv_frame (phys_mem v)); [by eapply He|apply Ha'|done|].
    intros p Hpb Hu. apply Hfr; [done|]. by apply (Hap j i b a p).
  - intros j k b c p Hj Hk Hjk Hpb. destruct (decide (j = i)) as [->|Hji].
    + rewrite lookup_insert_eq in Hj. injection Hj as <-. rewrite lookup_insert_ne in Hk by done. intros Hpc. by apply (Hd k c p).
    + rewrite lookup_insert_ne in Hj by done. destruct (decide (k = i)) as [->|Hki].
      * rewrite lookup_insert_eq in Hk. injection Hk as <-. by apply (Hd j b p).
      * rewrite lookup_insert_ne in Hk by done. by apply (Hap j k b c p).
  - destruct Hl as [Hn Hl]. split; [done|]. intros j. rewrite Hl. destruct (decide (j = i)) as [->|Hji].
    + rewrite lookup_insert_eq, Hi. split; eauto.
    + by rewrite lookup_insert_ne by done.
  - intros j Hj. destruct (decide (j = i)) as [->|Hji]; [by rewrite lookup_insert_eq; eauto|]. rewrite lookup_insert_ne by done. auto.
Qed.

(** ** Switching address spaces *)

(** Page tables that look the same. *)
Definition same_tables (x x' : A) : Prop := tr x' = tr x ∧ ∀ lo hi, spans x lo hi → spans x' lo hi.

Lemma ainv_tables s a x' : ainv s a → same_tables (arch_aspace a) x' → ainv s (with_arch x' a).
Proof.
  intros Ha [Htr Hsp]. apply (undone_ainv tr spans s a); [done|apply Hsp, Ha|]. split_and!.
  - apply taken_refl, Ha.
  - by exists x'.
  - intros r w _ _. simpl. by rewrite Htr.
  - intros w. simpl. by rewrite Htr.
Qed.

Lemma vinv_tables v i a x' :
  vinv v → aspaces v !! i = Some a → same_tables (arch_aspace a) x' → vinv (with_aspaces (alter (with_arch x') i (aspaces v)) v).
Proof.
  intros Hv Hi Hs. pose proof (vi_each _ Hv _ _ Hi) as Ha.
  replace (with_aspaces _ v) with (set_aspace i (with_arch x' a) (phys_mem v) v).
  - apply (vinv_step v i a); [done..|]. apply step_undone; [by apply ainv_tables|].
    split_and!; [apply taken_refl, Hv|by exists x'| |]; [intros r w _ _|intros w]; simpl; by rewrite (proj1 Hs).
  - unfold set_aspace, with_aspaces. f_equal. apply map_eq. intros j. destruct (decide (j = i)) as [->|Hji].
    + by rewrite lookup_insert_eq, lookup_alter_eq, Hi.
    + by rewrite lookup_insert_ne, lookup_alter_ne.
Qed.

Lemma vinv_cur v o : vinv v → (∀ i, o = Some i → is_Some (aspaces v !! i)) → vinv (with_cur o v).
Proof. intros [? ? ? ? ?] Ho. by split. Qed.

(** The same address spaces, with tables that look the same. *)
Definition same_spaces v v' : Prop :=
  phys_mem v' = phys_mem v ∧ aspace_list v' = aspace_list v ∧ cur_aspace v' = cur_aspace v ∧
  (∀ i, is_Some (aspaces v' !! i) → is_Some (aspaces v !! i)) ∧
  ∀ i a, aspaces v !! i = Some a → ∃ x, aspaces v' !! i = Some (with_arch x a) ∧ same_tables (arch_aspace a) x.

Lemma same_spaces_refl v : same_spaces v v.
Proof. split_and!; try done. intros i a Hi. exists (arch_aspace a). rewrite with_arch_id. by split. Qed.

Lemma same_spaces_tables v i a x' :
  aspaces v !! i = Some a → same_tables (arch_aspace a) x' → same_spaces v (with_aspaces (alter (with_arch x') i (aspaces v)) v).
Proof.
  intros Hi Hs. split_and!; try done; simpl.
  - intros j. destruct (decide (j = i)) as [->|]; [rewrite Hi; eauto|by rewrite lookup_alter_ne].
  - intros j b Hj. destruct (decide (j = i)) as [->|].
    + rewrite lookup_alter_eq, Hj. assert (b = a) as -> by congruence. eauto.
    + rewrite lookup_alter_ne, Hj by done. exists (arch_aspace b). rewrite with_arch_id. by split.
Qed.

Lemma same_spaces_trans v1 v2 v3 : same_spaces v1 v2 → same_spaces v2 v3 → same_spaces v1 v3.
Proof.
  intros (E1 & E2 & E3 & Hs & H) (E1' & E2' & E3' & Hs' & H'). split_and!; try congruence; [auto|].
  intros i a Hi. destruct (H i a Hi) as (x & Hx & Ht & Hsp). destruct (H' i _ Hx) as (y & Hy & Ht' & Hsp').
  exists y. split; [done|]. simpl in *. split; [congruence|auto].
Qed.

Lemma vmm_switch_keeps v old new :
  vinv v → old ≠ new → (∀ i, old = Some i → is_Some (aspaces v !! i)) → (∀ i, new = Some i → is_Some (aspaces v !! i)) →
  vinv (vmm_switch mmu old new v) ∧ same_spaces v (vmm_switch mmu old new v).
Proof.
  intros Hv Hne Ho Hn. unfold vmm_switch. pose proof (mmu_switch (old ≫= λ i, arch_aspace <$> aspaces v !! i)
    (new ≫= λ i, arch_aspace <$> aspaces v !! i)) as H.
  destruct (arch_mmu_context_switch mmu _ _) as [xo xn]. simpl in H. destruct H as [H1 H2].
  set (v1 := with_aspaces (match old, xo with Some i, Some x => alter (with_arch x) i (aspaces v) | _, _ => aspaces v end) v).
  assert (vinv v1 ∧ same_spaces v v1) as [Hv1 Hs1].
  { subst v1. destruct old as [i|]; [|by destruct v; split; [|apply same_spaces_refl]].
    destruct (Ho i eq_refl) as [a Ha]. simpl in H1. rewrite Ha in H1. simpl in H1. destruct xo as [x|]; [|done].
    split; [by apply (vinv_tables v i a)|by apply (same_spaces_tables v i a)]. }
  destruct new as [j|]; [|done]. destruct (Hn j eq_refl) as [b Hb]. simpl in H2. rewrite Hb in H2. simpl in H2. destruct xn as [y|]; [|done].
  assert (aspaces v1 !! j = Some b) as Hb1.
  { subst v1. simpl. destruct old as [i|]; [|done]. destruct xo; [|done]. rewrite lookup_alter_ne; [done|congruence]. }
  split; [by apply (vinv_tables v1 j b)|]. apply (same_spaces_trans v v1); [done|]. by apply (same_spaces_tables v1 j b).
Qed.

(** [vmm_set_active_aspace] makes the address space current and returns the one
    that was. *)
Lemma vmm_set_active_aspace_ok v o :
  vinv v → (∀ i, o = Some i → is_Some (aspaces v !! i)) →
  let '(old, v') := vmm_set_active_aspace mmu o v in
  old = cur_aspace v ∧ cur_aspace v' = o ∧ vinv v' ∧ phys_mem v' = phys_mem v ∧ aspace_list v' = aspace_list v.
Proof.
  intros Hv Ho. unfold vmm_set_active_aspace. case_bool_decide as E; [done|].
  destruct (vmm_switch_keeps (with_cur o v) (cur_aspace v) o) as [Hv' (E1 & E2 & E3 & _)]; [by apply vinv_cur|done|apply Hv|done|].
  split_and!; done.
Qed.

(** ** Freeing an address space *)

Lemma free_regions_ok l : ∀ s,
  pinv s → NoDup (pages_of l) → Forall (in_use s) (pages_of l) →
  ∃ s', free_regions l s = Ok s' ∧ taken s' s (pages_of l).
Proof.
  induction l as [|r l IH]; intros s Hp Hn Hu; [by exists s|]. change (pages_of (r :: l)) with (r_page_list r ++ pages_of l) in *.
  apply NoDup_app in Hn as (Hn1 & Hd & Hn2). apply Forall_app in Hu as [Hu1 Hu2].
  destruct (pmm_free_ok (r_page_list r) s Hp Hn1 Hu1) as (s1 & E & Hp1 & Hg1 & Hf1). cbn [free_regions]. rewrite E. cbn [mbind res_bind].
  assert (taken s1 s (r_page_list r)) as Ht by (split_and!; done).
  destruct (IH s1 Hp1 Hn2) as (s' & E' & Hp' & _ & Hg' & Hf').
  { apply Forall_forall. intros p Hpl. rewrite Forall_forall in Hu2. apply (given_keeps s s1 (r_page_list r)); auto.
    intros Hpr. by apply (Hd p). }
  exists s'. split; [done|]. split_and!; [done|done|congruence|].
  rewrite Hf', Hf1, app_assoc. f_equiv. apply Permutation_app_comm.
Qed.

Definition in_regions (l : list region) (w : Z) : bool := existsb (λ r, (r_base r <=? w) && (w <? r_limit r)) l.

(** The tables that are destroyed have no translation of a region any more. *)
Lemma unmap_regions_ok lo hi w l : ∀ x,
  Forall (λ r, lo ≤ r_base r ∧ paged (r_base r) ∧ paged (r_size r) ∧ 0 < r_size r < 2 ^ 44 ∧ r_limit r ≤ hi) l → spans x lo hi →
  tr (unmap_regions mmu l x) w = if in_regions l w then None else tr x w.
Proof.
  induction l as [|r l IH]; intros x Hl Hsp; [done|]. apply Forall_cons in Hl as [(Hlo & Hpb & Hps & Hs & Hhi) Hl].
  cbn [unmap_regions in_regions existsb]. rewrite IH; [|done|by apply mmu_unmap_spans]. unfold in_regions. fold (in_regions l w).
  pose proof (unmap_limit_small r Hps Hs) as Hu. unfold unmap_limit in Hu.
  rewrite (mmu_unmap_tr x lo hi); [|done|done|apply u32_range|done|lia]. rewrite Hu.
  destruct (in_regions l w); destruct (_ && _); done.
Qed.

Lemma vinv_delete v i a s' :
  vinv v → aspaces v !! i = Some a → cur_aspace v ≠ Some i → taken s' (phys_mem v) (pages_of (region_list a)) →
  vinv (mk_vmm (delete i (aspaces v)) (filter (.≠ i) (aspace_list v)) s' (cur_aspace v)).
Proof.
  intros [Hp He Hap [Hn Hl] Hc] Hi Hcur Ht. split; simpl.
  - apply Ht.
  - intros j b [Hji Hj]%lookup_delete_Some. apply (ainv_frame (phys_mem v)); [by eapply He|apply Ht|by destruct Ht as (_ & _ & -> & _)|].
    intros p Hpb Hu. apply (given_keeps (phys_mem v) s' (pages_of (region_list a))); [done..|]. by apply (Hap j i b a p).
  - intros j k b c p [_ Hj]%lookup_delete_Some [_ Hk]%lookup_delete_Some. by apply (Hap j k).
  - split; [by apply NoDup_filter|]. intros j. rewrite list_elem_of_filter, Hl. destruct (decide (j = i)) as [->|Hji].
    + rewrite lookup_delete_eq. split; [by intros [? _]|by intros [? ?]].
    + rewrite lookup_delete_ne by done. naive_solver.
  - intros j Hj. rewrite lookup_delete_ne by congruence. auto.
Qed.

Definition cur_without (i : nat) v : option nat := if bool_decide (cur_aspace v = Some i) then None else cur_aspace v.

Lemma vmm_free_aspace_ok v i a :
  vinv v → aspaces v !! i = Some a →
  ∃ v1 a1, vinv v1 ∧ same_spaces (with_cur (cur_without i v) v) v1 ∧ aspaces v1 !! i = Some a1 ∧
    region_list a1 = region_list a ∧ same_tables (arch_aspace a) (arch_aspace a1) ∧ as_base a1 = as_base a ∧ as_limit a1 = as_limit a ∧
    ((vmm_free_aspace mmu i v = Ok (ERR_BUSY, v1, None) ∧ arch_aspace_active_cpus mmu (arch_aspace a1) ≠ 0) ∨
     ∃ s', let v' := mk_vmm (delete i (aspaces v1)) (filter (.≠ i) (aspace_list v1)) s' (cur_aspace v1) in
       vmm_free_aspace mmu i v = Ok (NO_ERROR, v', Some (arch_mmu_destroy_aspace mmu (unmap_regions mmu (region_list a1) (arch_aspace a1)))) ∧
       vinv v' ∧ taken s' (phys_mem v) (pages_of (region_list a))).
Proof.
  intros Hv Hi. unfold vmm_free_aspace.
  set (v1 := if bool_decide (cur_aspace v = Some i) then vmm_switch mmu (Some i) None (with_cur None v) else v).
  assert (vinv v1 ∧ same_spaces (with_cur (cur_without i v) v) v1) as [Hv1 Hs].
  { subst v1. unfold cur_without. case_bool_decide; [|split; [done|]; destruct v; apply same_spaces_refl].
    apply vmm_switch_keeps; [by apply vinv_cur|done| |done]. intros j [= <-]. simpl. eauto. }
  pose proof Hs as (E1 & E2 & E3 & _ & Hsp). simpl in E1, E2, E3. destruct (Hsp i a Hi) as (x & Hx & Ht).
  exists v1, (with_arch x a). split_and!; try done. rewrite Hx. cbn [of_option mbind res_bind].
  destruct (Z.eqb_spec (arch_aspace_active_cpus mmu (arch_aspace (with_arch x a))) 0) as [E0|E0]; cbn [negb]; [right|by left].
  rewrite (bool_decide_eq_true_2 (i ∈ aspace_list v1)) by (apply Hv1; eauto). cbn [negb].
  pose proof (vi_each _ Hv1 _ _ Hx) as Ha. destruct (free_regions_ok (region_list (with_arch x a)) (phys_mem v1)) as (s' & Ef & Ht'); [apply Ha..|].
  rewrite Ef. cbn [mbind res_bind]. exists s'. split_and!; [done| |by rewrite <- E1].
  apply (vinv_delete v1 i (with_arch x a)); try done. rewrite E3. unfold cur_without. by case_bool_decide.
Qed.

(** [vmm_free_aspace] takes the address space off its thread and, unless a
    processor still runs on it, off the list, gives back every page of its
    regions and no other, and destroys page tables in which no address of a
    region translates any more; the other address spaces keep theirs. *)
Theorem vmm_free_aspace_spec v i a :
  vinv v → aspaces v !! i = Some a → Forall (λ r, r_size r < 2 ^ 44) (region_list a) →
  ∃ err v' d, vmm_free_aspace mmu i v = Ok (err, v', d) ∧ vinv v' ∧ cur_aspace v' = cur_without i v ∧
    ((err = ERR_BUSY ∧ d = None ∧ same_spaces (with_cur (cur_without i v) v) v') ∨
     (err = NO_ERROR ∧ aspaces v' !! i = None ∧ i ∉ aspace_list v' ∧ taken (phys_mem v') (phys_mem v) (pages_of (region_list a)) ∧
      (∀ j b, j ≠ i → aspaces v !! j = Some b → ∃ x, aspaces v' !! j = Some (with_arch x b) ∧ tr x = tr (arch_aspace b)) ∧
      ∃ x, d = Some (arch_mmu_destroy_aspace mmu x) ∧
        ∀ w, tr x w = if in_regions (region_list a) w then None else tr (arch_aspace a) w)).
Proof.
  intros Hv Hi Hsz. destruct (vmm_free_aspace_ok v i a Hv Hi) as (v1 & a1 & Hv1 & Hs & Hx & El & [Htr _] & Eb & Ee & Hout).
  pose proof Hs as (_ & _ & E3 & _ & Hsp). destruct Hout as [[E _]|(s' & E & Hv' & Ht)].
  { exists ERR_BUSY, v1, None. split_and!; [done..|]. by left. }
  eexists _, _, _. split; [exact E|]. split; [done|]. split; [done|]. right. split_and!; [done| | |done| |]; simpl.
  - apply lookup_delete_eq.
  - rewrite list_elem_of_filter. naive_solver.
  - intros j b Hji Hj. destruct (Hsp j b Hj) as (y & Hy & Hty & _). exists y. by rewrite lookup_delete_ne.
  - eexists. split; [done|]. intros w. pose proof (vi_each _ Hv1 _ _ Hx) as [Hw Hspan _ _ _ _].
    rewrite (unmap_regions_ok (as_base a1) (as_limit a1)); [by rewrite El, Htr| |done].
    apply Forall_forall. intros r Hr. rewrite El in *. rewrite Forall_forall in Hsz.
    destruct (laid_out_bounds _ _ _ r (aw_regions _ Hw)) as (? & ? & ? & ? & ?); [by rewrite El|]. split_and!; auto.
Qed.

(** ** New address spaces *)

Record layout_ok (ly : layout) : Prop := {
  ly_kernel : range_ok (KERNEL_ASPACE_BASE ly) (KERNEL_ASPACE_BASE ly + KERNEL_ASPACE_SIZE ly);
  ly_user : range_ok (USER_ASPACE_BASE ly) (USER_ASPACE_BASE ly + USER_ASPACE_SIZE ly);
}.

Lemma ainv_empty s name flags base size x :
  pinv s → range_ok base (base + size) → spans x base (base + size) → ainv s (mk_aspace name flags base size [] x).
Proof.
  intros Hp Hg Hsp. split; try done; try constructor; try done; simpl.
  - change (as_limit _) with (base + size). destruct Hg as [_ _ ?]. lia.
  - constructor.
Qed.

Lemma vinv_new v i a :
  vinv v → aspaces v !! i = None → ainv (phys_mem v) a → region_list a = [] →
  vinv (mk_vmm (<[i := a]> (aspaces v)) (i :: aspace_list v) (phys_mem v) (cur_aspace v)).
Proof.
  intros [Hp He Hap [Hn Hl] Hc] Hi Ha Hr. split; simpl.
  - done.
  - intros j b [[_ <-]|[_ Hj]]%lookup_insert_Some; [done|by eapply He].
  - intros j k b c p [[<- <-]|[? Hj]]%lookup_insert_Some [[<- <-]|[? Hk]]%lookup_insert_Some; [done|..].
    + rewrite Hr. intros _ Hp2. by apply elem_of_nil in Hp2.
    + rewrite Hr. intros _ _ Hp2. by apply elem_of_nil in Hp2.
    + by apply (Hap j k).
  - split; [constructor; [|done]; rewrite Hl, Hi; by intros [? ?]|]. intros j. rewrite elem_of_cons, Hl.
    destruct (decide (j = i)) as [->|Hji]; [rewrite lookup_insert_eq; split; eauto|rewrite lookup_insert_ne by done; naive_solver].
  - intros j Hj. destruct (decide (j = i)) as [->|Hji]; [rewrite lookup_insert_eq; eauto|rewrite lookup_insert_ne by done; auto].
Qed.

Lemma vmm_create_aspace_ok ly i name flags v :
  layout_ok ly → vinv v → match i with Some i => aspaces v !! i = None | None => True end →
  vinv (snd (vmm_create_aspace mmu ly i name flags v)).
Proof.
  intros [Hk Hu] Hv Hi. unfold vmm_create_aspace. destruct i as [i|]; [|done].
  set (kernel := has_flag flags VMM_ASPACE_FLAG_KERNEL). destruct (negb kernel && _); [done|].
  set (base := if kernel then _ else _). set (size := if kernel then KERNEL_ASPACE_SIZE ly else _).
  assert (range_ok base (base + size)) as Hg by (unfold base, size; by destruct kernel).
  pose proof (mmu_init_spans base size (if kernel then ARCH_ASPACE_FLAG_KERNEL else 0)) as Hsp.
  destruct (arch_mmu_init_aspace mmu base size _) as [err x]. simpl in Hsp. destruct (Z.ltb_spec err 0); [done|].
  apply vinv_new; [done..| |done]. apply ainv_empty; [apply Hv|done|auto].
Qed.

(** ** Any sequence of calls *)

Inductive vmm_call :=
  | CallAlloc (i : nat) (mem : option Z) (name : option string) (size : Z) (ptr : option Z) (align_pow2 vmm_flags mmu_flags : Z)
  | CallContiguous (i : nat) (mem : option Z) (name : option string) (size : Z) (ptr : option Z) (align_pow2 vmm_flags mmu_flags : Z)
  | CallPhysical (i : nat) (mem : option Z) (name : option string) (size : Z) (ptr : option Z) (align_log2 paddr vmm_flags mmu_flags : Z)
  | CallReserve (i : nat) (mem : option Z) (name : option string) (size vaddr : Z)
  | CallFreeRegion (i : nat) (vaddr : Z)
  | CallCreate (i : option nat) (name : option string) (flags : Z)
  | CallFreeAspace (i : nat)
  | CallSetActive (o : option nat).

Definition on_aspace (i : nat) (f : aspace A → pmm → res (Z * aspace A * pmm)) v : res (Z * vmm A) :=
  a ← of_option BadAccess (aspaces v !! i);
  '(err, a, s) ← f a (phys_mem v);
  Ok (err, set_aspace i a s v).

Definition run_call (ly : layout) (c : vmm_call) v : res (Z * vmm A) :=
  match c with
  | CallAlloc i mem name size ptr al fl mfl =>
      on_aspace i (λ a s, '(err, _, a, s) ← vmm_alloc mmu a mem name size ptr al fl mfl s; Ok (err, a, s)) v
  | CallContiguous i mem name size ptr al fl mfl =>
      on_aspace i (λ a s, '(err, _, a, s) ← vmm_alloc_contiguous mmu a mem name size ptr al fl mfl s; Ok (err, a, s)) v
  | CallPhysical i mem name size ptr al pa fl mfl =>
      on_aspace i (λ a s, '(err, _, a) ← vmm_alloc_physical mmu a mem name size ptr al pa fl mfl; Ok (err, a, s)) v
  | CallReserve i mem name size vaddr =>
      on_aspace i (λ a s, '(err, a) ← vmm_reserve_space mmu a mem name size vaddr; Ok (err, a, s)) v
  | CallFreeRegion i vaddr => on_aspace i (λ a s, vmm_free_region mmu a vaddr s) v
  | CallCreate i name flags => let '(err, _, v) := vmm_create_aspace mmu ly i name flags v in Ok (err, v)
  | CallFreeAspace i => '(err, v, _) ← vmm_free_aspace mmu i v; Ok (err, v)
  | CallSetActive o => Ok (NO_ERROR, snd (vmm_set_active_aspace mmu o v))
  end.

(** The address space exists; [P] of it. *)
Definition aspace_has v (i : nat) (P : aspace A → Prop) : Prop := ∃ a, aspaces v !! i = Some a ∧ P a.

(** What the callers respect: page aligned places and sizes where the code asserts
    them, alignments that the type has, structures from the heap that are not in
    use. *)
Definition call_ok v (c : vmm_call) : Prop :=
  match c with
  | CallAlloc i mem _ _ ptr al fl _ => aspace_has v i (λ a, request_ok a mem ptr al fl)
  | CallContiguous i mem _ size ptr al fl _ =>
      aspace_has v i (λ a, request_ok a mem ptr al fl) ∧ al ≤ 31 ∧ ROUNDUP size PAGE_SIZE < 2 ^ 43
  | CallPhysical i mem _ size ptr al pa fl _ =>
      aspace_has v i (λ a, request_ok a mem ptr al fl) ∧ 0 ≤ size < 2 ^ 44 ∧ paged size ∧ paged pa
  | CallReserve i mem _ size vaddr =>
      aspace_has v i (λ a, fresh_mem a mem) ∧ 0 ≤ size < 2 ^ 64 ∧ paged size ∧ 0 ≤ vaddr < 2 ^ 64 ∧ paged vaddr
  | CallFreeRegion i _ | CallFreeAspace i => is_Some (aspaces v !! i)
  | CallCreate (Some i) _ _ => aspaces v !! i = None
  | CallCreate None _ _ => True
  | CallSetActive o => ∀ i, o = Some i → is_Some (aspaces v !! i)
  end.

Lemma on_aspace_ok v i a f err a' s' :
  vinv v → aspaces v !! i = Some a → f a (phys_mem v) = Ok (err, a', s') → step_ok (phys_mem v) a s' a' →
  ∃ err v', on_aspace i f v = Ok (err, v') ∧ vinv v'.
Proof.
  intros Hv Hi Hf Hs. unfold on_aspace. rewrite Hi. cbn [of_option mbind res_bind]. rewrite Hf. cbn [mbind res_bind].
  eexists _, _. split; [done|]. by eapply vinv_step.
Qed.

Lemma contiguous_step s a mem name size ptr al fl mfl :
  ainv s a → request_ok a mem ptr al fl → al ≤ 31 → ROUNDUP size PAGE_SIZE < 2 ^ 43 →
  ∃ err ptr' a' s', vmm_alloc_contiguous mmu a mem name size ptr al fl mfl s = Ok (err, ptr', a', s') ∧ step_ok s a s' a'.
Proof.
  intros Ha Hrq Hal Hsz. destruct (page_size_range size) as [Hr _]. destruct (Z.eq_dec (ROUNDUP size PAGE_SIZE) 0) as [E0|Hnz].
  { unfold vmm_alloc_contiguous. rewrite E0. eexists _, _, _, _. split; [done|]. by apply step_refl. }
  destruct (vmm_alloc_contiguous_spec mmu tr spans s a mem name size ptr al fl mfl) as (err & ptr' & a' & s' & E & Ha' & Hout); try done; [lia|].
  exists err, ptr', a', s'. split; [done|]. destruct Hout as [(_ & r & pa & _ & _ & _ & _ & Hadd)|[Hun _]]; [by eapply step_added|by apply step_undone].
Qed.

Lemma physical_step s a mem name size ptr al pa fl mfl :
  ainv s a → request_ok a mem ptr al fl → 0 ≤ size < 2 ^ 44 → paged size → paged pa →
  ∃ err ptr' a', vmm_alloc_physical mmu a mem name size ptr al pa fl mfl = Ok (err, ptr', a') ∧ step_ok s a s a'.
Proof.
  intros Ha Hrq Hsz Hps Hpa. destruct (Z.eq_dec size 0) as [->|Hnz].
  { unfold vmm_alloc_physical. rewrite (proj2 (IS_PAGE_ALIGNED_iff pa)), (proj2 (IS_PAGE_ALIGNED_iff 0)) by done.
    eexists _, _, _. split; [done|]. by apply step_refl. }
  destruct (vmm_alloc_physical_spec mmu tr spans s a mem name size ptr al pa fl mfl) as (err & ptr' & a' & E & Ha' & Hout); try done; [lia|].
  exists err, ptr', a'. split; [done|]. destruct Hout as [(_ & r & _ & _ & Hadd & _)|[Hun _]]; [by eapply step_added|by apply step_undone].
Qed.

Lemma run_call_ok ly c v : layout_ok ly → vinv v → call_ok v c → ∃ err v', run_call ly c v = Ok (err, v') ∧ vinv v'.
Proof.
  intros Hly Hv Hc. destruct c as [i mem name size ptr al fl mfl|i mem name size ptr al fl mfl|i mem name size ptr al pa fl mfl
    |i mem name size vaddr|i vaddr|i name flags|i|o]; simpl in *.
  - destruct Hc as (a & Hi & Hrq). pose proof (vi_each _ Hv _ _ Hi) as Ha.
    destruct (vmm_alloc_ok mmu tr spans (phys_mem v) a mem name size ptr al fl mfl Ha Hrq) as ([[[err ptr'] a'] s'] & E & Ha' & Hout).
    eapply on_aspace_ok; [done..|by rewrite E|]. destruct Hout as [(_ & r & _ & _ & Hadd)|(_ & Hun & _)]; [by eapply step_added|by apply step_undone].
  - destruct Hc as ((a & Hi & Hrq) & Hal & Hsz). pose proof (vi_each _ Hv _ _ Hi) as Ha.
    destruct (contiguous_step (phys_mem v) a mem name size ptr al fl mfl Ha Hrq Hal Hsz) as (err & ptr' & a' & s' & E & Hs).
    eapply on_aspace_ok; [done..|by rewrite E|done].
  - destruct Hc as ((a & Hi & Hrq) & Hsz & Hps & Hpa). pose proof (vi_each _ Hv _ _ Hi) as Ha.
    destruct (physical_step (phys_mem v) a mem name size ptr al pa fl mfl Ha Hrq Hsz Hps Hpa) as (err & ptr' & a' & E & Hs).
    eapply on_aspace_ok; [done..|by rewrite E|done].
  - destruct Hc as ((a & Hi & Hm) & Hsz & Hps & Hvr & Hpv). pose proof (vi_each _ Hv _ _ Hi) as Ha.
    destruct (vmm_reserve_space_ok (phys_mem v) a mem name size vaddr Ha Hm Hsz Hps Hvr Hpv) as (err & a' & E & Ha' & Hout).
    eapply on_aspace_ok; [done..|by rewrite E|]. destruct Hout as [[-> _]|(_ & r & l1 & l2 & El & -> & _ & _ & _ & _ & _ & Hr)]; [by apply step_refl|by apply step_insert].
  - destruct Hc as [a Hi]. destruct (step_free_region (phys_mem v) a vaddr (vi_each _ Hv _ _ Hi)) as (err & a' & s' & E & Hs).
    by eapply on_aspace_ok.
  - pose proof (vmm_create_aspace_ok ly i name flags v Hly Hv) as H. destruct (vmm_create_aspace mmu ly i name flags v) as [[err o] v'].
    eexists _, _. split; [done|]. apply H. by destruct i.
  - destruct Hc as [a Hi]. destruct (vmm_free_aspace_ok v i a Hv Hi) as (v1 & a1 & Hv1 & _ & _ & _ & _ & _ & _ & [[E _]|(s' & E & Hv' & _)]);
      rewrite E; cbn [mbind res_bind]; eauto.
  - pose proof (vmm_set_active_aspace_ok v o Hv Hc) as H. destruct (vmm_set_active_aspace mmu o v) as [old v']. destruct H as (_ & _ & H & _). eauto.
Qed.

(** The states after start-up and any number of calls. *)
Inductive reach (ly : layout) : vmm A → Prop :=
  | reach_boot s i :
      pinv s → 0 ≤ fst (arch_mmu_init_aspace mmu (KERNEL_ASPACE_BASE ly) (KERNEL_ASPACE_SIZE ly) ARCH_ASPACE_FLAG_KERNEL) →
      reach ly (vmm_init_preheap mmu ly i (mk_vmm ∅ [] s None))
  | reach_call v c err v' : reach ly v → call_ok v c → run_call ly c v = Ok (err, v') → reach ly v'.

Lemma vinv_boot ly s i :
  layout_ok ly → pinv s → 0 ≤ fst (arch_mmu_init_aspace mmu (KERNEL_ASPACE_BASE ly) (KERNEL_ASPACE_SIZE ly) ARCH_ASPACE_FLAG_KERNEL) →
  vinv (vmm_init_preheap mmu ly i (mk_vmm ∅ [] s None)).
Proof.
  intros [Hk _] Hp Hi. unfold vmm_init_preheap.
  pose proof (mmu_init_spans (KERNEL_ASPACE_BASE ly) (KERNEL_ASPACE_SIZE ly) ARCH_ASPACE_FLAG_KERNEL Hi) as Hsp.
  destruct (arch_mmu_init_aspace mmu _ _ _) as [err x]. apply (vinv_new (mk_vmm ∅ [] s None)); [|done|by apply ainv_empty|done].
  split; simpl; [done|by intros ? ?..| |done]. split; [constructor|]. intros j. rewrite lookup_empty. split; [by intros ?%elem_of_nil|by intros [? ?]].
Qed.

End spaces.
