(* ===== verification/Vm.v ===== *)
(** The start-up of kernel memory and the lookups of [kernel/vm/vm.c].

    At boot the pages of the kernel's image and of the boot allocator are taken out
    of the free pages, and the initial mappings become reserved regions of the
    kernel's address space.  The page tables are the architecture's: [query] is the
    physical address that [arch_mmu_query] finds, or nothing when it fails. *)
From stdpp Require Import prelude gmap strings.
From S2P Require Import Prelude Pow2 Bytes Pmm Vmm VmmSpec VmmInv VmmAlloc VmmSpace.

#[local] Open Scope Z_scope.

Section vm.
Context {A : Type} (mmu : mmu_ops A) (query : A → Z → option Z).
Implicit Types (v : vmm A) (x : A).

(** The loop of [mark_pages_in_use] over [n] pages from [va] on. *)
Fixpoint mark_loop (n : nat) (x : A) (va : Z) (l : list Z) (s : pmm) : res pmm :=
  match n with
  | O => Ok s
  | S n =>
      pa ← of_option Panicked (query x va);
      '(_, l, s) ← pmm_alloc_range pa 1 l s;
      mark_loop n x (u64 (va + PAGE_SIZE)) l s
  end.

Definition mark_pages_in_use (x : A) (va len : Z) (s : pmm) : res pmm :=
  let len := ROUNDUP (u64 (len + Z.land va (PAGE_SIZE - 1))) PAGE_SIZE in
  let va := ROUNDDOWN va PAGE_SIZE in
  mark_loop (Z.to_nat (len / PAGE_SIZE)) x va [] s.

Definition with_phys (s : pmm) v : vmm A := mk_vmm (aspaces v) (aspace_list v) s (cur_aspace v).

(** [i] is the kernel's address space; the image is from [start] to [end_], where
    the boot allocator starts. *)
Definition vm_init_preheap (ly : layout) (i : nat) (start end_ : Z) v : res (vmm A) :=
  let v := vmm_init_preheap mmu ly i v in
  a ← of_option BadAccess (aspaces v !! i);
  s ← mark_pages_in_use (arch_aspace a) start (u64 (end_ - start)) (phys_mem v);
  if boot_alloc_end (phys_mem v) =? end_ then Ok (with_phys s v) else
  s ← mark_pages_in_use (arch_aspace a) end_ (u64 (boot_alloc_end (phys_mem v) - end_)) s;
  Ok (with_phys s v).

(** The regions for the mappings that stay; [mems] are the structures that the
    heap hands out for them. *)
Fixpoint vm_init_postheap (maps : list mmu_initial_mapping) (mems : list (option Z)) (a : aspace A) : res (aspace A) :=
  match maps with
  | [] => Ok a
  | m :: maps =>
      if negb (0 <? map_size m) then Ok a
      else if has_flag (map_flags m) MMU_INITIAL_MAPPING_TEMPORARY then vm_init_postheap maps mems a
      else
        '(_, a) ← vmm_reserve_space mmu a (default None (head mems)) (map_name m) (map_size m) (virt m);
        vm_init_postheap maps (tail mems) a
  end.

Definition is_kernel_address (ly : layout) (va : Z) : bool :=
  (KERNEL_ASPACE_BASE ly <=? va) && (va <=? u64 (KERNEL_ASPACE_BASE ly + (KERNEL_ASPACE_SIZE ly - 1))).
Definition is_user_address (ly : layout) (va : Z) : bool :=
  (USER_ASPACE_BASE ly <=? va) && (va <=? u64 (USER_ASPACE_BASE ly + (USER_ASPACE_SIZE ly - 1))).

Definition vaddr_to_aspace (ly : layout) (kernel : nat) (ptr : Z) v : option nat :=
  if is_kernel_address ly ptr then Some kernel
  else if is_user_address ly ptr then cur_aspace v
  else None.

Definition vaddr_to_paddr (ly : layout) (kernel : nat) (ptr : Z) v : Z :=
  match vaddr_to_aspace ly kernel ptr v with
  | None => 0
  | Some i => match aspaces v !! i with Some a => default 0 (query (arch_aspace a) ptr) | None => 0 end
  end.

Definition kvaddr_get_range (maps : list mmu_initial_mapping) : option (Z * Z) := (λ m, (virt m, map_size m)) <$> head maps.

(** * What start-up does *)

Lemma in_arena_geo a b pa : geo a = geo b → ADDRESS_IN_ARENA pa a = ADDRESS_IN_ARENA pa b ∧ page_at a (index_of a pa) = page_at b (index_of b pa).
Proof. destruct a, b. unfold geo, with_free. simpl. intros [= -> -> -> -> ->]. done. Qed.

Lemma paddr_to_vm_page_geo s s' pa :
  geo <$> arena_list s' = geo <$> arena_list s → paddr_to_vm_page s' pa = paddr_to_vm_page s pa.
Proof.
  unfold paddr_to_vm_page. generalize (arena_list s) (arena_list s'). intros l. induction l as [|a l IH]; intros [|b l'] Hg; try done.
  rewrite !fmap_cons in Hg. assert (geo b = geo a) as Hab by congruence. assert (geo <$> l' = geo <$> l) as Hg' by congruence. cbn [paddr_to_vm_page_in]. destruct (in_arena_geo b a pa Hab) as [-> Ep].
  unfold index_of in Ep. rewrite Ep. by rewrite (IH l').
Qed.

Lemma paddr_to_vm_page_arena arenas pa p :
  paddr_to_vm_page_in arenas pa = Some p → ∃ a, a ∈ arenas ∧ ADDRESS_IN_ARENA pa a = true ∧ p = page_at a (index_of a pa).
Proof.
  induction arenas as [|a arenas IH]; [done|]. cbn [paddr_to_vm_page_in]. destruct (ADDRESS_IN_ARENA pa a) eqn:E.
  - intros [= <-]. exists a. split_and!; [left|done..].
  - intros H. destruct (IH H) as (b & ? & ? & ?). exists b. split_and!; [by right|done..].
Qed.

(** One page of the loop: its page structure is in use afterwards. *)
Lemma mark_one pa l s :
  pinv s → 0 ≤ pa < 2 ^ 64 → paged pa →
  ∃ t s', pmm_alloc_range pa 1 l s = Ok (zlen t, l ++ t, s') ∧ taken s s' t ∧
    (∀ p, p ∈ t → paddr_to_vm_page s pa = Some p) ∧ ∀ p, paddr_to_vm_page s pa = Some p → in_use s' p.
Proof.
  intros Hp Hpa Hpg. destruct (pmm_alloc_range_ok pa 1 l s Hp Hpa ltac:(lia)) as (t & s' & E & Hp' & Hg & Hn & Hf & Hpages & Hall).
  assert (ROUNDDOWN pa PAGE_SIZE = pa) as Hx.
  { unfold PAGE_SIZE. change 4096 with (2 ^ 12). rewrite ROUNDDOWN_spec by lia. destruct Hpg as [k ->]. unfold PAGE_SIZE.
    change 4096 with (2 ^ 12). rewrite Z.mod_mul by lia. lia. }
  rewrite Hx in *. assert (taken s s' t) as Ht by (by split_and!).
  assert (∀ p, p ∈ t → paddr_to_vm_page s pa = Some p) as Hin.
  { intros p Hin. destruct t as [|p' [|p'' t]]; [by apply elem_of_nil in Hin| |unfold zlen in Hn; simpl in Hn; lia].
    apply list_elem_of_singleton in Hin as ->. specialize (Hpages 0 p' eq_refl). rewrite Z.mul_0_r, Z.add_0_r, u64_small in Hpages by lia. done. }
  exists t, s'. split_and!; [done|done|done|]. intros p Hpp.
  destruct (paddr_to_vm_page_arena _ _ _ Hpp) as (a & Ha & Hia & ->). pose proof (arenas_ok_elem a _ _ (pi_arenas _ Hp) Ha) as Hok.
  pose proof (ao_geo _ _ Hok) as Hgo. assert (is_page a (page_at a (index_of a pa))) as Hip.
  { exists (index_of a pa). split; [|done]. apply index_of_range; [done|]. by apply ADDRESS_IN_ARENA_iff. }
  destruct (decide (page_at a (index_of a pa) ∈ a_free_list a)) as [Hfree|Hused].
  - assert (zlen t = 1) as Hl.
    { apply (Hall a Ha). intros i Hi. replace i with 0 by lia. by rewrite Z.mul_0_r, Z.add_0_r. }
    destruct t as [|p t]; [done|]. destruct (taken_all_in_use _ _ _ Ht) as [_ Hu]. apply Forall_cons in Hu as [Hu _].
    pose proof (Hin p (list_elem_of_here _ _)). congruence.
  - apply (taken_keeps s s' t); [done|]. apply in_use_iff; [done|by exists a|]. unfold free_pages. rewrite elem_of_free_list_of.
    intros (b & Hb & Hpb). apply (ao_free _ _ (arenas_ok_elem b _ _ (pi_arenas _ Hp) Hb)) in Hpb as [_ Hflag].
    apply Hused. by apply (ao_free _ _ Hok).
Qed.

(** The pages that back [n] pages of addresses from [va] on. *)
Definition backing (x : A) (va n : Z) (s : pmm) (p : Z) : Prop :=
  ∃ i pa, 0 ≤ i < n ∧ query x (va + i * PAGE_SIZE) = Some pa ∧ paddr_to_vm_page s pa = Some p.

(** The page tables have all of the addresses. *)
Definition mapped (x : A) (va n : Z) : Prop :=
  ∀ i, 0 ≤ i < n → ∃ pa, query x (va + i * PAGE_SIZE) = Some pa ∧ 0 ≤ pa < 2 ^ 64 ∧ paged pa.

Lemma mark_loop_ok n : ∀ x va l s,
  pinv s → 0 ≤ va → va + Z.of_nat n * PAGE_SIZE ≤ 2 ^ 64 → mapped x va (Z.of_nat n) →
  ∃ t s', mark_loop n x va l s = Ok s' ∧ taken s s' t ∧ (∀ p, p ∈ t → backing x va (Z.of_nat n) s p) ∧
    ∀ p, backing x va (Z.of_nat n) s p → in_use s' p.
Proof.
  induction n as [|n IH]; intros x va l s Hp Hva Hend Hm; cbn [mark_loop].
  - exists [], s. split_and!; [done..|by intros p ?%elem_of_nil|]. intros p (i & pa & ? & _). lia.
  - destruct (Hm 0 ltac:(lia)) as (pa & Eq & Hpa & Hpg). rewrite Z.mul_0_l, Z.add_0_r in Eq. rewrite Eq. cbn [of_option mbind res_bind].
    destruct (mark_one pa l s Hp Hpa Hpg) as (t1 & s1 & E1 & Ht1 & Hin1 & Hu1). rewrite E1. cbn [mbind res_bind].
    pose proof Ht1 as (_ & Hp1 & Hg1 & Hf1).
    assert (∀ i pa', query x (va + i * PAGE_SIZE) = Some pa' → paddr_to_vm_page s1 pa' = paddr_to_vm_page s pa') as Hgeo
      by (intros; by apply paddr_to_vm_page_geo).
    assert (mapped x (va + PAGE_SIZE) (Z.of_nat n)) as Hm'.
    { intros i Hi. replace (va + PAGE_SIZE + i * PAGE_SIZE) with (va + (i + 1) * PAGE_SIZE) by lia. apply Hm. lia. }
    assert (∀ p, backing x va (Z.of_nat (S n)) s p ↔ paddr_to_vm_page s pa = Some p ∨ backing x (va + PAGE_SIZE) (Z.of_nat n) s1 p) as Hb.
    { intros p. split.
      - intros (i & pa' & Hi & Eq' & Ep). destruct (Z.eq_dec i 0) as [->|]; [rewrite Z.mul_0_l, Z.add_0_r in Eq'; left; congruence|].
        right. exists (i - 1), pa'. replace (va + PAGE_SIZE + (i - 1) * PAGE_SIZE) with (va + i * PAGE_SIZE) by lia. rewrite (Hgeo i) by done. split_and!; try done; lia.
      - intros [Ep|(i & pa' & Hi & Eq' & Ep)]; [exists 0, pa; rewrite Z.mul_0_l, Z.add_0_r; split_and!; try done; lia|].
        replace (va + PAGE_SIZE + i * PAGE_SIZE) with (va + (i + 1) * PAGE_SIZE) in Eq' by lia. rewrite (Hgeo _ _ Eq') in Ep.
        exists (i + 1), pa'. split_and!; try done; lia. }
    assert (∃ t2 s', mark_loop n x (u64 (va + PAGE_SIZE)) (l ++ t1) s1 = Ok s' ∧ taken s1 s' t2 ∧
      (∀ p, p ∈ t2 → backing x (va + PAGE_SIZE) (Z.of_nat n) s1 p) ∧ ∀ p, backing x (va + PAGE_SIZE) (Z.of_nat n) s1 p → in_use s' p) as
      (t2 & s' & E2 & Ht2 & Hin2 & Hu2).
    { destruct n as [|n]; [apply (IH x (va + PAGE_SIZE) (l ++ t1) s1); unfold PAGE_SIZE in *; done || lia|].
      rewrite u64_small by (unfold PAGE_SIZE in *; lia). apply IH; unfold PAGE_SIZE in *; done || lia. }
    exists (t1 ++ t2), s'. pose proof Ht2 as (_ & Hp' & Hg2 & Hf2). split_and!; [done| | |].
    + split_and!; [done|done|congruence|]. by rewrite Hf1, Hf2, app_assoc.
    + intros p [Hin|Hin]%elem_of_app; apply Hb; auto.
    + intros p [Ep|Hbk]%Hb; [|auto]. apply (taken_keeps s1 s' t2); auto.
Qed.

(** The whole pages of a range of addresses. *)
Definition first_page (va : Z) : Z := ROUNDDOWN va PAGE_SIZE.
Definition pages_in (va len : Z) : Z := ROUNDUP (u64 (len + Z.land va (PAGE_SIZE - 1))) PAGE_SIZE / PAGE_SIZE.

Lemma mark_pages_ok x va len s :
  pinv s → 0 ≤ va < 2 ^ 64 → first_page va + pages_in va len * PAGE_SIZE ≤ 2 ^ 64 → mapped x (first_page va) (pages_in va len) →
  ∃ t s', mark_pages_in_use x va len s = Ok s' ∧ taken s s' t ∧ (∀ p, p ∈ t → backing x (first_page va) (pages_in va len) s p) ∧
    ∀ p, backing x (first_page va) (pages_in va len) s p → in_use s' p.
Proof.
  intros Hp Hva Hend Hm. unfold mark_pages_in_use. fold (first_page va) (pages_in va len).
  assert (0 ≤ pages_in va len) as Hn.
  { unfold pages_in. destruct (page_size_range (u64 (len + Z.land va (PAGE_SIZE - 1)))) as [H _]. apply Z.div_pos; [lia|done]. }
  assert (0 ≤ first_page va) as Hf.
  { unfold first_page, PAGE_SIZE. change 4096 with (2 ^ 12). rewrite ROUNDDOWN_spec by lia.
    pose proof (Z.mod_le va (2 ^ 12) ltac:(lia) ltac:(lia)). lia. }
  pose proof (mark_loop_ok (Z.to_nat (pages_in va len)) x (first_page va) [] s Hp Hf) as H. rewrite Z2Nat.id in H by done. by apply H.
Qed.
End vm.

(** * The initial mappings *)

(** The entries of the table that stay mapped. *)
Fixpoint kept (maps : list mmu_initial_mapping) : list mmu_initial_mapping :=
  match maps with
  | [] => []
  | m :: maps =>
      if negb (0 <? map_size m) then []
      else if has_flag (map_flags m) MMU_INITIAL_MAPPING_TEMPORARY then kept maps
      else m :: kept maps
  end.

Definition maps_apart (m m' : mmu_initial_mapping) : Prop :=
  virt m + map_size m ≤ virt m' ∨ virt m' + map_size m' ≤ virt m.

(** What the platform's table is like: whole pages, apart from each other. *)
Fixpoint table_ok (l : list mmu_initial_mapping) : Prop :=
  match l with
  | [] => True
  | m :: l => paged (virt m) ∧ paged (map_size m) ∧ 0 < map_size m < 2 ^ 64 ∧ Forall (maps_apart m) l ∧ table_ok l
  end.

Section boot.
Context {A : Type} (mmu : mmu_ops A) (query : A → Z → option Z).
Context (tr : A → Z → option Z) (spans : A → Z → Z → Prop) {LAWS : MmuLaws mmu tr spans}.
Implicit Types (v : vmm A) (x : A) (a : aspace A).
#[local] Notation ainv := (ainv tr spans).
#[local] Notation vinv := (vinv tr spans).
#[local] Notation step_ok := (step_ok tr spans).

(** The region that [vm_init_postheap] makes for a mapping. *)
Definition reserves (l : list region) (m : mmu_initial_mapping) : Prop :=
  ∃ r, r ∈ l ∧ r_base r = virt m ∧ r_size r = map_size m ∧ r_flags r = VMM_REGION_FLAG_RESERVED.

Lemma vm_init_postheap_ok s maps : ∀ addrs a,
  ainv s a → table_ok (kept maps) → (length (kept maps) ≤ length addrs)%nat → NoDup addrs →
  (∀ p, p ∈ addrs → p ∉ r_addr <$> region_list a) →
  Forall (λ m, vacant (as_base a) (as_limit a) (region_list a) (virt m) (map_size m)) (kept maps) →
  ∃ a', vm_init_postheap mmu maps (Some <$> addrs) a = Ok a' ∧ step_ok s a s a' ∧
    (∀ r, r ∈ region_list a → r ∈ region_list a') ∧ Forall (reserves (region_list a')) (kept maps).
Proof.
  induction maps as [|m maps IH]; intros addrs a Ha Ht Hlen Hnd Hfr Hvac; cbn [vm_init_postheap kept] in *.
  { exists a. split_and!; [done|by apply step_refl|done|constructor]. }
  destruct (0 <? map_size m); cbn [negb] in *; [|exists a; split_and!; [done|by apply step_refl|done|constructor]].
  destruct (has_flag _ _); [by apply IH|]. destruct Ht as (Hpv & Hps & Hsz & Hap & Ht). apply Forall_cons in Hvac as [Hv Hvac].
  destruct addrs as [|addr addrs]; [simpl in Hlen; lia|]. apply NoDup_cons in Hnd as [Hna Hnd]. change (default None (head (Some <$> addr :: addrs))) with (Some addr).
  change (tail (Some <$> addr :: addrs)) with (Some <$> addrs).
  pose proof (aw_range _ (ai_wf _ _ _ _ Ha)) as Hg. pose proof Hv as (Hlo & Hhi & Hother).
  assert (0 ≤ virt m < 2 ^ 64) as Hvr by (destruct Hg as [[? _] [? _] _]; lia).
  destruct (vmm_reserve_space_ok mmu tr spans s a (Some addr) (map_name m) (map_size m) (virt m)) as (err & a1 & E & Ha1 & Hout);
    [done|apply Hfr; left|lia|done|done|done|]. cbv zeta in Hout. rewrite Z.min_l in Hout by lia.
  rewrite E. cbn [mbind res_bind].
  destruct Hout as [(-> & [(_ & ?)|[(_ & Hno)|(_ & [?|Hno])]])|(_ & r & l1 & l2 & El & -> & _ & Hfl & Hb & Hz & [= Er] & Hpl)]; [lia|lia|done|done|].
  set (a1 := with_regions (l1 ++ r :: l2) a) in *.
  assert (∀ r', r' ∈ region_list a1 ↔ r' = r ∨ r' ∈ region_list a) as Hin1 by (intros r'; unfold a1; simpl; rewrite El; set_solver).
  destruct (IH addrs a1) as (a' & E' & Hst & Hkeep & Hres); [done|done|simpl in Hlen; lia|done| | |].
  - intros p Hp [r' [-> Hr']]%list_elem_of_fmap. apply Hin1 in Hr' as [->|Hr']; [by rewrite <- Er in Hp|].
    apply (Hfr (r_addr r')); [by right|]. by apply list_elem_of_fmap_2.
  - rewrite Forall_forall in Hvac, Hap |- *. intros m' Hm'. destruct (Hvac m' Hm') as (? & ? & Hf'). split_and!; [done..|].
    rewrite Forall_forall in Hf' |- *. intros r' [->|Hr']%Hin1; [|by apply Hf']. unfold r_limit. rewrite Hb, Hz. destruct (Hap m' Hm'); lia.
  - exists a'. split_and!; [done| | |].
    + pose proof (step_insert tr spans s a r l1 l2 Ha1 El Hpl) as Hs1. destruct Hst as [H1 H2 H3 H4], Hs1 as [G1 G2 G3 G4].
      split; [done|done| |done]. intros p [Hp|Hp]%H3; [by apply G3|by right].
    + intros r' Hr'. apply Hkeep, Hin1. by right.
    + constructor; [|done]. exists r. split_and!; [|done..]. apply Hkeep, Hin1. by left.
Qed.

Lemma vinv_boot_phys ly s s' i v :
  layout_ok ly → pinv s' → 0 ≤ fst (arch_mmu_init_aspace mmu (KERNEL_ASPACE_BASE ly) (KERNEL_ASPACE_SIZE ly) ARCH_ASPACE_FLAG_KERNEL) →
  v = vmm_init_preheap mmu ly i (mk_vmm ∅ [] s None) → vinv (with_phys s' v).
Proof.
  intros Hly Hp Hi ->. pose proof (vinv_boot mmu tr spans ly s' i Hly Hp Hi) as H. unfold with_phys, vmm_init_preheap in *.
  by destruct (arch_mmu_init_aspace mmu _ _ _).
Qed.

(** The kernel's page tables at start-up. *)
Definition kernel_table (ly : layout) : A :=
  snd (arch_mmu_init_aspace mmu (KERNEL_ASPACE_BASE ly) (KERNEL_ASPACE_SIZE ly) ARCH_ASPACE_FLAG_KERNEL).

(** A range of addresses that the page tables have. *)
Definition range_mapped (x : A) (va len : Z) : Prop :=
  first_page va + pages_in va len * PAGE_SIZE ≤ 2 ^ 64 ∧ mapped query x (first_page va) (pages_in va len).
Definition range_backing (x : A) (va len : Z) (s : pmm) (p : Z) : Prop := backing query x (first_page va) (pages_in va len) s p.

Lemma vm_init_preheap_ok ly i s start end_ :
  layout_ok ly → pinv s → 0 ≤ fst (arch_mmu_init_aspace mmu (KERNEL_ASPACE_BASE ly) (KERNEL_ASPACE_SIZE ly) ARCH_ASPACE_FLAG_KERNEL) →
  0 ≤ start ≤ end_ → end_ ≤ boot_alloc_end s < 2 ^ 64 →
  range_mapped (kernel_table ly) start (end_ - start) → range_mapped (kernel_table ly) end_ (boot_alloc_end s - end_) →
  ∃ v a, vm_init_preheap mmu query ly i start end_ (mk_vmm ∅ [] s None) = Ok v ∧ vinv v ∧ aspaces v !! i = Some a ∧
    region_list a = [] ∧ as_base a = KERNEL_ASPACE_BASE ly ∧ as_size a = KERNEL_ASPACE_SIZE ly ∧
    ∀ p, range_backing (kernel_table ly) start (end_ - start) s p ∨
      (boot_alloc_end s ≠ end_ ∧ range_backing (kernel_table ly) end_ (boot_alloc_end s - end_) s p) → in_use (phys_mem v) p.
Proof.
  intros Hly Hp Hi Hse Hbe [Hk1 Hk2] [Hb1 Hb2]. unfold vm_init_preheap, kernel_table in *. set (v0 := vmm_init_preheap mmu ly i _).
  assert (∃ a, aspaces v0 !! i = Some a ∧ region_list a = [] ∧ as_base a = KERNEL_ASPACE_BASE ly ∧ as_size a = KERNEL_ASPACE_SIZE ly ∧
    arch_aspace a = kernel_table ly ∧ phys_mem v0 = s) as (a & Ea & Hr & Hba & Hsi & Hx & Es).
  { unfold v0, vmm_init_preheap, kernel_table. destruct (arch_mmu_init_aspace mmu _ _ _) as [err x]. simpl. rewrite lookup_insert_eq. by eexists. }
  rewrite Ea. cbn [of_option mbind res_bind]. rewrite Hx, Es, (u64_small (end_ - start)), (u64_small (boot_alloc_end s - end_)) by lia.
  destruct (mark_pages_ok query (kernel_table ly) start (end_ - start) s Hp ltac:(lia) Hk1 Hk2) as (t1 & s1 & E1 & Ht1 & _ & Hu1).
  rewrite E1. cbn [mbind res_bind]. pose proof Ht1 as (_ & Hp1 & Hg1 & _). destruct (Z.eqb_spec (boot_alloc_end s) end_) as [He|He].
  - exists (with_phys s1 v0), a. split_and!; [done|by eapply vinv_boot_phys|done..|]. intros p [Hb|[? _]]; [by apply Hu1|done].
  - destruct (mark_pages_ok query (kernel_table ly) end_ (boot_alloc_end s - end_) s1 Hp1 ltac:(lia) Hb1 Hb2) as (t2 & s2 & E2 & Ht2 & _ & Hu2).
    rewrite E2. cbn [mbind res_bind]. exists (with_phys s2 v0), a. split_and!; [done|eapply vinv_boot_phys; [done|apply Ht2|done|done]|done..|].
    intros p [Hb|[_ (j & pa & Hj & Eq & Ep)]]; [eapply taken_keeps; [exact Ht2|by apply Hu1]|].
    apply Hu2. exists j, pa. split; [done|]. split; [done|]. by rewrite (paddr_to_vm_page_geo s s1).
Qed.

(** C13: After the start-up of kernel memory no page of the kernel's image and none
    that the boot allocator handed out can be allocated; every initial mapping that
    stays has its reserved region, and the address spaces are in order. *)
Theorem vm_boot_protects_kernel ly i s start end_ maps addrs :
  layout_ok ly → pinv s → 0 ≤ fst (arch_mmu_init_aspace mmu (KERNEL_ASPACE_BASE ly) (KERNEL_ASPACE_SIZE ly) ARCH_ASPACE_FLAG_KERNEL) →
  0 ≤ start ≤ end_ → end_ ≤ boot_alloc_end s < 2 ^ 64 →
  range_mapped (kernel_table ly) start (end_ - start) → range_mapped (kernel_table ly) end_ (boot_alloc_end s - end_) →
  table_ok (kept maps) → NoDup addrs → (length (kept maps) ≤ length addrs)%nat →
  Forall (λ m, KERNEL_ASPACE_BASE ly ≤ virt m ∧ virt m + map_size m ≤ KERNEL_ASPACE_BASE ly + KERNEL_ASPACE_SIZE ly) (kept maps) →
  ∃ v a a', vm_init_preheap mmu query ly i start end_ (mk_vmm ∅ [] s None) = Ok v ∧ aspaces v !! i = Some a ∧
    vm_init_postheap mmu maps (Some <$> addrs) a = Ok a' ∧ vinv (set_aspace i a' (phys_mem v) v) ∧ Forall (reserves (region_list a')) (kept maps) ∧
    ∀ p, range_backing (kernel_table ly) start (end_ - start) s p ∨
      (boot_alloc_end s ≠ end_ ∧ range_backing (kernel_table ly) end_ (boot_alloc_end s - end_) s p) → p ∉ free_pages (phys_mem v).
Proof.
  intros Hly Hp Hi Hse Hbe Hk Hb Ht Hnd Hlen Hins.
  destruct (vm_init_preheap_ok ly i s start end_ Hly Hp Hi Hse Hbe Hk Hb) as (v & a & E & Hv & Ea & Hr & Hba & Hsi & Hu).
  destruct (vm_init_postheap_ok (phys_mem v) maps addrs a) as (a' & E' & Hst & _ & Hres).
  - by apply (vi_each _ _ _ Hv i).
  - done.
  - done.
  - done.
  - rewrite Hr. intros p _. apply not_elem_of_nil.
  - rewrite Hr. unfold as_limit. rewrite Hba, Hsi. eapply Forall_impl; [exact Hins|]. intros m [? ?]. by split_and!.
  - exists v, a, a'. split_and!; [done..|by eapply vinv_step|done|]. intros p Hpb. specialize (Hu p Hpb).
    destruct Hu as [Hpage Hflag]. by apply (in_use_iff _ _ (vi_pmm _ _ _ Hv) Hpage).
Qed.
End boot.
