(* ===== verification/VmmExamples.v ===== *)
(** A page table and the calls on it.

    [soft_mmu] is an architecture with a finite map for its page tables that can
    refuse to map one address; it satisfies [MmuLaws], and the theorems on
    address spaces are applied to it at concrete states. *)
From stdpp Require Import prelude strings gmap sorting.
From S2P Require Import Prelude Bytes Pmm Vmm VmmSpec VmmInv VmmAlloc VmmSpace Vm.

#[local] Open Scope Z_scope.

Record table := mk_table {
  t_lo : Z;
  t_hi : Z;
  t_map : gmap Z Z;
  t_cpus : Z;
}.

Definition soft_spans (x : table) (lo hi : Z) : Prop := t_lo x = lo ∧ t_hi x = hi.
Definition soft_tr (x : table) (v : Z) : option Z := t_map x !! v.

Definition range_pages (va pa n : Z) : gmap Z Z :=
  list_to_map ((λ i, (va + i * PAGE_SIZE, pa + i * PAGE_SIZE)) <$> seqZ 0 n).

(** The address [bad] cannot be mapped. *)
Definition soft_map (bad : Z) (x : table) (va pa n fl : Z) : Z * table :=
  if va =? bad then (ERR_NO_MEMORY, x)
  else (NO_ERROR, mk_table (t_lo x) (t_hi x) (range_pages va pa n ∪ t_map x) (t_cpus x)).

Definition soft_unmap (x : table) (va n : Z) : table :=
  mk_table (t_lo x) (t_hi x) (filter (λ kv, ¬ va ≤ kv.1 < va + n * PAGE_SIZE) (t_map x)) (t_cpus x).

Definition set_cpus (c : Z) (x : table) : table := mk_table (t_lo x) (t_hi x) (t_map x) c.

Definition soft_mmu (bad : Z) : mmu_ops table :=
  mk_mmu _ (soft_map bad) soft_unmap (λ _ _, 0) (λ base size _, (NO_ERROR, mk_table base (base + size) ∅ 0)) true t_cpus
    (λ old new, (set_cpus 0 <$> old, set_cpus 1 <$> new)) id.

Lemma range_pages_in va pa n i : 0 ≤ i < n → range_pages va pa n !! (va + i * PAGE_SIZE) = Some (pa + i * PAGE_SIZE).
Proof.
  intros Hi. unfold range_pages. apply elem_of_list_to_map.
  - rewrite <- list_fmap_compose. apply NoDup_fmap_2; [|apply NoDup_seqZ]. intros j k. simpl. unfold PAGE_SIZE. lia.
  - apply list_elem_of_fmap. exists i. split; [done|]. by apply elem_of_seqZ.
Qed.

Lemma range_pages_out va pa n v : ¬ va ≤ v < va + n * PAGE_SIZE → range_pages va pa n !! v = None.
Proof.
  intros Hv. unfold range_pages. apply not_elem_of_list_to_map_1. rewrite <- list_fmap_compose. intros (i & -> & Hi)%list_elem_of_fmap.
  apply elem_of_seqZ in Hi. apply Hv. simpl. unfold PAGE_SIZE. lia.
Qed.

#[export] Instance soft_laws bad : MmuLaws (soft_mmu bad) soft_tr soft_spans.
Proof.
  split; unfold soft_spans, soft_tr; simpl.
  - intros x lo hi va pa n fl. unfold soft_map. by destruct (va =? bad).
  - done.
  - intros x lo hi va pa n fl i _ _ _ _ _ _. unfold soft_map. destruct (va =? bad); simpl; [unfold ERR_NO_MEMORY; lia|].
    intros _ Hi. by rewrite lookup_union, range_pages_in, union_Some_l.
  - intros x lo hi va pa n fl v _ _ _ _ _ _ Hv. unfold soft_map. destruct (va =? bad); simpl; [done|].
    by rewrite lookup_union, range_pages_out, (left_id None union).
  - intros x lo hi va n v _ _ _ _ _.
    destruct (Z.leb_spec va v), (Z.ltb_spec v (va + n * PAGE_SIZE)); simpl.
    1: apply map_lookup_filter_None; right; intros w _; simpl; lia.
    all: apply option_eq; intros w; rewrite map_lookup_filter_Some; simpl; intuition lia.
  - done.
  - intros [x|] [y|]; simpl; done.
Qed.

(** ** A kernel address space over two arenas *)

Definition ex_layout : layout := mk_layout 0xffffffff80000000 0x80000000 0x1000000 0x10000000.

Lemma ex_layout_ok : layout_ok ex_layout.
Proof. split; (split; [split; [done|by apply IS_PAGE_ALIGNED_iff]..|done]). Qed.

Definition ex_boot (bad : Z) : vmm table := vmm_init_preheap (soft_mmu bad) ex_layout 0 (mk_vmm ∅ [] two_arenas None).

Lemma ex_boot_vinv bad : vinv soft_tr soft_spans (ex_boot bad).
Proof. apply vinv_boot; [by apply _|apply ex_layout_ok|apply two_arenas_pinv|done]. Qed.

Definition ex_kernel : aspace table := mk_aspace "kernel"%string VMM_ASPACE_FLAG_KERNEL 0xffffffff80000000 0x80000000 [] (mk_table 0xffffffff80000000 (2 ^ 64) ∅ 0).

Lemma ex_kernel_at bad : aspaces (ex_boot bad) !! 0%nat = Some ex_kernel.
Proof. reflexivity. Qed.

Lemma ex_kernel_ainv : ainv soft_tr soft_spans two_arenas ex_kernel.
Proof. apply (vi_each _ _ _ (ex_boot_vinv 0) 0 ex_kernel). apply ex_kernel_at. Qed.

Lemma ex_request : request_ok ex_kernel (Some 0x100) (Some 0) 0 0.
Proof. split; [by intros ?%elem_of_nil|done|]. intros v _ H. discriminate H. Qed.

(** Ten and a half kilobytes take three pages. *)
Definition ex_alloc (bad : Z) : res (Z * option Z * aspace table * pmm) :=
  vmm_alloc (soft_mmu bad) ex_kernel (Some 0x100) (Some "stack"%string) 0x2a00 (Some 0) 0 0 0 two_arenas.

Definition ex_kernel1 : aspace table := match ex_alloc 0 with Ok (_, _, a, _) => a | Fault _ => ex_kernel end.
Definition ex_pmm1 : pmm := match ex_alloc 0 with Ok (_, _, _, s) => s | Fault _ => two_arenas end.
Definition ex_region : region := mk_region 0x100 "stack"%string VMM_REGION_FLAG_PHYSICAL 0 0xffffffff80000000 0x3000 (ztake 3 (free_pages two_arenas)).

Lemma ex_alloc_eq : ex_alloc 0 = Ok (NO_ERROR, Some 0xffffffff80000000, ex_kernel1, ex_pmm1).
Proof. vm_compute. reflexivity. Qed.

Lemma ex_alloc_regions : region_list ex_kernel1 = [ex_region].
Proof. vm_compute. reflexivity. Qed.

(** If the second page cannot be mapped, nothing is left of the call. *)
Example ex_alloc_refused :
  match ex_alloc 0xffffffff80001000 with
  | Ok (err, ptr, a, s) => err = ERR_NO_MEMORY ∧ ptr = Some 0 ∧ a = ex_kernel ∧ zlen (free_pages s) = zlen (free_pages two_arenas)
  | Fault _ => False
  end.
Proof. vm_compute. done. Qed.

Lemma ex_outcome :
  ainv soft_tr soft_spans ex_pmm1 ex_kernel1 ∧
  added soft_tr two_arenas ex_kernel (Some 0x100) (Some 0) 0x3000 0 0 ex_region ex_pmm1 ex_kernel1.
Proof.
  destruct (vmm_alloc_ok (soft_mmu 0) soft_tr soft_spans two_arenas ex_kernel (Some 0x100) (Some "stack"%string) 0x2a00 (Some 0) 0 0 0
    ex_kernel_ainv ex_request) as (out & E & H). pose proof ex_alloc_eq as E'. unfold ex_alloc in E'. rewrite E in E'.
  injection E' as ->. change (ROUNDUP 0x2a00 PAGE_SIZE) with 0x3000 in H. destruct H as (Ha & [(_ & r & _ & _ & Hadd)|(Hptr & _)]); [|discriminate Hptr].
  split; [done|]. assert (r = ex_region) as <-; [|done]. destruct Hadd as (l1 & l2 & _ & E1 & E2 & _). symmetry in E1. apply app_nil in E1 as [-> ->].
  pose proof ex_alloc_regions as Er. rewrite E2 in Er. by injection Er.
Qed.

(** ** The theorems at these states *)

Lemma alloc_spot_first_fit_witness :
  ∃ spot n, alloc_spot ex_kernel1 0x2000 14 = Ok (spot, n) ∧
    if spot =? NO_SPOT then ∀ v, ¬ ((2 ^ spot_log2 14 | v) ∧ vacant (as_base ex_kernel1) (as_limit ex_kernel1) (region_list ex_kernel1) v 0x2000)
    else ((2 ^ spot_log2 14 | spot) ∧ vacant (as_base ex_kernel1) (as_limit ex_kernel1) (region_list ex_kernel1) spot 0x2000) ∧
      (∀ v, (2 ^ spot_log2 14 | v) ∧ vacant (as_base ex_kernel1) (as_limit ex_kernel1) (region_list ex_kernel1) v 0x2000 → spot ≤ v) ∧
      Forall (λ r, r_limit r ≤ spot) (take n (region_list ex_kernel1)) ∧
      Forall (λ r, spot + 0x2000 ≤ r_base r) (drop n (region_list ex_kernel1)).
Proof.
  apply (alloc_spot_first_fit ex_kernel1 0x2000 14).
  - apply ex_outcome.
  - done.
  - by exists 2.
  - done.
Defined.

Lemma add_region_spec_witness :
  let r := mk_region 0x200 "mmio"%string VMM_REGION_FLAG_PHYSICAL 0 0xffffffff80002000 0x2000 [] in
  let '(err, a') := add_region_to_aspace ex_kernel1 r in
  awf a' ∧ (err = NO_ERROR ↔ vacant (as_base ex_kernel1) (as_limit ex_kernel1) (region_list ex_kernel1) (r_base r) (r_size r)) ∧
  if err =? NO_ERROR then region_list a' ≡ₚ r :: region_list ex_kernel1 ∧ arch_aspace a' = arch_aspace ex_kernel1 else a' = ex_kernel1.
Proof.
  intros r. apply (add_region_spec ex_kernel1 r).
  - apply ex_outcome.
  - done.
  - done.
  - by apply IS_PAGE_ALIGNED_iff.
  - by apply IS_PAGE_ALIGNED_iff.
  - rewrite ex_alloc_regions. set_solver.
Defined.

Lemma vmm_alloc_spec_witness :
  ∃ out, ex_alloc 0xffffffff80001000 = Ok out ∧
    alloc_outcome (soft_mmu 0xffffffff80001000) soft_tr soft_spans two_arenas ex_kernel (Some 0x100) (Some 0) 0x3000 0 0 0 out.
Proof.
  apply (vmm_alloc_spec (soft_mmu 0xffffffff80001000) soft_tr soft_spans two_arenas ex_kernel (Some 0x100) (Some "stack"%string)
    0x2a00 (Some 0) 0 0 0).
  - apply ex_kernel_ainv.
  - apply ex_request.
Defined.

Lemma ex_small : Forall (λ r, r_size r < 2 ^ 44) (region_list ex_kernel1).
Proof. rewrite ex_alloc_regions. by repeat constructor. Qed.

Lemma vmm_free_region_spec_witness :
  match vmm_find_region ex_kernel1 0xffffffff80001234 with
  | None => False
  | Some r => ∃ l1 l2 x s', region_list ex_kernel1 = l1 ++ r :: l2 ∧
      vmm_free_region (soft_mmu 0) ex_kernel1 0xffffffff80001234 ex_pmm1 = Ok (NO_ERROR, with_arch x (with_regions (l1 ++ l2) ex_kernel1), s') ∧
      taken s' ex_pmm1 (r_page_list r)
  end.
Proof.
  pose proof (vmm_free_region_spec (soft_mmu 0) soft_tr soft_spans ex_pmm1 ex_kernel1 0xffffffff80001234 (proj1 ex_outcome) ex_small) as H.
  assert (vmm_find_region ex_kernel1 0xffffffff80001234 = Some ex_region) as E by (vm_compute; reflexivity).
  rewrite E in *. destruct H as (_ & l1 & l2 & x & s' & El & Ef & _ & Ht & _). exists l1, l2, x, s'. split_and!; done.
Defined.



(** The address space with the region, current on its thread. *)
Definition ex_vmm1 : vmm table := set_aspace 0 ex_kernel1 ex_pmm1 (with_cur (Some 0%nat) (ex_boot 0)).

Lemma ex_vmm1_vinv : vinv soft_tr soft_spans ex_vmm1.
Proof.
  destruct ex_outcome as [Ha Hadd]. apply (vinv_step soft_tr soft_spans _ 0 ex_kernel).
  - apply vinv_cur; [apply ex_boot_vinv|]. intros i [= <-]. by exists ex_kernel.
  - apply ex_kernel_at.
  - eapply (step_added (soft_mmu 0)); [apply soft_laws|exact Ha|exact Hadd].
Qed.

Lemma vmm_free_aspace_spec_witness :
  ∃ v' x, vmm_free_aspace (soft_mmu 0) 0 ex_vmm1 = Ok (NO_ERROR, v', Some x) ∧ cur_aspace v' = None ∧
    taken (phys_mem v') ex_pmm1 (pages_of (region_list ex_kernel1)) ∧ soft_tr x 0xffffffff80001000 = None.
Proof.
  destruct (vmm_free_aspace_spec (soft_mmu 0) soft_tr soft_spans ex_vmm1 0 ex_kernel1 ex_vmm1_vinv ltac:(reflexivity) ex_small)
    as (err & v' & d & E & _ & Hc & [(-> & _)|(-> & _ & _ & Ht & _ & x & -> & Hx)]).
  - exfalso. vm_compute in E. discriminate E.
  - exists v', x. split_and!; [exact E|exact Hc|exact Ht|]. rewrite Hx. vm_compute. reflexivity.
Defined.

(** ** Start-up *)

(** Two pages of image end where the boot allocator starts; they are at 0x1000. *)
Definition ex_query (x : table) (va : Z) : option Z := Some (va - 0xfd000).
Definition ex_table : list mmu_initial_mapping :=
  [mk_mapping 0 0xffffffff80000000 0x10000 0 (Some "kernel"%string);
   mk_mapping 0 0 0x10000 MMU_INITIAL_MAPPING_TEMPORARY None;
   mk_mapping 0xe0000000 0xffffffffe0000000 0x4000 0 (Some "devices"%string)].

Lemma ex_mapped x va n : 0xfd000 ≤ va → va + n * PAGE_SIZE < 2 ^ 64 → paged (va - 0xfd000) → mapped ex_query x va n.
Proof.
  intros Hva Hend Hp i Hi. exists (va - 0xfd000 + i * PAGE_SIZE). unfold ex_query, PAGE_SIZE in *. split; [f_equal; lia|]. split; [lia|].
  apply Z.divide_add_r; [done|]. by exists i.
Qed.

Lemma vm_boot_protects_kernel_witness :
  ∃ v a a', vm_init_preheap (soft_mmu 0) ex_query ex_layout 0 0xfe100 0x100000 (mk_vmm ∅ [] two_arenas None) = Ok v ∧ aspaces v !! 0%nat = Some a ∧
    vm_init_postheap (soft_mmu 0) ex_table (Some <$> [0x200; 0x300]) a = Ok a' ∧ vinv soft_tr soft_spans (set_aspace 0 a' (phys_mem v) v) ∧
    Forall (reserves (region_list a')) (kept ex_table) ∧ page_at (mk_arena 0 0 0 0 0 (0x100000 + 4 * sizeof_vm_page) []) 1 ∉ free_pages (phys_mem v).
Proof.
  destruct (vm_boot_protects_kernel (soft_mmu 0) ex_query soft_tr soft_spans ex_layout 0 two_arenas 0xfe100 0x100000 ex_table [0x200; 0x300])
    as (v & a & a' & E & Ea & E' & Hv & Hres & Hfree).
  - apply ex_layout_ok.
  - apply two_arenas_pinv.
  - done.
  - lia.
  - by vm_compute.
  - split; [by vm_compute|]. apply ex_mapped; [by vm_compute|by vm_compute|by exists 1].
  - split; [by vm_compute|]. apply ex_mapped; [by vm_compute|by vm_compute|by exists 3].
  - simpl. unfold maps_apart. simpl. split_and!; try done; try (by apply IS_PAGE_ALIGNED_iff); repeat constructor; simpl; lia.
  - apply (bool_decide_unpack _). by vm_compute.
  - done.
  - simpl. repeat constructor; simpl; lia.
  - exists v, a, a'. split_and!; [exact E|exact Ea|exact E'|exact Hv|exact Hres|]. apply Hfree. left. exists 1, 0x2000. split; [by vm_compute|]. split; by vm_compute.
Defined.
