(* ===== verification/Asid.v ===== *)
(** Address space identifiers: [kernel/vm/asid.c].

    A bitmap of 64 bit words, one bit for each id.  The abstract allocator is the
    set of the ids in use with the id handed out last; the search over words
    finds the first free id after that one, cyclically.  The spinlock makes each
    call one step. *)
From stdpp Require Import prelude.
From S2P Require Import Prelude.

#[local] Open Scope Z_scope.

Definition ASID_FIRST_USER : Z := 2.
Definition ASID_MAX : Z := 65535.
Definition BITS_PER_WORD : Z := 64.
Definition ASID_BITMAP_WORDS : nat := 1024.

Record asid_allocator := mk_asids {
  last : Z;
  max : Z;
  bitmap : list Z;
}.

(** The word of the bitmap that has the bit of [asid]. *)
Definition word_of (a : asid_allocator) (asid : Z) : res Z :=
  of_option BadAccess (bitmap a !! Z.to_nat (asid / BITS_PER_WORD)).

Definition update_word (a : asid_allocator) (asid : Z) (f : Z → Z) : res asid_allocator :=
  w ← word_of a asid;
  Ok (mk_asids (last a) (max a) (<[Z.to_nat (asid / BITS_PER_WORD) := f w]> (bitmap a))).

Definition asid_is_set (a : asid_allocator) (asid : Z) : res bool :=
  w ← word_of a asid;
  Ok (negb (Z.land (Z.shiftr w (asid `mod` BITS_PER_WORD)) 1 =? 0)).

Definition asid_set (a : asid_allocator) (asid : Z) : res asid_allocator :=
  update_word a asid (λ w, Z.lor w (Z.shiftl 1 (asid `mod` BITS_PER_WORD))).

Definition asid_clear (a : asid_allocator) (asid : Z) : res asid_allocator :=
  update_word a asid (λ w, Z.land w (Z.lnot (Z.shiftl 1 (asid `mod` BITS_PER_WORD)))).

Fixpoint find_free_loop (fuel : nat) (a : asid_allocator) (i end_ : Z) : res Z :=
  match fuel with
  | O => Fault OutOfFuel
  | S fuel =>
      if end_ <? i then Ok (-1) else
      w ← word_of a i;
      let free := Z.shiftr (u64 (Z.lnot w)) (i `mod` BITS_PER_WORD) in
      if negb (free =? 0) then
        let found := i + ctzl free in
        Ok (if found <=? end_ then found else -1)
      else find_free_loop fuel a ((i / BITS_PER_WORD + 1) * BITS_PER_WORD) end_
  end.

(** Each round goes on to the next word. *)
Definition find_free (a : asid_allocator) (start end_ : Z) : res Z :=
  find_free_loop (Z.to_nat (end_ / BITS_PER_WORD + 2 - start / BITS_PER_WORD)) a start end_.

Definition asid_allocator_init (max_asid : Z) : res asid_allocator :=
  assert_ (ASID_FIRST_USER <=? max_asid);;
  Ok (mk_asids (ASID_FIRST_USER - 1) max_asid (replicate ASID_BITMAP_WORDS 0)).

(** The id is only returned with [NO_ERROR]. *)
Definition asid_alloc (a : asid_allocator) : res (Z * option Z * asid_allocator) :=
  assert_ (ASID_FIRST_USER <=? max a);;
  found ← find_free a (last a + 1) (max a);
  found ← (if found <? 0 then find_free a ASID_FIRST_USER (last a) else Ok found);
  if found <? 0 then Ok (ERR_NO_MEMORY, None, a) else
  a ← asid_set a found;
  Ok (NO_ERROR, Some found, mk_asids found (max a) (bitmap a)).

Definition asid_free (a : asid_allocator) (asid : Z) : res asid_allocator :=
  assert_ ((ASID_FIRST_USER <=? asid) && (asid <=? max a));;
  b ← asid_is_set a asid;
  assert_ b;;
  asid_clear a asid.

(** * The bits *)

Definition used (a : asid_allocator) (k : Z) : bool :=
  Z.testbit (default 0 (bitmap a !! Z.to_nat (k / BITS_PER_WORD))) (k `mod` BITS_PER_WORD).

(** The words are whole; only ids that may be handed out are in use. *)
Record asid_inv (a : asid_allocator) : Prop := {
  ai_words : length (bitmap a) = ASID_BITMAP_WORDS;
  ai_word : Forall (λ w, 0 ≤ w < 2 ^ 64) (bitmap a);
  ai_max : ASID_FIRST_USER ≤ max a ≤ ASID_MAX;
  ai_last : ASID_FIRST_USER - 1 ≤ last a ≤ max a;
  ai_ids : ∀ k, 0 ≤ k ≤ ASID_MAX → used a k = true → ASID_FIRST_USER ≤ k ≤ max a;
}.

Lemma word_of_ok a k :
  asid_inv a → 0 ≤ k ≤ ASID_MAX →
  ∃ w, word_of a k = Ok w ∧ bitmap a !! Z.to_nat (k / BITS_PER_WORD) = Some w ∧ 0 ≤ w < 2 ^ 64.
Proof.
  intros [Hlen Hw _ _ _] Hk. unfold word_of. destruct (bitmap a !! Z.to_nat (k / BITS_PER_WORD)) as [w|] eqn:E.
  - exists w. split_and!; [done..| |]; rewrite Forall_lookup in Hw; by apply (Hw _ _ E).
  - exfalso. apply lookup_ge_None in E. rewrite Hlen in E. unfold ASID_BITMAP_WORDS, BITS_PER_WORD, ASID_MAX in *.
    assert (k / 64 < 1024) by (apply Z.div_lt_upper_bound; lia). pose proof (Z.div_pos k 64). lia.
Qed.

(** The bits of the rest of a word, inverted. *)
Lemma free_bits w s j :
  0 ≤ w < 2 ^ 64 → 0 ≤ s < 64 → 0 ≤ j →
  Z.testbit (Z.shiftr (u64 (Z.lnot w)) s) j = (j + s <? 64) && negb (Z.testbit w (j + s)).
Proof.
  intros Hw Hs Hj. rewrite Z.shiftr_spec by done. unfold u64. destruct (Z.ltb_spec (j + s) 64).
  - rewrite Z.mod_pow2_bits_low by lia. by rewrite Z.lnot_spec by lia.
  - by rewrite Z.mod_pow2_bits_high by lia.
Qed.

(** Bits of the same word. *)
Lemma same_word k d :
  0 ≤ k → 0 ≤ d → k `mod` BITS_PER_WORD + d < 64 →
  (k + d) / BITS_PER_WORD = k / BITS_PER_WORD ∧ (k + d) `mod` BITS_PER_WORD = k `mod` BITS_PER_WORD + d.
Proof.
  unfold BITS_PER_WORD. intros Hk Hd Hs. pose proof (Z.div_mod k 64). pose proof (Z.mod_pos_bound k 64).
  split; symmetry; [apply (Z.div_unique_pos _ _ _ (k `mod` 64 + d))|apply (Z.mod_unique_pos _ _ (k / 64))]; lia.
Qed.

(** * The search *)

Definition found_in (a : asid_allocator) (i end_ r : Z) : Prop :=
  (i ≤ r ≤ end_ ∧ used a r = false ∧ ∀ j, i ≤ j < r → used a j = true) ∨
  (r = -1 ∧ ∀ j, i ≤ j ≤ end_ → used a j = true).

(** One word: the first clear bit from [i] on, if the word has one. *)
Lemma word_search a i :
  asid_inv a → 0 ≤ i ≤ ASID_MAX →
  ∃ w, word_of a i = Ok w ∧
    let free := Z.shiftr (u64 (Z.lnot w)) (i `mod` BITS_PER_WORD) in
    if negb (free =? 0) then used a (i + ctzl free) = false ∧ 0 ≤ ctzl free ∧ ∀ j, i ≤ j < i + ctzl free → used a j = true
    else ∀ j, i ≤ j < (i / BITS_PER_WORD + 1) * BITS_PER_WORD → used a j = true.
Proof.
  intros Ha Hi. destruct (word_of_ok a i Ha Hi) as (w & Ew & El & Hw). exists w. split; [done|]. cbv zeta.
  set (free := Z.shiftr _ _). pose proof (Z.mod_pos_bound i 64 ltac:(lia)) as Hs. fold BITS_PER_WORD in Hs.
  assert (∀ d, 0 ≤ d → i `mod` BITS_PER_WORD + d < 64 → used a (i + d) = negb (Z.testbit free d)) as Hu.
  { intros d Hd Hsd. destruct (same_word i d ltac:(lia) Hd Hsd) as [E1 E2]. unfold used. rewrite E1, E2, El. cbn [default from_option]. unfold id.
    unfold free. rewrite free_bits by (done || lia). rewrite (proj2 (Z.ltb_lt _ 64)) by lia.
    cbn [andb]. rewrite negb_involutive. f_equal. lia. }
  assert (0 ≤ free) as Hf0 by (apply Z.shiftr_nonneg, u64_range). destruct (Z.eqb_spec free 0) as [E0|E0]; cbn [negb].
  - intros j Hj. pose proof (Z.div_mod i BITS_PER_WORD ltac:(done)). unfold BITS_PER_WORD in *.
    replace j with (i + (j - i)) by lia. rewrite Hu by lia. by rewrite E0, Z.testbit_0_l.
  - destruct (ctzl_spec free ltac:(lia)) as (H0 & H1 & H2).
    assert (i `mod` BITS_PER_WORD + ctzl free < 64) as Hlt.
    { pose proof H1 as Hb. unfold free in Hb at 1. rewrite free_bits in Hb by (done || lia). apply andb_true_iff in Hb as [Hb _]. apply Z.ltb_lt in Hb. lia. }
    split_and!; [by rewrite Hu, H1|done|]. intros j Hj. replace j with (i + (j - i)) by lia. rewrite Hu by lia. rewrite H2 by lia. done.
Qed.

Lemma find_free_loop_ok a end_ fuel : ∀ i,
  asid_inv a → 0 ≤ i → 0 ≤ end_ ≤ ASID_MAX → end_ / BITS_PER_WORD + 1 - i / BITS_PER_WORD < Z.of_nat fuel → 0 < Z.of_nat fuel →
  ∃ r, find_free_loop fuel a i end_ = Ok r ∧ found_in a i end_ r.
Proof.
  induction fuel as [|fuel IH]; intros i Ha Hi He Hf H0; [lia|]. cbn [find_free_loop].
  destruct (Z.ltb_spec end_ i); [exists (-1); split; [done|]; right; split; [done|]; lia|].
  destruct (word_search a i Ha ltac:(lia)) as (w & Ew & Hw). rewrite Ew. cbn [mbind res_bind]. cbv zeta in Hw.
  set (free := Z.shiftr _ _) in *. destruct (negb (free =? 0)).
  - destruct Hw as (H1 & H2 & H3). eexists. split; [done|]. destruct (Z.leb_spec (i + ctzl free) end_).
    + left. split_and!; [lia|lia|done|done].
    + right. split; [done|]. intros j Hj. apply H3. lia.
  - set (i' := (i / BITS_PER_WORD + 1) * BITS_PER_WORD) in *.
    assert (i' / BITS_PER_WORD = i / BITS_PER_WORD + 1) as Ei by (apply Z.div_mul; done).
    pose proof (Z.div_le_mono i end_ BITS_PER_WORD ltac:(done) ltac:(lia)). pose proof (Z.div_pos i 64 ltac:(lia)) as Hd. fold BITS_PER_WORD in Hd.
    assert (i < i') as Hlt. { unfold i'. pose proof (Z.mod_pos_bound i BITS_PER_WORD ltac:(done)). pose proof (Z.div_mod i BITS_PER_WORD ltac:(done)).
      unfold BITS_PER_WORD in *. lia. }
    destruct (IH i' Ha ltac:(lia) He ltac:(lia) ltac:(lia)) as (r & E & [(Hr & Hu & Hb)|[-> Hb]]); exists r || exists (-1); split; try done.
    + left. split_and!; [lia|lia|done|]. intros j Hj. destruct (Z.lt_ge_cases j i'); [apply Hw|apply Hb]; lia.
    + right. split; [done|]. intros j Hj. destruct (Z.lt_ge_cases j i'); [apply Hw|apply Hb]; lia.
Qed.

Lemma find_free_ok a start end_ :
  asid_inv a → 0 ≤ start ≤ end_ + 1 → 0 ≤ end_ ≤ ASID_MAX → ∃ r, find_free a start end_ = Ok r ∧ found_in a start end_ r.
Proof.
  intros Ha Hs He. unfold find_free. pose proof (Z.div_le_mono start (end_ + 1) BITS_PER_WORD ltac:(done) ltac:(lia)).
  assert ((end_ + 1) / BITS_PER_WORD ≤ end_ / BITS_PER_WORD + 1).
  { unfold BITS_PER_WORD. apply Z.lt_succ_r. apply Z.div_lt_upper_bound; [lia|]. pose proof (Z.div_mod end_ 64). pose proof (Z.mod_pos_bound end_ 64). lia. }
  apply find_free_loop_ok; try done; lia.
Qed.

(** * Setting and clearing *)

Lemma update_word_ok a k f w b :
  asid_inv a → 0 ≤ k ≤ ASID_MAX → bitmap a !! Z.to_nat (k / BITS_PER_WORD) = Some w → 0 ≤ f w < 2 ^ 64 →
  (∀ n, 0 ≤ n < 64 → Z.testbit (f w) n = if n =? k `mod` BITS_PER_WORD then b else Z.testbit w n) →
  ∃ a', update_word a k f = Ok a' ∧ last a' = last a ∧ max a' = max a ∧ length (bitmap a') = length (bitmap a) ∧
    Forall (λ w, 0 ≤ w < 2 ^ 64) (bitmap a') ∧ ∀ j, 0 ≤ j → used a' j = if j =? k then b else used a j.
Proof.
  intros Ha Hk Hw Hf Hb. unfold update_word, word_of. rewrite Hw. cbn [of_option mbind res_bind]. eexists. split; [done|].
  cbn [last max bitmap]. split_and!; [done..|by rewrite length_insert|by apply Forall_insert; [apply Ha|]|].
  intros j Hj. unfold used. cbn [bitmap]. pose proof (lookup_lt_Some _ _ _ Hw) as Hlt.
  destruct (decide (Z.to_nat (j / BITS_PER_WORD) = Z.to_nat (k / BITS_PER_WORD))) as [E|E].
  - rewrite E, list_lookup_insert_eq, Hw by done. cbn [default from_option]. unfold id.
    rewrite Hb by apply Z.mod_pos_bound, eq_refl.
    assert (j / BITS_PER_WORD = k / BITS_PER_WORD) as Ed.
    { pose proof (Z.div_pos j BITS_PER_WORD Hj ltac:(done)). pose proof (Z.div_pos k BITS_PER_WORD ltac:(lia) ltac:(done)). lia. }
    pose proof (Z.div_mod j BITS_PER_WORD ltac:(done)). pose proof (Z.div_mod k BITS_PER_WORD ltac:(done)).
    destruct (Z.eqb_spec (j `mod` BITS_PER_WORD) (k `mod` BITS_PER_WORD)), (Z.eqb_spec j k); done || (exfalso; subst; lia) || congruence.
  - rewrite list_lookup_insert_ne by done. destruct (Z.eqb_spec j k) as [->|]; done.
Qed.

Lemma set_bit_word w s : 0 ≤ w < 2 ^ 64 → 0 ≤ s < 64 → 0 ≤ set_bit w s < 2 ^ 64.
Proof.
  intros Hw Hs. split; [apply set_bit_nonneg; lia|]. apply bits_bound; [apply set_bit_nonneg; lia|done|].
  intros i Hi. rewrite set_bit_testbit, (testbit_above w 64) by lia. simpl. apply Z.eqb_neq. lia.
Qed.

Lemma clear_bit_word w s : 0 ≤ w < 2 ^ 64 → 0 ≤ s < 64 → 0 ≤ clear_bit w s < 2 ^ 64.
Proof.
  intros Hw Hs. split; [apply clear_bit_nonneg; lia|]. apply bits_bound; [apply clear_bit_nonneg; lia|done|].
  intros i Hi. by rewrite clear_bit_testbit, (testbit_above w 64) by lia.
Qed.

Lemma asid_set_ok a k :
  asid_inv a → ASID_FIRST_USER ≤ k ≤ max a →
  ∃ a', asid_set a k = Ok a' ∧ asid_inv a' ∧ last a' = last a ∧ max a' = max a ∧
    ∀ j, 0 ≤ j → used a' j = (j =? k) || used a j.
Proof.
  intros Ha Hk. pose proof Ha as [Hlen _ Hm Hl Hi]. unfold ASID_FIRST_USER in *.
  destruct (word_of_ok a k Ha ltac:(lia)) as (w & _ & Ew & Hw). pose proof (Z.mod_pos_bound k BITS_PER_WORD ltac:(done)) as Hs.
  unfold asid_set. change (λ w, Z.lor w _) with (λ w, set_bit w (k `mod` BITS_PER_WORD)).
  destruct (update_word_ok a k (λ w, set_bit w (k `mod` BITS_PER_WORD)) w true) as (a' & E & El & Em & Hlen' & Hw' & Hu); try done; try lia.
  { by apply set_bit_word. }
  { intros n Hn. rewrite set_bit_testbit by lia. rewrite (Z.eqb_sym n). by destruct (_ =? _), (Z.testbit w n). }
  exists a'. assert (∀ j, 0 ≤ j → used a' j = (j =? k) || used a j) as Hu' by (intros j Hj; rewrite Hu by done; by destruct (j =? k)).
  split_and!; try done. split; try done; [congruence|by rewrite Em|by rewrite El, Em|].
  intros j Hj. rewrite Hu', Em by lia. destruct (Z.eqb_spec j k) as [->|]; [done|]. simpl. by apply Hi.
Qed.

Lemma asid_clear_ok a k :
  asid_inv a → ASID_FIRST_USER ≤ k ≤ max a →
  ∃ a', asid_clear a k = Ok a' ∧ asid_inv a' ∧ last a' = last a ∧ max a' = max a ∧
    ∀ j, 0 ≤ j → used a' j = negb (j =? k) && used a j.
Proof.
  intros Ha Hk. pose proof Ha as [Hlen _ Hm Hl Hi]. unfold ASID_FIRST_USER in *.
  destruct (word_of_ok a k Ha ltac:(lia)) as (w & _ & Ew & Hw). pose proof (Z.mod_pos_bound k BITS_PER_WORD ltac:(done)) as Hs.
  unfold asid_clear. change (λ w, Z.land w _) with (λ w, clear_bit w (k `mod` BITS_PER_WORD)).
  destruct (update_word_ok a k (λ w, clear_bit w (k `mod` BITS_PER_WORD)) w false) as (a' & E & El & Em & Hlen' & Hw' & Hu); try done; try lia.
  { by apply clear_bit_word. }
  { intros n Hn. rewrite clear_bit_testbit by lia. rewrite (Z.eqb_sym n). by destruct (_ =? _), (Z.testbit w n). }
  exists a'. assert (∀ j, 0 ≤ j → used a' j = negb (j =? k) && used a j) as Hu' by (intros j Hj; rewrite Hu by done; by destruct (j =? k)).
  split_and!; try done. split; try done; [congruence|by rewrite Em|by rewrite El, Em|].
  intros j Hj. rewrite Hu', Em by lia. destruct (Z.eqb_spec j k) as [->|]; [done|]. simpl. by apply Hi.
Qed.

(** * What the calls promise *)

(** The order in which the ids are tried: from the last one handed out on, and
    around. *)
Definition turn (a : asid_allocator) (k : Z) : Z := if last a <? k then k else k + max a.

(** The id [k] was handed out: it was free, and every id tried before it is in
    use. *)
Record handed_out (a : asid_allocator) (k : Z) (a' : asid_allocator) : Prop := {
  ho_inv : asid_inv a';
  ho_range : ASID_FIRST_USER ≤ k ≤ max a;
  ho_free : used a k = false;
  ho_last : last a' = k;
  ho_max : max a' = max a;
  ho_used : ∀ j, 0 ≤ j → used a' j = (j =? k) || used a j;
  ho_first : ∀ j, ASID_FIRST_USER ≤ j ≤ max a → turn a j < turn a k → used a j = true;
}.

Lemma hand_out a k :
  asid_inv a → ASID_FIRST_USER ≤ k ≤ max a → used a k = false →
  (∀ j, ASID_FIRST_USER ≤ j ≤ max a → turn a j < turn a k → used a j = true) →
  ∃ k' a', (a0 ← asid_set a k; Ok (NO_ERROR, Some k, mk_asids k (max a0) (bitmap a0))) = Ok (NO_ERROR, Some k', a') ∧ handed_out a k' a'.
Proof.
  intros Ha Hk Hf Ho. destruct (asid_set_ok a k Ha Hk) as (a' & E & [? ? ? ? ?] & El & Em & Hu). rewrite E. cbn [mbind res_bind].
  eexists _, _. split; [done|]. split; try done. split; try done. cbn. unfold ASID_FIRST_USER in *. lia.
Qed.

Lemma asid_alloc_ok a :
  asid_inv a →
  (∃ k a', asid_alloc a = Ok (NO_ERROR, Some k, a') ∧ handed_out a k a') ∨
  (asid_alloc a = Ok (ERR_NO_MEMORY, None, a) ∧ ∀ j, ASID_FIRST_USER ≤ j ≤ max a → used a j = true).
Proof.
  intros Ha. pose proof Ha as [_ _ Hm Hl _]. unfold asid_alloc.
  rewrite (proj2 (Z.leb_le _ (max a))) by lia. cbn [assert_ mbind res_bind]. unfold ASID_FIRST_USER in Hm, Hl.
  destruct (find_free_ok a (last a + 1) (max a) Ha ltac:(lia) ltac:(lia)) as (r1 & E1 & H1). rewrite E1. cbn [mbind res_bind].
  destruct (find_free_ok a ASID_FIRST_USER (last a) Ha) as (r2 & E2 & H2); [unfold ASID_FIRST_USER; lia|lia|]. unfold ASID_FIRST_USER in H2.
  destruct H1 as [(Hr & Hf & Hb)|[-> Hb]].
  - rewrite (proj2 (Z.ltb_ge r1 0)) by lia. cbn [mbind res_bind]. rewrite (proj2 (Z.ltb_ge r1 0)) by lia. left.
    apply hand_out; [done|unfold ASID_FIRST_USER; lia|done|]. unfold turn, ASID_FIRST_USER. intros j Hj.
    rewrite (proj2 (Z.ltb_lt (last a) r1)) by lia. destruct (Z.ltb_spec (last a) j); intros; [apply Hb|]; lia.
  - cbn [Z.ltb Z.compare]. rewrite E2. cbn [mbind res_bind]. destruct H2 as [(Hr & Hf & Hb2)|[-> Hb2]].
    + rewrite (proj2 (Z.ltb_ge r2 0)) by lia. left. apply hand_out; [done|unfold ASID_FIRST_USER; lia|done|].
      unfold turn, ASID_FIRST_USER. intros j Hj. rewrite (proj2 (Z.ltb_ge (last a) r2)) by lia.
      destruct (Z.ltb_spec (last a) j); intros; [apply Hb|apply Hb2]; lia.
    + right. split; [done|]. unfold ASID_FIRST_USER. intros j Hj. destruct (Z.lt_ge_cases (last a) j); [apply Hb|apply Hb2]; lia.
Qed.

(** [asid_alloc] hands out an id between 2 and the highest that is not in use,
    the first one after the id handed out last, around the end, and marks just
    that id; it fails only when all ids are in use, and changes nothing then. *)
Theorem asid_alloc_spec a :
  asid_inv a →
  (∃ k a', asid_alloc a = Ok (NO_ERROR, Some k, a') ∧ handed_out a k a') ∨
  (asid_alloc a = Ok (ERR_NO_MEMORY, None, a) ∧ ∀ j, ASID_FIRST_USER ≤ j ≤ max a → used a j = true).
Proof. apply asid_alloc_ok. Qed.

Lemma asid_is_set_ok a k : asid_inv a → 0 ≤ k ≤ ASID_MAX → asid_is_set a k = Ok (used a k).
Proof.
  intros Ha Hk. destruct (word_of_ok a k Ha Hk) as (w & E & El & _). unfold asid_is_set, used. rewrite E, El. cbn [mbind res_bind default from_option].
  unfold id. f_equal. pose proof (Z.mod_pos_bound k BITS_PER_WORD ltac:(done)) as Hs. change 1 with (Z.ones 1).
  rewrite Z.land_ones by lia. change (2 ^ 1) with 2. rewrite Zmod_odd, <- Z.bit0_odd, Z.shiftr_spec, Z.add_0_l by lia. by destruct (Z.testbit w _).
Qed.

(** [asid_free] takes back an id in use and asserts that it is one. *)
Theorem asid_free_spec a k :
  asid_inv a → 0 ≤ k ≤ ASID_MAX →
  if used a k then ∃ a', asid_free a k = Ok a' ∧ asid_inv a' ∧ last a' = last a ∧ max a' = max a ∧
    ∀ j, 0 ≤ j → used a' j = negb (j =? k) && used a j
  else asid_free a k = Fault AssertFailed.
Proof.
  intros Ha Hk. pose proof (ai_ids a Ha k Hk) as Hid. unfold asid_free, ASID_FIRST_USER in *. rewrite asid_is_set_ok by done.
  destruct (used a k).
  - destruct (Hid eq_refl). rewrite (proj2 (Z.leb_le 2 k)), (proj2 (Z.leb_le k (max a))) by lia. cbn [andb assert_ mbind res_bind]. by apply asid_clear_ok.
  - by destruct (_ && _).
Qed.


(** A new allocator has every id free. *)
Lemma asid_allocator_init_ok m :
  ASID_FIRST_USER ≤ m ≤ ASID_MAX → ∃ a, asid_allocator_init m = Ok a ∧ asid_inv a ∧ max a = m ∧ ∀ k, used a k = false.
Proof.
  intros Hm. unfold asid_allocator_init. rewrite (proj2 (Z.leb_le _ m)) by lia. cbn [assert_ mbind res_bind]. eexists. split; [done|].
  assert (∀ k, used (mk_asids (ASID_FIRST_USER - 1) m (replicate ASID_BITMAP_WORDS 0)) k = false) as Hu.
  { intros k. unfold used. cbn [bitmap]. destruct (replicate _ 0 !! _) as [w|] eqn:E; [|apply Z.bits_0].
    apply lookup_replicate in E as [-> _]. apply Z.bits_0. }
  split_and!; [|done|done]. split; cbn [bitmap max last].
  - apply length_replicate.
  - by apply Forall_replicate.
  - done.
  - unfold ASID_FIRST_USER in *. lia.
  - intros k _. by rewrite Hu.
Qed.

(** ** An allocator with three ids *)

Definition ex_asids : asid_allocator := mk_asids 1 4 (replicate ASID_BITMAP_WORDS 0).

Lemma ex_asids_inv : asid_inv ex_asids.
Proof. by destruct (asid_allocator_init_ok 4 ltac:(done)) as (a & [= <-] & ? & _). Qed.

Definition ex_asids1 : asid_allocator := match asid_alloc ex_asids with Ok (_, _, a) => a | Fault _ => ex_asids end.

Lemma asid_alloc_spec_witness :
  (∃ k a', asid_alloc ex_asids = Ok (NO_ERROR, Some k, a') ∧ handed_out ex_asids k a') ∨
  (asid_alloc ex_asids = Ok (ERR_NO_MEMORY, None, ex_asids) ∧ ∀ j, ASID_FIRST_USER ≤ j ≤ max ex_asids → used ex_asids j = true).
Proof. apply (asid_alloc_spec ex_asids). apply ex_asids_inv. Defined.

Definition ex_asids2 : asid_allocator := match asid_free ex_asids1 2 with Ok a => a | Fault _ => ex_asids end.


Example asids_run_out :
  match asid_alloc (mk_asids 3 4 (28 :: replicate 1023 0)) with Ok (err, _, _) => err = ERR_NO_MEMORY | Fault _ => False end.
Proof. vm_compute. reflexivity. Qed.
