(* ===== verification/Novm.v ===== *)
(** Pages without an MMU: [kernel/novm/novm.c].

    An arena is a run of pages with a map of one byte for each; addresses are
    numbers, null is 0.  The map of an arena is a list of bytes: reading or writing
    outside it is a fault.  The array of arenas is a list whose unused entries
    have no pages.  The mutex of an arena makes each call one step. *)
From stdpp Require Import prelude strings.
From S2P Require Import Prelude Bytes.

#[local] Open Scope Z_scope.

Definition PAGE_SIZE : Z := 4096.
Definition PAGE_SIZE_SHIFT : Z := 12.
Definition MINIMUM_USEFUL_UNALIGNED_SIZE : Z := 64.

(** [map_at] is the address of the map. *)
Record novm_arena := mk_novm {
  name : string;
  pages : Z;
  map_at : Z;
  map : list Z;
  base : Z;
  size : Z;
  unaligned_area : Z;
  unaligned_size : Z;
}.

Definition with_map (m : list Z) (n : novm_arena) : novm_arena :=
  mk_novm (name n) (pages n) (map_at n) m (base n) (size n) (unaligned_area n) (unaligned_size n).
Definition with_unaligned (area len : Z) (n : novm_arena) : novm_arena :=
  mk_novm (name n) (pages n) (map_at n) (map n) (base n) (size n) area len.

Definition in_arena (n : novm_arena) (p : Z) : bool :=
  if size n =? 0 then false else (base n <=? p) && (p <? base n + size n).

(** * Setting up *)

(** The loop that takes pages for the map off the front. *)
Fixpoint grab_map (fuel : nat) (arena_start start size map_size : Z) : res (Z * Z * Z) :=
  match fuel with
  | O => Fault OutOfFuel
  | S fuel =>
      if u64 (start - arena_start) <? map_size
      then grab_map fuel arena_start (u64 (start + PAGE_SIZE)) (u64 (size - PAGE_SIZE)) (map_size - 1)
      else Ok (start, size, map_size)
  end.

(** [default_map] is the address of a map with [default_map_size] bytes, or null. *)
Definition novm_init_helper (n : novm_arena) (nm : string) (arena_start arena_size default_map default_map_size : Z) : res novm_arena :=
  let start := ROUNDUP arena_start PAGE_SIZE in
  let size := u64 (ROUNDDOWN (u64 (arena_start + arena_size)) PAGE_SIZE - start) in
  let map_size := Z.shiftr size PAGE_SIZE_SHIFT in
  if (default_map =? 0) || (default_map_size <? map_size) then
    '(start, size, map_size) ← grab_map (S (Z.to_nat map_size)) arena_start start size map_size;
    let rest := u64 (start - (arena_start + ROUNDUP map_size 4)) in
    let n := if MINIMUM_USEFUL_UNALIGNED_SIZE <=? s64 rest then with_unaligned (arena_start + ROUNDUP map_size 4) rest n else n in
    Ok (mk_novm nm map_size arena_start (replicate (Z.to_nat map_size) 0) start size (unaligned_area n) (unaligned_size n))
  else
    let n := if MINIMUM_USEFUL_UNALIGNED_SIZE <=? u64 (start - arena_start) then with_unaligned arena_start (u64 (start - arena_start)) n else n in
    Ok (mk_novm nm map_size default_map (replicate (Z.to_nat map_size) 0) start size (unaligned_area n) (unaligned_size n)).

(** The arena is trimmed to the part behind the kernel, which ends at [kend]. *)
Fixpoint novm_add_arena (arenas : list novm_arena) (kend : Z) (nm : string) (arena_start arena_size : Z) : res (list novm_arena) :=
  match arenas with
  | [] => Fault Panicked
  | n :: arenas =>
      if pages n =? 0 then
        let trim := (arena_start <? kend) && (kend <? u64 (arena_start + arena_size)) in
        let size := if trim then u64 (arena_size - (kend - arena_start)) else arena_size in
        let start := if trim then kend else arena_start in
        n ← novm_init_helper n nm start size 0 0;
        Ok (n :: arenas)
      else
        arenas ← novm_add_arena arenas kend nm arena_start arena_size;
        Ok (n :: arenas)
  end.

(** The default arena from the end of the kernel to the end of memory, with a
    static map at [smap]. *)
Definition novm_init (arenas : list novm_arena) (kend membase memsize smap : Z) : res (list novm_arena) :=
  match arenas with
  | [] => Fault BadAccess
  | n :: arenas =>
      n ← novm_init_helper n "main"%string kend (u64 (membase + memsize - kend)) smap (Z.shiftr memsize PAGE_SIZE_SHIFT);
      Ok (n :: arenas)
  end.

(** * Allocating *)

(** The test of [k] pages from page [i] on: [Some j] if the [j]th is in use. *)
Fixpoint first_used (k : nat) (m : list Z) (i j : Z) : res (option Z) :=
  match k with
  | O => Ok None
  | S k =>
      b ← of_option BadAccess (znth m (i + j));
      if negb (b =? 0) then Ok (Some j) else first_used k m i (j + 1)
  end.

(** The pages are tried from [i] on; a page in use is skipped together with those
    in front of it. *)
Fixpoint find_pages (fuel : nat) (n : novm_arena) (count i : Z) : res (option Z) :=
  match fuel with
  | O => Fault OutOfFuel
  | S fuel =>
      if pages n - count <? i then Ok None else
      o ← first_used (Z.to_nat count) (map n) i 0;
      match o with
      | None => Ok (Some i)
      | Some j => find_pages fuel n count (i + j + 1)
      end
  end.

Definition novm_alloc_helper (n : novm_arena) (count : Z) : res (Z * novm_arena) :=
  if (count =? 0) || (pages n <? count) then Ok (0, n) else
  o ← find_pages (S (Z.to_nat (pages n))) n count 0;
  match o with
  | None => Ok (0, n)
  | Some i =>
      m ← mem_write i (replicate (Z.to_nat count) 1) (map n);
      Ok (base n + Z.shiftl i PAGE_SIZE_SHIFT, with_map m n)
  end.

(** The arenas from number [i] on, as far as the bitmap allows them. *)
Fixpoint alloc_pages_from (arenas : list novm_arena) (i count arena_bitmap : Z) : res (Z * list novm_arena) :=
  match arenas with
  | [] => Ok (0, [])
  | n :: rest =>
      '(result, n) ← (if has_flag arena_bitmap (u32 (Z.shiftl 1 i)) then novm_alloc_helper n count else Ok (0, n));
      if negb (result =? 0) then Ok (result, n :: rest)
      else
        '(result, rest) ← alloc_pages_from rest (i + 1) count arena_bitmap;
        Ok (result, n :: rest)
  end.

Definition novm_alloc_pages (arenas : list novm_arena) (count arena_bitmap : Z) : res (Z * list novm_arena) :=
  alloc_pages_from arenas 0 count arena_bitmap.

(** The first arena that has the address, by its number. *)
Fixpoint find_arena (arenas : list novm_arena) (address : Z) : option nat :=
  match arenas with
  | [] => None
  | n :: arenas => if in_arena n address then Some 0%nat else S <$> find_arena arenas address
  end.

(** The byte writes of the loop, one by one. *)
Fixpoint clear_pages (k : nat) (m : list Z) (i : Z) : res (list Z) :=
  match k with
  | O => Ok m
  | S k => m ← mem_write i [0] m; clear_pages k m (i + 1)
  end.

Definition page_index (n : novm_arena) (address : Z) : Z := Z.shiftr (address - base n) PAGE_SIZE_SHIFT.

Definition novm_free_pages (arenas : list novm_arena) (address count : Z) : res (list novm_arena) :=
  match find_arena arenas address with
  | None => Ok arenas
  | Some k =>
      n ← of_option BadAccess (arenas !! k);
      assert_ (in_arena n address);;
      m ← clear_pages (Z.to_nat count) (map n) (page_index n address);
      Ok (<[k := with_map m n]> arenas)
  end.

Definition novm_alloc_specific_pages (arenas : list novm_arena) (address count : Z) : res (Z * list novm_arena) :=
  match find_arena arenas address with
  | None => Ok (ERR_NOT_FOUND, arenas)
  | Some k =>
      n ← of_option BadAccess (arenas !! k);
      o ← first_used (Z.to_nat count) (map n) (page_index n address) 0;
      match o with
      | Some _ => Ok (ERR_NO_MEMORY, arenas)
      | None =>
          m ← mem_write (page_index n address) (replicate (Z.to_nat count) 1) (map n);
          Ok (NO_ERROR, <[k := with_map m n]> arenas)
      end
  end.

(** The address and the number of bytes. *)
Definition novm_alloc_unaligned (arenas : list novm_arena) : res (Z * Z * list novm_arena) :=
  match arenas with
  | [] => Fault BadAccess
  | n :: rest =>
      if negb (unaligned_area n =? 0) then Ok (unaligned_area n, unaligned_size n, with_unaligned 0 0 n :: rest)
      else '(p, arenas) ← novm_alloc_pages arenas 1 (2 ^ 32 - 1); Ok (p, PAGE_SIZE, arenas)
  end.

(** One past the last arena with pages, and the ranges up to the number asked for. *)
Fixpoint get_arenas_loop (arenas : list novm_arena) (i number_of_ranges found : Z) : Z * list (Z * Z) :=
  match arenas with
  | [] => (found, [])
  | n :: arenas =>
      if i <? number_of_ranges then
        let found := if 0 <? pages n then i + 1 else found in
        let '(found, l) := get_arenas_loop arenas (i + 1) number_of_ranges found in
        (found, (base n, Z.shiftl (pages n) PAGE_SIZE_SHIFT) :: l)
      else (found, [])
  end.

Definition novm_get_arenas (arenas : list novm_arena) (number_of_ranges : Z) : Z * list (Z * Z) :=
  get_arenas_loop arenas 0 number_of_ranges 0.

(** * Well-formed arenas *)

Record novm_ok (n : novm_arena) : Prop := {
  no_pages : 0 ≤ pages n;
  no_map : zlen (map n) = pages n;
  no_size : size n = pages n * PAGE_SIZE;
  no_base : 0 < pages n → 0 < base n;
  no_end : base n + size n ≤ 2 ^ 64;
}.

Definition apart (n n' : novm_arena) : Prop := base n + size n ≤ base n' ∨ base n' + size n' ≤ base n.

Record ninv (arenas : list novm_arena) : Prop := {
  ni_each : Forall novm_ok arenas;
  ni_apart : ∀ i j n n', arenas !! i = Some n → arenas !! j = Some n' → i ≠ j → apart n n';
}.

Definition page_free (n : novm_arena) (i : Z) : Prop := znth (map n) i = Some 0.
Definition run_free (n : novm_arena) (i count : Z) : Prop := ∀ j, i ≤ j < i + count → page_free n j.

(** ** The search *)

Lemma first_used_ok m i k : ∀ j,
  0 ≤ i + j → i + j + Z.of_nat k ≤ zlen m →
  ∃ o, first_used k m i j = Ok o ∧
    match o with
    | None => ∀ x, i + j ≤ x < i + j + Z.of_nat k → znth m x = Some 0
    | Some d => j ≤ d < j + Z.of_nat k ∧ znth m (i + d) ≠ Some 0
    end.
Proof.
  induction k as [|k IH]; intros j H0 Hle; cbn [first_used].
  - exists None. split; [done|]. intros x Hx. lia.
  - destruct (znth_Some m (i + j) ltac:(lia)) as [b Eb]. rewrite Eb. cbn [of_option mbind res_bind].
    destruct (Z.eqb_spec b 0) as [->|Hb]; cbn [negb].
    + destruct (IH (j + 1) ltac:(lia) ltac:(lia)) as (o & E & Ho). exists o. split; [done|]. destruct o as [d|].
      * destruct Ho. split; [lia|done].
      * intros x Hx. destruct (Z.eq_dec x (i + j)) as [->|]; [done|]. apply Ho. lia.
    + exists (Some j). split; [done|]. split; [lia|]. rewrite Eb. congruence.
Qed.

Lemma find_pages_ok n count fuel : ∀ i,
  novm_ok n → 0 < count ≤ pages n → 0 ≤ i → pages n - i < Z.of_nat fuel → 0 < Z.of_nat fuel →
  ∃ o, find_pages fuel n count i = Ok o ∧
    match o with
    | None => ∀ x, i ≤ x ≤ pages n - count → ¬ run_free n x count
    | Some r => i ≤ r ≤ pages n - count ∧ run_free n r count ∧ ∀ x, i ≤ x < r → ¬ run_free n x count
    end.
Proof.
  induction fuel as [|fuel IH]; intros i Hn Hc Hi Hf H0; [lia|]. cbn [find_pages].
  destruct (Z.ltb_spec (pages n - count) i); [exists None; split; [done|]; intros x Hx; lia|].
  destruct (first_used_ok (map n) i (Z.to_nat count) 0) as (o & E & Ho); [lia|rewrite (no_map _ Hn); lia|].
  rewrite E. cbn [mbind res_bind]. destruct o as [d|].
  - destruct Ho as [Hd Hu]. assert (∀ x, i ≤ x < i + d + 1 → ¬ run_free n x count) as Hskip.
    { intros x Hx Hrun. apply Hu. apply Hrun. lia. }
    destruct (IH (i + d + 1) Hn Hc ltac:(lia) ltac:(lia) ltac:(lia)) as (o' & E' & Ho'). exists o'. split; [done|]. destruct o' as [r|].
    + destruct Ho' as (Hr & Hrun & Hleast). split_and!; [lia|lia|done|]. intros x Hx. destruct (Z.lt_ge_cases x (i + d + 1)); [apply Hskip|apply Hleast]; lia.
    + intros x Hx. destruct (Z.lt_ge_cases x (i + d + 1)); [apply Hskip|apply Ho']; lia.
  - exists (Some i). split; [done|]. split_and!; [lia|lia| |lia]. intros x Hx. apply Ho. lia.
Qed.

(** The pages [i] to [i + count] are marked with [b], the others as before. *)
Definition marked (n : novm_arena) (i count b : Z) : novm_arena := with_map (splice i (replicate (Z.to_nat count) b) (map n)) n.

Lemma marked_ok n i count b : novm_ok n → 0 ≤ i → 0 ≤ count → i + count ≤ pages n → novm_ok (marked n i count b).
Proof.
  intros [H1 H2 H3 H4 H5] Hi Hc Hle. split; simpl; try done. rewrite zlen_splice; rewrite ?zlen_replicate; lia.
Qed.

Lemma marked_page n i count b x :
  novm_ok n → 0 ≤ i → 0 ≤ count → i + count ≤ pages n → 0 ≤ x < pages n →
  znth (map (marked n i count b)) x = if (i <=? x) && (x <? i + count) then Some b else znth (map n) x.
Proof.
  intros [H1 H2 H3 H4 H5] Hi Hc Hle Hx. simpl. rewrite znth_splice by (rewrite ?zlen_replicate; lia). rewrite zlen_replicate by lia.
  destruct (Z.leb_spec i x), (Z.ltb_spec x (i + count)); simpl; try done.
  rewrite znth_lookup by lia. rewrite lookup_replicate_2 by lia. done.
Qed.

Lemma novm_alloc_helper_ok n count :
  novm_ok n → 0 ≤ count →
  (∃ r, 0 ≤ r ≤ pages n - count ∧ 0 < count ∧ run_free n r count ∧ (∀ x, 0 ≤ x < r → ¬ run_free n x count) ∧
    novm_alloc_helper n count = Ok (base n + r * PAGE_SIZE, marked n r count 1) ∧ base n + r * PAGE_SIZE ≠ 0) ∨
  (novm_alloc_helper n count = Ok (0, n) ∧ (count = 0 ∨ ∀ x, 0 ≤ x ≤ pages n - count → ¬ run_free n x count)).
Proof.
  intros Hn Hc. unfold novm_alloc_helper. pose proof Hn as [H1 H2 H3 H4 H5].
  destruct (Z.eqb_spec count 0) as [|Hnz]; [by right; split; [|left]|]. cbn [orb].
  destruct (Z.ltb_spec (pages n) count); [right; split; [done|]; right; intros x Hx; lia|].
  destruct (find_pages_ok n count (S (Z.to_nat (pages n))) 0 Hn ltac:(lia) ltac:(lia) ltac:(lia) ltac:(lia)) as (o & E & Ho).
  rewrite E. cbn [mbind res_bind]. destruct o as [r|]; [left|by right; split; [|right]]. destruct Ho as (Hr & Hrun & Hleast).
  exists r. rewrite mem_write_Ok by (rewrite ?zlen_replicate; lia). cbn [mbind res_bind].
  rewrite Z.shiftl_mul_pow2 by done. change (2 ^ PAGE_SIZE_SHIFT) with PAGE_SIZE.
  split_and!; try done; try lia. unfold PAGE_SIZE. lia.
Qed.

Lemma arena_bit x i : 0 ≤ i < 32 → has_flag x (u32 (Z.shiftl 1 i)) = Z.testbit x i.
Proof.
  intros Hi. rewrite u32_small; [apply has_flag_bit; lia|].
  rewrite Z.shiftl_1_l. split; [apply Z.pow_nonneg; lia|apply Z.pow_lt_mono_r; lia].
Qed.

(** ** Allocating and freeing *)

(** Arena [k] may be used and is the first of those with a run of free pages; the
    run at [r] is its first. *)
Definition first_run (arenas : list novm_arena) (bitmap count : Z) (k : nat) (n : novm_arena) (r : Z) : Prop :=
  arenas !! k = Some n ∧ Z.testbit bitmap (Z.of_nat k) = true ∧ 0 ≤ r ≤ pages n - count ∧ run_free n r count ∧
  (∀ x, 0 ≤ x < r → ¬ run_free n x count) ∧
  ∀ k' n', (k' < k)%nat → arenas !! k' = Some n' → Z.testbit bitmap (Z.of_nat k') = true →
    ∀ x, 0 ≤ x ≤ pages n' - count → ¬ run_free n' x count.

Definition no_free_run (arenas : list novm_arena) (bitmap count : Z) : Prop :=
  ∀ k n, arenas !! k = Some n → Z.testbit bitmap (Z.of_nat k) = true → ∀ x, 0 ≤ x ≤ pages n - count → ¬ run_free n x count.

(** The arenas from number [i] on are those with the bitmap shifted. *)
Lemma alloc_pages_from_ok count bitmap arenas : ∀ i,
  Forall novm_ok arenas → 0 ≤ i → i + Z.of_nat (length arenas) ≤ 32 → 0 < count → 0 ≤ bitmap →
  let b := Z.shiftr bitmap i in
  (∃ k n r, first_run arenas b count k n r ∧ base n + r * PAGE_SIZE ≠ 0 ∧
    alloc_pages_from arenas i count bitmap = Ok (base n + r * PAGE_SIZE, <[k := marked n r count 1]> arenas)) ∨
  (alloc_pages_from arenas i count bitmap = Ok (0, arenas) ∧ no_free_run arenas b count).
Proof.
  induction arenas as [|n arenas IH]; intros i Hok Hi Hlen Hc Hb b.
  { right. split; [done|]. intros k n Hk. by rewrite lookup_nil in Hk. }
  apply Forall_cons in Hok as [Hn Hok]. cbn [length] in Hlen. cbn [alloc_pages_from].
  assert (Z.testbit b (Z.of_nat 0) = Z.testbit bitmap i) as Eb by (unfold b; by rewrite Z.shiftr_spec by lia).
  rewrite arena_bit by lia.
  assert ((∃ r, Z.testbit bitmap i = true ∧ 0 ≤ r ≤ pages n - count ∧ run_free n r count ∧ (∀ x, 0 ≤ x < r → ¬ run_free n x count) ∧
      (if Z.testbit bitmap i then novm_alloc_helper n count else Ok (0, n)) = Ok (base n + r * PAGE_SIZE, marked n r count 1) ∧
      base n + r * PAGE_SIZE ≠ 0) ∨
    ((if Z.testbit bitmap i then novm_alloc_helper n count else Ok (0, n)) = Ok (0, n) ∧
      (Z.testbit bitmap i = true → ∀ x, 0 ≤ x ≤ pages n - count → ¬ run_free n x count))) as Hone.
  { destruct (Z.testbit bitmap i); [|by right].
    destruct (novm_alloc_helper_ok n count Hn ltac:(lia)) as [(r & ? & _ & ? & ? & ? & ?)|[E [|?]]]; [left; exists r; split_and!; done || lia|lia|by right]. }
  destruct Hone as [(r & Hbit & Hr & Hrun & Hleast & E & Hnz)|[E Hno]]; rewrite E; cbn [mbind res_bind].
  - left. exists 0%nat, n, r. rewrite (proj2 (Z.eqb_neq _ 0)) by done. split_and!; try done. split_and!; try done; try lia. by rewrite Eb.
  - destruct (IH (i + 1) Hok ltac:(lia) ltac:(lia) Hc Hb) as [(k & n' & r & Hfr & Hnz & E')|[E' Hno']]; rewrite E'; cbn [Z.eqb negb mbind res_bind].
    all: assert (∀ k, Z.testbit (Z.shiftr bitmap (i + 1)) (Z.of_nat k) = Z.testbit b (Z.of_nat (S k))) as Eshift
      by (intros j; unfold b; rewrite !Z.shiftr_spec by lia; f_equal; lia).
    + left. exists (S k), n', r. split_and!; try done. destruct Hfr as (H1 & H2 & H3 & H4 & H5 & H6). rewrite Eshift in H2.
      split_and!; try done; try lia. intros [|k'] m Hlt Hm; [injection Hm as <-; rewrite Eb; done|]. rewrite <- Eshift. apply (H6 k'); [lia|done].
    + right. split; [done|]. intros [|k] m Hm; [injection Hm as <-; by rewrite Eb|]. rewrite <- Eshift. by apply Hno'.
Qed.

(** C36: [novm_alloc_pages] returns the first run of free pages in the first arena
    allowed that has one and marks just these pages as used; it returns null only
    if no arena allowed has a run of that many free pages, and changes nothing
    then. *)
Theorem novm_alloc_pages_spec arenas count bitmap :
  ninv arenas → (length arenas ≤ 32)%nat → 0 < count → 0 ≤ bitmap →
  (∃ k n r, first_run arenas bitmap count k n r ∧ base n + r * PAGE_SIZE ≠ 0 ∧
    novm_alloc_pages arenas count bitmap = Ok (base n + r * PAGE_SIZE, <[k := marked n r count 1]> arenas)) ∨
  (novm_alloc_pages arenas count bitmap = Ok (0, arenas) ∧ no_free_run arenas bitmap count).
Proof. intros [Hok _] Hlen Hc Hb. apply (alloc_pages_from_ok count bitmap arenas 0); done || lia. Qed.

Lemma in_arena_iff n p : novm_ok n → in_arena n p = true ↔ base n ≤ p < base n + size n.
Proof.
  intros _. unfold in_arena. destruct (Z.eqb_spec (size n) 0) as [E|]; [rewrite E; split; [done|lia]|].
  rewrite andb_true_iff, Z.leb_le, Z.ltb_lt. lia.
Qed.

Lemma find_arena_ok arenas k n p :
  ninv arenas → arenas !! k = Some n → base n ≤ p < base n + size n → find_arena arenas p = Some k.
Proof.
  revert k. induction arenas as [|m arenas IH]; intros k Hi Hk Hp; [done|]. cbn [find_arena].
  pose proof Hi as [[Hm Hok]%Forall_cons Hap]. pose proof (in_arena_iff m p Hm) as Hin. destruct k as [|k].
  - injection Hk as ->. by rewrite (proj2 Hin).
  - destruct (in_arena m p).
    + exfalso. pose proof (proj1 Hin eq_refl). destruct (Hap 0%nat (S k) m n); [done|done|lia|lia..].
    + rewrite (IH k); [done| |done|done]. split; [done|]. intros i j a b Ha Hb Hij. apply (Hap (S i) (S j)); [done|done|lia].
Qed.

Lemma ninv_mark arenas k n i count b :
  ninv arenas → arenas !! k = Some n → 0 ≤ i → 0 ≤ count → i + count ≤ pages n → ninv (<[k := marked n i count b]> arenas).
Proof.
  intros [He Hap] Hk Hi Hc Hle. pose proof (lookup_lt_Some _ _ _ Hk) as Hlt. rewrite Forall_lookup in He. split.
  - apply Forall_insert; [by apply Forall_lookup|]. apply marked_ok; eauto.
  - intros x y a c Ha Hc' Hxy.
    assert (∀ z d, <[k := marked n i count b]> arenas !! z = Some d → ∃ d', arenas !! z = Some d' ∧ base d = base d' ∧ size d = size d') as H.
    { intros z d [(-> & <- & _)|[? ?]]%list_lookup_insert_Some; [by exists n|by exists d]. }
    apply H in Ha as (a' & Ha & Eb & Es). apply H in Hc' as (c' & Hc' & Eb' & Es'). unfold apart. rewrite Eb, Es, Eb', Es'. by apply (Hap x y a' c').
Qed.

Lemma clear_pages_ok k : ∀ m i, 0 ≤ i → i + Z.of_nat k ≤ zlen m → clear_pages k m i = Ok (splice i (replicate k 0) m).
Proof.
  induction k as [|k IH]; intros m i Hi Hle; cbn [clear_pages replicate]; [by rewrite splice_nil|].
  rewrite mem_write_Ok by (change (zlen [0]) with 1; lia). cbn [mbind res_bind].
  rewrite IH by (rewrite ?zlen_splice; change (zlen [0]) with 1; lia).
  change (0 :: replicate k 0) with ([0] ++ replicate k 0). rewrite <- splice_app; [done|lia|].
  unfold zlen in *. cbn [length]. rewrite length_replicate. lia.
Qed.

Lemma page_index_ok n i off : 0 ≤ off < PAGE_SIZE → page_index n (base n + i * PAGE_SIZE + off) = i.
Proof.
  intros Ho. unfold page_index. rewrite Z.shiftr_div_pow2 by done. change (2 ^ PAGE_SIZE_SHIFT) with PAGE_SIZE.
  symmetry. apply (Z.div_unique_pos _ _ _ off); lia.
Qed.

(** [novm_free_pages] frees just the pages named, if they lie in one arena. *)
Lemma novm_free_pages_ok arenas k n i off count :
  ninv arenas → arenas !! k = Some n → 0 ≤ i < pages n → 0 ≤ count → i + count ≤ pages n → 0 ≤ off < PAGE_SIZE →
  novm_free_pages arenas (base n + i * PAGE_SIZE + off) count = Ok (<[k := marked n i count 0]> arenas).
Proof.
  intros Hi Hk Hr Hc Hle Ho. pose proof Hi as [He _]. rewrite Forall_lookup in He. pose proof (He k n Hk) as Hn. pose proof Hn as [H1 H2 H3 _ _].
  assert (base n ≤ base n + i * PAGE_SIZE + off < base n + size n) as Hin by (rewrite H3; unfold PAGE_SIZE in *; lia).
  unfold novm_free_pages. rewrite (find_arena_ok arenas k n) by done. rewrite Hk. cbn [of_option mbind res_bind].
  rewrite (proj2 (in_arena_iff n _ Hn)) by done. cbn [assert_ mbind res_bind]. rewrite page_index_ok by done.
  rewrite clear_pages_ok by lia. done.
Qed.

Lemma mark_and_clear n i count :
  novm_ok n → 0 ≤ i → 0 ≤ count → i + count ≤ pages n → run_free n i count → marked (marked n i count 1) i count 0 = n.
Proof.
  intros Hn Hi Hc Hle Hrun. pose proof (marked_ok n i count 1 Hn Hi Hc Hle) as Hn1. pose proof Hn as [_ Hm _ _ _].
  assert (map (marked (marked n i count 1) i count 0) = map n) as E; [|destruct n; unfold marked, with_map in *; simpl in *; by rewrite E].
  pose proof (marked_ok _ i count 0 Hn1 Hi Hc Hle) as [_ Hm2 _ _ _]. apply zlist_eq; [by rewrite Hm2|]. rewrite Hm2. intros x Hx. change (0 ≤ x < pages n) in Hx.
  rewrite marked_page by done. destruct (Z.leb_spec i x), (Z.ltb_spec x (i + count)); cbn [andb].
  1: symmetry; by apply Hrun.
  all: rewrite marked_page by done; destruct (Z.leb_spec i x), (Z.ltb_spec x (i + count)); done || lia.
Qed.

(** Freeing the pages that were just allocated gives back the arenas exactly
    as they were. *)
Theorem novm_alloc_free_roundtrip arenas count bitmap p arenas' :
  ninv arenas → (length arenas ≤ 32)%nat → 0 < count → 0 ≤ bitmap →
  novm_alloc_pages arenas count bitmap = Ok (p, arenas') → p ≠ 0 →
  ninv arenas' ∧ novm_free_pages arenas' p count = Ok arenas.
Proof.
  intros Hi Hlen Hc Hb E Hp.
  destruct (alloc_pages_from_ok count bitmap arenas 0 (ni_each _ Hi)) as [(k & n & r & Hfr & _ & E')|[E' _]]; [lia|lia|done|done| |].
  2: { unfold novm_alloc_pages in E. rewrite E' in E. congruence. }
  unfold novm_alloc_pages in E. rewrite E' in E. injection E as <- <-. destruct Hfr as (Hk & _ & Hr & Hrun & _).
  assert (ninv (<[k := marked n r count 1]> arenas)) as Hi' by (apply ninv_mark; done || lia). split; [done|].
  pose proof (lookup_lt_Some _ _ _ Hk) as Hlt. pose proof Hi as [He _]. rewrite Forall_lookup in He. pose proof (He k n Hk) as Hn.
  rewrite <- (Z.add_0_r (base n + r * PAGE_SIZE)). change (base n) with (base (marked n r count 1)).
  rewrite (novm_free_pages_ok _ k) by (try done; first [by apply list_lookup_insert_eq|simpl; lia]).
  rewrite mark_and_clear by (done || lia). rewrite list_insert_insert_eq. by rewrite list_insert_id.
Qed.

(** [novm_alloc_specific_pages] takes pages of one arena if all of them are free. *)
Theorem novm_alloc_specific_pages_spec arenas k n i count :
  ninv arenas → arenas !! k = Some n → 0 ≤ i < pages n → 0 ≤ count → i + count ≤ pages n →
  (run_free n i count ∧
    novm_alloc_specific_pages arenas (base n + i * PAGE_SIZE) count = Ok (NO_ERROR, <[k := marked n i count 1]> arenas)) ∨
  (¬ run_free n i count ∧ novm_alloc_specific_pages arenas (base n + i * PAGE_SIZE) count = Ok (ERR_NO_MEMORY, arenas)).
Proof.
  intros Hi Hk Hr Hc Hle. pose proof Hi as [He _]. rewrite Forall_lookup in He. pose proof (He k n Hk) as Hn. pose proof Hn as [H1 H2 H3 _ _].
  assert (base n ≤ base n + i * PAGE_SIZE < base n + size n) as Hin by (rewrite H3; unfold PAGE_SIZE in *; lia).
  unfold novm_alloc_specific_pages. rewrite (find_arena_ok arenas k n) by done. rewrite Hk. cbn [of_option mbind res_bind].
  pose proof (page_index_ok n i 0 ltac:(done)) as Ei. rewrite Z.add_0_r in Ei. rewrite Ei.
  destruct (first_used_ok (map n) i (Z.to_nat count) 0) as (o & E & Ho); [lia|lia|]. rewrite E. cbn [mbind res_bind]. destruct o as [d|].
  - right. split; [|done]. intros Hrun. destruct Ho as [Hd Hu]. apply Hu, Hrun. lia.
  - left. rewrite mem_write_Ok by (rewrite ?zlen_replicate; lia). split; [|done]. intros x Hx. apply Ho. lia.
Qed.

(** ** Setting up *)

Lemma grab_map_ok arena_start fuel : ∀ start size map_size,
  0 ≤ arena_start ≤ start → start + size < 2 ^ 64 → size = map_size * PAGE_SIZE → 0 ≤ map_size < Z.of_nat fuel →
  ∃ start' size' map_size', grab_map fuel arena_start start size map_size = Ok (start', size', map_size') ∧
    start' + size' = start + size ∧ size' = map_size' * PAGE_SIZE ∧ 0 ≤ map_size' ≤ map_size ∧ start ≤ start' ∧
    map_size' ≤ start' - arena_start.
Proof.
  induction fuel as [|fuel IH]; intros start size map_size Hs He Hz Hf; [lia|]. cbn [grab_map]. unfold PAGE_SIZE in *.
  rewrite (u64_small (start - arena_start)) by lia. destruct (Z.ltb_spec (start - arena_start) map_size).
  - rewrite (u64_small (start + 4096)), (u64_small (size - 4096)) by lia.
    destruct (IH (start + 4096) (size - 4096) (map_size - 1)) as (s' & z' & m' & E & H1 & H2 & H3 & H4 & H5); [lia..|].
    exists s', z', m'. split_and!; done || lia.
  - exists start, size, map_size. split_and!; done || lia.
Qed.

Lemma round_in x y :
  0 ≤ x → x + 4095 < 2 ^ 64 → ROUNDUP x PAGE_SIZE ≤ y → 0 ≤ y →
  x ≤ ROUNDUP x PAGE_SIZE ≤ ROUNDDOWN y PAGE_SIZE ∧ ROUNDDOWN y PAGE_SIZE ≤ y ∧
  (PAGE_SIZE | ROUNDDOWN y PAGE_SIZE - ROUNDUP x PAGE_SIZE).
Proof.
  change PAGE_SIZE with (2 ^ 12). intros Hx Hw Hxy Hy. destruct (ROUNDUP_bounds x 12) as [Hb [q Hq]]; [lia..|].
  rewrite ROUNDDOWN_spec by done. pose proof (Z.div_mod y (2 ^ 12) ltac:(done)) as Hd. pose proof (Z.mod_pos_bound y (2 ^ 12) ltac:(done)).
  assert (q ≤ y / 2 ^ 12) by (apply Z.div_le_lower_bound; lia). split_and!; [lia|lia|lia|]. exists (y / 2 ^ 12 - q). lia.
Qed.

Lemma size_pages z : (PAGE_SIZE | z) → Z.shiftr z PAGE_SIZE_SHIFT * PAGE_SIZE = z.
Proof. intros [q ->]. rewrite Z.shiftr_div_pow2 by done. change (2 ^ PAGE_SIZE_SHIFT) with PAGE_SIZE. by rewrite Z.div_mul. Qed.

Lemma s64_u64_diff d : - 2 ^ 63 ≤ d < 2 ^ 63 → s64 (u64 d) = d.
Proof. intros. unfold s64, u64. rewrite Zplus_mod_idemp_l, Z.mod_small by lia. lia. Qed.

(** [novm_init_helper] lays the arena out inside the memory given: whole free
    pages at the end, the map in the static array or, if that is too small, in
    front of the pages, and the spare memory between them in neither. *)
Lemma novm_init_helper_ok n nm arena_start arena_size default_map default_map_size :
  0 < arena_start → 0 < arena_size → arena_start + arena_size < 2 ^ 64 →
  ROUNDUP arena_start PAGE_SIZE ≤ arena_start + arena_size → arena_start + 4095 < 2 ^ 64 → unaligned_area n = 0 → unaligned_size n = 0 →
  ∃ n', novm_init_helper n nm arena_start arena_size default_map default_map_size = Ok n' ∧ novm_ok n' ∧
    (∀ i, 0 ≤ i < pages n' → page_free n' i) ∧ arena_start ≤ base n' ∧ base n' + size n' ≤ arena_start + arena_size ∧
    ((map_at n' = default_map ∧ default_map ≠ 0 ∧ pages n' ≤ default_map_size) ∨ (map_at n' = arena_start ∧ map_at n' + pages n' ≤ base n')) ∧
    (unaligned_area n' = 0 ∨
      (arena_start ≤ unaligned_area n' ∧ 64 ≤ unaligned_size n' ∧ unaligned_area n' + unaligned_size n' = base n' ∧
       (map_at n' = arena_start → map_at n' + pages n' ≤ unaligned_area n' ∨ map_at n' = default_map))).
Proof.
  intros H0 Hs He Hr Hw Hu1 Hu2. unfold novm_init_helper.
  destruct (round_in arena_start (arena_start + arena_size)) as (Ha & Hb & Hd); [lia..|].
  rewrite (u64_small (arena_start + arena_size)) by lia. set (start := ROUNDUP arena_start PAGE_SIZE) in *.
  set (stop := ROUNDDOWN (arena_start + arena_size) PAGE_SIZE) in *. rewrite (u64_small (stop - start)) by lia.
  pose proof (size_pages _ Hd) as Hm. set (ms := Z.shiftr (stop - start) PAGE_SIZE_SHIFT) in *.
  assert (0 ≤ ms) as Hms by (unfold PAGE_SIZE in Hm; lia).
  assert (∀ k i, 0 ≤ i < k → znth (replicate (Z.to_nat k) 0) i = Some 0) as Hz.
  { intros k i Hi. rewrite znth_lookup by lia. apply lookup_replicate_2. lia. }
  destruct ((default_map =? 0) || (default_map_size <? ms)) eqn:Ed.
  - destruct (grab_map_ok arena_start (S (Z.to_nat ms)) start (stop - start) ms) as (st & sz & m & E & H1 & H2 & H3 & H4 & H5); [lia..|].
    rewrite E. cbn [mbind res_bind]. eexists. split; [done|]. cbn [pages map map_at base size unaligned_area unaligned_size].
    assert (ROUNDUP m 4 = ROUNDUP m (2 ^ 2)) as -> by done. destruct (ROUNDUP_bounds m 2) as [Hup _]; [lia|lia|unfold PAGE_SIZE in *; lia|].
    change (2 ^ 2) with 4 in *. set (up := ROUNDUP m 4) in *.
    split_and!; [|intros i Hi; by apply Hz|lia|lia|right; split; lia|].
    { split; cbn [pages map base size]; [lia|apply zlen_replicate; lia|done|lia|lia]. }
    destruct (Z.leb_spec MINIMUM_USEFUL_UNALIGNED_SIZE (s64 (u64 (st - (arena_start + up))))) as [Hbig|]; [right|by left].
    cbn [unaligned_area unaligned_size with_unaligned].
    assert (arena_start + up ≤ st) as Hfit.
    { apply Z.nlt_ge. intros Hlt. rewrite s64_u64_diff in Hbig by lia. unfold MINIMUM_USEFUL_UNALIGNED_SIZE in Hbig. lia. }
    assert (0 ≤ sz) as Hsz by (rewrite H2; unfold PAGE_SIZE; lia). rewrite u64_small in * by lia. split_and!; try lia.
    revert Hbig. unfold MINIMUM_USEFUL_UNALIGNED_SIZE. destruct (Z.lt_ge_cases (st - (arena_start + up)) (2 ^ 63)); [rewrite s64_small; lia|lia].
  - apply orb_false_iff in Ed as [Ed1%Z.eqb_neq Ed2%Z.ltb_ge]. eexists. split; [done|]. cbn [pages map map_at base size unaligned_area unaligned_size].
    split_and!; [|intros i Hi; by apply Hz|lia|lia|left; split_and!; done|].
    { split; cbn [pages map base size]; [lia|apply zlen_replicate; lia|done|lia|lia]. }
    rewrite (u64_small (start - arena_start)) by lia.
    destruct (Z.leb_spec MINIMUM_USEFUL_UNALIGNED_SIZE (start - arena_start)) as [Hbig|]; [right|by left].
    cbn [unaligned_area unaligned_size with_unaligned]. unfold MINIMUM_USEFUL_UNALIGNED_SIZE in Hbig. split_and!; lia.
Qed.

(** [novm_add_arena] fills the first unused entry with memory behind the kernel. *)
Lemma novm_add_arena_ok arenas kend nm start len :
  (∃ k n, arenas !! k = Some n ∧ pages n = 0 ∧ unaligned_area n = 0 ∧ unaligned_size n = 0 ∧
    ∀ k' n', (k' < k)%nat → arenas !! k' = Some n' → pages n' ≠ 0) →
  0 < start → 0 < len → start + len < 2 ^ 64 → 0 ≤ kend →
  let start' := if (start <? kend) && (kend <? start + len) then kend else start in
  ROUNDUP start' PAGE_SIZE ≤ start + len → start' + 4095 < 2 ^ 64 →
  ∃ k n', novm_add_arena arenas kend nm start len = Ok (<[k := n']> arenas) ∧ novm_ok n' ∧
    start' ≤ base n' ∧ base n' + size n' ≤ start + len ∧ ∀ i, 0 ≤ i < pages n' → page_free n' i.
Proof.
  intros (k & n & Hk & Hp & Hu1 & Hu2 & Hfirst) H0 Hlen He Hk0 start' Hr Hw. subst start'.
  revert k n Hk Hp Hu1 Hu2 Hfirst. induction arenas as [|m arenas IH]; intros k n Hk Hp Hu1 Hu2 Hfirst; [done|]. cbn [novm_add_arena].
  destruct k as [|k].
  - injection Hk as ->. rewrite Hp. cbn [Z.eqb]. rewrite (u64_small (start + len)) by lia.
    destruct ((start <? kend) && (kend <? start + len)) eqn:E.
    + apply andb_true_iff in E as [E1%Z.ltb_lt E2%Z.ltb_lt]. rewrite (u64_small (len - (kend - start))) by lia.
      destruct (novm_init_helper_ok n nm kend (len - (kend - start)) 0 0) as (n' & E & Hn & Hz & Hb & He' & _); [lia..|done|done|].
      rewrite E. cbn [mbind res_bind]. exists 0%nat, n'. split_and!; done || lia.
    + destruct (novm_init_helper_ok n nm start len 0 0) as (n' & E' & Hn & Hz & Hb & He' & _); [done..|].
      rewrite E'. cbn [mbind res_bind]. exists 0%nat, n'. split_and!; done || lia.
  - pose proof (Hfirst 0%nat m ltac:(lia) eq_refl) as Hm. rewrite (proj2 (Z.eqb_neq (pages m) 0)) by done.
    destruct (IH k n Hk Hp Hu1 Hu2) as (k2 & n' & E & Hn & Hrest). { intros k' n1 Hlt Hk'. apply (Hfirst (S k')); [lia|done]. }
    rewrite E. cbn [mbind res_bind]. by exists (S k2), n'.
Qed.

(** ** A machine with one arena *)

Definition no_novm : novm_arena := mk_novm EmptyString 0 0 [] 0 0 0 0.

(** Sixteen pages from 0x10200 on; the map takes the rest of the first page. *)
Definition ex_novm : list novm_arena :=
  match novm_add_arena [no_novm] 0x8000 "sdram"%string 0x10200 0x10000 with Ok l => l | Fault _ => [] end.

Example ex_novm_eq : ex_novm =
  [mk_novm "sdram"%string 15 0x10200 (replicate 15 0) 0x11000 0xf000 0x10210 0xdf0].
Proof. vm_compute. reflexivity. Qed.

Lemma ex_novm_inv : ninv ex_novm.
Proof.
  rewrite ex_novm_eq. split.
  - constructor; [|constructor]. by split.
  - intros [|i] [|j] n n' Hi Hj Hij; simpl in *; done.
Qed.

Lemma novm_alloc_pages_spec_witness :
  (∃ k n r, first_run ex_novm (2 ^ 32 - 1) 3 k n r ∧ base n + r * PAGE_SIZE ≠ 0 ∧
    novm_alloc_pages ex_novm 3 (2 ^ 32 - 1) = Ok (base n + r * PAGE_SIZE, <[k := marked n r 3 1]> ex_novm)) ∨
  (novm_alloc_pages ex_novm 3 (2 ^ 32 - 1) = Ok (0, ex_novm) ∧ no_free_run ex_novm (2 ^ 32 - 1) 3).
Proof.
  apply (novm_alloc_pages_spec ex_novm 3 (2 ^ 32 - 1)).
  - apply ex_novm_inv.
  - rewrite ex_novm_eq. simpl. lia.
  - lia.
  - lia.
Defined.

Definition ex_novm1 : list novm_arena := match novm_alloc_pages ex_novm 3 (2 ^ 32 - 1) with Ok (_, l) => l | Fault _ => [] end.

Lemma novm_alloc_free_roundtrip_witness : ninv ex_novm1 ∧ novm_free_pages ex_novm1 0x11000 3 = Ok ex_novm.
Proof.
  apply (novm_alloc_free_roundtrip ex_novm 3 (2 ^ 32 - 1) 0x11000 ex_novm1).
  - apply ex_novm_inv.
  - rewrite ex_novm_eq. simpl. lia.
  - lia.
  - lia.
  - vm_compute. reflexivity.
  - lia.
Defined.

(** Asking for more pages than the arena has left reads past the end of the map. *)
Example novm_alloc_specific_overruns :
  novm_alloc_specific_pages ex_novm (0x11000 + 14 * PAGE_SIZE) 2 = Fault BadAccess.
Proof. vm_compute. reflexivity. Qed.
