(* ===== verification/Port.v ===== *)
(** Ports: [kernel/port.c].

    A port handle is the address of a structure; [heap] has the structures that
    are allocated, with the placeholder that [port_create] keeps on its stack among
    them.  A structure that was freed is gone from [heap], and using it is a fault.
    The wait queues are those of the scheduler, through the interface [WaitQueues];
    the queue of a read port or a group is named by its address.

    Under the thread lock a call is one step.  [port_create] takes the lock twice,
    so it is two steps; a reader that finds nothing blocks, so [port_read] is an
    attempt followed by a wait and another attempt; [port_close] may be switched
    out while it wakes the waiters, so it is two steps with that in between. *)
From stdpp Require Import prelude gmap strings.
From S2P Require Import Prelude Pow2.

#[local] Open Scope Z_scope.

(** * Data *)

Definition WRITEPORT_MAGIC_W : Z := 0x70727477.
Definition WRITEPORT_MAGIC_X : Z := 0x70727478.
Definition READPORT_MAGIC : Z := 0x70727472.
Definition PORTGROUP_MAGIC : Z := 0x70727467.
Definition PORTHOLD_MAGIC : Z := 0x70727467.

Definition PORT_BUFF_SIZE : Z := 8.
Definition PORT_BUFF_SIZE_BIG : Z := 64.
Definition MAX_PORT_GROUP_COUNT : Z := 256.
Definition PORT_NAME_LEN : nat := 12.
Definition PORT_MODE_BROADCAST : Z := 0.
Definition PORT_MODE_UNICAST : Z := 1.
Definition PORT_MODE_BIG_BUFFER : Z := 2.

(** The bytes of a packet. *)
Definition packet : Type := list Z.

(** Cells that were never written have no contents. *)
Record port_buf := mk_buf {
  b_log2 : Z;
  b_avail : Z;
  b_head : Z;
  b_tail : Z;
  b_packet : list (option packet);
}.

Record write_port := mk_wp {
  w_magic : Z;
  w_buf : option port_buf;
  w_rps : list nat;
  w_mode : Z;
  w_name : string;
}.

Record read_port := mk_rp {
  r_magic : Z;
  r_buf : option port_buf;
  r_ctx : Z;
  r_wport : option nat;
  r_gport : option nat;
}.

Record port_group_ := mk_pg {
  g_magic : Z;
  g_rps : list nat;
}.

Inductive port_obj :=
| OWrite (wp : write_port)
| ORead (rp : read_port)
| OGroup (pg : port_group_).

(** The first field of each structure. *)
Definition obj_magic (o : port_obj) : Z :=
  match o with OWrite wp => w_magic wp | ORead rp => r_magic rp | OGroup pg => g_magic pg end.

(** * The wait queues that ports use *)

(** Each call returns without rescheduling; the results are the threads woken.
    [wq_retire] is the end of [wait_queue_destroy], after it has woken the waiters. *)
Class WaitQueues (W : Type) := {
  wq_init : nat → W → res W;
  wq_wake_one : nat → Z → W → res (Z * W);
  wq_wake_all : nat → Z → W → res (Z * W);
  wq_retire : nat → W → res W;
}.

(** * The state and its monad *)

Record ports (W : Type) := mk_ports {
  heap : gmap nat port_obj;
  write_port_list : list nat;
  wqs : W;
}.
Arguments mk_ports {W}.
Arguments heap {W}.
Arguments write_port_list {W}.
Arguments wqs {W}.

Definition P (W A : Type) : Type := ports W → res (A * ports W).

#[export] Instance P_ret W : MRet (P W) := λ A a s, Ok (a, s).
#[export] Instance P_bind W : MBind (P W) :=
  λ A B f m s, match m s with Ok (a, s') => f a s' | Fault e => Fault e end.

Section ops.
Context {W : Type} `{WQ : WaitQueues W}.

Definition plift {A} (r : res A) : P W A := λ s, match r with Ok a => Ok (a, s) | Fault e => Fault e end.
Definition get_obj (p : nat) : P W port_obj := λ s,
  match heap s !! p with Some o => Ok (o, s) | None => Fault BadAccess end.
Definition put_obj (p : nat) (o : port_obj) : P W unit := λ s,
  Ok ((), mk_ports (<[p := o]> (heap s)) (write_port_list s) (wqs s)).
Definition free_obj (p : nat) : P W unit := λ s, Ok ((), mk_ports (delete p (heap s)) (write_port_list s) (wqs s)).
Definition on_list (f : list nat → list nat) : P W unit := λ s, Ok ((), mk_ports (heap s) (f (write_port_list s)) (wqs s)).
Definition get_list : P W (list nat) := λ s, Ok (write_port_list s, s).
Definition on_wqs {A} (f : W → res (A * W)) : P W A := λ s,
  match f (wqs s) with Ok (a, w) => Ok (a, mk_ports (heap s) (write_port_list s) w) | Fault e => Fault e end.

(** The structure is used as one of its kind. *)
Definition get_wp (p : nat) : P W write_port :=
  o ← get_obj p; match o with OWrite wp => mret wp | _ => plift (Fault BadAccess) end.
Definition get_rp (p : nat) : P W read_port :=
  o ← get_obj p; match o with ORead rp => mret rp | _ => plift (Fault BadAccess) end.
Definition get_pg (p : nat) : P W port_group_ :=
  o ← get_obj p; match o with OGroup pg => mret pg | _ => plift (Fault BadAccess) end.
Definition get_magic (p : nat) : P W Z := o ← get_obj p; mret (obj_magic o).

Definition wake_one (q : nat) (code : Z) : P W Z := on_wqs (wq_wake_one q code).
Definition wake_all (q : nat) (code : Z) : P W Z := on_wqs (wq_wake_all q code).
Definition unit_res (r : res W) : res (unit * W) := w ← r; Ok ((), w).
Definition init_wq (q : nat) : P W unit := on_wqs (λ w, unit_res (wq_init q w)).
Definition retire_wq (q : nat) : P W unit := on_wqs (λ w, unit_res (wq_retire q w)).

Definition set_wbuf (b : option port_buf) (wp : write_port) : write_port := mk_wp (w_magic wp) b (w_rps wp) (w_mode wp) (w_name wp).
Definition set_wrps (l : list nat) (wp : write_port) : write_port := mk_wp (w_magic wp) (w_buf wp) l (w_mode wp) (w_name wp).
Definition set_wmagic (m : Z) (wp : write_port) : write_port := mk_wp m (w_buf wp) (w_rps wp) (w_mode wp) (w_name wp).
Definition set_rbuf (b : option port_buf) (rp : read_port) : read_port := mk_rp (r_magic rp) b (r_ctx rp) (r_wport rp) (r_gport rp).
Definition set_rwport (o : option nat) (rp : read_port) : read_port := mk_rp (r_magic rp) (r_buf rp) (r_ctx rp) o (r_gport rp).
Definition set_gport (o : option nat) (rp : read_port) : read_port := mk_rp (r_magic rp) (r_buf rp) (r_ctx rp) (r_wport rp) o.

(** * Buffers *)

(** [malloc] returned memory. *)
Definition make_buf (big : bool) (malloc : bool) : option port_buf :=
  let pk_count := if big then PORT_BUFF_SIZE_BIG else PORT_BUFF_SIZE in
  if malloc then Some (mk_buf (log2_uint pk_count) pk_count 0 0 (replicate (Z.to_nat pk_count) None)) else None.

Definition buf_is_empty (b : port_buf) : bool := b_avail b =? valpow2 (b_log2 b).

Fixpoint buf_put (b : port_buf) (packets : list packet) : res port_buf :=
  match packets with
  | [] => Ok b
  | pk :: packets =>
      _ ← of_option BadAccess (b_packet b !! Z.to_nat (b_tail b));
      buf_put (mk_buf (b_log2 b) (b_avail b) (b_head b) (modpow2 (u32 (b_tail b + 1)) (b_log2 b))
                 (<[Z.to_nat (b_tail b) := Some pk]> (b_packet b))) packets
  end.

Definition buf_write (b : port_buf) (packets : list packet) : res (Z * port_buf) :=
  let count := Z.of_nat (length packets) in
  if b_avail b <? count then Ok (ERR_NOT_ENOUGH_BUFFER, b) else
  b ← buf_put b packets;
  Ok (NO_ERROR, mk_buf (b_log2 b) (u32 (b_avail b - count)) (b_head b) (b_tail b) (b_packet b)).

(** Reading a cell that was never written is a fault. *)
Definition buf_read (b : port_buf) : res (Z * option packet * port_buf) :=
  if buf_is_empty b then Ok (ERR_NO_MSG, None, b) else
  c ← of_option BadAccess (b_packet b !! Z.to_nat (b_head b));
  pk ← of_option BadAccess c;
  Ok (NO_ERROR, Some pk, mk_buf (b_log2 b) (u32 (b_avail b + 1)) (modpow2 (u32 (b_head b + 1)) (b_log2 b)) (b_tail b) (b_packet b)).

(** * Opening and closing *)

Definition port_init : P W unit := on_list (λ _, []).

(** The first port in the list with this name for which [ok] holds. *)
Fixpoint find_name (name : string) (ok : write_port → bool) (l : list nat) : P W (option (nat * write_port)) :=
  match l with
  | [] => mret None
  | p :: l =>
      wp ← get_wp p;
      if bool_decide (w_name wp = name) && ok wp then mret (Some (p, wp)) else find_name name ok l
  end.

(** The first part of [port_create], up to the allocations: [Some] is what the
    call returns, and [None] says that it goes on with [hold], the placeholder on
    the stack, in the list. *)
Definition port_create_begin (hold : nat) (name : option string) (mode : Z) (port : bool) : P W (option (Z * option nat)) :=
  match name with
  | None => mret (Some (ERR_INVALID_ARGS, None))
  | Some name =>
      if negb port then mret (Some (ERR_INVALID_ARGS, None))
      else if has_flag mode PORT_MODE_BROADCAST && has_flag mode PORT_MODE_BIG_BUFFER then mret (Some (ERR_INVALID_ARGS, None))
      else if (PORT_NAME_LEN <=? String.length name)%nat then mret (Some (ERR_INVALID_ARGS, None))
      else
        l ← get_list;
        o ← find_name name (λ _, true) l;
        match o with
        | Some (p, wp) =>
            mret (Some (if (w_magic wp =? WRITEPORT_MAGIC_X) || (w_magic wp =? PORTHOLD_MAGIC) then (ERR_BUSY, None)
                        else (ERR_ALREADY_EXISTS, Some p)))
        | None =>
            put_obj hold (OWrite (mk_wp PORTHOLD_MAGIC None [] 0 name));;
            on_list (λ l, l ++ [hold]);;
            mret None
        end
  end.

(** The placeholder leaves the list; its memory ends with the call. *)
Definition drop_hold (hold : nat) : P W unit := on_list (filter (.≠ hold));; free_obj hold.

(** The second part: [mem] is what [calloc] returned, [malloc] whether the buffer
    could be allocated. *)
Definition port_create_end (hold : nat) (name : string) (mode : Z) (mem : option nat) (malloc : bool) : P W (Z * option nat) :=
  match mem with
  | None => drop_hold hold;; mret (ERR_NO_MEMORY, None)
  | Some p =>
      match make_buf (has_flag mode PORT_MODE_BIG_BUFFER) malloc with
      | None => drop_hold hold;; mret (ERR_NO_MEMORY, None)
      | Some b =>
          put_obj p (OWrite (mk_wp WRITEPORT_MAGIC_W (Some b) [] mode name));;
          on_list (λ l, l ++ [p]);;
          drop_hold hold;;
          mret (NO_ERROR, Some p)
      end
  end.

Definition port_open (name : option string) (ctx : Z) (port : bool) (mem : option nat) (malloc : bool) : P W (Z * option nat) :=
  match name with
  | None => mret (ERR_INVALID_ARGS, None)
  | Some name =>
      if negb port then mret (ERR_INVALID_ARGS, None) else
      match mem with
      | None => mret (ERR_NO_MEMORY, None)
      | Some p =>
          init_wq p;;
          match make_buf false malloc with
          | None => mret (ERR_NO_MEMORY, None)
          | Some buf =>
              l ← get_list;
              o ← find_name name (λ wp, negb (w_magic wp =? PORTHOLD_MAGIC)) l;
              match o with
              | None => mret (ERR_NOT_FOUND, None)
              | Some (w, wp) =>
                  match w_buf wp with
                  | Some b =>
                      put_obj w (OWrite (set_wbuf None (set_wrps (w_rps wp ++ [p]) wp)));;
                      put_obj p (ORead (mk_rp READPORT_MAGIC (Some b) ctx (Some w) None));;
                      mret (NO_ERROR, Some p)
                  | None =>
                      if has_flag (w_mode wp) PORT_MODE_UNICAST then mret (ERR_NOT_ALLOWED, None) else
                      put_obj w (OWrite (set_wrps (w_rps wp ++ [p]) wp));;
                      put_obj p (ORead (mk_rp READPORT_MAGIC (Some buf) ctx (Some w) None));;
                      mret (NO_ERROR, Some p)
                  end
              end
          end
      end
  end.

(** * Groups *)

(** The undoing of the links to the read ports before the one that failed. *)
Fixpoint group_undo (l : list nat) : P W unit :=
  match l with
  | [] => mret ()
  | p :: l => rp ← get_rp p; put_obj p (ORead (set_gport None rp));; group_undo l
  end.

(** The links to the read ports [l]; those in [linked] are done. *)
Fixpoint group_link (g : nat) (linked l : list nat) : P W Z :=
  match l with
  | [] => mret NO_ERROR
  | p :: l =>
      o ← get_obj p;
      match o with
      | ORead rp =>
          if bool_decide (r_gport rp = None) && (r_magic rp =? READPORT_MAGIC) then
            put_obj p (ORead (set_gport (Some g) rp));;
            pg ← get_pg g;
            put_obj g (OGroup (mk_pg (g_magic pg) (g_rps pg ++ [p])));;
            group_link g (linked ++ [p]) l
          else group_undo linked;; mret ERR_BAD_HANDLE
      | _ => group_undo linked;; mret ERR_BAD_HANDLE
      end
  end.

(** [ports] is what the array has, or null. *)
Definition port_group (ports : option (list nat)) (count : Z) (group : bool) (mem : option nat) : P W (Z * option nat) :=
  if MAX_PORT_GROUP_COUNT <? count then mret (ERR_TOO_BIG, None)
  else if negb (count =? 0) && bool_decide (ports = None) then mret (ERR_INVALID_ARGS, None)
  else if negb group then mret (ERR_INVALID_ARGS, None)
  else match mem with
  | None => mret (ERR_NO_MEMORY, None)
  | Some g =>
      put_obj g (OGroup (mk_pg PORTGROUP_MAGIC []));;
      init_wq g;;
      let l := take (Z.to_nat count) (default [] ports) in
      _ ← plift (if Z.of_nat (length l) =? count then Ok () else Fault BadAccess);
      rc ← group_link g [] l;
      if rc =? NO_ERROR then mret (NO_ERROR, Some g) else free_obj g;; mret (rc, None)
  end.

Definition port_group_add (group port : option nat) : P W Z :=
  match group, port with
  | Some g, Some p =>
      gm ← get_magic g;
      if negb (gm =? PORTGROUP_MAGIC) then mret ERR_INVALID_ARGS else
      o ← get_obj p;
      match o with
      | ORead rp =>
          if negb (r_magic rp =? READPORT_MAGIC) || bool_decide (r_gport rp ≠ None) then mret ERR_BAD_HANDLE else
          pg ← get_pg g;
          if Z.of_nat (length (g_rps pg)) =? MAX_PORT_GROUP_COUNT then mret ERR_TOO_BIG else
          put_obj p (ORead (set_gport (Some g) rp));;
          put_obj g (OGroup (mk_pg (g_magic pg) (g_rps pg ++ [p])));;
          b ← plift (of_option BadAccess (r_buf rp));
          (if buf_is_empty b then mret 0 else wake_one g NO_ERROR);;
          mret NO_ERROR
      | _ => mret ERR_BAD_HANDLE
      end
  | _, _ => mret ERR_INVALID_ARGS
  end.

Definition port_group_remove (group port : option nat) : P W Z :=
  match group, port with
  | Some g, Some p =>
      gm ← get_magic g;
      if negb (gm =? PORTGROUP_MAGIC) then mret ERR_INVALID_ARGS else
      o ← get_obj p;
      match o with
      | ORead rp =>
          if negb (r_magic rp =? READPORT_MAGIC) || bool_decide (r_gport rp ≠ Some g) then mret ERR_BAD_HANDLE else
          pg ← get_pg g;
          if negb (bool_decide (p ∈ g_rps pg)) then mret ERR_BAD_HANDLE else
          put_obj g (OGroup (mk_pg (g_magic pg) (filter (.≠ p) (g_rps pg))));;
          put_obj p (ORead (set_gport None rp));;
          mret NO_ERROR
      | _ => mret ERR_BAD_HANDLE
      end
  | _, _ => mret ERR_INVALID_ARGS
  end.

(** * Writing and reading *)

(** One read port: write, and wake a thread of its group or, if there is none, one
    of its own. *)
Definition write_reader (pk : list packet) (p : nat) : P W (bool * Z) :=
  rp ← get_rp p;
  b ← plift (of_option BadAccess (r_buf rp));
  '(rc, b) ← plift (buf_write b pk);
  put_obj p (ORead (set_rbuf (Some b) rp));;
  if rc <? 0 then mret (false, 0) else
  awaken ← match r_gport rp with Some g => wake_one g NO_ERROR | None => mret 0 end;
  awaken ← (if awaken =? 0 then wake_one p NO_ERROR else mret awaken);
  mret (true, awaken).

Fixpoint write_readers (pk : list packet) (l : list nat) (status awake_count : Z) : P W (Z * Z) :=
  match l with
  | [] => mret (status, awake_count)
  | p :: l =>
      '(ok, awaken) ← write_reader pk p;
      write_readers pk l (if ok : bool then status else ERR_PARTIAL_WRITE) (awake_count + awaken)
  end.

(** The status and whether the thread yields after it has given up the lock. *)
Definition port_write (port : option nat) (pk : option (list packet)) : P W (Z * bool) :=
  match port, pk with
  | Some w, Some pk =>
      o ← get_obj w;
      match o with
      | OWrite wp =>
          if negb (w_magic wp =? WRITEPORT_MAGIC_W) then mret (ERR_BAD_HANDLE, false) else
          match w_buf wp with
          | Some b =>
              '(status, b) ← plift (buf_write b pk);
              put_obj w (OWrite (set_wbuf (Some b) wp));;
              mret (status, false)
          | None =>
              '(status, awake_count) ← write_readers pk (w_rps wp) NO_ERROR 0;
              mret (status, negb (awake_count =? 0))
          end
      | _ => mret (ERR_BAD_HANDLE, false)
      end
  | _, _ => mret (ERR_INVALID_ARGS, false)
  end.

(** A read returns a status, with the context and the packet of a success, or
    blocks on a queue. *)
Inductive read_outcome :=
| Returned (rc : Z) (result : option (Z * packet))
| Blocked (q : nat).

(** [read_no_lock] up to its wait; a timeout of 0 does not wait. *)
Definition read_no_lock (p : nat) (timeout : Z) : P W read_outcome :=
  rp ← get_rp p;
  b ← plift (of_option BadAccess (r_buf rp));
  '(status, pk, b) ← plift (buf_read b);
  put_obj p (ORead (set_rbuf (Some b) rp));;
  if negb (status =? ERR_NO_MSG) then mret (Returned status ((λ pk, (r_ctx rp, pk)) <$> pk))
  else if timeout =? 0 then mret (Returned ERR_TIMED_OUT None)
  else mret (Blocked p).

(** The ports of a group in order, without waiting. *)
Fixpoint read_group (l : list nat) : P W (option read_outcome) :=
  match l with
  | [] => mret None
  | p :: l =>
      r ← read_no_lock p 0;
      match r with
      | Returned rc res => if rc =? ERR_TIMED_OUT then read_group l else mret (Some (Returned rc res))
      | Blocked q => mret (Some (Blocked q))
      end
  end.

(** From the start of the search, or from a wake-up, to the return or the wait.  A
    group with a timeout of 0 waits as well: [wait_queue_block] returns at once. *)
Definition port_read_attempt (port : nat) (timeout : Z) : P W read_outcome :=
  o ← get_obj port;
  match o with
  | ORead _ => read_no_lock port timeout
  | OGroup pg => r ← read_group (g_rps pg); mret (default (Blocked port) r)
  | OWrite _ => plift (Fault BadAccess)
  end.

Definition port_read (port : option nat) (timeout : Z) (result : bool) : P W read_outcome :=
  match port with
  | Some p =>
      if negb result then mret (Returned ERR_INVALID_ARGS None) else
      magic ← get_magic p;
      if (magic =? READPORT_MAGIC) || (magic =? PORTGROUP_MAGIC) then port_read_attempt p timeout
      else mret (Returned ERR_BAD_HANDLE None)
  | None => mret (Returned ERR_INVALID_ARGS None)
  end.

(** The wait on the queue returned [wr]; the kind of the port is not checked again. *)
Definition port_read_woken (port : nat) (timeout wr : Z) : P W read_outcome :=
  if wr =? NO_ERROR then port_read_attempt port timeout else mret (Returned wr None).

(** * Destroying *)

Fixpoint destroy_readers (l : list nat) : P W unit :=
  match l with
  | [] => mret ()
  | p :: l =>
      rp ← get_rp p;
      wake_all p ERR_CANCELLED;;
      match r_gport rp with Some g => wake_all g ERR_CANCELLED;; mret () | None => mret () end;;
      put_obj p (ORead (set_rwport None rp));;
      destroy_readers l
  end.

Definition port_destroy (port : option nat) : P W Z :=
  match port with
  | None => mret ERR_INVALID_ARGS
  | Some w =>
      o ← get_obj w;
      match o with
      | OWrite wp =>
          if negb (w_magic wp =? WRITEPORT_MAGIC_X) then mret ERR_BAD_HANDLE else
          on_list (filter (.≠ w));;
          match w_buf wp with Some _ => mret () | None => destroy_readers (w_rps wp) end;;
          free_obj w;;
          mret NO_ERROR
      | _ => mret ERR_BAD_HANDLE
      end
  end.

(** [port_close] up to the destruction of the wait queue: [Some] is what the call
    returns, [None] says that the queue of [port] is destroyed next. *)
Definition port_close_begin (port : option nat) : P W (option Z) :=
  match port with
  | None => mret (Some ERR_INVALID_ARGS)
  | Some p =>
      o ← get_obj p;
      match o with
      | ORead rp =>
          if negb (r_magic rp =? READPORT_MAGIC) then mret (Some ERR_BAD_HANDLE) else
          match r_wport rp with
          | Some w =>
              wp ← get_wp w;
              let l := filter (.≠ p) (w_rps wp) in
              if bool_decide (l = []) then
                put_obj w (OWrite (set_wbuf (r_buf rp) (set_wrps l wp)));;
                put_obj p (ORead (set_rbuf None rp))
              else put_obj w (OWrite (set_wrps l wp))
          | None => mret ()
          end;;
          match r_gport rp with
          | Some g => pg ← get_pg g; put_obj g (OGroup (mk_pg (g_magic pg) (filter (.≠ p) (g_rps pg))))
          | None => mret ()
          end;;
          mret None
      | OGroup pg => if g_magic pg =? PORTGROUP_MAGIC then mret None else mret (Some ERR_BAD_HANDLE)
      | OWrite wp =>
          if w_magic wp =? WRITEPORT_MAGIC_W
          then put_obj p (OWrite (set_wmagic WRITEPORT_MAGIC_X wp));; mret (Some NO_ERROR)
          else mret (Some ERR_BAD_HANDLE)
      end
  end.

(** From the end of the destruction of the wait queue on. *)
Definition port_close_end (p : nat) : P W Z :=
  retire_wq p;;
  o ← get_obj p;
  match o with
  | OGroup pg => group_undo (g_rps pg)
  | _ => mret ()
  end;;
  free_obj p;;
  mret NO_ERROR.
End ops.

(** * Buffers are queues *)

(** The buffer has the packets [l], oldest first, leaving [b_avail] alone. *)
Record ring (b : port_buf) (l : list packet) : Prop := {
  rg_log2 : 0 ≤ b_log2 b < 31;
  rg_head : 0 ≤ b_head b < 2 ^ b_log2 b;
  rg_tail : b_tail b = (b_head b + Z.of_nat (length l)) `mod` 2 ^ b_log2 b;
  rg_cells : Z.of_nat (length (b_packet b)) = 2 ^ b_log2 b;
  rg_fits : Z.of_nat (length l) ≤ 2 ^ b_log2 b;
  rg_cell : ∀ i x, l !! i = Some x → b_packet b !! Z.to_nat ((b_head b + Z.of_nat i) `mod` 2 ^ b_log2 b) = Some (Some x);
}.

Definition holds (b : port_buf) (l : list packet) : Prop := ring b l ∧ b_avail b = 2 ^ b_log2 b - Z.of_nat (length l).

Lemma mod_shift_ne h n i j : 0 < n → 0 ≤ i < n → 0 ≤ j < n → (h + i) `mod` n = (h + j) `mod` n → i = j.
Proof.
  intros Hn Hi Hj H. assert ((i - j) `mod` n = 0) as H0.
  { replace (i - j) with ((h + i) - (h + j)) by lia. rewrite Zminus_mod, H, Z.sub_diag. by apply Z.mod_0_l; lia. }
  apply Z.mod_divide in H0 as [q Hq]; [|lia]. assert (q = 0) as -> by nia. lia.
Qed.

Lemma pow_lt_31 k : 0 ≤ k < 31 → 0 < 2 ^ k < 2 ^ 31.
Proof. intros. split; [apply Z.pow_pos_nonneg; lia|apply Z.pow_lt_mono_r; lia]. Qed.

Lemma next_index k i : 0 ≤ k < 31 → 0 ≤ i < 2 ^ k → modpow2 (u32 (i + 1)) k = (i + 1) `mod` 2 ^ k.
Proof. intros Hk Hi. pose proof (pow_lt_31 k Hk). rewrite u32_small by lia. apply modpow2_mod; lia. Qed.

Lemma ring_put b l pk :
  ring b l → Z.of_nat (length l) < 2 ^ b_log2 b →
  is_Some (b_packet b !! Z.to_nat (b_tail b)) ∧
  ring (mk_buf (b_log2 b) (b_avail b) (b_head b) (modpow2 (u32 (b_tail b + 1)) (b_log2 b)) (<[Z.to_nat (b_tail b) := Some pk]> (b_packet b)))
    (l ++ [pk]).
Proof.
  intros [Hk Hh Ht Hc Hf Hl] Hlt. pose proof (pow_lt_31 _ Hk) as Hp.
  pose proof (Z.mod_pos_bound (b_head b + Z.of_nat (length l)) (2 ^ b_log2 b) ltac:(lia)) as Hb. rewrite <- Ht in Hb.
  split; [apply lookup_lt_is_Some; lia|]. split; simpl; try done.
  - rewrite next_index, length_app by done. simpl. rewrite Ht, Zplus_mod_idemp_l. f_equal. lia.
  - by rewrite length_insert.
  - rewrite length_app. simpl. lia.
  - intros i x Hi. destruct (decide (i = length l)) as [->|Hne].
    + rewrite lookup_app_r, Nat.sub_diag in Hi by lia. injection Hi as <-. rewrite <- Ht. apply list_lookup_insert_eq. lia.
    + pose proof (lookup_lt_Some _ _ _ Hi) as Hi'. rewrite length_app in Hi'. simpl in Hi'.
      rewrite lookup_app_l in Hi by lia. rewrite list_lookup_insert_ne; [by apply Hl|]. rewrite Ht. intros E.
      pose proof (Z.mod_pos_bound (b_head b + Z.of_nat i) (2 ^ b_log2 b) ltac:(lia)).
      apply Z2Nat.inj in E; [|lia|lia]. apply mod_shift_ne in E; lia.
Qed.

Lemma buf_put_ok pks : ∀ b l,
  ring b l → Z.of_nat (length l) + Z.of_nat (length pks) ≤ 2 ^ b_log2 b →
  ∃ b', buf_put b pks = Ok b' ∧ ring b' (l ++ pks) ∧ b_log2 b' = b_log2 b ∧ b_avail b' = b_avail b.
Proof.
  induction pks as [|pk pks IH]; intros b l Hr Hle; cbn [buf_put].
  - exists b. by rewrite app_nil_r.
  - cbn [length] in Hle. destruct (ring_put b l pk Hr ltac:(lia)) as [[c Hc] Hr']. rewrite Hc. cbn [of_option mbind res_bind].
    destruct (IH _ _ Hr') as (b' & E & Hr'' & El & Ea). { rewrite length_app. simpl. lia. }
    exists b'. rewrite <- app_assoc in Hr''. done.
Qed.

(** [buf_write] takes all of the packets or none. *)
Lemma buf_write_ok b l pks :
  holds b l →
  if 2 ^ b_log2 b <? Z.of_nat (length l) + Z.of_nat (length pks) then buf_write b pks = Ok (ERR_NOT_ENOUGH_BUFFER, b)
  else ∃ b', buf_write b pks = Ok (NO_ERROR, b') ∧ holds b' (l ++ pks) ∧ b_log2 b' = b_log2 b.
Proof.
  intros [Hr Ha]. pose proof Hr as [Hk _ _ _ Hf _]. pose proof (pow_lt_31 _ Hk) as Hp. unfold buf_write.
  destruct (Z.ltb_spec (2 ^ b_log2 b) (Z.of_nat (length l) + Z.of_nat (length pks))).
  - by rewrite (proj2 (Z.ltb_lt _ _)) by lia.
  - rewrite (proj2 (Z.ltb_ge _ _)) by lia. destruct (buf_put_ok pks b l Hr ltac:(lia)) as (b' & E & [H1 H2 H3 H4 H5 H6] & El & Ea).
    rewrite E. cbn [mbind res_bind]. eexists. split; [done|]. split; [|done]. split; [by split|]. simpl. rewrite El, Ea, length_app, u32_small; lia.
Qed.

Lemma buf_is_empty_ok b l : holds b l → buf_is_empty b = bool_decide (l = []).
Proof.
  intros [[Hk _ _ _ _ _] Ha]. unfold buf_is_empty. rewrite valpow2_pow, Ha by lia. destruct l as [|x l]; simpl.
  - rewrite Z.sub_0_r. by rewrite Z.eqb_refl.
  - rewrite (proj2 (Z.eqb_neq _ _)) by lia. done.
Qed.

(** [buf_read] takes the oldest packet. *)
Lemma buf_read_ok b l :
  holds b l →
  match l with
  | [] => buf_read b = Ok (ERR_NO_MSG, None, b)
  | pk :: l => ∃ b', buf_read b = Ok (NO_ERROR, Some pk, b') ∧ holds b' l ∧ b_log2 b' = b_log2 b
  end.
Proof.
  intros Hh. unfold buf_read. rewrite (buf_is_empty_ok b l) by done. pose proof Hh as [[Hk Hh' Ht Hc Hf Hl] Ha].
  pose proof (pow_lt_31 _ Hk) as Hp. destruct l as [|pk l]; [done|]. cbn [length] in *. rewrite bool_decide_eq_false_2 by done.
  pose proof (Hl 0%nat pk eq_refl) as H0. rewrite Z.add_0_r, Z.mod_small in H0 by done. rewrite H0. cbn [of_option mbind res_bind].
  eexists. split; [done|]. split; [|done]. split; simpl; [|rewrite u32_small; lia]. split; simpl; try done.
  - rewrite next_index by done. apply Z.mod_pos_bound. lia.
  - rewrite next_index, Zplus_mod_idemp_l, Ht by done. f_equal. lia.
  - lia.
  - intros i x Hi. rewrite next_index, Zplus_mod_idemp_l by done. rewrite <- (Hl (S i) x Hi). do 3 f_equal. lia.
Qed.

Lemma make_buf_ok big : ∃ b, make_buf big true = Some b ∧ holds b [].
Proof.
  eexists. split; [done|]. split; [split|]; simpl; try done; destruct big; try done; vm_compute; done.
Qed.
