(* ===== verification/PortInv.v ===== *)
(** The invariant of ports.

    A write port has a buffer exactly as long as it has no reader; readers and
    write ports, and readers and groups, point at each other; names are unique and
    a unicast port has one reader at most.  Every step keeps this, so no call on
    live handles uses a missing buffer or a freed structure. *)
From stdpp Require Import prelude gmap strings.
From S2P Require Import Prelude Pow2 Port.

#[local] Open Scope Z_scope.

(** What ports rely on: [wok] is the invariant of the scheduler, [ready] says that
    a queue was initialised and not destroyed. *)
Class WaitQueueLaws (W : Type) `{WaitQueues W} (wok : W → Prop) (ready : W → nat → Prop) (waiters : W → nat → list nat) := {
  wql_init q w : wok w → waiters w q = [] →
    ∃ w', wq_init q w = Ok w' ∧ wok w' ∧ ready w' q ∧ ∀ q', ready w q' → ready w' q';
  wql_one q code w : wok w → ready w q →
    ∃ w', wq_wake_one q code w = Ok (if bool_decide (waiters w q = []) then 0 else 1, w') ∧ wok w' ∧
      waiters w' q = tail (waiters w q) ∧ ∀ q', ready w q' → ready w' q';
  wql_all q code w : wok w → ready w q →
    ∃ w', wq_wake_all q code w = Ok (Z.of_nat (length (waiters w q)), w') ∧ wok w' ∧
      waiters w' q = [] ∧ ∀ q', ready w q' → ready w' q';
  wql_retire q w : wok w → ready w q → waiters w q = [] →
    ∃ w', wq_retire q w = Ok w' ∧ wok w' ∧ ∀ q', q' ≠ q → ready w q' → ready w' q';
}.

(** * Structures *)

Section heap.
(** The handles that are being closed. *)
Context (C : gset nat).
Implicit Types (h : gmap nat port_obj) (l : list nat).

Definition reads h (p : nat) (rp : read_port) : Prop := h !! p = Some (ORead rp).
Definition writes h (w : nat) (wp : write_port) : Prop := h !! w = Some (OWrite wp).
Definition groups h (g : nat) (pg : port_group_) : Prop := h !! g = Some (OGroup pg).

(** A placeholder has nothing; a port has a buffer or readers. *)
Definition wp_shape (wp : write_port) : Prop :=
  (w_magic wp = PORTHOLD_MAGIC ∧ w_buf wp = None ∧ w_rps wp = []) ∨
  ((w_magic wp = WRITEPORT_MAGIC_W ∨ w_magic wp = WRITEPORT_MAGIC_X) ∧
   ((∃ b q, w_buf wp = Some b ∧ holds b q ∧ w_rps wp = []) ∨ (w_buf wp = None ∧ w_rps wp ≠ []))).

Record wp_ok h (w : nat) (wp : write_port) : Prop := {
  wo_shape : wp_shape wp;
  wo_nodup : NoDup (w_rps wp);
  wo_rps : ∀ p, p ∈ w_rps wp → p ∉ C ∧ ∃ rp, reads h p rp ∧ r_wport rp = Some w;
  wo_unicast : has_flag (w_mode wp) PORT_MODE_UNICAST = true → (length (w_rps wp) ≤ 1)%nat;
}.

Record rp_ok h (p : nat) (rp : read_port) : Prop := {
  ro_magic : r_magic rp = READPORT_MAGIC;
  ro_buf : ∃ b q, r_buf rp = Some b ∧ holds b q;
  ro_wport : ∀ w, r_wport rp = Some w → ∃ wp, writes h w wp ∧ p ∈ w_rps wp;
  ro_gport : ∀ g, r_gport rp = Some g → ∃ pg, groups h g pg ∧ p ∈ g_rps pg;
}.

Record pg_ok h (g : nat) (pg : port_group_) : Prop := {
  go_magic : g_magic pg = PORTGROUP_MAGIC;
  go_nodup : NoDup (g_rps pg);
  go_rps : ∀ p, p ∈ g_rps pg → p ∉ C ∧ ∃ rp, reads h p rp ∧ r_gport rp = Some g;
  go_size : Z.of_nat (length (g_rps pg)) ≤ MAX_PORT_GROUP_COUNT;
}.

Record hinv h l : Prop := {
  hv_nodup : NoDup l;
  hv_list : ∀ w, w ∈ l ↔ ∃ wp, writes h w wp;
  hv_name : ∀ w w' wp wp', writes h w wp → writes h w' wp' → w_name wp = w_name wp' → w = w';
  hv_write : ∀ w wp, writes h w wp → wp_ok h w wp;
  hv_read : ∀ p rp, reads h p rp → p ∉ C → rp_ok h p rp;
  hv_group : ∀ g pg, groups h g pg → pg_ok h g pg;
}.
End heap.

Section lookups.
Context (h : gmap nat port_obj).

Lemma reads_insert x o p rp : reads (<[x := o]> h) p rp → (x = p ∧ o = ORead rp) ∨ (x ≠ p ∧ reads h p rp).
Proof. apply lookup_insert_Some. Qed.
Lemma writes_insert x o w wp : writes (<[x := o]> h) w wp → (x = w ∧ o = OWrite wp) ∨ (x ≠ w ∧ writes h w wp).
Proof. apply lookup_insert_Some. Qed.
Lemma groups_insert x o g pg : groups (<[x := o]> h) g pg → (x = g ∧ o = OGroup pg) ∨ (x ≠ g ∧ groups h g pg).
Proof. apply lookup_insert_Some. Qed.
Lemma reads_delete x p rp : reads (delete x h) p rp → x ≠ p ∧ reads h p rp.
Proof. apply lookup_delete_Some. Qed.
Lemma writes_delete x w wp : writes (delete x h) w wp → x ≠ w ∧ writes h w wp.
Proof. apply lookup_delete_Some. Qed.
Lemma groups_delete x g pg : groups (delete x h) g pg → x ≠ g ∧ groups h g pg.
Proof. apply lookup_delete_Some. Qed.
End lookups.

(** Splits a lookup in an updated heap by the address. *)
Ltac heap_case H :=
  repeat first
  [ apply reads_insert in H; destruct H as [[? ?]|[? H]]; [simplify_eq|]
  | apply writes_insert in H; destruct H as [[? ?]|[? H]]; [simplify_eq|]
  | apply groups_insert in H; destruct H as [[? ?]|[? H]]; [simplify_eq|]
  | apply reads_delete in H; destruct H as [? H]
  | apply writes_delete in H; destruct H as [? H]
  | apply groups_delete in H; destruct H as [? H] ].

(** ** Buffers change, links do not *)

(** The same structure up to the contents of its buffer. *)
Definition same_links (o o' : port_obj) : Prop :=
  match o, o' with
  | OWrite wp, OWrite wp' =>
      wp' = set_wbuf (w_buf wp') wp ∧ (is_Some (w_buf wp) ↔ is_Some (w_buf wp')) ∧ (wp_shape wp → wp_shape wp')
  | ORead rp, ORead rp' => rp' = set_rbuf (r_buf rp') rp ∧ ((∃ b q, r_buf rp = Some b ∧ holds b q) → ∃ b q, r_buf rp' = Some b ∧ holds b q)
  | OGroup pg, OGroup pg' => pg' = pg
  | _, _ => False
  end.

Lemma same_links_refl o : same_links o o.
Proof. destruct o as [wp|rp|pg]; simpl; [destruct wp|destruct rp|]; done. Qed.

Lemma hinv_buffers C h h' l :
  hinv C h l → (∀ p o, h !! p = Some o → ∃ o', h' !! p = Some o' ∧ same_links o o') → (∀ p, is_Some (h' !! p) → is_Some (h !! p)) → hinv C h' l.
Proof.
  intros [H1 H2 H3 H4 H5 H6] Hf Hb.
  assert (∀ p o', h' !! p = Some o' → ∃ o, h !! p = Some o ∧ same_links o o') as Hback.
  { intros p o' Hp. destruct (Hb p) as [o Ho]; [eauto|]. destruct (Hf p o Ho) as (o2 & Ho2 & Hs). exists o. split; [done|]. congruence. }
  assert (∀ w wp', writes h' w wp' → ∃ wp, writes h w wp ∧ same_links (OWrite wp) (OWrite wp')) as HW.
  { intros w wp' Hw. destruct (Hback _ _ Hw) as ([wp| |] & ? & ?); try done. by exists wp. }
  assert (∀ p rp', reads h' p rp' → ∃ rp, reads h p rp ∧ same_links (ORead rp) (ORead rp')) as HR.
  { intros p rp' Hw. destruct (Hback _ _ Hw) as ([|rp|] & ? & ?); try done. by exists rp. }
  assert (∀ g pg, groups h' g pg → groups h g pg) as HG.
  { intros g pg Hw. destruct (Hback _ _ Hw) as ([| |pg'] & ? & Hs); try done. simpl in Hs. by subst pg'. }
  assert (∀ w wp, writes h w wp → ∃ wp', writes h' w wp' ∧ same_links (OWrite wp) (OWrite wp')) as HW'.
  { intros w wp Hw. destruct (Hf _ _ Hw) as ([wp'| |] & ? & ?); try done. by exists wp'. }
  assert (∀ p rp, reads h p rp → ∃ rp', reads h' p rp' ∧ same_links (ORead rp) (ORead rp')) as HR'.
  { intros p rp Hw. destruct (Hf _ _ Hw) as ([|rp'|] & ? & ?); try done. by exists rp'. }
  assert (∀ g pg, groups h g pg → groups h' g pg) as HG'.
  { intros g pg Hw. destruct (Hf _ _ Hw) as ([| |pg'] & ? & Hs); try done. simpl in Hs. by subst pg'. }
  split; [done|..].
  - intros w. rewrite H2. split; intros (wp & Hw); [apply HW' in Hw as (? & ? & _)|apply HW in Hw as (? & ? & _)]; eauto.
  - intros w w' a b (a' & Ha & (-> & _))%HW (b' & Hb' & (-> & _))%HW. simpl. by apply H3.
  - intros w wp' (wp & Hw & (E & _ & Hs))%HW. destruct (H4 _ _ Hw) as [K1 K2 K3 K4]. rewrite E. split; simpl; try done.
    + rewrite <- E. auto.
    + intros p Hp. destruct (K3 p Hp) as (HC & rp & Hr & Er). split; [done|]. destruct (HR' _ _ Hr) as (rp' & Hr' & (E' & _)). exists rp'. split; [done|]. by rewrite E'.
  - intros p rp' (rp & Hr & (E & Hbuf))%HR HC. destruct (H5 _ _ Hr HC) as [K1 K2 K3 K4]. rewrite E. split; simpl; try done.
    + auto.
    + intros w Ew. destruct (K3 w Ew) as (wp & Hw & Hin). destruct (HW' _ _ Hw) as (wp' & Hw' & (E' & _)). exists wp'. split; [done|]. by rewrite E'.
    + intros g Eg. destruct (K4 g Eg) as (pg & Hg & Hin). eauto.
  - intros g pg Hg%HG. destruct (H6 _ _ Hg) as [K1 K2 K3 K4]. split; try done. intros p Hp. destruct (K3 p Hp) as (HC & rp & Hr & Er).
    split; [done|]. destruct (HR' _ _ Hr) as (rp' & Hr' & (E' & _)). exists rp'. split; [done|]. by rewrite E'.
Qed.

(** One structure gets another buffer. *)
Lemma hinv_buffer C h l p o o' : hinv C h l → h !! p = Some o → same_links o o' → hinv C (<[p := o']> h) l.
Proof.
  intros Hh Hp Hs. apply (hinv_buffers C h); [done| |].
  - intros q x Hq. destruct (decide (q = p)) as [->|]; [rewrite lookup_insert_eq; assert (x = o) as -> by congruence; eauto|].
    rewrite lookup_insert_ne by done. exists x. split; [done|apply same_links_refl].
  - intros q. destruct (decide (q = p)) as [->|]; [eauto|]. by rewrite lookup_insert_ne.
Qed.

(** ** Write ports come and go *)

(** A write port keeps its readers, mode and name. *)
Lemma hinv_wp C h l w wp wp' :
  hinv C h l → writes h w wp → w_rps wp' = w_rps wp → w_mode wp' = w_mode wp → w_name wp' = w_name wp → wp_shape wp' →
  hinv C (<[w := OWrite wp']> h) l.
Proof.
  intros [H1 H2 H3 H4 H5 H6] Hw Er Em En Hs.
  assert (∀ p rp, reads h p rp → reads (<[w := OWrite wp']> h) p rp) as HR.
  { unfold reads, writes in *. intros p rp Hp. rewrite lookup_insert_ne; [done|congruence]. }
  assert (∀ w' x, writes (<[w := OWrite wp']> h) w' x → ∃ y, writes h w' y ∧ w_name y = w_name x ∧ wp_shape x ∧ w_rps y = w_rps x ∧ w_mode y = w_mode x) as HW.
  { intros w' x Hx. heap_case Hx; [exists wp; by rewrite <- Er, <- Em, <- En|]. exists x. split_and!; try done. apply (wo_shape _ _ _ _ (H4 _ _ Hx)). }
  assert (∀ w' y, writes h w' y → ∃ x, writes (<[w := OWrite wp']> h) w' x ∧ w_rps x = w_rps y) as HW'.
  { unfold writes in *. intros w' y Hy. destruct (decide (w' = w)) as [->|]; [rewrite lookup_insert_eq|rewrite lookup_insert_ne by done; eauto].
    assert (y = wp) as -> by congruence. eauto. }
  split; [done|..].
  - intros q. rewrite H2. split; intros (x & Hx); [apply HW' in Hx as (? & ? & _)|apply HW in Hx as (? & ? & _)]; eauto.
  - intros q q' x x' (y & Hy & E & _)%HW (y' & Hy' & E' & _)%HW Ex. apply (H3 q q' y y'); congruence.
  - intros q x (y & Hy & E & Hsx & Eq & Eqm)%HW. destruct (H4 _ _ Hy) as [K1 K2 K3 K4]. rewrite Eq, Eqm in *. split; try done.
    intros p Hp. destruct (K3 p Hp) as (? & rp & ? & ?). eauto.
  - intros p rp Hp HC. assert (reads h p rp) as Hp' by (by heap_case Hp). destruct (H5 _ _ Hp' HC) as [K1 K2 K3 K4]. split; try done.
    + intros q Eq. destruct (K3 q Eq) as (y & Hy & Hin). apply HW' in Hy as (x & Hx & Ex). exists x. by rewrite Ex.
    + intros g Eg. destruct (K4 g Eg) as (pg & Hg & Hin). exists pg. split; [|done]. unfold groups, writes in *. rewrite lookup_insert_ne; [done|congruence].
  - intros g pg Hg. assert (groups h g pg) as Hg' by (by heap_case Hg). destruct (H6 _ _ Hg') as [K1 K2 K3 K4]. split; try done.
    intros p Hp. destruct (K3 p Hp) as (? & rp & ? & ?). eauto.
Qed.

(** A fresh structure does not change what is there. *)
Lemma fresh_keeps h x o :
  h !! x = None →
  (∀ p rp, reads h p rp → reads (<[x := o]> h) p rp) ∧ (∀ p rp, writes h p rp → writes (<[x := o]> h) p rp) ∧
  (∀ p rp, groups h p rp → groups (<[x := o]> h) p rp).
Proof. unfold reads, writes, groups. intros Hx. split_and!; intros p rp Hp; (rewrite lookup_insert_ne; [done|congruence]). Qed.

Lemma wp_ok_mono C h h' w wp : (∀ p rp, reads h p rp → reads h' p rp) → wp_ok C h w wp → wp_ok C h' w wp.
Proof. intros HR [K1 K2 K3 K4]. split; try done. intros p Hp. destruct (K3 p Hp) as (? & rp & ? & ?). eauto. Qed.

Lemma pg_ok_mono C h h' g pg : (∀ p rp, reads h p rp → reads h' p rp) → pg_ok C h g pg → pg_ok C h' g pg.
Proof. intros HR [K1 K2 K3 K4]. split; try done. intros p Hp. destruct (K3 p Hp) as (? & rp & ? & ?). eauto. Qed.

Lemma rp_ok_mono h h' p rp :
  (∀ w wp, writes h w wp → writes h' w wp) → (∀ g pg, groups h g pg → groups h' g pg) → rp_ok h p rp → rp_ok h' p rp.
Proof.
  intros HW HG [K1 K2 K3 K4]. split; try done.
  - intros w Ew. destruct (K3 w Ew) as (wp & ? & ?). eauto.
  - intros g Eg. destruct (K4 g Eg) as (pg & ? & ?). eauto.
Qed.

Lemma hinv_new_wp C h l x wp :
  hinv C h l → h !! x = None → wp_shape wp → w_rps wp = [] → (∀ w wp', writes h w wp' → w_name wp' ≠ w_name wp) →
  hinv C (<[x := OWrite wp]> h) (l ++ [x]).
Proof.
  intros [H1 H2 H3 H4 H5 H6] Hx Hs Hr Hn. destruct (fresh_keeps h x (OWrite wp) Hx) as (HR & HW & HG). split.
  - apply NoDup_app. split_and!; [done| |apply NoDup_singleton]. intros w [wp' Hw]%H2 ->%list_elem_of_singleton. unfold writes in Hw. congruence.
  - intros w. rewrite elem_of_app, list_elem_of_singleton, H2. split.
    + intros [(wp' & Hw)| ->]; [eauto|]. exists wp. apply lookup_insert_eq.
    + intros (wp' & Hw). heap_case Hw; eauto.
  - intros w w' a b Ha Hb E. heap_case Ha; heap_case Hb; try done; [by destruct (Hn w' b)|by destruct (Hn w a)|by apply (H3 w w' a b)].
  - intros w a Ha. heap_case Ha; [|eapply wp_ok_mono; eauto]. split; rewrite ?Hr; try done; [constructor|by intros p ?%elem_of_nil|simpl; lia].
  - intros p rp Hp HC. heap_case Hp. eapply rp_ok_mono; eauto.
  - intros g pg Hg. heap_case Hg. eapply pg_ok_mono; eauto.
Qed.

(** A write port without readers goes. *)
Lemma hinv_drop_wp C h l x wp : hinv C h l → writes h x wp → w_rps wp = [] → hinv C (delete x h) (filter (.≠ x) l).
Proof.
  intros [H1 H2 H3 H4 H5 H6] Hx Hr.
  assert (∀ p rp, reads h p rp → reads (delete x h) p rp) as HR by (unfold reads, writes in *; intros; rewrite lookup_delete_ne; [done|congruence]).
  assert (∀ g pg, groups h g pg → groups (delete x h) g pg) as HG by (unfold groups, writes in *; intros; rewrite lookup_delete_ne; [done|congruence]).
  split.
  - by apply NoDup_filter.
  - intros w. rewrite list_elem_of_filter, H2. split.
    + intros [Hne (a & Ha)]. exists a. unfold writes. by rewrite lookup_delete_ne.
    + intros (a & Ha). heap_case Ha. eauto.
  - intros w w' a b Ha Hb E. heap_case Ha; heap_case Hb. by apply (H3 w w' a b).
  - intros w a Ha. heap_case Ha. eapply wp_ok_mono; eauto.
  - intros p rp Hp HC. heap_case Hp. destruct (H5 _ _ Hp HC) as [K1 K2 K3 K4]. split; try done.
    + intros w Ew. destruct (K3 w Ew) as (a & Ha & Hin). exists a. split; [|done]. unfold writes in *. rewrite lookup_delete_ne; [done|].
      intros <-. assert (a = wp) as -> by congruence. rewrite Hr in Hin. by apply elem_of_nil in Hin.
    + intros g Eg. destruct (K4 g Eg) as (pg & Hg & Hin). eauto.
  - intros g pg Hg. heap_case Hg. eapply pg_ok_mono; eauto.
Qed.

(** ** Readers come and go *)

Lemma hinv_open C h l w wp p rp :
  hinv C h l → writes h w wp → h !! p = None → p ∉ C →
  (w_magic wp = WRITEPORT_MAGIC_W ∨ w_magic wp = WRITEPORT_MAGIC_X) →
  (has_flag (w_mode wp) PORT_MODE_UNICAST = true → w_rps wp = []) →
  r_magic rp = READPORT_MAGIC → (∃ b q, r_buf rp = Some b ∧ holds b q) → r_wport rp = Some w → r_gport rp = None →
  hinv C (<[p := ORead rp]> (<[w := OWrite (set_wbuf None (set_wrps (w_rps wp ++ [p]) wp))]> h)) l.
Proof.
  intros [H1 H2 H3 H4 H5 H6] Hw Hp HpC Hm Hu Em Hb Ew Eg. remember (set_wbuf None (set_wrps (w_rps wp ++ [p]) wp)) as wp' eqn:Ewp.
  assert (w_buf wp' = None ∧ w_rps wp' = w_rps wp ++ [p] ∧ w_mode wp' = w_mode wp ∧ w_name wp' = w_name wp ∧ w_magic wp' = w_magic wp)
    as (F1 & F2 & F3 & F4 & F5) by (by rewrite Ewp). clear Ewp.
  assert (p ≠ w) as Hpw by (unfold writes in Hw; congruence).
  assert (∀ q x, reads h q x → reads (<[p := ORead rp]> (<[w := OWrite wp']> h)) q x) as HR.
  { unfold reads, writes in *. intros q x Hq. rewrite !lookup_insert_ne; [done|congruence..]. }
  assert (∀ q x, groups h q x → groups (<[p := ORead rp]> (<[w := OWrite wp']> h)) q x) as HG.
  { unfold groups, writes in *. intros q x Hq. rewrite !lookup_insert_ne; [done|congruence..]. }
  assert (writes (<[p := ORead rp]> (<[w := OWrite wp']> h)) w wp') as Hw'.
  { unfold writes. rewrite lookup_insert_ne, lookup_insert_eq by done. done. }
  assert (reads (<[p := ORead rp]> (<[w := OWrite wp']> h)) p rp) as Hp' by apply lookup_insert_eq.
  assert (∀ q x, writes h q x → ∃ y, writes (<[p := ORead rp]> (<[w := OWrite wp']> h)) q y ∧ ∀ z, z ∈ w_rps x → z ∈ w_rps y) as HW.
  { intros q x Hq. destruct (decide (q = w)) as [->|Hne].
    - exists wp'. split; [done|]. unfold writes in *. assert (x = wp) as -> by congruence. rewrite F2. set_solver.
    - exists x. split; [|done]. unfold writes in *. rewrite !lookup_insert_ne; [done|done|congruence]. }
  split; [done|..].
  - intros q. rewrite H2. split.
    + intros (x & Hx). destruct (HW _ _ Hx) as (y & Hy & _). eauto.
    + intros (x & Hx). heap_case Hx; eauto.
  - intros q q' x x' Hx Hx' E. heap_case Hx; heap_case Hx'; rewrite ?F4 in *; first [done|by eapply H3].
  - intros q x Hx. heap_case Hx; [|eapply wp_ok_mono; eauto]. destruct (H4 _ _ Hw) as [K1 K2 K3 K4]. split; rewrite ?F2, ?F3.
    + right. split; [by rewrite F5|]. right. rewrite F1, F2. split; [done|]. by destruct (w_rps wp).
    + apply NoDup_app. split_and!; [done| |apply NoDup_singleton]. intros z Hz ->%list_elem_of_singleton.
      destruct (K3 p Hz) as (_ & y & Hy & _). unfold reads in Hy. congruence.
    + intros z [Hz| ->%list_elem_of_singleton]%elem_of_app; [|by split; [|eauto]]. destruct (K3 z Hz) as (? & y & ? & ?). eauto.
    + intros Hun. rewrite Hu by done. simpl. lia.
  - intros q x Hx HC. heap_case Hx.
    { split; try done; [|congruence]. intros w0 Ew0. assert (w0 = w) as -> by congruence. exists wp'. split; [done|]. rewrite F2. set_solver. }
    destruct (H5 _ _ Hx HC) as [K1 K2 K3 K4]. split; try done.
    + intros w' Ew'. destruct (K3 w' Ew') as (y & Hy & Hin). destruct (HW _ _ Hy) as (z & Hz & Hin'). eauto.
    + intros g Eg'. destruct (K4 g Eg') as (pg & ? & ?). eauto.
  - intros g pg Hg. heap_case Hg. eapply pg_ok_mono; eauto.
Qed.

(** A read port that is being closed: its write port and its group forget it.  The
    structures are as before up to their lists. *)
Definition unlinked (p q : nat) (o o' : port_obj) : Prop :=
  match o, o' with
  | OWrite wp, OWrite wp' =>
      w_rps wp' = filter (.≠ p) (w_rps wp) ∧ w_mode wp' = w_mode wp ∧ w_name wp' = w_name wp ∧ wp_shape wp'
  | ORead rp, ORead rp' => q ≠ p → rp' = rp
  | OGroup pg, OGroup pg' => pg' = mk_pg (g_magic pg) (filter (.≠ p) (g_rps pg))
  | _, _ => False
  end.

Lemma filter_length_le {B} (Q : B → Prop) `{∀ x, Decision (Q x)} (l : list B) : (length (filter Q l) ≤ length l)%nat.
Proof. apply length_filter. Qed.

Lemma hinv_unlink C h h' l p :
  hinv C h l → (∀ q o, h !! q = Some o → ∃ o', h' !! q = Some o' ∧ unlinked p q o o') → (∀ q, is_Some (h' !! q) → is_Some (h !! q)) →
  hinv (C ∪ {[p]}) h' l.
Proof.
  intros [H1 H2 H3 H4 H5 H6] Hf Hb.
  assert (∀ q o', h' !! q = Some o' → ∃ o, h !! q = Some o ∧ unlinked p q o o') as Hback.
  { intros q o' Hq. destruct (Hb q) as [o Ho]; [eauto|]. destruct (Hf q o Ho) as (o2 & Ho2 & Hs). exists o. split; [done|]. congruence. }
  assert (∀ w wp', writes h' w wp' → ∃ wp, writes h w wp ∧ unlinked p w (OWrite wp) (OWrite wp')) as HW.
  { intros w wp' Hw. destruct (Hback _ _ Hw) as ([wp| |] & ? & ?); try done. by exists wp. }
  assert (∀ g pg', groups h' g pg' → ∃ pg, groups h g pg ∧ pg' = mk_pg (g_magic pg) (filter (.≠ p) (g_rps pg))) as HG.
  { intros g pg' Hw. destruct (Hback _ _ Hw) as ([| |pg] & ? & Hs); try done. by exists pg. }
  assert (∀ q rp, reads h q rp → q ≠ p → reads h' q rp) as HR'.
  { intros q rp Hw Hne. destruct (Hf _ _ Hw) as ([|rp'|] & ? & Hs); try done. simpl in Hs. by rewrite <- (Hs Hne). }
  split; [done|..].
  - intros w. rewrite H2. split; intros (wp & Hw); [|apply HW in Hw as (? & ? & _); eauto].
    destruct (Hf _ _ Hw) as ([wp'| |] & ? & ?); try done. by exists wp'.
  - intros w w' a b (a' & Ha & (_ & _ & Ea & _))%HW (b' & Hb' & (_ & _ & Eb & _))%HW E. apply (H3 w w' a' b'); congruence.
  - intros w wp' (wp & Hw & (E1 & E2 & E3 & Hs))%HW. destruct (H4 _ _ Hw) as [K1 K2 K3 K4]. split; rewrite ?E1, ?E2; try done.
    + by apply NoDup_filter.
    + intros q [Hq Hin]%list_elem_of_filter. destruct (K3 q Hin) as (HC & rp & Hr & Er). split; [set_solver|]. eauto.
    + intros Hu. specialize (K4 Hu). pose proof (filter_length_le (.≠ p) (w_rps wp)). lia.
  - intros q rp' Hq HC. assert (q ≠ p ∧ q ∉ C) as [Hqp HqC] by set_solver.
    destruct (Hback _ _ Hq) as ([|rp|] & Hr & Hs); try done. simpl in Hs. rewrite (Hs Hqp). destruct (H5 _ _ Hr HqC) as [K1 K2 K3 K4]. split; try done.
    + intros w Ew. destruct (K3 w Ew) as (wp & Hw & Hin). destruct (Hf _ _ Hw) as ([wp'| |] & Hw' & Hs'); try done. exists wp'. split; [done|].
      destruct Hs' as (-> & _). by apply list_elem_of_filter.
    + intros g Eg. destruct (K4 g Eg) as (pg & Hg & Hin). destruct (Hf _ _ Hg) as ([| |pg'] & Hg' & Hs'); try done. exists pg'. split; [done|].
      rewrite Hs'. by apply list_elem_of_filter.
  - intros g pg' (pg & Hg & ->)%HG. destruct (H6 _ _ Hg) as [K1 K2 K3 K4]. split; simpl; try done.
    + by apply NoDup_filter.
    + intros q [Hq Hin]%list_elem_of_filter. destruct (K3 q Hin) as (HC & rp & Hr & Er). split; [set_solver|]. eauto.
    + pose proof (filter_length_le (.≠ p) (g_rps pg)). lia.
Qed.

Lemma hinv_close_end C h l p rp : hinv C h l → reads h p rp → p ∈ C → hinv (C ∖ {[p]}) (delete p h) l.
Proof.
  intros [H1 H2 H3 H4 H5 H6] Hp HpC.
  assert (∀ q x, reads h q x → q ∉ C → reads (delete p h) q x) as HR by (unfold reads; intros q x Hq Hn; rewrite lookup_delete_ne; [done|set_solver]).
  assert (∀ q x, writes h q x → writes (delete p h) q x) as HW by (unfold writes, reads in *; intros; rewrite lookup_delete_ne; [done|congruence]).
  assert (∀ q x, groups h q x → groups (delete p h) q x) as HG by (unfold groups, reads in *; intros; rewrite lookup_delete_ne; [done|congruence]).
  split; [done|..].
  - intros w. rewrite H2. split; intros (x & Hx); [eauto|heap_case Hx; eauto].
  - intros w w' a b Ha Hb E. heap_case Ha. heap_case Hb. by apply (H3 w w' a b).
  - intros w x Hx. heap_case Hx. destruct (H4 _ _ Hx) as [K1 K2 K3 K4]. split; try done. intros q Hq. destruct (K3 q Hq) as (? & y & ? & ?). split; [set_solver|]. eauto.
  - intros q x Hq HqC. heap_case Hq. eapply rp_ok_mono; [done..|]. apply (H5 q x Hq). set_solver.
  - intros g x Hx. heap_case Hx. destruct (H6 _ _ Hx) as [K1 K2 K3 K4]. split; try done. intros q Hq. destruct (K3 q Hq) as (? & y & ? & ?). split; [set_solver|]. eauto.
Qed.

(** A write port goes: its readers are on their own. *)
Lemma hinv_destroy C h h' l w wp :
  hinv C h l → writes h w wp → h' !! w = None →
  (∀ q, q ∈ w_rps wp → ∀ rp, reads h q rp → reads h' q (set_rwport None rp)) →
  (∀ q, q ∉ w_rps wp → q ≠ w → h' !! q = h !! q) → hinv C h' (filter (.≠ w) l).
Proof.
  intros [H1 H2 H3 H4 H5 H6] Hw Hdel Hin Hout. pose proof (H4 _ _ Hw) as [_ _ Hrps _].
  assert (∀ q x, writes h q x → q ≠ w → writes h' q x) as HW.
  { unfold writes. intros q x Hq Hne. rewrite Hout; [done| |done]. intros Hin'. destruct (Hrps q Hin') as (_ & y & Hy & _). unfold reads in Hy. congruence. }
  assert (∀ q x, groups h q x → groups h' q x) as HG.
  { unfold groups. intros q x Hq. rewrite Hout; [done| |unfold writes in Hw; congruence]. intros Hin'. destruct (Hrps q Hin') as (_ & y & Hy & _). unfold reads in Hy. congruence. }
  assert (∀ q x, reads h q x → ∃ y, reads h' q y ∧ r_gport y = r_gport x ∧ (r_wport x ≠ Some w → r_wport y = r_wport x)) as HR.
  { intros q x Hq. destruct (decide (q ∈ w_rps wp)) as [Hi|Hi].
    - eexists. split; [by apply Hin|]. split; [done|]. intros Hne. destruct (Hrps q Hi) as (_ & y & Hy & Ey). unfold reads in *. congruence.
    - exists x. split; [|done]. unfold reads in *. rewrite Hout; [done|done|unfold writes in Hw; congruence]. }
  assert (∀ q, q ∈ w_rps wp → ∃ y, reads h' q y) as Hrd by (intros q Hi; destruct (Hrps q Hi) as (_ & y & Hy & _); eauto).
  assert (∀ q o, h' !! q = Some o → q ≠ w ∧ (q ∉ w_rps wp → h !! q = Some o)) as Hback.
  { intros q o Hq. assert (q ≠ w) as Hqw by congruence. split; [done|]. intros Hi. by rewrite <- Hout. }
  split.
  - by apply NoDup_filter.
  - intros q. rewrite list_elem_of_filter, H2. split.
    + intros [Hne (x & Hx)]. eauto.
    + intros (x & Hx). destruct (Hback _ _ Hx) as [Hne Hold]. split; [done|]. exists x. apply Hold. intros Hi. destruct (Hrd q Hi) as [y Hy]. unfold reads, writes in *. congruence.
  - intros q q' a b Ha Hb E.
    assert (∀ z c, writes h' z c → writes h z c) as Hwb.
    { intros z c Hc. destruct (Hback _ _ Hc) as [_ Hold]. apply Hold. intros Hi. destruct (Hrd z Hi) as [y Hy]. unfold reads, writes in *. congruence. }
    eauto.
  - intros q a Ha. destruct (Hback _ _ Ha) as [Hne Hold].
    assert (writes h q a) as Ha'. { apply Hold. intros Hi. destruct (Hrd q Hi) as [y Hy]. unfold reads, writes in *. congruence. }
    destruct (H4 _ _ Ha') as [K1 K2 K3 K4]. split; try done. intros z Hz. destruct (K3 z Hz) as (HC & y & Hy & Ey). split; [done|].
    destruct (HR _ _ Hy) as (y' & Hy' & _ & Ew). exists y'. split; [done|]. rewrite Ew; [done|congruence].
  - intros q y Hq HC. destruct (Hback _ _ Hq) as [Hne Hold]. destruct (decide (q ∈ w_rps wp)) as [Hi|Hi].
    + destruct (Hrps q Hi) as (_ & x & Hx & Ex). pose proof (Hin q Hi x Hx) as Hr. assert (y = set_rwport None x) as -> by (unfold reads in *; congruence).
      destruct (H5 _ _ Hx HC) as [K1 K2 K3 K4]. split; simpl; try done. intros g Eg. destruct (K4 g Eg) as (pg & ? & ?). eauto.
    + specialize (Hold Hi). destruct (H5 _ _ Hold HC) as [K1 K2 K3 K4]. split; try done.
      * intros z Ez. destruct (K3 z Ez) as (x & Hx & Hin'). exists x. split; [|done]. apply HW; [done|]. intros ->. unfold writes in *. assert (x = wp) as -> by congruence. done.
      * intros g Eg. destruct (K4 g Eg) as (pg & ? & ?). eauto.
  - intros g pg Hg. destruct (Hback _ _ Hg) as [Hne Hold].
    assert (groups h g pg) as Hg'. { apply Hold. intros Hi. destruct (Hrd g Hi) as [y Hy]. unfold reads, groups in *. congruence. }
    destruct (H6 _ _ Hg') as [K1 K2 K3 K4]. split; try done. intros z Hz. destruct (K3 z Hz) as (HC & y & Hy & Ey). split; [done|].
    destruct (HR _ _ Hy) as (y' & Hy' & Eg & _). exists y'. split; [done|]. by rewrite Eg.
Qed.

(** ** Groups *)

Lemma hinv_join C h l p rp g pg :
  hinv C h l → reads h p rp → p ∉ C → r_gport rp = None → groups h g pg → Z.of_nat (length (g_rps pg)) < MAX_PORT_GROUP_COUNT →
  hinv C (<[g := OGroup (mk_pg (g_magic pg) (g_rps pg ++ [p]))]> (<[p := ORead (set_gport (Some g) rp)]> h)) l.
Proof.
  intros [H1 H2 H3 H4 H5 H6] Hp HC Er Hg Hlen. set (h' := <[g := _]> _). assert (p ≠ g) as Hpg by (unfold reads, groups in *; congruence).
  assert (reads h' p (set_gport (Some g) rp)) as Hp' by (unfold reads, h'; by rewrite lookup_insert_ne, lookup_insert_eq).
  assert (groups h' g (mk_pg (g_magic pg) (g_rps pg ++ [p]))) as Hg' by (unfold groups, h'; by rewrite lookup_insert_eq).
  assert (∀ w x, writes h w x → writes h' w x) as HW by (unfold writes, reads, groups, h' in *; intros; rewrite !lookup_insert_ne; [done|congruence..]).
  assert (∀ q x, reads h q x → ∃ y, reads h' q y ∧ r_wport y = r_wport x ∧ (∀ g', r_gport x = Some g' → r_gport y = Some g')) as HR.
  { intros q x Hq. destruct (decide (q = p)) as [->|]; [|exists x; unfold reads, groups, h' in *; rewrite !lookup_insert_ne; [done|congruence..]].
    eexists. split; [done|]. assert (x = rp) as -> by (unfold reads in *; congruence). split; [done|congruence]. }
  assert (∀ q x, groups h q x → ∃ y, groups h' q y ∧ ∀ z, z ∈ g_rps x → z ∈ g_rps y) as HG.
  { intros q x Hq. destruct (decide (q = g)) as [->|]; [|exists x; unfold reads, groups, h' in *; rewrite !lookup_insert_ne; [done|congruence..]].
    eexists. split; [done|]. assert (x = pg) as -> by (unfold groups in *; congruence). set_solver. }
  split; [done|..].
  - intros w. rewrite H2. split; intros (x & Hx); [eauto|]. unfold h' in Hx. heap_case Hx; eauto.
  - intros w w' a b Ha Hb E. unfold h' in Ha, Hb. heap_case Ha. heap_case Hb. eauto.
  - intros w a Ha. unfold h' in Ha. heap_case Ha. destruct (H4 _ _ Ha) as [K1 K2 K3 K4]. split; try done.
    intros q Hq. destruct (K3 q Hq) as (? & x & Hx & Ex). split; [done|]. destruct (HR _ _ Hx) as (y & Hy & Ey & _). exists y. split; congruence.
  - intros q x Hq HqC. unfold h' in Hq. heap_case Hq.
    + destruct (H5 _ _ Hp HC) as [K1 K2 K3 K4]. split; simpl; try done.
      * intros w Ew. destruct (K3 w Ew) as (y & ? & ?). eauto.
      * intros g0 [= <-]. eexists. split; [exact Hg'|]. set_solver.
    + destruct (H5 _ _ Hq HqC) as [K1 K2 K3 K4]. split; try done.
      * intros w Ew. destruct (K3 w Ew) as (y & ? & ?). eauto.
      * intros g0 Eg. destruct (K4 g0 Eg) as (y & Hy & Hin). destruct (HG _ _ Hy) as (z & Hz & Hzin). eauto.
  - intros g0 x Hx. unfold h' in Hx. heap_case Hx.
    + destruct (H6 _ _ Hg) as [K1 K2 K3 K4]. split; simpl; try done.
      * apply NoDup_app. split_and!; [done| |apply NoDup_singleton]. intros z Hz ->%list_elem_of_singleton. destruct (K3 p Hz) as (_ & y & Hy & Ey).
        unfold reads in *. congruence.
      * intros z [Hz| ->%list_elem_of_singleton]%elem_of_app; [|by split; [|eauto]]. destruct (K3 z Hz) as (? & y & Hy & Ey).
        destruct (HR _ _ Hy) as (y' & Hy' & _ & Ey'). eauto.
      * rewrite length_app. simpl. lia.
    + destruct (H6 _ _ Hx) as [K1 K2 K3 K4]. split; try done. intros z Hz. destruct (K3 z Hz) as (? & y & Hy & Ey).
      destruct (HR _ _ Hy) as (y' & Hy' & _ & Ey'). eauto.
Qed.

(** Some members of a group leave it: they are no longer in its list, or the group
    is gone. *)
Lemma hinv_leave C h h' l g pg (leave : nat → Prop) :
  hinv C h l → groups h g pg →
  (∀ q, q ≠ g → (q ∈ g_rps pg ∧ leave q ∧ ∀ rp, reads h q rp → reads h' q (set_gport None rp)) ∨ (¬ (q ∈ g_rps pg ∧ leave q) ∧ h' !! q = h !! q)) →
  (h' !! g = None ∧ (∀ q, q ∈ g_rps pg → leave q) ∨
   ∃ l', h' !! g = Some (OGroup (mk_pg (g_magic pg) l')) ∧ NoDup l' ∧ (length l' ≤ length (g_rps pg))%nat ∧
     ∀ q, q ∈ l' ↔ q ∈ g_rps pg ∧ ¬ leave q) →
  hinv C h' l.
Proof.
  intros [H1 H2 H3 H4 H5 H6] Hg Hq Hgrp. destruct (H6 _ _ Hg) as [G1 G2 G3 G4].
  assert (∀ w x, writes h w x ↔ writes h' w x) as HW.
  { intros w x. destruct (decide (w = g)) as [->|Hne].
    - unfold writes, groups in *. destruct Hgrp as [[E _]|(l' & E & _)]; rewrite E, Hg; done.
    - destruct (Hq w Hne) as [(Hin & _ & Hr)|[_ E]]; [|unfold writes; by rewrite E]. destruct (G3 w Hin) as (_ & y & Hy & _). specialize (Hr y Hy).
      unfold writes, reads in *. split; congruence. }
  assert (∀ q x, reads h q x → ∃ y, reads h' q y ∧ r_wport y = r_wport x ∧ (∀ g', g' ≠ g → r_gport x = Some g' → r_gport y = Some g') ∧
    (q ∈ g_rps pg → ¬ leave q → y = x)) as HR.
  { intros q x Hx. destruct (Hq q) as [(Hin & Hl & Hr)|[_ E]]; [unfold reads, groups in *; congruence| |].
    - eexists. split; [by apply Hr|]. split; [done|]. split; [|done]. intros g' Hne Eg. destruct (G3 q Hin) as (_ & y & Hy & Ey). unfold reads in *. congruence.
    - exists x. split; [unfold reads in *; by rewrite E|done]. }
  assert (∀ q y, reads h' q y → ∃ x, reads h q x ∧ ((q ∈ g_rps pg ∧ leave q ∧ y = set_gport None x) ∨ (¬ (q ∈ g_rps pg ∧ leave q) ∧ y = x))) as HRb.
  { intros q y Hy. assert (q ≠ g) as Hne.
    { intros ->. unfold reads in Hy. destruct Hgrp as [[E _]|(l' & E & _)]; congruence. }
    destruct (Hq q Hne) as [(Hin & Hl & Hr)|[Hn E]].
    - destruct (G3 q Hin) as (_ & x & Hx & _). exists x. split; [done|]. left. split_and!; [done..|]. specialize (Hr x Hx). unfold reads in *. congruence.
    - exists y. split; [unfold reads in *; by rewrite <- E|]. by right. }
  split; [done|..].
  - intros w. rewrite H2. by setoid_rewrite HW.
  - intros w w' a b Ha%HW Hb%HW E. eauto.
  - intros w a Ha%HW. destruct (H4 _ _ Ha) as [K1 K2 K3 K4]. split; try done. intros q Hin. destruct (K3 q Hin) as (? & x & Hx & Ex).
    split; [done|]. destruct (HR _ _ Hx) as (y & Hy & Ey & _). exists y. split; congruence.
  - intros q y (x & Hx & Hc)%HRb HC. destruct (H5 _ _ Hx HC) as [K1 K2 K3 K4].
    assert (∀ w, r_wport x = Some w → ∃ wp, writes h' w wp ∧ q ∈ w_rps wp) as Kw.
    { intros w Ew. destruct (K3 w Ew) as (a & Ha%HW & ?). eauto. }
    destruct Hc as [(Hin & Hl & ->)|[Hn ->]]; [by split|]. split; try done. intros g' Eg. destruct (K4 g' Eg) as (x' & Hx' & Hin').
    destruct (decide (g' = g)) as [->|Hne].
    + assert (x' = pg) as -> by (unfold groups in *; congruence). destruct Hgrp as [[_ Hall]|(l' & E & _ & _ & Hl')].
      * destruct Hn. auto.
      * eexists. split; [exact E|]. simpl. apply Hl'. split; [done|]. intros Hl. by apply Hn.
    + exists x'. split; [|done]. destruct (Hq g' Hne) as [(Hin2 & _ & Hr)|[_ E]]; [|unfold groups in *; by rewrite E].
      destruct (G3 g' Hin2) as (_ & z & Hz & _). unfold reads, groups in *. congruence.
  - intros g' x Hx. destruct (decide (g' = g)) as [->|Hne].
    + destruct Hgrp as [[E _]|(l' & E & Hn & Hlen & Hl')]; [unfold groups in Hx; congruence|]. assert (x = mk_pg (g_magic pg) l') as -> by (unfold groups in Hx; congruence).
      split; simpl; [done|done| |lia]. intros q Hq'. apply Hl' in Hq' as [Hin Hnl]. destruct (G3 q Hin) as (HC & y & Hy & Ey). split; [done|].
      destruct (HR _ _ Hy) as (z & Hz & _ & _ & Es). rewrite (Es Hin Hnl) in Hz. eauto.
    + assert (groups h g' x) as Hx'. { destruct (Hq g' Hne) as [(Hin2 & _ & Hr)|[_ E]]; [|unfold groups in *; by rewrite <- E].
        destruct (G3 g' Hin2) as (_ & z & Hz & _). specialize (Hr z Hz). unfold reads, groups in *. congruence. }
      destruct (H6 _ _ Hx') as [K1 K2 K3 K4]. split; try done. intros q Hin. destruct (K3 q Hin) as (HC & y & Hy & Ey). split; [done|].
      destruct (HR _ _ Hy) as (z & Hz & _ & Eg & _). exists z. split; [done|]. by apply Eg.
Qed.

Lemma hinv_new_group C h l g : hinv C h l → h !! g = None → hinv C (<[g := OGroup (mk_pg PORTGROUP_MAGIC [])]> h) l.
Proof.
  intros [H1 H2 H3 H4 H5 H6] Hg. destruct (fresh_keeps h g (OGroup (mk_pg PORTGROUP_MAGIC [])) Hg) as (HR & HW & HG). split; [done|..].
  - intros w. rewrite H2. split; intros (x & Hx); [eauto|]. heap_case Hx. eauto.
  - intros w w' a b Ha Hb E. heap_case Ha. heap_case Hb. eauto.
  - intros w a Ha. heap_case Ha. eapply wp_ok_mono; eauto.
  - intros p rp Hp HC. heap_case Hp. eapply rp_ok_mono; eauto.
  - intros g' pg Hg'. heap_case Hg'; [|eapply pg_ok_mono; eauto]. split; simpl; try done; [constructor|by intros p ?%elem_of_nil].
Qed.
