(* ===== verification/PortSafe.v ===== *)
(** Every step on ports keeps the invariant, and what writing and reading do.

    [pwp] is the weakest precondition of a step.  The calls are safe on live
    handles: they return without a fault and keep [pinv].  A write appends the
    packets to the queue of each reader that has room for all of them; a read takes
    the oldest packet of the port, or of the first port of the group that has one. *)
From stdpp Require Import prelude gmap strings.
From S2P Require Import Prelude Pow2 Port PortInv.

#[local] Open Scope Z_scope.

Section safe.
Context {W : Type} `{WQ : WaitQueues W} (wok : W → Prop) (ready : W → nat → Prop) (waiters : W → nat → list nat).
Context {LAWS : WaitQueueLaws W wok ready waiters}.
Implicit Types (s : ports W) (C : gset nat).

Definition with_wqs (w : W) s : ports W := mk_ports (heap s) (write_port_list s) w.
Definition with_heap (h : gmap nat port_obj) s : ports W := mk_ports h (write_port_list s) (wqs s).
Definition with_list (l : list nat) s : ports W := mk_ports (heap s) l (wqs s).

(** Read ports and groups have a wait queue. *)
Definition has_queue (o : port_obj) : Prop := match o with OWrite _ => False | _ => True end.

Record pinv C s : Prop := {
  pv_wok : wok (wqs s);
  pv_heap : hinv C (heap s) (write_port_list s);
  pv_ready : ∀ p o, heap s !! p = Some o → has_queue o → ready (wqs s) p;
}.

(** * Weakest preconditions *)

Definition pwp {A} (m : P W A) (Q : A → ports W → Prop) s : Prop :=
  match m s with Ok (a, s') => Q a s' | Fault _ => False end.

Section rules.
Context {A B : Type}.

Lemma pwp_ret (a : A) Q s : Q a s → pwp (mret a) Q s.
Proof. done. Qed.
Lemma pwp_bind (m : P W A) (f : A → P W B) Q s : pwp m (λ a s', pwp (f a) Q s') s → pwp (m ≫= f) Q s.
Proof. unfold pwp, mbind, P_bind. by destruct (m s) as [[a s']|]. Qed.
Lemma pwp_mono (m : P W A) (Q Q' : A → ports W → Prop) s : pwp m Q s → (∀ a s', Q a s' → Q' a s') → pwp m Q' s.
Proof. unfold pwp. destruct (m s) as [[a s']|]; naive_solver. Qed.
Lemma pwp_lift (r : res A) a Q s : r = Ok a → Q a s → pwp (plift r) Q s.
Proof. unfold pwp, plift. by intros ->. Qed.
End rules.

Lemma pwp_get_obj p o Q s : heap s !! p = Some o → Q o s → pwp (get_obj p) Q s.
Proof. unfold pwp, get_obj. by intros ->. Qed.
Lemma pwp_put_obj p o Q s : Q () (with_heap (<[p := o]> (heap s)) s) → pwp (put_obj p o) Q s.
Proof. done. Qed.
Lemma pwp_free_obj p Q s : Q () (with_heap (delete p (heap s)) s) → pwp (free_obj p) Q s.
Proof. done. Qed.
Lemma pwp_on_list f Q s : Q () (with_list (f (write_port_list s)) s) → pwp (on_list f) Q s.
Proof. done. Qed.
Lemma pwp_get_list (Q : list nat → ports W → Prop) s : Q (write_port_list s) s → pwp get_list Q s.
Proof. done. Qed.
Lemma pwp_get_rp p rp Q s : reads (heap s) p rp → Q rp s → pwp (get_rp p) Q s.
Proof. unfold reads, pwp, get_rp, get_obj, mbind, P_bind. by intros ->. Qed.
Lemma pwp_get_wp p wp Q s : writes (heap s) p wp → Q wp s → pwp (get_wp p) Q s.
Proof. unfold writes, pwp, get_wp, get_obj, mbind, P_bind. by intros ->. Qed.
Lemma pwp_get_pg p pg Q s : groups (heap s) p pg → Q pg s → pwp (get_pg p) Q s.
Proof. unfold groups, pwp, get_pg, get_obj, mbind, P_bind. by intros ->. Qed.

Lemma pinv_wqs C s w' : pinv C s → wok w' → (∀ q, ready (wqs s) q → ready w' q) → pinv C (with_wqs w' s).
Proof. intros [H1 H2 H3] Hw Hr. split; try done. intros p o Hp Ho. simpl in *. eauto. Qed.

Lemma pwp_wake_one C q code Q s :
  pinv C s → ready (wqs s) q →
  (∀ w', pinv C (with_wqs w' s) → waiters w' q = tail (waiters (wqs s) q) →
    Q (if bool_decide (waiters (wqs s) q = []) then 0 else 1) (with_wqs w' s)) → pwp (wake_one q code) Q s.
Proof.
  intros Hp Hr HQ. destruct (wql_one q code (wqs s) (pv_wok _ _ Hp) Hr) as (w' & E & Hw & Ht & Hk). unfold pwp, wake_one, on_wqs. rewrite E.
  apply HQ; [|done]. by apply pinv_wqs.
Qed.

Lemma pwp_wake_all C q code Q s :
  pinv C s → ready (wqs s) q → (∀ n w', pinv C (with_wqs w' s) → waiters w' q = [] → Q n (with_wqs w' s)) → pwp (wake_all q code) Q s.
Proof.
  intros Hp Hr HQ. destruct (wql_all q code (wqs s) (pv_wok _ _ Hp) Hr) as (w' & E & Hw & Ht & Hk). unfold pwp, wake_all, on_wqs. rewrite E.
  apply HQ; [|done]. by apply pinv_wqs.
Qed.

Lemma pwp_init_wq C q Q s :
  pinv C s → waiters (wqs s) q = [] → (∀ w', pinv C (with_wqs w' s) → ready w' q → Q () (with_wqs w' s)) → pwp (init_wq q) Q s.
Proof.
  intros Hp Hr HQ. destruct (wql_init q (wqs s) (pv_wok _ _ Hp) Hr) as (w' & E & Hw & Ht & Hk). unfold pwp, init_wq, on_wqs, unit_res. rewrite E.
  cbn [mbind res_bind]. apply HQ; [|done]. by apply pinv_wqs.
Qed.

(** A heap of the same kinds of structures. *)
Lemma pinv_heap C C' s h' l' :
  pinv C s → hinv C' h' l' → (∀ p o, h' !! p = Some o → has_queue o → ∃ o', heap s !! p = Some o' ∧ has_queue o') →
  pinv C' (with_heap h' (with_list l' s)).
Proof. intros [H1 H2 H3] Hh Hq. split; try done. simpl. intros p o Hp Ho. destruct (Hq p o Hp Ho) as (o' & ? & ?). eauto. Qed.
End safe.

(** One step of symbolic execution. *)
Ltac pstep :=
  cbv beta iota;
  lazymatch goal with
  | |- pwp (mret _) _ _ => apply pwp_ret
  | |- pwp (_ ≫= _) _ _ => apply pwp_bind
  | |- pwp (put_obj _ _) _ _ => apply pwp_put_obj
  | |- pwp (free_obj _) _ _ => apply pwp_free_obj
  | |- pwp (on_list _) _ _ => apply pwp_on_list
  | |- pwp get_list _ _ => apply pwp_get_list
  | |- pwp (get_obj _) _ _ => eapply pwp_get_obj; [eassumption|]
  | |- pwp (get_rp _) _ _ => eapply pwp_get_rp; [eassumption|]
  | |- pwp (get_wp _) _ _ => eapply pwp_get_wp; [eassumption|]
  | |- pwp (get_pg _) _ _ => eapply pwp_get_pg; [eassumption|]
  end.

Section steps.
Context {W : Type} `{WQ : WaitQueues W} (wok : W → Prop) (ready : W → nat → Prop) (waiters : W → nat → list nat).
Context {LAWS : WaitQueueLaws W wok ready waiters}.
Implicit Types (s : ports W) (C : gset nat).
#[local] Notation pinv := (pinv wok ready).

(** * Writing *)

Definition has_room (h : gmap nat port_obj) (n : nat) (p : nat) : bool :=
  match h !! p with
  | Some (ORead rp) => match r_buf rp with Some b => Z.of_nat n <=? b_avail b | None => false end
  | _ => false
  end.

(** The queue of read port [p] got the packets if it had room for all of them. *)
Definition delivered (pk : list packet) (h h' : gmap nat port_obj) (p : nat) : Prop :=
  ∃ rp b b' q, reads h p rp ∧ r_buf rp = Some b ∧ holds b q ∧ reads h' p (set_rbuf (Some b') rp) ∧
    holds b' (if has_room h (length pk) p then q ++ pk else q).

Lemma pinv_rbuf C s p rp b q :
  pinv C s → reads (heap s) p rp → holds b q → pinv C (with_heap (<[p := ORead (set_rbuf (Some b) rp)]> (heap s)) s).
Proof.
  intros Hp Hr Hb. pose proof Hp as [H1 H2 H3]. split; try done; simpl.
  - eapply hinv_buffer; [done|exact Hr|]. split; [done|]. intros _. by exists b, q.
  - intros x o Hx Ho. apply lookup_insert_Some in Hx as [[<- _]|[_ Hx]]; [by eapply H3|]. by eapply H3.
Qed.

Lemma holds_write b q pk :
  holds b q →
  ∃ rc b', buf_write b pk = Ok (rc, b') ∧ (rc <? 0) = negb (Z.of_nat (length pk) <=? b_avail b) ∧
    holds b' (if Z.of_nat (length pk) <=? b_avail b then q ++ pk else q) ∧ b_log2 b' = b_log2 b.
Proof.
  intros Hb. pose proof (buf_write_ok b q pk Hb) as H. pose proof Hb as [_ Ha].
  destruct (Z.leb_spec (Z.of_nat (length pk)) (b_avail b)).
  - rewrite (proj2 (Z.ltb_ge _ _)) in H by lia. destruct H as (b' & E & ? & ?). by exists NO_ERROR, b'.
  - rewrite (proj2 (Z.ltb_lt _ _)) in H by lia. by exists ERR_NOT_ENOUGH_BUFFER, b.
Qed.

(** What one reader gets; the others are left alone. *)
Lemma pwp_write_reader C pk p s Q :
  pinv C s → (∃ rp, reads (heap s) p rp) → p ∉ C →
  (∀ n s', pinv C s' → write_port_list s' = write_port_list s → (∀ x, x ≠ p → heap s' !! x = heap s !! x) →
    delivered pk (heap s) (heap s') p → Q (has_room (heap s) (length pk) p, n) s') →
  pwp (write_reader pk p) Q s.
Proof.
  intros Hp [rp Hr] HC HQ. destruct (hv_read _ _ _ (pv_heap _ _ _ _ Hp) _ _ Hr HC) as [_ (b & q & Eb & Hb) _ Hg].
  destruct (holds_write b q pk Hb) as (rc & b' & Ew & Erc & Hb' & _).
  assert (has_room (heap s) (length pk) p = (Z.of_nat (length pk) <=? b_avail b)) as Ehr.
  { unfold has_room. unfold reads in Hr. by rewrite Hr, Eb. }
  unfold write_reader. do 2 pstep. pstep. eapply pwp_lift; [by rewrite Eb|]. pstep. eapply pwp_lift; [exact Ew|]. do 2 pstep.
  set (s1 := with_heap _ s). assert (pinv C s1) as Hp1 by (by eapply pinv_rbuf).
  assert (∀ s2, heap s2 = heap s1 → delivered pk (heap s) (heap s2) p ∧ ∀ x, x ≠ p → heap s2 !! x = heap s !! x) as Hd.
  { intros s2 ->. split; [|intros x Hx; by apply lookup_insert_ne]. exists rp, b, b', q. rewrite Ehr. split_and!; try done. apply lookup_insert_eq. }
  rewrite Erc, Ehr in *. destruct (_ <=? _); cbn [negb]; last first.
  { pstep. destruct (Hd s1) as [? ?]; [done|]. by apply HQ. }
  assert (∀ w, ready w p → ∀ n0, pinv C (with_wqs w s1) → pwp (awaken ← if n0 =? 0 then wake_one p NO_ERROR else mret n0; mret (true, awaken)) Q (with_wqs w s1)) as Htail.
  { intros w Hw n0 Hpw. pstep. destruct (n0 =? 0).
    - eapply (pwp_wake_one wok ready waiters); [done|done|]. intros w' Hpw' _. pstep. destruct (Hd (with_wqs w' (with_wqs w s1))) as [? ?]; [done|]. by apply HQ.
    - do 2 pstep. destruct (Hd (with_wqs w s1)) as [? ?]; [done|]. by apply HQ. }
  assert (ready (wqs s1) p) as Hrp by (by apply (pv_ready _ _ _ _ Hp p (ORead rp))). pstep. destruct (r_gport rp) as [g|] eqn:Eg.
  - destruct (Hg g eq_refl) as (pg & Hpg & _). eapply (pwp_wake_one wok ready waiters); [exact Hp1|by apply (pv_ready _ _ _ _ Hp g (OGroup pg))|]. intros w' Hpw _.
    apply Htail; [|done]. apply (pv_ready _ _ _ _ Hpw p (ORead (set_rbuf (Some b') rp))); [apply lookup_insert_eq|done].
  - pstep. by apply (Htail (wqs s1)); [|destruct s1].
Qed.

Lemma delivered_frame pk h h1 h2 p : delivered pk h1 h2 p → h !! p = h1 !! p → delivered pk h h2 p.
Proof. unfold delivered, has_room, reads. by intros H ->. Qed.

Lemma delivered_keep pk h h1 h2 p : delivered pk h h1 p → h2 !! p = h1 !! p → delivered pk h h2 p.
Proof. unfold delivered, reads. intros H ->. done. Qed.

Lemma pwp_write_readers C pk l : ∀ status n s Q,
  pinv C s → NoDup l → (∀ p, p ∈ l → p ∉ C ∧ ∃ rp, reads (heap s) p rp) →
  (∀ n' s', pinv C s' → write_port_list s' = write_port_list s → (∀ x, x ∉ l → heap s' !! x = heap s !! x) →
    (∀ p, p ∈ l → delivered pk (heap s) (heap s') p) →
    Q (if forallb (has_room (heap s) (length pk)) l then status else ERR_PARTIAL_WRITE, n') s') →
  pwp (write_readers pk l status n) Q s.
Proof.
  induction l as [|p l IH]; intros status n s Q Hp Hn Hl HQ; cbn [write_readers].
  - pstep. apply HQ; try done. by intros p ?%elem_of_nil.
  - apply NoDup_cons in Hn as [Hpl Hn]. pstep. destruct (Hl p ltac:(set_solver)) as [HC Hr]. eapply pwp_write_reader; [done|done|done|].
    intros n1 s1 Hp1 Hl1 Ho1 Hd1.
    assert (∀ x, x ∈ l → heap s1 !! x = heap s !! x) as Hsame by (intros x Hx; apply Ho1; set_solver).
    apply IH; [done|done| |].
    { intros x Hx. destruct (Hl x ltac:(set_solver)) as [? [rp Hrp]]. split; [done|]. exists rp. unfold reads in *. by rewrite Hsame. }
    intros n2 s2 Hp2 Hl2 Ho2 Hd2.
    assert (forallb (has_room (heap s1) (length pk)) l = forallb (has_room (heap s) (length pk)) l) as Ef.
    { clear -Hsame. induction l as [|x l IH]; [done|]. simpl. rewrite IH by set_solver. f_equal. unfold has_room. by rewrite Hsame by set_solver. }
    rewrite Ef. replace (if forallb _ l then if has_room _ _ p then status else _ else _) with
      (if forallb (has_room (heap s) (length pk)) (p :: l) then status else ERR_PARTIAL_WRITE) 
      by (cbn [forallb]; destruct (has_room (heap s) (length pk) p); cbn [andb]; by destruct (forallb (has_room (heap s) (length pk)) l)).
    apply HQ; [done|congruence| |].
    + intros x Hx. rewrite Ho2, Ho1 by set_solver. done.
    + intros x [->|Hx]%elem_of_cons; [eapply delivered_keep; [done|]; by apply Ho2|]. eapply delivered_frame; [by apply Hd2|]. symmetry. by apply Hsame.
Qed.

(** The queue of a write port without readers. *)
Definition stored (pk : list packet) (h h' : gmap nat port_obj) (w : nat) (wp : write_port) (b : port_buf) : Prop :=
  ∃ b' q, holds b q ∧ writes h' w (set_wbuf (Some b') wp) ∧ holds b' (if Z.of_nat (length pk) <=? b_avail b then q ++ pk else q).

Lemma pwp_port_write C w wp pk s Q :
  pinv C s → writes (heap s) w wp → w_magic wp = WRITEPORT_MAGIC_W →
  (∀ b rc s', w_buf wp = Some b → pinv C s' → stored pk (heap s) (heap s') w wp b → (∀ x, x ≠ w → heap s' !! x = heap s !! x) →
    (rc <? 0) = negb (Z.of_nat (length pk) <=? b_avail b) → Q (rc, false) s') →
  (∀ yield s', w_buf wp = None → pinv C s' → (∀ x, x ∉ w_rps wp → heap s' !! x = heap s !! x) →
    (∀ p, p ∈ w_rps wp → delivered pk (heap s) (heap s') p) →
    Q (if forallb (has_room (heap s) (length pk)) (w_rps wp) then NO_ERROR else ERR_PARTIAL_WRITE, yield) s') →
  pwp (port_write (Some w) (Some pk)) Q s.
Proof.
  intros Hp Hw Em HQ1 HQ2. destruct (hv_write _ _ _ (pv_heap _ _ _ _ Hp) _ _ Hw) as [Hs Hn Hr _]. unfold port_write. do 2 pstep. cbv beta iota. rewrite Em.
  change (negb (WRITEPORT_MAGIC_W =? WRITEPORT_MAGIC_W)) with false. cbv iota.
  destruct (w_buf wp) as [b|] eqn:Eb.
  - destruct Hs as [(? & ? & _)|[_ [(b0 & q & Eb0 & Hb & _)|[? _]]]]; [congruence| |congruence]. injection (eq_trans (eq_sym Eb) Eb0) as <-.
    destruct (holds_write b q pk Hb) as (rc & b' & Ew & Erc & Hb' & _). pstep. eapply pwp_lift; [exact Ew|]. do 3 pstep.
    apply (HQ1 b); [done| | | |done].
    + pose proof Hp as [H1 H2 H3]. split; try done; simpl.
      * eapply hinv_wp; try done. right. split; [by left|]. left. exists b', (if Z.of_nat (length pk) <=? b_avail b then q ++ pk else q). split_and!; try done.
        destruct (hv_write _ _ _ H2 _ _ Hw) as [Hs _ _ _]. destruct Hs as [(? & ? & _)|[_ [(? & ? & _ & _ & ?)|[? _]]]]; done || congruence.
      * intros x o Hx Ho. apply lookup_insert_Some in Hx as [[_ <-]|[_ Hx]]; [done|]. by eapply H3.
    + exists b', q. split_and!; [done| |done]. apply lookup_insert_eq.
    + intros x Hx. by apply lookup_insert_ne.
  - pstep. eapply pwp_write_readers; [done|done| |].
    { intros p Hpr. destruct (Hr p Hpr) as (? & rp & ? & _). eauto. }
    intros n' s' Hp' _ Ho Hd. pstep. by apply HQ2.
Qed.

(** * Reading *)

(** The oldest packet of read port [p] was taken. *)
Definition took (h h' : gmap nat port_obj) (p : nat) (ctx : Z) (pk : packet) : Prop :=
  (∃ rp b b' q, reads h p rp ∧ r_ctx rp = ctx ∧ r_buf rp = Some b ∧ holds b (pk :: q) ∧ reads h' p (set_rbuf (Some b') rp) ∧ holds b' q) ∧
  ∀ x, x ≠ p → h' !! x = h !! x.

Definition idle (h : gmap nat port_obj) (p : nat) : Prop := ∃ rp b, reads h p rp ∧ r_buf rp = Some b ∧ holds b [].

Lemma pwp_read_no_lock C p timeout s Q :
  pinv C s → (∃ rp, reads (heap s) p rp) → p ∉ C →
  (∀ ctx pk s', pinv C s' → write_port_list s' = write_port_list s → took (heap s) (heap s') p ctx pk → Q (Returned NO_ERROR (Some (ctx, pk))) s') →
  (idle (heap s) p → timeout = 0 → Q (Returned ERR_TIMED_OUT None) s) → (idle (heap s) p → timeout ≠ 0 → Q (Blocked p) s) →
  pwp (read_no_lock p timeout) Q s.
Proof.
  intros Hp [rp Hr] HC HQ1 HQ2 HQ3. destruct (hv_read _ _ _ (pv_heap _ _ _ _ Hp) _ _ Hr HC) as [_ (b & q & Eb & Hb) _ _].
  unfold read_no_lock. do 2 pstep. pstep. eapply pwp_lift; [by rewrite Eb|]. pstep. pose proof (buf_read_ok b q Hb) as Hrd. destruct q as [|pk q].
  - eapply pwp_lift; [exact Hrd|]. do 2 pstep. change (negb (ERR_NO_MSG =? ERR_NO_MSG)) with false. cbv iota.
    replace (with_heap _ s) with s; last first.
    { replace (set_rbuf (Some b) rp) with rp by (destruct rp; unfold set_rbuf; simpl in *; congruence). unfold with_heap. rewrite insert_id by done. by destruct s. }
    assert (idle (heap s) p) as Hi by (by exists rp, b). destruct (Z.eqb_spec timeout 0); pstep; auto.
  - destruct Hrd as (b' & E & Hb' & _). eapply pwp_lift; [exact E|]. do 2 pstep. change (negb (NO_ERROR =? ERR_NO_MSG)) with true. cbv iota. pstep.
    apply HQ1; [by eapply pinv_rbuf|done|]. split; [|intros x Hx; by apply lookup_insert_ne]. exists rp, b, b', q. split_and!; try done. apply lookup_insert_eq.
Qed.

(** The first port of the list that has a packet is read. *)
Lemma pwp_read_group C l : ∀ s Q,
  pinv C s → (∀ p, p ∈ l → p ∉ C ∧ ∃ rp, reads (heap s) p rp) →
  (∀ l1 p l2 ctx pk s', l = l1 ++ p :: l2 → Forall (idle (heap s)) l1 → pinv C s' → write_port_list s' = write_port_list s →
    took (heap s) (heap s') p ctx pk → Q (Some (Returned NO_ERROR (Some (ctx, pk)))) s') →
  (Forall (idle (heap s)) l → Q None s) → pwp (read_group l) Q s.
Proof.
  induction l as [|p l IH]; intros s Q Hp Hl HQ1 HQ2; cbn [read_group].
  - pstep. by apply HQ2.
  - pstep. destruct (Hl p ltac:(set_solver)) as [HC Hr]. apply (pwp_read_no_lock C); try done.
    + intros ctx pk s' Hp' El Ht. cbv beta iota. change (NO_ERROR =? ERR_TIMED_OUT) with false. cbv iota. pstep. by apply (HQ1 [] p l).
    + intros Hi _. cbv beta iota. change (ERR_TIMED_OUT =? ERR_TIMED_OUT) with true. cbv iota. apply IH; [done|set_solver| |].
      * intros l1 p' l2 ctx pk s' -> Hf. apply (HQ1 (p :: l1) p' l2); [done|]. by constructor.
      * intros Hf. apply HQ2. by constructor.
Qed.

(** A handle for reading: a live read port or group. *)
Definition readable C (h : gmap nat port_obj) (p : nat) : Prop := p ∉ C ∧ ((∃ rp, reads h p rp) ∨ ∃ pg, groups h p pg).

(** The ports that a read looks at, in order. *)
Definition sources (h : gmap nat port_obj) (p : nat) : list nat :=
  match h !! p with Some (ORead _) => [p] | Some (OGroup pg) => g_rps pg | _ => [] end.

Definition is_group (h : gmap nat port_obj) (p : nat) : bool := match h !! p with Some (OGroup _) => true | _ => false end.

Lemma pwp_read_attempt C p timeout s Q :
  pinv C s → readable C (heap s) p →
  (∀ l1 q l2 ctx pk s', sources (heap s) p = l1 ++ q :: l2 → Forall (idle (heap s)) l1 → pinv C s' → write_port_list s' = write_port_list s →
    took (heap s) (heap s') q ctx pk → Q (Returned NO_ERROR (Some (ctx, pk))) s') →
  (Forall (idle (heap s)) (sources (heap s) p) →
    Q (if negb (is_group (heap s) p) && (timeout =? 0) then Returned ERR_TIMED_OUT None else Blocked p) s) →
  pwp (port_read_attempt p timeout) Q s.
Proof.
  intros Hp [HC [[rp Hr]|[pg Hg]]] HQ1 HQ2; unfold port_read_attempt; do 2 pstep; cbv beta iota.
  - unfold reads in Hr. unfold sources, is_group in *. rewrite Hr in *.
    apply (pwp_read_no_lock C); try done; [eauto| | |].
    + intros ctx pk s'. by apply (HQ1 [] p []).
    + intros Hi ->. apply HQ2. by constructor.
    + intros Hi Hne. rewrite (proj2 (Z.eqb_neq timeout 0)) in HQ2 by done. apply HQ2. by constructor.
  - destruct (hv_group _ _ _ (pv_heap _ _ _ _ Hp) _ _ Hg) as [_ _ Hrps _]. unfold groups in Hg. unfold sources, is_group in *. rewrite Hg in *.
    pstep. apply (pwp_read_group C); [done| | |].
    + intros q Hq. destruct (Hrps q Hq) as (? & rp & ? & _). eauto.
    + intros l1 q l2 ctx pk s' El Hf Hp' Hl Ht. pstep. by apply (HQ1 l1 q l2).
    + intros Hf. pstep. by apply HQ2.
Qed.

Lemma pwp_port_read C p timeout s Q :
  pinv C s → readable C (heap s) p → pwp (port_read_attempt p timeout) Q s → pwp (port_read (Some p) timeout true) Q s.
Proof.
  intros Hp [HC Hr] HQ. unfold port_read, get_magic. cbn [negb]. destruct Hr as [[rp Hr]|[pg Hg]]; do 4 pstep.
  - cbn [obj_magic]. by rewrite (ro_magic _ _ _ (hv_read _ _ _ (pv_heap _ _ _ _ Hp) _ _ Hr HC)), Z.eqb_refl.
  - cbn [obj_magic]. rewrite (go_magic _ _ _ _ (hv_group _ _ _ (pv_heap _ _ _ _ Hp) _ _ Hg)), Z.eqb_refl. by rewrite orb_true_r.
Qed.

(** * Creating and opening *)

Lemma pwp_find_name name ok l : ∀ s (Q : option (nat * write_port) → ports W → Prop),
  (∀ w, w ∈ l → ∃ wp, writes (heap s) w wp) →
  (∀ w wp, w ∈ l → writes (heap s) w wp → w_name wp = name → ok wp = true → Q (Some (w, wp)) s) →
  ((∀ w wp, w ∈ l → writes (heap s) w wp → w_name wp = name → ok wp = false) → Q None s) → pwp (find_name name ok l) Q s.
Proof.
  induction l as [|w l IH]; intros s Q Hl HQ1 HQ2; cbn [find_name].
  - pstep. apply HQ2. by intros w wp ?%elem_of_nil.
  - pstep. destruct (Hl w ltac:(set_solver)) as [wp Hw]. pstep. cbv beta. destruct (bool_decide (w_name wp = name) && ok wp) eqn:E.
    + apply andb_true_iff in E as [E1%bool_decide_eq_true E2]. pstep. apply HQ1; [set_solver|done..].
    + apply IH; [set_solver| |].
      * intros w' wp' Hin. apply HQ1. set_solver.
      * intros Hno. apply HQ2. intros w' wp' [->|Hin]%elem_of_cons Hw' En; [|by eapply Hno]. assert (wp' = wp) as -> by (unfold writes in *; congruence).
        rewrite bool_decide_eq_true_2 in E by done. done.
Qed.

Lemma listed C s w : pinv C s → w ∈ write_port_list s ↔ ∃ wp, writes (heap s) w wp.
Proof. intros Hp. apply (hv_list _ _ _ (pv_heap _ _ _ _ Hp)). Qed.

Lemma pinv_new_wp C s x wp :
  pinv C s → heap s !! x = None → wp_shape wp → w_rps wp = [] → (∀ w wp', writes (heap s) w wp' → w_name wp' ≠ w_name wp) →
  pinv C (with_heap (<[x := OWrite wp]> (heap s)) (with_list (write_port_list s ++ [x]) s)).
Proof.
  intros Hp Hx Hs Hr Hn. eapply (pinv_heap wok ready C); [done|by apply hinv_new_wp; [apply Hp|..]|].
  intros p o Hp' Ho. apply lookup_insert_Some in Hp' as [[_ <-]|[_ Hp']]; [done|]. eauto.
Qed.

(** The first half of a creation returns, or the name is reserved by the
    placeholder. *)
Definition reserved (h : gmap nat port_obj) (hold : nat) (name : string) : Prop :=
  ∃ wp, writes h hold wp ∧ w_magic wp = PORTHOLD_MAGIC ∧ w_name wp = name.

Lemma pwp_create_begin C hold name mode port s Q :
  pinv C s → heap s !! hold = None →
  (∀ rc o, (∀ w, o = Some w → ∃ wp, writes (heap s) w wp ∧ Some (w_name wp) = name) → Q (Some (rc, o)) s) →
  (∀ nm s', name = Some nm → pinv C s' → reserved (heap s') hold nm → Q None s') →
  pwp (port_create_begin hold name mode port) Q s.
Proof.
  intros Hp Hf HQ1 HQ2. unfold port_create_begin. destruct name as [nm|]; [|by pstep; apply HQ1].
  destruct (negb port); [by pstep; apply HQ1|]. destruct (_ && _); [by pstep; apply HQ1|]. destruct (_ <=? _)%nat; [by pstep; apply HQ1|].
  do 3 pstep. apply pwp_find_name; [intros w; apply (listed C), Hp| |].
  - intros w wp _ Hw En _. cbv beta iota. pstep. destruct (_ || _); apply HQ1; [done|]. intros w' [= <-]. exists wp. by rewrite En.
  - intros Hno. cbv beta iota. do 5 pstep. apply (HQ2 nm); [done| |].
    + apply (pinv_new_wp C s hold (mk_wp PORTHOLD_MAGIC None [] 0 nm)); try done; [by left|]. intros w wp' Hw E.
      discriminate (Hno w wp' (proj2 (listed C s w Hp) (ex_intro _ wp' Hw)) Hw E).
    + eexists. split; [apply lookup_insert_eq|done].
Qed.

Lemma pinv_drop_wp C s x wp :
  pinv C s → writes (heap s) x wp → w_rps wp = [] →
  pinv C (with_heap (delete x (heap s)) (with_list (filter (.≠ x) (write_port_list s)) s)).
Proof.
  intros Hp Hx Hr. eapply (pinv_heap wok ready C); [done|by eapply hinv_drop_wp; [apply Hp|..]|].
  intros p o [_ Hp']%lookup_delete_Some Ho. eauto.
Qed.

Lemma reserved_empty C s hold nm : pinv C s → reserved (heap s) hold nm → ∃ wp, writes (heap s) hold wp ∧ w_rps wp = [] ∧ w_name wp = nm.
Proof.
  intros Hp (wp & Hw & Em & En). exists wp. split_and!; try done. destruct (hv_write _ _ _ (pv_heap _ _ _ _ Hp) _ _ Hw) as [Hs _ _ _].
  destruct Hs as [(_ & _ & ?)|[[Hm|Hm] _]]; [done|rewrite Em in Hm; discriminate Hm..].
Qed.

Lemma pwp_create_end C hold name mode mem malloc s Q :
  pinv C s → reserved (heap s) hold name → (∀ p, mem = Some p → heap s !! p = None) →
  (∀ rc s', pinv C s' → Q (rc, None) s') →
  (∀ p b s', pinv C s' → writes (heap s') p (mk_wp WRITEPORT_MAGIC_W (Some b) [] mode name) → holds b [] → Q (NO_ERROR, Some p) s') →
  pwp (port_create_end hold name mode mem malloc) Q s.
Proof.
  intros Hp Hres Hf HQ1 HQ2. destruct (reserved_empty C s hold name Hp Hres) as (wp & Hw & Er & En). unfold port_create_end.
  pose proof (pinv_drop_wp C s hold wp Hp Hw Er) as Hd.
  destruct mem as [p|]; [|unfold drop_hold; do 5 pstep; by apply HQ1]. specialize (Hf p eq_refl).
  destruct malloc; [|cbn [make_buf]; unfold drop_hold; do 5 pstep; by apply HQ1].
  destruct (make_buf_ok (has_flag mode PORT_MODE_BIG_BUFFER)) as (b & Eb & Hb). rewrite Eb.
  assert (hold ≠ p) as Hne by (unfold writes in Hw; congruence).
  do 4 pstep. unfold drop_hold. do 5 pstep. cbn [heap write_port_list with_heap with_list].
  set (s2 := with_heap _ _). assert (s2 = with_heap (<[p := OWrite (mk_wp WRITEPORT_MAGIC_W (Some b) [] mode name)]> (delete hold (heap s)))
    (with_list (filter (.≠ hold) (write_port_list s) ++ [p]) s)) as ->.
  { unfold s2, with_heap, with_list. simpl. rewrite delete_insert_ne by done. f_equal.
    rewrite filter_app. f_equal. by rewrite filter_cons_True by done. }
  apply (HQ2 p b); [|by apply lookup_insert_eq|done]. set (sd := with_heap (delete hold (heap s)) _) in Hd.
  apply (pinv_new_wp C sd p (mk_wp WRITEPORT_MAGIC_W (Some b) [] mode name)); try done.
  - simpl. by rewrite lookup_delete_ne.
  - right. split; [by left|]. left. by exists b, [].
  - intros w wp' Hw'. simpl in *. heap_case Hw'. intros E. pose proof (hv_name _ _ _ (pv_heap _ _ _ _ Hp) hold w wp wp' Hw Hw' ltac:(congruence)). done.
Qed.
End steps.
