(* ===== verification/PortCalls.v ===== *)
(** Every call on ports keeps the invariant.

    The lemmas for opening, grouping, destroying and closing ports; every call on
    live handles returns and keeps [pinv] ([run_port_call_ok]); and what a write, a
    read and a write followed by reads do to the packets. *)
From stdpp Require Import prelude gmap strings.
From S2P Require Import Prelude Pow2 Port PortInv PortSafe.

#[local] Open Scope Z_scope.

Section more.
Context {W : Type} `{WQ : WaitQueues W} (wok : W → Prop) (ready : W → nat → Prop) (waiters : W → nat → list nat).
Context {LAWS : WaitQueueLaws W wok ready waiters}.
Implicit Types (s : ports W) (C : gset nat).
#[local] Notation pinv := (pinv wok ready).

(** Memory that the heap gives out: no structure and no waiting thread has it. *)
Definition fresh C s (mem : option nat) : Prop :=
  ∀ p, mem = Some p → heap s !! p = None ∧ p ∉ C ∧ waiters (wqs s) p = [].

(** * Opening *)

(** The first reader takes the buffer of the write port over, with the packets
    written so far; a later one has an empty buffer. *)
Definition opened (h h' : gmap nat port_obj) (name : string) (ctx : Z) (p : nat) : Prop :=
  ∃ w wp b, writes h w wp ∧ w_name wp = name ∧ (w_buf wp = None → holds b []) ∧ (∀ b0, w_buf wp = Some b0 → b = b0) ∧
    writes h' w (set_wbuf None (set_wrps (w_rps wp ++ [p]) wp)) ∧ reads h' p (mk_rp READPORT_MAGIC (Some b) ctx (Some w) None) ∧
    ∀ x, x ≠ p → x ≠ w → h' !! x = h !! x.

Lemma pinv_open C s w wp p ctx b q :
  pinv C s → writes (heap s) w wp → heap s !! p = None → p ∉ C → ready (wqs s) p → w_magic wp ≠ PORTHOLD_MAGIC →
  holds b q → (has_flag (w_mode wp) PORT_MODE_UNICAST = true → w_buf wp ≠ None) →
  pinv C (with_heap (<[p := ORead (mk_rp READPORT_MAGIC (Some b) ctx (Some w) None)]>
    (<[w := OWrite (set_wbuf None (set_wrps (w_rps wp ++ [p]) wp))]> (heap s))) s).
Proof.
  intros [H1 H2 H3] Hw Hp HC Hr Hm Hb Hu. destruct (hv_write _ _ _ H2 _ _ Hw) as [Hs _ _ _].
  destruct Hs as [[? _]|[Hm' Hs]]; [done|]. split; try done; simpl.
  - eapply hinv_open; try done; [|by exists b, q]. intros Hf. destruct Hs as [(? & ? & _ & _ & ?)|[? _]]; [done|]. by destruct (Hu Hf).
  - intros x o Hx Ho. apply lookup_insert_Some in Hx as [[<- _]|[Hne Hx]]; [done|].
    apply lookup_insert_Some in Hx as [[_ <-]|[_ Hx]]; [done|]. eauto.
Qed.

Lemma pwp_open C name ctx port mem malloc s Q :
  pinv C s → fresh C s mem →
  (∀ rc s', rc ≠ NO_ERROR → pinv C s' → heap s' = heap s → Q (rc, None) s') →
  (∀ nm p s', name = Some nm → mem = Some p → pinv C s' → opened (heap s) (heap s') nm ctx p → Q (NO_ERROR, Some p) s') →
  pwp (port_open name ctx port mem malloc) Q s.
Proof.
  intros Hp Hf HQ1 HQ2. unfold port_open. destruct name as [nm|]; [|by pstep; apply HQ1]. destruct (negb port); [by pstep; apply HQ1|].
  destruct mem as [p|]; [|by pstep; apply HQ1]. destruct (Hf p eq_refl) as (Hfp & HpC & Hwt).
  pstep. eapply (pwp_init_wq wok ready waiters); [done|done|]. intros w' Hp1 Hr1.
  destruct malloc; [|by cbn [make_buf]; pstep; apply HQ1]. destruct (make_buf_ok false) as (b & Eb & Hb). rewrite Eb.
  do 3 pstep. apply (pwp_find_name wok ready waiters); [intros x; apply (listed wok ready C), Hp1| |].
  - intros w wp _ Hw En Hm. apply negb_true_iff, Z.eqb_neq in Hm. cbv beta iota.
    assert (w ≠ p) as Hwp by (unfold writes in Hw; simpl in Hw; congruence).
    assert (w_buf wp = None ∨ ∃ b0 q0, w_buf wp = Some b0 ∧ holds b0 q0) as Hbuf.
    { destruct (hv_write _ _ _ (pv_heap _ _ _ _ Hp1) _ _ Hw) as [Hs _ _ _].
      destruct Hs as [[? _]|[_ [(b0 & q0 & ? & ? & _)|[? _]]]]; [done|right; eauto|by left]. }
    destruct (w_buf wp) as [b0|] eqn:Ebuf.
    + destruct Hbuf as [?|(? & q0 & [= <-] & Hb0)]; [done|]. do 4 pstep. pstep. apply (HQ2 nm p); [done|done| |].
      * eapply (pinv_open C (with_wqs w' s)); try done. congruence.
      * exists w, wp, b0. split_and!; try done; [congruence..| | |].
        -- unfold writes. simpl. rewrite lookup_insert_ne by done. apply lookup_insert_eq.
        -- apply lookup_insert_eq.
        -- intros x Hx Hx'. simpl. by rewrite !lookup_insert_ne.
    + destruct (has_flag (w_mode wp) PORT_MODE_UNICAST) eqn:Eu; [by pstep; apply HQ1|].
      replace (set_wrps (w_rps wp ++ [p]) wp) with (set_wbuf None (set_wrps (w_rps wp ++ [p]) wp))
        by (unfold set_wbuf, set_wrps; simpl; by rewrite Ebuf).
      do 4 pstep. pstep. apply (HQ2 nm p); [done|done| |].
      * eapply (pinv_open C (with_wqs w' s)); try done. congruence.
      * exists w, wp, b. split_and!; try done; [congruence| | |].
        -- unfold writes. simpl. rewrite lookup_insert_ne by done. apply lookup_insert_eq.
        -- apply lookup_insert_eq.
        -- intros x Hx Hx'. simpl. by rewrite !lookup_insert_ne.
  - intros _. cbv beta iota. pstep. by apply HQ1.
Qed.

(** * Groups *)

(** A handle of the caller: a structure that is not being closed and is not the
    placeholder of a creation. *)
Definition live C (h : gmap nat port_obj) (p : nat) : Prop :=
  p ∉ C ∧ ∃ o, h !! p = Some o ∧ ∀ wp, o = OWrite wp → w_magic wp ≠ PORTHOLD_MAGIC.

(** The members forget their group. *)
Lemma pwp_group_undo l : ∀ s Q,
  NoDup l → (∀ p, p ∈ l → ∃ rp, reads (heap s) p rp) →
  (∀ h', (∀ p rp, p ∈ l → reads (heap s) p rp → reads h' p (set_gport None rp)) → (∀ x, x ∉ l → h' !! x = heap s !! x) → Q () (with_heap h' s)) →
  pwp (group_undo l) Q s.
Proof.
  induction l as [|p l IH]; intros s Q Hn Hl HQ; cbn [group_undo].
  - pstep. destruct s. apply (HQ heap); [|done]. by intros p rp ?%elem_of_nil.
  - apply NoDup_cons in Hn as [Hp Hn]. destruct (Hl p (list_elem_of_here _ _)) as [rp Hr]. do 4 pstep. apply IH; [done| |].
    + intros q Hq. destruct (Hl q (list_elem_of_further _ _ _ Hq)) as [rq Hrq]. exists rq. unfold reads in *. simpl.
      rewrite lookup_insert_ne; [done|]. by intros ->.
    + intros h' H1 H2. apply (HQ h').
      * intros q rq [->|Hq]%elem_of_cons Hrq; [|apply H1; [done|]; unfold reads in *; simpl; rewrite lookup_insert_ne; [done|]; by intros ->].
        unfold reads in *. rewrite H2 by done. simpl. rewrite lookup_insert_eq. congruence.
      * intros x Hx. apply not_elem_of_cons in Hx as [Hne Hx]. rewrite H2 by done. simpl. by apply lookup_insert_ne.
Qed.

(** A group whose members have forgotten it is freed. *)
Lemma pinv_free_group C s g pg h' :
  pinv C s → groups (heap s) g pg →
  (∀ p rp, p ∈ g_rps pg → reads (heap s) p rp → reads h' p (set_gport None rp)) → (∀ x, x ∉ g_rps pg → h' !! x = heap s !! x) →
  pinv C (with_heap (delete g h') s).
Proof.
  intros [H1 H2 H3] Hg Hm Ho. destruct (hv_group _ _ _ H2 _ _ Hg) as [_ _ Hrps _].
  split; try done; simpl.
  - apply (hinv_leave _ (heap s) _ _ g pg (λ _, True)); [done|done| |].
    + intros q Hq. destruct (decide (q ∈ g_rps pg)) as [Hin|Hin].
      * left. split_and!; [done|done|]. intros rp Hr. unfold reads. rewrite lookup_delete_ne by done. by apply Hm.
      * right. split; [by intros [? _]|]. rewrite lookup_delete_ne by done. by apply Ho.
    + left. split; [apply lookup_delete_eq|done].
  - intros p o [Hne Hp]%lookup_delete_Some Hq. destruct (decide (p ∈ g_rps pg)) as [Hin|Hin].
    + destruct (Hrps p Hin) as (_ & rp & Hr & _). by apply (H3 p (ORead rp)).
    + rewrite Ho in Hp by done. eauto.
Qed.

Lemma pinv_join C s p rp g pg :
  pinv C s → reads (heap s) p rp → p ∉ C → r_gport rp = None → groups (heap s) g pg →
  Z.of_nat (length (g_rps pg)) < MAX_PORT_GROUP_COUNT →
  pinv C (with_heap (<[g := OGroup (mk_pg (g_magic pg) (g_rps pg ++ [p]))]> (<[p := ORead (set_gport (Some g) rp)]> (heap s))) s).
Proof.
  intros [H1 H2 H3] Hp HC Hg0 Hg Hlen. split; try done; simpl; [by apply hinv_join|].
  intros x o Hx Ho. apply lookup_insert_Some in Hx as [[<- _]|[_ Hx]]; [by apply (H3 _ (OGroup pg))|].
  apply lookup_insert_Some in Hx as [[<- _]|[_ Hx]]; [by apply (H3 _ (ORead rp))|]. eauto.
Qed.

(** The links made so far are those of the group. *)
Lemma pwp_group_link C g l : ∀ linked s Q,
  pinv C s → groups (heap s) g (mk_pg PORTGROUP_MAGIC linked) →
  (∀ p, p ∈ l → p ∉ C ∧ is_Some (heap s !! p)) → Z.of_nat (length linked + length l) ≤ MAX_PORT_GROUP_COUNT →
  (∀ s', pinv C s' → groups (heap s') g (mk_pg PORTGROUP_MAGIC (linked ++ l)) → Q NO_ERROR s') →
  (∀ s', pinv C (with_heap (delete g (heap s')) s') → Q ERR_BAD_HANDLE s') →
  pwp (group_link g linked l) Q s.
Proof.
  induction l as [|p l IH]; intros linked s Q Hp Hg Hl Hlen HQ1 HQ2; cbn [group_link].
  - pstep. apply HQ1; [done|]. by rewrite app_nil_r.
  - assert (pwp (group_undo linked;; mret ERR_BAD_HANDLE) Q s) as Hundo.
    { pstep. destruct (hv_group _ _ _ (pv_heap _ _ _ _ Hp) _ _ Hg) as [_ Hn Hrps _]. apply pwp_group_undo; [done| |].
      - intros q Hq. destruct (Hrps q Hq) as (_ & rp & ? & _). eauto.
      - intros h' H1 H2. pstep. apply HQ2. by apply (pinv_free_group C s g _ h' Hp Hg). }
    destruct (Hl p (list_elem_of_here _ _)) as [HC [o Ho]]. do 2 pstep. cbv beta iota. destruct o as [wp|rp|pg]; [done| |done].
    destruct (bool_decide (r_gport rp = None) && (r_magic rp =? READPORT_MAGIC)) eqn:E; [|done].
    apply andb_true_iff in E as [E%bool_decide_eq_true _].
    assert (p ≠ g) as Hpg by (intros ->; unfold groups in Hg; congruence).
    do 3 pstep. eapply pwp_get_pg; [unfold groups; simpl; by rewrite lookup_insert_ne|]. do 2 pstep. simpl in Hlen.
    apply IH.
    + eapply (pinv_join C s p rp g); try done. simpl. lia.
    + apply lookup_insert_eq.
    + intros q Hq. destruct (Hl q (list_elem_of_further _ _ _ Hq)) as [? Hq']. split; [done|]. simpl. rewrite !lookup_insert_is_Some'. by right; right.
    + rewrite length_app. simpl. lia.
    + rewrite <- app_assoc. done.
    + done.
Qed.

Lemma pwp_group C ports_ count group mem s Q :
  pinv C s → fresh C s mem → 0 ≤ count → (∀ l, ports_ = Some l → count ≤ Z.of_nat (length l) ∧ ∀ p, p ∈ l → p ∉ C ∧ is_Some (heap s !! p)) →
  (∀ rc s', rc ≠ NO_ERROR → pinv C s' → Q (rc, None) s') →
  (∀ g s', mem = Some g → pinv C s' → groups (heap s') g (mk_pg PORTGROUP_MAGIC (take (Z.to_nat count) (default [] ports_))) → Q (NO_ERROR, Some g) s') →
  pwp (port_group ports_ count group mem) Q s.
Proof.
  intros Hp Hf Hc Hl HQ1 HQ2. unfold port_group. destruct (Z.ltb_spec MAX_PORT_GROUP_COUNT count); [by pstep; apply HQ1|].
  destruct (negb (count =? 0) && bool_decide (ports_ = None)) eqn:E; [by pstep; apply HQ1|]. destruct (negb group); [by pstep; apply HQ1|].
  destruct mem as [g|]; [|by pstep; apply HQ1]. destruct (Hf g eq_refl) as (Hfg & HgC & Hwt).
  do 3 pstep. destruct (wql_init g (wqs s) (pv_wok _ _ _ _ Hp) Hwt) as (w' & Ew & Hw & Hr & Hk).
  unfold pwp at 1, init_wq, on_wqs, unit_res. cbn [wqs with_heap]. rewrite Ew. cbn [mbind res_bind heap write_port_list].
  set (s1 := mk_ports _ _ w'). assert (pinv C s1) as Hp1.
  { destruct Hp as [H1 H2 H3]. split; try done; [by apply hinv_new_group|]. simpl. intros x o Hx Ho.
    apply lookup_insert_Some in Hx as [[<- _]|[_ Hx]]; [done|]. eauto. }
  set (l := take _ _). assert (Z.of_nat (length l) = count ∧ ∀ p, p ∈ l → p ∉ C ∧ is_Some (heap s !! p)) as [Hlen Hlive].
  { unfold l. destruct ports_ as [l0|]; simpl.
    - destruct (Hl l0 eq_refl) as [? Hl0]. rewrite length_take. split; [lia|]. intros p Hin. apply Hl0. by eapply elem_of_take in Hin as (? & ?%list_elem_of_lookup_2 & _).
    - rewrite bool_decide_eq_true_2, andb_true_r in E by done. apply negb_false_iff, Z.eqb_eq in E as ->. split; [done|]. by intros p ?%elem_of_nil. }
  pstep. eapply pwp_lift; [by rewrite (proj2 (Z.eqb_eq _ _) Hlen)|]. pstep.
  apply (pwp_group_link C g l []); [done|apply lookup_insert_eq| |simpl; lia| |].
  - intros p Hin. destruct (Hlive p Hin) as [? Hs]. split; [done|]. simpl. rewrite lookup_insert_is_Some'. by right.
  - intros s' Hp' Hg'. cbv beta iota. change (NO_ERROR =? NO_ERROR) with true. cbv iota. pstep. by apply (HQ2 g).
  - intros s' Hp'. change (ERR_BAD_HANDLE =? NO_ERROR) with false. do 3 pstep. by apply HQ1.
Qed.

Lemma live_group C s g o :
  pinv C s → heap s !! g = Some o → (∀ wp, o = OWrite wp → w_magic wp ≠ PORTHOLD_MAGIC) → g ∉ C → obj_magic o = PORTGROUP_MAGIC → ∃ pg, o = OGroup pg.
Proof.
  intros Hp Ho Hh HC Hm. destruct o as [wp|rp|pg]; [by destruct (Hh wp eq_refl)| |eauto].
  destruct (hv_read _ _ _ (pv_heap _ _ _ _ Hp) g rp Ho HC) as [Hr _ _ _]. simpl in Hm. rewrite Hm in Hr. discriminate Hr.
Qed.

Lemma pwp_group_add C group port s Q :
  pinv C s → (∀ g, group = Some g → live C (heap s) g) → (∀ p, port = Some p → live C (heap s) p) →
  (∀ rc s', pinv C s' → Q rc s') → pwp (port_group_add group port) Q s.
Proof.
  intros Hp Hg Hl HQ. unfold port_group_add. destruct group as [g|]; [|by pstep; apply HQ]. destruct port as [p|]; [|by pstep; apply HQ].
  destruct (Hg g eq_refl) as (HgC & og & Hog & Hgh). destruct (Hl p eq_refl) as (HpC & op & Hop & _).
  pstep. unfold get_magic. do 3 pstep. cbv beta. destruct (Z.eqb_spec (obj_magic og) PORTGROUP_MAGIC) as [Em|Em]; cbn [negb]; [|by pstep; apply HQ].
  destruct (live_group C s g og Hp Hog Hgh HgC Em) as [pg ->]. do 2 pstep. cbv beta iota. destruct op as [wp|rp|pg']; [by pstep; apply HQ| |by pstep; apply HQ].
  destruct (negb _ || _) eqn:E; [by pstep; apply HQ|]. apply orb_false_iff in E as [_ E%bool_decide_eq_false]. apply dec_stable in E.
  do 2 pstep. destruct (Z.eqb_spec (Z.of_nat (length (g_rps pg))) MAX_PORT_GROUP_COUNT) as [|Hne]; [by pstep; apply HQ|].
  destruct (hv_group _ _ _ (pv_heap _ _ _ _ Hp) _ _ Hog) as [_ _ _ Hsz].
  destruct (hv_read _ _ _ (pv_heap _ _ _ _ Hp) p rp Hop HpC) as [_ (b & q & Eb & Hb) _ _].
  do 5 pstep. eapply pwp_lift; [by rewrite Eb|].
  assert (pinv C (with_heap (<[g := OGroup (mk_pg (g_magic pg) (g_rps pg ++ [p]))]> (<[p := ORead (set_gport (Some g) rp)]> (heap s))) s)) as Hp'
    by (apply pinv_join; try done; lia).
  pstep. cbv beta. destruct (buf_is_empty b); [by do 2 pstep; apply HQ|].
  eapply (pwp_wake_one wok ready waiters); [exact Hp'|by apply (pv_ready _ _ _ _ Hp g (OGroup pg))|].
  intros w' Hw' _. pstep. by apply HQ.
Qed.

Lemma pwp_group_remove C group port s Q :
  pinv C s → (∀ g, group = Some g → live C (heap s) g) → (∀ p, port = Some p → live C (heap s) p) →
  (∀ rc s', pinv C s' → Q rc s') → pwp (port_group_remove group port) Q s.
Proof.
  intros Hp Hg Hl HQ. unfold port_group_remove. destruct group as [g|]; [|by pstep; apply HQ]. destruct port as [p|]; [|by pstep; apply HQ].
  destruct (Hg g eq_refl) as (HgC & og & Hog & Hgh). destruct (Hl p eq_refl) as (HpC & op & Hop & _).
  pstep. unfold get_magic. do 3 pstep. cbv beta. destruct (Z.eqb_spec (obj_magic og) PORTGROUP_MAGIC) as [Em|Em]; cbn [negb]; [|by pstep; apply HQ].
  destruct (live_group C s g og Hp Hog Hgh HgC Em) as [pg ->]. do 2 pstep. cbv beta iota. destruct op as [wp|rp|pg']; [by pstep; apply HQ| |by pstep; apply HQ].
  destruct (negb _ || _) eqn:E; [by pstep; apply HQ|]. apply orb_false_iff in E as [_ E%bool_decide_eq_false]. apply dec_stable in E.
  do 2 pstep. destruct (negb (bool_decide (p ∈ g_rps pg))) eqn:Ein; [by pstep; apply HQ|]. apply negb_false_iff, bool_decide_eq_true in Ein.
  do 5 pstep. apply HQ. destruct Hp as [H1 H2 H3]. destruct (hv_group _ _ _ H2 _ _ Hog) as [_ Hn _ _].
  assert (g ≠ p) as Hne by congruence. split; try done; simpl.
  - apply (hinv_leave _ (heap s) _ _ g pg (.= p)); [done|done| |].
    + intros q Hq. destruct (decide (q = p)) as [->|Hqp].
      * left. split_and!; [done|done|]. intros rp' Hr'. assert (rp' = rp) as -> by (unfold reads in *; congruence). apply lookup_insert_eq.
      * right. split; [by intros [_ ?]|]. by rewrite !lookup_insert_ne.
    + right. exists (filter (.≠ p) (g_rps pg)). split_and!.
      * rewrite lookup_insert_ne by done. apply lookup_insert_eq.
      * by apply NoDup_filter.
      * apply length_filter.
      * intros q. rewrite list_elem_of_filter. naive_solver.
  - intros x o Hx Ho. apply lookup_insert_Some in Hx as [[<- _]|[_ Hx]]; [by apply (H3 _ (ORead rp))|].
    apply lookup_insert_Some in Hx as [[<- _]|[_ Hx]]; [by apply (H3 _ (OGroup pg))|]. eauto.
Qed.

(** * Destroying *)

(** The wait queues of the structures are there, whatever their links. *)
Definition queues_ok s : Prop := wok (wqs s) ∧ ∀ p o, heap s !! p = Some o → has_queue o → ready (wqs s) p.

Lemma pwp_wake_all' q code Q s :
  queues_ok s → ready (wqs s) q → (∀ n w', queues_ok (with_wqs w' s) → Q n (with_wqs w' s)) → pwp (wake_all q code) Q s.
Proof.
  intros [Hw Hq] Hr HQ. destruct (wql_all q code (wqs s) Hw Hr) as (w' & E & Hw' & _ & Hk). unfold pwp, wake_all, on_wqs. rewrite E.
  apply HQ. split; [done|]. simpl. eauto.
Qed.

Lemma pwp_destroy_readers l : ∀ s Q,
  queues_ok s → NoDup l →
  (∀ p, p ∈ l → ∃ rp, reads (heap s) p rp ∧ ∀ g, r_gport rp = Some g → ∃ pg, groups (heap s) g pg) →
  (∀ s', queues_ok s' → write_port_list s' = write_port_list s → (∀ p rp, p ∈ l → reads (heap s) p rp → reads (heap s') p (set_rwport None rp)) →
    (∀ x, x ∉ l → heap s' !! x = heap s !! x) → Q () s') →
  pwp (destroy_readers l) Q s.
Proof.
  induction l as [|p l IH]; intros s Q Hq Hn Hl HQ; cbn [destroy_readers].
  - pstep. apply HQ; try done. by intros p rp ?%elem_of_nil.
  - apply NoDup_cons in Hn as [Hpl Hn]. destruct (Hl p (list_elem_of_here _ _)) as (rp & Hr & Hg). do 3 pstep.
    apply pwp_wake_all'; [done|by apply (proj2 Hq p (ORead rp))|]. intros _ w1 Hq1. pstep.
    assert (∀ s2, queues_ok s2 → heap s2 = heap s → write_port_list s2 = write_port_list s →
      pwp (put_obj p (ORead (set_rwport None rp));; destroy_readers l) Q s2) as Hrest.
    { intros s2 Hq2 Eh El. do 2 pstep. rewrite Eh. apply IH; [|done| |].
      - destruct Hq2 as [Hw2 Hr2]. split; [done|]. simpl. intros x o Hx Ho. apply lookup_insert_Some in Hx as [[<- _]|[_ Hx]].
        + apply (Hr2 _ (ORead rp)); [|done]. by rewrite Eh.
        + apply (Hr2 _ o); [|done]. by rewrite Eh.
      - intros q Hin. destruct (Hl q (list_elem_of_further _ _ _ Hin)) as (rq & Hrq & Hgq). exists rq. simpl. split.
        + unfold reads in *. rewrite lookup_insert_ne; [done|]. by intros ->.
        + intros g Eg. destruct (Hgq g Eg) as [pg Hpg]. exists pg. unfold groups, reads in *. rewrite lookup_insert_ne; [done|]. intros ->. congruence.
      - intros s' Hq' El' H1 H2. apply HQ; [done|by rewrite El'| |].
        + intros q rq [->|Hin]%elem_of_cons Hrq.
          * unfold reads in *. rewrite H2 by done. simpl. rewrite lookup_insert_eq. congruence.
          * apply H1; [done|]. unfold reads in *. simpl. rewrite lookup_insert_ne; [done|]. by intros ->.
        + intros x Hx. apply not_elem_of_cons in Hx as [Hxp Hx]. rewrite H2 by done. simpl. by apply lookup_insert_ne. }
    destruct (r_gport rp) as [g|].
    + destruct (Hg g eq_refl) as [pg Hpg]. pstep. apply pwp_wake_all'; [done|by apply (proj2 Hq1 g (OGroup pg))|]. intros _ w2 Hq2. pstep. by apply Hrest.
    + pstep. by apply Hrest.
Qed.

Lemma pwp_destroy C port s Q :
  pinv C s → (∀ w, port = Some w → live C (heap s) w) →
  (∀ rc s', pinv C s' → Q rc s') → pwp (port_destroy port) Q s.
Proof.
  intros Hp Hl HQ. unfold port_destroy. destruct port as [w|]; [|by pstep; apply HQ]. destruct (Hl w eq_refl) as (HC & o & Ho & _).
  do 2 pstep. cbv beta iota. destruct o as [wp| |]; [|by pstep; apply HQ..]. destruct (negb _); [by pstep; apply HQ|].
  pose proof Hp as [H1 H2 H3]. destruct (hv_write _ _ _ H2 _ _ Ho) as [Hs Hn Hr _]. do 3 pstep.
  assert (∀ s', queues_ok s' → write_port_list s' = filter (.≠ w) (write_port_list s) →
    (∀ p rp, p ∈ w_rps wp → reads (heap s) p rp → reads (heap s') p (set_rwport None rp)) →
    (∀ x, x ∉ w_rps wp → heap s' !! x = heap s !! x) → pwp (free_obj w;; mret NO_ERROR) Q s') as Hend.
  { intros s' [Hw' Hr'] El Hin Hout. do 3 pstep. apply HQ. split; [done| |]; simpl.
    - rewrite El. apply (hinv_destroy _ (heap s) _ _ w wp); [done|done|apply lookup_delete_eq| |].
      + intros q Hq rp Hrp. unfold reads. rewrite lookup_delete_ne; [by apply Hin|]. intros ->. unfold reads in Hrp. congruence.
      + intros q Hq Hne. rewrite lookup_delete_ne by done. by apply Hout.
    - intros x ox [_ Hx]%lookup_delete_Some. eauto. }
  destruct (w_buf wp) as [b|] eqn:Eb.
  - pstep. apply Hend; [done|done| |done]. destruct Hs as [(_ & ? & _)|[_ [(? & ? & _ & _ & Er)|[? _]]]]; [congruence| |congruence].
    rewrite Er. by intros p rp ?%elem_of_nil.
  - apply pwp_destroy_readers; [done|done| |done]. intros p Hin. destruct (Hr p Hin) as (HpC & rp & Hrp & _). exists rp. split; [done|].
    intros g Eg. destruct (hv_read _ _ _ H2 _ _ Hrp HpC) as [_ _ _ Hg]. destruct (Hg g Eg) as (pg & ? & _). eauto.
Qed.

(** * Closing *)

(** Which handles are being closed matters for read ports alone. *)
Lemma hinv_closing C C' h l : hinv C h l → (∀ p rp, reads h p rp → p ∈ C ↔ p ∈ C') → hinv C' h l.
Proof.
  intros [H1 H2 H3 H4 H5 H6] HC. split; try done.
  - intros w wp Hw. destruct (H4 w wp Hw) as [K1 K2 K3 K4]. split; try done. intros p Hp. destruct (K3 p Hp) as (? & rp & Hr & ?).
    split; [|by exists rp]. by rewrite <- HC.
  - intros p rp Hr Hp. apply H5; [done|]. by rewrite HC.
  - intros g pg Hg. destruct (H6 g pg Hg) as [K1 K2 K3 K4]. split; try done. intros p Hp. destruct (K3 p Hp) as (? & rp & Hr & ?).
    split; [|by exists rp]. by rewrite <- HC.
Qed.

Lemma filter_absent (p : nat) (l : list nat) : p ∉ l → filter (.≠ p) l = l.
Proof.
  induction l as [|x l IH]; intros H; [done|]. apply not_elem_of_cons in H as [H1 H2]. rewrite filter_cons_True by done. by rewrite IH.
Qed.

(** What does not know the read port is as before. *)
Lemma unlinked_other C s p rp q o :
  pinv C s → reads (heap s) p rp → heap s !! q = Some o → Some q ≠ r_wport rp → Some q ≠ r_gport rp → unlinked p q o o.
Proof.
  intros Hp Hr Hq Hw Hg. destruct o as [wp|rq|pg]; simpl; [|done|].
  - destruct (hv_write _ _ _ (pv_heap _ _ _ _ Hp) q wp Hq) as [Hs _ Hrps _]. rewrite filter_absent; [done|].
    intros Hin. destruct (Hrps p Hin) as (_ & rp' & Hr' & E). unfold reads in *. congruence.
  - destruct (hv_group _ _ _ (pv_heap _ _ _ _ Hp) q pg Hq) as [_ _ Hrps _]. rewrite filter_absent; [by destruct pg|].
    intros Hin. destruct (Hrps p Hin) as (_ & rp' & Hr' & E). unfold reads in *. congruence.
Qed.

(** The write port that loses its last reader has the buffer of that reader. *)
Lemma unlinked_writer C s p rp w wp :
  pinv C s → p ∉ C → reads (heap s) p rp → writes (heap s) w wp → p ∈ w_rps wp →
  let l := filter (.≠ p) (w_rps wp) in
  unlinked p w (OWrite wp) (OWrite (if bool_decide (l = []) then set_wbuf (r_buf rp) (set_wrps l wp) else set_wrps l wp)).
Proof.
  intros Hp HC Hr Hw Hin l. destruct (hv_write _ _ _ (pv_heap _ _ _ _ Hp) w wp Hw) as [Hs _ _ _].
  destruct (hv_read _ _ _ (pv_heap _ _ _ _ Hp) p rp Hr HC) as [_ (b & q & Eb & Hb) _ _].
  destruct Hs as [(_ & _ & E)|[Hm [(? & ? & _ & _ & E)|[En _]]]]; [rewrite E in Hin; by apply elem_of_nil in Hin..|].
  case_bool_decide as El; simpl; split_and!; try done; right; (split; [done|]); simpl; [left; by exists b, q|by right].
Qed.

(** The heap after a read port has left its write port and its group. *)
Definition unlink_heap (p : nat) (rp : read_port) (h h' : gmap nat port_obj) : Prop :=
  (∀ q o, h !! q = Some o → ∃ o', h' !! q = Some o' ∧ unlinked p q o o') ∧ (∀ q, is_Some (h' !! q) → is_Some (h !! q)) ∧
  (∀ w wp, r_wport rp = Some w → writes h w wp → filter (.≠ p) (w_rps wp) = [] →
    writes h' w (set_wbuf (r_buf rp) (set_wrps [] wp))).

Lemma pinv_unlink C s h' p rp : pinv C s → unlink_heap p rp (heap s) h' → pinv (C ∪ {[p]}) (with_heap h' s).
Proof.
  intros [H1 H2 H3] (Hf & Hb & _). split; try done; simpl; [by eapply hinv_unlink|].
  intros q o' Hq Ho. destruct (Hb q) as [o Hq']; [eauto|]. destruct (Hf q o Hq') as (o2 & Hq2 & Hu).
  apply (H3 q o Hq'). assert (o2 = o') as -> by congruence. by destruct o, o'.
Qed.

(** The part of [port_close] that takes the read port out of its write port. *)
Lemma pwp_leave_writer C p rp s Q :
  pinv C s → p ∉ C → reads (heap s) p rp →
  (∀ h', (∀ q, Some q ≠ r_wport rp → q ≠ p → h' !! q = heap s !! q) →
    (∀ q o, heap s !! q = Some o → Some q = r_wport rp ∨ q = p → ∃ o', h' !! q = Some o' ∧ unlinked p q o o') →
    (∀ w wp, r_wport rp = Some w → writes (heap s) w wp → filter (.≠ p) (w_rps wp) = [] → writes h' w (set_wbuf (r_buf rp) (set_wrps [] wp))) →
    (∀ q, is_Some (h' !! q) → is_Some (heap s !! q)) → Q () (with_heap h' s)) →
  pwp match r_wport rp with
      | Some w =>
          wp ← get_wp w;
          let l := filter (.≠ p) (w_rps wp) in
          if bool_decide (l = []) then
            put_obj w (OWrite (set_wbuf (r_buf rp) (set_wrps l wp)));;
            put_obj p (ORead (set_rbuf None rp))
          else put_obj w (OWrite (set_wrps l wp))
      | None => mret ()
      end Q s.
Proof.
  intros Hp HC Hr HQ. destruct (hv_read _ _ _ (pv_heap _ _ _ _ Hp) p rp Hr HC) as [_ _ Hw _]. destruct (r_wport rp) as [w|] eqn:Ew; last first.
  { pstep. destruct s. apply (HQ heap); try done. intros q o Hq [?| ->]; [done|]. exists o. split; [done|]. unfold reads in Hr. simpl in *.
    assert (o = ORead rp) as -> by congruence. done. }
  destruct (Hw w eq_refl) as (wp & Hwp & Hin). assert (w ≠ p) as Hne by (unfold reads, writes in *; congruence).
  pose proof (unlinked_writer C s p rp w wp Hp HC Hr Hwp Hin) as Hu. cbv zeta in Hu. do 2 pstep. cbv beta zeta.
  case_bool_decide as El; repeat pstep.
  - apply (HQ (<[p := _]> (<[w := _]> (heap s)))).
    + intros q Hq Hqp. rewrite !lookup_insert_ne; [done|congruence|done].
    + intros q o Hq [[= ->]| ->].
      * rewrite lookup_insert_ne, lookup_insert_eq by done. eexists. split; [done|]. unfold writes in Hwp. assert (o = OWrite wp) as -> by congruence. done.
      * rewrite lookup_insert_eq. eexists. split; [done|]. unfold reads in Hr. assert (o = ORead rp) as -> by congruence. by intros [].
    + intros w2 wp2 [= <-] Hwp2 _. assert (wp2 = wp) as -> by (unfold writes in *; congruence). unfold writes. rewrite lookup_insert_ne, lookup_insert_eq by done. by rewrite El.
    + intros q. rewrite !lookup_insert_is_Some'. intros [<-|[<-|?]]; [by exists (ORead rp)|by exists (OWrite wp)|done].
  - apply (HQ (<[w := _]> (heap s))).
    + intros q Hq Hqp. rewrite lookup_insert_ne; [done|congruence].
    + intros q o Hq [[= ->]| ->].
      * rewrite lookup_insert_eq. eexists. split; [done|]. unfold writes in Hwp. assert (o = OWrite wp) as -> by congruence. done.
      * rewrite lookup_insert_ne by done. exists o. split; [done|]. unfold reads in Hr. assert (o = ORead rp) as -> by congruence. done.
    + intros w2 wp2 [= <-] Hwp2 El2. assert (wp2 = wp) as -> by (unfold writes in *; congruence). done.
    + intros q. rewrite lookup_insert_is_Some'. intros [<-|?]; [by exists (OWrite wp)|done].
Qed.

Lemma pwp_close_read C p rp s Q :
  pinv C s → p ∉ C → reads (heap s) p rp →
  (∀ h', unlink_heap p rp (heap s) h' → pinv (C ∪ {[p]}) (with_heap h' s) → Q None (with_heap h' s)) →
  pwp (port_close_begin (Some p)) Q s.
Proof.
  intros Hp HC Hr HQ. destruct (hv_read _ _ _ (pv_heap _ _ _ _ Hp) p rp Hr HC) as [Hm _ _ Hg]. unfold port_close_begin. do 2 pstep. cbv beta iota.
  rewrite Hm. change (negb (READPORT_MAGIC =? READPORT_MAGIC)) with false. cbv iota. pstep.
  apply (pwp_leave_writer C); [done..|]. intros h' Ho Hu Hl Hb. cbv beta. pstep. 
  assert (∀ h2, unlink_heap p rp (heap s) h2 → Q None (with_heap h2 s)) as Hfin by (intros h2 ?; apply HQ; [done|by eapply pinv_unlink]).
  destruct (r_gport rp) as [g|] eqn:Eg.
  - destruct (Hg g eq_refl) as (pg & Hpg & Hin). unfold groups, reads in Hpg, Hr.
    assert (g ≠ p ∧ Some g ≠ r_wport rp) as [Hgp Hgw].
    { split; [congruence|]. intros E. destruct (hv_read _ _ _ (pv_heap _ _ _ _ Hp) p rp Hr HC) as [_ _ Hw _].
      destruct (Hw g (eq_sym E)) as (wp & Hwp & _). unfold writes in Hwp. congruence. }
    pstep. eapply pwp_get_pg; [unfold groups; simpl; by rewrite Ho|]. do 2 pstep. apply (Hfin (<[g := OGroup (mk_pg (g_magic pg) (filter (.≠ p) (g_rps pg)))]> h')). split_and!.
    + intros q o Hq. destruct (decide (q = g)) as [->|Hqg].
      { rewrite lookup_insert_eq. eexists. split; [done|]. assert (o = OGroup pg) as -> by congruence. done. }
      rewrite lookup_insert_ne by done. destruct (decide (Some q = r_wport rp ∨ q = p)) as [Hc|Hc]; [by apply Hu|].
      apply Decidable.not_or in Hc as [Hc1 Hc2]. rewrite Ho by done. exists o. split; [done|]. apply (unlinked_other C s p rp q o); try done. rewrite Eg. congruence.
    + intros q. rewrite lookup_insert_is_Some'. intros [<-|?]; [by exists (OGroup pg)|auto].
    + intros w wp Ew Hwp El. unfold writes. rewrite lookup_insert_ne by congruence. by eapply Hl.
  - do 2 pstep. apply Hfin. split_and!; [|done|done]. intros q o Hq. destruct (decide (Some q = r_wport rp ∨ q = p)) as [Hc|Hc]; [by apply Hu|].
    apply Decidable.not_or in Hc as [Hc1 Hc2]. rewrite Ho by done. exists o. split; [done|]. apply (unlinked_other C s p rp q o); try done. by rewrite Eg.
Qed.

Lemma pwp_close_begin C port s Q :
  pinv C s → (∀ p, port = Some p → live C (heap s) p) → (∀ rc s', pinv C s' → Q (Some rc) s') →
  (∀ p o s', port = Some p → heap s' !! p = Some o → has_queue o → pinv (C ∪ {[p]}) s' → Q None s') →
  pwp (port_close_begin port) Q s.
Proof.
  intros Hp Hl HQ1 HQ2. destruct port as [p|]; [|by unfold port_close_begin; pstep; apply HQ1]. destruct (Hl p eq_refl) as (HC & o & Ho & Hh).
  destruct o as [wp|rp|pg].
  - unfold port_close_begin. do 2 pstep. cbv beta iota. destruct (Z.eqb_spec (w_magic wp) WRITEPORT_MAGIC_W) as [Em|]; [|by pstep; apply HQ1].
    do 3 pstep. apply HQ1. pose proof Hp as [H1 H2 H3]. split; try done; simpl.
    + apply (hinv_wp _ _ _ _ wp); try done. destruct (hv_write _ _ _ H2 _ _ Ho) as [Hs _ _ _].
      destruct Hs as [[Hm _]|[_ Hs]]; [rewrite Em in Hm; discriminate Hm|]. right. split; [by right|done].
    + intros x o Hx Hq. apply lookup_insert_Some in Hx as [[_ <-]|[_ Hx]]; [done|]. eauto.
  - apply (pwp_close_read C p rp); [done..|]. intros h' (Hf & _) Hp'. destruct (Hf _ _ Ho) as (o' & Ho' & Hu).
    apply (HQ2 p o'); try done. by destruct o'.
  - unfold port_close_begin. do 2 pstep. cbv beta iota. destruct (g_magic pg =? PORTGROUP_MAGIC); pstep; [|by apply HQ1].
    apply (HQ2 p (OGroup pg)); try done. destruct Hp as [H1 H2 H3]. split; try done. apply (hinv_closing C); [done|].
    intros q rq Hq. assert (q ≠ p) by (intros ->; unfold reads in Hq; congruence). set_solver.
Qed.

Lemma pinv_retire C s p h' w' :
  pinv C (with_heap (delete p h') s) → wok w' → (∀ q, q ≠ p → ready (wqs s) q → ready w' q) →
  pinv (C ∖ {[p]}) (with_heap (delete p h') (with_wqs w' s)).
Proof.
  intros [H1 H2 H3] Hw Hr. split; try done; simpl in *.
  - apply (hinv_closing C); [done|]. intros q rq [Hne _]%lookup_delete_Some. set_solver.
  - intros q o Hq Ho. apply Hr; [by apply lookup_delete_Some in Hq as [? _]|]. eauto.
Qed.

Lemma pwp_close_end C p o s Q :
  pinv C s → p ∈ C → heap s !! p = Some o → has_queue o → waiters (wqs s) p = [] →
  (∀ s', pinv (C ∖ {[p]}) s' → heap s' !! p = None → Q NO_ERROR s') → pwp (port_close_end p) Q s.
Proof.
  intros Hp HC Ho Hq Hwt HQ. destruct (wql_retire p (wqs s) (pv_wok _ _ _ _ Hp) (pv_ready _ _ _ _ Hp p o Ho Hq) Hwt) as (w' & Ew & Hw & Hk).
  unfold port_close_end. pstep. unfold pwp at 1, retire_wq, on_wqs, unit_res. rewrite Ew. cbn [mbind res_bind]. fold (with_wqs w' s).
  pstep. apply (pwp_get_obj p o); [done|]. cbv beta. pstep. destruct o as [wp|rp|pg]; [done| |].
  - do 4 pstep. apply HQ; [|apply lookup_delete_eq]. destruct Hp as [H1 H2 H3]. split; simpl; [done|by eapply hinv_close_end|].
    intros q o [Hne Hq']%lookup_delete_Some Ho'. apply Hk; [done|]. eauto.
  - destruct (hv_group _ _ _ (pv_heap _ _ _ _ Hp) _ _ Ho) as [_ Hn Hrps _]. apply pwp_group_undo; [done| |].
    + intros q Hin. destruct (Hrps q Hin) as (_ & rq & ? & _). by exists rq.
    + intros h' Hm Hother. do 3 pstep. apply HQ; [|apply lookup_delete_eq]. apply (pinv_retire C s p h' w'); [|done|done].
      by eapply pinv_free_group.
Qed.

(** * Calls in any order *)

(** The calls, those that give up the lock in several steps. *)
Inductive port_call :=
| CallCreateBegin (hold : nat) (name : option string) (mode : Z) (port : bool)
| CallCreateEnd (hold : nat) (name : string) (mode : Z) (mem : option nat) (malloc : bool)
| CallOpen (name : option string) (ctx : Z) (port : bool) (mem : option nat) (malloc : bool)
| CallGroup (ports_ : option (list nat)) (count : Z) (group : bool) (mem : option nat)
| CallGroupAdd (group port : option nat)
| CallGroupRemove (group port : option nat)
| CallWrite (port : option nat) (pk : option (list packet))
| CallRead (port : option nat) (timeout : Z) (result : bool)
| CallReadWoken (port : nat) (timeout wr : Z)
| CallDestroy (port : option nat)
| CallCloseBegin (port : option nat)
| CallCloseEnd (p : nat).

(** Runs a call and returns the handles that are being closed after it. *)
Definition run_port_call C (c : port_call) : P W (gset nat) :=
  match c with
  | CallCreateBegin hold name mode port => port_create_begin hold name mode port;; mret C
  | CallCreateEnd hold name mode mem malloc => port_create_end hold name mode mem malloc;; mret C
  | CallOpen name ctx port mem malloc => port_open name ctx port mem malloc;; mret C
  | CallGroup ps count group mem => port_group ps count group mem;; mret C
  | CallGroupAdd group port => port_group_add group port;; mret C
  | CallGroupRemove group port => port_group_remove group port;; mret C
  | CallWrite port pk => port_write port pk;; mret C
  | CallRead port timeout result => port_read port timeout result;; mret C
  | CallReadWoken port timeout wr => port_read_woken port timeout wr;; mret C
  | CallDestroy port => port_destroy port;; mret C
  | CallCloseBegin port =>
      r ← port_close_begin port;
      mret match r, port with None, Some p => C ∪ {[p]} | _, _ => C end
  | CallCloseEnd p => port_close_end p;; mret (C ∖ {[p]})
  end.

(** What the callers respect: handles are live when the call gets the lock, also
    again after a wait; memory is new; the second part of a creation follows its
    first part, and a wait queue is destroyed when nobody waits on it. *)
Definition port_call_ok C s (c : port_call) : Prop :=
  match c with
  | CallCreateBegin hold _ _ _ => heap s !! hold = None
  | CallCreateEnd hold name _ mem _ => reserved (heap s) hold name ∧ ∀ p, mem = Some p → heap s !! p = None
  | CallOpen _ _ _ mem _ => fresh C s mem
  | CallGroup ps count _ mem =>
      fresh C s mem ∧ 0 ≤ count ∧ ∀ l, ps = Some l → count ≤ Z.of_nat (length l) ∧ ∀ p, p ∈ l → live C (heap s) p
  | CallGroupAdd group port | CallGroupRemove group port =>
      (∀ g, group = Some g → live C (heap s) g) ∧ ∀ p, port = Some p → live C (heap s) p
  | CallWrite port _ | CallRead port _ _ | CallDestroy port | CallCloseBegin port => ∀ p, port = Some p → live C (heap s) p
  | CallReadWoken p _ _ => readable C (heap s) p
  | CallCloseEnd p => p ∈ C ∧ (∃ o, heap s !! p = Some o ∧ has_queue o) ∧ waiters (wqs s) p = []
  end.

Lemma pwp_write_live C port pk s Q :
  pinv C s → (∀ w, port = Some w → live C (heap s) w) → (∀ r s', pinv C s' → Q r s') → pwp (port_write port pk) Q s.
Proof.
  intros Hp Hl HQ. destruct port as [w|]; [|by unfold port_write; pstep; apply HQ]. destruct pk as [pk|]; [|by unfold port_write; pstep; apply HQ].
  destruct (Hl w eq_refl) as (HC & o & Ho & _).
  destruct o as [wp| |]; [|unfold port_write; do 2 pstep; cbv beta iota; pstep; by apply HQ..].
  destruct (Z.eqb_spec (w_magic wp) WRITEPORT_MAGIC_W) as [Em|Em].
  - apply (pwp_port_write wok ready waiters C w wp); auto.
  - unfold port_write. do 2 pstep. cbv beta iota. rewrite (proj2 (Z.eqb_neq _ _) Em). cbn [negb]. pstep. by apply HQ.
Qed.

Lemma pwp_read_live C p timeout s Q :
  pinv C s → live C (heap s) p → (∀ r s', pinv C s' → Q r s') → pwp (port_read (Some p) timeout true) Q s.
Proof.
  intros Hp (HC & o & Ho & Hh) HQ.
  assert (readable C (heap s) p → pwp (port_read (Some p) timeout true) Q s) as Hgo.
  { intros Hr. apply (pwp_port_read wok ready C); [done|done|]. apply (pwp_read_attempt wok ready waiters C); auto. }
  destruct o as [wp|rp|pg]; [|apply Hgo; split; [done|left; by exists rp]|apply Hgo; split; [done|right; by exists pg]].
  unfold port_read, get_magic. cbn [negb]. do 4 pstep. cbn [obj_magic].
  destruct (hv_write _ _ _ (pv_heap _ _ _ _ Hp) _ _ Ho) as [Hs _ _ _]. specialize (Hh wp eq_refl).
  assert ((w_magic wp =? READPORT_MAGIC) || (w_magic wp =? PORTGROUP_MAGIC) = false) as ->.
  { destruct Hs as [[? _]|[[Hm|Hm] _]]; [done|by rewrite Hm..]. }
  pstep. by apply HQ.
Qed.

Lemma run_port_call_ok C c s : pinv C s → port_call_ok C s c → pwp (run_port_call C c) (λ C' s', pinv C' s') s.
Proof.
  intros Hp Hc. destruct c as [hold name mode port|hold name mode mem malloc|name ctx port mem malloc|ps count group mem|group port|group port
    |port pk|port timeout result|p timeout wr|port|port|p]; simpl in *; pstep.
  - apply (pwp_create_begin wok ready waiters C); [done|done| |]; intros; by pstep.
  - destruct Hc. apply (pwp_create_end wok ready C); [done|done|done| |]; intros; by pstep.
  - apply (pwp_open C); [done|done| |]; intros; by pstep.
  - destruct Hc as (Hf & Hcount & Hl). apply (pwp_group C); [done|done|done| | |]; [|intros; by pstep..].
    intros l ->. destruct (Hl l eq_refl) as [? Hlive]. split; [done|]. intros p Hin. destruct (Hlive p Hin) as (? & o & ? & _). by split; [|exists o].
  - destruct Hc. apply (pwp_group_add C); [done|done|done|]. intros; by pstep.
  - destruct Hc. apply (pwp_group_remove C); [done|done|done|]. intros; by pstep.
  - apply (pwp_write_live C); [done|done|]. intros; by pstep.
  - destruct port as [p|]; [|by unfold port_read; do 2 pstep]. destruct result; [|by unfold port_read; cbn [negb]; do 2 pstep].
    apply (pwp_read_live C); [done|by apply Hc|]. intros; by pstep.
  - unfold port_read_woken. destruct (wr =? NO_ERROR); [|by do 2 pstep].
    apply (pwp_read_attempt wok ready waiters C); [done|done| |].
    + intros. by pstep.
    + intros _. by pstep.
  - apply (pwp_destroy C); [done|done|]. intros; by pstep.
  - apply (pwp_close_begin C); [done|done| |].
    + intros rc s' Hp'. pstep. by destruct port.
    + intros p o s' -> _ _ Hp'. by pstep.
  - destruct Hc as (HC & (o & Ho & Hq) & Hw). apply (pwp_close_end C p o); [done..|]. intros; by pstep.
Qed.


(** A read of a live read port or group takes the oldest packet of the first of
    its ports that has one, with the context of that port, and changes nothing
    else; if none has one it times out or waits on its own queue, and changes
    nothing. *)
Theorem port_read_takes_oldest C s p timeout :
  pinv C s → readable C (heap s) p →
  ∃ r s', port_read (Some p) timeout true s = Ok (r, s') ∧ pinv C s' ∧
    ((∃ l1 q l2 ctx pk, sources (heap s) p = l1 ++ q :: l2 ∧ Forall (idle (heap s)) l1 ∧ took (heap s) (heap s') q ctx pk ∧
        r = Returned NO_ERROR (Some (ctx, pk))) ∨
     (Forall (idle (heap s)) (sources (heap s) p) ∧ s' = s ∧
        r = if negb (is_group (heap s) p) && (timeout =? 0) then Returned ERR_TIMED_OUT None else Blocked p)).
Proof.
  intros Hp Hr.
  assert (pwp (port_read (Some p) timeout true) (λ r s', pinv C s' ∧
    ((∃ l1 q l2 ctx pk, sources (heap s) p = l1 ++ q :: l2 ∧ Forall (idle (heap s)) l1 ∧ took (heap s) (heap s') q ctx pk ∧
        r = Returned NO_ERROR (Some (ctx, pk))) ∨
     (Forall (idle (heap s)) (sources (heap s) p) ∧ s' = s ∧
        r = if negb (is_group (heap s) p) && (timeout =? 0) then Returned ERR_TIMED_OUT None else Blocked p))) s) as H.
  { apply (pwp_port_read wok ready C); [done|done|]. apply (pwp_read_attempt wok ready waiters C); [done|done| |].
    - intros l1 q l2 ctx pk s' E Hf Hp' _ Ht. split; [done|]. left. by exists l1, q, l2, ctx, pk.
    - intros Hf. split; [done|]. by right. }
  unfold pwp in H. destruct (port_read _ _ _ s) as [[r s']|]; [|done]. by exists r, s'.
Qed.

(** [n] reads without waiting. *)
Fixpoint drain (p n : nat) : P W (list read_outcome) :=
  match n with
  | O => mret []
  | S n => r ← port_read (Some p) 0 true; l ← drain p n; mret (r :: l)
  end.

(** A read port that has the packets [l]. *)
Definition queued (h : gmap nat port_obj) (p : nat) (ctx : Z) (l : list packet) : Prop :=
  ∃ rp b, reads h p rp ∧ r_ctx rp = ctx ∧ r_buf rp = Some b ∧ holds b l.

Lemma holds_det b l1 : ∀ l2, holds b l1 → holds b l2 → l1 = l2.
Proof.
  intros l2 [H1 E1] [H2 E2]. assert (length l1 = length l2) as Hlen by lia. apply list_eq. intros i.
  destruct (l1 !! i) as [x|] eqn:Ex.
  - destruct (lookup_lt_is_Some_2 l2 i) as [y Ey]; [apply lookup_lt_Some in Ex; lia|]. rewrite Ey.
    pose proof (rg_cell _ _ H1 i x Ex) as C1. pose proof (rg_cell _ _ H2 i y Ey) as C2. congruence.
  - apply lookup_ge_None in Ex. symmetry. apply lookup_ge_None. lia.
Qed.

Lemma pwp_drain C p ctx l l' : ∀ s Q,
  pinv C s → p ∉ C → queued (heap s) p ctx (l ++ l') →
  (∀ s', pinv C s' → queued (heap s') p ctx l' → Q ((λ pk, Returned NO_ERROR (Some (ctx, pk))) <$> l) s') →
  pwp (drain p (length l)) Q s.
Proof.
  induction l as [|pk l IH]; intros s Q Hp HC Hq HQ; cbn [drain length].
  - pstep. by apply HQ.
  - destruct Hq as (rp & b & Hr & Ec & Eb & Hb). pstep.
    apply (pwp_port_read wok ready C); [done|split; [done|left; by exists rp]|]. unfold port_read_attempt. do 2 pstep. cbv beta iota.
    apply (pwp_read_no_lock wok ready C); [done|by exists rp|done| | |done].
    + intros ctx' pk' s' Hp' _ ((rp' & b1 & b' & q & Hr' & Ec' & Eb' & Hb' & Hr2 & Hb2) & _).
      assert (rp' = rp) as -> by (unfold reads in *; congruence). assert (b1 = b) as -> by congruence.
      injection (holds_det _ _ _ Hb Hb') as -> <-. pstep. apply IH; [done|done| |].
      * by exists (set_rbuf (Some b') rp), b'.
      * intros s2 Hp2 Hq2. pstep. rewrite <- Ec', Ec. by apply HQ.
    + intros (rp' & b' & Hr' & Eb' & Hb') _. assert (rp' = rp) as -> by (unfold reads in *; congruence). assert (b' = b) as -> by congruence.
      discriminate (holds_det _ _ _ Hb Hb').
Qed.

(** C28: Packets written to a port with one reader are read by it in the order they
    were written, behind those it had, as long as they fit. *)
Theorem port_write_read_roundtrip C s w wp p ctx pk l :
  pinv C s → writes (heap s) w wp → w_magic wp = WRITEPORT_MAGIC_W → w_rps wp = [p] → queued (heap s) p ctx l →
  has_room (heap s) (length pk) p = true →
  ∃ yield s1 s2, port_write (Some w) (Some pk) s = Ok (NO_ERROR, yield, s1) ∧
    drain p (length (l ++ pk)) s1 = Ok ((λ x, Returned NO_ERROR (Some (ctx, x))) <$> (l ++ pk), s2) ∧ queued (heap s2) p ctx [].
Proof.
  intros Hp Hw Em Er Hq Hroom. destruct (hv_write _ _ _ (pv_heap _ _ _ _ Hp) _ _ Hw) as [Hs _ Hrps _]. destruct (Hrps p) as [HC _]; [rewrite Er; set_solver|].
  assert (w_buf wp = None) as En by (destruct Hs as [(_ & ? & _)|[_ [(? & ? & _ & _ & ?)|[? _]]]]; congruence).
  assert (pwp (port_write (Some w) (Some pk)) (λ r s1, fst r = NO_ERROR ∧ pinv C s1 ∧ queued (heap s1) p ctx (l ++ pk)) s) as H.
  { apply (pwp_port_write wok ready waiters C w wp); [done..|intros; congruence|]. intros yield s1 _ Hp1 _ Hd. rewrite Er in *. simpl. rewrite Hroom.
    split_and!; [done..|]. destruct (Hd p (list_elem_of_here _ _)) as (rp & b & b' & q & Hr & Eb & Hb & Hr' & Hb'). rewrite Hroom in Hb'.
    destruct Hq as (rp0 & b0 & Hr0 & Ec & Eb0 & Hb0). assert (rp0 = rp) as -> by (unfold reads in *; congruence). assert (b0 = b) as -> by congruence.
    rewrite (holds_det _ _ _ Hb0 Hb). by exists (set_rbuf (Some b') rp), b'. }
  unfold pwp in H. destruct (port_write _ _ s) as [[[rc yield] s1]|]; [|done]. destruct H as (E & Hp1 & Hq1). simpl in E. subst rc.
  pose proof (pwp_drain C p ctx (l ++ pk) [] s1 (λ r s', r = ((λ x, Returned NO_ERROR (Some (ctx, x))) <$> (l ++ pk)) ∧ queued (heap s') p ctx [])) as H.
  rewrite app_nil_r in H. specialize (H Hp1 HC Hq1 ltac:(by intros)). unfold pwp in H.
  destruct (drain _ _ s1) as [[r s2]|] eqn:Ed; [|done]. destruct H as [-> H]. by exists yield, s1, s2.
Qed.
End more.
