(* ===== verification/Miniheap.v ===== *)
(** The heap: [lib/heap/miniheap/miniheap.c].

    A free chunk is its address and length, so the singly linked free list is
    the list of these in list order.  The header in front of an allocation is a
    map from the header's address to the base and size it records.  The bytes of
    the allocations are a function from addresses, of which only [memcpy]
    matters here.  The page allocator is an argument: [page_alloc n] is what it
    returns for [n] pages.  The debug build options [DEBUG_HEAP] and
    [MINIHEAP_AUTOTRIM] are off, as in the source. *)
From stdpp Require Import prelude gmap sorting.
From S2P Require Import Prelude Pow2 Bytes Pmm.

#[local] Open Scope Z_scope.

(** * Data *)

Definition chunk : Type := Z * Z.

Record heap := mk_heap {
  base : Z;
  len : Z;
  remaining : Z;
  low_watermark : Z;
  free_list : list chunk;
  allocs : gmap Z (Z * Z);
  data : Z → Z;
}.

Definition set_free_list (l : list chunk) (h : heap) : heap :=
  mk_heap (base h) (len h) (remaining h) (low_watermark h) l (allocs h) (data h).
Definition set_remaining (r : Z) (h : heap) : heap :=
  mk_heap (base h) (len h) r (low_watermark h) (free_list h) (allocs h) (data h).
Definition set_low (w : Z) (h : heap) : heap :=
  mk_heap (base h) (len h) (remaining h) w (free_list h) (allocs h) (data h).
Definition set_allocs (m : gmap Z (Z * Z)) (h : heap) : heap :=
  mk_heap (base h) (len h) (remaining h) (low_watermark h) (free_list h) m (data h).
Definition set_range (b l : Z) (h : heap) : heap :=
  mk_heap b l (remaining h) (low_watermark h) (free_list h) (allocs h) (data h).
Definition set_data (d : Z → Z) (h : heap) : heap :=
  mk_heap (base h) (len h) (remaining h) (low_watermark h) (free_list h) (allocs h) d.

(** Two pointers, which is also the size of both headers. *)
Definition HEAP_ALIGN : Z := 16.
Definition sizeof_chunk : Z := 16.
Definition sizeof_begin : Z := 16.

(** * Checks *)

Definition heap_range_contains (h : heap) (addr n : Z) : bool :=
  let heap_start := base h in
  let heap_end := u64 (heap_start + len h) in
  if heap_end <? heap_start then false
  else if (addr <? heap_start) || (heap_end <? addr) then false
  else if heap_end <? u64 (addr + n) then false
  else true.

Definition heap_validate_allocation (h : heap) (a : Z * Z) : bool := heap_range_contains h a.1 a.2.

(** * Free chunks *)

Definition heap_create_free_chunk (ptr n : Z) : res chunk :=
  assert_ (n `mod` HEAP_ALIGN =? 0);;
  assert_ (sizeof_chunk <=? n);;
  Ok (ptr, n).

(** The walk to the insertion point: what comes before the chunk and after. *)
Fixpoint split_at (addr : Z) (l : list chunk) : list chunk * list chunk :=
  match l with
  | [] => ([], [])
  | c :: l' => if c.1 <? addr then let '(before, after) := split_at addr l' in (c :: before, after) else ([], l)
  end.

Definition merge_prev (before : list chunk) (c : chunk) : list chunk * chunk :=
  match last before with
  | Some p => if u64 (p.1 + p.2) =? c.1 then (removelast before, (p.1, u64 (p.2 + c.2))) else (before, c)
  | None => (before, c)
  end.

Definition merge_next (c : chunk) (after : list chunk) : chunk * list chunk :=
  match after with
  | n :: after' => if u64 (c.1 + c.2) =? n.1 then ((c.1, u64 (c.2 + n.2)), after') else (c, after)
  | [] => (c, after)
  end.

Definition heap_insert_free_chunk (c : chunk) (h : heap) : res (Z * heap) :=
  let h := set_remaining (u64 (remaining h + c.2)) h in
  let '(before, after) := split_at c.1 (free_list h) in
  assert_ (match after with [] => true | n :: _ => u64 (c.1 + c.2) <=? n.1 end);;
  let '(before, c) := merge_prev before c in
  let '(c, after) := merge_next c after in
  Ok (c.1, set_free_list (before ++ c :: after) h).

(** * Growing *)

Definition heap_grow (page_alloc : Z → option Z) (size : Z) (h : heap) : res (Z * heap) :=
  let size := ROUNDUP size PAGE_SIZE in
  match page_alloc (size / PAGE_SIZE) with
  | None => Ok (ERR_NO_MEMORY, h)
  | Some ptr =>
      c ← heap_create_free_chunk ptr size;
      '(_, h) ← heap_insert_free_chunk c h;
      let h := if (ptr <? base h) || (base h =? 0) then set_range ptr (len h) h else h in
      let endptr := u64 (ptr + size) in
      let h := if u64 (base h + len h) <? endptr then set_range (base h) (u64 (endptr - base h)) h else h in
      Ok (s64 size, h)
  end.

(** * Allocating *)

(** How far into the chunk the allocation has to start. *)
Definition front_slack (addr alignment : Z) : Z :=
  if HEAP_ALIGN <? alignment then
    let aligned_payload := ROUNDUP (u64 (addr + sizeof_begin)) alignment in
    u64 (u64 (aligned_payload - sizeof_begin) - addr)
  else 0.

(** The chunk [c] is big enough: where the allocation starts, its size and what
    is left of the chunk. *)
Definition carve (c : chunk) (alignment needed_size : Z) : res (Z * Z * list chunk) :=
  let front := front_slack c.1 alignment in
  let total := u64 (c.2 - front) in
  let rear := u64 (total - needed_size) in
  let split_rear := sizeof_chunk <=? rear in
  let total := if split_rear then needed_size else total in
  assert_ ((front `mod` HEAP_ALIGN =? 0) && ((front =? 0) || (sizeof_chunk <=? front)));;
  assert_ ((needed_size <=? total) && (total `mod` HEAP_ALIGN =? 0));;
  assert_ (u64 (front + total + (if split_rear then rear else 0)) =? c.2);;
  assert_ (if split_rear then (rear `mod` HEAP_ALIGN =? 0) && (sizeof_chunk <=? rear) else rear <? sizeof_chunk);;
  assert_ (if HEAP_ALIGN <? alignment then u64 (c.1 + front + sizeof_begin) `mod` alignment =? 0 else true);;
  rears ← (if split_rear
           then r ← heap_create_free_chunk (u64 (c.1 + front + total)) rear; Ok [r]
           else Ok []);
  Ok (u64 (c.1 + front), total, (if 0 <? front then [(c.1, front)] else []) ++ rears).

(** The walk over the free list; [pre] are the chunks already passed. *)
Fixpoint alloc_walk (pre l : list chunk) (alignment needed_size : Z) : res (option (Z * Z * list chunk)) :=
  match l with
  | [] => Ok None
  | c :: l =>
      assert_ (c.2 `mod` HEAP_ALIGN =? 0);;
      if u64 (front_slack c.1 alignment + needed_size) <=? c.2 then
        '(start, total, pieces) ← carve c alignment needed_size;
        Ok (Some (start, total, pre ++ pieces ++ l))
      else alloc_walk (pre ++ [c]) l alignment needed_size
  end.

(** One attempt, under the lock. *)
Definition try_alloc (alignment needed_size : Z) (h : heap) : res (option Z * heap) :=
  r ← alloc_walk [] (free_list h) alignment needed_size;
  match r with
  | None => Ok (None, h)
  | Some (start, total, l) =>
      let h := set_free_list l h in
      let h := set_allocs (<[start := (start, total)]> (allocs h)) h in
      let h := set_remaining (u64 (remaining h - total)) h in
      let h := if remaining h <? low_watermark h then set_low (remaining h) h else h in
      Ok (Some (u64 (start + sizeof_begin)), h)
  end.

(** The size of the block for a request, or [None] when it wraps around. *)
Definition block_size (size : Z) : option Z :=
  let n := u64 (size + sizeof_begin) in
  let n := if n <? sizeof_chunk then sizeof_chunk else n in
  let n := ROUNDUP n HEAP_ALIGN in
  if n <? size then None else Some n.

Definition miniheap_alloc (page_alloc : Z → option Z) (size alignment : Z) (h : heap) : res (option Z * heap) :=
  if negb (Z.land alignment (u32 (alignment - 1)) =? 0) then Ok (None, h) else
  match block_size size with
  | None => Ok (None, h)
  | Some needed_size =>
      '(ptr, h) ← try_alloc alignment needed_size h;
      match ptr with
      | Some p => Ok (Some p, h)
      | None =>
          let grow_size :=
            if HEAP_ALIGN <? alignment then u64 (needed_size + (alignment - HEAP_ALIGN)) else needed_size in
          '(err, h) ← heap_grow page_alloc grow_size h;
          if 0 <=? err then try_alloc alignment needed_size h else Ok (None, h)
      end
  end.

(** * Freeing *)

(** The header in front of [ptr], which the checks of [miniheap_free] and
    [miniheap_realloc] accept. *)
Definition header (ptr : Z) (h : heap) : res (Z * Z) :=
  let as_ := u64 (ptr - sizeof_begin) in
  assert_ (heap_range_contains h as_ sizeof_begin);;
  a ← of_option BadAccess (allocs h !! as_);
  assert_ (heap_validate_allocation h a);;
  Ok a.

(** A pointer of 0 is null.  The header is overwritten by the free chunk. *)
Definition miniheap_free (ptr : Z) (h : heap) : res heap :=
  if ptr =? 0 then Ok h else
  a ← header ptr h;
  c ← heap_create_free_chunk a.1 a.2;
  '(_, h) ← heap_insert_free_chunk c (set_allocs (delete (u64 (ptr - sizeof_begin)) (allocs h)) h);
  Ok h.

(** * Reallocating *)

Definition memcpy (dst src n : Z) (d : Z → Z) : Z → Z :=
  λ a, if (dst <=? a) && (a <? dst + n) then d (src + (a - dst)) else d a.

(** The free chunk at [addr], between what comes before and after it. *)
Fixpoint find_free_chunk_at (addr : Z) (l : list chunk) : option (list chunk * Z * list chunk) :=
  match l with
  | [] => None
  | c :: l =>
      if c.1 =? addr then Some ([], c.2, l)
      else '(before, n, after) ← find_free_chunk_at addr l; Some (c :: before, n, after)
  end.

(** In-place growing: the free chunk behind the block gives what is missing.
    The result is the new size of the block and the free list. *)
Definition grow_in_place (block_end size new_block_size : Z) (h : heap) : res (option (Z * list chunk)) :=
  match find_free_chunk_at block_end (free_list h) with
  | Some (before, n, after) =>
      if new_block_size <=? u64 (size + n) then
        let extra_needed := u64 (new_block_size - size) in
        let remaining_len := u64 (n - extra_needed) in
        if sizeof_chunk <=? remaining_len then
          c ← heap_create_free_chunk (u64 (block_end + extra_needed)) remaining_len;
          Ok (Some (new_block_size, before ++ c :: after))
        else Ok (Some (u64 (size + n), before ++ after))
      else Ok None
  | None => Ok None
  end.

Definition miniheap_realloc (page_alloc : Z → option Z) (ptr size : Z) (h : heap) : res (option Z * heap) :=
  if ptr =? 0 then miniheap_alloc page_alloc size 0 h
  else if size =? 0 then h ← miniheap_free ptr h; Ok (None, h)
  else
    let as_ := u64 (ptr - sizeof_begin) in
    a ← header ptr h;
    assert_ (a.1 <=? ptr);;
    let ptr_offset := ptr - a.1 in
    assert_ (ptr_offset <=? a.2);;
    let new_block_size := ROUNDUP (u64 (ptr_offset + size)) HEAP_ALIGN in
    if new_block_size <=? a.2 then
      let leftover_slack := a.2 - new_block_size in
      if sizeof_chunk <=? leftover_slack then
        let h := set_allocs (<[as_ := (a.1, new_block_size)]> (allocs h)) h in
        let h := set_remaining (u64 (remaining h - leftover_slack)) h in
        c ← heap_create_free_chunk (u64 (a.1 + new_block_size)) leftover_slack;
        '(_, h) ← heap_insert_free_chunk c h;
        Ok (Some ptr, h)
      else Ok (Some ptr, h)
    else
      g ← grow_in_place (u64 (a.1 + a.2)) a.2 new_block_size h;
      match g with
      | Some (n, l) =>
          let h := set_free_list l h in
          let h := set_allocs (<[as_ := (a.1, n)]> (allocs h)) h in
          Ok (Some ptr, set_remaining (u64 (remaining h - (n - a.2))) h)
      | None =>
          let old_usable := a.2 - ptr_offset in
          let copy_size := if size <? old_usable then size else old_usable in
          '(p, h) ← miniheap_alloc page_alloc size 0 h;
          match p with
          | None => Ok (None, h)
          | Some p =>
              let h := set_data (memcpy p ptr copy_size (data h)) h in
              h ← miniheap_free ptr h;
              Ok (Some p, h)
          end
      end.

(** * Trimming *)

(** One free chunk: the pages to return, if any, what is left of the chunk
    before them, and the new chunk behind them. *)
Fixpoint trim_chunk (fuel : nat) (start n start_page end_page : Z)
    : res (option (Z * Z) * list chunk * list chunk) :=
  match fuel with
  | O => Fault OutOfFuel
  | S fuel =>
      let end_ := u64 (start + n) in
      if start_page <? end_page then
        if (start_page =? start) && (end_page =? end_) then Ok (Some (start_page, end_page), [], [])
        else if negb (start_page =? start) && (start_page - start <? sizeof_chunk) then
          trim_chunk fuel start n (u64 (start_page + PAGE_SIZE)) end_page
        else if end_page <? end_ then
          if end_ - end_page <? sizeof_chunk then trim_chunk fuel start n start_page (end_page - PAGE_SIZE)
          else
            c ← heap_create_free_chunk end_page (end_ - end_page);
            if start_page =? start then Ok (Some (start_page, end_page), [], [c])
            else Ok (Some (start_page, end_page),
                     [(start, n - (end_ - end_page) - (end_page - start_page))], [c])
        else Ok (Some (start_page, end_page), [(start, n - (end_page - start_page))], [])
      else Ok (None, [(start, n)], [])
  end.

(** The walk: [pre] is the list so far, in front of the chunk that is looked at;
    a chunk split off behind is looked at next.  The pages returned to the page
    allocator are collected as address and number. *)
Fixpoint trim_loop (fuel : nat) (pre l : list chunk) (freed : list (Z * Z)) (h : heap)
    : res (list (Z * Z) * heap) :=
  match l with
  | [] => Ok (freed, set_free_list pre h)
  | c :: l =>
      match fuel with
      | O => Fault OutOfFuel
      | S fuel =>
          let end_ := u64 (c.1 + c.2) in
          assert_ (c.1 <? end_);;
          let start_page := ROUNDUP c.1 PAGE_SIZE in
          let end_page := ROUNDDOWN end_ PAGE_SIZE in
          assert_ (end_page <=? end_);;
          assert_ (c.1 <=? start_page);;
          '(pages, front, rear) ← trim_chunk 3 c.1 c.2 start_page end_page;
          match pages with
          | Some (a, b) =>
              trim_loop fuel (pre ++ front) (rear ++ l) (freed ++ [(a, (b - a) / PAGE_SIZE)])
                (set_remaining (u64 (remaining h - (b - a))) h)
          | None => trim_loop fuel (pre ++ front) (rear ++ l) freed h
          end
      end
  end.

(** Every chunk is looked at once, and the chunk split off behind it. *)
Definition miniheap_trim (h : heap) : res (list (Z * Z) * heap) :=
  trim_loop (2 * length (free_list h)) [] (free_list h) [] h.

(** * Statistics and start *)

Record miniheap_stats := mk_stats {
  heap_start : Z;
  heap_len : Z;
  heap_free : Z;
  heap_max_chunk : Z;
  heap_low_watermark : Z;
}.

Definition stats_step (acc : Z * Z) (c : chunk) : Z * Z :=
  (u64 (acc.1 + c.2), if acc.2 <? c.2 then c.2 else acc.2).

Definition miniheap_get_stats (h : heap) : miniheap_stats :=
  let '(free, max) := foldl stats_step (0, 0) (free_list h) in
  mk_stats (base h) (len h) free max (low_watermark h).

Definition miniheap_init (ptr n : Z) (h : heap) : res heap :=
  let h := set_free_list [] h in
  '(ptr, n) ←
    (if 0 <? ptr `mod` HEAP_ALIGN then
       let aligned_ptr := ROUNDUP ptr HEAP_ALIGN in
       assert_ (u64 (aligned_ptr - ptr) <? n);;
       Ok (aligned_ptr, u64 (n - u64 (aligned_ptr - ptr)))
     else Ok (ptr, n));
  let h := set_low 0 (set_remaining 0 (set_range ptr n h)) in
  if 0 <? n then
    c ← heap_create_free_chunk ptr n;
    '(_, h) ← heap_insert_free_chunk c h;
    Ok h
  else Ok h.

(** * Blocks *)

Definition block_end (b : chunk) : Z := b.1 + b.2.
Definition disj (b c : chunk) : Prop := block_end b ≤ c.1 ∨ block_end c ≤ b.1.

(** Every block is disjoint from every other. *)
Fixpoint pdisj (l : list chunk) : Prop :=
  match l with [] => True | b :: l => Forall (disj b) l ∧ pdisj l end.

Lemma disj_sym b c : disj b c → disj c b.
Proof. unfold disj. tauto. Qed.

#[global] Instance pdisj_perm : Proper ((≡ₚ) ==> iff) pdisj.
Proof.
  assert (∀ l k, l ≡ₚ k → pdisj l → pdisj k) as H.
  { induction 1 as [|b l k H IH|b c l|l k q _ IH1 _ IH2]; simpl; auto.
    - intros [Hb Hl]. split; [by rewrite <- H|auto].
    - rewrite !Forall_cons. intros [[Hcb Hc] [Hb Hl]]. split_and!; auto using disj_sym. }
  intros l k Hlk. split; [by apply H|]. apply H. by symmetry.
Qed.

Lemma pdisj_app l k : pdisj (l ++ k) ↔ pdisj l ∧ pdisj k ∧ ∀ b c, b ∈ l → c ∈ k → disj b c.
Proof.
  induction l as [|a l IH]; simpl.
  - split; [|tauto]. intros. split_and!; [done|done|]. by intros b c ?%elem_of_nil.
  - rewrite Forall_app, IH. setoid_rewrite elem_of_cons. rewrite (Forall_forall _ k).
    split; [|naive_solver]. intros ([H1 H2] & H3 & H4 & H5). split_and!; try done. naive_solver.
Qed.

(** The part [b] of a block keeps its distance from the other blocks. *)
Definition inside (b c : chunk) : Prop := c.1 ≤ b.1 ∧ block_end b ≤ block_end c.

Lemma disj_inside b c d : inside b c → disj c d → disj b d.
Proof. unfold inside, disj, block_end. lia. Qed.

(** Replacing a block by disjoint parts of it. *)
Lemma pdisj_replace c pieces l :
  pdisj (c :: l) → pdisj pieces → Forall (λ b, inside b c) pieces → pdisj (pieces ++ l).
Proof.
  intros [Hc Hl] Hp Hi. apply pdisj_app. split_and!; [done|done|]. intros b d Hb Hd.
  rewrite Forall_forall in Hc, Hi. eapply disj_inside; [by apply Hi|by apply Hc].
Qed.

(** Merging two adjacent blocks. *)
Lemma pdisj_merge a n m l :
  pdisj ((a, n) :: (a + n, m) :: l) → 0 ≤ n → 0 ≤ m → Forall (λ d, 0 < d.2) l → pdisj ((a, n + m) :: l).
Proof.
  simpl. rewrite Forall_cons, !Forall_forall. intros [[_ Ha] [Hb Hl]] Hn Hm Hpos. split; [|done].
  intros d Hd. specialize (Ha d Hd). specialize (Hb d Hd). specialize (Hpos d Hd). unfold disj, block_end in *. simpl in *. lia.
Qed.

(** * Invariant *)

(** Aligned, large enough for a header, and inside the range. *)
Record block_ok (lo hi : Z) (b : chunk) : Prop := {
  bo_addr : (16 | b.1);
  bo_len : (16 | b.2);
  bo_min : 16 ≤ b.2;
  bo_in : lo ≤ b.1 ∧ block_end b ≤ hi;
}.

(** In address order with a gap between any two: neighbours are merged. *)
Definition gap (b c : chunk) : Prop := block_end b < c.1.
Definition coalesced (l : list chunk) : Prop := StronglySorted gap l.

(** All blocks of the heap, free or allocated. *)
Definition blocks (h : heap) : list chunk := free_list h ++ (map_to_list (allocs h)).*2.

Record hinv (h : heap) : Prop := {
  hi_range : 0 ≤ base h ∧ 0 ≤ len h ∧ base h + len h < 2 ^ 64;
  hi_blocks : Forall (block_ok (base h) (base h + len h)) (blocks h);
  hi_disj : pdisj (blocks h);
  hi_coalesced : coalesced (free_list h);
  hi_key : ∀ a p n, allocs h !! a = Some (p, n) → p = a;
}.

(** The free bytes. *)
Definition free_bytes (l : list chunk) : Z := foldr (λ c s, c.2 + s) 0 l.

(** ** The walk *)

Lemma split_at_spec addr l :
  coalesced l → Forall (λ c, 0 < c.2) l →
  let '(before, after) := split_at addr l in
  l = before ++ after ∧ Forall (λ c, c.1 < addr) before ∧ Forall (λ c, addr ≤ c.1) after.
Proof.
  intros Hs Hp. induction l as [|c l IH]; simpl; [done|].
  inversion Hs as [|? ? Hs' Hf]; inversion Hp as [|? ? Hc Hp']; subst.
  destruct (Z.ltb_spec c.1 addr) as [Hlt|Hge].
  - specialize (IH Hs' Hp'). destruct (split_at addr l) as [before after].
    destruct IH as (-> & Hb & Ha). split_and!; [done|by constructor|done].
  - split_and!; [done|done|]. constructor; [done|]. eapply Forall_impl; [exact Hf|].
    intros d Hd. unfold gap, block_end in Hd. lia.
Qed.

Lemma coalesced_app l k :
  coalesced (l ++ k) ↔ coalesced l ∧ coalesced k ∧ ∀ b c, b ∈ l → c ∈ k → gap b c.
Proof.
  unfold coalesced. induction l as [|a l IH]; simpl.
  - split; [|tauto]. intros. split_and!; [constructor|done|]. by intros b c ?%elem_of_nil.
  - split.
    + inversion 1 as [|? ? Hs Hf]; subst. apply IH in Hs as (H1 & H2 & H3). apply Forall_app in Hf as [F1 F2].
      split_and!; [by constructor|done|]. intros b c [->|Hb]%elem_of_cons Hc; [|by apply H3].
      rewrite Forall_forall in F2. by apply F2.
    + intros (H1 & H2 & H3). inversion H1 as [|? ? Hs Hf]; subst. constructor.
      * apply IH. split_and!; [done|done|]. intros b c Hb Hc. apply H3; [by right|done].
      * apply Forall_app. split; [done|]. apply Forall_forall. intros c Hc. apply H3; [by left|done].
Qed.

(** ** Inserting a free chunk *)

(** The bytes of a list of blocks. *)
Definition byte_in (x : Z) (l : list chunk) : Prop := ∃ b, b ∈ l ∧ b.1 ≤ x < block_end b.

Lemma byte_in_nil x : byte_in x [] ↔ False.
Proof. split; [|done]. by intros (b & ?%elem_of_nil & _). Qed.

Lemma byte_in_cons x b l : byte_in x (b :: l) ↔ b.1 ≤ x < block_end b ∨ byte_in x l.
Proof. unfold byte_in. setoid_rewrite elem_of_cons. naive_solver. Qed.

Lemma byte_in_app x l k : byte_in x (l ++ k) ↔ byte_in x l ∨ byte_in x k.
Proof. unfold byte_in. setoid_rewrite elem_of_app. naive_solver. Qed.

Lemma free_bytes_app l k : free_bytes (l ++ k) = free_bytes l + free_bytes k.
Proof. induction l as [|c l IH]; simpl; lia. Qed.

Lemma block_ok_pos lo hi l : Forall (block_ok lo hi) l → Forall (λ d, 0 < d.2) l.
Proof. intros H. eapply Forall_impl; [exact H|]. intros b [_ _ ? _]. lia. Qed.

Lemma block_ok_merge lo hi a n m : block_ok lo hi (a, n) → block_ok lo hi (a + n, m) → block_ok lo hi (a, n + m).
Proof.
  intros [H1 H2 H3 H4] [G1 G2 G3 G4]. unfold block_end in *. simpl in *.
  split; unfold block_end; simpl; [done|by apply Z.divide_add_r|lia|lia].
Qed.

(** Disjoint blocks in address order. *)
Lemma disj_order lo hi b c : block_ok lo hi b → block_ok lo hi c → disj b c → b.1 < c.1 ∨ b.1 ≤ c.1 → block_end b ≤ c.1.
Proof. intros [_ _ ? _] [_ _ ? _]. unfold disj, block_end. lia. Qed.

Section merging.
Context (lo hi : Z) (Hlo : 0 ≤ lo) (Hhi : hi < 2 ^ 64).

Lemma block_end_small b : block_ok lo hi b → u64 (b.1 + b.2) = block_end b.
Proof. intros [_ _ ? [? ?]]. unfold block_end in *. apply u64_small. lia. Qed.

(** What a merge keeps: [l] are the other blocks. *)
Record merged (c c' : chunk) (l l' R : list chunk) : Prop := {
  mg_disj : pdisj (c' :: l' ++ R);
  mg_ok : Forall (block_ok lo hi) (c' :: l' ++ R);
  mg_sub : ∀ b, b ∈ l' → b ∈ l;
  mg_co : coalesced l';
  mg_bytes : c'.2 + free_bytes l' = c.2 + free_bytes l;
  mg_in : ∀ x, byte_in x (c' :: l') ↔ byte_in x (c :: l);
}.

Lemma merged_refl c l R :
  pdisj (c :: l ++ R) → Forall (block_ok lo hi) (c :: l ++ R) → coalesced l → merged c c l l R.
Proof. by split. Qed.

Lemma merge_prev_ok before c R :
  pdisj (c :: before ++ R) → Forall (block_ok lo hi) (c :: before ++ R) → coalesced before →
  Forall (λ b, b.1 < c.1) before →
  let '(before', c') := merge_prev before c in
  merged c c' before before' R ∧ block_end c' = block_end c ∧ (∀ b, b ∈ before' → gap b c').
Proof.
  intros Hd Hok Hco Hlt. unfold merge_prev. destruct (last before) as [p|] eqn:El.
  2:{ apply last_None in El as ->. split_and!; [by apply merged_refl|done|]. by intros b ?%elem_of_nil. }
  apply last_Some in El as [b0 ->]. rewrite Forall_cons, !Forall_app, Forall_cons in Hok.
  destruct Hok as (Hc & (Hb0 & Hp & _) & HR).
  apply coalesced_app in Hco as (Hco0 & _ & Hgap). apply Forall_app in Hlt as [Hlt0 Hltp]. inversion Hltp as [|? ? Hpc _]; subst.
  assert (∀ b, b ∈ b0 → gap b p) as Hg by (intros b Hb; apply Hgap; [done|left]).
  assert (block_end p ≤ c.1) as Hpe.
  { eapply disj_order; [done|done| |by left]. destruct Hd as [Hd _]. rewrite !Forall_app, Forall_cons in Hd.
    apply disj_sym. naive_solver. }
  rewrite block_end_small by done. destruct (Z.eqb_spec (block_end p) c.1) as [E|N].
  - rewrite removelast_last. assert (u64 (p.2 + c.2) = p.2 + c.2) as ->.
    { apply u64_small. destruct Hp as [_ _ ? [? ?]], Hc as [_ _ ? [? ?]]. unfold block_end in *. lia. }
    assert (c = (p.1 + p.2, c.2)) as Ec by (destruct c; simpl in *; unfold block_end in E; by rewrite E).
    destruct p as [pa pn]. cbn [fst snd] in *. split_and!.
    + split; [| |by intros; apply elem_of_app; left|done| |]; simpl.
      * change (pdisj ((pa, pn + c.2) :: b0 ++ R)). apply pdisj_merge; [|destruct Hp; simpl in *; lia|destruct Hc; lia|].
        { rewrite <- Ec. eapply pdisj_perm; [|exact Hd]. solve_Permutation. }
        apply (block_ok_pos lo hi). by rewrite Forall_app.
      * rewrite Forall_cons, Forall_app. split_and!; [|done..]. apply block_ok_merge; [done|]. by rewrite <- Ec.
      * rewrite free_bytes_app. simpl. lia.
      * intros x. rewrite !byte_in_cons, byte_in_app, byte_in_cons. unfold block_end in *. simpl in *.
        rewrite byte_in_nil. destruct Hp, Hc. simpl in *. intuition lia.
    + unfold block_end in *. simpl in *. lia.
    + done.
  - split_and!.
    + apply merged_refl; [done| |].
      * rewrite Forall_cons, !Forall_app, Forall_cons. auto.
      * apply coalesced_app. split_and!; [done|repeat constructor|]. intros b d Hb ->%list_elem_of_singleton. by apply Hg.
    + done.
    + intros b [Hb| ->%list_elem_of_singleton]%elem_of_app; unfold gap in *; [|lia].
      specialize (Hg b Hb). unfold block_end in *. destruct Hp. lia.
Qed.

Lemma merge_next_ok after c R :
  pdisj (c :: after ++ R) → Forall (block_ok lo hi) (c :: after ++ R) → coalesced after →
  Forall (λ b, block_end c ≤ b.1) after →
  let '(c', after') := merge_next c after in
  merged c c' after after' R ∧ c'.1 = c.1 ∧ (∀ b, b ∈ after' → gap c' b).
Proof.
  intros Hd Hok Hco Hle. unfold merge_next. destruct after as [|n after].
  { split_and!; [by apply merged_refl|done|]. by intros b ?%elem_of_nil. }
  simpl app in Hd, Hok. rewrite !Forall_cons in Hok. destruct Hok as (Hc & Hn & HR).
  inversion Hco as [|? ? Hco' Hg]; subst. rewrite Forall_forall in Hg. inversion Hle as [|? ? Hcn Hle']; subst.
  rewrite block_end_small by done. destruct (Z.eqb_spec (block_end c) n.1) as [E|N].
  - assert (u64 (c.2 + n.2) = c.2 + n.2) as ->.
    { apply u64_small. destruct Hn as [_ _ ? [? ?]], Hc as [_ _ ? [? ?]]. unfold block_end in *. lia. }
    assert (n = (c.1 + c.2, n.2)) as En by (destruct n; simpl in *; unfold block_end in E; by rewrite E).
    destruct c as [ca cn]. cbn [fst snd] in *. split_and!.
    + split; [| |by right|done| |]; simpl.
      * apply pdisj_merge; [|destruct Hc; simpl in *; lia|destruct Hn; lia|by eapply block_ok_pos].
        rewrite <- En. done.
      * rewrite Forall_cons. split; [|done]. apply block_ok_merge; [done|]. by rewrite <- En.
      * lia.
      * intros x. rewrite !byte_in_cons. unfold block_end in *. simpl in *. destruct Hn, Hc. simpl in *. intuition lia.
    + done.
    + intros b Hb. specialize (Hg b Hb). unfold gap, block_end in *. simpl in *. lia.
  - split_and!; [|done|].
    + apply merged_refl; [done| |done]. rewrite Forall_cons. simpl. rewrite Forall_cons. auto.
    + intros b [->|Hb]%elem_of_cons; unfold gap in *; [lia|].
      specialize (Hg b Hb). unfold block_end in *. destruct Hn. lia.
Qed.

(** The free list [l] with the chunk [c] added, merged with its neighbours. *)
Record inserted (c : chunk) (l l' O : list chunk) : Prop := {
  in_co : coalesced l';
  in_disj : pdisj (l' ++ O);
  in_ok : Forall (block_ok lo hi) (l' ++ O);
  in_bytes : free_bytes l' = c.2 + free_bytes l;
  in_in : ∀ x, byte_in x l' ↔ byte_in x (c :: l);
}.

Lemma gap_trans b c d : 0 < c.2 → gap b c → gap c d → gap b d.
Proof. unfold gap, block_end. lia. Qed.

Lemma insert_chunk_ok c h O :
  coalesced (free_list h) → pdisj (c :: free_list h ++ O) → Forall (block_ok lo hi) (c :: free_list h ++ O) →
  ∃ a l', heap_insert_free_chunk c h = Ok (a, set_free_list l' (set_remaining (u64 (remaining h + c.2)) h)) ∧
    inserted c (free_list h) l' O.
Proof.
  intros Hco Hd Hok. unfold heap_insert_free_chunk. cbn [free_list set_remaining].
  assert (Forall (block_ok lo hi) (free_list h)) as Hokl.
  { rewrite Forall_cons, Forall_app in Hok. naive_solver. }
  pose proof (split_at_spec c.1 (free_list h) Hco (block_ok_pos _ _ _ Hokl)) as Hs.
  destruct (split_at c.1 (free_list h)) as [before after]. destruct Hs as (El & Hb & Ha). rewrite El in *.
  apply coalesced_app in Hco as (Hcob & Hcoa & _).
  assert (Forall (λ b, block_end c ≤ b.1) after) as Hle.
  { apply Forall_forall. intros b Hin. rewrite Forall_forall in Ha. rewrite Forall_forall in Hok.
    apply (disj_order lo hi c b); [apply Hok; left|apply Hok; set_solver| |right; by apply Ha].
    destruct Hd as [Hd _]. rewrite Forall_forall in Hd. apply Hd. set_solver. }
  assert (block_ok lo hi c) as Hc by (by inversion Hok).
  replace (match after with [] => true | n :: _ => u64 (c.1 + c.2) <=? n.1 end) with true.
  2:{ destruct after as [|n after]; [done|]. rewrite block_end_small by done. inversion Hle; subst. symmetry. by apply Z.leb_le. }
  cbn [assert_ mbind res_bind]. rewrite <- app_assoc in Hd, Hok.
  pose proof (merge_prev_ok before c (after ++ O) Hd Hok Hcob Hb) as H1.
  destruct (merge_prev before c) as [before' c1]. destruct H1 as ([D1 K1 S1 Co1 B1 I1] & Ec1 & G1).
  pose proof (merge_next_ok after c1 (before' ++ O)) as H2. rewrite Ec1 in H2.
  destruct (merge_next c1 after) as [c2 after']. destruct H2 as ([D2 K2 S2 Co2 B2 I2] & Ec2 & G2).
  { eapply pdisj_perm; [|exact D1]. solve_Permutation. }
  { eapply Forall_Permutation; [| |exact K1]; [done|]. solve_Permutation. }
  { done. } { done. }
  assert (c2 :: after' ++ before' ++ O ≡ₚ (before' ++ c2 :: after') ++ O) as Hperm by solve_Permutation.
  assert (0 < c2.2) as Hpos by (apply block_ok_pos in K2; by inversion K2).
  eexists _, _. split; [reflexivity|]. split.
  - apply coalesced_app. split_and!; [done|constructor; [done|]; by apply Forall_forall|].
    assert (∀ b, b ∈ before' → gap b c2) as G1' by (intros b Hin; unfold gap; rewrite Ec2; by apply G1).
    intros b d Hin [->|Hd']%elem_of_cons; [by apply G1'|]. eapply gap_trans; [exact Hpos|by apply G1'|by apply G2].
  - by rewrite <- Hperm.
  - by rewrite <- Hperm.
  - rewrite !free_bytes_app. simpl. lia.
  - intros x. rewrite byte_in_app, (I2 x : byte_in x (c2 :: after') ↔ _), byte_in_cons, byte_in_cons, byte_in_app.
    specialize (I1 x). rewrite !byte_in_cons in I1. tauto.
Qed.
End merging.

(** ** Allocated blocks *)

(** The allocated blocks other than the one at [a]. *)
Definition others (a : Z) (h : heap) : list chunk := (map_to_list (delete a (allocs h))).*2.
Definition alloc_blocks (h : heap) : list chunk := (map_to_list (allocs h)).*2.

Lemma alloc_blocks_delete a b h : allocs h !! a = Some b → alloc_blocks h ≡ₚ b :: others a h.
Proof.
  intros H. unfold alloc_blocks, others. rewrite <- (map_to_list_delete (allocs h) a b H). done.
Qed.

Lemma alloc_blocks_insert a b h : allocs h !! a = None → (map_to_list (<[a := b]> (allocs h))).*2 ≡ₚ b :: alloc_blocks h.
Proof. intros H. unfold alloc_blocks. by rewrite (map_to_list_insert _ _ _ H). Qed.

Lemma alloc_block_elem a b h : allocs h !! a = Some b → b ∈ blocks h.
Proof.
  intros H. unfold blocks. apply elem_of_app. right. change (b ∈ alloc_blocks h).
  rewrite (alloc_blocks_delete a b h H). left.
Qed.

Lemma range_contains_ok h addr n :
  hinv h → base h ≤ addr → 0 ≤ n → addr + n ≤ base h + len h → heap_range_contains h addr n = true.
Proof.
  intros [(H1 & H2 & H3) _ _ _ _] Ha Hn He. unfold heap_range_contains. rewrite !u64_small by lia.
  rewrite (proj2 (Z.ltb_ge _ _)), (proj2 (Z.ltb_ge addr _)), (proj2 (Z.ltb_ge _ addr)), (proj2 (Z.ltb_ge _ (addr + n))) by lia.
  done.
Qed.

(** A pointer that the heap has handed out, with the block it lies in. *)
Definition owns (h : heap) (p n : Z) : Prop := allocs h !! (p - 16) = Some (p - 16, n).

Lemma owns_block h p n :
  hinv h → owns h p n → block_ok (base h) (base h + len h) (p - 16, n) ∧ u64 (p - 16) = p - 16.
Proof.
  intros Hi Ho. pose proof (hi_blocks _ Hi) as Hb. rewrite Forall_forall in Hb.
  pose proof (Hb _ (alloc_block_elem _ _ _ Ho)) as Hok. split; [done|]. apply u64_small.
  destruct Hok as [_ _ ? [? ?]], Hi as [(? & ? & ?) _ _ _ _]. unfold block_end in *. simpl in *. lia.
Qed.

Lemma header_ok h p n : hinv h → owns h p n → header p h = Ok (p - 16, n).
Proof.
  intros Hi Ho. destruct (owns_block h p n Hi Ho) as [[_ _ Hm [Hlo Hhi]] Eu]. unfold block_end in *. simpl in *.
  unfold header. unfold sizeof_begin in *. rewrite Eu, range_contains_ok by (done || lia).
  cbn [assert_ mbind res_bind]. rewrite Ho. cbn [of_option mbind res_bind].
  unfold heap_validate_allocation. cbn [fst snd]. by rewrite range_contains_ok by (done || lia).
Qed.

Lemma create_ok a n : (16 | n) → 16 ≤ n → heap_create_free_chunk a n = Ok (a, n).
Proof.
  intros [k ->] Hn. unfold heap_create_free_chunk, HEAP_ALIGN, sizeof_chunk.
  rewrite Z.mod_mul by lia. by rewrite (proj2 (Z.leb_le _ _)) by lia.
Qed.

(** What freeing the block of [p] changes. *)
Record freed (h h' : heap) (p n : Z) : Prop := {
  fr_allocs : allocs h' = delete (p - 16) (allocs h);
  fr_data : data h' = data h;
  fr_range : base h' = base h ∧ len h' = len h;
  fr_low : low_watermark h' = low_watermark h;
  fr_remaining : remaining h' = u64 (remaining h + n);
  fr_bytes : free_bytes (free_list h') = n + free_bytes (free_list h);
  fr_in : ∀ x, byte_in x (free_list h') ↔ p - 16 ≤ x < p - 16 + n ∨ byte_in x (free_list h);
}.

Lemma free_ok h p n : hinv h → owns h p n → ∃ h', miniheap_free p h = Ok h' ∧ hinv h' ∧ freed h h' p n.
Proof.
  intros Hi Ho. destruct (owns_block h p n Hi Ho) as [Hb Eu]. pose proof Hb as [Hd1 Hd2 Hmin [Hlo Hhi]]. cbn [fst snd] in *.
  pose proof Hi as [(R1 & R2 & R3) Hbl Hdj Hco Hkey].
  unfold miniheap_free. rewrite (proj2 (Z.eqb_neq _ _)) by lia.
  rewrite (header_ok h p n Hi Ho). cbn [mbind res_bind fst snd]. rewrite create_ok by done. cbn [mbind res_bind].
  unfold sizeof_begin. rewrite Eu. set (h1 := set_allocs _ h).
  assert (blocks h ≡ₚ (p - 16, n) :: free_list h1 ++ others (p - 16) h) as Hperm.
  { unfold blocks. fold (alloc_blocks h). rewrite (alloc_blocks_delete _ _ _ Ho). simpl. by rewrite Permutation_middle. }
  destruct (insert_chunk_ok (base h) (base h + len h) R1 R3 (p - 16, n) h1 (others (p - 16) h)) as (a & l' & E & [I1 I2 I3 I4 I5]).
  { done. } { by rewrite <- Hperm. } { by rewrite <- Hperm. }
  rewrite E. cbn [mbind res_bind]. eexists. split; [done|]. split.
  - split; [done|exact I3|exact I2|exact I1|]. simpl. intros b q m Hl. apply lookup_delete_Some in Hl as [_ Hl]. by eapply Hkey.
  - split; try done. intros x. cbn [free_list set_free_list]. rewrite I5, byte_in_cons. done.
Qed.

(** Freeing a pointer that the heap has handed out trips no assertion; its
    block, and nothing else, becomes free, the free list stays in address order
    with neighbours merged, and the invariant holds again. *)
Theorem miniheap_free_spec h p n :
  hinv h → owns h p n → ∃ h', miniheap_free p h = Ok h' ∧ hinv h' ∧ freed h h' p n.
Proof. apply free_ok. Qed.

(** ** Carving an allocation out of a chunk *)

(** An alignment that [miniheap_alloc] accepts. *)
Definition good_alignment (al : Z) : Prop := al = 0 ∨ ∃ k, 0 ≤ k < 32 ∧ al = 2 ^ k.

Lemma alignment_test al :
  0 ≤ al < 2 ^ 32 → (Z.land al (u32 (al - 1)) =? 0) = true ↔ good_alignment al.
Proof. intros H. rewrite Z.land_comm. apply (ispow2_iff al H). Qed.

Lemma divide_16_pow2 k : 4 ≤ k → (16 | 2 ^ k).
Proof. intros. exists (2 ^ (k - 4)). change 16 with (2 ^ 4). rewrite <- Z.pow_add_r by lia. f_equal. lia. Qed.

(** The slack is a multiple of the alignment unit, and, unless the chunk ends
    before the next aligned address, leads to an aligned payload. *)
Lemma front_slack_spec a al hi :
  good_alignment al → (16 | a) → 0 ≤ a → a + 16 ≤ hi → hi < 2 ^ 64 →
  let f := front_slack a al in
  0 ≤ f < 2 ^ 32 ∧ (16 | f) ∧ (hi < a + f + 16 ∨ (Z.max 16 al | a + f + 16)).
Proof.
  intros Hal Ha Ha0 Hhi Hhi2. cbv zeta. unfold front_slack, HEAP_ALIGN, sizeof_begin.
  assert ((16 | 0)) as H0 by apply Z.divide_0_r.
  assert ((16 | a + 16)) as H16 by (apply Z.divide_add_r; [done|by exists 1]).
  destruct (Z.ltb_spec 16 al) as [Hlt|Hge].
  2:{ rewrite Z.add_0_r, Z.max_l by lia. split_and!; [lia|lia|done|by right]. }
  rewrite Z.max_r by lia. destruct Hal as [->|(k & Hk & ->)]; [lia|].
  assert (4 ≤ k) as Hk4. { destruct (decide (k < 4)); [|lia]. assert (2 ^ k ≤ 2 ^ 4) by (apply Z.pow_le_mono_r; lia). lia. }
  assert (2 ^ k ≤ 2 ^ 31) as Hkm by (apply Z.pow_le_mono_r; lia).
  rewrite (u64_small (a + 16)) by lia. destruct (Z.lt_ge_cases (a + 16 + (2 ^ k - 1)) (2 ^ 64)) as [Hov|Hov].
  - destruct (ROUNDUP_bounds (a + 16) k) as [Hb Hd]; [lia..|]. set (r := ROUNDUP _ _) in *.
    rewrite (u64_small (r - 16)), u64_small by lia. replace (a + (r - 16 - a) + 16) with r by lia.
    split_and!; [lia|lia| |by right]. replace (r - 16 - a) with (r - (a + 16)) by lia. apply Z.divide_sub_r; [|done].
    eapply Z.divide_trans; [apply (divide_16_pow2 k); lia|done].
  - rewrite ROUNDUP_overflow by lia. change (u64 (0 - 16)) with (2 ^ 64 - 16). rewrite u64_small by lia.
    split_and!; [lia|lia| |left; lia]. apply Z.divide_sub_r; [by exists (2 ^ 60 - 1)|done].
Qed.

(** The chunk can hold the allocation. *)
Definition fits (al needed : Z) (c : chunk) : Prop := front_slack c.1 al + needed ≤ c.2.

(** The chunk [c] is the allocation at [start] and the pieces around it. *)
Record carved (lo hi : Z) (c : chunk) (al needed start : Z) (pieces : list chunk) : Prop := {
  cv_align : (Z.max 16 al | start + 16);
  cv_ok : Forall (block_ok lo hi) ((start, needed) :: pieces);
  cv_disj : pdisj ((start, needed) :: pieces);
  cv_inside : Forall (λ b, inside b c) ((start, needed) :: pieces);
  cv_co : coalesced pieces;
  cv_bytes : needed + free_bytes pieces = c.2;
  cv_in : ∀ x, byte_in x ((start, needed) :: pieces) ↔ c.1 ≤ x < block_end c;
}.

Lemma mod16 x : (16 | x) → (x `mod` HEAP_ALIGN =? 0) = true.
Proof. intros H. apply Z.eqb_eq. apply Z.mod_divide; done. Qed.

Lemma carve_pieces lo hi c al needed f :
  block_ok lo hi c → 0 ≤ f → (16 | f) → (Z.max 16 al | c.1 + f + 16) → 16 ≤ needed → (16 | needed) → f + needed ≤ c.2 →
  let rear := c.2 - f - needed in
  carved lo hi c al needed (c.1 + f)
    ((if 0 <? f then [(c.1, f)] else []) ++ (if 16 <=? rear then [(c.1 + f + needed, rear)] else [])).
Proof.
  intros [C1 C2 C3 [C4 C5]] Hf Hf16 Hal Hn Hn16 Hfit. cbv zeta. unfold block_end in *.
  assert ((16 | c.2 - f - needed)) as Hr by (by repeat apply Z.divide_sub_r).
  assert ((16 | c.1 + f)) as Hs by (by apply Z.divide_add_r).
  assert ((16 | c.1 + f + needed)) as Hs2 by (by apply Z.divide_add_r).
  assert (0 < f → 16 ≤ f) by (destruct Hf16 as [q ->]; lia).
  assert (c.2 - f - needed < 16 → c.2 - f - needed = 0) by (destruct Hr as [q Hq]; lia).
  destruct (Z.ltb_spec 0 f), (Z.leb_spec 16 (c.2 - f - needed)); cbn [app].
  all: split; [done| | | | |cbn; lia|].
  all: try (intros x; rewrite ?byte_in_cons, byte_in_nil; unfold block_end; simpl; lia).
  all: cbn; unfold coalesced; repeat first [apply Forall_cons; split | apply Forall_nil | split | apply SSorted_nil | apply SSorted_cons];
    unfold inside, disj, gap, block_end; cbn; try done; try lia.
Qed.

Lemma carve_ok lo hi c al needed :
  0 ≤ lo → hi < 2 ^ 64 → block_ok lo hi c → good_alignment al → 16 ≤ needed → (16 | needed) → fits al needed c →
  ∃ start pieces, carve c al needed = Ok (start, needed, pieces) ∧ carved lo hi c al needed start pieces.
Proof.
  intros Hlo Hhi Hc Hal Hn Hn16 Hfit. pose proof Hc as [C1 C2 C3 [C4 C5]]. unfold block_end, fits in *.
  destruct (front_slack_spec c.1 al (c.1 + c.2) Hal C1) as (Hf & Hf16 & Hfa); [lia..|].
  unfold carve. set (f := front_slack c.1 al) in *. destruct Hfa as [|Hfa]; [lia|].
  pose proof (carve_pieces lo hi c al needed f Hc ltac:(lia) Hf16 Hfa Hn Hn16 Hfit) as Hcv. cbv zeta in Hcv.
  rewrite (u64_small (c.2 - f)), (u64_small (c.2 - f - needed)) by lia. unfold sizeof_chunk, sizeof_begin.
  set (rear := c.2 - f - needed) in *.
  assert ((16 | rear)) as Hr by (by repeat apply Z.divide_sub_r).
  assert (rear < 16 → rear = 0) as Hr0 by (destruct Hr as [q Hq]; unfold rear in *; lia).
  assert ((if 16 <=? rear then needed else c.2 - f) = needed) as ->.
  { destruct (Z.leb_spec 16 rear); unfold rear in *; lia. }
  rewrite (mod16 f) by done. replace ((f =? 0) || (16 <=? f)) with true.
  2:{ symmetry. apply orb_true_iff. rewrite Z.eqb_eq, Z.leb_le. destruct Hf16 as [q ->]. lia. }
  rewrite (mod16 needed), Z.leb_refl by done. cbn [andb assert_ mbind res_bind].
  rewrite (proj2 (Z.eqb_eq (u64 _) _)).
  2:{ destruct (Z.leb_spec 16 rear); rewrite u64_small; unfold rear in *; lia. }
  cbn [assert_ mbind res_bind].
  replace (if 16 <=? rear then (rear `mod` HEAP_ALIGN =? 0) && (16 <=? rear) else rear <? 16) with true.
  2:{ destruct (Z.leb_spec 16 rear); [by rewrite mod16|]. symmetry. apply Z.ltb_lt. lia. }
  cbn [assert_ mbind res_bind]. rewrite !(u64_small (_ + _)) by lia.
  replace (if HEAP_ALIGN <? al then (c.1 + f + 16) `mod` al =? 0 else true) with true.
  2:{ unfold HEAP_ALIGN. destruct (Z.ltb_spec 16 al); [|done]. rewrite Z.max_r in Hfa by lia.
      symmetry. apply Z.eqb_eq, Z.mod_divide; [lia|done]. }
  cbn [assert_ mbind res_bind]. exists (c.1 + f).
  destruct (Z.leb_spec 16 rear) as [Hr16|]; [rewrite create_ok by done|]; eexists; (split; [reflexivity|exact Hcv]).
Qed.

(** ** Allocating *)

Lemma alloc_walk_ok lo hi al needed :
  0 ≤ lo → hi < 2 ^ 64 → good_alignment al → 16 ≤ needed → (16 | needed) → needed + 2 ^ 32 ≤ 2 ^ 64 →
  ∀ l pre, Forall (block_ok lo hi) l →
  (∃ l1 c l2 start pieces, l = l1 ++ c :: l2 ∧ Forall (λ c, ¬ fits al needed c) l1 ∧
    alloc_walk pre l al needed = Ok (Some (start, needed, pre ++ l1 ++ pieces ++ l2)) ∧
    carved lo hi c al needed start pieces) ∨
  (alloc_walk pre l al needed = Ok None ∧ Forall (λ c, ¬ fits al needed c) l).
Proof.
  intros Hlo Hhi Hal Hn Hn16 Hmax l. induction l as [|c l IH]; intros pre Hl; cbn [alloc_walk]; [by right|].
  inversion Hl as [|? ? Hc Hl']; subst. pose proof Hc as [C1 C2 C3 [C4 C5]]. unfold block_end in C5.
  rewrite mod16 by done. cbn [assert_ mbind res_bind].
  destruct (front_slack_spec c.1 al (c.1 + c.2) Hal C1) as (Hf & _); [lia..|]. rewrite u64_small by lia.
  destruct (Z.leb_spec (front_slack c.1 al + needed) c.2) as [Hfit|Hno].
  - destruct (carve_ok lo hi c al needed) as (start & pieces & E & Hcv); [done..|]. rewrite E. cbn [mbind res_bind].
    left. exists [], c, l, start, pieces. done.
  - assert (¬ fits al needed c) as Hnf by (unfold fits; lia).
    destruct (IH (pre ++ [c]) Hl') as [(l1 & d & l2 & start & pieces & -> & H1 & E & Hcv)|[E H1]]; rewrite E; [left|right].
    + exists (c :: l1), d, l2, start, pieces. split_and!; [done|by constructor| |done]. by rewrite <- app_assoc.
    + split; [done|by constructor].
Qed.

Lemma coalesced_replace l1 c pieces l2 :
  0 < c.2 → coalesced (l1 ++ c :: l2) → coalesced pieces → Forall (λ b, inside b c ∧ 0 < b.2) pieces →
  coalesced (l1 ++ pieces ++ l2).
Proof.
  intros Hc Hco Hp Hi. apply coalesced_app in Hco as (H1 & H2 & H3). inversion H2 as [|? ? H4 H5]; subst.
  rewrite Forall_forall in H5, Hi. apply coalesced_app. split_and!; [done| |].
  - apply coalesced_app. split_and!; [done|done|]. intros b d Hb Hd. destruct (Hi b Hb) as [Hin _].
    specialize (H5 d Hd). unfold inside, gap in *. lia.
  - intros b d Hb [Hd|Hd]%elem_of_app; [|by apply H3; [|right]].
    destruct (Hi d Hd) as [Hin _]. assert (gap b c) as Hg by (apply H3; [done|left]). unfold inside, gap in *. lia.
Qed.

(** What allocating the block of [p] changes. *)
Record allocated (h h' : heap) (p n : Z) : Prop := {
  al_new : allocs h !! (p - 16) = None;
  al_allocs : allocs h' = <[p - 16 := (p - 16, n)]> (allocs h);
  al_data : data h' = data h;
  al_range : base h' = base h ∧ len h' = len h;
  al_remaining : remaining h' = u64 (remaining h - n);
  al_bytes : n + free_bytes (free_list h') = free_bytes (free_list h);
  al_in : ∀ x, byte_in x (free_list h) ↔ p - 16 ≤ x < p - 16 + n ∨ byte_in x (free_list h');
}.

Lemma byte_in_replace x l1 c l2 b pieces :
  (∀ x, byte_in x (b :: pieces) ↔ c.1 ≤ x < block_end c) →
  byte_in x (l1 ++ c :: l2) ↔ b.1 ≤ x < block_end b ∨ byte_in x (l1 ++ pieces ++ l2).
Proof.
  intros H. rewrite !byte_in_app, byte_in_cons, <- H, byte_in_cons. tauto.
Qed.

Lemma try_alloc_ok h al needed :
  hinv h → good_alignment al → 16 ≤ needed → (16 | needed) → needed + 2 ^ 32 ≤ 2 ^ 64 →
  (∃ p h', try_alloc al needed h = Ok (Some p, h') ∧ hinv h' ∧ allocated h h' p needed ∧ (Z.max 16 al | p)) ∨
  (try_alloc al needed h = Ok (None, h) ∧ Forall (λ c, ¬ fits al needed c) (free_list h)).
Proof.
  intros Hi Hal Hn Hn16 Hmax. pose proof Hi as [(R1 & R2 & R3) Hbl Hdj Hco Hkey].
  assert (Forall (block_ok (base h) (base h + len h)) (free_list h)) as Hfl by (unfold blocks in Hbl; by apply Forall_app in Hbl as [? _]).
  unfold try_alloc.
  destruct (alloc_walk_ok (base h) (base h + len h) al needed R1 R3 Hal Hn Hn16 Hmax (free_list h) [] Hfl)
    as [(l1 & c & l2 & start & pieces & El & _ & E & [V1 V2 V3 V4 V5 V6 V7])|[E Hno]];
    rewrite E; cbn [mbind res_bind app]; [left|by right].
  assert (blocks h ≡ₚ c :: (l1 ++ l2) ++ alloc_blocks h) as Hperm.
  { unfold blocks. fold (alloc_blocks h). rewrite El. solve_Permutation. }
  rewrite Hperm in Hbl, Hdj. inversion Hbl as [|? ? Hc Hrest]; subst. inversion V2 as [|? ? Vb Vp]; subst.
  pose proof Vb as [B1 B2 B3 [B4 B5]]. cbn [fst snd] in *. unfold block_end in B5. cbn [fst snd] in B5.
  assert (u64 (start + sizeof_begin) = start + 16) as -> by (apply u64_small; unfold sizeof_begin; lia).
  assert (allocs h !! start = None) as Hnew.
  { apply eq_None_not_Some. intros [[a n] Ha]. pose proof (Hkey _ _ _ Ha) as ->.
    assert ((start, n) ∈ (l1 ++ l2) ++ alloc_blocks h) as Hin.
    { apply elem_of_app. right. rewrite (alloc_blocks_delete _ _ _ Ha). left. }
    destruct Hdj as [Hdj _]. rewrite Forall_forall in Hdj. specialize (Hdj _ Hin).
    rewrite Forall_forall in Hrest. specialize (Hrest _ Hin) as [_ _ Hn' _]. inversion V4 as [|? ? [Vi1 Vi2] _]; subst.
    unfold disj, block_end in *. cbn [fst snd] in *. lia. }
  set (h1 := set_remaining _ _). set (h' := if _ <? _ then _ else _). exists (start + 16), h'.
  assert (blocks h' ≡ₚ (start, needed) :: pieces ++ (l1 ++ l2) ++ alloc_blocks h) as Hperm'.
  { assert (blocks h' = blocks h1) as -> by (unfold h'; by destruct (_ <? _)). unfold blocks. simpl.
    rewrite (alloc_blocks_insert _ _ _ Hnew). solve_Permutation. }
  assert (base h' = base h ∧ len h' = len h ∧ data h' = data h ∧ free_list h' = l1 ++ pieces ++ l2 ∧
    allocs h' = <[start := (start, needed)]> (allocs h) ∧ remaining h' = u64 (remaining h - needed)) as (E1 & E2 & E3 & E4 & E5 & E6).
  { unfold h'. by destruct (_ <? _). }
  split_and!; [done|split|split|done].
  - by rewrite E1, E2.
  - rewrite E1, E2, Hperm'. rewrite Forall_cons, Forall_app. done.
  - rewrite Hperm'. change (pdisj (((start, needed) :: pieces) ++ (l1 ++ l2) ++ alloc_blocks h)).
    by apply (pdisj_replace c).
  - rewrite E4. rewrite El in Hco. apply (coalesced_replace l1 c); [destruct Hc; lia|done|done|].
    apply Forall_and. split; [by inversion V4|by eapply block_ok_pos].
  - rewrite E5. intros a q n [[<- [= <- <-]]|[_ ?]]%lookup_insert_Some; [done|by eapply Hkey].
  - by replace (start + 16 - 16) with start by lia.
  - by replace (start + 16 - 16) with start by lia.
  - done.
  - done.
  - done.
  - rewrite E4, El, !free_bytes_app. simpl. lia.
  - intros x. rewrite El, E4. rewrite (byte_in_replace x l1 c l2 (start, needed) pieces V7). unfold block_end.
    cbn [fst snd]. by replace (start + 16 - 16) with start by lia.
Qed.

(** ** Growing *)

Lemma block_size_ok size :
  0 ≤ size < 2 ^ 62 → ∃ n, block_size size = Some n ∧ size + 16 ≤ n < size + 32 ∧ (16 | n).
Proof.
  intros H. unfold block_size, sizeof_begin, sizeof_chunk, HEAP_ALIGN. rewrite (u64_small (size + 16)) by lia.
  rewrite (proj2 (Z.ltb_ge (size + 16) 16)) by lia. change 16 with (2 ^ 4) at 2 4.
  destruct (ROUNDUP_bounds (size + 16) 4) as [Hb Hd]; [lia..|]. rewrite (proj2 (Z.ltb_ge _ _)) by lia.
  eexists. split; [done|]. split; [lia|done].
Qed.

(** What the heap relies on of the page allocator: aligned pages that nothing
    of the heap uses, inside the address space, and not below the heap. *)
Definition page_alloc_ok (page_alloc : Z → option Z) (h : heap) : Prop :=
  ∀ n ptr, page_alloc n = Some ptr →
    0 < n ∧ (PAGE_SIZE | ptr) ∧ 0 < ptr ∧ ptr + n * PAGE_SIZE < 2 ^ 64 ∧
    Forall (disj (ptr, n * PAGE_SIZE)) (blocks h) ∧
    ((base h ≠ 0 ∧ base h ≤ ptr) ∨ (len h = 0 ∧ blocks h = [])).

(** What growing by [n] bytes at [ptr] changes. *)
Record grown (h h' : heap) (ptr n : Z) : Prop := {
  gr_allocs : allocs h' = allocs h;
  gr_data : data h' = data h;
  gr_remaining : remaining h' = u64 (remaining h + n);
  gr_bytes : free_bytes (free_list h') = n + free_bytes (free_list h);
  gr_in : ∀ x, byte_in x (free_list h') ↔ ptr ≤ x < ptr + n ∨ byte_in x (free_list h);
}.

Lemma block_ok_mono lo hi lo' hi' b : lo' ≤ lo → hi ≤ hi' → block_ok lo hi b → block_ok lo' hi' b.
Proof. intros H1 H2 [? ? ? [? ?]]. split; [done..|lia]. Qed.

(** The range of the heap after growing. *)
Lemma grow_range h ptr size :
  hinv h → 0 < ptr → 0 < size → ptr + size < 2 ^ 64 → (base h ≠ 0 ∧ base h ≤ ptr) ∨ (len h = 0 ∧ blocks h = []) →
  let b := if (ptr <? base h) || (base h =? 0) then ptr else base h in
  let l := if u64 (b + len h) <? u64 (ptr + size) then u64 (u64 (ptr + size) - b) else len h in
  0 ≤ b ∧ 0 ≤ l ∧ b + l < 2 ^ 64 ∧ b ≤ ptr ∧ ptr + size ≤ b + l ∧
  Forall (block_ok b (b + l)) (blocks h).
Proof.
  intros [(R1 & R2 & R3) Hbl _ _ _] Hp Hs Hend Hpos. cbv zeta. rewrite (u64_small (ptr + size)) by lia.
  destruct Hpos as [[Hb0 Hbp]|[Hl0 Hbs]].
  - rewrite (proj2 (Z.ltb_ge _ _)), (proj2 (Z.eqb_neq _ _)) by lia. cbn [orb]. rewrite u64_small by lia.
    destruct (Z.ltb_spec (base h + len h) (ptr + size)); [rewrite u64_small by lia|].
    + split_and!; [lia..|]. eapply Forall_impl; [exact Hbl|]. intros b. apply block_ok_mono; lia.
    + split_and!; [lia..|done].
  - rewrite Hbs, Hl0. set (b := if _ || _ then ptr else base h). assert (0 ≤ b ≤ ptr) as Hb.
    { unfold b. destruct (Z.ltb_spec ptr (base h)), (Z.eqb_spec (base h) 0); simpl; lia. }
    rewrite Z.add_0_r, (u64_small b), (proj2 (Z.ltb_lt _ _)), u64_small by lia. split_and!; [lia..|constructor].
Qed.

Lemma heap_grow_ok page_alloc size h :
  hinv h → page_alloc_ok page_alloc h → 0 < size < 2 ^ 62 + 2 ^ 33 →
  let n := ROUNDUP size PAGE_SIZE in
  match page_alloc (n / PAGE_SIZE) with
  | None => heap_grow page_alloc size h = Ok (ERR_NO_MEMORY, h)
  | Some ptr => ∃ h', heap_grow page_alloc size h = Ok (n, h') ∧ hinv h' ∧ grown h h' ptr n ∧ size ≤ n
  end.
Proof.
  intros Hi Hpa Hs. cbv zeta. unfold heap_grow. destruct (ROUNDUP_bounds size 12) as [Hb [q Hq]]; [lia..|].
  change (2 ^ 12) with PAGE_SIZE in *. set (n := ROUNDUP size PAGE_SIZE) in *.
  destruct (page_alloc (n / PAGE_SIZE)) as [ptr|] eqn:Ep; [|done].
  apply Hpa in Ep as (_ & [k Hk] & Hp0 & Hend & Hdj & Hpos).
  assert (n / PAGE_SIZE * PAGE_SIZE = n) as En by (rewrite Hq; by rewrite Z.div_mul).
  rewrite En in Hend, Hdj. unfold PAGE_SIZE in Hk, Hq, Hb.
  assert ((16 | n)) as Hn16 by (exists (q * 2 ^ 8); lia).
  rewrite create_ok by (done || lia). cbn [mbind res_bind].
  destruct (grow_range h ptr n Hi Hp0 ltac:(lia) Hend Hpos) as (G1 & G2 & G3 & G4 & G5 & G6).
  set (b := if (ptr <? base h) || (base h =? 0) then ptr else base h) in *.
  set (l := if u64 (b + len h) <? u64 (ptr + n) then u64 (u64 (ptr + n) - b) else len h) in *.
  destruct (insert_chunk_ok b (b + l) G1 G3 (ptr, n) h (alloc_blocks h)) as (a & l' & E & [I1 I2 I3 I4 I5]).
  { apply Hi. } { split; [done|apply Hi]. }
  { constructor; [|done]. split; cbn [fst snd]; [exists (k * 2 ^ 8); lia|done|lia|]. unfold block_end. cbn [fst snd]. lia. }
  rewrite E. cbn [mbind res_bind]. set (h1 := set_free_list _ _).
  set (h2 := if (ptr <? base h1) || (base h1 =? 0) then set_range ptr (len h1) h1 else h1).
  set (h' := if u64 (base h2 + len h2) <? u64 (ptr + n) then set_range (base h2) (u64 (u64 (ptr + n) - base h2)) h2 else h2).
  assert (base h' = b ∧ len h' = l ∧ free_list h' = l' ∧ allocs h' = allocs h ∧ data h' = data h ∧
      remaining h' = u64 (remaining h + n)) as (E1 & E2 & E3 & E4 & E5 & E6).
  { assert (base h2 = b ∧ len h2 = len h ∧ free_list h2 = l' ∧ allocs h2 = allocs h ∧ data h2 = data h ∧
      remaining h2 = u64 (remaining h + n)) as (F1 & F2 & F3 & F4 & F5 & F6).
    { unfold h2, b. change (base h1) with (base h). by destruct (_ || _). }
    unfold h', l. rewrite F1, F2. destruct (u64 (b + len h) <? u64 (ptr + n)); cbn; by split_and!. }
  exists h'. rewrite (s64_small n) by lia. split_and!; [done| |split; [done..|by rewrite E3|]|lia].
  - split; [by rewrite E1, E2| | |by rewrite E3|by rewrite E4; apply Hi].
    + unfold blocks. rewrite E1, E2, E3, E4. exact I3.
    + unfold blocks. rewrite E3, E4. exact I2.
  - intros x. rewrite E3, I5, byte_in_cons. done.
Qed.

Lemma coalesced_total l c d : coalesced l → c ∈ l → d ∈ l → c = d ∨ gap c d ∨ gap d c.
Proof.
  induction 1 as [|e l Hs IH Hf]; [by intros ?%elem_of_nil|]. rewrite Forall_forall in Hf.
  rewrite !elem_of_cons. intros [->|Hc] [->|Hd]; auto.
Qed.

(** A run of free bytes lies in one chunk. *)
Lemma covering_chunk l a b :
  coalesced l → a < b → (∀ x, a ≤ x < b → byte_in x l) → ∃ c, c ∈ l ∧ c.1 ≤ a ∧ b ≤ block_end c.
Proof.
  intros Hco Hab Hin. destruct (Hin a) as (c & Hc & H1 & H2); [lia|]. exists c. split_and!; [done|done|].
  destruct (Z.le_gt_cases b (block_end c)) as [|Hlt]; [done|exfalso].
  destruct (Hin (block_end c)) as (d & Hd & H3 & H4); [lia|].
  destruct (coalesced_total l c d Hco Hc Hd) as [<-|[?|?]]; unfold gap in *; lia.
Qed.

(** A chunk that is larger than the request by the alignment can hold it. *)
Lemma fits_slack lo hi al needed c :
  0 ≤ lo → hi < 2 ^ 64 → block_ok lo hi c → good_alignment al → 16 ≤ needed →
  needed + (if HEAP_ALIGN <? al then al - HEAP_ALIGN else 0) ≤ c.2 → fits al needed c.
Proof.
  intros Hlo Hhi [C1 C2 C3 [C4 C5]] Hal Hn Hs. unfold fits, front_slack, HEAP_ALIGN, sizeof_begin, block_end in *.
  destruct (Z.ltb_spec 16 al) as [Hlt|]; [|lia]. destruct Hal as [->|(k & Hk & ->)]; [lia|].
  assert (4 ≤ k) as Hk4. { destruct (decide (k < 4)); [|lia]. assert (2 ^ k ≤ 2 ^ 4) by (apply Z.pow_le_mono_r; lia). lia. }
  destruct (divide_16_pow2 k Hk4) as [e He]. destruct C1 as [a Ha].
  rewrite (u64_small (c.1 + 16)) by lia. destruct (ROUNDUP_bounds (c.1 + 16) k) as [Hb [q Hq]]; [lia..|].
  set (r := ROUNDUP _ _) in *. assert (r ≤ c.1 + 2 ^ k) as Hr.
  { rewrite He, Z.mul_assoc in Hq. rewrite He in Hb |- *. lia. }
  rewrite (u64_small (r - 16)), u64_small by lia. lia.
Qed.

(** What [miniheap_alloc] promises for the result [r]. *)
Definition alloc_post (page_alloc : Z → option Z) (size al : Z) (h : heap) (r : option Z) (h' : heap) : Prop :=
  match r with
  | Some p => good_alignment al ∧ (Z.max 16 al | p) ∧
      ∃ h0 n, (h0 = h ∨ ∃ ptr m, page_alloc (m / PAGE_SIZE) = Some ptr ∧ grown h h0 ptr m) ∧
        hinv h0 ∧ allocated h0 h' p n ∧ 16 + size ≤ n
  | None => h' = h ∧ (¬ good_alignment al ∨
      ∃ n pages, 16 + size ≤ n ∧ Forall (λ c, ¬ fits al n c) (free_list h) ∧ page_alloc pages = None)
  end.

Lemma alloc_ok page_alloc size al h :
  hinv h → page_alloc_ok page_alloc h → 0 ≤ size < 2 ^ 62 → 0 ≤ al < 2 ^ 32 →
  ∃ r h', miniheap_alloc page_alloc size al h = Ok (r, h') ∧ hinv h' ∧ alloc_post page_alloc size al h r h'.
Proof.
  intros Hi Hpa Hs Hal. unfold miniheap_alloc. pose proof (alignment_test al Hal) as Ht.
  destruct (Z.land al (u32 (al - 1)) =? 0); cbn [negb].
  2:{ exists None, h. split_and!; [done|done|]. split; [done|]. left. intros H%Ht. done. }
  assert (good_alignment al) as Hg by (by apply Ht). clear Ht.
  destruct (block_size_ok size Hs) as (n & En & Hn & Hn16). rewrite En.
  destruct (try_alloc_ok h al n Hi Hg) as [(p & h' & E & Hi' & Ha & Hp)|[E Hno]]; [lia|done|lia|..];
    rewrite E; cbn [mbind res_bind].
  { exists (Some p), h'. split_and!; [done|done|]. split_and!; [done|done|]. exists h, n. split_and!; [by left|done|done|lia]. }
  set (slack := if HEAP_ALIGN <? al then al - HEAP_ALIGN else 0).
  assert (0 ≤ slack < 2 ^ 32) as Hsl by (unfold slack, HEAP_ALIGN; destruct (Z.ltb_spec 16 al); lia).
  replace (if HEAP_ALIGN <? al then u64 (n + (al - HEAP_ALIGN)) else n) with (n + slack).
  2:{ unfold slack in *. destruct (HEAP_ALIGN <? al); [|lia]. rewrite u64_small by lia. done. }
  pose proof (heap_grow_ok page_alloc (n + slack) h Hi Hpa ltac:(lia)) as Hgr. cbv zeta in Hgr.
  set (m := ROUNDUP (n + slack) PAGE_SIZE) in *. destruct (page_alloc (m / PAGE_SIZE)) as [ptr|] eqn:Ep.
  - destruct Hgr as (hg & Eg & Hig & Hgr & Hm). rewrite Eg. cbn [mbind res_bind].
    rewrite (proj2 (Z.leb_le _ _)) by lia.
    destruct (try_alloc_ok hg al n Hig Hg) as [(p & h' & E' & Hi' & Ha & Hp)|[E' Hno']]; [lia|done|lia|..].
    + rewrite E'. exists (Some p), h'. split_and!; [done|done|]. split_and!; [done|done|]. exists hg, n.
      split_and!; [right; by exists ptr, m|done|done|lia].
    + exfalso. destruct (covering_chunk (free_list hg) ptr (ptr + m)) as (c & Hc & Hc1 & Hc2).
      * apply Hig.
      * lia.
      * intros x Hx. apply (gr_in _ _ _ _ Hgr). by left.
      * rewrite Forall_forall in Hno'. apply (Hno' c Hc). pose proof (hi_blocks _ Hig) as Hbl.
        rewrite Forall_forall in Hbl. destruct (hi_range _ Hig) as (? & ? & ?).
        apply (fits_slack (base hg) (base hg + len hg)); [done|done|apply Hbl, elem_of_app; by left|done|lia|].
        fold slack. unfold block_end in Hc2. lia.
  - rewrite Hgr. cbn [mbind res_bind]. exists None, h. split_and!; [done|done|]. split; [done|]. right.
    exists n, (m / PAGE_SIZE). split_and!; [lia|done|done].
Qed.


(** ** Allocating and freeing again *)

Lemma coalesced_cons_bytes c l :
  coalesced (c :: l) → 0 < c.2 →
  ¬ byte_in (block_end c) (c :: l) ∧ (∀ x, byte_in x (c :: l) → c.1 ≤ x) ∧
  (∀ x, byte_in x l ↔ byte_in x (c :: l) ∧ block_end c ≤ x).
Proof.
  intros Hco Hp. inversion Hco as [|? ? Hs Hf]; subst. rewrite Forall_forall in Hf.
  assert (∀ x, byte_in x l → block_end c < x) as H.
  { intros x (d & Hd & H1 & _). specialize (Hf d Hd). unfold gap in Hf. lia. }
  assert (c.1 < block_end c) by (unfold block_end; lia).
  split_and!; [|intros x|intros x]; rewrite byte_in_cons; pose proof (H (block_end c)); try specialize (H x);
    intuition lia.
Qed.

(** The free list is determined by the bytes that are free. *)
Lemma coalesced_unique l k :
  coalesced l → coalesced k → Forall (λ d, 0 < d.2) l → Forall (λ d, 0 < d.2) k →
  (∀ x, byte_in x l ↔ byte_in x k) → l = k.
Proof.
  revert k. induction l as [|c l IH]; intros k Hl Hk Pl Pk Hb.
  - destruct k as [|d k]; [done|exfalso]. inversion Pk; subst. apply (byte_in_nil d.1), Hb, byte_in_cons.
    unfold block_end. lia.
  - destruct k as [|d k].
    { exfalso. inversion Pl; subst. apply (byte_in_nil c.1), Hb, byte_in_cons. unfold block_end. lia. }
    inversion Pl as [|? ? Pc Pl']; inversion Pk as [|? ? Pd Pk']; subst.
    destruct (coalesced_cons_bytes c l Hl Pc) as (C1 & C2 & C3).
    destruct (coalesced_cons_bytes d k Hk Pd) as (D1 & D2 & D3).
    assert (∀ e m, 0 < e.2 → ∀ x, e.1 ≤ x < block_end e → byte_in x (e :: m)) as Hh
      by (intros e m _ x Hx; apply byte_in_cons; by left).
    assert (c.1 = d.1) as E1.
    { assert (d.1 ≤ c.1) by (apply D2, Hb, Hh; [done|unfold block_end; lia]).
      assert (c.1 ≤ d.1) by (apply C2, Hb, Hh; [done|unfold block_end; lia]). lia. }
    assert (block_end c = block_end d) as E2.
    { destruct (Z.lt_total (block_end c) (block_end d)) as [Hlt|[?|Hlt]]; [exfalso|done|exfalso].
      - apply C1, Hb, Hh; [done|]. unfold block_end in *. lia.
      - apply D1, Hb, Hh; [done|]. unfold block_end in *. lia. }
    assert (c = d) as <- by (destruct c, d; unfold block_end in E2; simpl in *; f_equal; lia).
    f_equal. apply IH; [by inversion Hl|by inversion Hk|done|done|]. intros x. rewrite C3, D3, Hb. done.
Qed.

Lemma free_list_pos h : hinv h → Forall (λ d, 0 < d.2) (free_list h).
Proof.
  intros [_ Hb _ _ _]. apply Forall_app in Hb as [Hb _]. by eapply block_ok_pos.
Qed.

Lemma allocated_owns h h' p n : allocated h h' p n → owns h' p n.
Proof. intros [_ E _ _ _ _ _]. unfold owns. by rewrite E, lookup_insert_eq. Qed.

Lemma alloc_free_restores h h' p n :
  hinv h → hinv h' → allocated h h' p n →
  ∃ h'', miniheap_free p h' = Ok h'' ∧ hinv h'' ∧
    free_list h'' = free_list h ∧ allocs h'' = allocs h ∧ remaining h'' = u64 (remaining h).
Proof.
  intros Hi Hi' Ha. destruct (free_ok h' p n Hi' (allocated_owns _ _ _ _ Ha)) as (h'' & E & Hi'' & Hf).
  exists h''. split_and!; [done|done|..].
  - apply coalesced_unique; [apply Hi''|apply Hi|by apply free_list_pos|by apply free_list_pos|].
    intros x. rewrite (fr_in _ _ _ _ Hf), (al_in _ _ _ _ Ha). done.
  - rewrite (fr_allocs _ _ _ _ Hf), (al_allocs _ _ _ _ Ha). by rewrite delete_insert_id by apply Ha.
  - rewrite (fr_remaining _ _ _ _ Hf), (al_remaining _ _ _ _ Ha). unfold u64. rewrite Zplus_mod_idemp_l. f_equal. lia.
Qed.


(** ** Reallocating *)

(** What [miniheap_realloc] promises to the owner of [p] and to every other. *)
Definition realloc_post (h : heap) (p n size : Z) (r : option Z) (h' : heap) : Prop :=
  match r with
  | Some q => ∃ m, owns h' q m ∧ 16 + size ≤ m ∧
      (∀ i, 0 ≤ i < Z.min size (n - 16) → data h' (q + i) = data h (p + i)) ∧
      (∀ a k, a ≠ p → owns h a k → a ≠ q ∧ owns h' a k ∧ ∀ i, 0 ≤ i < k - 16 → data h' (a + i) = data h (a + i))
  | None => h' = h
  end.

Lemma resized_blocks h p n m :
  owns h p n → (map_to_list (<[p - 16 := (p - 16, m)]> (allocs h))).*2 ≡ₚ (p - 16, m) :: others (p - 16) h.
Proof.
  intros Ho. rewrite <- insert_delete_eq, map_to_list_insert by apply lookup_delete_eq. done.
Qed.

Lemma blocks_owned h p n : owns h p n → blocks h ≡ₚ (p - 16, n) :: free_list h ++ others (p - 16) h.
Proof.
  intros Ho. unfold blocks. fold (alloc_blocks h). rewrite (alloc_blocks_delete _ _ _ Ho). by rewrite Permutation_middle.
Qed.

(** The heap with the block of [p] resized to [m] and the free list [l']. *)
Lemma resized_ok h h' p n m size :
  hinv h → owns h p n → 16 + size ≤ m → 0 ≤ base h → base h' = base h → len h' = len h → data h' = data h →
  allocs h' = <[p - 16 := (p - 16, m)]> (allocs h) → coalesced (free_list h') →
  pdisj (free_list h' ++ (p - 16, m) :: others (p - 16) h) →
  Forall (block_ok (base h) (base h + len h)) (free_list h' ++ (p - 16, m) :: others (p - 16) h) →
  hinv h' ∧ realloc_post h p n size (Some p) h'.
Proof.
  intros Hi Ho Hm Hb0 Eb El Ed Ea Hco Hd Hok. split.
  - split; [rewrite Eb, El; apply Hi| | |done|].
    + unfold blocks. rewrite Eb, El, Ea, (resized_blocks h p n m Ho). done.
    + unfold blocks. rewrite Ea, (resized_blocks h p n m Ho). done.
    + rewrite Ea. intros a q k [[<- [= <- <-]]|[_ ?]]%lookup_insert_Some; [done|by eapply Hi].
  - exists m. split_and!; [unfold owns; by rewrite Ea, lookup_insert_eq|done|by rewrite Ed|].
    intros a k Ha Hoa. split_and!; [done| |by rewrite Ed]. unfold owns in *. rewrite Ea, lookup_insert_ne by lia. done.
Qed.

Lemma shrink_ok h p n m size :
  hinv h → owns h p n → (16 | m) → 16 + size ≤ m → 0 < size → 16 ≤ n - m →
  let h1 := set_remaining (u64 (remaining h - (n - m))) (set_allocs (<[p - 16 := (p - 16, m)]> (allocs h)) h) in
  ∃ a h', heap_insert_free_chunk (p - 16 + m, n - m) h1 = Ok (a, h') ∧ hinv h' ∧ realloc_post h p n size (Some p) h'.
Proof.
  intros Hi Ho Hm16 Hm Hs Hnm. cbv zeta. destruct (owns_block h p n Hi Ho) as [[B1 B2 B3 [B4 B5]] _].
  unfold block_end in B5. cbn [fst snd] in *. pose proof Hi as [(R1 & R2 & R3) Hbl Hdj Hco _].
  rewrite (blocks_owned h p n Ho) in Hbl, Hdj. inversion Hbl as [|? ? _ Hrest]; subst.
  set (h1 := set_remaining _ _).
  assert (pdisj ([(p - 16 + m, n - m); (p - 16, m)] ++ free_list h ++ others (p - 16) h)) as Hd2.
  { eapply pdisj_replace; [exact Hdj| |].
    - split_and!; [|by constructor..]. apply Forall_singleton. right. unfold block_end. cbn. lia.
    - constructor; [|constructor; [|constructor]]; unfold inside, block_end; cbn; lia. }
  destruct (insert_chunk_ok (base h) (base h + len h) R1 R3 (p - 16 + m, n - m) h1 ((p - 16, m) :: others (p - 16) h))
    as (a & l' & E & [I1 I2 I3 I4 I5]).
  - done.
  - eapply pdisj_perm; [|exact Hd2]. cbn. solve_Permutation.
  - apply Forall_app in Hrest as [H1 H2]. constructor.
    + split; unfold block_end; cbn [fst snd]; [by apply Z.divide_add_r|by apply Z.divide_sub_r|lia|lia].
    + apply Forall_app. split; [done|]. constructor; [|done]. split; unfold block_end; cbn [fst snd]; [done|done|lia|lia].
  - eexists a, _. split; [exact E|]. by eapply (resized_ok h _ p n m).
Qed.

Lemma find_free_chunk_at_spec addr l :
  match find_free_chunk_at addr l with
  | Some (before, n, after) => l = before ++ (addr, n) :: after
  | None => True
  end.
Proof.
  induction l as [|c l IH]; cbn [find_free_chunk_at]; [done|]. destruct (Z.eqb_spec c.1 addr) as [<-|].
  - by destruct c.
  - destruct (find_free_chunk_at addr l) as [[[before m] after]|]; [|done]. cbn. by rewrite IH.
Qed.

(** Taking the first [m - n] bytes of the free chunk behind the block. *)
Lemma take_behind h p n before fn after m size pieces :
  hinv h → owns h p n → free_list h = before ++ (p - 16 + n, fn) :: after →
  (16 | m) → n ≤ m ≤ n + fn → 16 + size ≤ m →
  pieces = (if 16 <=? n + fn - m then [(p - 16 + m, n + fn - m)] else []) → (16 ≤ n + fn - m ∨ n + fn - m = 0) →
  ∀ r, let h' := set_remaining r (set_allocs (<[p - 16 := (p - 16, m)]> (allocs h)) (set_free_list (before ++ pieces ++ after) h)) in
  hinv h' ∧ realloc_post h p n size (Some p) h'.
Proof.
  intros Hi Ho El Hm16 Hm Hs Hp Hrem r. cbv zeta. destruct (owns_block h p n Hi Ho) as [[B1 B2 B3 [B4 B5]] _].
  unfold block_end in B5. cbn [fst snd] in *. pose proof Hi as [(R1 & R2 & R3) Hbl Hdj Hco _].
  rewrite (blocks_owned h p n Ho), El in Hbl, Hdj.
  assert ((p - 16, n) :: (before ++ (p - 16 + n, fn) :: after) ++ others (p - 16) h ≡ₚ
    (p - 16, n) :: (p - 16 + n, fn) :: (before ++ after) ++ others (p - 16) h) as Hperm by solve_Permutation.
  rewrite Hperm in Hbl, Hdj. clear Hperm.
  inversion Hbl as [|? ? Hb1 Hbl1]; inversion Hbl1 as [|? ? [F1 F2 F3 [F4 F5]] Hrest]; subst. unfold block_end in F5. cbn [fst snd] in *.
  apply pdisj_merge in Hdj; [|lia|lia|by eapply block_ok_pos].
  set (pieces := if 16 <=? n + fn - m then [(p - 16 + m, n + fn - m)] else []).
  assert (Forall (λ b, inside b (p - 16 + n, fn) ∧ 0 < b.2) pieces ∧ coalesced pieces ∧ Forall (block_ok (base h) (base h + len h)) pieces ∧
    pdisj ((p - 16, m) :: pieces) ∧ Forall (λ b, inside b (p - 16, n + fn)) ((p - 16, m) :: pieces)) as (P1 & P2 & P3 & P4 & P5).
  { unfold pieces. destruct (Z.leb_spec 16 (n + fn - m)); unfold coalesced, inside, disj, block_end; cbn.
    - split_and!; repeat first [apply Forall_cons; split|apply Forall_nil|apply SSorted_nil|apply SSorted_cons]; cbn; try lia; try done.
      + split; unfold block_end; cbn; [by apply Z.divide_add_r| |lia|lia].
        apply Z.divide_sub_r; [by apply Z.divide_add_r|done].
      + left. unfold block_end. cbn. lia.
    - split_and!; repeat first [apply Forall_cons; split|apply Forall_nil|apply SSorted_nil|apply SSorted_cons]; cbn; try lia; try done. }
  apply (resized_ok h _ p n m); try done; cbn [free_list set_remaining set_allocs set_free_list].
  - rewrite El in Hco. eapply coalesced_replace; [|exact Hco|done|done]. cbn. lia.
  - assert ((before ++ pieces ++ after) ++ (p - 16, m) :: others (p - 16) h ≡ₚ
      ((p - 16, m) :: pieces) ++ (before ++ after) ++ others (p - 16) h) as -> by solve_Permutation.
    eapply pdisj_replace; [exact Hdj|done|done].
  - assert ((before ++ pieces ++ after) ++ (p - 16, m) :: others (p - 16) h ≡ₚ
      (p - 16, m) :: pieces ++ (before ++ after) ++ others (p - 16) h) as -> by solve_Permutation.
    constructor; [|by apply Forall_app]. split; unfold block_end; cbn; [done|done|lia|lia].
Qed.

Lemma grow_in_place_ok h p n m size :
  hinv h → owns h p n → (16 | m) → n < m → 16 + size ≤ m → m < 2 ^ 63 →
  grow_in_place (p - 16 + n) n m h = Ok None ∨
  ∃ k l, grow_in_place (p - 16 + n) n m h = Ok (Some (k, l)) ∧
    ∀ r, let h' := set_remaining r (set_allocs (<[p - 16 := (p - 16, k)]> (allocs h)) (set_free_list l h)) in
    hinv h' ∧ realloc_post h p n size (Some p) h'.
Proof.
  intros Hi Ho Hm16 Hnm Hs Hmax. unfold grow_in_place. pose proof (find_free_chunk_at_spec (p - 16 + n) (free_list h)) as Hf.
  destruct (find_free_chunk_at _ _) as [[[before fn] after]|]; [|by left].
  destruct (owns_block h p n Hi Ho) as [[B1 B2 B3 [B4 B5]] _]. unfold block_end in B5. cbn [fst snd] in *.
  pose proof (hi_blocks _ Hi) as Hbl. rewrite Forall_forall in Hbl.
  destruct (Hbl (p - 16 + n, fn)) as [F1 F2 F3 [F4 F5]]; [unfold blocks; rewrite Hf; set_solver|].
  unfold block_end in F5. cbn [fst snd] in *. destruct (hi_range _ Hi) as (R1 & R2 & R3).
  rewrite (u64_small (n + fn)) by lia. destruct (Z.leb_spec m (n + fn)) as [Hle|]; [|by left]. right.
  rewrite (u64_small (m - n)), (u64_small (fn - _)) by lia. unfold sizeof_chunk.
  replace (fn - (m - n)) with (n + fn - m) by lia. replace (p - 16 + n + (m - n)) with (p - 16 + m) by lia.
  assert ((16 | n + fn - m)) as H16 by (apply Z.divide_sub_r; [by apply Z.divide_add_r|done]).
  assert (16 ≤ n + fn - m ∨ n + fn - m = 0) as Hrem by (destruct H16 as [q Hq]; lia).
  pose proof (take_behind h p n before fn after m size _ Hi Ho Hf Hm16 ltac:(lia) Hs eq_refl Hrem) as Ht.
  destruct (Z.leb_spec 16 (n + fn - m)) as [Hge|Hlt].
  - rewrite (u64_small (p - 16 + m)), create_ok by (done || lia). cbn [mbind res_bind]. eexists _, _. split; [done|exact Ht].
  - assert (n + fn = m) as -> by lia. eexists _, _. split; [done|exact Ht].
Qed.

Lemma hinv_set_data d h : hinv h → hinv (set_data d h).
Proof. intros [? ? ? ? ?]. by split. Qed.

Lemma memcpy_in dst src n d i : 0 ≤ i < n → memcpy dst src n d (dst + i) = d (src + i).
Proof.
  intros H. unfold memcpy. rewrite (proj2 (Z.leb_le _ _)), (proj2 (Z.ltb_lt _ _)) by lia. cbn [andb]. f_equal. lia.
Qed.

Lemma memcpy_out dst src n d a : a < dst ∨ dst + n ≤ a → memcpy dst src n d a = d a.
Proof.
  intros H. unfold memcpy. destruct (Z.leb_spec dst a), (Z.ltb_spec a (dst + n)); cbn [andb]; lia || done.
Qed.

(** Blocks of different owners are disjoint. *)
Lemma owners_disjoint h p n q m : hinv h → owns h p n → owns h q m → p ≠ q → disj (p - 16, n) (q - 16, m).
Proof.
  intros Hi Hp Hq Hne. pose proof (hi_disj _ Hi) as Hd. rewrite (blocks_owned h p n Hp) in Hd.
  destruct Hd as [Hd _]. rewrite Forall_forall in Hd. apply Hd, elem_of_app. right. unfold others.
  apply list_elem_of_fmap. exists (q - 16, (q - 16, m)). split; [done|]. apply elem_of_map_to_list.
  rewrite lookup_delete_ne by lia. exact Hq.
Qed.

(** The block is moved: allocate, copy and free. *)
Lemma move_ok h h0 h1 p n q k size :
  hinv h1 → owns h p n → 0 < size → 16 ≤ n → allocs h0 = allocs h → data h0 = data h → allocated h0 h1 q k → 16 + size ≤ k →
  let h2 := set_data (memcpy q p (if size <? n - 16 then size else n - 16) (data h1)) h1 in
  ∃ h', miniheap_free p h2 = Ok h' ∧ hinv h' ∧ realloc_post h p n size (Some q) h'.
Proof.
  intros Hi1 Ho Hs Hn Ea Ed Hal Hk. cbv zeta. set (c := if size <? n - 16 then size else n - 16).
  assert (c = Z.min size (n - 16)) as Hc by (unfold c; destruct (Z.ltb_spec size (n - 16)); lia).
  set (h2 := set_data _ h1). pose proof Hal as [A1 A2 A3 _ _ _ _]. rewrite Ea in A1, A2.
  assert (∀ a k', owns h a k' → a ≠ q ∧ owns h1 a k') as Hoth.
  { intros a k' Hoa. assert (a ≠ q) as Hne by (intros ->; unfold owns in Hoa; congruence). split; [done|].
    unfold owns in *. rewrite A2, lookup_insert_ne by lia. done. }
  destruct (Hoth p n Ho) as [Hpq Ho1]. pose proof (allocated_owns _ _ _ _ Hal) as Hoq.
  destruct (free_ok h2 p n) as (h' & E & Hi' & Hf); [by apply hinv_set_data|done|].
  exists h'. split_and!; [done|done|]. pose proof (fr_allocs _ _ _ _ Hf) as Ea'. pose proof (fr_data _ _ _ _ Hf) as Ed'.
  cbn [allocs data h2 set_data] in Ea', Ed'. rewrite A3, Ed in Ed'. unfold realloc_post. rewrite Ed'. exists k. split_and!; [|done|..].
  - unfold owns in *. rewrite Ea', lookup_delete_ne by lia. done.
  - intros i Hi. apply memcpy_in. lia.
  - intros a k' Hap Hoa. destruct (Hoth a k' Hoa) as [Haq Hoa1]. split_and!; [done| |].
    + unfold owns in *. rewrite Ea', lookup_delete_ne by lia. done.
    + intros i Hi. apply memcpy_out. pose proof (owners_disjoint h1 a k' q k Hi1 Hoa1 Hoq Haq) as Hd.
      unfold disj, block_end in Hd. cbn [fst snd] in Hd. lia.
Qed.


(** ** Trimming *)

(** The whole pages inside a chunk, and what surrounds them. *)
Definition first_page (c : chunk) : Z := ROUNDUP c.1 PAGE_SIZE.
Definition end_page (c : chunk) : Z := ROUNDDOWN (block_end c) PAGE_SIZE.

Definition trim_pages (c : chunk) : option (Z * Z) :=
  if first_page c <? end_page c then Some (first_page c, end_page c) else None.
Definition trim_front (c : chunk) : list chunk :=
  if first_page c <? end_page c
  then (if first_page c =? c.1 then [] else [(c.1, first_page c - c.1)]) else [c].
Definition trim_rear (c : chunk) : list chunk :=
  if (first_page c <? end_page c) && (end_page c <? block_end c)
  then [(end_page c, block_end c - end_page c)] else [].

Definition page_bytes (o : option (Z * Z)) : Z := match o with Some (a, b) => b - a | None => 0 end.
Definition page_run (o : option (Z * Z)) : list (Z * Z) :=
  match o with Some (a, b) => [(a, (b - a) / PAGE_SIZE)] | None => [] end.

Lemma page_bounds lo hi c :
  0 ≤ lo → hi + PAGE_SIZE ≤ 2 ^ 64 → block_ok lo hi c →
  c.1 ≤ first_page c < c.1 + PAGE_SIZE ∧ (PAGE_SIZE | first_page c) ∧
  block_end c - PAGE_SIZE < end_page c ≤ block_end c ∧ (PAGE_SIZE | end_page c) ∧
  (16 | first_page c) ∧ (16 | end_page c) ∧ (16 | block_end c).
Proof.
  intros Hlo Hhi [C1 C2 C3 [C4 C5]]. unfold first_page, end_page, block_end, PAGE_SIZE in *. change 4096 with (2 ^ 12) in *.
  destruct (ROUNDUP_bounds c.1 12) as [Hb Hd]; [lia..|]. rewrite ROUNDDOWN_spec by lia.
  pose proof (Z.mod_pos_bound (c.1 + c.2) (2 ^ 12) ltac:(lia)).
  assert ((2 ^ 12 | c.1 + c.2 - (c.1 + c.2) `mod` 2 ^ 12)) as Hd2.
  { exists ((c.1 + c.2) / 2 ^ 12). pose proof (Z.div_mod (c.1 + c.2) (2 ^ 12)). lia. }
  assert ((16 | 2 ^ 12)) as H16 by (by exists 256).
  split_and!; [lia..|done|lia|lia|done| | |by apply Z.divide_add_r]; by (eapply Z.divide_trans; [exact H16|]).
Qed.

(** Chunks and pages are multiples of the header size, so that no page has to be
    given up for lack of room. *)
Lemma trim_chunk_ok lo hi c :
  0 ≤ lo → hi + PAGE_SIZE ≤ 2 ^ 64 → block_ok lo hi c →
  trim_chunk 3 c.1 c.2 (first_page c) (end_page c) = Ok (trim_pages c, trim_front c, trim_rear c).
Proof.
  intros Hlo Hhi Hc. destruct (page_bounds lo hi c Hlo Hhi Hc) as (P1 & P2 & P3 & P4 & P5 & P6 & P7).
  pose proof Hc as [[a Ha] C2 C3 [C4 C5]]. unfold trim_pages, trim_front, trim_rear. cbn [trim_chunk].
  rewrite (block_end_small lo hi) by (done || unfold PAGE_SIZE in *; lia). unfold sizeof_chunk.
  set (sp := first_page c) in *. set (ep := end_page c) in *. set (e := block_end c) in *.
  assert ((16 | e - ep)) as Hr by (by apply Z.divide_sub_r).
  destruct (Z.ltb_spec sp ep) as [Hlt|]; cbn [andb]; [|by destruct c].
  destruct (Z.eqb_spec sp c.1) as [E1|N1]; cbn [negb andb].
  - destruct (Z.eqb_spec ep e) as [E2|N2].
    + rewrite (proj2 (Z.ltb_ge ep e)) by lia. done.
    + rewrite (proj2 (Z.ltb_lt ep e)) by lia. assert (16 ≤ e - ep) by (destruct Hr as [q Hq]; lia).
      rewrite (proj2 (Z.ltb_ge (e - ep) 16)), create_ok by (done || lia). done.
  - assert (16 ≤ sp - c.1) by (destruct P5 as [q Hq]; lia). rewrite (proj2 (Z.ltb_ge (sp - c.1) 16)) by lia.
    destruct (Z.ltb_spec ep e) as [Hlt2|Hge].
    + assert (16 ≤ e - ep) by (destruct Hr as [q Hq]; lia).
      rewrite (proj2 (Z.ltb_ge (e - ep) 16)), create_ok by (done || lia). cbn [mbind res_bind].
      do 5 f_equal. unfold e, block_end. lia.
    + do 5 f_equal. unfold e, block_end in *. lia.
Qed.

Lemma ROUNDUP_page x : (PAGE_SIZE | x) → 0 ≤ x → x + PAGE_SIZE ≤ 2 ^ 64 → ROUNDUP x PAGE_SIZE = x.
Proof.
  intros [k Hk] H0 H1. change PAGE_SIZE with (2 ^ 12) in *. destruct (ROUNDUP_bounds x 12) as [Hb [q Hq]]; [lia..|]. lia.
Qed.

Lemma ROUNDDOWN_page x : (PAGE_SIZE | x) → ROUNDDOWN x PAGE_SIZE = x.
Proof.
  intros H. change PAGE_SIZE with (2 ^ 12) in *. rewrite ROUNDDOWN_spec by lia. apply Z.mod_divide in H; [|done]. lia.
Qed.

(** No whole page is left in what stays. *)
Lemma trim_no_page lo hi c b :
  0 ≤ lo → hi + PAGE_SIZE ≤ 2 ^ 64 → block_ok lo hi c → b ∈ trim_front c ++ trim_rear c → end_page b ≤ first_page b.
Proof.
  intros Hlo Hhi Hc Hb. destruct (page_bounds lo hi c Hlo Hhi Hc) as (P1 & P2 & P3 & P4 & _).
  destruct Hc as [_ _ C3 [C4 C5]]. unfold trim_front, trim_rear in Hb.
  destruct (Z.ltb_spec (first_page c) (end_page c)) as [Hlt|]; cbn [andb] in Hb.
  2:{ apply list_elem_of_singleton in Hb as ->. done. }
  apply elem_of_app in Hb as [Hb|Hb]; case_match; try (by apply elem_of_nil in Hb); apply list_elem_of_singleton in Hb as ->.
  - unfold end_page at 1, block_end. cbn [fst snd]. change (first_page (c.1, _)) with (first_page c).
    replace (c.1 + (first_page c - c.1)) with (first_page c) by lia. by rewrite ROUNDDOWN_page.
  - unfold end_page at 1, first_page, block_end at 1. cbn [fst snd]. replace (end_page c + (block_end c - end_page c)) with (block_end c) by lia.
    fold (end_page c). rewrite ROUNDUP_page; [lia|done|lia|lia].
Qed.

(** The pieces that stay and the pages that go make up the chunk. *)
Lemma trim_pieces lo hi c :
  0 ≤ lo → hi + PAGE_SIZE ≤ 2 ^ 64 → block_ok lo hi c →
  let kept := trim_front c ++ trim_rear c in
  Forall (block_ok lo hi) kept ∧ pdisj kept ∧ Forall (λ b, inside b c ∧ 0 < b.2) kept ∧ coalesced kept ∧
  free_bytes kept + page_bytes (trim_pages c) = c.2 ∧
  (∀ x, c.1 ≤ x < block_end c ↔ byte_in x kept ∨ ∃ a b, trim_pages c = Some (a, b) ∧ a ≤ x < b).
Proof.
  intros Hlo Hhi Hc. cbv zeta. destruct (page_bounds lo hi c Hlo Hhi Hc) as (P1 & P2 & P3 & P4 & P5 & P6 & P7).
  pose proof Hc as [C1 C2 C3 [C4 C5]]. unfold trim_pages, trim_front, trim_rear.
  set (sp := first_page c) in *. set (ep := end_page c) in *. set (e := block_end c) in *.
  assert (e = c.1 + c.2) as He by done.
  destruct (Z.ltb_spec sp ep) as [Hlt|]; cbn [andb app].
  2:{ split_and!; [by constructor|by repeat constructor| |repeat constructor|cbn; lia|].
      - constructor; [|constructor]. unfold inside, block_end. lia.
      - intros x. rewrite byte_in_cons, byte_in_nil. fold e. split; [by left; left|]. intros [[?|[]]|(? & ? & [=] & _)]. done. }
  assert (∀ x, (∃ a b, Some (sp, ep) = Some (a, b) ∧ a ≤ x < b) ↔ sp ≤ x < ep) as Hpg by naive_solver.
  assert (0 < sp - c.1 → 16 ≤ sp - c.1) by (destruct P5 as [q Hq], C1 as [q' Hq']; lia).
  assert (0 < e - ep → 16 ≤ e - ep) by (destruct P6 as [q Hq], P7 as [q' Hq']; lia).
  assert ((16 | sp - c.1)) by (by apply Z.divide_sub_r). assert ((16 | e - ep)) by (by apply Z.divide_sub_r).
  destruct (Z.eqb_spec sp c.1), (Z.ltb_spec ep e); cbn [app].
  all: split_and!; [| | | |cbn; lia|intros x; rewrite Hpg, ?byte_in_cons, byte_in_nil; unfold block_end; cbn; lia].
  all: unfold coalesced; repeat first [apply Forall_cons; split | apply Forall_nil | apply SSorted_nil | apply SSorted_cons | split];
    unfold inside, disj, gap, block_end; cbn; try done; lia.
Qed.

(** Replacing every chunk of a list by parts of it. *)
Lemma pdisj_parts (f : chunk → list chunk) l : ∀ O,
  pdisj (l ++ O) → Forall (λ c, pdisj (f c) ∧ Forall (λ b, inside b c) (f c)) l → pdisj (concat (f <$> l) ++ O).
Proof.
  induction l as [|c l IH]; intros O Hd Hf; [done|]. inversion Hf as [|? ? [Hp Hi] Hf']; subst.
  cbn [fmap list_fmap concat]. rewrite <- app_assoc. apply (pdisj_replace c); [|done|done].
  assert (c :: concat (f <$> l) ++ O ≡ₚ concat (f <$> l) ++ c :: O) as -> by (by rewrite Permutation_middle).
  apply IH; [|done]. eapply pdisj_perm; [|exact Hd]. cbn. by rewrite Permutation_middle.
Qed.

Lemma coalesced_parts (f : chunk → list chunk) l : ∀ pre,
  coalesced (pre ++ l) → Forall (λ c, 0 < c.2 ∧ coalesced (f c) ∧ Forall (λ b, inside b c ∧ 0 < b.2) (f c)) l →
  coalesced (pre ++ concat (f <$> l)).
Proof.
  induction l as [|c l IH]; intros pre Hco Hf; [done|]. inversion Hf as [|? ? (Hc & Hp & Hi) Hf']; subst.
  cbn [fmap list_fmap concat]. rewrite app_assoc. apply IH; [|done]. rewrite <- app_assoc.
  eapply coalesced_replace; [exact Hc|done|done|done].
Qed.

Definition kept (c : chunk) : list chunk := trim_front c ++ trim_rear c.
Definition returned (l : list chunk) : list (Z * Z) := concat ((λ c, page_run (trim_pages c)) <$> l).
Definition returned_bytes (l : list chunk) : Z := foldr (λ c s, page_bytes (trim_pages c) + s) 0 l.

Lemma trim_step lo hi fuel pre c l freed h :
  0 ≤ lo → hi + PAGE_SIZE ≤ 2 ^ 64 → block_ok lo hi c →
  ∃ r, trim_loop (S fuel) pre (c :: l) freed h =
      trim_loop fuel (pre ++ trim_front c) (trim_rear c ++ l) (freed ++ page_run (trim_pages c)) (set_remaining r h) ∧
    u64 r = u64 (remaining h - page_bytes (trim_pages c)).
Proof.
  intros Hlo Hhi Hc. destruct (page_bounds lo hi c Hlo Hhi Hc) as (P1 & _ & P3 & _). destruct Hc as [C1 C2 C3 [C4 C5]] eqn:Ehc.
  cbn [trim_loop]. rewrite (block_end_small lo hi) by (done || unfold PAGE_SIZE in *; lia).
  fold (first_page c) (end_page c). rewrite (proj2 (Z.ltb_lt c.1 _)), (proj2 (Z.leb_le _ (block_end c))), (proj2 (Z.leb_le c.1 _))
    by (unfold block_end in *; lia).
  cbn [assert_ mbind res_bind]. rewrite (trim_chunk_ok lo hi) by done. cbn [mbind res_bind].
  destruct (trim_pages c) as [[a b]|]; cbn [page_run page_bytes].
  - eexists. split; [done|]. apply u64_small, u64_range.
  - exists (remaining h). rewrite app_nil_r, Z.sub_0_r. split; [|done]. by destruct h.
Qed.

(** The chunk split off behind holds no whole page: it is passed over. *)
Lemma trim_rear_step lo hi c fuel pre l freed h :
  0 ≤ lo → hi + PAGE_SIZE ≤ 2 ^ 64 → block_ok lo hi c → (1 ≤ fuel)%nat →
  ∃ fuel' r, (fuel ≤ S fuel')%nat ∧ trim_loop fuel pre (trim_rear c ++ l) freed h =
    trim_loop fuel' (pre ++ trim_rear c) l freed (set_remaining r h) ∧ u64 r = u64 (remaining h).
Proof.
  intros Hlo Hhi Hc Hf. destruct (trim_pieces lo hi c Hlo Hhi Hc) as (Hok & _).
  pose proof (λ b, trim_no_page lo hi c b Hlo Hhi Hc) as Hno. fold (kept c) in Hok, Hno. unfold kept in *.
  destruct (trim_rear c) as [|b rest] eqn:Er; cbn [app].
  - exists fuel, (remaining h). rewrite app_nil_r. split_and!; [lia| |done]. f_equal. by destruct h.
  - assert (rest = []) as -> by (unfold trim_rear in Er; case_match; by simplify_eq).
    destruct fuel as [|fuel]; [lia|]. apply Forall_app in Hok as [_ Hok]. inversion Hok as [|? ? Hb _]; subst.
    destruct (trim_step lo hi fuel pre b l freed h Hlo Hhi Hb) as (r & E & Hr).
    assert (trim_pages b = None ∧ trim_front b = [b] ∧ trim_rear b = []) as (E1 & E2 & E3).
    { specialize (Hno b ltac:(set_solver)). unfold trim_pages, trim_front, trim_rear.
      by rewrite (proj2 (Z.ltb_ge _ _)). }
    rewrite E1, E2, E3 in E. rewrite E1 in Hr. cbn [page_run page_bytes app] in *. rewrite app_nil_r in E. rewrite Z.sub_0_r in Hr.
    exists fuel, r. split_and!; [lia|done|done].
Qed.

Lemma set_remaining_twice r r' h : set_remaining r (set_remaining r' h) = set_remaining r h.
Proof. done. Qed.

Lemma u64_sub_l x y : u64 (u64 x - y) = u64 (x - y).
Proof. unfold u64. by rewrite Zminus_mod_idemp_l. Qed.

Lemma trim_loop_ok lo hi : 0 ≤ lo → hi + PAGE_SIZE ≤ 2 ^ 64 → ∀ l fuel pre freed h,
  Forall (block_ok lo hi) l → (2 * length l ≤ fuel)%nat →
  ∃ r, trim_loop fuel pre l freed h = Ok (freed ++ returned l, set_free_list (pre ++ concat (kept <$> l)) (set_remaining r h)) ∧
    u64 r = u64 (remaining h - returned_bytes l).
Proof.
  intros Hlo Hhi l. induction l as [|c l IH]; intros fuel pre freed h Hl Hf.
  - exists (remaining h). destruct fuel; cbn; rewrite !app_nil_r, Z.sub_0_r; (split; [by destruct h|done]).
  - inversion Hl as [|? ? Hc Hl']; subst. cbn [length] in Hf. destruct fuel as [|fuel]; [lia|].
    destruct (trim_step lo hi fuel pre c l freed h Hlo Hhi Hc) as (r1 & -> & Hr1).
    destruct (trim_rear_step lo hi c fuel (pre ++ trim_front c) l (freed ++ page_run (trim_pages c)) (set_remaining r1 h) Hlo Hhi Hc ltac:(lia))
      as (fuel' & r2 & Hf' & -> & Hr2). cbn [remaining set_remaining] in Hr2.
    destruct (IH fuel' ((pre ++ trim_front c) ++ trim_rear c) (freed ++ page_run (trim_pages c)) (set_remaining r2 (set_remaining r1 h)) Hl' ltac:(lia))
      as (r3 & -> & Hr3). cbn [remaining set_remaining] in Hr3. exists r3. split.
    + cbn [fmap list_fmap concat returned]. unfold kept at 2, returned. cbn [fmap list_fmap concat]. by rewrite <- !app_assoc.
    + cbn [returned_bytes foldr]. fold (returned_bytes l). rewrite Hr3, <- u64_sub_l, Hr2, Hr1, u64_sub_l. f_equal. lia.
Qed.

Lemma byte_in_concat x (f : chunk → list chunk) l :
  byte_in x (concat (f <$> l)) ↔ ∃ c, c ∈ l ∧ byte_in x (f c).
Proof.
  induction l as [|c l IH]; cbn [fmap list_fmap concat].
  - rewrite byte_in_nil. split; [done|]. by intros (? & ?%elem_of_nil & _).
  - rewrite byte_in_app, IH. setoid_rewrite elem_of_cons. naive_solver.
Qed.

Lemma elem_of_returned a n l :
  (a, n) ∈ returned l ↔ ∃ c b, c ∈ l ∧ trim_pages c = Some (a, b) ∧ n = (b - a) / PAGE_SIZE.
Proof.
  unfold returned. induction l as [|c l IH]; cbn [fmap list_fmap concat].
  - split; [by intros ?%elem_of_nil|]. by intros (? & ? & ?%elem_of_nil & _).
  - rewrite elem_of_app, IH. setoid_rewrite elem_of_cons.
    assert ((a, n) ∈ page_run (trim_pages c) ↔ ∃ b, trim_pages c = Some (a, b) ∧ n = (b - a) / PAGE_SIZE) as ->.
    { destruct (trim_pages c) as [[a' b']|]; cbn; [rewrite list_elem_of_singleton|rewrite elem_of_nil]; naive_solver. }
    naive_solver.
Qed.

Lemma trim_pages_run lo hi c a b :
  0 ≤ lo → hi + PAGE_SIZE ≤ 2 ^ 64 → block_ok lo hi c → trim_pages c = Some (a, b) →
  (PAGE_SIZE | a) ∧ a + (b - a) / PAGE_SIZE * PAGE_SIZE = b.
Proof.
  intros Hlo Hhi Hc. destruct (page_bounds lo hi c Hlo Hhi Hc) as (_ & P2 & _ & P4 & _).
  unfold trim_pages. case_match; [|done]. intros [= <- <-]. split; [done|].
  assert ((PAGE_SIZE | end_page c - first_page c)) as [q Hq] by (by apply Z.divide_sub_r).
  rewrite Hq, Z.div_mul by done. lia.
Qed.

Lemma trimmed_bytes lo hi l :
  0 ≤ lo → hi + PAGE_SIZE ≤ 2 ^ 64 → Forall (block_ok lo hi) l →
  free_bytes l = free_bytes (concat (kept <$> l)) + returned_bytes l ∧
  (∀ x, byte_in x l ↔ byte_in x (concat (kept <$> l)) ∨
    ∃ a n, (a, n) ∈ returned l ∧ (PAGE_SIZE | a) ∧ a ≤ x < a + n * PAGE_SIZE).
Proof.
  intros Hlo Hhi Hl. split.
  - induction Hl as [|c l Hc Hl IH]; [done|]. cbn [fmap list_fmap concat]. rewrite free_bytes_app. cbn [free_bytes foldr returned_bytes].
    destruct (trim_pieces lo hi c Hlo Hhi Hc) as (_ & _ & _ & _ & Hb & _). fold (kept c) in Hb.
    change (foldr (λ c0 s, c0.2 + s) 0 l) with (free_bytes l).
    change (foldr (λ c0 s, page_bytes (trim_pages c0) + s) 0 l) with (returned_bytes l). lia.
  - intros x. rewrite byte_in_concat. setoid_rewrite elem_of_returned. rewrite Forall_forall in Hl. split.
    + intros (c & Hc & Hx). destruct (trim_pieces lo hi c Hlo Hhi (Hl c Hc)) as (_ & _ & _ & _ & _ & Hin).
      apply Hin in Hx as [Hx|(a & b & Ep & Hx)]; [left; by exists c|right].
      destruct (trim_pages_run lo hi c a b Hlo Hhi (Hl c Hc) Ep) as [Ha Hb].
      exists a, ((b - a) / PAGE_SIZE). split_and!; [by exists c, b|done|lia|lia].
    + intros [(c & Hc & Hx)|(a & n & (c & b & Hc & Ep & ->) & _ & Hx)]; exists c; (split; [done|]);
        destruct (trim_pieces lo hi c Hlo Hhi (Hl c Hc)) as (_ & _ & _ & _ & _ & Hin); apply Hin; [by left|right].
      destruct (trim_pages_run lo hi c a b Hlo Hhi (Hl c Hc) Ep) as [_ Hb]. exists a, b. split; [done|lia].
Qed.

(** [miniheap_trim] terminates, hands every whole free page back to the page
    allocator, page aligned and counted, keeps all other free bytes and every
    allocation, leaves no whole page on the free list, and preserves the
    invariant. *)
Theorem miniheap_trim_spec h :
  hinv h → base h + len h + PAGE_SIZE ≤ 2 ^ 64 →
  ∃ freed h', miniheap_trim h = Ok (freed, h') ∧ hinv h' ∧ allocs h' = allocs h ∧ data h' = data h ∧
    (∀ x, byte_in x (free_list h) ↔ byte_in x (free_list h') ∨
      ∃ a n, (a, n) ∈ freed ∧ (PAGE_SIZE | a) ∧ a ≤ x < a + n * PAGE_SIZE) ∧
    Forall (λ b, end_page b ≤ first_page b) (free_list h') ∧
    ∃ bytes, free_bytes (free_list h) = free_bytes (free_list h') + bytes ∧ u64 (remaining h') = u64 (remaining h - bytes).
Proof.
  intros Hi Hhi. pose proof Hi as [(R1 & R2 & R3) Hbl Hdj Hco Hkey].
  assert (Forall (block_ok (base h) (base h + len h)) (free_list h)) as Hfl by (unfold blocks in Hbl; by apply Forall_app in Hbl as [? _]).
  unfold miniheap_trim.
  destruct (trim_loop_ok (base h) (base h + len h) R1 Hhi (free_list h) (2 * length (free_list h)) [] [] h Hfl ltac:(lia)) as (r & E & Hr).
  destruct (trimmed_bytes (base h) (base h + len h) (free_list h) R1 Hhi Hfl) as [Hb Hin]. rewrite Forall_forall in Hfl.
  pose proof (λ c Hc, trim_pieces (base h) (base h + len h) c R1 Hhi (Hfl c Hc)) as Hp. fold kept in Hp.
  rewrite E. cbn [app]. eexists _, _. split_and!; [done| |done|done|exact Hin| |by exists (returned_bytes (free_list h))].
  - split; cbn [base len allocs free_list set_free_list set_remaining]; [done| | | |done].
    + apply Forall_app in Hbl as [_ Hal]. apply Forall_app. split; [|done]. apply Forall_concat, Forall_fmap, Forall_forall.
      intros c Hc. apply (Hp c Hc).
    + apply pdisj_parts; [done|]. apply Forall_forall. intros c Hc. destruct (Hp c Hc) as (_ & H2 & H3 & _).
      split; [done|]. eapply Forall_impl; [exact H3|]. by intros b [? _].
    + apply (coalesced_parts kept _ []); [done|]. apply Forall_forall. intros c Hc. destruct (Hp c Hc) as (_ & _ & H3 & H4 & _).
      split_and!; [destruct (Hfl c Hc); lia|done|done].
  - cbn [free_list set_free_list]. apply Forall_concat, Forall_fmap, Forall_forall. intros c Hc. apply Forall_forall. intros b Hbk.
    by apply (trim_no_page (base h) (base h + len h) c b R1 Hhi (Hfl c Hc)).
Qed.

(** ** Start and statistics *)

Definition no_heap : heap := mk_heap 0 0 0 0 [] ∅ (λ _, 0).

(** Enough room for a chunk behind the aligned start; the end is aligned. *)
Definition init_range (ptr n : Z) : Prop :=
  0 ≤ ptr ∧ 0 ≤ n ∧ ptr + n < 2 ^ 64 ∧ (16 | ptr + n) ∧ ROUNDUP ptr 16 + 16 ≤ ptr + n.

Lemma init_ok ptr n :
  init_range ptr n →
  ∃ h, miniheap_init ptr n no_heap = Ok h ∧ hinv h ∧ allocs h = ∅ ∧ low_watermark h = 0 ∧
    let a := ROUNDUP ptr 16 in
    free_list h = [(a, ptr + n - a)] ∧ remaining h = ptr + n - a ∧ base h = a ∧ len h = ptr + n - a.
Proof.
  intros (H1 & H2 & H3 & H4 & H5). cbv zeta. unfold miniheap_init, HEAP_ALIGN.
  assert (ptr + 15 < 2 ^ 64) as Hov.
  { destruct (Z.lt_ge_cases (ptr + 15) (2 ^ 64)) as [|Hge]; [done|]. destruct H4 as [q Hq]. exfalso.
    assert (2 ^ 64 = 2 ^ 60 * 16) by done. lia. }
  destruct (ROUNDUP_bounds ptr 4) as [Hb Hd]; [lia..|]. change (2 ^ 4) with 16 in *. set (a := ROUNDUP ptr 16) in *.
  set (h0 := set_free_list [] no_heap). set (m := ptr + n - a).
  assert ((if 0 <? ptr `mod` 16 then assert_ (u64 (a - ptr) <? n);; Ok (a, u64 (n - u64 (a - ptr))) else Ok (ptr, n)) = Ok (a, m)) as ->.
  { destruct (Z.ltb_spec 0 (ptr `mod` 16)) as [Hm|Hm].
    - rewrite (u64_small (a - ptr)), (proj2 (Z.ltb_lt _ _)), u64_small by lia. cbn. do 2 f_equal. unfold m. lia.
    - assert (ptr `mod` 16 = 0) as Hm0 by (pose proof (Z.mod_pos_bound ptr 16); lia). apply Z.mod_divide in Hm0 as [q Hq]; [|lia].
      destruct Hd as [q' Hq']. assert (a = ptr) as E by lia. unfold m. rewrite E. do 2 f_equal. lia. }
  cbn [mbind res_bind]. rewrite (proj2 (Z.ltb_lt 0 m)) by (unfold m; lia).
  assert ((16 | m)) as Hm16 by (by apply Z.divide_sub_r).
  rewrite create_ok by (done || unfold m; lia). cbn [mbind res_bind]. unfold heap_insert_free_chunk. cbn.
  eexists. split; [done|]. split_and!; [|done|done|done|cbn; apply u64_small; unfold m; lia|done|done].
  assert (block_ok a (a + m) (a, m)) as Hblk by (split; unfold block_end; cbn; [done|done|unfold m; lia|lia]).
  split; cbn [base len set_free_list set_remaining set_low set_range free_list allocs]; [unfold m; lia| | | |done].
  - unfold blocks. cbn. rewrite map_to_list_empty. by constructor.
  - unfold blocks. cbn. rewrite map_to_list_empty. by repeat constructor.
  - repeat constructor.
Qed.

(** [miniheap_init] on a range with room for an aligned chunk establishes the
    invariant with the whole aligned range free and nothing allocated. *)
Theorem miniheap_init_spec ptr n :
  init_range ptr n →
  ∃ h, miniheap_init ptr n no_heap = Ok h ∧ hinv h ∧ allocs h = ∅ ∧
    let a := ROUNDUP ptr 16 in free_list h = [(a, ptr + n - a)] ∧ remaining h = ptr + n - a.
Proof. intros H. destruct (init_ok ptr n H) as (h & E & Hi & Ha & _ & Hf & Hr & _). by exists h. Qed.

Lemma free_bytes_range lo hi l :
  coalesced l → Forall (block_ok lo hi) l → lo ≤ hi → 0 ≤ free_bytes l ≤ hi - lo.
Proof.
  revert lo. induction l as [|c l IH]; intros lo Hco Hok Hle; [cbn; lia|].
  inversion Hco as [|? ? Hco' Hg]; inversion Hok as [|? ? [? ? ? [? ?]] Hok']; subst. cbn [free_bytes foldr].
  assert (0 ≤ free_bytes l ≤ hi - block_end c) as Hl.
  { apply IH; [done| |lia]. rewrite Forall_forall in Hok', Hg |- *. intros b Hb. destruct (Hok' b Hb) as [? ? ? [? ?]].
    specialize (Hg b Hb). unfold gap in Hg. split; [done..|lia]. }
  fold (free_bytes l). unfold block_end in *. lia.
Qed.

Lemma stats_fold l : ∀ free max,
  Forall (λ d, 0 < d.2) l → 0 ≤ free → 0 ≤ max → free + free_bytes l < 2 ^ 64 →
  let r := foldl stats_step (free, max) l in
  r.1 = free + free_bytes l ∧ max ≤ r.2 ∧ Forall (λ c, c.2 ≤ r.2) l ∧ (r.2 = max ∨ ∃ c, c ∈ l ∧ c.2 = r.2).
Proof.
  induction l as [|c l IH]; intros free max Hp Hf Hm Hs; cbv zeta; cbn [foldl].
  { split_and!; [cbn; lia|cbn; lia|constructor|by left]. }
  inversion Hp as [|? ? Hc Hp']; subst. cbn [free_bytes foldr] in Hs |- *. fold (free_bytes l) in *.
  assert (0 ≤ free_bytes l) as Hnn by (clear -Hp'; induction Hp'; cbn; [lia|]; fold (free_bytes l); lia).
  unfold stats_step at 2 4 6 8 10. cbn [fst snd]. rewrite u64_small by lia.
  destruct (IH (free + c.2) (if max <? c.2 then c.2 else max)) as (E & Hle & Hall & Hex);
    [done|lia|destruct (Z.ltb_spec max c.2); lia|lia|].
  split_and!; [lia|destruct (Z.ltb_spec max c.2); lia|constructor; [destruct (Z.ltb_spec max c.2); lia|done]|].
  destruct Hex as [->|(d & Hd & Ed)]; [|right; exists d; split; [by right|done]].
  destruct (Z.ltb_spec max c.2); [right; exists c; split; [by left|done]|by left].
Qed.

(** [miniheap_get_stats] reports the free bytes and the largest free chunk. *)
Theorem miniheap_get_stats_spec h :
  hinv h →
  let st := miniheap_get_stats h in
  heap_free st = free_bytes (free_list h) ∧ Forall (λ c, c.2 ≤ heap_max_chunk st) (free_list h) ∧
  (free_list h ≠ [] → ∃ c, c ∈ free_list h ∧ c.2 = heap_max_chunk st).
Proof.
  intros Hi. pose proof Hi as [(R1 & R2 & R3) Hbl _ Hco _]. apply Forall_app in Hbl as [Hbl _].
  pose proof (free_bytes_range _ _ _ Hco Hbl ltac:(lia)) as Hr. pose proof (free_list_pos h Hi) as Hpos.
  pose proof (stats_fold (free_list h) 0 0 Hpos ltac:(lia) ltac:(lia) ltac:(lia)) as H. cbv zeta in H.
  unfold miniheap_get_stats. destruct (foldl stats_step (0, 0) (free_list h)) as [free max].
  cbn [fst snd] in H. destruct H as (-> & Hm & Hall & Hex).
  cbn [heap_free heap_max_chunk]. split_and!; [lia|done|]. intros Hne. destruct Hex as [->|?]; [exfalso|done].
  destruct (free_list h) as [|c l]; [done|]. inversion Hall; inversion Hpos; subst. lia.
Qed.

(** * A concrete heap *)

Definition get {A} (d : A) (r : res A) : A := match r with Ok a => a | Fault _ => d end.
Definition no_pages : Z → option Z := λ _, None.

(** Four pages, from which 100 bytes have been allocated. *)
Definition heap0 : heap := get no_heap (miniheap_init 0x10004 0x3ffc no_heap).
Definition heap1 : heap := (get (None, heap0) (miniheap_alloc no_pages 100 0 heap0)).2.

Lemma init_range_ex : init_range 0x10004 0x3ffc.
Proof. unfold init_range. split_and!; try lia; [by exists 0x1400|by vm_compute]. Qed.

Lemma heap0_inv : hinv heap0.
Proof. unfold heap0. by destruct (init_ok 0x10004 0x3ffc init_range_ex) as (h & -> & ? & _). Qed.

Lemma no_pages_ok h : page_alloc_ok no_pages h.
Proof. by intros n ptr [=]. Qed.

Lemma heap1_inv : hinv heap1.
Proof.
  unfold heap1. destruct (alloc_ok no_pages 100 0 heap0 heap0_inv (no_pages_ok _)) as (r & h & -> & ? & _); [lia..|done].
Qed.

(** The pointer that was returned and the size of its block. *)
Lemma heap1_owns : owns heap1 0x10020 128.
Proof. by vm_compute. Qed.

Lemma miniheap_free_spec_witness : ∃ h', miniheap_free 0x10020 heap1 = Ok h' ∧ hinv h' ∧ freed heap1 h' 0x10020 128.
Proof. apply (miniheap_free_spec heap1 0x10020 128); [apply heap1_inv|apply heap1_owns]. Defined.




Lemma miniheap_trim_spec_witness : ∃ freed h', miniheap_trim heap1 = Ok (freed, h') ∧ hinv h'.
Proof.
  destruct (miniheap_trim_spec heap1) as (f & h' & E & Hi & _); [apply heap1_inv|vm_compute; discriminate|].
  exact (ex_intro _ f (ex_intro _ h' (conj E Hi))).
Defined.

Lemma miniheap_init_spec_witness : ∃ h, miniheap_init 0x10004 0x3ffc no_heap = Ok h ∧ hinv h.
Proof. destruct (miniheap_init_spec 0x10004 0x3ffc init_range_ex) as (h & E & Hi & _). by exists h. Defined.

Lemma miniheap_get_stats_spec_witness : heap_free (miniheap_get_stats heap1) = free_bytes (free_list heap1).
Proof. apply (miniheap_get_stats_spec heap1 heap1_inv). Defined.

(** * Where the code does not do what it means to *)

(** Shrinking in place leaves [remaining] as it was although the free list has
    grown: the accounting loses the bytes. *)
Theorem realloc_shrink_loses_bytes :
  ∃ h', miniheap_realloc no_pages 0x10020 10 heap1 = Ok (Some 0x10020, h') ∧
    remaining heap1 = free_bytes (free_list heap1) ∧ remaining h' = free_bytes (free_list h') - 96.
Proof. eexists. split; [by vm_compute|]. split; by vm_compute. Qed.

(** Growing below the heap moves its base down and keeps its length: an
    allocation at the upper end is then taken to be outside, and freeing it
    trips the assertion. *)
Theorem grow_below_loses_range :
  ∃ h', heap_grow (λ _, Some 0x8000) 0x1000 heap1 = Ok (0x1000, h') ∧
    owns h' 0x10020 128 ∧ miniheap_free 0x10020 h' = Fault AssertFailed.
Proof. eexists. split; [by vm_compute|]. split; by vm_compute. Qed.

(** A request close to the size of the address space passes the overflow check,
    but with the slack for the alignment it wraps around: the allocation
    succeeds, and leaves two free chunks that overlap. *)
Theorem aligned_alloc_wraps :
  ∃ p h', miniheap_alloc no_pages (2 ^ 64 - 0x80) 0x1000 heap0 = Ok (Some p, h') ∧ ¬ pdisj (free_list h').
Proof.
  eexists _, _. split; [by vm_compute|]. intros [H _]. inversion H as [|? ? Hd _]; subst.
  vm_compute in Hd. destruct Hd as [Hd|Hd]; by apply Hd.
Qed.

(** The low watermark starts at 0, below which nothing falls: it stays there. *)
Theorem low_watermark_stays_zero al needed h r h' :
  low_watermark h = 0 → try_alloc al needed h = Ok (r, h') → low_watermark h' = 0.
Proof.
  intros Hw E. unfold try_alloc in E. apply res_bind_Ok in E as ([[[start total] l]|] & _ & E); [|by injection E as <- <-].
  injection E as <- <-. cbn [remaining low_watermark set_remaining set_allocs set_free_list].
  pose proof (u64_range (remaining h - total)). rewrite Hw, (proj2 (Z.ltb_ge _ _)) by lia. done.
Qed.
