(* ===== verification/Bio.v ===== *)
(** Block devices: [lib/bio/bio.c] and [lib/bio/include/lib/bio.h].

    A device is its descriptor and its hooks.  The state of a driver is a type
    [D]; the hooks are functions on it.  A hook that the driver does not set
    is [None], and the default implementation runs in its place.  The data path
    is in a monad with the driver's state and two ways out: a fault, and the
    negative status with which the functions of the code leave early.  What the
    default implementations rely on of a driver is the class [Driver]; the
    memory device and subdevices are instances of it in other files. *)
From stdpp Require Import prelude strings.
From S2P Require Import Prelude Pow2 Bytes.

#[local] Open Scope Z_scope.

(** * Devices *)

Record bio_erase_geometry_info := mk_geometry {
  g_start : Z;
  g_size : Z;
  g_erase_size : Z;
  g_erase_shift : Z;
}.

Record bdev := mk_bdev {
  ref : Z;
  name : string;
  total_size : Z;
  block_size : Z;
  block_shift : Z;
  block_count : Z;
  geometry : list bio_erase_geometry_info;
  erase_byte : Z;
  flags : Z;
}.

Definition BIO_FLAG_CACHE_ALIGNED_READS : Z := 1.
Definition BIO_FLAG_CACHE_ALIGNED_WRITES : Z := 2.
Definition CACHE_LINE : Z := 64.

(** What a device control request writes to its argument. *)
Inductive ioctl_out :=
| OutPtr (p : Z)
| OutBool (b : bool).

(** The driver's hooks.  [h_read] and [h_write] get the address of the buffer,
    the offset and the length, a block hook the first block and the number of
    blocks, and [h_erase] the address of its temporary buffer; a read returns the
    status and the bytes it puts into the buffer.  An asynchronous hook is told
    whether there is a callback and also returns what it calls it with, if it
    does; [h_ioctl] gets the request and whether there is an argument. *)
Record hooks (D : Type) := mk_hooks {
  h_read : option (Z → Z → Z → D → res (Z * list Z * D));
  h_read_block : option (Z → Z → D → res (Z * list Z * D));
  h_write : option (Z → list Z → Z → Z → D → res (Z * D));
  h_write_block : option (list Z → Z → Z → D → res (Z * D));
  h_erase : option (Z → Z → Z → D → res (Z * D));
  h_read_async : option (bool → Z → Z → Z → D → res (Z * option Z * list Z * D));
  h_write_async : option (bool → Z → list Z → Z → Z → D → res (Z * option Z * D));
  h_ioctl : option (Z → bool → Z * option ioctl_out);
}.
Arguments mk_hooks {D}.
Arguments h_read {D}.
Arguments h_read_block {D}.
Arguments h_write {D}.
Arguments h_write_block {D}.
Arguments h_erase {D}.
Arguments h_read_async {D}.
Arguments h_write_async {D}.
Arguments h_ioctl {D}.

(** * The data path monad *)

Definition io (D A : Type) : Type := D → res ((Z + A) * D).

#[global] Instance io_ret D : MRet (io D) := λ A a d, Ok (inr a, d).
#[global] Instance io_bind D : MBind (io D) := λ A B f m d,
  match m d with
  | Ok (inr a, d) => f a d
  | Ok (inl err, d) => Ok (inl err, d)
  | Fault e => Fault e
  end.

(** [goto err] *)
Definition leave {D A} (err : Z) : io D A := λ d, Ok (inl err, d).
Definition io_assert {D} (b : bool) : io D unit := λ d, if b then Ok (inr (), d) else Fault AssertFailed.
Definition io_fuel {D A} : io D A := λ d, Fault OutOfFuel.

(** Calling a hook. *)
Definition hook {D A} (f : D → res (A * D)) : io D A := λ d,
  match f d with Ok (a, d) => Ok (inr a, d) | Fault e => Fault e end.

(** The status at the label [err]: a result or an early negative one. *)
Definition status {D} (m : io D Z) : D → res (Z * D) := λ d,
  match m d with
  | Ok (inr n, d) => Ok (n, d)
  | Ok (inl err, d) => Ok (err, d)
  | Fault e => Fault e
  end.

(** * Ranges *)

Definition bio_trim_range (dev : bdev) (offset len : Z) : Z :=
  if offset <? 0 then 0
  else if total_size dev <=? offset then 0
  else if len =? 0 then 0
  else if total_size dev <? s64 (u64 (offset + len)) then total_size dev - offset
  else len.

Definition bio_trim_block_range (dev : bdev) (block count : Z) : Z :=
  if block_count dev <? block then 0
  else if count =? 0 then 0
  else if block_count dev <? u32 (block + count) then u32 (block_count dev - block)
  else count.

Section data_path.
Context {D : Type} (dev : bdev) (h : hooks D).

(** * Whole blocks *)

Definition bio_default_read_block (block count : Z) (d : D) : res (Z * list Z * D) := Ok (ERR_NOT_SUPPORTED, [], d).
Definition bio_default_write_block (buf : list Z) (block count : Z) (d : D) : res (Z * D) := Ok (ERR_NOT_SUPPORTED, d).

Definition bio_read_block (block count : Z) : io D (Z * list Z) :=
  io_assert (0 <? ref dev);;
  let count := bio_trim_block_range dev block count in
  if count =? 0 then mret (0, []) else
  hook (default bio_default_read_block (h_read_block h) block count).

Definition bio_write_block (buf : list Z) (block count : Z) : io D Z :=
  io_assert (0 <? ref dev);;
  let count := bio_trim_block_range dev block count in
  if count =? 0 then mret 0 else
  hook (default bio_default_write_block (h_write_block h) buf block count).

(** A block operation must transfer [want] bytes. *)
Definition check_transfer (err want : Z) : io D unit :=
  if err <? 0 then leave err
  else if negb (err =? want) then leave ERR_IO
  else mret ().

(** * Reading any range

    [buf] is the address of the caller's buffer, which matters for its
    alignment only; the bytes read are collected in [acc]. *)

(** The middle blocks one by one, through the temporary buffer. *)
Fixpoint read_middle (fuel : nat) (len bytes_read block : Z) (acc : list Z) : io D (Z * Z * Z * list Z) :=
  match fuel with
  | O => io_fuel
  | S fuel =>
      if block_size dev <=? len then
        '(err, temp) ← bio_read_block block 1;
        check_transfer err (block_size dev);;
        read_middle fuel (len - block_size dev) (bytes_read + block_size dev) (u32 (block + 1))
          (acc ++ ztake (block_size dev) temp)
      else mret (len, bytes_read, block, acc)
  end.

(** The partial first block. *)
Definition read_first (buf offset len block : Z) : io D (Z * Z * Z * Z * list Z) :=
  if negb (u64 offset `mod` block_size dev =? 0) then
    '(err, temp) ← bio_read_block block 1;
    check_transfer err (block_size dev);;
    let block_offset := u64 offset `mod` block_size dev in
    let tocopy := MIN (block_size dev - block_offset) len in
    mret (buf + tocopy, len - tocopy, tocopy, u32 (block + 1), ztake tocopy (zdrop block_offset temp))
  else mret (buf, len, 0, block, []).

(** The middle blocks. *)
Definition read_blocks (buf len bytes_read block : Z) (acc : list Z) : io D (Z * Z * Z * list Z) :=
  let requires_alignment :=
    has_flag (flags dev) BIO_FLAG_CACHE_ALIGNED_READS && negb (IS_ALIGNED buf CACHE_LINE) in
  if requires_alignment then read_middle (S (Z.to_nat len)) len bytes_read block acc
  else
    let num_blocks := divpow2 (u32 len) (block_shift dev) in
    '(err, data) ← bio_read_block block num_blocks;
    check_transfer err (u64 (block_size dev * num_blocks));;
    mret (len - err, bytes_read + err, u32 (block + num_blocks), acc ++ data).

(** The partial last block. *)
Definition read_last (len bytes_read block : Z) (acc : list Z) : io D (Z * list Z) :=
  if 0 <? len then
    '(err, temp) ← bio_read_block block 1;
    check_transfer err (block_size dev);;
    mret (bytes_read + len, acc ++ ztake len temp)
  else mret (bytes_read, acc).

Definition bio_default_read (buf offset len : Z) : io D (Z * list Z) :=
  let block := divpow2 (u32 offset) (block_shift dev) in
  '(buf, len, bytes_read, block, acc) ← read_first buf offset len block;
  '(len, bytes_read, block, acc) ← read_blocks buf len bytes_read block acc;
  read_last len bytes_read block acc.

(** * Writing any range

    [src] are the bytes of the caller's buffer from the current position on. *)

Fixpoint write_middle (fuel : nat) (src : list Z) (len bytes_written block : Z) : io D (list Z * Z * Z * Z) :=
  match fuel with
  | O => io_fuel
  | S fuel =>
      if block_size dev <=? len then
        err ← bio_write_block (ztake (block_size dev) src) block 1;
        check_transfer err (block_size dev);;
        write_middle fuel (zdrop (block_size dev) src) (len - block_size dev)
          (bytes_written + block_size dev) (u32 (block + 1))
      else mret (src, len, bytes_written, block)
  end.

(** The partial first block is read, changed and written back. *)
Definition write_first (buf : Z) (src : list Z) (offset len block : Z) : io D (Z * list Z * Z * Z * Z) :=
  if negb (u64 offset `mod` block_size dev =? 0) then
    '(err, temp) ← bio_read_block block 1;
    check_transfer err (block_size dev);;
    let block_offset := u64 offset `mod` block_size dev in
    let tocopy := MIN (block_size dev - block_offset) len in
    err ← bio_write_block (splice block_offset (ztake tocopy src) temp) block 1;
    check_transfer err (block_size dev);;
    mret (buf + tocopy, zdrop tocopy src, len - tocopy, tocopy, u32 (block + 1))
  else mret (buf, src, len, 0, block).

(** The middle blocks. *)
Definition write_blocks (buf : Z) (src : list Z) (len bytes_written block : Z) : io D (list Z * Z * Z * Z) :=
  let requires_alignment :=
    has_flag (flags dev) BIO_FLAG_CACHE_ALIGNED_WRITES && negb (IS_ALIGNED buf CACHE_LINE) in
  if requires_alignment then write_middle (S (Z.to_nat len)) src len bytes_written block
  else
    let num_blocks := divpow2 (u32 len) (block_shift dev) in
    err ← bio_write_block src block num_blocks;
    check_transfer err (u64 (block_size dev * num_blocks));;
    io_assert (err =? u64 (num_blocks * block_size dev));;
    mret (zdrop err src, len - err, bytes_written + err, u32 (block + num_blocks)).

(** The partial last block is read, changed and written back. *)
Definition write_last (src : list Z) (len bytes_written block : Z) : io D Z :=
  if 0 <? len then
    '(err, temp) ← bio_read_block block 1;
    check_transfer err (block_size dev);;
    err ← bio_write_block (splice 0 (ztake len src) temp) block 1;
    check_transfer err (block_size dev);;
    mret (bytes_written + len)
  else mret bytes_written.

Definition bio_default_write (buf : Z) (src : list Z) (offset len : Z) : io D Z :=
  let block := divpow2 (u32 offset) (block_shift dev) in
  '(buf, src, len, bytes_written, block) ← write_first buf src offset len block;
  '(src, len, bytes_written, block) ← write_blocks buf src len bytes_written block;
  write_last src len bytes_written block.

(** * The interface *)

(** The bytes read, empty when there is an error. *)
Definition bio_read (buf offset len : Z) (d : D) : res (Z * list Z * D) :=
  if negb (0 <? ref dev) then Fault AssertFailed else
  let len := bio_trim_range dev offset len in
  if len =? 0 then Ok (0, [], d) else
  match h_read h with
  | Some read => read buf offset len d
  | None =>
      match bio_default_read buf offset len d with
      | Ok (inr (n, data), d) => Ok (n, data, d)
      | Ok (inl err, d) => Ok (err, [], d)
      | Fault e => Fault e
      end
  end.

Definition bio_write (buf : Z) (src : list Z) (offset len : Z) (d : D) : res (Z * D) :=
  if negb (0 <? ref dev) then Fault AssertFailed else
  let len := bio_trim_range dev offset len in
  if len =? 0 then Ok (0, d) else
  match h_write h with
  | Some write => write buf src offset len d
  | None => status (bio_default_write buf src offset len) d
  end.

(** [erase_buf] is the address of the temporary buffer. *)
Fixpoint erase_loop (fuel : nat) (erase_buf erased remaining pos : Z) (d : D) : res (Z * D) :=
  match fuel with
  | O => Fault OutOfFuel
  | S fuel =>
      if 0 <? remaining then
        let towrite := MIN remaining (block_size dev) in
        '(written, d) ← bio_write erase_buf (replicate (Z.to_nat (block_size dev)) (erase_byte dev)) pos towrite d;
        if written <? 0 then Ok (written, d)
        else if written <? towrite then Ok (erased + written, d)
        else erase_loop fuel erase_buf (erased + written) (remaining - written) (pos + written) d
      else Ok (erased, d)
  end.

Definition bio_default_erase (erase_buf offset len : Z) (d : D) : res (Z * D) :=
  erase_loop (S (Z.to_nat len)) erase_buf 0 len offset d.

Definition bio_erase (erase_buf offset len : Z) (d : D) : res (Z * D) :=
  if negb (0 <? ref dev) then Fault AssertFailed else
  let len := bio_trim_range dev offset len in
  if len =? 0 then Ok (0, d) else
  match h_erase h with
  | Some erase => erase erase_buf offset len d
  | None => bio_default_erase erase_buf offset len d
  end.

(** The status, the argument of the callback if it has been called, and the
    bytes read so far. *)
Definition bio_read_async (callback : bool) (buf offset len : Z) (d : D) : res (Z * option Z * list Z * D) :=
  if negb (0 <? ref dev) then Fault AssertFailed else
  match h_read_async h with
  | None => Ok (ERR_NOT_SUPPORTED, None, [], d)
  | Some read_async =>
      let len := bio_trim_range dev offset len in
      if len =? 0 then Ok (0, None, [], d) else read_async callback buf offset len d
  end.

Definition bio_write_async (callback : bool) (buf : Z) (src : list Z) (offset len : Z) (d : D) : res (Z * option Z * D) :=
  if negb (0 <? ref dev) then Fault AssertFailed else
  match h_write_async h with
  | None => Ok (ERR_NOT_SUPPORTED, None, d)
  | Some write_async =>
      let len := bio_trim_range dev offset len in
      if len =? 0 then Ok (0, None, d) else write_async callback buf src offset len d
  end.

Definition bio_ioctl (request : Z) (argp : bool) : res (Z * option ioctl_out) :=
  if negb (0 <? ref dev) then Fault AssertFailed else
  match h_ioctl h with
  | None => Ok (ERR_NOT_SUPPORTED, None)
  | Some ioctl => Ok (ioctl request argp)
  end.
End data_path.

(** * Setting up a device *)

Definition bio_initialize_bdev (nm : string) (block_size block_count : Z)
    (geometry : list bio_erase_geometry_info) (flags : Z) : res bdev :=
  assert_ (negb (block_size =? 0) && ispow2 (u32 block_size));;
  let block_shift := log2_uint (u32 block_size) in
  Ok (mk_bdev 0 nm (s64 (Z.shiftl block_count block_shift)) block_size block_shift block_count geometry 0 flags).

Definition default_hooks {D} : hooks D := mk_hooks None None None None None None None None.

(** * What a driver promises *)

(** The descriptor is consistent and the device small enough for the 32 bit
    arithmetic of the default implementations. *)
Record bdev_ok (dev : bdev) : Prop := {
  bd_ref : 0 < ref dev;
  bd_shift : 0 ≤ block_shift dev < 32;
  bd_size : block_size dev = 2 ^ block_shift dev;
  bd_count : 0 ≤ block_count dev < 2 ^ 32;
  bd_total : total_size dev = block_count dev * block_size dev;
}.

(** The block hooks transfer whole blocks of the device's [content]; [valid] is
    the driver's own invariant. *)
Class Driver {D} (dev : bdev) (h : hooks D) (valid : D → Prop) (content : D → list Z) : Prop := {
  drv_ok : bdev_ok dev;
  drv_len d : valid d → zlen (content d) = total_size dev;
  drv_read d block count :
    valid d → 0 ≤ block → 0 < count → block + count ≤ block_count dev →
    default bio_default_read_block (h_read_block h) block count d =
      Ok (count * block_size dev, slice (block * block_size dev) (count * block_size dev) (content d), d);
  drv_write d buf block count :
    valid d → 0 ≤ block → 0 < count → block + count ≤ block_count dev → count * block_size dev ≤ zlen buf →
    ∃ d', default bio_default_write_block (h_write_block h) buf block count d = Ok (count * block_size dev, d') ∧
      valid d' ∧ content d' = splice (block * block_size dev) (ztake (count * block_size dev) buf) (content d);
}.

(** ** Trimming *)

Lemma bio_trim_range_spec dev offset len :
  0 ≤ offset → 0 ≤ len → offset + len < 2 ^ 63 →
  bio_trim_range dev offset len = Z.max 0 (Z.min len (total_size dev - offset)).
Proof.
  intros Ho Hl Hs. unfold bio_trim_range. rewrite (proj2 (Z.ltb_ge offset 0)) by lia.
  rewrite u64_small, s64_small by lia. destruct (Z.leb_spec (total_size dev) offset); [lia|].
  destruct (Z.eqb_spec len 0); [lia|]. destruct (Z.ltb_spec (total_size dev) (offset + len)); lia.
Qed.

Lemma bio_trim_block_range_spec dev block count :
  0 ≤ block_count dev < 2 ^ 32 → 0 ≤ block → 0 ≤ count → block + count < 2 ^ 32 →
  bio_trim_block_range dev block count = Z.max 0 (Z.min count (block_count dev - block)).
Proof.
  intros Hb H1 H2 Hs. unfold bio_trim_block_range. rewrite (u32_small (block + count)) by lia.
  destruct (Z.ltb_spec (block_count dev) block); [lia|]. destruct (Z.eqb_spec count 0); [lia|].
  destruct (Z.ltb_spec (block_count dev) (block + count)); [rewrite u32_small by lia|]; lia.
Qed.

Section driver.
Context {D : Type} {dev : bdev} {h : hooks D} {valid : D → Prop} {content : D → list Z} `{!Driver dev h valid content}.

Notation bs := (block_size dev).

Lemma bs_pos : 0 < bs.
Proof. destruct drv_ok as [_ ? -> _ _]. apply Z.pow_pos_nonneg; lia. Qed.

Lemma bio_read_block_ok d block count :
  valid d → 0 ≤ block → 0 ≤ count → block + count ≤ block_count dev →
  bio_read_block dev h block count d = Ok (inr (count * bs, slice (block * bs) (count * bs) (content d)), d).
Proof.
  intros Hv Hb Hc Hbc. pose proof drv_ok as [Hr _ _ Hcnt _]. unfold bio_read_block, io_assert, mbind, io_bind.
  rewrite (proj2 (Z.ltb_lt _ _)), bio_trim_block_range_spec by lia.
  replace (Z.max 0 _) with count by lia. destruct (Z.eqb_spec count 0) as [->|]; [done|].
  unfold hook. by rewrite drv_read by lia || done.
Qed.

Lemma bio_write_block_ok d buf block count :
  valid d → 0 ≤ block → 0 ≤ count → block + count ≤ block_count dev → count * bs ≤ zlen buf →
  ∃ d', bio_write_block dev h buf block count d = Ok (inr (count * bs), d') ∧ valid d' ∧
    content d' = splice (block * bs) (ztake (count * bs) buf) (content d).
Proof.
  intros Hv Hb Hc Hbc Hbuf. pose proof drv_ok as [Hr _ _ Hcnt Htot]. pose proof bs_pos as Hp.
  unfold bio_write_block, io_assert, mbind, io_bind.
  rewrite (proj2 (Z.ltb_lt _ _)), bio_trim_block_range_spec by lia.
  replace (Z.max 0 _) with count by lia. destruct (Z.eqb_spec count 0) as [->|].
  - exists d. split_and!; [done|done|]. rewrite Z.mul_0_l. change (ztake 0 buf) with (@nil Z). by rewrite splice_nil.
  - destruct (drv_write d buf block count) as (d' & E & ? & ?); [done|lia..|done|]. exists d'. unfold hook. by rewrite E.
Qed.

Lemma check_transfer_ok n : 0 ≤ n → check_transfer (D := D) n n = mret ().
Proof. intros Hn. unfold check_transfer. by rewrite (proj2 (Z.ltb_ge _ _)), Z.eqb_refl by lia. Qed.

(** ** Reading *)

(** The position after some bytes: at a block boundary unless nothing is left. *)
Definition at_block (block pos rest : Z) : Prop :=
  0 ≤ block ≤ block_count dev ∧ (rest = 0 ∨ pos = block * bs).

Lemma read_one_block d block pos rest :
  valid d → at_block block pos rest → 0 < rest → pos + rest ≤ total_size dev →
  bio_read_block dev h block 1 d = Ok (inr (bs, slice pos bs (content d)), d) ∧ block + 1 ≤ block_count dev ∧ pos = block * bs.
Proof.
  intros Hv [Hb [->|Hp]] Hr Ht; [lia|]. pose proof drv_ok as [_ _ _ _ Htot]. pose proof bs_pos.
  assert (block + 1 ≤ block_count dev) as Hb1.
  { destruct (Z.le_gt_cases (block + 1) (block_count dev)) as [|Hgt]; [done|]. assert (block = block_count dev) by lia. subst. lia. }
  split_and!; [|done|done]. rewrite bio_read_block_ok by (done || lia). by rewrite Z.mul_1_l, Hp.
Qed.

Lemma read_middle_ok fuel : ∀ d start len n block acc,
  valid d → 0 ≤ start → 0 ≤ len → at_block block (start + n) len → 0 ≤ n → start + n + len ≤ total_size dev →
  acc = slice start n (content d) → (Z.to_nat len < fuel)%nat →
  ∃ m block', 0 ≤ m ∧ m ≤ len ∧ len - m < bs ∧ at_block block' (start + n + m) (len - m) ∧
    read_middle dev h fuel len n block acc d = Ok (inr (len - m, n + m, block', slice start (n + m) (content d)), d).
Proof.
  induction fuel as [|fuel IH]; intros d start len n block acc Hv Hs Hl Hat Hn Ht Hacc Hf; [lia|].
  pose proof bs_pos as Hp. pose proof drv_ok as [_ _ _ Hcnt Htot]. pose proof (drv_len d Hv) as Hlen. cbn [read_middle].
  destruct (Z.leb_spec bs len) as [Hle|Hgt].
  - destruct (read_one_block d block (start + n) len Hv Hat) as (E & Hb1 & Hpos); [lia|lia|].
    unfold mbind, io_bind. rewrite E, check_transfer_ok by lia. unfold mret, io_ret.
    rewrite (u32_small (block + 1)) by (destruct Hat; lia).
    destruct (IH d start (len - bs) (n + bs) (block + 1) (acc ++ ztake bs (slice (start + n) bs (content d))))
      as (m & block' & H1 & H2 & H3 & H4 & H5).
    { done. } { done. } { lia. } { split; [destruct Hat; lia|right; lia]. } { lia. } { lia. }
    { rewrite Hacc, ztake_slice by lia. apply slice_app; lia. } { lia. }
    exists (m + bs), block'. split_and!; [lia|lia|lia| |].
    + replace (start + n + (m + bs)) with (start + (n + bs) + m) by lia. by replace (len - (m + bs)) with (len - bs - m) by lia.
    + rewrite H5. do 3 f_equal. by replace (n + (m + bs)) with (n + bs + m) by lia; replace (len - (m + bs)) with (len - bs - m) by lia.
  - exists 0, block. rewrite Z.sub_0_r, !Z.add_0_r. split_and!; [lia|lia|lia|done|]. by rewrite Hacc.
Qed.

Lemma divpow2_bs x : 0 ≤ x < 2 ^ 32 → divpow2 (u32 x) (block_shift dev) = x / bs.
Proof.
  intros Hx. rewrite u32_small by done. destruct drv_ok as [_ Hs -> _ _]. apply divpow2_div. lia.
Qed.

Lemma block_of_offset offset :
  0 ≤ offset < total_size dev → 0 ≤ offset / bs < block_count dev ∧ 0 ≤ offset `mod` bs < bs ∧ offset = offset / bs * bs + offset `mod` bs.
Proof.
  intros Ho. pose proof bs_pos as Hp. pose proof drv_ok as [_ _ _ _ Htot]. pose proof (Z.mod_pos_bound offset bs Hp).
  pose proof (Z.div_mod offset bs ltac:(lia)). split_and!; [apply Z.div_pos; lia|apply Z.div_lt_upper_bound; lia|lia..].
Qed.

Lemma read_first_ok d buf offset len :
  valid d → 0 ≤ offset → 0 < len → offset + len ≤ total_size dev → total_size dev ≤ 2 ^ 32 →
  ∃ buf' t block', 0 ≤ t ≤ len ∧ at_block block' (offset + t) (len - t) ∧
    read_first dev h buf offset len (offset / bs) d = Ok (inr (buf', len - t, t, block', slice offset t (content d)), d).
Proof.
  intros Hv Ho Hl Ht Hmax. destruct (block_of_offset offset) as (Hq & Hr & Eo); [lia|].
  pose proof (drv_len d Hv) as Hlen. pose proof bs_pos as Hp. pose proof drv_ok as [_ _ _ Hcnt Htot].
  unfold read_first. rewrite (u64_small offset) by lia. destruct (Z.eqb_spec (offset `mod` bs) 0) as [E0|N0]; cbn [negb].
  - exists buf, 0, (offset / bs). rewrite Z.add_0_r, Z.sub_0_r. split_and!; [lia|lia| |done]. split; [lia|right; lia].
  - unfold mbind, io_bind. rewrite bio_read_block_ok by (done || lia). rewrite Z.mul_1_l, check_transfer_ok by lia.
    unfold mret, io_ret. set (r := offset `mod` bs) in *. set (t := MIN (bs - r) len).
    assert (t = Z.min (bs - r) len) as Et by (unfold t, MIN; destruct (Z.ltb_spec (bs - r) len); lia).
    exists (buf + t), t, (offset / bs + 1). rewrite u32_small by lia. split_and!; [lia|lia| |].
    + split; [lia|]. destruct (decide (bs - r ≤ len)); [right; lia|left; lia].
    + assert (ztake t (zdrop r (slice (offset / bs * bs) bs (content d))) = slice offset t (content d)) as ->; [|done].
      assert ((offset / bs + 1) * bs ≤ block_count dev * bs) by (apply Z.mul_le_mono_nonneg_r; lia).
      change (slice r t (slice (offset / bs * bs) bs (content d)) = slice offset t (content d)).
      rewrite slice_slice by lia. f_equal. lia.
Qed.

Lemma read_blocks_ok d buf start len n block :
  valid d → 0 ≤ start → 0 ≤ len → at_block block (start + n) len → 0 ≤ n → start + n + len ≤ total_size dev → total_size dev ≤ 2 ^ 32 →
  (len < 2 ^ 32) →
  ∃ m block', 0 ≤ m ∧ m ≤ len ∧ len - m < bs ∧ at_block block' (start + n + m) (len - m) ∧
    read_blocks dev h buf len n block (slice start n (content d)) d =
      Ok (inr (len - m, n + m, block', slice start (n + m) (content d)), d).
Proof.
  intros Hv Hs Hl Hat Hn Ht Hmax Hl32. unfold read_blocks. destruct (_ && _).
  { apply read_middle_ok; try done. lia. }
  pose proof bs_pos as Hp. pose proof drv_ok as [_ _ _ Hcnt Htot]. rewrite divpow2_bs by lia.
  pose proof (Z.mod_pos_bound len bs Hp). pose proof (Z.div_mod len bs ltac:(lia)) as Hdm. pose proof (Z.div_pos len bs ltac:(lia) ltac:(lia)).
  set (k := len / bs) in *. assert (block + k ≤ block_count dev) as Hbk.
  { destruct Hat as [Hb [E0|Hpos]]; [unfold k; rewrite E0, Z.div_0_l by lia; lia|].
    assert ((block + k) * bs ≤ block_count dev * bs) by lia. by apply Z.mul_le_mono_pos_r in H1. }
  unfold mbind, io_bind. rewrite bio_read_block_ok by (done || destruct Hat; lia).
  rewrite (u64_small (bs * k)), (Z.mul_comm bs k), check_transfer_ok by lia. unfold mret, io_ret.
  rewrite u32_small by (destruct Hat; lia). exists (k * bs), (block + k). split_and!; [lia|lia|lia| |].
  - split; [destruct Hat; lia|]. destruct Hat as [_ [E0|Hpos]]; [left; lia|right; lia].
  - destruct Hat as [_ [E0|Hpos]]; [|by rewrite <- Hpos, slice_app by lia].
    assert (k * bs = 0) as -> by lia. by rewrite Z.add_0_r, slice_0, app_nil_r.
Qed.

(** The default read puts exactly the bytes of the range into the buffer. *)
Lemma default_read_ok d buf offset len :
  valid d → 0 ≤ offset → 0 < len → offset + len ≤ total_size dev → total_size dev ≤ 2 ^ 32 → len < 2 ^ 32 →
  bio_default_read dev h buf offset len d = Ok (inr (len, slice offset len (content d)), d).
Proof.
  intros Hv Ho Hl Ht Hmax Hl32. unfold bio_default_read. rewrite divpow2_bs by lia.
  destruct (read_first_ok d buf offset len Hv Ho Hl Ht Hmax) as (buf' & t & b1 & Ht1 & Hat1 & E1).
  unfold mbind at 1, io_bind at 1. rewrite E1.
  destruct (read_blocks_ok d buf' offset (len - t) t b1) as (m & b2 & Hm0 & Hm1 & Hm2 & Hat2 & E2); [done|lia..|done|lia|lia|lia|lia|].
  unfold mbind at 1, io_bind at 1. rewrite E2. unfold read_last.
  destruct (Z.ltb_spec 0 (len - t - m)) as [Hlt|Hge].
  - destruct (read_one_block d b2 (offset + t + m) (len - t - m) Hv Hat2 Hlt) as (E3 & _ & _); [lia|].
    pose proof bs_pos. unfold mbind, io_bind. rewrite E3, check_transfer_ok by lia. unfold mret, io_ret.
    rewrite ztake_slice by lia. replace (offset + t + m) with (offset + (t + m)) by lia. rewrite slice_app by lia.
    by replace (t + m + (len - t - m)) with len by lia.
  - unfold mret, io_ret. by replace (t + m) with len by lia.
Qed.

(** ** Writing *)

(** The first [t] bytes of [S] have been written at [offset] over [C]. *)
Definition put (d : D) (C S : list Z) (offset t : Z) : Prop :=
  valid d ∧ content d = splice offset (ztake t S) C.

Lemma put_0 d S offset : valid d → 0 ≤ offset ≤ total_size dev → put d (content d) S offset 0.
Proof.
  intros Hv Ho. split; [done|]. change (ztake 0 S) with (@nil Z). by rewrite splice_nil.
Qed.

Lemma splice_next (C S : list Z) offset t n :
  0 ≤ offset → 0 ≤ t → 0 ≤ n → t + n ≤ zlen S → offset + t + n ≤ zlen C →
  splice (offset + t) (slice t n S) (splice offset (ztake t S) C) = splice offset (ztake (t + n) S) C.
Proof.
  intros. assert (zlen (ztake t S) = t) as Et by (apply zlen_ztake; lia).
  rewrite <- (ztake_app_zdrop t n S) by lia. fold (slice t n S).
  rewrite <- Et at 1. apply splice_app; [lia|]. rewrite Et, zlen_slice by lia. lia.
Qed.

Lemma put_blocks d C S offset t block n :
  put d C S offset t → zlen C = total_size dev → 0 ≤ offset → 0 ≤ t → 0 ≤ n → t + n * bs ≤ zlen S →
  0 ≤ block → block + n ≤ block_count dev → (n = 0 ∨ offset + t = block * bs) →
  ∃ d', bio_write_block dev h (zdrop t S) block n d = Ok (inr (n * bs), d') ∧ put d' C S offset (t + n * bs).
Proof.
  intros [Hv Hc] HC Ho Ht Hn HS Hb Hbn Hpos. pose proof bs_pos as Hp. pose proof drv_ok as [_ _ _ _ Htot].
  pose proof (Z.mul_nonneg_nonneg n bs ltac:(lia) ltac:(lia)).
  destruct (bio_write_block_ok d (zdrop t S) block n) as (d' & E & Hv' & Hc'); [done|lia|lia|lia| |].
  { rewrite zlen_zdrop; lia. }
  exists d'. split; [done|]. split; [done|]. rewrite Hc', Hc. destruct Hpos as [->|Hpos].
  - rewrite Z.mul_0_l, Z.add_0_r. change (ztake 0 (zdrop t S)) with (@nil Z). by rewrite splice_nil.
  - rewrite <- Hpos. fold (slice t (n * bs) S). apply splice_next; try lia.
    assert ((block + n) * bs ≤ block_count dev * bs) by (apply Z.mul_le_mono_nonneg_r; lia). lia.
Qed.

(** Reading a block, changing the bytes from [r] on, and writing it back. *)
Lemma put_part d C S offset t block r n :
  put d C S offset t → zlen C = total_size dev → 0 ≤ offset → 0 ≤ t → 0 ≤ n → t + n ≤ zlen S →
  0 ≤ block → block + 1 ≤ block_count dev → 0 ≤ r → r + n ≤ bs → offset + t = block * bs + r →
  ∃ d', bio_write_block dev h (splice r (slice t n S) (slice (block * bs) bs (content d))) block 1 d = Ok (inr bs, d') ∧
    put d' C S offset (t + n).
Proof.
  intros [Hv Hc] HC Ho Ht Hn HS Hb Hb1 Hr Hrn Hpos. pose proof bs_pos as Hp. pose proof drv_ok as [_ _ _ _ Htot].
  assert ((block + 1) * bs ≤ block_count dev * bs) as Hle by (apply Z.mul_le_mono_nonneg_r; lia).
  pose proof (Z.mul_nonneg_nonneg block bs ltac:(lia) ltac:(lia)). pose proof (drv_len d Hv) as Hlen.
  assert (zlen (slice t n S) = n) as En by (apply zlen_slice; lia).
  assert (zlen (splice r (slice t n S) (slice (block * bs) bs (content d))) = bs) as Ebs.
  { rewrite zlen_splice; [apply zlen_slice; lia|lia|]. rewrite En, zlen_slice; lia. }
  destruct (bio_write_block_ok d (splice r (slice t n S) (slice (block * bs) bs (content d))) block 1)
    as (d' & E & Hv' & Hc'); [done|lia|lia|lia|lia|].
  rewrite Z.mul_1_l in E, Hc'. exists d'. split; [done|]. split; [done|].
  rewrite Hc', ztake_all by lia. rewrite splice_block by lia. rewrite <- Hpos, Hc. apply splice_next; lia.
Qed.

Lemma write_middle_ok fuel : ∀ d C S offset t len block,
  put d C S offset t → zlen C = total_size dev → 0 ≤ offset → 0 ≤ t → 0 ≤ len → t + len ≤ zlen S →
  at_block block (offset + t) len → offset + t + len ≤ total_size dev → (Z.to_nat len < fuel)%nat →
  ∃ m block' d', 0 ≤ m ∧ m ≤ len ∧ len - m < bs ∧ at_block block' (offset + t + m) (len - m) ∧
    write_middle dev h fuel (zdrop t S) len t block d = Ok (inr (zdrop (t + m) S, len - m, t + m, block'), d') ∧
    put d' C S offset (t + m).
Proof.
  induction fuel as [|fuel IH]; intros d C S offset t len block Hput HC Ho Ht Hl HS Hat Htot Hf; [lia|].
  pose proof bs_pos as Hp. pose proof drv_ok as [_ _ _ Hcnt Htt]. cbn [write_middle].
  destruct (Z.leb_spec bs len) as [Hle|Hgt].
  - destruct (read_one_block d block (offset + t) len (proj1 Hput) Hat) as (_ & Hb1 & Hpos); [lia|lia|].
    destruct (bio_write_block_ok d (ztake bs (zdrop t S)) block 1) as (d1 & E1 & Hv1 & Hc1).
    { apply Hput. } { destruct Hat; lia. } { lia. } { lia. } { rewrite zlen_ztake; [lia|]. rewrite zlen_zdrop; lia. }
    rewrite Z.mul_1_l in E1, Hc1.
    assert (put d1 C S offset (t + bs)) as Hput1.
    { split; [done|]. rewrite Hc1, (proj2 Hput), <- Hpos. rewrite ztake_all by (rewrite zlen_ztake; [lia|]; rewrite zlen_zdrop; lia).
      fold (slice t bs S). apply splice_next; lia. }
    unfold mbind, io_bind. rewrite E1, check_transfer_ok by lia. unfold mret, io_ret.
    rewrite zdrop_zdrop, (u32_small (block + 1)) by (destruct Hat; lia).
    destruct (IH d1 C S offset (t + bs) (len - bs) (block + 1)) as (m & block' & d' & H1 & H2 & H3 & H4 & H5 & H6); try done; try lia.
    { split; [destruct Hat; lia|right; lia]. }
    exists (m + bs), block', d'. replace (offset + t + (m + bs)) with (offset + (t + bs) + m) by lia.
    replace (len - (m + bs)) with (len - bs - m) by lia. replace (t + (m + bs)) with (t + bs + m) by lia.
    split_and!; [lia|lia|lia|done|exact H5|exact H6].
  - exists 0, block, d. rewrite Z.sub_0_r, !Z.add_0_r. split_and!; [lia|lia|lia|done|done|done].
Qed.

Lemma write_first_ok d buf S offset len :
  valid d → 0 ≤ offset → 0 < len → offset + len ≤ total_size dev → total_size dev ≤ 2 ^ 32 → len ≤ zlen S →
  ∃ buf' t block' d', 0 ≤ t ≤ len ∧ at_block block' (offset + t) (len - t) ∧
    write_first dev h buf S offset len (offset / bs) d = Ok (inr (buf', zdrop t S, len - t, t, block'), d') ∧
    put d' (content d) S offset t.
Proof.
  intros Hv Ho Hl Ht Hmax HS. destruct (block_of_offset offset) as (Hq & Hr & Eo); [lia|].
  pose proof (drv_len d Hv) as Hlen. pose proof bs_pos as Hp. pose proof drv_ok as [_ _ _ Hcnt Htot].
  pose proof (put_0 d S offset Hv ltac:(lia)) as Hput.
  unfold write_first. rewrite (u64_small offset) by lia. destruct (Z.eqb_spec (offset `mod` bs) 0) as [E0|N0]; cbn [negb].
  - exists buf, 0, (offset / bs), d. rewrite Z.add_0_r, Z.sub_0_r. split_and!; [lia|lia| |done|exact Hput]. split; [lia|right; lia].
  - unfold mbind, io_bind. rewrite bio_read_block_ok by (done || lia). rewrite Z.mul_1_l, check_transfer_ok by lia.
    unfold mret, io_ret. set (r := offset `mod` bs) in *. set (t := MIN (bs - r) len).
    assert (t = Z.min (bs - r) len) as Et by (unfold t, MIN; destruct (Z.ltb_spec (bs - r) len); lia).
    destruct (put_part d (content d) S offset 0 (offset / bs) r t Hput) as (d' & E & Hput'); [done|lia..|].
    change (slice 0 t S) with (ztake t S) in E. rewrite E, check_transfer_ok, u32_small by lia. rewrite Z.add_0_l in Hput'.
    exists (buf + t), t, (offset / bs + 1), d'. split_and!; [lia|lia| |done|exact Hput'].
    split; [lia|]. destruct (decide (bs - r ≤ len)); [right; lia|left; lia].
Qed.

Lemma write_blocks_ok d buf C S offset t len block :
  put d C S offset t → zlen C = total_size dev → 0 ≤ offset → 0 ≤ t → 0 ≤ len < 2 ^ 32 → t + len ≤ zlen S →
  at_block block (offset + t) len → offset + t + len ≤ total_size dev →
  ∃ m block' d', 0 ≤ m ∧ m ≤ len ∧ len - m < bs ∧ at_block block' (offset + t + m) (len - m) ∧
    write_blocks dev h buf (zdrop t S) len t block d = Ok (inr (zdrop (t + m) S, len - m, t + m, block'), d') ∧
    put d' C S offset (t + m).
Proof.
  intros Hput HC Ho Ht Hl HS Hat Htot. unfold write_blocks. destruct (_ && _).
  { apply write_middle_ok; try done; lia. }
  pose proof bs_pos as Hp. pose proof drv_ok as [_ _ _ Hcnt Htt]. rewrite divpow2_bs by lia.
  pose proof (Z.mod_pos_bound len bs Hp). pose proof (Z.div_mod len bs ltac:(lia)) as Hdm.
  pose proof (Z.div_pos len bs ltac:(lia) ltac:(lia)). set (k := len / bs) in *.
  assert (block + k ≤ block_count dev ∧ (k = 0 ∨ offset + t = block * bs)) as [Hbk Hpos].
  { destruct Hat as [Hb [E0|Hpos]]; [unfold k; rewrite E0, Z.div_0_l by lia; lia|]. split; [|by right].
    assert ((block + k) * bs ≤ block_count dev * bs) as Hle by lia. by apply Z.mul_le_mono_pos_r in Hle. }
  destruct (put_blocks d C S offset t block k Hput) as (d' & E & Hput'); [done|lia|lia|lia|lia|destruct Hat; lia|lia|done|].
  unfold mbind, io_bind, io_assert. rewrite E, (Z.mul_comm bs k), (u64_small (k * bs)), check_transfer_ok by lia.
  unfold mret, io_ret. rewrite Z.eqb_refl, zdrop_zdrop, u32_small by (destruct Hat; lia).
  exists (k * bs), (block + k), d'. split_and!; [lia|lia|lia| |done|exact Hput'].
  split; [destruct Hat; lia|]. destruct Hpos as [->|Hpos]; [|right; lia]. destruct Hat as [_ [?|?]]; [left; lia|right; lia].
Qed.

(** The default write changes exactly the bytes of the range. *)
Lemma default_write_ok d buf S offset len :
  valid d → 0 ≤ offset → 0 < len → offset + len ≤ total_size dev → total_size dev ≤ 2 ^ 32 → len < 2 ^ 32 → len ≤ zlen S →
  ∃ d', bio_default_write dev h buf S offset len d = Ok (inr len, d') ∧ put d' (content d) S offset len.
Proof.
  intros Hv Ho Hl Ht Hmax Hl32 HS. unfold bio_default_write. rewrite divpow2_bs by lia. pose proof (drv_len d Hv) as Hlen.
  destruct (write_first_ok d buf S offset len Hv Ho Hl Ht Hmax HS) as (buf' & t & b1 & d1 & Ht1 & Hat1 & E1 & Hput1).
  unfold mbind at 1, io_bind at 1. rewrite E1.
  destruct (write_blocks_ok d1 buf' (content d) S offset t (len - t) b1) as (m & b2 & d2 & Hm0 & Hm1 & Hm2 & Hat2 & E2 & Hput2);
    [done|done|lia..|done|lia|].
  unfold mbind at 1, io_bind at 1. rewrite E2. unfold write_last.
  destruct (Z.ltb_spec 0 (len - t - m)) as [Hlt|Hge].
  - destruct (read_one_block d2 b2 (offset + t + m) (len - t - m) (proj1 Hput2) Hat2 Hlt) as (E3 & Hb & Hpos); [lia|].
    pose proof bs_pos. unfold mbind, io_bind. rewrite E3, check_transfer_ok by lia. unfold mret, io_ret.
    destruct (put_part d2 (content d) S offset (t + m) b2 0 (len - t - m) Hput2) as (d' & E4 & Hput'); [done|lia..|destruct Hat2; lia|lia|lia|lia|lia|].
    rewrite <- Hpos in E4. unfold slice at 1 in E4. rewrite E4, check_transfer_ok by lia.
    replace (t + m + (len - t - m)) with len in * by lia. by exists d'.
  - unfold mret, io_ret. replace (t + m) with len in * by lia. by exists d2.
Qed.
End driver.

(** * What a device promises to its clients

    Reading and writing any range, cut off at the end of the device. *)

Definition trimmed (dev : bdev) (offset len : Z) : Z := Z.max 0 (Z.min len (total_size dev - offset)).

Class BlockDevice {D} (dev : bdev) (h : hooks D) (valid : D → Prop) (content : D → list Z) : Prop := {
  dev_len d : valid d → zlen (content d) = total_size dev;
  dev_read d buf offset len :
    valid d → 0 ≤ offset → 0 ≤ len → offset + len < 2 ^ 63 →
    let n := trimmed dev offset len in
    bio_read dev h buf offset len d = Ok (n, slice offset n (content d), d);
  dev_write d buf src offset len :
    valid d → 0 ≤ offset → 0 ≤ len → offset + len < 2 ^ 63 → len ≤ zlen src →
    let n := trimmed dev offset len in
    ∃ d', bio_write dev h buf src offset len d = Ok (n, d') ∧ valid d' ∧
      content d' = splice offset (ztake n src) (content d);
}.

Lemma trimmed_range dev offset len :
  0 ≤ offset → 0 ≤ len → 0 ≤ total_size dev →
  0 ≤ trimmed dev offset len ≤ len ∧ (0 < trimmed dev offset len → offset + trimmed dev offset len ≤ total_size dev).
Proof. unfold trimmed. lia. Qed.

Section default_device.
Context {D : Type} {dev : bdev} {h : hooks D} {valid : D → Prop} {content : D → list Z} `{!Driver dev h valid content}.
Context (Hread : h_read h = None) (Hwrite : h_write h = None) (Hsmall : total_size dev < 2 ^ 32).

Lemma total_nonneg : 0 ≤ total_size dev.
Proof. pose proof drv_ok as [_ _ _ ? ->]. pose proof bs_pos. apply Z.mul_nonneg_nonneg; lia. Qed.

Lemma default_bio_read d buf offset len :
  valid d → 0 ≤ offset → 0 ≤ len → offset + len < 2 ^ 63 →
  let n := trimmed dev offset len in
  bio_read dev h buf offset len d = Ok (n, slice offset n (content d), d).
Proof.
  intros Hv Ho Hl Hs. cbv zeta. pose proof total_nonneg as Ht. pose proof drv_ok as [Hr _ _ _ _].
  destruct (trimmed_range dev offset len Ho Hl Ht) as [Hn Hn2]. unfold bio_read.
  rewrite (proj2 (Z.ltb_lt 0 _)), bio_trim_range_spec, Hread by done. cbn [negb]. fold (trimmed dev offset len).
  destruct (Z.eqb_spec (trimmed dev offset len) 0) as [->|Hne]; [done|].
  rewrite default_read_ok by (done || lia). done.
Qed.

Lemma default_bio_write d buf src offset len :
  valid d → 0 ≤ offset → 0 ≤ len → offset + len < 2 ^ 63 → len ≤ zlen src →
  let n := trimmed dev offset len in
  ∃ d', bio_write dev h buf src offset len d = Ok (n, d') ∧ valid d' ∧ content d' = splice offset (ztake n src) (content d).
Proof.
  intros Hv Ho Hl Hs HS. cbv zeta. pose proof total_nonneg as Ht. pose proof drv_ok as [Hr _ _ _ _].
  destruct (trimmed_range dev offset len Ho Hl Ht) as [Hn Hn2]. unfold bio_write.
  rewrite (proj2 (Z.ltb_lt 0 _)), bio_trim_range_spec, Hwrite by done. cbn [negb]. fold (trimmed dev offset len).
  destruct (Z.eqb_spec (trimmed dev offset len) 0) as [->|Hne].
  - exists d. change (ztake 0 src) with (@nil Z). by rewrite splice_nil.
  - destruct (default_write_ok d buf src offset (trimmed dev offset len)) as (d' & E & Hv' & Hc'); [done|lia..|].
    exists d'. unfold status. by rewrite E.
Qed.

Lemma default_device : BlockDevice dev h valid content.
Proof. split; [apply drv_len|apply default_bio_read|apply default_bio_write]. Qed.
End default_device.

(** * Theorems about the default implementation *)

(** C37: on a device below 4 GiB the default read returns exactly the bytes of
    the range, cut off at the end of the device, whatever its alignment, the
    alignment of the buffer and the flags of the device. *)
Theorem bio_read_returns_range {D} dev (h : hooks D) valid content d buf offset len :
  Driver dev h valid content → h_read h = None → total_size dev < 2 ^ 32 →
  valid d → 0 ≤ offset → 0 ≤ len → offset + len < 2 ^ 63 →
  let n := trimmed dev offset len in
  bio_read dev h buf offset len d = Ok (n, slice offset n (content d), d).
Proof. intros HD Hr Hs. by apply default_bio_read. Qed.

(** C38: on a device below 4 GiB the default write changes exactly the bytes of
    the range and returns their number: partial blocks are read, changed and
    written back, and their other bytes are kept. *)
Theorem bio_write_changes_range {D} dev (h : hooks D) valid content d buf src offset len :
  Driver dev h valid content → h_write h = None → total_size dev < 2 ^ 32 →
  valid d → 0 ≤ offset → 0 ≤ len → offset + len < 2 ^ 63 → len ≤ zlen src →
  let n := trimmed dev offset len in
  ∃ d', bio_write dev h buf src offset len d = Ok (n, d') ∧ valid d' ∧ content d' = splice offset (ztake n src) (content d).
Proof. intros HD Hr Hs. by apply default_bio_write. Qed.

(** What was written is read back. *)
Theorem bio_write_read_roundtrip {D} dev (h : hooks D) valid content d buf src offset :
  BlockDevice dev h valid content → valid d → 0 ≤ offset → offset + zlen src ≤ total_size dev → total_size dev < 2 ^ 63 →
  ∃ d', bio_write dev h buf src offset (zlen src) d = Ok (zlen src, d') ∧
    bio_read dev h buf offset (zlen src) d' = Ok (zlen src, src, d').
Proof.
  intros HD Hv Ho Ht Hs. pose proof (zlen_nonneg src) as Hl. pose proof (dev_len d Hv) as Hlen.
  assert (trimmed dev offset (zlen src) = zlen src) as En by (unfold trimmed; lia).
  destruct (dev_write d buf src offset (zlen src)) as (d' & E & Hv' & Hc'); [done|lia..|]. rewrite En in *.
  exists d'. split; [done|]. rewrite dev_read by (done || lia). rewrite En, Hc'.
  rewrite (ztake_all _ src), slice_splice by lia. done.
Qed.

Section erase.
Context {D : Type} {dev : bdev} {h : hooks D} {valid : D → Prop} {content : D → list Z} `{!BlockDevice dev h valid content}.
Context (Hbs : 0 < block_size dev) (Hsmall : total_size dev < 2 ^ 62).

Notation fill n := (replicate (Z.to_nat n) (erase_byte dev)).

Lemma erase_loop_ok fuel : ∀ d C erase_buf offset t remaining,
  valid d → content d = splice offset (fill t) C → zlen C = total_size dev →
  0 ≤ offset → 0 ≤ t → 0 ≤ remaining → offset + t + remaining ≤ total_size dev → (Z.to_nat remaining < fuel)%nat →
  ∃ d', erase_loop dev h fuel erase_buf t remaining (offset + t) d = Ok (t + remaining, d') ∧ valid d' ∧
    content d' = splice offset (fill (t + remaining)) C.
Proof.
  induction fuel as [|fuel IH]; intros d C eb offset t remaining Hv Hc HC Ho Ht Hr Htot Hf; [lia|]. cbn [erase_loop].
  destruct (Z.ltb_spec 0 remaining) as [Hlt|Hge].
  2:{ assert (remaining = 0) as -> by lia. rewrite Z.add_0_r. by exists d. }
  set (w := MIN remaining (block_size dev)).
  assert (0 < w ≤ remaining ∧ w ≤ block_size dev) as [Hw Hwb] by (unfold w, MIN; destruct (Z.ltb_spec remaining (block_size dev)); lia).
  destruct (dev_write d eb (fill (block_size dev)) (offset + t) w) as (d1 & E & Hv1 & Hc1);
    [done|lia..|rewrite zlen_replicate; lia|]. assert (trimmed dev (offset + t) w = w) as Etr by (unfold trimmed; lia).
  rewrite Etr in *. rewrite E. cbn [mbind res_bind]. rewrite (proj2 (Z.ltb_ge w 0)), Z.ltb_irrefl by lia.
  destruct (IH d1 C eb offset (t + w) (remaining - w)) as (d' & E' & Hv' & Hc'); [done| |done|lia..|].
  - rewrite Hc1, Hc. assert (ztake w (fill (block_size dev)) = fill w) as ->.
    { unfold ztake. rewrite take_replicate. f_equal. lia. }
    assert (zlen (fill t) = t) as Et by (apply zlen_replicate; lia). rewrite <- Et at 1. rewrite splice_app.
    + f_equal. rewrite <- replicate_add. f_equal. lia.
    + done.
    + rewrite !zlen_replicate by lia. lia.
  - exists d'. replace (offset + t + w) with (offset + (t + w)) by lia. rewrite E'.
    by replace (t + w + (remaining - w)) with (t + remaining) in * by lia.
Qed.
End erase.

(** The default erase fills exactly the range with the erase byte and
    terminates, on any device that reads and writes ranges. *)
Theorem bio_erase_fills_range {D} dev (h : hooks D) valid content d erase_buf offset len :
  BlockDevice dev h valid content → h_erase h = None → 0 < ref dev → 0 < block_size dev → total_size dev < 2 ^ 62 →
  valid d → 0 ≤ offset → 0 ≤ len → offset + len < 2 ^ 63 →
  let n := trimmed dev offset len in
  ∃ d', bio_erase dev h erase_buf offset len d = Ok (n, d') ∧ valid d' ∧
    content d' = splice offset (replicate (Z.to_nat n) (erase_byte dev)) (content d).
Proof.
  intros HD He Hr Hbs Hs Hv Ho Hl Hol. cbv zeta. pose proof (dev_len d Hv) as Hlen. pose proof (zlen_nonneg (content d)).
  destruct (trimmed_range dev offset len Ho Hl ltac:(lia)) as [Hn Hn2]. unfold bio_erase.
  rewrite (proj2 (Z.ltb_lt 0 (ref dev))), bio_trim_range_spec, He by done. cbn [negb]. fold (trimmed dev offset len).
  set (n := trimmed dev offset len) in *. destruct (Z.eqb_spec n 0) as [E0|Hne].
  - exists d. rewrite E0. change (replicate (Z.to_nat 0) (erase_byte dev)) with (@nil Z). by rewrite splice_nil.
  - unfold bio_default_erase.
    destruct (erase_loop_ok Hbs Hs (S (Z.to_nat n)) d (content d) erase_buf offset 0 n) as (d' & E & Hv' & Hc'); try done; try lia.
    + change (replicate (Z.to_nat 0) (erase_byte dev)) with (@nil Z). by rewrite splice_nil.
    + rewrite Z.add_0_r, Z.add_0_l in *. by exists d'.
Qed.

(** * Where the code does not do what it means to *)

(** The byte offset is cut to 32 bits before it is turned into a block number:
    on an 8 GiB device the read at 4 GiB asks for block 0. *)
Theorem bio_read_offset_truncated {D} (h : hooks D) d data :
  let dev := mk_bdev 1 EmptyString (2 ^ 33) 512 9 (2 ^ 24) [] 0 0 in
  h_read h = None → h_read_block h = Some (λ block count d, Ok (count * 512, data block, d)) → zlen (data 0) = 512 →
  bio_read dev h 0 (2 ^ 32) 512 d = Ok (512, data 0, d).
Proof.
  cbv zeta. intros Hr Hb Hl. unfold bio_read. change (bio_trim_range _ _ _) with 512. rewrite Hr.
  unfold bio_default_read, read_first, read_blocks, read_last, bio_read_block, hook, io_assert, mbind, io_bind.
  cbn. rewrite Hb. by vm_compute.
Qed.

(** A block range whose end does not fit 32 bits is not cut off at the end of
    the device. *)
Theorem bio_trim_block_range_wraps :
  let dev := mk_bdev 1 EmptyString 4096 512 9 8 [] 0 0 in
  bio_trim_block_range dev 4 (2 ^ 32 - 1) = 2 ^ 32 - 1.
Proof. by vm_compute. Qed.
