(* ===== verification/BioMem.v ===== *)
(** The memory block device [lib/bio/mem.c] and subdevices [lib/bio/subdev.c],
    as instances of what [Bio] expects of drivers and promises to clients. *)
From stdpp Require Import prelude strings.
From S2P Require Import Prelude Pow2 Bytes Bio.

#[local] Open Scope Z_scope.

(** * Memory devices

    The state of the driver is the memory at [ptr]. *)

Definition BLOCKSIZE : Z := 512.

Definition mem_bdev_read (dev : bdev) (buf offset len : Z) (mem : list Z) : res (Z * list Z * list Z) :=
  let len := bio_trim_range dev offset len in
  if len =? 0 then Ok (0, [], mem) else
  data ← mem_read mem offset len;
  Ok (len, data, mem).

Definition mem_bdev_read_block (dev : bdev) (block count : Z) (mem : list Z) : res (Z * list Z * list Z) :=
  let count := bio_trim_block_range dev block count in
  if count =? 0 then Ok (0, [], mem) else
  let offset := u64 (block * BLOCKSIZE) in
  let bytes := u64 (count * BLOCKSIZE) in
  data ← mem_read mem offset bytes;
  Ok (bytes, data, mem).

Definition mem_bdev_write (dev : bdev) (buf : Z) (src : list Z) (offset len : Z) (mem : list Z) : res (Z * list Z) :=
  let len := bio_trim_range dev offset len in
  if len =? 0 then Ok (0, mem) else
  data ← mem_read src 0 len;
  mem ← mem_write offset data mem;
  Ok (len, mem).

Definition mem_bdev_write_block (dev : bdev) (src : list Z) (block count : Z) (mem : list Z) : res (Z * list Z) :=
  let count := bio_trim_block_range dev block count in
  if count =? 0 then Ok (0, mem) else
  let offset := u64 (block * BLOCKSIZE) in
  let bytes := u64 (count * BLOCKSIZE) in
  data ← mem_read src 0 bytes;
  mem ← mem_write offset data mem;
  Ok (bytes, mem).

(** Only whole erase units can be erased. *)
Definition mem_bdev_erase (dev : bdev) (erase_buf offset len : Z) (mem : list Z) : res (Z * list Z) :=
  match geometry dev with
  | [g] =>
      if negb (Z.land (u64 offset) (g_erase_size g - 1) =? 0) || negb (Z.land len (g_erase_size g - 1) =? 0)
      then Ok (ERR_INVALID_ARGS, mem) else
      let len := bio_trim_range dev offset len in
      if len =? 0 then Ok (0, mem) else
      mem ← mem_write offset (replicate (Z.to_nat len) (erase_byte dev)) mem;
      Ok (len, mem)
  | _ => Fault AssertFailed
  end.

(** The transfer is done before the callback is called. *)
Definition mem_bdev_read_async (dev : bdev) (callback : bool) (buf offset len : Z) (mem : list Z)
    : res (Z * option Z * list Z * list Z) :=
  '(readn, data, mem) ← mem_bdev_read dev buf offset len mem;
  Ok (0, if callback then Some readn else None, data, mem).

Definition mem_bdev_write_async (dev : bdev) (callback : bool) (buf : Z) (src : list Z) (offset len : Z) (mem : list Z)
    : res (Z * option Z * list Z) :=
  '(written, mem) ← mem_bdev_write dev buf src offset len mem;
  Ok (0, if callback then Some written else None, mem).

Definition BIO_IOCTL_GET_MEM_MAP : Z := 1.
Definition BIO_IOCTL_PUT_MEM_MAP : Z := 2.
Definition BIO_IOCTL_GET_MAP_ADDR : Z := 3.
Definition BIO_IOCTL_IS_MAPPED : Z := 4.

Definition mem_bdev_ioctl (ptr request : Z) (argp : bool) : Z * option ioctl_out :=
  if (request =? BIO_IOCTL_GET_MEM_MAP) || (request =? BIO_IOCTL_GET_MAP_ADDR)
  then if argp then (0, Some (OutPtr ptr)) else (ERR_INVALID_ARGS, None)
  else if request =? BIO_IOCTL_PUT_MEM_MAP then (0, None)
  else if request =? BIO_IOCTL_IS_MAPPED
  then if argp then (0, Some (OutBool true)) else (ERR_INVALID_ARGS, None)
  else (ERR_NOT_SUPPORTED, None).

Definition mem_bdev_set_hooks (dev : bdev) (ptr : Z) : hooks (list Z) :=
  mk_hooks (Some (mem_bdev_read dev)) (Some (mem_bdev_read_block dev))
    (Some (mem_bdev_write dev)) (Some (mem_bdev_write_block dev)) None
    (Some (mem_bdev_read_async dev)) (Some (mem_bdev_write_async dev)) (Some (mem_bdev_ioctl ptr)).

Definition with_ref (r : Z) (dev : bdev) : bdev :=
  mk_bdev r (name dev) (total_size dev) (block_size dev) (block_shift dev) (block_count dev) (geometry dev)
    (erase_byte dev) (flags dev).
Definition bdev_inc_ref (dev : bdev) : bdev := with_ref (ref dev + 1) dev.
Definition with_erase_byte (b : Z) (dev : bdev) : bdev :=
  mk_bdev (ref dev) (name dev) (total_size dev) (block_size dev) (block_shift dev) (block_count dev) (geometry dev)
    b (flags dev).

(** The device as it is registered, or the status of the failure.  The hooks
    are those of [mem_bdev_set_hooks]. *)
Definition create_membdev (nm : option string) (ptr_ok malloc_ok : bool) (len : Z) : res (Z + bdev) :=
  match nm with
  | Some nm =>
      if negb ptr_ok then Ok (inl ERR_INVALID_ARGS)
      else if negb malloc_ok then Ok (inl ERR_NO_MEMORY)
      else dev ← bio_initialize_bdev nm BLOCKSIZE (u32 (len / BLOCKSIZE)) [] 0;
           Ok (inr (bdev_inc_ref dev))
  | None => Ok (inl ERR_INVALID_ARGS)
  end.

Definition nor_hooks (dev : bdev) (ptr : Z) : hooks (list Z) :=
  let h := mem_bdev_set_hooks dev ptr in
  mk_hooks (h_read h) (h_read_block h) (h_write h) (h_write_block h) (Some (mem_bdev_erase dev))
    (h_read_async h) (h_write_async h) (h_ioctl h).

Definition create_nor_membdev (nm : option string) (ptr_ok malloc_ok : bool) (len erase_size erase_byte : Z)
    : res (Z + bdev) :=
  match nm with
  | Some nm =>
      if negb ptr_ok then Ok (inl ERR_INVALID_ARGS)
      else if (erase_size =? 0) || negb (ispow2 (u32 erase_size)) || (erase_size <? BLOCKSIZE) then Ok (inl ERR_INVALID_ARGS)
      else if (len =? 0) || negb (Z.land len (erase_size - 1) =? 0) then Ok (inl ERR_INVALID_ARGS)
      else if negb malloc_ok then Ok (inl ERR_NO_MEMORY)
      else
        let g := mk_geometry 0 (s64 len) erase_size (log2_uint (u32 erase_size)) in
        dev ← bio_initialize_bdev nm BLOCKSIZE (u32 (len / BLOCKSIZE)) [g] 0;
        Ok (inr (bdev_inc_ref (with_erase_byte erase_byte dev)))
  | None => Ok (inl ERR_INVALID_ARGS)
  end.

(** * Subdevices

    The state of the driver is the state of the parent's driver. *)

Section subdev.
Context {D : Type} (parent : bdev) (hp : hooks D) (sub : bdev) (offset : Z).

Definition subdev_byte_offset : Z := offset * block_size sub.

Definition subdev_read (buf off len : Z) : D → res (Z * list Z * D) :=
  bio_read parent hp buf (off + subdev_byte_offset) len.

(** The calls of the interface on whole blocks never leave early. *)
Definition subdev_read_block (block count : Z) (d : D) : res (Z * list Z * D) :=
  match bio_read_block parent hp (u32 (block + offset)) count d with
  | Ok (inr (n, data), d) => Ok (n, data, d)
  | Ok (inl err, d) => Ok (err, [], d)
  | Fault e => Fault e
  end.

Definition subdev_write (buf : Z) (src : list Z) (off len : Z) : D → res (Z * D) :=
  bio_write parent hp buf src (off + subdev_byte_offset) len.

Definition subdev_write_block (src : list Z) (block count : Z) : D → res (Z * D) :=
  status (bio_write_block parent hp src (u32 (block + offset)) count).

Definition subdev_erase (erase_buf off len : Z) : D → res (Z * D) :=
  bio_erase parent hp erase_buf (off + subdev_byte_offset) len.

Definition subdev_read_async (callback : bool) (buf off len : Z) : D → res (Z * option Z * list Z * D) :=
  bio_read_async parent hp callback buf (off + subdev_byte_offset) len.

Definition subdev_write_async (callback : bool) (buf : Z) (src : list Z) (off len : Z) : D → res (Z * option Z * D) :=
  bio_write_async parent hp callback buf src (off + subdev_byte_offset) len.

Definition subdev_hooks : hooks D :=
  mk_hooks (Some subdev_read) (Some subdev_read_block) (Some subdev_write) (Some subdev_write_block) (Some subdev_erase)
    (Some subdev_read_async) (Some subdev_write_async) None.
End subdev.

Definition bio_contains_range (start1 len1 start2 len2 : Z) : res bool :=
  let end1 := u64 (start1 + len1) in
  let end2 := u64 (start2 + len2) in
  assert_ (start1 <=? end1);;
  assert_ (start2 <=? end2);;
  Ok ((start1 <=? start2) && (end2 <=? end1)).

(** The search for the erase region: the one that contains the range, or, when
    there is none, the last one looked at. *)
Fixpoint find_geometry (geo : option bio_erase_geometry_info) (gs : list bio_erase_geometry_info) (start size : Z)
    : res (option bio_erase_geometry_info) :=
  match gs with
  | [] => Ok geo
  | g :: gs =>
      b ← bio_contains_range (g_start g) (g_size g) start size;
      if b : bool then Ok (Some g) else find_geometry (Some g) gs start size
  end.

(** The checks of [bio_publish_subdevice]: the status of the failure or the
    erase geometry of the subdevice. *)
Definition subdevice_check (parent : bdev) (startblock count : Z) : res (Z + list bio_erase_geometry_info) :=
  match geometry parent with
  | [] =>
      let endblock := u32 (startblock + count) in
      if (endblock <? startblock) || (block_count parent <? endblock) then Ok (inl ERR_INVALID_ARGS)
      else Ok (inr [])
  | gs =>
      let byte_start := u64 (Z.shiftl startblock (block_shift parent)) in
      let byte_size := u64 (Z.shiftl count (block_shift parent)) in
      geo ← find_geometry None gs byte_start byte_size;
      match geo with
      | None => Ok (inl ERR_INVALID_ARGS)
      | Some g =>
          let erase_mask := u64 (Z.shiftl 1 (g_erase_shift g)) - 1 in
          if negb (Z.land byte_start erase_mask =? 0) || negb (Z.land byte_size erase_mask =? 0)
          then Ok (inl ERR_INVALID_ARGS)
          else Ok (inr [mk_geometry 0 byte_size (g_erase_size g) (g_erase_shift g)])
      end
  end.

(** The subdevice as it is registered; the parent has been found and opened. *)
Definition make_subdevice (parent : bdev) (subname : string) (startblock count : Z) : res (Z + bdev) :=
  r ← subdevice_check parent startblock count;
  match r with
  | inl err => Ok (inl err)
  | inr gs =>
      dev ← bio_initialize_bdev subname (block_size parent) count gs 0;
      Ok (inr (bdev_inc_ref (with_erase_byte (erase_byte parent) dev)))
  end.

(** * The memory device keeps the contract *)

Definition mem_valid (dev : bdev) (mem : list Z) : Prop := total_size dev ≤ zlen mem.
Definition mem_content (dev : bdev) (mem : list Z) : list Z := ztake (total_size dev) mem.

Section mem.
Context (dev : bdev) (Hok : bdev_ok dev) (Hbs : block_size dev = BLOCKSIZE).

Lemma mem_total : total_size dev = block_count dev * 512.
Proof. destruct Hok as [_ _ _ _ ->]. by rewrite Hbs. Qed.

Lemma mem_len mem : mem_valid dev mem → zlen (mem_content dev mem) = total_size dev.
Proof. intros Hv. pose proof mem_total. destruct Hok as [_ _ _ ? _]. apply zlen_ztake. unfold mem_valid in Hv. lia. Qed.

(** The bytes of the device are the first of the memory. *)
Lemma mem_slice mem off n :
  0 ≤ off → 0 ≤ n → off + n ≤ total_size dev → mem_valid dev mem →
  slice off n mem = slice off n (mem_content dev mem).
Proof.
  intros Ho Hn Ht Hv. unfold mem_valid in Hv. change (mem_content dev mem) with (slice 0 (total_size dev) mem).
  rewrite slice_slice by lia. done.
Qed.

Lemma mem_splice mem off data :
  0 ≤ off → off + zlen data ≤ total_size dev → mem_valid dev mem →
  mem_valid dev (splice off data mem) ∧ mem_content dev (splice off data mem) = splice off data (mem_content dev mem).
Proof.
  intros Ho Ht Hv. pose proof (mem_len mem Hv) as Hl. unfold mem_valid in *. pose proof (zlen_nonneg data).
  assert (zlen (splice off data mem) = zlen mem) as Es by (rewrite zlen_splice; lia). split; [lia|].
  apply zlist_eq.
  - rewrite zlen_splice by lia. rewrite Hl. unfold mem_content. rewrite zlen_ztake; lia.
  - unfold mem_content at 1. rewrite zlen_ztake by lia. intros i Hi. unfold mem_content.
    rewrite znth_ztake by lia. rewrite !znth_splice by (unfold mem_content in *; lia).
    by rewrite znth_ztake by lia.
Qed.

Lemma mem_read_at mem off n :
  0 ≤ off → 0 ≤ n → off + n ≤ total_size dev → mem_valid dev mem →
  mem_read mem off n = Ok (slice off n (mem_content dev mem)).
Proof. intros. rewrite mem_read_Ok by (unfold mem_valid in *; lia). f_equal. by apply mem_slice. Qed.

(** A copy of the first [n] bytes of [src]. *)
Lemma mem_write_at mem src off n :
  0 ≤ off → 0 ≤ n ≤ zlen src → off + n ≤ total_size dev → mem_valid dev mem →
  ∃ mem', (data ← mem_read src 0 n; mem ← mem_write off data mem; Ok (n, mem)) = Ok (n, mem') ∧
    mem_valid dev mem' ∧ mem_content dev mem' = splice off (ztake n src) (mem_content dev mem).
Proof.
  intros Ho Hn Ht Hv. rewrite mem_read_Ok by lia. cbn [mbind res_bind]. change (zdrop 0 src) with src.
  assert (zlen (ztake n src) = n) as El by (apply zlen_ztake; lia).
  rewrite mem_write_Ok by (unfold mem_valid in *; lia). cbn [mbind res_bind].
  destruct (mem_splice mem off (ztake n src)) as [Hv' Hc']; [lia..|done|]. eauto.
Qed.

Context (h : hooks (list Z)).
Context (Hrb : h_read_block h = Some (mem_bdev_read_block dev)) (Hwb : h_write_block h = Some (mem_bdev_write_block dev)).

Lemma mem_block_range block count :
  0 ≤ block → 0 < count → block + count ≤ block_count dev →
  bio_trim_block_range dev block count = count ∧ (count =? 0) = false ∧
  u64 (block * BLOCKSIZE) = block * 512 ∧ u64 (count * BLOCKSIZE) = count * 512 ∧ (block + count) * 512 ≤ total_size dev.
Proof.
  intros Hb Hc Hr. pose proof mem_total as Ht. destruct Hok as [_ _ _ Hcnt _]. unfold BLOCKSIZE.
  rewrite bio_trim_block_range_spec, !u64_small by lia. repeat split; lia.
Qed.

Lemma mem_driver : Driver dev h (mem_valid dev) (mem_content dev).
Proof.
  split; [done|apply mem_len| |].
  - intros d block count Hv Hb Hc Hr. destruct (mem_block_range block count Hb Hc Hr) as (E1 & E2 & E3 & E4 & Hle).
    rewrite Hrb. cbn [default from_option]. unfold id, mem_bdev_read_block. rewrite E1, E2, E3, E4, mem_read_at by (lia || done).
    by rewrite Hbs.
  - intros d buf block count Hv Hb Hc Hr Hbuf. destruct (mem_block_range block count Hb Hc Hr) as (E1 & E2 & E3 & E4 & Hle).
    rewrite Hbs in *. rewrite Hwb. cbn [default from_option]. unfold id, mem_bdev_write_block. rewrite E1, E2, E3, E4. unfold BLOCKSIZE in *.
    apply mem_write_at; lia || done.
Qed.

Context (Hrd : h_read h = Some (mem_bdev_read dev)) (Hwr : h_write h = Some (mem_bdev_write dev)).

(** Trimming twice is trimming once. *)
Lemma trim_trimmed offset len :
  0 ≤ offset → 0 ≤ len → offset + len < 2 ^ 63 →
  bio_trim_range dev offset (trimmed dev offset len) = trimmed dev offset len.
Proof.
  intros Ho Hl Hs. pose proof mem_total as Ht. destruct Hok as [_ _ _ Hcnt _].
  destruct (trimmed_range dev offset len Ho Hl) as [Hn Hn2]; [lia|].
  rewrite bio_trim_range_spec by lia. unfold trimmed. lia.
Qed.

Lemma mem_device : BlockDevice dev h (mem_valid dev) (mem_content dev).
Proof.
  pose proof mem_total as Ht. pose proof Hok as [Hr _ _ Hcnt _]. split; [apply mem_len| |].
  - intros d buf offset len Hv Ho Hl Hs. cbv zeta. unfold bio_read.
    rewrite (proj2 (Z.ltb_lt 0 (ref dev))), bio_trim_range_spec by done. fold (trimmed dev offset len). cbn [negb].
    destruct (trimmed_range dev offset len Ho Hl) as [Hn Hn2]; [lia|].
    destruct (Z.eqb_spec (trimmed dev offset len) 0) as [->|Hne]; [done|].
    rewrite Hrd. unfold mem_bdev_read. rewrite trim_trimmed, (proj2 (Z.eqb_neq _ 0)) by done.
    by rewrite mem_read_at by (lia || done).
  - intros d buf src offset len Hv Ho Hl Hs Hsrc. cbv zeta. unfold bio_write.
    rewrite (proj2 (Z.ltb_lt 0 (ref dev))), bio_trim_range_spec by done. fold (trimmed dev offset len). cbn [negb].
    destruct (trimmed_range dev offset len Ho Hl) as [Hn Hn2]; [lia|].
    destruct (Z.eqb_spec (trimmed dev offset len) 0) as [->|Hne].
    + exists d. change (ztake 0 src) with (@nil Z). by rewrite splice_nil.
    + rewrite Hwr. unfold mem_bdev_write. rewrite trim_trimmed, (proj2 (Z.eqb_neq _ 0)) by done.
      apply mem_write_at; lia || done.
Qed.
End mem.

(** * Subdevices keep the contract of their parent *)

(** The bytes of the subdevice are a window of the parent's. *)
Definition sub_content {D} (content : D → list Z) (sub : bdev) (offset : Z) (d : D) : list Z :=
  slice (subdev_byte_offset sub offset) (total_size sub) (content d).

Section sub.
Context {D : Type} {parent : bdev} {hp : hooks D} {valid : D → Prop} {content : D → list Z} `{!BlockDevice parent hp valid content}.
Context (sub : bdev) (offset : Z).
Notation start := (subdev_byte_offset sub offset).
Context (Href : 0 < ref sub) (Hstart : 0 ≤ start) (Htotal : 0 ≤ total_size sub)
  (Hinside : start + total_size sub ≤ total_size parent) (Hsmall : total_size parent < 2 ^ 62).

(** Inside the subdevice, the parent does not cut anything off. *)
Lemma sub_trimmed off len :
  0 ≤ off → 0 ≤ len → 0 < trimmed sub off len →
  trimmed parent (off + start) (trimmed sub off len) = trimmed sub off len.
Proof. unfold trimmed. lia. Qed.

Lemma sub_read d buf off len :
  valid d → 0 ≤ off → 0 ≤ len → off + len < 2 ^ 63 →
  bio_read sub (subdev_hooks parent hp sub offset) buf off len d =
    Ok (trimmed sub off len, slice off (trimmed sub off len) (sub_content content sub offset d), d).
Proof.
  intros Hv Ho Hl Hs. pose proof (dev_len d Hv) as Hlen. unfold bio_read.
  rewrite (proj2 (Z.ltb_lt 0 (ref sub))), bio_trim_range_spec by done. fold (trimmed sub off len). cbn [negb].
  destruct (trimmed_range sub off len Ho Hl Htotal) as [Hn Hn2].
  destruct (Z.eqb_spec (trimmed sub off len) 0) as [->|Hne]; [done|].
  cbn [subdev_hooks h_read]. unfold subdev_read. rewrite dev_read by (done || lia). rewrite sub_trimmed by lia.
  unfold sub_content. rewrite slice_slice by lia. by rewrite (Z.add_comm off).
Qed.

Lemma sub_write d buf src off len :
  valid d → 0 ≤ off → 0 ≤ len → off + len < 2 ^ 63 → len ≤ zlen src →
  ∃ d', bio_write sub (subdev_hooks parent hp sub offset) buf src off len d = Ok (trimmed sub off len, d') ∧ valid d' ∧
    content d' = splice (start + off) (ztake (trimmed sub off len) src) (content d).
Proof.
  intros Hv Ho Hl Hs Hsrc. pose proof (dev_len d Hv) as Hlen. unfold bio_write.
  rewrite (proj2 (Z.ltb_lt 0 (ref sub))), bio_trim_range_spec by done. fold (trimmed sub off len). cbn [negb].
  destruct (trimmed_range sub off len Ho Hl Htotal) as [Hn Hn2].
  destruct (Z.eqb_spec (trimmed sub off len) 0) as [->|Hne].
  - exists d. change (ztake 0 src) with (@nil Z). by rewrite splice_nil.
  - cbn [subdev_hooks h_write]. unfold subdev_write.
    destruct (dev_write d buf src (off + start) (trimmed sub off len)) as (d' & E & Hv' & Hc'); [done|lia..|].
    rewrite sub_trimmed in * by lia. rewrite (Z.add_comm off) in *. eauto.
Qed.

(** A write to the window is a write to the parent. *)
Lemma sub_content_splice (C x : list Z) off :
  zlen C = total_size parent → 0 ≤ off → off + zlen x ≤ total_size sub →
  slice start (total_size sub) (splice (start + off) x C) = splice off x (slice start (total_size sub) C).
Proof.
  intros HC Ho Hx. pose proof (zlen_nonneg x). assert (zlen (splice (start + off) x C) = zlen C) as Es by (rewrite zlen_splice; lia).
  assert (zlen (slice start (total_size sub) C) = total_size sub) as Ew by (rewrite zlen_slice; lia).
  apply zlist_eq; [rewrite zlen_splice, !zlen_slice by lia; lia|]. rewrite zlen_slice by lia. intros i Hi.
  rewrite znth_splice, !znth_slice, znth_splice by lia.
  destruct (Z.leb_spec off i), (Z.leb_spec (start + off) (start + i)); try lia; [|done].
  destruct (Z.ltb_spec i (off + zlen x)), (Z.ltb_spec (start + i) (start + off + zlen x)); try lia; [|done].
  cbn [andb]. f_equal. lia.
Qed.

Lemma sub_device : BlockDevice sub (subdev_hooks parent hp sub offset) valid (sub_content content sub offset).
Proof.
  split.
  - intros d Hv. pose proof (dev_len d Hv). unfold sub_content. rewrite zlen_slice; lia.
  - intros d buf off len. apply sub_read.
  - intros d buf src off len Hv Ho Hl Hs Hsrc. cbv zeta. pose proof (dev_len d Hv) as Hlen.
    destruct (sub_write d buf src off len Hv Ho Hl Hs Hsrc) as (d' & E & Hv' & Hc'). exists d'. split_and!; [done|done|].
    destruct (trimmed_range sub off len Ho Hl Htotal) as [Hn Hn2]. unfold sub_content. rewrite Hc'.
    destruct (Z.eqb_spec (trimmed sub off len) 0) as [->|Hne].
    + change (ztake 0 src) with (@nil Z). by rewrite !splice_nil.
    + apply sub_content_splice; [done|done|]. rewrite zlen_ztake; lia.
Qed.
End sub.

(** * Setting up *)

Lemma initialize_ok nm k count gs fl :
  0 ≤ k < 32 → 0 ≤ count < 2 ^ 32 →
  bio_initialize_bdev nm (2 ^ k) count gs fl = Ok (mk_bdev 0 nm (count * 2 ^ k) (2 ^ k) k count gs 0 fl).
Proof.
  intros Hk Hc. assert (0 < 2 ^ k) by (apply Z.pow_pos_nonneg; lia).
  assert (2 ^ k < 2 ^ 32) by (apply Z.pow_lt_mono_r; lia).
  assert (2 ^ k ≤ 2 ^ 31) by (apply Z.pow_le_mono_r; lia).
  unfold bio_initialize_bdev. rewrite u32_small by lia. rewrite (proj2 (ispow2_iff (2 ^ k) ltac:(lia))) by eauto.
  rewrite (proj2 (Z.eqb_neq _ 0)), pow2_log2_uint by lia. cbn [negb andb assert_ mbind res_bind].
  assert (count * 2 ^ k ≤ (2 ^ 32 - 1) * 2 ^ 31) by (apply Z.mul_le_mono_nonneg; lia).
  assert (0 ≤ count * 2 ^ k) by (apply Z.mul_nonneg_nonneg; lia).
  rewrite Z.shiftl_mul_pow2, s64_small by lia. done.
Qed.

Lemma made_ok nm k count gs eb fl :
  0 ≤ k < 32 → 0 ≤ count < 2 ^ 32 → bdev_ok (mk_bdev 1 nm (count * 2 ^ k) (2 ^ k) k count gs eb fl).
Proof. intros. by split. Qed.

(** The checks put a subdevice of a device without erase regions inside it. *)
Lemma make_subdevice_inside parent nm startblock count sub :
  bdev_ok parent → geometry parent = [] → 0 ≤ startblock < 2 ^ 32 → 0 ≤ count < 2 ^ 32 →
  make_subdevice parent nm startblock count = Ok (inr sub) →
  bdev_ok sub ∧ block_size sub = block_size parent ∧ block_count sub = count ∧ geometry sub = [] ∧
  startblock + count ≤ block_count parent.
Proof.
  intros [Hr Hsh Hsz Hcnt Htot] Hg Hs Hc. unfold make_subdevice, subdevice_check. rewrite Hg.
  destruct (Z.ltb_spec (u32 (startblock + count)) startblock) as [|Hw]; [done|].
  destruct (Z.ltb_spec (block_count parent) (u32 (startblock + count))) as [|He]; [done|].
  cbn [orb mbind res_bind]. rewrite Hsz, initialize_ok by done. cbn [mbind res_bind]. intros [= <-].
  split_and!; [by apply made_ok|done..|]. cbn. unfold u32 in *.
  destruct (Z.lt_ge_cases (startblock + count) (2 ^ 32)) as [Hl|Hg'].
  - rewrite Z.mod_small in He by lia. lia.
  - rewrite <- (Z_mod_plus_full _ (-1)), Z.mod_small in Hw by lia. lia.
Qed.

(** * Theorems *)

(** A memory device is made of all the whole blocks of the buffer, and
    reads and writes of any range of it act on exactly those bytes. *)
Theorem create_membdev_spec nm len ptr :
  0 ≤ len < 2 ^ 41 →
  ∃ dev, create_membdev (Some nm) true true len = Ok (inr dev) ∧ name dev = nm ∧
    total_size dev = len / 512 * 512 ∧
    BlockDevice dev (mem_bdev_set_hooks dev ptr) (mem_valid dev) (mem_content dev).
Proof.
  intros Hl. assert (0 ≤ len / 512 < 2 ^ 32) as Hc by (split; [apply Z.div_pos|apply Z.div_lt_upper_bound]; lia).
  unfold create_membdev. cbn [negb]. change BLOCKSIZE with (2 ^ 9). rewrite u32_small, initialize_ok by (lia || done).
  eexists. split_and!; [done|done|done|]. apply mem_device; [by apply (made_ok nm 9)|done..].
Qed.

(** C39: a subdevice that was accepted, of a device without erase regions, is a
    device of its own: reads and writes of it act on exactly its window of the
    parent's bytes, which lies inside the parent. *)
Theorem subdevice_is_window {D} (parent : bdev) (hp : hooks D) valid content nm startblock count sub :
  BlockDevice parent hp valid content → bdev_ok parent → geometry parent = [] → total_size parent < 2 ^ 62 →
  0 ≤ startblock < 2 ^ 32 → 0 ≤ count < 2 ^ 32 → make_subdevice parent nm startblock count = Ok (inr sub) →
  total_size sub = count * block_size parent ∧
  BlockDevice sub (subdev_hooks parent hp sub startblock) valid
    (λ d, slice (startblock * block_size parent) (total_size sub) (content d)).
Proof.
  intros HB Hok Hg Hs Hst Hc E. destruct (make_subdevice_inside _ _ _ _ _ Hok Hg Hst Hc E) as (Hoks & Ebs & Ecnt & _ & Hin).
  destruct Hok as [_ Hsh Hsz _ Htot], Hoks as [Hr _ _ _ Htots]. assert (0 < block_size parent) by (rewrite Hsz; apply Z.pow_pos_nonneg; lia).
  split; [by rewrite Htots, Ebs, Ecnt|].
  pose proof (sub_device sub startblock Hr) as HS. unfold sub_content, subdev_byte_offset in HS. rewrite Ebs in HS. apply HS; nia.
Qed.

(** A write to a subdevice changes no byte of the parent outside of the
    subdevice's window. *)
Theorem subdevice_write_confined {D} (parent : bdev) (hp : hooks D) valid content sub startblock d buf src off len d' n i :
  BlockDevice parent hp valid content → 0 < ref sub → 0 ≤ startblock → 0 < block_size sub → 0 ≤ total_size sub →
  startblock * block_size sub + total_size sub ≤ total_size parent → total_size parent < 2 ^ 62 →
  valid d → 0 ≤ off → 0 ≤ len → off + len < 2 ^ 63 → len ≤ zlen src →
  bio_write sub (subdev_hooks parent hp sub startblock) buf src off len d = Ok (n, d') →
  0 ≤ i → ¬ (startblock * block_size sub ≤ i < startblock * block_size sub + total_size sub) →
  znth (content d') i = znth (content d) i.
Proof.
  intros HB Hr Hst Hbs Ht Hin Hs Hv Ho Hl Hol Hsrc E Hi Hout. pose proof (dev_len d Hv) as Hlen.
  destruct (sub_write sub startblock Hr) with (d := d) (buf := buf) (src := src) (off := off) (len := len)
    as (d2 & E2 & _ & Hc); [unfold subdev_byte_offset; nia|done|done|done|done..|]. rewrite E2 in E. injection E as <- <-.
  destruct (trimmed_range sub off len Ho Hl Ht) as [Hn Hn2]. rewrite Hc. unfold subdev_byte_offset in *.
  destruct (Z.eqb_spec (trimmed sub off len) 0) as [->|Hne].
  { change (ztake 0 src) with (@nil Z). by rewrite splice_nil. }
  rewrite znth_splice; rewrite ?zlen_ztake; [|nia..].
  destruct (Z.leb_spec (startblock * block_size sub + off) i); [|done].
  destruct (Z.ltb_spec i (startblock * block_size sub + off + trimmed sub off len)); [lia|done].
Qed.

(** The device that [create_nor_membdev] registers. *)
Lemma create_nor_dev nm len k eb dev :
  9 ≤ k < 32 → 0 < len < 2 ^ 41 → create_nor_membdev (Some nm) true true len (2 ^ k) eb = Ok (inr dev) →
  dev = mk_bdev 1 nm len 512 9 (len / 512) [mk_geometry 0 len (2 ^ k) k] eb 0.
Proof.
  intros Hk Hl. assert (2 ^ 9 ≤ 2 ^ k < 2 ^ 32) as Hp by (split; [apply Z.pow_le_mono_r|apply Z.pow_lt_mono_r]; lia).
  assert (0 ≤ len / 512 < 2 ^ 32) as Hc by (split; [apply Z.div_pos|apply Z.div_lt_upper_bound]; lia).
  unfold create_nor_membdev. cbn [negb]. change BLOCKSIZE with (2 ^ 9). rewrite (u32_small (2 ^ k)) by lia.
  rewrite (proj2 (ispow2_iff (2 ^ k) ltac:(lia))) by (right; exists k; lia).
  rewrite (proj2 (Z.eqb_neq (2 ^ k) 0)), (proj2 (Z.ltb_ge (2 ^ k) (2 ^ 9))), (proj2 (Z.eqb_neq len 0)) by lia. cbn [negb orb].
  rewrite land_ones' by lia. destruct (Z.eqb_spec (len `mod` 2 ^ k) 0) as [Hlm|]; cbn [negb]; [|done].
  rewrite u32_small, initialize_ok by (lia || done). cbn [mbind res_bind]. intros [= <-].
  assert (len / 512 * 512 = len) as El.
  { assert (len `mod` 512 = 0) by (apply Z.mod_divide; [lia|]; transitivity (2 ^ k);
      [exists (2 ^ (k - 9)); change 512 with (2 ^ 9); rewrite <- Z.pow_add_r by lia; f_equal; lia|apply Z.mod_divide; lia]).
    pose proof (Z.div_mod len 512 ltac:(lia)). lia. }
  unfold bdev_inc_ref, with_ref, with_erase_byte. cbn [name ref total_size block_size block_shift block_count geometry erase_byte flags].
  change (2 ^ 9) with 512. rewrite El, s64_small, pow2_log2_uint by lia. done.
Qed.

(** A flash-like memory device erases exactly the range when it starts and
    ends at an erase unit, and refuses every other range without touching the
    memory. *)
Theorem nor_erase_spec nm ptr len k eb dev mem erase_buf offset n :
  9 ≤ k < 32 → 0 < len < 2 ^ 41 → create_nor_membdev (Some nm) true true len (2 ^ k) eb = Ok (inr dev) → zlen mem = len →
  0 ≤ offset → 0 ≤ n → offset + n ≤ len → n ≠ 0 →
  if (offset `mod` 2 ^ k =? 0) && (n `mod` 2 ^ k =? 0)
  then bio_erase dev (nor_hooks dev ptr) erase_buf offset n mem = Ok (n, splice offset (replicate (Z.to_nat n) eb) mem)
  else bio_erase dev (nor_hooks dev ptr) erase_buf offset n mem = Ok (ERR_INVALID_ARGS, mem).
Proof.
  intros Hk Hl E Hm Ho Hn Ht Hn0. rewrite (create_nor_dev _ _ _ _ _ Hk Hl E).
  assert (2 ^ 9 ≤ 2 ^ k < 2 ^ 32) as Hp by (split; [apply Z.pow_le_mono_r|apply Z.pow_lt_mono_r]; lia).
  unfold bio_erase, nor_hooks. cbn [ref h_erase mem_bdev_set_hooks]. change (negb (0 <? 1)) with false. cbn iota.
  rewrite bio_trim_range_spec by lia. cbn [total_size]. replace (Z.max 0 _) with n by lia. rewrite (proj2 (Z.eqb_neq n 0)) by done.
  unfold mem_bdev_erase. cbn [geometry g_erase_size erase_byte]. rewrite u64_small, !land_ones' by lia.
  destruct (Z.eqb_spec (offset `mod` 2 ^ k) 0), (Z.eqb_spec (n `mod` 2 ^ k) 0); cbn [negb orb andb]; try done.
  rewrite bio_trim_range_spec by lia. cbn [total_size]. replace (Z.max 0 _) with n by lia. rewrite (proj2 (Z.eqb_neq n 0)) by done.
  by rewrite mem_write_Ok by (rewrite ?zlen_replicate; lia).
Qed.

(** A range that no erase region of the parent contains is accepted: after the
    search, [geo] is the last region looked at and not NULL.  Here the subdevice
    starts behind the end of its parent. *)
Theorem subdevice_outside_accepted :
  let parent := mk_bdev 1 EmptyString 4096 512 9 8 [mk_geometry 0 4096 4096 12] 0 0 in
  ∃ sub, make_subdevice parent EmptyString 80 8 = Ok (inr sub) ∧ total_size parent < 80 * block_size sub.
Proof. eexists. split; [by vm_compute|done]. Qed.

(** * The theorems at a concrete device

    A device of eight blocks, with all the hooks of the memory device or with
    its block hooks only. *)
Definition dev8 : bdev := mk_bdev 1 "mem"%string 4096 512 9 8 [] 255 0.
Definition block_hooks8 : hooks (list Z) :=
  mk_hooks None (Some (mem_bdev_read_block dev8)) None (Some (mem_bdev_write_block dev8)) None None None None.
Definition mem8 : list Z := replicate 4096 7.

Lemma dev8_ok : bdev_ok dev8.
Proof. by split. Qed.

#[global] Instance dev8_driver : Driver dev8 block_hooks8 (mem_valid dev8) (mem_content dev8).
Proof. by apply mem_driver; [apply dev8_ok|..]. Qed.

#[global] Instance dev8_device : BlockDevice dev8 (mem_bdev_set_hooks dev8 65536) (mem_valid dev8) (mem_content dev8).
Proof. by apply mem_device; [apply dev8_ok|..]. Qed.

Lemma mem8_valid : mem_valid dev8 mem8.
Proof. zcalc. Qed.

Lemma bio_read_returns_range_witness :
  let n := trimmed dev8 700 1000 in
  bio_read dev8 block_hooks8 0 700 1000 mem8 = Ok (n, slice 700 n (mem_content dev8 mem8), mem8).
Proof. apply (bio_read_returns_range dev8 block_hooks8 _ _ mem8 0 700 1000 dev8_driver); [done|done|apply mem8_valid|done..]. Defined.

Lemma bio_write_changes_range_witness :
  let n := trimmed dev8 700 1000 in
  ∃ d', bio_write dev8 block_hooks8 0 (replicate 1000 9) 700 1000 mem8 = Ok (n, d') ∧ mem_valid dev8 d' ∧
    mem_content dev8 d' = splice 700 (ztake n (replicate 1000 9)) (mem_content dev8 mem8).
Proof.
  apply (bio_write_changes_range dev8 block_hooks8 _ _ mem8 0 (replicate 1000 9) 700 1000 dev8_driver);
    [done|done|apply mem8_valid|done|done|done|zcalc].
Defined.

Lemma bio_write_read_roundtrip_witness :
  ∃ d', bio_write dev8 (mem_bdev_set_hooks dev8 65536) 0 [1; 2; 3] 700 3 mem8 = Ok (3, d') ∧
    bio_read dev8 (mem_bdev_set_hooks dev8 65536) 0 700 3 d' = Ok (3, [1; 2; 3], d').
Proof. apply (bio_write_read_roundtrip dev8 _ _ _ mem8 0 [1; 2; 3] 700 dev8_device); [apply mem8_valid|done..]. Defined.

Lemma bio_erase_fills_range_witness :
  let n := trimmed dev8 700 1000 in
  ∃ d', bio_erase dev8 (mem_bdev_set_hooks dev8 65536) 0 700 1000 mem8 = Ok (n, d') ∧ mem_valid dev8 d' ∧
    mem_content dev8 d' = splice 700 (replicate (Z.to_nat n) (erase_byte dev8)) (mem_content dev8 mem8).
Proof. apply (bio_erase_fills_range dev8 _ _ _ mem8 0 700 1000 dev8_device); [done|done|done|done|apply mem8_valid|done..]. Defined.

Lemma create_membdev_spec_witness :
  ∃ dev, create_membdev (Some "m"%string) true true 1300 = Ok (inr dev) ∧ name dev = "m"%string ∧
    total_size dev = 1300 / 512 * 512 ∧
    BlockDevice dev (mem_bdev_set_hooks dev 65536) (mem_valid dev) (mem_content dev).
Proof. apply (create_membdev_spec "m"%string 1300 65536). done. Defined.

Definition sub2 : bdev := mk_bdev 1 "part"%string 1024 512 9 2 [] 255 0.

Lemma subdevice_is_window_witness :
  total_size sub2 = 2 * 512 ∧
  BlockDevice sub2 (subdev_hooks dev8 (mem_bdev_set_hooks dev8 65536) sub2 4) (mem_valid dev8)
    (λ d, slice (4 * 512) (total_size sub2) (mem_content dev8 d)).
Proof. apply (subdevice_is_window dev8 _ _ _ "part"%string 4 2 sub2 dev8_device dev8_ok); [done..|by vm_compute]. Defined.

Lemma subdevice_write_confined_witness :
  ∃ d', bio_write sub2 (subdev_hooks dev8 (mem_bdev_set_hooks dev8 65536) sub2 4) 0 [1; 2; 3] 10 3 mem8 = Ok (3, d') ∧
    znth (mem_content dev8 d') 2000 = znth (mem_content dev8 mem8) 2000.
Proof.
  exists (splice 2058 [1; 2; 3] mem8). split; [by vm_compute|].
  apply (subdevice_write_confined dev8 (mem_bdev_set_hooks dev8 65536) (mem_valid dev8) (mem_content dev8) sub2 4 mem8 0 [1; 2; 3] 10 3
    (splice 2058 [1; 2; 3] mem8) 3 2000 dev8_device); [done|done|done|done|done|done|apply mem8_valid|done|done|done|done|by vm_compute|done|cbn; lia].
Defined.

Definition nor8 : bdev := mk_bdev 1 "nor"%string 4096 512 9 8 [mk_geometry 0 4096 1024 10] 255 0.

Lemma nor_erase_spec_witness :
  bio_erase nor8 (nor_hooks nor8 65536) 0 1024 2048 mem8 = Ok (2048, splice 1024 (replicate 2048 255) mem8) ∧
  bio_erase nor8 (nor_hooks nor8 65536) 0 512 2048 mem8 = Ok (ERR_INVALID_ARGS, mem8).
Proof.
  split.
  - refine (nor_erase_spec "nor"%string 65536 4096 10 255 nor8 mem8 0 1024 2048 _ _ _ _ _ _ _ _); (done || by vm_compute).
  - refine (nor_erase_spec "nor"%string 65536 4096 10 255 nor8 mem8 0 512 2048 _ _ _ _ _ _ _ _); (done || by vm_compute).
Defined.
