(* ===== verification/BioReg.v ===== *)
(** The registry of block devices: reference counts, [bio_open], [bio_close],
    [bio_register_device], [bio_unregister_device] and [bio_iter_devices] of
    [lib/bio/bio.c], and [bio_publish_subdevice] of [lib/bio/subdev.c].

    Devices are numbered in the order of their creation.  A subdevice holds a
    reference to its parent, which its close hook drops, so closing a device can
    close a chain of them.  Each call is one step under the lock of the list. *)
From stdpp Require Import prelude strings gmap.
From S2P Require Import Prelude Bytes Bio BioMem.

#[local] Open Scope Z_scope.

(** [parents] has the parent of every subdevice; a device with a parent has the
    close hook [subdev_close]. *)
Record registry := mk_registry {
  devs : gmap nat bdev;
  parents : gmap nat nat;
  bdev_list : list nat;
  next_dev : nat;
}.

Definition with_devs (m : gmap nat bdev) (r : registry) : registry := mk_registry m (parents r) (bdev_list r) (next_dev r).
Definition with_bdev_list (l : list nat) (r : registry) : registry := mk_registry (devs r) (parents r) l (next_dev r).

Definition dev_at (r : registry) (i : nat) : res bdev := of_option BadAccess (devs r !! i).

(** The last reference calls the close hook.  Nothing looks at the device
    itself any more then, so it is removed first. *)
Fixpoint bdev_dec_ref (fuel : nat) (r : registry) (i : nat) : res registry :=
  match fuel with
  | O => Fault OutOfFuel
  | S fuel =>
      dev ← dev_at r i;
      let oldval := ref dev in
      let r := with_devs (<[i := with_ref (oldval - 1) dev]> (devs r)) r in
      if oldval =? 1 then
        assert_ (bool_decide (i ∉ bdev_list r));;
        let r' := mk_registry (delete i (devs r)) (delete i (parents r)) (bdev_list r) (next_dev r) in
        match parents r !! i with
        | Some p => bdev_dec_ref fuel r' p
        | None => Ok r'
        end
      else Ok r
  end.

(** A parent is older than its subdevices. *)
Definition bio_close (r : registry) (i : nat) : res registry := bdev_dec_ref (S i) r i.

Fixpoint open_walk (r : registry) (nm : string) (l : list nat) : res (option nat * registry) :=
  match l with
  | [] => Ok (None, r)
  | i :: l =>
      dev ← dev_at r i;
      assert_ (0 <? ref dev);;
      if bool_decide (name dev = nm) then Ok (Some i, with_devs (<[i := bdev_inc_ref dev]> (devs r)) r)
      else open_walk r nm l
  end.

Definition bio_open (r : registry) (nm : option string) : res (option nat * registry) :=
  match nm with
  | None => Ok (None, r)
  | Some nm => open_walk r nm (bdev_list r)
  end.

(** The device, whose reference count includes that of the list, and its parent. *)
Definition enlist (r : registry) (dev : bdev) (parent : option nat) : registry :=
  let i := next_dev r in
  mk_registry (<[i := dev]> (devs r)) (match parent with Some p => <[i := p]> (parents r) | None => parents r end)
    (bdev_list r ++ [i]) (S i).

Definition bio_register_device (r : registry) (dev : bdev) : registry := enlist r (bdev_inc_ref dev) None.

(** [list_delete] needs the node on the list. *)
Definition bio_unregister_device (r : registry) (i : nat) : res registry :=
  if bool_decide (i ∈ bdev_list r) then bio_close (with_bdev_list (filter (.≠ i) (bdev_list r)) r) i
  else Fault BadAccess.

(** The devices the callback is called with. *)
Fixpoint bio_iter_devices (callback : nat → bool) (l : list nat) : list nat :=
  match l with
  | [] => []
  | i :: l => i :: (if callback i then bio_iter_devices callback l else [])
  end.

Definition bio_publish_subdevice (r : registry) (parent_dev subdev : string) (startblock count : Z) (malloc_ok : bool)
    : res (Z * registry) :=
  '(o, r) ← bio_open r (Some parent_dev);
  match o with
  | None => Ok (ERR_NOT_FOUND, r)
  | Some p =>
      if negb malloc_ok then r ← bio_close r p; Ok (ERR_NO_MEMORY, r) else
      parent ← dev_at r p;
      s ← make_subdevice parent subdev startblock count;
      match s with
      | inl err => r ← bio_close r p; Ok (err, r)
      | inr sub => Ok (0, enlist r sub (Some p))
      end
  end.

(** * The reference counts

    [H] counts the handles that clients have opened and not closed. *)

Definition listed (r : registry) (i : nat) : Z := if bool_decide (i ∈ bdev_list r) then 1 else 0.
Definition children (r : registry) (i : nat) : Z := Z.of_nat (size (filter (λ x, x.2 = i) (parents r))).

Record rinv (r : registry) (H : nat → Z) : Prop := {
  ri_nodup : NoDup (bdev_list r);
  ri_listed i : i ∈ bdev_list r → is_Some (devs r !! i);
  ri_handles i : 0 ≤ H i ∧ (devs r !! i = None → H i = 0);
  ri_ref i dev : devs r !! i = Some dev → ref dev = listed r i + H i + children r i ∧ 0 < ref dev;
  ri_next i : is_Some (devs r !! i) → (i < next_dev r)%nat;
  ri_parent i p : parents r !! i = Some p → (p < i)%nat ∧ is_Some (devs r !! p) ∧ is_Some (devs r !! i);
}.

Definition hset (i : nat) (x : Z) (H : nat → Z) (j : nat) : Z := if bool_decide (j = i) then x else H j.

Definition kids (m : gmap nat nat) (i : nat) : Z := Z.of_nat (size (filter (λ x, x.2 = i) m)).

Lemma kids_delete m i p q : m !! i = Some p → kids (delete i m) q = kids m q - (if bool_decide (q = p) then 1 else 0).
Proof.
  intros Hi. unfold kids. rewrite map_filter_delete. case_bool_decide as Hq.
  - subst. assert (filter (λ x : nat * nat, x.2 = p) m !! i = Some p) as Hf by by apply map_lookup_filter_Some_2.
    rewrite map_size_delete_Some by eauto. assert (size (filter (λ x : nat * nat, x.2 = p) m) ≠ 0%nat); [|lia].
    intros E%map_size_empty_inv. by rewrite E in Hf.
  - rewrite delete_id; [lia|]. apply map_lookup_filter_None_2. right. intros x Hx. simplify_eq/=. congruence.
Qed.

Lemma kids_insert m i p q : m !! i = None → kids (<[i := p]> m) q = kids m q + (if bool_decide (q = p) then 1 else 0).
Proof.
  intros Hi. pose proof (kids_delete (<[i := p]> m) i p q (lookup_insert_eq _ _ _)) as E.
  rewrite delete_insert_id in E by done. lia.
Qed.

Lemma kids_pos m i p : m !! i = Some p → 0 < kids m p.
Proof. intros Hi. pose proof (kids_delete m i p p Hi) as E. rewrite bool_decide_true in E by done. unfold kids in *. lia. Qed.

Lemma kids_nonneg m i : 0 ≤ kids m i.
Proof. unfold kids. lia. Qed.

Lemma hset_eq i x H : hset i x H i = x.
Proof. unfold hset. by rewrite bool_decide_true. Qed.

Lemma hset_ne i j x H : j ≠ i → hset i x H j = H j.
Proof. intros. unfold hset. by rewrite bool_decide_false. Qed.

Lemma rinv_ext r H H' : (∀ i, H i = H' i) → rinv r H → rinv r H'.
Proof. intros E [R1 R2 R3 R4 R5 R6]. split; try done; intros; rewrite <- ?E; eauto. Qed.

(** One more or one less handle. *)
Lemma rinv_ref r H i dev x :
  rinv r H → devs r !! i = Some dev → 0 ≤ x → 0 < listed r i + x + children r i →
  rinv (with_devs (<[i := with_ref (ref dev + (x - H i)) dev]> (devs r)) r) (hset i x H).
Proof.
  intros [R1 R2 R3 R4 R5 R6] Hi Hx Hpos.
  assert (∀ j, is_Some (<[i := with_ref (ref dev + (x - H i)) dev]> (devs r) !! j) ↔ is_Some (devs r !! j)) as Hdom.
  { intros j. rewrite lookup_insert_is_Some. destruct (decide (i = j)) as [<-|]; [rewrite Hi|]; naive_solver. }
  split; cbn; try done.
  - intros j Hj. apply Hdom. eauto.
  - intros j. destruct (decide (j = i)) as [->|Hne]; [rewrite hset_eq, lookup_insert_eq; done|]. rewrite hset_ne, lookup_insert_ne by done. eauto.
  - intros j dev'. destruct (decide (j = i)) as [->|Hne].
    + rewrite lookup_insert_eq, hset_eq. intros [= <-]. destruct (R4 i dev Hi) as [E _]. cbn. unfold listed, children in *. cbn in *. lia.
    + rewrite lookup_insert_ne, hset_ne by done. apply R4.
  - intros j Hj. apply R5. by apply Hdom.
  - intros j p Hj. destruct (R6 j p Hj) as (? & ? & ?). split_and!; [done|by apply Hdom..].
Qed.

(** A device that only the caller holds goes away, and with it the reference
    to its parent, which the caller takes over. *)
Lemma rinv_remove r H i dev :
  rinv r H → devs r !! i = Some dev → ref dev = 1 → 1 ≤ H i →
  i ∉ bdev_list r ∧ H i = 1 ∧
  let r' := mk_registry (delete i (devs r)) (delete i (parents r)) (bdev_list r) (next_dev r) in
  match parents r !! i with
  | Some p => rinv r' (hset p (H p + 1) (hset i 0 H))
  | None => rinv r' (hset i 0 H)
  end.
Proof.
  intros [R1 R2 R3 R4 R5 R6] Hi Hr Hh. destruct (R4 i dev Hi) as [E _]. pose proof (kids_nonneg (parents r) i) as Hk.
  change (children r i) with (kids (parents r) i) in E. unfold listed in E. case_bool_decide as Hl; [lia|].
  assert (∀ j, parents r !! j ≠ Some i) as Hnk by (intros j Hj; apply kids_pos in Hj; lia).
  split_and!; [done|lia|]. cbv zeta.
  assert (∀ H', (∀ j dev', j ≠ i → devs r !! j = Some dev' → ref dev' = listed r j + H' j + kids (delete i (parents r)) j) →
    (∀ j, 0 ≤ H' j) → H' i = 0 → (∀ j, j ≠ i → devs r !! j = None → H' j = 0) →
    rinv (mk_registry (delete i (devs r)) (delete i (parents r)) (bdev_list r) (next_dev r)) H') as Hgen.
  { intros H' Href Hpos Hi0 Hnone. split; cbn; try done.
    - intros j Hj. rewrite lookup_delete_ne by (intros ->; done). eauto.
    - intros j. split; [done|]. destruct (decide (j = i)) as [->|]; [done|]. rewrite lookup_delete_ne by done. auto.
    - intros j dev' [Hne Hj]%lookup_delete_Some. split; [|by eapply R4]. by apply Href.
    - intros j Hj. apply R5. destruct Hj as [x [_ Hj]%lookup_delete_Some]. eauto.
    - intros j p [Hne Hj]%lookup_delete_Some. destruct (R6 j p Hj) as (? & ? & ?).
      split_and!; [done|rewrite lookup_delete_ne; [done|]|by rewrite lookup_delete_ne]. intros ->. by eapply Hnk. }
  destruct (parents r !! i) as [p|] eqn:Hp; apply Hgen.
  - intros j dev' Hne Hj. destruct (R4 j dev' Hj) as [Ej _]. change (children r j) with (kids (parents r) j) in Ej.
    rewrite (kids_delete _ i p j Hp). case_bool_decide as Hjp; [subst; rewrite hset_eq; lia|]. rewrite !hset_ne by done. lia.
  - intros j. unfold hset. repeat case_bool_decide; try lia; apply R3 || (pose proof (R3 p); lia).
  - rewrite hset_ne, hset_eq; [done|]. intros ->. by eapply Hnk.
  - intros j Hne Hj. destruct (R6 i p Hp) as (_ & [? Hx] & _). rewrite hset_ne, hset_ne by (done || congruence). by apply R3.
  - intros j dev' Hne Hj. destruct (R4 j dev' Hj) as [Ej _]. rewrite hset_ne by done. by rewrite delete_id.
  - intros j. unfold hset. case_bool_decide; [lia|apply R3].
  - apply hset_eq.
  - intros j Hne Hj. rewrite hset_ne by done. by apply R3.
Qed.

Lemma dec_ref_ok fuel : ∀ r H i,
  rinv r H → 1 ≤ H i → (i < fuel)%nat →
  ∃ r', bdev_dec_ref fuel r i = Ok r' ∧ rinv r' (hset i (H i - 1) H) ∧ bdev_list r' = bdev_list r ∧ next_dev r' = next_dev r ∧
    (∀ j, (i < j)%nat → devs r' !! j = devs r !! j ∧ parents r' !! j = parents r !! j).
Proof.
  induction fuel as [|fuel IH]; intros r H i HR Hh Hf; [lia|].
  destruct (devs r !! i) as [dev|] eqn:Hi; [|pose proof (proj2 (ri_handles _ _ HR i) Hi); lia].
  cbn [bdev_dec_ref]. unfold dev_at. rewrite Hi. cbn [of_option mbind res_bind]. destruct (Z.eqb_spec (ref dev) 1) as [E1|N1].
  - destruct (rinv_remove r H i dev HR Hi E1 Hh) as (Hl & Hh1 & Hrm). cbn [bdev_list with_devs]. rewrite bool_decide_true by done.
    cbn [assert_ mbind res_bind with_devs devs parents next_dev]. rewrite delete_insert_eq. destruct (parents r !! i) as [p|] eqn:Hp.
    + destruct (ri_parent _ _ HR i p Hp) as (Hlt & _ & _).
      edestruct (IH _ _ p Hrm) as (r' & E & HR' & L & N & Hfr); [rewrite hset_eq; pose proof (proj1 (ri_handles _ _ HR p)); lia|lia|].
      exists r'. split_and!; [done| |done|done|].
      * eapply rinv_ext; [|exact HR']. intros j. unfold hset. repeat case_bool_decide; subst; lia.
      * intros j Hj. destruct (Hfr j) as [-> ->]; [lia|]. cbn. by rewrite !lookup_delete_ne by lia.
    + eexists. split; [done|]. split_and!; [|done|done|intros j Hj; cbn; by rewrite !lookup_delete_ne by lia].
      by rewrite Hh1.
  - destruct (ri_ref _ _ HR i dev Hi) as [Er Hp]. eexists. split; [done|]. split_and!; [|done|done|intros j Hj; cbn; by rewrite !lookup_insert_ne by lia].
    pose proof (rinv_ref r H i dev (H i - 1) HR Hi) as Hr. replace (ref dev + (H i - 1 - H i)) with (ref dev - 1) in Hr by lia. apply Hr; lia.
Qed.

(** * Names *)

(** The first registered device of that name. *)
Definition find_name (r : registry) (nm : string) : option nat :=
  snd <$> list_find (λ i, name <$> devs r !! i = Some nm) (bdev_list r).

Lemma open_walk_ok r H nm : ∀ l,
  rinv r H → (∀ i, i ∈ l → i ∈ bdev_list r) →
  match snd <$> list_find (λ i, name <$> devs r !! i = Some nm) l with
  | None => open_walk r nm l = Ok (None, r)
  | Some i => i ∈ l ∧ ∃ dev, devs r !! i = Some dev ∧ name dev = nm ∧
      open_walk r nm l = Ok (Some i, with_devs (<[i := bdev_inc_ref dev]> (devs r)) r)
  end.
Proof.
  induction l as [|i l IH]; intros HR Hl; [done|]. destruct (ri_listed _ _ HR i) as [dev Hi]; [apply Hl; set_solver|].
  destruct (ri_ref _ _ HR i dev Hi) as [_ Hpos]. cbn [open_walk list_find]. unfold dev_at. rewrite Hi. cbn [of_option mbind res_bind fmap option_fmap option_map].
  rewrite (proj2 (Z.ltb_lt 0 _)) by done. cbn [assert_ mbind res_bind]. destruct (decide (Some (name dev) = Some nm)) as [E|N].
  - injection E as E. rewrite bool_decide_true by done. cbn. split; [set_solver|]. by exists dev.
  - rewrite bool_decide_false by congruence. specialize (IH HR ltac:(set_solver)).
    destruct (list_find _ l) as [[n j]|]; cbn in *; [|done]. destruct IH as [Hj IH]. split; [set_solver|done].
Qed.

Lemma bio_open_ok r H nm :
  rinv r H →
  match find_name r nm with
  | None => bio_open r (Some nm) = Ok (None, r)
  | Some i => i ∈ bdev_list r ∧ ∃ dev, devs r !! i = Some dev ∧ name dev = nm ∧
      bio_open r (Some nm) = Ok (Some i, with_devs (<[i := bdev_inc_ref dev]> (devs r)) r)
  end.
Proof. intros HR. by apply (open_walk_ok r H nm (bdev_list r)). Qed.

(** Dropping the reference just taken restores the registry. *)
Lemma close_after_open r H i dev :
  rinv r H → devs r !! i = Some dev → bio_close (with_devs (<[i := bdev_inc_ref dev]> (devs r)) r) i = Ok r.
Proof.
  intros HR Hi. destruct (ri_ref _ _ HR i dev Hi) as [_ Hpos]. unfold bio_close. cbn [bdev_dec_ref]. unfold dev_at. cbn [devs with_devs].
  rewrite lookup_insert_eq. cbn [of_option mbind res_bind]. cbn [ref bdev_inc_ref with_ref].
  rewrite (proj2 (Z.eqb_neq _ 1)) by lia. unfold with_devs. cbn. rewrite insert_insert_eq. do 2 f_equal.
  replace (with_ref _ _) with dev; [|destruct dev; unfold bdev_inc_ref, with_ref; cbn; f_equal; lia].
  destruct r. cbn in *. by rewrite insert_id.
Qed.

Lemma make_subdevice_ref parent nm startblock count sub : make_subdevice parent nm startblock count = Ok (inr sub) → ref sub = 1.
Proof.
  unfold make_subdevice. intros E. res_inv. destruct r as [|gs]; [done|]. res_inv. simplify_eq.
  unfold bio_initialize_bdev in *. res_inv. by simplify_eq/=.
Qed.

(** A new device is registered, with its reference to its parent taken over
    from a handle. *)
Lemma enlist_sub r H p sub :
  rinv r H → 1 ≤ H p → ref sub = 1 → rinv (enlist r sub (Some p)) (hset p (H p - 1) H).
Proof.
  intros [R1 R2 R3 R4 R5 R6] Hp Hs. set (i := next_dev r). unfold enlist. fold i.
  assert (devs r !! i = None) as Hni by (destruct (devs r !! i) eqn:E; [|done]; specialize (R5 i ltac:(eauto)); unfold i in R5; lia).
  assert (is_Some (devs r !! p)) as Hdp by (destruct (devs r !! p) eqn:E; [eauto|]; pose proof (proj2 (R3 p) E); lia).
  assert (p ≠ i) as Hpi by (intros ->; rewrite Hni in Hdp; by destruct Hdp).
  assert (parents r !! i = None) as Hpn by (destruct (parents r !! i) eqn:E; [|done]; destruct (R6 i _ E) as (_ & _ & []); congruence).
  assert (i ∉ bdev_list r) as Hnl by (intros Hl; destruct (R2 i Hl); congruence).
  assert (kids (parents r) i = 0) as Hk.
  { unfold kids. rewrite (map_empty_filter_2 _ (parents r)); [done|]. intros j q Hj Hq. cbn in Hq. subst q.
    destruct (R6 j i Hj) as (_ & [] & _). congruence. }
  split; cbn.
  - apply NoDup_app. split_and!; [done| |apply NoDup_singleton]. intros j Hj. set_solver.
  - intros j [Hj|Hj]%elem_of_app; [|apply list_elem_of_singleton in Hj as ->; rewrite lookup_insert_eq; eauto].
    rewrite lookup_insert_ne by (intros ->; done). eauto.
  - intros j. unfold hset. split; [case_bool_decide; [lia|apply R3]|]. destruct (decide (j = i)) as [->|]; [by rewrite lookup_insert_eq|].
    rewrite lookup_insert_ne by done. case_bool_decide; [subst; intros E; rewrite E in Hdp; by destruct Hdp|apply R3].
  - intros j dev. change (children _ j) with (kids (<[i := p]> (parents r)) j). rewrite kids_insert by done. unfold listed. cbn.
    rewrite (bool_decide_ext (j ∈ bdev_list r ++ [i]) (j ∈ bdev_list r ∨ j = i)) by set_solver.
    destruct (decide (j = i)) as [->|Hne].
    + rewrite lookup_insert_eq. intros [= <-]. rewrite bool_decide_true by auto. rewrite bool_decide_false, hset_ne by done.
      rewrite Hk, (proj2 (R3 i) Hni), Hs. lia.
    + rewrite lookup_insert_ne by done. intros Hj. destruct (R4 j dev Hj) as [E Hpos]. split; [|done].
      rewrite (bool_decide_ext (j ∈ bdev_list r ∨ j = i) (j ∈ bdev_list r)) by naive_solver.
      change (children r j) with (kids (parents r) j) in E. unfold listed in E. unfold hset. repeat case_bool_decide; subst; lia.
  - intros j. destruct (decide (j = i)) as [->|]; [unfold i; lia|]. rewrite lookup_insert_ne by done. intros Hj. apply R5 in Hj. unfold i. lia.
  - intros j q. destruct (decide (j = i)) as [->|Hne].
    + rewrite lookup_insert_eq. intros [= <-]. rewrite lookup_insert_ne, lookup_insert_eq by done. split_and!; [apply R5; done|done|eauto].
    + rewrite lookup_insert_ne by done. intros Hj. destruct (R6 j q Hj) as (? & Hq & ?). split_and!; [done| |by rewrite lookup_insert_ne].
      rewrite lookup_insert_ne; [done|]. intros <-. rewrite Hni in Hq. by destruct Hq.
Qed.

(** * Theorems *)

(** Closing a handle never trips an assertion and terminates, also when it
    closes a chain of parents; the counts stay those of the list, the handles
    and the subdevices, and the device goes away exactly with its last
    reference. *)
Theorem bio_close_spec r H i :
  rinv r H → 1 ≤ H i →
  ∃ r', bio_close r i = Ok r' ∧ rinv r' (hset i (H i - 1) H) ∧ bdev_list r' = bdev_list r ∧
    (devs r' !! i = None ↔ listed r i + H i + children r i = 1).
Proof.
  intros HR Hh. destruct (dec_ref_ok (S i) r H i HR Hh) as (r' & E & HR' & L & N & _); [lia|].
  exists r'. split_and!; try done. destruct (devs r !! i) as [dev|] eqn:Hi; [|pose proof (proj2 (ri_handles _ _ HR i) Hi); lia].
  destruct (ri_ref _ _ HR i dev Hi) as [Er Hpos]. unfold bio_close in E. cbn [bdev_dec_ref] in E. unfold dev_at in E. rewrite Hi in E.
  cbn [of_option mbind res_bind] in E. destruct (Z.eqb_spec (ref dev) 1) as [E1|N1].
  - split; [lia|]. intros _. destruct (devs r' !! i) as [dev'|] eqn:Hi'; [|done]. exfalso.
    destruct (rinv_remove r H i dev HR Hi E1 Hh) as (Hl & Hh1 & Hrm).
    cbn [bdev_list with_devs] in E. rewrite bool_decide_true in E by done.
    cbn [assert_ mbind res_bind with_devs devs parents next_dev] in E. rewrite delete_insert_eq in E. destruct (parents r !! i) as [p|] eqn:Hp.
    + destruct (ri_parent _ _ HR i p Hp) as (Hlt & _ & _).
      edestruct (dec_ref_ok i _ _ p Hrm) as (r2 & E2 & _ & _ & _ & Hfr); [rewrite hset_eq; pose proof (proj1 (ri_handles _ _ HR p)); lia|lia|].
      assert (r2 = r') as -> by congruence. destruct (Hfr i Hlt) as [Hd _]. cbn in Hd. rewrite lookup_delete_eq in Hd. congruence.
    + injection E as <-. cbn in Hi'. by rewrite lookup_delete_eq in Hi'.
  - injection E as <-. cbn. rewrite lookup_insert_eq. split; [done|lia].
Qed.

(** Opening a name returns the first registered device of that name with one
    more reference, and nothing when there is none. *)
Theorem bio_open_spec r H nm :
  rinv r H →
  match find_name r nm with
  | None => bio_open r (Some nm) = Ok (None, r)
  | Some i => ∃ r', bio_open r (Some nm) = Ok (Some i, r') ∧ rinv r' (hset i (H i + 1) H) ∧ bdev_list r' = bdev_list r
  end.
Proof.
  intros HR. pose proof (bio_open_ok r H nm HR) as Ho. destruct (find_name r nm) as [i|]; [|done].
  destruct Ho as (Hl & dev & Hi & _ & E). eexists. split; [done|]. split; [|done].
  destruct (ri_ref _ _ HR i dev Hi) as [Er Hpos]. pose proof (proj1 (ri_handles _ _ HR i)).
  pose proof (rinv_ref r H i dev (H i + 1) HR Hi) as Hr. replace (H i + 1 - H i) with 1 in Hr by lia. apply Hr; lia.
Qed.

(** Publishing a subdevice either fails and leaves the registry as it was,
    or registers the subdevice last with a reference to its parent. *)
Theorem bio_publish_subdevice_spec r H pname sname startblock count p parent s :
  rinv r H → find_name r pname = Some p → devs r !! p = Some parent →
  make_subdevice (bdev_inc_ref parent) sname startblock count = Ok s →
  match s with
  | inl err => bio_publish_subdevice r pname sname startblock count true = Ok (err, r)
  | inr sub => ∃ r', bio_publish_subdevice r pname sname startblock count true = Ok (0, r') ∧ rinv r' H ∧
      bdev_list r' = bdev_list r ++ [next_dev r] ∧ devs r' !! next_dev r = Some sub ∧
      parents r' !! next_dev r = Some p ∧ devs r' !! p = Some (bdev_inc_ref parent)
  end.
Proof.
  intros HR Hf Hp Hs. pose proof (bio_open_ok r H pname HR) as Ho. rewrite Hf in Ho. destruct Ho as (Hl & dev & Hi & _ & E).
  assert (dev = parent) as -> by congruence. unfold bio_publish_subdevice. rewrite E. cbn [mbind res_bind negb]. unfold dev_at. cbn [devs with_devs].
  rewrite lookup_insert_eq. cbn [of_option mbind res_bind]. rewrite Hs. cbn [mbind res_bind]. destruct s as [err|sub].
  - by rewrite (close_after_open r H).
  - eexists. split; [done|]. destruct (ri_ref _ _ HR p parent Hi) as [Er Hpos]. pose proof (proj1 (ri_handles _ _ HR p)).
    pose proof (rinv_ref r H p parent (H p + 1) HR Hi ltac:(lia) ltac:(lia)) as Hr. replace (H p + 1 - H p) with 1 in Hr by lia.
    assert (next_dev r ≠ p) as Hne by (pose proof (ri_next _ _ HR p ltac:(eauto)); lia).
    split_and!; [|done|cbn; by rewrite lookup_insert_eq..|cbn; by rewrite lookup_insert_ne, lookup_insert_eq].
    eapply rinv_ext; [|apply (enlist_sub _ _ p sub Hr); [rewrite hset_eq; lia|by eapply make_subdevice_ref]].
    intros j. unfold hset. repeat case_bool_decide; subst; lia.
Qed.

(** * The theorems at a concrete registry: one device, opened once. *)

Definition reg1 : registry := mk_registry {[0%nat := with_ref 2 dev8]} ∅ [0%nat] 1.
Definition held0 (i : nat) : Z := if bool_decide (i = 0%nat) then 1 else 0.

Lemma reg1_inv : rinv reg1 held0.
Proof.
  split; cbn.
  - apply NoDup_singleton.
  - intros i ->%list_elem_of_singleton. by eexists.
  - intros i. unfold held0. case_bool_decide as E; [subst; done|]. split; [lia|done].
  - intros i dev [<- <-]%lookup_singleton_Some. by vm_compute.
  - intros i [dev [<- _]%lookup_singleton_Some]. lia.
  - intros i p Hp. by rewrite lookup_empty in Hp.
Qed.

Lemma bio_close_spec_witness :
  ∃ r', bio_close reg1 0 = Ok r' ∧ rinv r' (hset 0 (held0 0 - 1) held0) ∧ bdev_list r' = [0%nat] ∧
    (devs r' !! 0%nat = None ↔ listed reg1 0 + held0 0 + children reg1 0 = 1).
Proof. apply (bio_close_spec reg1 held0 0 reg1_inv). done. Defined.

Lemma bio_open_spec_witness :
  ∃ r', bio_open reg1 (Some "mem"%string) = Ok (Some 0%nat, r') ∧ rinv r' (hset 0 (held0 0 + 1) held0) ∧ bdev_list r' = [0%nat].
Proof. exact (bio_open_spec reg1 held0 "mem"%string reg1_inv). Defined.

Lemma bio_publish_subdevice_spec_witness :
  ∃ r', bio_publish_subdevice reg1 "mem"%string "part"%string 4 2 true = Ok (0, r') ∧ rinv r' held0 ∧
    bdev_list r' = [0; 1]%nat ∧ devs r' !! 1%nat = Some (mk_bdev 1 "part"%string 1024 512 9 2 [] 255 0) ∧
    parents r' !! 1%nat = Some 0%nat ∧ devs r' !! 0%nat = Some (with_ref 3 dev8).
Proof.
  exact (bio_publish_subdevice_spec reg1 held0 "mem"%string "part"%string 4 2 0 (with_ref 2 dev8)
    (inr (mk_bdev 1 "part"%string 1024 512 9 2 [] 255 0)) reg1_inv eq_refl eq_refl eq_refl).
Defined.
