(* ===== verification/Bcache.v ===== *)
(** The block cache: [lib/bcache/bcache.c].

    The cache holds a fixed set of blocks in front of a block device.  Its state
    is a record with the blocks in an array and the two lists as sequences of
    indices into it; the device is any implementation of the interface
    [BlockDevice] of [Bio], and its state is threaded through.  The theorems are
    proved against that interface and say that the cache is transparent: reads,
    writes and flushes behave as on an array of blocks. *)
From stdpp Require Import prelude.
From S2P Require Import Prelude Bytes Bio BioMem.

#[local] Open Scope Z_scope.

(** * State *)

(** [addr] is the address of the buffer, [ptr] its contents. *)
Record bcache_block := mk_block {
  blocknum : Z;
  ref_count : Z;
  is_dirty : bool;
  addr : Z;
  ptr : list Z;
}.

Record bcache_stats := mk_stats {
  hits : Z;
  depth : Z;
  misses : Z;
  reads : Z;
  writes : Z;
}.

Record bcache := mk_bcache {
  cblock_size : Z;
  count : Z;
  stats : bcache_stats;
  free_list : list nat;
  lru_list : list nat;
  blocks : list bcache_block;
  read_only : bool;
}.

Definition set_blocknum (k : Z) (b : bcache_block) : bcache_block := mk_block k (ref_count b) (is_dirty b) (addr b) (ptr b).
Definition set_ref_count (r : Z) (b : bcache_block) : bcache_block := mk_block (blocknum b) r (is_dirty b) (addr b) (ptr b).
Definition set_dirty (x : bool) (b : bcache_block) : bcache_block := mk_block (blocknum b) (ref_count b) x (addr b) (ptr b).
Definition set_ptr (p : list Z) (b : bcache_block) : bcache_block := mk_block (blocknum b) (ref_count b) (is_dirty b) (addr b) p.

Definition with_stats (s : bcache_stats) (c : bcache) : bcache :=
  mk_bcache (cblock_size c) (count c) s (free_list c) (lru_list c) (blocks c) (read_only c).
Definition with_lists (fl lru : list nat) (c : bcache) : bcache :=
  mk_bcache (cblock_size c) (count c) (stats c) fl lru (blocks c) (read_only c).
Definition upd (i : nat) (f : bcache_block → bcache_block) (c : bcache) : bcache :=
  mk_bcache (cblock_size c) (count c) (stats c) (free_list c) (lru_list c) (alter f i (blocks c)) (read_only c).

Definition hit (d : Z) (s : bcache_stats) : bcache_stats :=
  mk_stats (u32 (hits s + 1)) (u32 (depth s + d)) (misses s) (reads s) (writes s).
Definition miss (s : bcache_stats) : bcache_stats :=
  mk_stats (hits s) (depth s) (u32 (misses s + 1)) (reads s) (writes s).
Definition count_read (s : bcache_stats) : bcache_stats :=
  mk_stats (hits s) (depth s) (misses s) (u32 (reads s + 1)) (writes s).
Definition count_write (s : bcache_stats) : bcache_stats :=
  mk_stats (hits s) (depth s) (misses s) (reads s) (u32 (writes s + 1)).

Definition block_at (c : bcache) (i : nat) : res bcache_block := of_option BadAccess (blocks c !! i).

(** [list_delete] and [list_add_tail]. *)
Definition move_tail (i : nat) (l : list nat) : list nat := filter (.≠ i) l ++ [i].

(** * Operations *)

(** The buffers are those that [malloc] returned, with the contents they have.
    The block number of a fresh block is not initialized. *)
Definition bcache_create (block_size : Z) (buffers : list (Z * Z * list Z)) : bcache :=
  mk_bcache block_size (zlen buffers) (mk_stats 0 0 0 0 0)
    (reverse (seq 0 (length buffers))) []
    ((λ '(num, a, data), mk_block num 0 false a data) <$> buffers) false.

Definition bcache_set_read_only (c : bcache) (ro : bool) : bcache :=
  mk_bcache (cblock_size c) (count c) (stats c) (free_list c) (lru_list c) (blocks c) ro.

(** The walk along the LRU list, with the depth of the block found. *)
Fixpoint find_walk (c : bcache) (k : Z) (l : list nat) (d : Z) : res (option (nat * Z)) :=
  match l with
  | [] => Ok None
  | i :: l =>
      b ← block_at c i;
      if blocknum b =? k then Ok (Some (i, d + 1)) else find_walk c k l (d + 1)
  end.

Definition find_block (c : bcache) (k : Z) : res (option nat * bcache) :=
  r ← find_walk c k (lru_list c) 0;
  match r with
  | Some (i, d) => Ok (Some i, with_stats (hit d (stats c)) (with_lists (free_list c) (move_tail i (lru_list c)) c))
  | None => Ok (None, with_stats (miss (stats c)) c)
  end.

(** The oldest block without references. *)
Fixpoint victim (c : bcache) (l : list nat) : res (option nat) :=
  match l with
  | [] => Ok None
  | i :: l =>
      b ← block_at c i;
      if ref_count b =? 0 then Ok (Some i) else victim c l
  end.

Section cache.
Context {D : Type} (dev : bdev) (h : hooks D).

(** The number of bytes is returned through an [int]. *)
Definition flush_block (c : bcache) (i : nat) (d : D) : res (Z * bcache * D) :=
  if read_only c then Ok (ERR_NOT_ALLOWED, c, d) else
  b ← block_at c i;
  '(rc, d) ← bio_write dev h (addr b) (ptr b) (blocknum b * cblock_size c) (cblock_size c) d;
  if s32 rc <? 0 then Ok (s32 rc, c, d) else
  Ok (0, with_stats (count_write (stats c)) (upd i (set_dirty false) c), d).

Definition alloc_block (c : bcache) (d : D) : res (option nat * bcache * D) :=
  match free_list c with
  | i :: fl => Ok (Some i, with_lists fl (lru_list c ++ [i]) (upd i (set_ref_count 0) c), d)
  | [] =>
      r ← victim c (lru_list c);
      match r with
      | None => Ok (None, c, d)
      | Some i =>
          b ← block_at c i;
          '(err, c, d) ← (if is_dirty b then flush_block c i d else Ok (0, c, d));
          if negb (err =? 0) then Ok (None, c, d) else
          Ok (Some i, with_lists (free_list c) (move_tail i (lru_list c)) c, d)
      end
  end.

(** When the device fails, the node of the block, which is on the LRU list, is
    linked into the free list without being taken off: from there on the links
    of both lists are wrong. *)
Definition find_or_fill_block (c : bcache) (k : Z) (d : D) : res (option nat * bcache * D) :=
  '(r, c) ← find_block c k;
  match r with
  | Some i =>
      b ← block_at c i;
      assert_ (blocknum b =? k);;
      Ok (Some i, c, d)
  | None =>
      '(r, c, d) ← alloc_block c d;
      match r with
      | None => Fault AssertFailed
      | Some i =>
          let c := upd i (set_blocknum k) c in
          b ← block_at c i;
          '(err, data, d) ← bio_read dev h (addr b) (k * cblock_size c) (cblock_size c) d;
          if s32 err <? 0 then Fault BadAccess else
          let c := with_stats (count_read (stats c)) (upd i (set_ptr (splice 0 data (ptr b))) c) in
          Ok (Some i, c, d)
      end
  end.

(** The status and the bytes copied to the caller. *)
Definition bcache_read_block (c : bcache) (k : Z) (d : D) : res (Z * list Z * bcache * D) :=
  '(r, c, d) ← find_or_fill_block c k d;
  match r with
  | None => Ok (-1, [], c, d)
  | Some i =>
      b ← block_at c i;
      data ← mem_read (ptr b) 0 (cblock_size c);
      Ok (0, data, c, d)
  end.

(** The pointer returned is that of the buffer of the block [i]. *)
Definition bcache_get_block (c : bcache) (k : Z) (d : D) : res (Z * option nat * bcache * D) :=
  '(r, c, d) ← find_or_fill_block c k d;
  match r with
  | None => Ok (-1, None, c, d)
  | Some i =>
      b ← block_at c i;
      Ok (0, Some i, upd i (set_ref_count (ref_count b + 1)) c, d)
  end.

Definition bcache_put_block (c : bcache) (k : Z) : res (Z * bcache) :=
  '(r, c) ← find_block c k;
  match r with
  | None => Fault AssertFailed
  | Some i =>
      b ← block_at c i;
      assert_ (0 <? ref_count b);;
      Ok (0, upd i (set_ref_count (ref_count b - 1)) c)
  end.

Definition bcache_mark_block_dirty (c : bcache) (k : Z) : res (Z * bcache) :=
  if read_only c then Ok (ERR_NOT_ALLOWED, c) else
  '(r, c) ← find_block c k;
  match r with
  | None => Ok (-1, c)
  | Some i => Ok (0, upd i (set_dirty true) c)
  end.

Definition bcache_zero_block (c : bcache) (k : Z) (d : D) : res (Z * bcache * D) :=
  if read_only c then Ok (ERR_NOT_ALLOWED, c, d) else
  '(r, c) ← find_block c k;
  '(r, c, d) ← (match r with
                | Some i => Ok (Some i, c, d)
                | None =>
                    '(r, c, d) ← alloc_block c d;
                    match r with
                    | None => Ok (None, c, d)
                    | Some i => Ok (Some i, upd i (set_blocknum k) c, d)
                    end
                end);
  match r with
  | None => Ok (-1, c, d)
  | Some i =>
      b ← block_at c i;
      p ← mem_write 0 (replicate (Z.to_nat (cblock_size c)) 0) (ptr b);
      Ok (0, upd i (set_dirty true) (upd i (set_ptr p) c), d)
  end.

Fixpoint flush_walk (l : list nat) (c : bcache) (d : D) : res (Z * bcache * D) :=
  match l with
  | [] => Ok (0, c, d)
  | i :: l =>
      b ← block_at c i;
      if is_dirty b then
        '(err, c, d) ← flush_block c i d;
        if negb (err =? 0) then Ok (err, c, d) else flush_walk l c d
      else flush_walk l c d
  end.

Definition bcache_flush (c : bcache) (d : D) : res (Z * bcache * D) := flush_walk (lru_list c) c d.
End cache.

(** No block may be in use when the cache is destroyed. *)
Definition bcache_destroy (c : bcache) : res unit :=
  assert_ (forallb (λ b, ref_count b =? 0) (blocks c)).

(** The client stores through the pointer that [bcache_get_block] returned. *)
Definition store (c : bcache) (i : nat) (data : list Z) : bcache := upd i (set_ptr data) c.

(** * Looking up blocks *)

(** Equal up to the order of the LRU list and the statistics. *)
Record sim (c c' : bcache) : Prop := {
  sim_bs : cblock_size c' = cblock_size c;
  sim_blocks : blocks c' = blocks c;
  sim_ro : read_only c' = read_only c;
  sim_free : free_list c' = free_list c;
  sim_lru : lru_list c' ≡ₚ lru_list c;
}.

(** The block [i] on the LRU list holds block [k] of the device.  One index may
    be left out: that of a block which is about to be reused. *)
Definition cached (c : bcache) (x : option nat) (k : Z) (i : nat) (b : bcache_block) : Prop :=
  i ∈ lru_list c ∧ x ≠ Some i ∧ blocks c !! i = Some b ∧ blocknum b = k.

Lemma cached_sim c c' x k i b : sim c c' → cached c' x k i b ↔ cached c x k i b.
Proof. intros []. unfold cached. by rewrite sim_lru0, sim_blocks0. Qed.

Lemma move_tail_perm i l : NoDup l → i ∈ l → move_tail i l ≡ₚ l.
Proof.
  intros Hnd Hi. apply NoDup_Permutation; [|done|].
  - apply NoDup_app. split_and!; [by apply NoDup_filter| |by apply NoDup_singleton]. intros j Hj. apply list_elem_of_filter in Hj. set_solver.
  - intros j. unfold move_tail. rewrite elem_of_app, list_elem_of_filter. destruct (decide (j = i)); set_solver.
Qed.

Definition present (c : bcache) (l : list nat) : Prop := ∀ i, i ∈ l → is_Some (blocks c !! i).

Lemma find_walk_spec c k l : ∀ n,
  present c l →
  (∃ i m b, find_walk c k l n = Ok (Some (i, m)) ∧ i ∈ l ∧ blocks c !! i = Some b ∧ blocknum b = k) ∨
  (find_walk c k l n = Ok None ∧ ∀ i b, i ∈ l → blocks c !! i = Some b → blocknum b ≠ k).
Proof.
  induction l as [|i l IH]; intros n Hp; [right; split; [done|]; intros ?? Hi; by apply elem_of_nil in Hi|].
  destruct (Hp i) as [b Hb]; [set_solver|]. cbn [find_walk]. unfold block_at. rewrite Hb. cbn [of_option mbind res_bind].
  destruct (Z.eqb_spec (blocknum b) k) as [E|E]; [left; exists i, (n + 1), b; set_solver|].
  destruct (IH (n + 1)) as [(j & m & b' & ? & ? & ?)|[? Hn]]; [intros j Hj; apply Hp; set_solver|left; exists j, m, b'; set_solver|].
  right. split; [done|]. intros j b' [->|Hj]%elem_of_cons Hb'; [congruence|]. eauto.
Qed.

Lemma find_block_spec c k :
  NoDup (lru_list c) → present c (lru_list c) →
  ∃ c', sim c c' ∧
    ((∃ i b, find_block c k = Ok (Some i, c') ∧ cached c None k i b) ∨
     (find_block c k = Ok (None, c') ∧ ∀ i b, ¬ cached c None k i b)).
Proof.
  intros Hnd Hp. unfold find_block. destruct (find_walk_spec c k (lru_list c) 0 Hp) as [(i & m & b & E & Hi & Hb & Hk)|[E Hn]]; rewrite E.
  - eexists. split; [|left; exists i, b; split; [done|by split_and!]]. split; cbn; try done. by apply move_tail_perm.
  - eexists. split; [|right; split; [done|]]; [by split|]. intros i b (Hi & _ & Hb & Hk). by eapply Hn.
Qed.

Lemma victim_spec c l :
  present c l →
  match victim c l with
  | Ok (Some i) => i ∈ l ∧ ∃ b, blocks c !! i = Some b ∧ ref_count b = 0
  | Ok None => ∀ i b, i ∈ l → blocks c !! i = Some b → ref_count b ≠ 0
  | Fault _ => False
  end.
Proof.
  induction l as [|i l IH]; intros Hp; cbn [victim]; [intros ?? Hi; by apply elem_of_nil in Hi|].
  destruct (Hp i) as [b Hb]; [set_solver|]. unfold block_at. rewrite Hb. cbn [of_option mbind res_bind].
  destruct (Z.eqb_spec (ref_count b) 0); [split; [set_solver|eauto]|].
  assert (present c l) as Hp' by (intros j Hj; apply Hp; set_solver). specialize (IH Hp').
  destruct (victim c l) as [[j|]|]; [set_solver| |done].
  intros j b' [->|Hj]%elem_of_cons Hb'; [congruence|eauto].
Qed.

(** ** A client

    A client reads a block, overwrites it through the pointer, zeroes it or
    flushes the cache.  A status other than 0 ends it. *)
Inductive client_op :=
| Read (k : Z)
| Overwrite (k : Z) (data : list Z)
| Zero (k : Z)
| Flush.

Section client.
Context {D : Type} (dev : bdev) (h : hooks D).

Definition overwrite (c : bcache) (k : Z) (data : list Z) (d : D) : res (bcache * D) :=
  '(st, r, c, d) ← bcache_get_block dev h c k d;
  assert_ (st =? 0);;
  i ← of_option BadAccess r;
  let c := store c i data in
  '(st, c) ← bcache_mark_block_dirty c k;
  assert_ (st =? 0);;
  '(st, c) ← bcache_put_block c k;
  assert_ (st =? 0);;
  Ok (c, d).

Definition run_op (o : client_op) (c : bcache) (d : D) : res (list Z * bcache * D) :=
  match o with
  | Read k => '(st, data, c, d) ← bcache_read_block dev h c k d; assert_ (st =? 0);; Ok (data, c, d)
  | Overwrite k data => '(c, d) ← overwrite c k data d; Ok ([], c, d)
  | Zero k => '(st, c, d) ← bcache_zero_block dev h c k d; assert_ (st =? 0);; Ok ([], c, d)
  | Flush => '(st, c, d) ← bcache_flush dev h c d; assert_ (st =? 0);; Ok ([], c, d)
  end.

Fixpoint run_ops (os : list client_op) (c : bcache) (d : D) : res (list (list Z) * bcache * D) :=
  match os with
  | [] => Ok ([], c, d)
  | o :: os =>
      '(out, c, d) ← run_op o c d;
      '(outs, c, d) ← run_ops os c d;
      Ok (out :: outs, c, d)
  end.
End client.

Definition vset (k : Z) (p : list Z) (V : Z → list Z) (k' : Z) : list Z := if k' =? k then p else V k'.

(** The same operations on an array of blocks. *)
Definition spec_op (bs : Z) (o : client_op) (V : Z → list Z) : list Z * (Z → list Z) :=
  match o with
  | Read k => (V k, V)
  | Overwrite k data => ([], vset k data V)
  | Zero k => ([], vset k (replicate (Z.to_nat bs) 0) V)
  | Flush => ([], V)
  end.

Fixpoint spec_ops (bs : Z) (os : list client_op) (V : Z → list Z) : list (list Z) * (Z → list Z) :=
  match os with
  | [] => ([], V)
  | o :: os =>
      let '(out, V) := spec_op bs o V in
      let '(outs, V) := spec_ops bs os V in
      (out :: outs, V)
  end.

(** * The invariant *)

Section inv.
Context {D : Type} {dev : bdev} {h : hooks D} {valid : D → Prop} {content : D → list Z} `{!BlockDevice dev h valid content}.
Context (bs : Z) (Hbs : 0 < bs < 2 ^ 31) (Hsmall : total_size dev < 2 ^ 62).

(** Block [k] lies on the device. *)
Definition in_dev (k : Z) : Prop := 0 ≤ k < 2 ^ 32 ∧ (k + 1) * bs ≤ total_size dev.

Definition dblock (d : D) (k : Z) : list Z := slice (k * bs) bs (content d).

Record cwf (c : bcache) : Prop := {
  cw_bs : cblock_size c = bs;
  cw_nodup : NoDup (free_list c ++ lru_list c);
  cw_present : present c (free_list c ++ lru_list c);
  cw_len i b : blocks c !! i = Some b → zlen (ptr b) = bs;
  cw_free i b : i ∈ free_list c → blocks c !! i = Some b → is_dirty b = false;
}.

(** [V] is what a client sees: the cached blocks, and the device where nothing is
    cached.  A clean block that nobody holds is as on the device. *)
Record cinv (c : bcache) (d : D) (V : Z → list Z) (x : option nat) : Prop := {
  ci_wf : cwf c;
  ci_valid : valid d;
  ci_uniq k i j b b' : cached c x k i b → cached c x k j b' → i = j;
  ci_range k i b : cached c x k i b → in_dev k;
  ci_ptr k i b : cached c x k i b → ptr b = V k;
  ci_ref k i b : cached c x k i b → 0 ≤ ref_count b;
  ci_clean k i b : cached c x k i b → is_dirty b = false → ref_count b = 0 → V k = dblock d k;
  ci_dev k : in_dev k → (∀ i b, ¬ cached c x k i b) → V k = dblock d k;
}.

Lemma cwf_lru c : cwf c → NoDup (lru_list c) ∧ present c (lru_list c).
Proof.
  intros [_ Hn Hp _ _]. apply NoDup_app in Hn as (_ & _ & Hn). split; [done|]. intros i Hi. apply Hp. set_solver.
Qed.

Lemma cwf_sim c c' : sim c c' → cwf c → cwf c'.
Proof.
  intros [S1 S2 S3 S4 S5] [W1 W2 W3 W4 W5]. split.
  - congruence.
  - by rewrite S4, S5.
  - intros i. rewrite S4, S5, S2. apply W3.
  - rewrite S2. apply W4.
  - rewrite S4, S2. apply W5.
Qed.

(** The invariant depends on the cached blocks only. *)
Lemma cinv_transfer c c' d V x x' :
  cwf c' → (∀ k i b, cached c' x' k i b ↔ cached c x k i b) → cinv c d V x → cinv c' d V x'.
Proof.
  intros Hwf Hc [I1 I2 I3 I4 I5 I6 I7 I8]. split; [done|done|..].
  - intros k i j b b'. rewrite !Hc. apply I3.
  - intros k i b. rewrite Hc. apply I4.
  - intros k i b. rewrite Hc. apply I5.
  - intros k i b. rewrite Hc. apply I6.
  - intros k i b. rewrite Hc. apply I7.
  - intros k Hk Hn. apply I8; [done|]. intros i b. rewrite <- Hc. apply Hn.
Qed.

Lemma cinv_sim c c' d V x : sim c c' → cinv c d V x → cinv c' d V x.
Proof.
  intros S HI. eapply cinv_transfer; [eapply cwf_sim, HI; done| |done]. intros. by apply cached_sim.
Qed.

Lemma cinv_ext c d V V' x : (∀ k, in_dev k → V k = V' k) → cinv c d V x → cinv c d V' x.
Proof.
  intros E [I1 I2 I3 I4 I5 I6 I7 I8]. split; try done.
  - intros k i b H1. rewrite <- E by eauto. eauto.
  - intros k i b H1. rewrite <- E by eauto. eauto.
  - intros k Hk. rewrite <- E by done. eauto.
Qed.

(** A block that is given up counts as read from the device again. *)
Lemma cinv_exclude c d V k i b :
  cinv c d V None → cached c None k i b →
  cinv c d (vset k (dblock d k) V) (Some i) ∧ ∀ j b', ¬ cached c (Some i) k j b'.
Proof.
  intros [I1 I2 I3 I4 I5 I6 I7 I8] Hc.
  assert (∀ k' j b', cached c (Some i) k' j b' → cached c None k' j b' ∧ k' ≠ k) as Hsub.
  { intros k' j b' (H1 & H2 & H3 & H4). assert (cached c None k' j b') as Hj by by split_and!.
    split; [done|]. intros ->. apply H2. f_equal. by eapply I3. }
  split; [|intros j b' Hj; by destruct (Hsub k j b' Hj)]. split; [done|done|..].
  - intros k' i' j' b1 b2 [H1 _]%Hsub [H2 _]%Hsub. eauto.
  - intros k' i' b' [H1 _]%Hsub. eauto.
  - intros k' i' b' [H1 Hk]%Hsub. unfold vset. rewrite (proj2 (Z.eqb_neq k' k)) by done. eauto.
  - intros k' i' b' [H1 _]%Hsub. eauto.
  - intros k' i' b' [H1 Hk]%Hsub. unfold vset. rewrite (proj2 (Z.eqb_neq k' k)) by done. eauto.
  - intros k' Hk' Hn. unfold vset. destruct (Z.eqb_spec k' k) as [->|Hne]; [done|]. apply I8; [done|].
    intros j b' (H1 & H2 & H3 & H4). apply (Hn j b'). split_and!; try done. intros [= ->].
    destruct Hc as (_ & _ & Hb & Hk). congruence.
Qed.

Lemma cached_upd c i b b' k j bj :
  i ∈ lru_list c → blocks c !! i = Some b →
  cached (upd i (λ _, b') c) None k j bj ↔ (j = i ∧ bj = b' ∧ blocknum b' = k) ∨ cached c (Some i) k j bj.
Proof.
  intros Hi Hb. unfold cached. cbn. destruct (decide (j = i)) as [->|Hne].
  - rewrite list_lookup_alter_eq, Hb. cbn. naive_solver.
  - rewrite list_lookup_alter_ne by done. naive_solver.
Qed.

Lemma cwf_upd c i b b' : cwf c → blocks c !! i = Some b → i ∈ lru_list c → zlen (ptr b') = bs → cwf (upd i (λ _, b') c).
Proof.
  intros [W1 W2 W3 W4 W5] Hb Hi Hl. split; cbn; [done|done|..].
  - intros j Hj. apply W3 in Hj as [bj Hj]. cbn. destruct (decide (j = i)) as [->|]; [rewrite list_lookup_alter_eq, Hb; eauto|rewrite list_lookup_alter_ne; eauto].
  - intros j bj. destruct (decide (j = i)) as [->|]; [rewrite list_lookup_alter_eq, Hb; by intros [= <-]|rewrite list_lookup_alter_ne by done; eauto].
  - intros j bj Hj. assert (j ≠ i) by (intros ->; apply NoDup_app in W2 as (_ & Hd & _); by eapply Hd).
    rewrite list_lookup_alter_ne by done. eauto.
Qed.

(** A block that is not in use takes over block [k] with any contents. *)
Lemma cinv_include c d V i b b' :
  cinv c d V (Some i) → i ∈ lru_list c → blocks c !! i = Some b → (∀ j bj, ¬ cached c (Some i) (blocknum b') j bj) →
  in_dev (blocknum b') → zlen (ptr b') = bs → 0 ≤ ref_count b' →
  (is_dirty b' = false → ref_count b' = 0 → ptr b' = dblock d (blocknum b')) →
  cinv (upd i (λ _, b') c) d (vset (blocknum b') (ptr b') V) None.
Proof.
  intros [I1 I2 I3 I4 I5 I6 I7 I8] Hi Hb Hfresh Hin Hl Hr Hclean.
  assert (∀ k j bj, cached (upd i (λ _, b') c) None k j bj →
    (j = i ∧ bj = b' ∧ k = blocknum b') ∨ (cached c (Some i) k j bj ∧ k ≠ blocknum b')) as Hsub.
  { intros k j bj Hc. rewrite cached_upd in Hc by done. destruct Hc as [(-> & -> & <-)|Hc]; [by left|].
    right. split; [done|]. intros ->. by eapply Hfresh. }
  split; [by eapply cwf_upd|done|..].
  - intros k i1 i2 b1 b2 [(-> & -> & ->)|[H1 Hk1]]%Hsub [(-> & -> & Hk)|[H2 Hk2]]%Hsub; try done; by eapply I3.
  - intros k j bj [(-> & -> & ->)|[H1 Hk]]%Hsub; [done|eauto].
  - intros k j bj [(-> & -> & ->)|[H1 Hk]]%Hsub; unfold vset; [by rewrite Z.eqb_refl|rewrite (proj2 (Z.eqb_neq k _)) by done; eauto].
  - intros k j bj [(-> & -> & ->)|[H1 Hk]]%Hsub; [done|eauto].
  - intros k j bj [(-> & -> & ->)|[H1 Hk]]%Hsub; unfold vset; [by rewrite Z.eqb_refl|rewrite (proj2 (Z.eqb_neq k _)) by done; eauto].
  - intros k Hk Hn. assert (k ≠ blocknum b') as Hne.
    { intros ->. apply (Hn i b'). split_and!; try done. cbn. by rewrite list_lookup_alter_eq, Hb. }
    unfold vset. rewrite (proj2 (Z.eqb_neq k _)) by done. apply I8; [done|]. intros j bj (H1 & H2 & H3 & H4).
    apply (Hn j bj). split_and!; try done. cbn. rewrite list_lookup_alter_ne; congruence.
Qed.
(** ** Writing back *)

Lemma dblock_write d d' k p :
  zlen (content d) = total_size dev → in_dev k → zlen p = bs → content d' = splice (k * bs) p (content d) →
  dblock d' k = p ∧ ∀ k', in_dev k' → k' ≠ k → dblock d' k' = dblock d k'.
Proof.
  intros Hlen [Hk Hin] Hp Hc. unfold dblock. rewrite Hc. split.
  - rewrite <- Hp at 2. apply slice_splice; nia.
  - intros k' [Hk' Hin'] Hne.
    assert (zlen (splice (k * bs) p (content d)) = zlen (content d)) as Es by (rewrite zlen_splice; nia).
    apply zlist_eq; [rewrite !zlen_slice; nia|]. rewrite zlen_slice by nia. intros i Hi.
    rewrite !znth_slice, znth_splice by nia.
    destruct (Z.leb_spec (k * bs) (k' * bs + i)), (Z.ltb_spec (k' * bs + i) (k * bs + zlen p)); cbn [andb]; try done. nia.
Qed.

Lemma trimmed_block k : in_dev k → trimmed dev (k * bs) bs = bs.
Proof. intros [Hk Hin]. unfold trimmed. nia. Qed.

Lemma upd_const c i f b : blocks c !! i = Some b → upd i f c = upd i (λ _, f b) c.
Proof.
  intros Hb. unfold upd. f_equal. apply list_eq. intros j. rewrite !list_lookup_alter.
  destruct (decide (i = j)) as [<-|]; [|done]. by rewrite Hb.
Qed.

(** Block [k] of the device, which is not cached, changes. *)
Lemma cinv_device c d d' V x k p :
  cinv c d V x → (∀ j b, ¬ cached c x k j b) → valid d' → dblock d' k = p →
  (∀ k', in_dev k' → k' ≠ k → dblock d' k' = dblock d k') → cinv c d' (vset k p V) x.
Proof.
  intros [I1 I2 I3 I4 I5 I6 I7 I8] Hfresh Hv Hd Hd'.
  assert (∀ k' j b, cached c x k' j b → k' ≠ k) as Hne by (intros k' j b Hj ->; by eapply Hfresh).
  split; try done.
  - intros k' j b Hj. unfold vset. rewrite (proj2 (Z.eqb_neq k' k)) by eauto. eauto.
  - intros k' j b Hj ??. unfold vset. rewrite (proj2 (Z.eqb_neq k' k)), Hd' by eauto. eauto.
  - intros k' Hk' Hn. unfold vset. destruct (Z.eqb_spec k' k) as [->|]; [done|]. rewrite Hd' by done. eauto.
Qed.

Lemma vset_same k V : ∀ k', vset k (V k) V k' = V k'.
Proof. intros k'. unfold vset. destruct (Z.eqb_spec k' k); by subst. Qed.

Lemma vset_vset k p q V k' : vset k p (vset k q V) k' = vset k p V k'.
Proof. unfold vset. by destruct (k' =? k). Qed.

(** A cached block is changed in place. *)
Lemma cinv_change c d V k i b b' :
  cinv c d V None → cached c None k i b → blocknum b' = k → zlen (ptr b') = bs → 0 ≤ ref_count b' →
  (is_dirty b' = false → ref_count b' = 0 → ptr b' = dblock d k) →
  cinv (upd i (λ _, b') c) d (vset k (ptr b') V) None.
Proof.
  intros HI Hc <- Hl Hr Hcl. pose proof (ci_range _ _ _ _ HI _ _ _ Hc) as Hin.
  destruct (cinv_exclude c d V _ i b HI Hc) as [HX Hfresh]. pose proof Hc as (Hi & _ & Hb & _).
  eapply cinv_ext; [|by eapply cinv_include]. intros. apply vset_vset.
Qed.

Lemma flush_block_ok c d V k i b :
  cinv c d V None → cached c None k i b → read_only c = false →
  ∃ c' d', flush_block dev h c i d = Ok (0, c', d') ∧ sim (upd i (λ _, set_dirty false b) c) c' ∧ cinv c' d' V None ∧
    dblock d' k = V k ∧ (∀ k', in_dev k' → k' ≠ k → dblock d' k' = dblock d k').
Proof.
  intros HI Hc Hro. pose proof HI as [[W1 _ _ W4 _] Hv _ I4 I5 I6 _ _]. pose proof (dev_len d Hv) as Hlen.
  pose proof Hc as (Hi & _ & Hb & Hk). pose proof (I4 _ _ _ Hc) as Hin. pose proof (W4 _ _ Hb) as Hl.
  unfold flush_block, block_at. rewrite Hro, Hb. cbn [of_option mbind res_bind]. rewrite W1, Hk.
  destruct (dev_write d (addr b) (ptr b) (k * bs) bs) as (d' & E & Hv' & Hc'); [done|destruct Hin; nia..|].
  rewrite trimmed_block in * by done. rewrite E. cbn [mbind res_bind]. rewrite s32_small, (proj2 (Z.ltb_ge bs 0)) by lia.
  rewrite ztake_all in Hc' by lia. destruct (dblock_write d d' k (ptr b) Hlen Hin Hl Hc') as [Hd Hd'].
  eexists _, d'. split; [done|]. rewrite (upd_const c i (set_dirty false) b) by done. split; [by split|].
  rewrite (I5 _ _ _ Hc) in *. split_and!; [|done|done]. eapply (cinv_sim (upd i (λ _, set_dirty false b) c)); [by split|].
  destruct (cinv_exclude c d V k i b HI Hc) as [HX Hfresh].
  pose proof (cinv_device _ _ d' _ _ k (V k) HX Hfresh Hv' Hd Hd') as HX'.
  eapply cinv_ext; [|eapply (cinv_include _ _ _ _ b); [exact HX'|done|done|..]]; cbn [set_dirty blocknum ptr ref_count]; rewrite ?Hk; try done.
  - intros k' _. rewrite (I5 _ _ _ Hc), !vset_vset. apply vset_same.
  - by rewrite (I5 _ _ _ Hc).
  - by eapply I6.
  - intros _ _. by rewrite (I5 _ _ _ Hc).
Qed.

(** ** Blocks in use *)

(** The buffer of block [k] has been handed out [n] times and not given back. *)
Definition pinned (c : bcache) (k : Z) (i : nat) (n : Z) : Prop := ∃ b, cached c None k i b ∧ ref_count b = n ∧ 0 < n.

(** What no operation on another block changes. *)
Record keeps (c c' : bcache) : Prop := {
  kp_all : free_list c' ++ lru_list c' ≡ₚ free_list c ++ lru_list c;
  kp_ro : read_only c' = read_only c;
  kp_pin k i n : pinned c' k i n ↔ pinned c k i n;
}.

(** There is a buffer that nobody holds, and it can be written back. *)
Definition avail (c : bcache) : Prop := ∃ i, i ∈ free_list c ++ lru_list c ∧ ∀ k n, ¬ pinned c k i n.
Definition writable (c : bcache) : Prop :=
  read_only c = true → ∀ i b, i ∈ lru_list c → blocks c !! i = Some b → is_dirty b = false.

Lemma keeps_trans c1 c2 c3 : keeps c1 c2 → keeps c2 c3 → keeps c1 c3.
Proof.
  intros [A1 A2 A3] [B1 B2 B3]. split; [by rewrite B1|congruence|]. intros. by rewrite B3.
Qed.

Lemma keeps_sim c c' : sim c c' → keeps c c'.
Proof.
  intros S. pose proof S as [S1 S2 S3 S4 S5]. split; [by rewrite S4, S5|done|].
  intros k i n. unfold pinned. by setoid_rewrite (cached_sim c c').
Qed.

Lemma avail_keeps c c' : keeps c c' → avail c → avail c'.
Proof. intros [K1 K2 K3] (i & Hi & Hp). exists i. rewrite K1. split; [done|]. intros k n. rewrite K3. apply Hp. Qed.

(** The result of [alloc_block]: the block [i] is clean, nobody holds it, and it
    counts as not cached. *)
Record allocated (c c' : bcache) (i : nat) (b : bcache_block) : Prop := {
  al_lru : i ∈ lru_list c';
  al_block : blocks c' !! i = Some b;
  al_ref : ref_count b = 0;
  al_clean : is_dirty b = false;
  al_all : free_list c' ++ lru_list c' ≡ₚ free_list c ++ lru_list c;
  al_ro : read_only c' = read_only c;
  al_unpinned k n : ¬ pinned c k i n;
  al_cached k j bj : cached c' (Some i) k j bj ↔ cached c (Some i) k j bj;
}.

Lemma alloc_free_ok c d V i fl :
  cinv c d V None → free_list c = i :: fl →
  ∃ b c', alloc_block dev h c d = Ok (Some i, c', d) ∧ cinv c' d V (Some i) ∧ allocated c c' i b.
Proof.
  intros HI Hf. pose proof (ci_wf _ _ _ _ HI) as [W1 W2 W3 W4 W5]. rewrite Hf in *.
  destruct (W3 i) as [b Hb]; [set_solver|]. assert (i ∉ lru_list c) as Hni.
  { apply NoDup_app in W2 as (_ & Hd & _). apply Hd. set_solver. }
  exists (set_ref_count 0 b), (with_lists fl (lru_list c ++ [i]) (upd i (set_ref_count 0) c)).
  unfold alloc_block. rewrite Hf. split; [done|].
  assert (∀ k j bj, cached (with_lists fl (lru_list c ++ [i]) (upd i (set_ref_count 0) c)) (Some i) k j bj ↔ cached c None k j bj) as Hc.
  { intros k j bj. unfold cached. cbn. destruct (decide (j = i)) as [->|]; [naive_solver|].
    rewrite list_lookup_alter_ne, elem_of_app by done. set_solver. }
  split.
  - eapply cinv_transfer; [|exact Hc|done]. split; cbn; [done|..].
    + eapply (NoDup_Permutation_proper _ (i :: fl ++ lru_list c)); [|done]. solve_Permutation.
    + intros j Hj. cbn. destruct (W3 j) as [bj Hbj]; [set_solver|].
      rewrite list_lookup_alter. destruct (decide (i = j)); [rewrite Hb|]; eauto.
    + intros j bj. rewrite list_lookup_alter. destruct (decide (i = j)) as [<-|]; [|eauto]. rewrite Hb. intros [= <-]. exact (W4 i b Hb).
    + intros j bj Hj. rewrite list_lookup_alter. destruct (decide (i = j)) as [<-|].
      * rewrite Hb. intros [= <-]. apply (W5 i b); [set_solver|done].
      * apply W5. set_solver.
  - split; cbn; [set_solver|by rewrite list_lookup_alter_eq, Hb|done|apply (W5 i b); [set_solver|done]|rewrite Hf; solve_Permutation|done|..].
    + intros k n (b' & (? & _) & _). done.
    + intros k j bj. rewrite Hc. unfold cached. naive_solver.
Qed.

(** A block on the LRU list that is not held has the reference count 0. *)
Lemma unpinned_ref c d V i b :
  cinv c d V None → i ∈ lru_list c → blocks c !! i = Some b → (∀ k n, ¬ pinned c k i n) ↔ ref_count b = 0.
Proof.
  intros HI Hi Hb. assert (cached c None (blocknum b) i b) as Hc by by split_and!.
  pose proof (ci_ref _ _ _ _ HI _ _ _ Hc) as Hr. split.
  - intros Hn. destruct (decide (ref_count b = 0)); [done|]. exfalso. apply (Hn (blocknum b) (ref_count b)). exists b. split_and!; [done|done|lia].
  - intros E k n (b' & (_ & _ & Hb' & _) & <- & Hp). simplify_eq. lia.
Qed.

(** Giving up a clean block does not change what clients see. *)
Lemma cinv_evict c d V i b :
  cinv c d V None → i ∈ lru_list c → blocks c !! i = Some b → ref_count b = 0 → is_dirty b = false → cinv c d V (Some i).
Proof.
  intros HI Hi Hb Hr Hcl. assert (cached c None (blocknum b) i b) as Hc by by split_and!.
  destruct (cinv_exclude _ _ _ _ _ _ HI Hc) as [HX _]. eapply cinv_ext; [|done]. intros k _.
  rewrite <- (ci_clean _ _ _ _ HI _ _ _ Hc Hcl Hr). apply vset_same.
Qed.

Lemma move_tail_sim c i : cwf c → i ∈ lru_list c → sim c (with_lists (free_list c) (move_tail i (lru_list c)) c).
Proof. intros Hw Hi. split; cbn; try done. apply move_tail_perm; [by apply cwf_lru|done]. Qed.

Lemma alloc_evict_ok c d V :
  cinv c d V None → free_list c = [] → avail c → writable c →
  ∃ i b c' d', alloc_block dev h c d = Ok (Some i, c', d') ∧ cinv c' d' V (Some i) ∧ allocated c c' i b.
Proof.
  intros HI Hf (i0 & Hi0 & Hp0) Hw. pose proof (ci_wf _ _ _ _ HI) as Hwf. destruct (cwf_lru c Hwf) as [_ Hpr].
  unfold alloc_block. rewrite Hf in *. pose proof (victim_spec c (lru_list c) Hpr) as Hvic.
  destruct (victim c (lru_list c)) as [[i|]|]; [| |done]; cbn [mbind res_bind].
  2:{ destruct (Hpr i0 Hi0) as [b0 Hb0]. exfalso. apply (Hvic i0 b0); [done|done|]. by apply (unpinned_ref c d V i0). }
  destruct Hvic as (Hi & b & Hb & Hr). unfold block_at. rewrite Hb. cbn [of_option mbind res_bind].
  assert (∀ k n, ¬ pinned c k i n) as Hunp by by apply (unpinned_ref c d V i b).
  destruct (is_dirty b) eqn:Hdirty; cbn [mbind res_bind].
  - destruct (flush_block_ok c d V (blocknum b) i b HI) as (c1 & d1 & E & S & HI1 & _ & _); [by split_and!| |].
    { destruct (read_only c) eqn:Ero; [|done]. by rewrite (Hw Ero i b) in Hdirty. }
    rewrite E. cbn [mbind res_bind negb Z.eqb]. pose proof S as [S1 S2 S3 S4 S5]. cbn in S1, S2, S3, S4, S5.
    assert (i ∈ lru_list c1) as Hi1 by by rewrite S5.
    assert (blocks c1 !! i = Some (set_dirty false b)) as Hb1 by by rewrite S2, list_lookup_alter_eq, Hb.
    pose proof (move_tail_sim c1 i (ci_wf _ _ _ _ HI1) Hi1) as SM.
    eexists i, (set_dirty false b), _, d1. split; [done|]. split; [by eapply cinv_sim, cinv_evict|].
    pose proof SM as [_ M2 _ M4 M5]. split; cbn in *; try done.
    + by rewrite M5.
    + by rewrite S4, M5, S5, Hf.
    + intros k j bj. rewrite (cached_sim c1) by done. rewrite (cached_sim _ c1 _ _ _ _ S). unfold cached. cbn.
      destruct (decide (j = i)) as [->|]; [naive_solver|]. by rewrite list_lookup_alter_ne by done.
  - pose proof (move_tail_sim c i Hwf Hi) as SM. pose proof SM as [_ _ _ M4 M5].
    eexists i, b, _, d. split; [done|]. rewrite Hf in *. split; [by eapply cinv_sim, cinv_evict|].
    split; cbn in *; try done; [by rewrite M5|by rewrite M5, Hf|]. intros k j bj. by rewrite (cached_sim c).
Qed.

Lemma alloc_block_ok c d V :
  cinv c d V None → avail c → writable c →
  ∃ i b c' d', alloc_block dev h c d = Ok (Some i, c', d') ∧ cinv c' d' V (Some i) ∧ allocated c c' i b.
Proof.
  intros HI Ha Hw. destruct (free_list c) as [|i fl] eqn:Hf; [by apply alloc_evict_ok|].
  destruct (alloc_free_ok c d V i fl HI Hf) as (b & c' & ?). eauto.
Qed.
(** ** The operations *)

(** The block that was allocated takes over block [k], not held by anybody. *)
Lemma allocated_keeps c c' i b b' :
  allocated c c' i b → ref_count b' = 0 → keeps c (upd i (λ _, b') c').
Proof.
  intros [A1 A2 A3 A4 A5 A6 A7 A8] Hr. split; cbn; [done|done|]. intros k j n. unfold pinned.
  setoid_rewrite (cached_upd c' i b b' k j); [|done..]. setoid_rewrite A8. split.
  - intros (bj & [(-> & -> & _)|Hc] & <- & Hn); [lia|]. exists bj. split_and!; [|done|done].
    destruct Hc as (? & ? & ? & ?). by split_and!.
  - intros (bj & Hc & <- & Hn). exists bj. split_and!; [right|done|done]. destruct Hc as (? & ? & ? & ?). split_and!; try done.
    intros [= ->]. apply (A7 k (ref_count bj)). exists bj. by split_and!.
Qed.

(** The block found is left where it is. *)
Lemma upd_keeps c i k b b' :
  cached c None k i b → blocknum b' = k → ref_count b' = ref_count b → keeps c (upd i (λ _, b') c).
Proof.
  intros Hc Hk Hr. pose proof Hc as (Hi & _ & Hb & Hkb). split; cbn; [done|done|]. intros k' j n. unfold pinned.
  setoid_rewrite (cached_upd c i b b' k' j); [|done..]. split.
  - intros (bj & [(-> & -> & Hk')|(? & ? & ? & ?)] & <- & Hn); [exists b; split_and!; [|done|done]|exists bj; by split_and!].
    by rewrite <- Hk', Hk.
  - intros (bj & (H1 & H2 & H3 & H4) & <- & Hn). destruct (decide (j = i)) as [->|Hne].
    + simplify_eq. exists b'. split_and!; [by left; split_and!|done|done].
    + exists bj. split_and!; [right|done|done]. split_and!; congruence.
Qed.

Lemma fill_ok c d V k :
  cinv c d V None → avail c → writable c → in_dev k → (∀ i b, ¬ cached c None k i b) →
  ∃ i b c1 d1, alloc_block dev h c d = Ok (Some i, c1, d1) ∧ allocated c c1 i b ∧ cinv c1 d1 V (Some i) ∧
    V k = dblock d1 k ∧ ∀ j bj, ¬ cached c1 (Some i) k j bj.
Proof.
  intros HI Ha Hw Hin Hno. destruct (alloc_block_ok c d V HI Ha Hw) as (i & b & c1 & d1 & E & HI1 & HA).
  exists i, b, c1, d1. assert (∀ j bj, ¬ cached c1 (Some i) k j bj) as Hf.
  { intros j bj Hc. rewrite (al_cached _ _ _ _ HA) in Hc. destruct Hc as (? & ? & ? & ?). apply (Hno j bj). by split_and!. }
  split_and!; try done. by apply (ci_dev _ _ _ _ HI1).
Qed.

Lemma find_or_fill_block_ok c d V k :
  cinv c d V None → avail c → writable c → in_dev k →
  ∃ i b c' d', find_or_fill_block dev h c k d = Ok (Some i, c', d') ∧ cinv c' d' V None ∧ cached c' None k i b ∧ keeps c c'.
Proof.
  intros HI Ha Hw Hin. destruct (cwf_lru c (ci_wf _ _ _ _ HI)) as [Hnd Hpr]. unfold find_or_fill_block.
  destruct (find_block_spec c k Hnd Hpr) as (c0 & S & [(i & b & E & Hc)|[E Hno]]); rewrite E; cbn [mbind res_bind].
  - assert (cached c0 None k i b) as Hc0 by by apply (cached_sim c c0). pose proof Hc0 as (_ & _ & Hb & Hk).
    unfold block_at. rewrite Hb. cbn [of_option mbind res_bind]. rewrite Hk, Z.eqb_refl. cbn [assert_ mbind res_bind].
    exists i, b, c0, d. split_and!; [done|by eapply cinv_sim|done|by apply keeps_sim].
  - pose proof (cinv_sim _ _ _ _ _ S HI) as HI0. pose proof (keeps_sim _ _ S) as K0.
    destruct (fill_ok c0 d V k) as (i & b & c1 & d1 & E1 & HA & HI1 & HV & Hf); [done|by eapply avail_keeps| |done| |].
    { intros Hro j bj. destruct S as [_ S2 S3 _ S5]. rewrite S5, S2. apply Hw. congruence. }
    { intros j bj Hc. rewrite (cached_sim c c0) in Hc by done. by eapply Hno. }
    rewrite E1. cbn [mbind res_bind]. pose proof HA as [A1 A2 A3 A4 _ _ _ _]. rewrite (upd_const c1 i _ b) by done.
    set (b1 := set_blocknum k b). unfold block_at at 1. cbn [blocks upd]. rewrite list_lookup_alter_eq, A2.
    cbn [fmap option_fmap option_map of_option mbind res_bind]. pose proof (ci_wf _ _ _ _ HI1) as [W1 _ _ W4 _].
    cbn [cblock_size upd]. rewrite W1. pose proof (ci_valid _ _ _ _ HI1) as Hv1. pose proof (dev_len d1 Hv1) as Hlen.
    rewrite dev_read by (done || (destruct Hin; nia)). rewrite trimmed_block by done. cbn [mbind res_bind].
    rewrite s32_small, (proj2 (Z.ltb_ge bs 0)) by lia. fold (dblock d1 k).
    assert (zlen (dblock d1 k) = bs) as Hdl by (destruct Hin; unfold dblock; rewrite zlen_slice; nia).
    assert (splice 0 (dblock d1 k) (ptr b1) = dblock d1 k) as ->.
    { unfold splice. change (ztake 0 (ptr b1)) with (@nil Z). cbn [app]. rewrite Hdl. unfold zdrop.
      rewrite drop_ge, app_nil_r; [done|]. pose proof (W4 _ _ A2) as Hl. unfold zlen in Hl. cbn. lia. }
    set (b2 := set_ptr (dblock d1 k) b1). set (c2 := upd i (λ _, b2) c1).
    eexists i, b2, _, d1. split; [done|]. match goal with |- cinv ?c' _ _ _ ∧ _ => assert (sim c2 c') as S2 end.
    { split; cbn; try done. apply list_eq. intros j. destruct (decide (i = j)) as [<-|].
      - by rewrite !list_lookup_alter_eq, A2.
      - by rewrite !list_lookup_alter_ne. }
    split_and!.
    + eapply cinv_sim; [done|]. eapply (cinv_ext _ _ (vset k (ptr b2) V)).
      { intros k' _. cbn. rewrite <- HV. apply vset_same. }
      apply (cinv_include c1 d1 V i b b2); try done. cbn. lia.
    + rewrite (cached_sim c2) by done. apply (cached_upd c1 i b); [done..|]. by left.
    + eapply keeps_trans; [done|]. apply (keeps_trans _ c2); [by apply (allocated_keeps _ _ i b b2)|by apply keeps_sim].
Qed.
Lemma upd_upd c i b1 b2 : upd i (λ _, b2) (upd i (λ _, b1) c) = upd i (λ _, b2) c.
Proof.
  unfold upd. cbn. f_equal. apply list_eq. intros j. destruct (decide (i = j)) as [<-|].
  - rewrite !list_lookup_alter_eq. by destruct (blocks c !! i).
  - by rewrite !list_lookup_alter_ne.
Qed.

Lemma sim_upd c c' i f : sim c c' → sim (upd i f c) (upd i f c').
Proof. intros [S1 S2 S3 S4 S5]. split; cbn; try done. by rewrite S2. Qed.

Lemma sim_trans c1 c2 c3 : sim c1 c2 → sim c2 c3 → sim c1 c3.
Proof. intros [S1 S2 S3 S4 S5] [T1 T2 T3 T4 T5]. split; try congruence. by rewrite T5. Qed.

Lemma cached_now c i b b' : i ∈ lru_list c → blocks c !! i = Some b → cached (upd i (λ _, b') c) None (blocknum b') i b'.
Proof. intros Hi Hb. apply (cached_upd c i b); [done..|]. by left. Qed.

Lemma find_hit c d V k i b :
  cinv c d V None → cached c None k i b → ∃ c', find_block c k = Ok (Some i, c') ∧ sim c c'.
Proof.
  intros HI Hc. destruct (cwf_lru c (ci_wf _ _ _ _ HI)) as [Hnd Hpr].
  destruct (find_block_spec c k Hnd Hpr) as (c' & S & [(j & b' & E & Hj)|[E Hno]]); [|by destruct (Hno i b)].
  exists c'. split; [|done]. by rewrite (ci_uniq _ _ _ _ HI _ _ _ _ _ Hc Hj).
Qed.

(** A change of a cached block that keeps its contents is not seen. *)
Lemma cinv_touch c d V k i b b' :
  cinv c d V None → cached c None k i b → blocknum b' = k → ptr b' = ptr b → 0 ≤ ref_count b' →
  (is_dirty b' = false → ref_count b' = 0 → V k = dblock d k) → cinv (upd i (λ _, b') c) d V None.
Proof.
  intros HI Hc Hk Hp Hr Hcl. pose proof (ci_ptr _ _ _ _ HI _ _ _ Hc) as Hv. pose proof Hc as (_ & _ & Hb & _).
  eapply cinv_ext; [|eapply (cinv_change _ _ _ k i b b')]; rewrite ?Hp; try done.
  - intros k' _. rewrite Hv. apply vset_same.
  - by eapply cw_len; [apply HI|].
  - intros H1 H2. rewrite Hv. auto.
Qed.

Lemma get_block_ok c d V k :
  cinv c d V None → avail c → writable c → in_dev k →
  ∃ i b c1 d', bcache_get_block dev h c k d = Ok (0, Some i, upd i (λ _, set_ref_count (ref_count b + 1) b) c1, d') ∧
    keeps c c1 ∧ cinv c1 d' V None ∧ cached c1 None k i b ∧
    cinv (upd i (λ _, set_ref_count (ref_count b + 1) b) c1) d' V None.
Proof.
  intros HI Ha Hw Hin. unfold bcache_get_block.
  destruct (find_or_fill_block_ok c d V k HI Ha Hw Hin) as (i & b & c1 & d' & E & HI1 & Hc & K). rewrite E.
  pose proof Hc as (_ & _ & Hb & Hk). cbn [mbind res_bind]. unfold block_at. rewrite Hb. cbn [of_option mbind res_bind].
  rewrite (upd_const c1 i _ b) by done. exists i, b, c1, d'. split_and!; try done.
  pose proof (ci_ref _ _ _ _ HI1 _ _ _ Hc). eapply (cinv_touch _ _ _ k i b); cbn; try done; lia.
Qed.

Lemma mark_block_dirty_ok c d V k i b :
  cinv c d V None → cached c None k i b → read_only c = false →
  ∃ c', bcache_mark_block_dirty c k = Ok (0, c') ∧ sim (upd i (λ _, set_dirty true b) c) c' ∧ cinv c' d V None.
Proof.
  intros HI Hc Hro. unfold bcache_mark_block_dirty. rewrite Hro. destruct (find_hit c d V k i b HI Hc) as (c' & E & S).
  rewrite E. cbn [mbind res_bind]. pose proof Hc as (_ & _ & Hb & Hk). assert (blocks c' !! i = Some b) as Hb' by (by rewrite (sim_blocks _ _ S)).
  eexists. split; [done|]. rewrite (upd_const c' i (set_dirty true) b) by done. pose proof (sim_upd _ _ i (λ _, set_dirty true b) S).
  split; [done|]. eapply cinv_sim; [done|]. pose proof (ci_ref _ _ _ _ HI _ _ _ Hc). by eapply (cinv_touch _ _ _ k i b).
Qed.

Lemma put_block_ok c d V k i b :
  cinv c d V None → cached c None k i b → 0 < ref_count b →
  (ref_count b = 1 → is_dirty b = false → V k = dblock d k) →
  ∃ c', bcache_put_block c k = Ok (0, c') ∧ sim (upd i (λ _, set_ref_count (ref_count b - 1) b) c) c' ∧ cinv c' d V None.
Proof.
  intros HI Hc Hr Hcl. unfold bcache_put_block. destruct (find_hit c d V k i b HI Hc) as (c' & E & S).
  rewrite E. cbn [mbind res_bind]. pose proof Hc as (_ & _ & Hb & Hk). assert (blocks c' !! i = Some b) as Hb' by (by rewrite (sim_blocks _ _ S)).
  unfold block_at. rewrite Hb'. cbn [of_option mbind res_bind]. rewrite (proj2 (Z.ltb_lt 0 _)) by done. cbn [assert_ mbind res_bind].
  eexists. split; [done|]. rewrite (upd_const c' i (set_ref_count _) b) by done.
  pose proof (sim_upd _ _ i (λ _, set_ref_count (ref_count b - 1) b) S). split; [done|]. eapply cinv_sim; [done|].
  eapply (cinv_touch _ _ _ k i b); cbn; try done; [lia|]. intros ??. apply Hcl; [lia|done].
Qed.
Lemma zero_block_ok c d V k :
  cinv c d V None → avail c → read_only c = false → in_dev k →
  ∃ c' d', bcache_zero_block dev h c k d = Ok (0, c', d') ∧
    cinv c' d' (vset k (replicate (Z.to_nat bs) 0) V) None ∧ keeps c c'.
Proof.
  intros HI Ha Hro Hin. destruct (cwf_lru c (ci_wf _ _ _ _ HI)) as [Hnd Hpr]. unfold bcache_zero_block. rewrite Hro.
  assert (∀ p, zlen p = bs → mem_write 0 (replicate (Z.to_nat bs) 0) p = Ok (replicate (Z.to_nat bs) 0)) as Hmw.
  { intros p Hp. rewrite mem_write_Ok by (rewrite ?zlen_replicate; lia). f_equal. unfold splice.
    change (ztake 0 p) with (@nil Z). cbn [app]. rewrite zlen_replicate by lia. unfold zdrop. unfold zlen in Hp.
    by rewrite drop_ge, app_nil_r by lia. }
  destruct (find_block_spec c k Hnd Hpr) as (c0 & S & [(i & b & E & Hc)|[E Hno]]); rewrite E; cbn [mbind res_bind].
  - assert (cached c0 None k i b) as Hc0 by by apply (cached_sim c c0). pose proof Hc0 as (_ & _ & Hb & Hk).
    pose proof (cinv_sim _ _ _ _ _ S HI) as HI0. pose proof (ci_wf _ _ _ _ HI0) as [W1 _ _ W4 _].
    unfold block_at. rewrite Hb. cbn [of_option mbind res_bind]. rewrite W1, Hmw by (by eapply W4). cbn [mbind res_bind].
    rewrite (upd_const c0 i (set_ptr _) b), (upd_const _ i (set_dirty true) (set_ptr (replicate (Z.to_nat bs) 0) b)), upd_upd
      by (done || by cbn; rewrite list_lookup_alter_eq, Hb).
    eexists _, d. split; [done|]. split; [|eapply keeps_trans; [by apply keeps_sim|by eapply upd_keeps]].
    apply (cinv_change c0 d V k i b); try done; cbn; [rewrite zlen_replicate; lia|]. by eapply ci_ref.
  - pose proof (cinv_sim _ _ _ _ _ S HI) as HI0. pose proof (keeps_sim _ _ S) as K0.
    destruct (fill_ok c0 d V k) as (i & b & c1 & d1 & E1 & HA & HI1 & HV & Hf); [done|by eapply avail_keeps| |done| |].
    { intros Hro'. rewrite (kp_ro _ _ K0) in Hro'. congruence. }
    { intros j bj Hc. rewrite (cached_sim c c0) in Hc by done. by eapply Hno. }
    rewrite E1. cbn [mbind res_bind]. pose proof HA as [A1 A2 A3 A4 _ _ _ _]. pose proof (ci_wf _ _ _ _ HI1) as [W1 _ _ W4 _].
    set (b' := set_dirty true (set_ptr (replicate (Z.to_nat bs) 0) (set_blocknum k b))).
    assert (∀ f g q, upd i f (upd i g (upd i q c1)) = upd i (λ _, f (g (q b))) c1) as Hupd.
    { intros f g q. rewrite (upd_const c1 i q b) by done. rewrite (upd_const _ i g (q b)) by (by cbn; rewrite list_lookup_alter_eq, A2).
      rewrite upd_upd, (upd_const _ i f (g (q b))), upd_upd by (by cbn; rewrite list_lookup_alter_eq, A2). done. }
    unfold block_at. cbn [blocks upd]. rewrite list_lookup_alter_eq, A2. cbn [fmap option_fmap option_map of_option mbind res_bind].
    cbn [cblock_size upd ptr set_blocknum]. rewrite W1, Hmw by (by eapply W4). cbn [mbind res_bind]. rewrite Hupd. fold b'.
    eexists _, d1. split; [done|]. split; [|eapply keeps_trans; [done|by apply (allocated_keeps _ _ i b b')]].
    apply (cinv_include c1 d1 V i b b'); try done; cbn; [rewrite zlen_replicate; lia|lia].
Qed.

(** Only dirty bits change, and those of the walked part are clear afterwards. *)
Record flushed (l : list nat) (c c' : bcache) : Prop := {
  fl_lru : lru_list c' ≡ₚ lru_list c;
  fl_block j b' : blocks c' !! j = Some b' → ∃ b, blocks c !! j = Some b ∧ (b' = b ∨ b' = set_dirty false b);
  fl_clean j b' : j ∈ l → blocks c' !! j = Some b' → is_dirty b' = false;
}.

Lemma flush_walk_ok l : ∀ c d V,
  cinv c d V None → (∀ i, i ∈ l → i ∈ lru_list c) → read_only c = false →
  ∃ c' d', flush_walk dev h l c d = Ok (0, c', d') ∧ cinv c' d' V None ∧ keeps c c' ∧ flushed l c c'.
Proof.
  induction l as [|i l IH]; intros c d V HI Hl Hro.
  { exists c, d. split_and!; try done. split; [done|eauto|]. intros j b' Hj. by apply elem_of_nil in Hj. }
  destruct (cwf_lru c (ci_wf _ _ _ _ HI)) as [_ Hpr]. destruct (Hpr i) as [b Hb]; [apply Hl; set_solver|].
  cbn [flush_walk]. unfold block_at. rewrite Hb. cbn [of_option mbind res_bind].
  assert (cached c None (blocknum b) i b) as Hc by (split_and!; try done; apply Hl; set_solver).
  destruct (is_dirty b) eqn:Hd.
  - destruct (flush_block_ok c d V _ i b HI Hc Hro) as (c1 & d1 & E & S & HI1 & _). rewrite E. cbn [mbind res_bind negb Z.eqb].
    pose proof S as [S1 S2 S3 S4 S5]. cbn in S1, S2, S3, S4, S5.
    destruct (IH c1 d1 V HI1) as (c2 & d2 & E2 & HI2 & K2 & [F1 F2 F3]); [intros j Hj; rewrite S5; apply Hl; set_solver|congruence|].
    exists c2, d2. split_and!; [done|done| |].
    { apply (keeps_trans _ (upd i (λ _, set_dirty false b) c)); [by apply (upd_keeps _ _ (blocknum b) b)|].
      apply (keeps_trans _ c1); [by apply keeps_sim|done]. }
    split; [by rewrite F1|..].
    + intros j b' Hj. destruct (F2 j b' Hj) as (b1 & Hb1 & Hor). rewrite S2, list_lookup_alter in Hb1.
      destruct (decide (i = j)) as [<-|]; [|eauto]. rewrite Hb in Hb1. simplify_eq/=. exists b. split; [done|]. right. by destruct Hor as [->| ->].
    + intros j b' [->|Hj]%elem_of_cons Hb'; [|eauto]. destruct (F2 i b' Hb') as (b1 & Hb1 & Hor).
      rewrite S2, list_lookup_alter_eq, Hb in Hb1. simplify_eq/=. by destruct Hor as [->| ->].
  - destruct (IH c d V HI) as (c2 & d2 & E2 & HI2 & K2 & [F1 F2 F3]); [intros j Hj; apply Hl; set_solver|done|].
    exists c2, d2. split_and!; try done. split; [done|done|]. intros j b' [->|Hj]%elem_of_cons Hb'; [|eauto].
    destruct (F2 i b' Hb') as (b1 & Hb1 & Hor). simplify_eq. by destruct Hor as [->| ->].
Qed.

Lemma flush_ok c d V :
  cinv c d V None → read_only c = false →
  ∃ c' d', bcache_flush dev h c d = Ok (0, c', d') ∧ cinv c' d' V None ∧ keeps c c' ∧
    (∀ i b, i ∈ lru_list c' → blocks c' !! i = Some b → is_dirty b = false) ∧
    ∀ k, in_dev k → (∀ i n, ¬ pinned c k i n) → dblock d' k = V k.
Proof.
  intros HI Hro. destruct (flush_walk_ok (lru_list c) c d V HI) as (c' & d' & E & HI' & K & [F1 F2 F3]); [done|done|].
  assert (∀ i b, i ∈ lru_list c' → blocks c' !! i = Some b → is_dirty b = false) as Hcl.
  { intros i b Hi Hb. rewrite F1 in Hi. eauto. }
  exists c', d'. split_and!; try done. intros k Hin Hunp. symmetry.
  destruct (cwf_lru c' (ci_wf _ _ _ _ HI')) as [Hnd Hpr].
  destruct (find_block_spec c' k Hnd Hpr) as (c0 & S & [(i & b & _ & Hc)|[_ Hno]]); [|by apply (ci_dev _ _ _ _ HI')].
  pose proof Hc as (Hi & _ & Hb & Hk). eapply (ci_clean _ _ _ _ HI'); [done|eauto|].
  pose proof (ci_ref _ _ _ _ HI' _ _ _ Hc). destruct (decide (ref_count b = 0)); [done|]. exfalso.
  apply (Hunp i (ref_count b)). apply (kp_pin _ _ K). exists b. split_and!; [done|done|lia].
Qed.
Lemma overwrite_ok c d V k data :
  cinv c d V None → avail c → read_only c = false → in_dev k → zlen data = bs →
  ∃ c' d', overwrite dev h c k data d = Ok (c', d') ∧ cinv c' d' (vset k data V) None ∧ keeps c c'.
Proof.
  intros HI Ha Hro Hin Hl. unfold overwrite.
  destruct (get_block_ok c d V k HI Ha) as (i & b & c1 & d' & E1 & K1 & HI1 & Hc1 & HI2); [intros Hro'; congruence|done|].
  rewrite E1. cbn [mbind res_bind assert_ Z.eqb of_option]. unfold store.
  pose proof Hc1 as (Hi & _ & Hb & Hk). pose proof (ci_ref _ _ _ _ HI1 _ _ _ Hc1) as Hr.
  set (b2 := set_ref_count (ref_count b + 1) b) in *. set (b3 := set_ptr data b2).
  assert (cached (upd i (λ _, b2) c1) None k i b2) as Hc2 by (rewrite <- Hk; by apply (cached_now c1 i b b2)).
  pose proof Hc2 as (_ & _ & Hb2 & _). rewrite (upd_const _ i (set_ptr data) b2) by done. fold b3.
  assert (cinv (upd i (λ _, b3) (upd i (λ _, b2) c1)) d' (vset k data V) None) as HI3.
  { apply (cinv_change _ d' V k i b2 b3); try done; cbn; lia. }
  rewrite upd_upd in *. assert (cached (upd i (λ _, b3) c1) None k i b3) as Hc3 by (rewrite <- Hk; by apply (cached_now c1 i b b3)).
  destruct (mark_block_dirty_ok _ _ _ k i b3 HI3 Hc3) as (c4 & E4 & S4 & HI4); [cbn; by rewrite (kp_ro _ _ K1)|].
  rewrite E4. cbn [mbind res_bind assert_ Z.eqb]. rewrite upd_upd in S4. set (b4 := set_dirty true b3) in *.
  assert (cached c4 None k i b4) as Hc4 by (rewrite (cached_sim _ c4) by done; rewrite <- Hk; by apply (cached_now c1 i b b4)).
  destruct (put_block_ok c4 d' _ k i b4 HI4 Hc4) as (c5 & E5 & S5 & HI5); [cbn; lia|done|].
  rewrite E5. cbn [mbind res_bind assert_ Z.eqb]. exists c5, d'. split_and!; [done|done|]. apply (keeps_trans _ c1); [done|].
  set (b5 := set_ref_count (ref_count b4 - 1) b4) in *. apply (keeps_trans _ (upd i (λ _, b5) c1)).
  - apply (upd_keeps _ _ k b); try done. cbn. lia.
  - apply keeps_sim. eapply sim_trans; [|done]. rewrite <- (upd_upd c1 i b4 b5). by apply sim_upd.
Qed.

Lemma read_block_ok c d V k :
  cinv c d V None → avail c → writable c → in_dev k →
  ∃ c' d', bcache_read_block dev h c k d = Ok (0, V k, c', d') ∧ cinv c' d' V None ∧ keeps c c'.
Proof.
  intros HI Ha Hw Hin. unfold bcache_read_block.
  destruct (find_or_fill_block_ok c d V k HI Ha Hw Hin) as (i & b & c1 & d' & E & HI1 & Hc & K). rewrite E. cbn [mbind res_bind].
  pose proof Hc as (_ & _ & Hb & Hk). unfold block_at. rewrite Hb. cbn [of_option mbind res_bind].
  pose proof (ci_wf _ _ _ _ HI1) as [W1 _ _ W4 _]. pose proof (W4 _ _ Hb) as Hl. rewrite W1, mem_read_Ok by lia. cbn [mbind res_bind].
  change (zdrop 0 (ptr b)) with (ptr b). rewrite ztake_all by lia. rewrite (ci_ptr _ _ _ _ HI1 _ _ _ Hc). eauto.
Qed.

(** The blocks an operation uses are on the device, and data is one block long. *)
Definition op_ok (o : client_op) : Prop :=
  match o with
  | Read k | Zero k => in_dev k
  | Overwrite k data => in_dev k ∧ zlen data = bs
  | Flush => True
  end.

Lemma run_op_ok o c d V :
  cinv c d V None → avail c → read_only c = false → op_ok o →
  ∃ c' d', run_op dev h o c d = Ok ((spec_op bs o V).1, c', d') ∧ cinv c' d' (spec_op bs o V).2 None ∧ keeps c c'.
Proof.
  intros HI Ha Hro Ho. assert (writable c) as Hw by (intros ?; congruence). destruct o as [k|k data|k|]; cbn [run_op spec_op fst snd] in *.
  - destruct (read_block_ok c d V k HI Ha Hw Ho) as (c' & d' & E & HI' & K). rewrite E. eauto.
  - destruct Ho as [Hin Hl]. destruct (overwrite_ok c d V k data HI Ha Hro Hin Hl) as (c' & d' & E & HI' & K). rewrite E. eauto.
  - destruct (zero_block_ok c d V k HI Ha Hro Ho) as (c' & d' & E & HI' & K). rewrite E. eauto.
  - destruct (flush_ok c d V HI Hro) as (c' & d' & E & HI' & K & _). rewrite E. eauto.
Qed.

Lemma run_ops_ok os : ∀ c d V,
  cinv c d V None → avail c → read_only c = false → Forall op_ok os →
  ∃ c' d', run_ops dev h os c d = Ok ((spec_ops bs os V).1, c', d') ∧ cinv c' d' (spec_ops bs os V).2 None ∧ keeps c c'.
Proof.
  induction os as [|o os IH]; intros c d V HI Ha Hro Hos; cbn [run_ops spec_ops].
  { exists c, d. split_and!; done. }
  apply Forall_cons in Hos as [Ho Hos]. destruct (run_op_ok o c d V HI Ha Hro Ho) as (c1 & d1 & E1 & HI1 & K1). rewrite E1.
  destruct (spec_op bs o V) as [out V1]. cbn [fst snd mbind res_bind] in *.
  destruct (IH c1 d1 V1 HI1) as (c2 & d2 & E2 & HI2 & K2); [by eapply avail_keeps|by rewrite (kp_ro _ _ K1)|done|]. rewrite E2.
  destruct (spec_ops bs os V1) as [outs V2]. exists c2, d2. split_and!; [done|done|]. by eapply keeps_trans.
Qed.

Lemma run_ops_app os1 os2 c d :
  run_ops dev h (os1 ++ os2) c d =
    '(outs1, c, d) ← run_ops dev h os1 c d; '(outs2, c, d) ← run_ops dev h os2 c d; Ok (outs1 ++ outs2, c, d).
Proof.
  revert c d. induction os1 as [|o os1 IH]; intros c d; cbn.
  { by destruct (run_ops dev h os2 c d) as [[[? ?] ?]|]. }
  destruct (run_op dev h o c d) as [[[out c1] d1]|]; cbn; [|done]. rewrite IH.
  destruct (run_ops dev h os1 c1 d1) as [[[outs1 c2] d2]|]; cbn; [|done].
  by destruct (run_ops dev h os2 c2 d2) as [[[outs2 c3] d3]|].
Qed.

(** A fresh cache shows the device. *)
Lemma create_inv (buffers : list (Z * Z * list Z)) d :
  valid d → Forall (λ x, zlen x.2 = bs) buffers → cinv (bcache_create bs buffers) d (dblock d) None.
Proof.
  intros Hv Hb. assert (∀ k i b, ¬ cached (bcache_create bs buffers) None k i b) as Hno by (intros k i b (Hi & _); by apply elem_of_nil in Hi).
  split; try done; try (intros; exfalso; by eapply Hno). split; cbn; try done.
  - rewrite app_nil_r. rewrite reverse_Permutation. apply NoDup_seq.
  - intros i. rewrite app_nil_r, elem_of_reverse, elem_of_seq. intros Hi. cbn. rewrite list_lookup_fmap.
    destruct (lookup_lt_is_Some_2 buffers i) as [x ->]; [lia|]. eauto.
  - intros i b. rewrite list_lookup_fmap. destruct (buffers !! i) as [[[n a] p]|] eqn:E; [|done]. intros [= <-]. cbn.
    rewrite Forall_lookup in Hb. apply (Hb _ _ E).
  - intros i b _. rewrite list_lookup_fmap. destruct (buffers !! i) as [[[n a] p]|]; [|done]. by intros [= <-].
Qed.

Lemma create_avail (buffers : list (Z * Z * list Z)) : buffers ≠ [] → avail (bcache_create bs buffers).
Proof.
  intros Hb. exists 0%nat. split.
  - cbn. rewrite app_nil_r, elem_of_reverse, elem_of_seq. destruct buffers; [done|]. cbn. lia.
  - intros k n (b & (Hi & _) & _). by apply elem_of_nil in Hi.
Qed.
End inv.

(** * Theorems *)

(** C2: the cache is transparent.  Whatever a client reads, overwrites, zeroes
    and flushes through a cache of any positive number of blocks, the results
    are those on an array of blocks, no assertion fires, and after a last flush
    the device holds exactly the contents of the array. *)
Theorem bcache_transparent {D} dev (h : hooks D) valid content bs (buffers : list (Z * Z * list Z)) os d :
  BlockDevice dev h valid content → 0 < bs < 2 ^ 31 → total_size dev < 2 ^ 62 → valid d →
  buffers ≠ [] → Forall (λ x, zlen x.2 = bs) buffers → Forall (op_ok (dev := dev) bs) os →
  ∃ c' d', run_ops dev h (os ++ [Flush]) (bcache_create bs buffers) d =
      Ok ((spec_ops bs os (dblock (content := content) bs d)).1 ++ [[]], c', d') ∧ valid d' ∧
    ∀ k, in_dev (dev := dev) bs k → dblock (content := content) bs d' k = (spec_ops bs os (dblock (content := content) bs d)).2 k.
Proof.
  intros HB Hbs Hs Hv Hne Hbuf Hos. pose proof (create_inv (dev := dev) (content := content) bs buffers d Hv Hbuf) as HI.
  destruct (run_ops_ok bs Hbs Hs os _ d _ HI (create_avail bs buffers Hne) eq_refl Hos) as (c1 & d1 & E1 & HI1 & K1).
  destruct (flush_ok bs Hbs Hs c1 d1 _ HI1) as (c2 & d2 & E2 & HI2 & _ & _ & Hdev); [by rewrite (kp_ro _ _ K1)|].
  exists c2, d2. split_and!; [|by eapply ci_valid|].
  - by rewrite run_ops_app, E1; cbn; rewrite E2.
  - intros k Hk. apply Hdev; [done|]. intros i n Hp. apply (kp_pin _ _ K1) in Hp as (b & (Hi & _) & _). by apply elem_of_nil in Hi.
Qed.

(** A read returns the block as last written, from the cache or the device,
    and changes no block that a client sees and no buffer that is held.  It
    succeeds as long as one buffer is not held and a dirty one can be written. *)
Theorem bcache_read_block_spec {D} dev (h : hooks D) valid content bs c d V k :
  BlockDevice dev h valid content → 0 < bs < 2 ^ 31 → total_size dev < 2 ^ 62 →
  cinv (dev := dev) (valid := valid) (content := content) bs c d V None → avail c → writable c → in_dev (dev := dev) bs k →
  ∃ c' d', bcache_read_block dev h c k d = Ok (0, V k, c', d') ∧
    cinv (dev := dev) (valid := valid) (content := content) bs c' d' V None ∧ keeps c c'.
Proof. intros HB Hbs Hs. by apply read_block_ok. Qed.

(** After a flush no cached block is dirty, and the device holds every block
    that is not held by a client as the client sees it. *)
Theorem bcache_flush_spec {D} dev (h : hooks D) valid content bs c d V :
  BlockDevice dev h valid content → 0 < bs < 2 ^ 31 → total_size dev < 2 ^ 62 →
  cinv (dev := dev) (valid := valid) (content := content) bs c d V None → read_only c = false →
  ∃ c' d', bcache_flush dev h c d = Ok (0, c', d') ∧
    cinv (dev := dev) (valid := valid) (content := content) bs c' d' V None ∧ keeps c c' ∧
    (∀ i b, i ∈ lru_list c' → blocks c' !! i = Some b → is_dirty b = false) ∧
    ∀ k, in_dev (dev := dev) bs k → (∀ i n, ¬ pinned c k i n) → dblock (content := content) bs d' k = V k.
Proof. intros HB Hbs Hs. by apply flush_ok. Qed.

(** A block behind the end of the device is reported as read: the device
    returns 0 bytes, which is not an error, and the buffer keeps what it had. *)
Theorem read_past_end_is_stale :
  let c := bcache_create 512 [(0, 0, replicate 512 66)] in
  ∃ c', bcache_read_block dev8 (mem_bdev_set_hooks dev8 65536) c 100 mem8 = Ok (0, replicate 512 66, c', mem8).
Proof. eexists. by vm_compute. Qed.

(** * The theorems at a concrete cache *)

Definition cache2 : bcache := bcache_create 512 [(0, 0, replicate 512 66); (0, 512, replicate 512 66)].

Definition ops8 : list client_op := [Read 3; Overwrite 1 (replicate 512 5); Zero 2; Read 1; Read 4; Read 2; Flush; Read 3].

Lemma bcache_transparent_witness :
  ∃ c' d', run_ops dev8 (mem_bdev_set_hooks dev8 65536) (ops8 ++ [Flush]) cache2 mem8 =
      Ok ((spec_ops 512 ops8 (dblock (content := mem_content dev8) 512 mem8)).1 ++ [[]], c', d') ∧ mem_valid dev8 d' ∧
    ∀ k, in_dev (dev := dev8) 512 k →
      dblock (content := mem_content dev8) 512 d' k = (spec_ops 512 ops8 (dblock (content := mem_content dev8) 512 mem8)).2 k.
Proof.
  apply (bcache_transparent dev8 (mem_bdev_set_hooks dev8 65536) (mem_valid dev8) (mem_content dev8) 512
    [(0, 0, replicate 512 66); (0, 512, replicate 512 66)] ops8 mem8 dev8_device); [done|done|apply mem8_valid|done|..].
  - repeat (apply Forall_cons; split; [done|]). done.
  - repeat (apply Forall_cons; split; [done|]). done.
Defined.

Lemma cache2_inv :
  cinv (dev := dev8) (valid := mem_valid dev8) (content := mem_content dev8) 512 cache2 mem8 (dblock (content := mem_content dev8) 512 mem8) None.
Proof.
  pose proof dev8_device. apply (create_inv 512); [apply mem8_valid|]. repeat (apply Forall_cons; split; [done|]). done.
Qed.

Lemma bcache_read_block_spec_witness :
  ∃ c' d', bcache_read_block dev8 (mem_bdev_set_hooks dev8 65536) cache2 3 mem8 = Ok (0, dblock (content := mem_content dev8) 512 mem8 3, c', d') ∧
    cinv (dev := dev8) (valid := mem_valid dev8) (content := mem_content dev8) 512 c' d' (dblock (content := mem_content dev8) 512 mem8) None ∧
    keeps cache2 c'.
Proof.
  apply (bcache_read_block_spec dev8 (mem_bdev_set_hooks dev8 65536) (mem_valid dev8) (mem_content dev8) 512 cache2 mem8
    (dblock (content := mem_content dev8) 512 mem8) 3 dev8_device); [done|done|apply cache2_inv|by apply (create_avail 512)|done|done].
Defined.

Lemma bcache_flush_spec_witness :
  ∃ c' d', bcache_flush dev8 (mem_bdev_set_hooks dev8 65536) cache2 mem8 = Ok (0, c', d') ∧
    cinv (dev := dev8) (valid := mem_valid dev8) (content := mem_content dev8) 512 c' d' (dblock (content := mem_content dev8) 512 mem8) None ∧
    keeps cache2 c' ∧
    (∀ i b, i ∈ lru_list c' → blocks c' !! i = Some b → is_dirty b = false) ∧
    ∀ k, in_dev (dev := dev8) 512 k → (∀ i n, ¬ pinned cache2 k i n) →
      dblock (content := mem_content dev8) 512 d' k = dblock (content := mem_content dev8) 512 mem8 k.
Proof.
  apply (bcache_flush_spec dev8 (mem_bdev_set_hooks dev8 65536) (mem_valid dev8) (mem_content dev8) 512 cache2 mem8
    (dblock (content := mem_content dev8) 512 mem8) dev8_device); [done|done|apply cache2_inv|done].
Defined.
