(* ===== verification/KState.v ===== *)
(** Kernel data: threads, wait queues, timers, cpu masks and the objects of the
    synchronization primitives ([kernel/include/kernel/*.h]), gathered in one
    state record, with the state monad the kernel code is written in.

    The record stands for the kernel's globals and heap objects.  Pointers to
    threads, wait queues and timers are identifiers; the intrusive lists
    through [queue_node], [thread_list_node] and [timer.node] are pools of
    lists (module [Pool]), in which linking a node twice or unlinking a free
    node is a fault. *)
From stdpp Require Import prelude gmap strings.
From S2P Require Import Prelude Pow2 IntrusiveList.

#[local] Open Scope Z_scope.

(** * Identifiers *)

Abbreviation tid := nat (only parsing).

(** A wait queue is the [retcode_wait_queue] of a thread or the [wait] of a
    mutex, semaphore, event or port. *)
Inductive wqid :=
| WqRetcode (t : tid)
| WqMutex (m : nat)
| WqSem (n : nat)
| WqEvent (e : nat)
| WqPort (p : nat).

#[global] Instance wqid_eq_dec : EqDecision wqid.
Proof. solve_decision. Defined.
#[global] Instance wqid_countable : Countable wqid.
Proof.
  refine (inj_countable'
    (λ w, match w with
          | WqRetcode t => (0, t)
          | WqMutex m => (1, m)
          | WqSem n => (2, n)
          | WqEvent e => (3, e)
          | WqPort p => (4, p)
          end%nat)
    (λ p, match p with
          | (0, t) => WqRetcode t
          | (1, m) => WqMutex m
          | (2, n) => WqSem n
          | (3, e) => WqEvent e
          | (_, p) => WqPort p
          end%nat) _).
  by intros [].
Defined.

(** The lists a thread's [queue_node] can be on. *)
Inductive qid :=
| RunQ (priority : Z)
| WaitQ (w : wqid).

#[global] Instance qid_eq_dec : EqDecision qid.
Proof. solve_decision. Defined.
#[global] Instance qid_countable : Countable qid.
Proof.
  refine (inj_countable'
    (λ q, match q with RunQ p => inl p | WaitQ w => inr w end)
    (λ s, match s with inl p => RunQ p | inr w => WaitQ w end) _).
  by intros [].
Defined.

(** Timers: the per-cpu preemption timers, the timer on the stack of a thread
    that sleeps or blocks with a timeout, and any other. *)
Inductive timid :=
| TmPreempt (cpu : nat)
| TmStack (t : tid)
| TmUser (n : nat).

#[global] Instance timid_eq_dec : EqDecision timid.
Proof. solve_decision. Defined.
#[global] Instance timid_countable : Countable timid.
Proof.
  refine (inj_countable'
    (λ x, match x with TmPreempt c => inl c | TmStack t => inr (inl t) | TmUser n => inr (inr n) end)
    (λ x, match x with inl c => TmPreempt c | inr (inl t) => TmStack t | inr (inr n) => TmUser n end) _).
  by intros [].
Defined.

(** * Threads: [thread.h] *)

Inductive thread_state :=
| THREAD_SUSPENDED
| THREAD_READY
| THREAD_RUNNING
| THREAD_BLOCKED
| THREAD_SLEEPING
| THREAD_DEATH.

#[global] Instance thread_state_eq_dec : EqDecision thread_state.
Proof. solve_decision. Defined.

Definition THREAD_FLAG_DETACHED : Z := 1.
Definition THREAD_FLAG_FREE_STACK : Z := 2.
Definition THREAD_FLAG_FREE_STRUCT : Z := 4.
Definition THREAD_FLAG_REAL_TIME : Z := 8.
Definition THREAD_FLAG_IDLE : Z := 16.
Definition THREAD_FLAG_DEBUG_STACK_BOUNDS_CHECK : Z := 32.
Definition THREAD_MAGIC : Z := 0x74687264.

Definition NUM_PRIORITIES : Z := 32.
Definition LOWEST_PRIORITY : Z := 0.
Definition HIGHEST_PRIORITY : Z := NUM_PRIORITIES - 1.
Definition DPC_PRIORITY : Z := NUM_PRIORITIES - 2.
Definition IDLE_PRIORITY : Z := LOWEST_PRIORITY.
Definition LOW_PRIORITY : Z := NUM_PRIORITIES / 4.
Definition DEFAULT_PRIORITY : Z := NUM_PRIORITIES / 2.
Definition HIGH_PRIORITY : Z := (NUM_PRIORITIES / 4) * 3.

Record thread := mk_thread {
  t_magic : Z;
  t_priority : Z;
  t_state : thread_state;
  t_remaining_quantum : Z;
  t_flags : Z;
  t_curr_cpu : Z;
  t_pinned_cpu : Z;
  t_aspace : option nat;
  t_blocking_wait_queue : option wqid;
  t_wait_queue_block_ret : Z;
  t_stack : option nat;
  t_stack_size : Z;
  t_entry : nat;
  t_arg : nat;
  t_retcode : Z;
  t_tls : list Z;
  t_name : string;
}.

Definition with_magic (v : Z) (r : thread) : thread :=
    mk_thread v (t_priority r) (t_state r) (t_remaining_quantum r) (t_flags r) (t_curr_cpu r)
    (t_pinned_cpu r) (t_aspace r) (t_blocking_wait_queue r) (t_wait_queue_block_ret r) (t_stack
    r) (t_stack_size r) (t_entry r) (t_arg r) (t_retcode r) (t_tls r) (t_name r).
Definition with_priority (v : Z) (r : thread) : thread :=
    mk_thread (t_magic r) v (t_state r) (t_remaining_quantum r) (t_flags r) (t_curr_cpu r)
    (t_pinned_cpu r) (t_aspace r) (t_blocking_wait_queue r) (t_wait_queue_block_ret r) (t_stack
    r) (t_stack_size r) (t_entry r) (t_arg r) (t_retcode r) (t_tls r) (t_name r).
Definition with_state (v : thread_state) (r : thread) : thread :=
    mk_thread (t_magic r) (t_priority r) v (t_remaining_quantum r) (t_flags r) (t_curr_cpu r)
    (t_pinned_cpu r) (t_aspace r) (t_blocking_wait_queue r) (t_wait_queue_block_ret r) (t_stack
    r) (t_stack_size r) (t_entry r) (t_arg r) (t_retcode r) (t_tls r) (t_name r).
Definition with_remaining_quantum (v : Z) (r : thread) : thread :=
    mk_thread (t_magic r) (t_priority r) (t_state r) v (t_flags r) (t_curr_cpu r) (t_pinned_cpu
    r) (t_aspace r) (t_blocking_wait_queue r) (t_wait_queue_block_ret r) (t_stack r)
    (t_stack_size r) (t_entry r) (t_arg r) (t_retcode r) (t_tls r) (t_name r).
Definition with_flags (v : Z) (r : thread) : thread :=
    mk_thread (t_magic r) (t_priority r) (t_state r) (t_remaining_quantum r) v (t_curr_cpu r)
    (t_pinned_cpu r) (t_aspace r) (t_blocking_wait_queue r) (t_wait_queue_block_ret r) (t_stack
    r) (t_stack_size r) (t_entry r) (t_arg r) (t_retcode r) (t_tls r) (t_name r).
Definition with_curr_cpu (v : Z) (r : thread) : thread :=
    mk_thread (t_magic r) (t_priority r) (t_state r) (t_remaining_quantum r) (t_flags r) v
    (t_pinned_cpu r) (t_aspace r) (t_blocking_wait_queue r) (t_wait_queue_block_ret r) (t_stack
    r) (t_stack_size r) (t_entry r) (t_arg r) (t_retcode r) (t_tls r) (t_name r).
Definition with_pinned_cpu (v : Z) (r : thread) : thread :=
    mk_thread (t_magic r) (t_priority r) (t_state r) (t_remaining_quantum r) (t_flags r)
    (t_curr_cpu r) v (t_aspace r) (t_blocking_wait_queue r) (t_wait_queue_block_ret r) (t_stack
    r) (t_stack_size r) (t_entry r) (t_arg r) (t_retcode r) (t_tls r) (t_name r).
Definition with_aspace (v : option nat) (r : thread) : thread :=
    mk_thread (t_magic r) (t_priority r) (t_state r) (t_remaining_quantum r) (t_flags r)
    (t_curr_cpu r) (t_pinned_cpu r) v (t_blocking_wait_queue r) (t_wait_queue_block_ret r)
    (t_stack r) (t_stack_size r) (t_entry r) (t_arg r) (t_retcode r) (t_tls r) (t_name r).
Definition with_blocking_wait_queue (v : option wqid) (r : thread) : thread :=
    mk_thread (t_magic r) (t_priority r) (t_state r) (t_remaining_quantum r) (t_flags r)
    (t_curr_cpu r) (t_pinned_cpu r) (t_aspace r) v (t_wait_queue_block_ret r) (t_stack r)
    (t_stack_size r) (t_entry r) (t_arg r) (t_retcode r) (t_tls r) (t_name r).
Definition with_wait_queue_block_ret (v : Z) (r : thread) : thread :=
    mk_thread (t_magic r) (t_priority r) (t_state r) (t_remaining_quantum r) (t_flags r)
    (t_curr_cpu r) (t_pinned_cpu r) (t_aspace r) (t_blocking_wait_queue r) v (t_stack r)
    (t_stack_size r) (t_entry r) (t_arg r) (t_retcode r) (t_tls r) (t_name r).
Definition with_stack (v : option nat) (r : thread) : thread :=
    mk_thread (t_magic r) (t_priority r) (t_state r) (t_remaining_quantum r) (t_flags r)
    (t_curr_cpu r) (t_pinned_cpu r) (t_aspace r) (t_blocking_wait_queue r)
    (t_wait_queue_block_ret r) v (t_stack_size r) (t_entry r) (t_arg r) (t_retcode r) (t_tls r)
    (t_name r).
Definition with_stack_size (v : Z) (r : thread) : thread :=
    mk_thread (t_magic r) (t_priority r) (t_state r) (t_remaining_quantum r) (t_flags r)
    (t_curr_cpu r) (t_pinned_cpu r) (t_aspace r) (t_blocking_wait_queue r)
    (t_wait_queue_block_ret r) (t_stack r) v (t_entry r) (t_arg r) (t_retcode r) (t_tls r)
    (t_name r).
Definition with_entry (v : nat) (r : thread) : thread :=
    mk_thread (t_magic r) (t_priority r) (t_state r) (t_remaining_quantum r) (t_flags r)
    (t_curr_cpu r) (t_pinned_cpu r) (t_aspace r) (t_blocking_wait_queue r)
    (t_wait_queue_block_ret r) (t_stack r) (t_stack_size r) v (t_arg r) (t_retcode r) (t_tls r)
    (t_name r).
Definition with_arg (v : nat) (r : thread) : thread :=
    mk_thread (t_magic r) (t_priority r) (t_state r) (t_remaining_quantum r) (t_flags r)
    (t_curr_cpu r) (t_pinned_cpu r) (t_aspace r) (t_blocking_wait_queue r)
    (t_wait_queue_block_ret r) (t_stack r) (t_stack_size r) (t_entry r) v (t_retcode r) (t_tls
    r) (t_name r).
Definition with_retcode (v : Z) (r : thread) : thread :=
    mk_thread (t_magic r) (t_priority r) (t_state r) (t_remaining_quantum r) (t_flags r)
    (t_curr_cpu r) (t_pinned_cpu r) (t_aspace r) (t_blocking_wait_queue r)
    (t_wait_queue_block_ret r) (t_stack r) (t_stack_size r) (t_entry r) (t_arg r) v (t_tls r)
    (t_name r).
Definition with_tls (v : list Z) (r : thread) : thread :=
    mk_thread (t_magic r) (t_priority r) (t_state r) (t_remaining_quantum r) (t_flags r)
    (t_curr_cpu r) (t_pinned_cpu r) (t_aspace r) (t_blocking_wait_queue r)
    (t_wait_queue_block_ret r) (t_stack r) (t_stack_size r) (t_entry r) (t_arg r) (t_retcode r)
    v (t_name r).
Definition with_name (v : string) (r : thread) : thread :=
    mk_thread (t_magic r) (t_priority r) (t_state r) (t_remaining_quantum r) (t_flags r)
    (t_curr_cpu r) (t_pinned_cpu r) (t_aspace r) (t_blocking_wait_queue r)
    (t_wait_queue_block_ret r) (t_stack r) (t_stack_size r) (t_entry r) (t_arg r) (t_retcode r)
    (t_tls r) v.

(** * Wait queues: [wait.h]; the list is [WaitQ] of the pool *)

Definition WAIT_QUEUE_MAGIC : Z := 0x77616974.
Record wait_queue := mk_wait_queue { wq_magic : Z; wq_count : Z }.

(** * Timers: [timer.h]; a callback is one of the kernel's own or a driver's *)

Definition TIMER_MAGIC : Z := 0x74696D72.

Inductive timer_callback :=
| CbThreadTimerTick
| CbThreadSleepHandler
| CbWaitQueueTimeoutHandler
| CbOther (n : nat).

Record timer := mk_timer {
  tm_magic : Z;
  tm_scheduled_time : Z;
  tm_periodic_time : Z;
  tm_callback : option timer_callback;
  tm_arg : option nat;
}.

Inductive handler_return := INT_NO_RESCHEDULE | INT_RESCHEDULE.

#[global] Instance handler_return_eq_dec : EqDecision handler_return.
Proof. solve_decision. Defined.

(** * Cpu masks: [mp.h] *)

Record mp_state := mk_mp { active_cpus : Z; idle_cpus : Z; realtime_cpus : Z }.

Inductive mp_ipi := MP_IPI_GENERIC | MP_IPI_RESCHEDULE.

#[global] Instance mp_ipi_eq_dec : EqDecision mp_ipi.
Proof. solve_decision. Defined.

(** * Synchronization objects: [mutex.h], [semaphore.h], [event.h] *)

Definition MUTEX_MAGIC : Z := 0x6D757478.
Record mutex := mk_mutex { m_magic : Z; m_count : Z; m_holder : option tid }.

Definition SEMAPHORE_MAGIC : Z := 0x73656D61.
Record semaphore := mk_sem { sem_magic : Z; sem_count : Z }.

Definition EVENT_MAGIC : Z := 0x65766E74.
Definition EVENT_FLAG_AUTOUNSIGNAL : Z := 1.
Record event := mk_event { e_magic : Z; e_signaled : Z; e_flags : Z }.

(** Heap objects of a thread, as given to [free] and [heap_delayed_free]. *)
Inductive heap_obj :=
| ObjStack (s : nat)
| ObjThread (t : tid).

(** * The kernel state

    [current] is each cpu's current thread, [hw_timer] the time for which each
    cpu's one-shot hardware timer is armed (absent when stopped or fired),
    [now] what [current_time] reads, [ipis] the interprocessor interrupts sent
    (latest first), [freed] the objects handed to the heap (latest first),
    [mmu] the address space each cpu was last switched to. *)
Record kstate := mk_kstate {
  threads : gmap tid thread;
  thread_list : Pool.pool unit tid;
  queues : Pool.pool qid tid;
  run_queue_bitmap : Z;
  wait_queues : gmap wqid wait_queue;
  current : gmap nat tid;
  timers : gmap timid timer;
  timer_queue : Pool.pool nat timid;
  hw_timer : gmap nat Z;
  now : Z;
  mp : mp_state;
  ipis : list (Z * mp_ipi);
  freed : list heap_obj;
  mmu : gmap nat (option nat);
  mutexes : gmap nat mutex;
  semaphores : gmap nat semaphore;
  events : gmap nat event;
}.

Definition set_threads (v : gmap tid thread) (r : kstate) : kstate :=
    mk_kstate v (thread_list r) (queues r) (run_queue_bitmap r) (wait_queues r) (current r)
    (timers r) (timer_queue r) (hw_timer r) (now r) (mp r) (ipis r) (freed r) (mmu r) (mutexes
    r) (semaphores r) (events r).
Definition set_thread_list (v : Pool.pool unit tid) (r : kstate) : kstate :=
    mk_kstate (threads r) v (queues r) (run_queue_bitmap r) (wait_queues r) (current r) (timers
    r) (timer_queue r) (hw_timer r) (now r) (mp r) (ipis r) (freed r) (mmu r) (mutexes r)
    (semaphores r) (events r).
Definition set_queues (v : Pool.pool qid tid) (r : kstate) : kstate :=
    mk_kstate (threads r) (thread_list r) v (run_queue_bitmap r) (wait_queues r) (current r)
    (timers r) (timer_queue r) (hw_timer r) (now r) (mp r) (ipis r) (freed r) (mmu r) (mutexes
    r) (semaphores r) (events r).
Definition set_run_queue_bitmap (v : Z) (r : kstate) : kstate :=
    mk_kstate (threads r) (thread_list r) (queues r) v (wait_queues r) (current r) (timers r)
    (timer_queue r) (hw_timer r) (now r) (mp r) (ipis r) (freed r) (mmu r) (mutexes r)
    (semaphores r) (events r).
Definition set_wait_queues (v : gmap wqid wait_queue) (r : kstate) : kstate :=
    mk_kstate (threads r) (thread_list r) (queues r) (run_queue_bitmap r) v (current r) (timers
    r) (timer_queue r) (hw_timer r) (now r) (mp r) (ipis r) (freed r) (mmu r) (mutexes r)
    (semaphores r) (events r).
Definition set_current (v : gmap nat tid) (r : kstate) : kstate :=
    mk_kstate (threads r) (thread_list r) (queues r) (run_queue_bitmap r) (wait_queues r) v
    (timers r) (timer_queue r) (hw_timer r) (now r) (mp r) (ipis r) (freed r) (mmu r) (mutexes
    r) (semaphores r) (events r).
Definition set_timers (v : gmap timid timer) (r : kstate) : kstate :=
    mk_kstate (threads r) (thread_list r) (queues r) (run_queue_bitmap r) (wait_queues r)
    (current r) v (timer_queue r) (hw_timer r) (now r) (mp r) (ipis r) (freed r) (mmu r)
    (mutexes r) (semaphores r) (events r).
Definition set_timer_queue (v : Pool.pool nat timid) (r : kstate) : kstate :=
    mk_kstate (threads r) (thread_list r) (queues r) (run_queue_bitmap r) (wait_queues r)
    (current r) (timers r) v (hw_timer r) (now r) (mp r) (ipis r) (freed r) (mmu r) (mutexes r)
    (semaphores r) (events r).
Definition set_hw_timer (v : gmap nat Z) (r : kstate) : kstate :=
    mk_kstate (threads r) (thread_list r) (queues r) (run_queue_bitmap r) (wait_queues r)
    (current r) (timers r) (timer_queue r) v (now r) (mp r) (ipis r) (freed r) (mmu r) (mutexes
    r) (semaphores r) (events r).
Definition set_now (v : Z) (r : kstate) : kstate :=
    mk_kstate (threads r) (thread_list r) (queues r) (run_queue_bitmap r) (wait_queues r)
    (current r) (timers r) (timer_queue r) (hw_timer r) v (mp r) (ipis r) (freed r) (mmu r)
    (mutexes r) (semaphores r) (events r).
Definition set_mp (v : mp_state) (r : kstate) : kstate :=
    mk_kstate (threads r) (thread_list r) (queues r) (run_queue_bitmap r) (wait_queues r)
    (current r) (timers r) (timer_queue r) (hw_timer r) (now r) v (ipis r) (freed r) (mmu r)
    (mutexes r) (semaphores r) (events r).
Definition set_ipis (v : list (Z * mp_ipi)) (r : kstate) : kstate :=
    mk_kstate (threads r) (thread_list r) (queues r) (run_queue_bitmap r) (wait_queues r)
    (current r) (timers r) (timer_queue r) (hw_timer r) (now r) (mp r) v (freed r) (mmu r)
    (mutexes r) (semaphores r) (events r).
Definition set_freed (v : list heap_obj) (r : kstate) : kstate :=
    mk_kstate (threads r) (thread_list r) (queues r) (run_queue_bitmap r) (wait_queues r)
    (current r) (timers r) (timer_queue r) (hw_timer r) (now r) (mp r) (ipis r) v (mmu r)
    (mutexes r) (semaphores r) (events r).
Definition set_mmu (v : gmap nat (option nat)) (r : kstate) : kstate :=
    mk_kstate (threads r) (thread_list r) (queues r) (run_queue_bitmap r) (wait_queues r)
    (current r) (timers r) (timer_queue r) (hw_timer r) (now r) (mp r) (ipis r) (freed r) v
    (mutexes r) (semaphores r) (events r).
Definition set_mutexes (v : gmap nat mutex) (r : kstate) : kstate :=
    mk_kstate (threads r) (thread_list r) (queues r) (run_queue_bitmap r) (wait_queues r)
    (current r) (timers r) (timer_queue r) (hw_timer r) (now r) (mp r) (ipis r) (freed r) (mmu
    r) v (semaphores r) (events r).
Definition set_semaphores (v : gmap nat semaphore) (r : kstate) : kstate :=
    mk_kstate (threads r) (thread_list r) (queues r) (run_queue_bitmap r) (wait_queues r)
    (current r) (timers r) (timer_queue r) (hw_timer r) (now r) (mp r) (ipis r) (freed r) (mmu
    r) (mutexes r) v (events r).
Definition set_events (v : gmap nat event) (r : kstate) : kstate :=
    mk_kstate (threads r) (thread_list r) (queues r) (run_queue_bitmap r) (wait_queues r)
    (current r) (timers r) (timer_queue r) (hw_timer r) (now r) (mp r) (ipis r) (freed r) (mmu
    r) (mutexes r) (semaphores r) v.

(** The kernel's memory before initialisation. *)
Definition kstate0 : kstate :=
  mk_kstate ∅ Pool.empty_pool Pool.empty_pool 0 ∅ ∅ ∅ Pool.empty_pool ∅ 0 (mk_mp 0 0 0) [] [] ∅ ∅ ∅ ∅.

(** * The state monad: [M A] runs on a cpu, under the thread lock *)

Definition M (A : Type) : Type := nat → kstate → res (A * kstate).

#[global] Instance M_ret : MRet M := λ A a _ s, Ok (a, s).
#[global] Instance M_bind : MBind M :=
  λ A B f m c s, match m c s with Ok (a, s') => f a c s' | Fault e => Fault e end.

Definition arch_curr_cpu_num : M nat := λ c s, Ok (c, s).
Definition gets {A} (f : kstate → A) : M A := λ _ s, Ok (f s, s).
Definition modify (f : kstate → kstate) : M unit := λ _ s, Ok ((), f s).
Definition lift {A} (r : res A) : M A :=
  λ _ s, match r with Ok a => Ok (a, s) | Fault e => Fault e end.
Definition debug_assert (b : bool) : M unit := lift (assert_ b).
Definition panic {A} : M A := λ _ _, Fault Panicked.

Definition get_thread (t : tid) : M thread := λ _ s,
  match threads s !! t with Some th => Ok (th, s) | None => Fault BadAccess end.
Definition put_thread (t : tid) (th : thread) : M unit :=
  modify (λ s, set_threads (<[t := th]> (threads s)) s).
Definition mod_thread (t : tid) (f : thread → thread) : M unit :=
  th ← get_thread t; put_thread t (f th).

Definition get_wait_queue (w : wqid) : M wait_queue := λ _ s,
  match wait_queues s !! w with Some wq => Ok (wq, s) | None => Fault BadAccess end.
Definition put_wait_queue (w : wqid) (wq : wait_queue) : M unit :=
  modify (λ s, set_wait_queues (<[w := wq]> (wait_queues s)) s).

Definition get_timer (t : timid) : M timer := λ _ s,
  match timers s !! t with Some tm => Ok (tm, s) | None => Fault BadAccess end.
Definition put_timer (t : timid) (tm : timer) : M unit :=
  modify (λ s, set_timers (<[t := tm]> (timers s)) s).

Definition get_current_thread : M tid := λ c s,
  match current s !! c with Some t => Ok (t, s) | None => Fault BadAccess end.
Definition set_current_thread (t : tid) : M unit := λ c s,
  Ok ((), set_current (<[c := t]> (current s)) s).

Definition current_time : M Z := gets now.

(** Operations on the list pools. *)
Definition on_queues (f : Pool.pool qid tid → res (Pool.pool qid tid)) : M unit := λ _ s,
  match f (queues s) with Ok p => Ok ((), set_queues p s) | Fault e => Fault e end.
Definition on_thread_list (f : Pool.pool unit tid → res (Pool.pool unit tid)) : M unit := λ _ s,
  match f (thread_list s) with Ok p => Ok ((), set_thread_list p s) | Fault e => Fault e end.
Definition on_timer_queue (f : Pool.pool nat timid → res (Pool.pool nat timid)) : M unit := λ _ s,
  match f (timer_queue s) with Ok p => Ok ((), set_timer_queue p s) | Fault e => Fault e end.
Definition pop_queue (f : Pool.pool qid tid → res (option tid * Pool.pool qid tid)) :
    M (option tid) := λ _ s,
  match f (queues s) with Ok (t, p) => Ok (t, set_queues p s) | Fault e => Fault e end.

(** * Weakest preconditions: the computation does not fault, and its result
    and final state satisfy [Q] *)

Definition wp {A} (c : nat) (m : M A) (Q : A → kstate → Prop) (s : kstate) : Prop :=
  match m c s with Ok (a, s') => Q a s' | Fault _ => False end.

Section wp_rules.
Context {A B : Type} (c : nat).
Implicit Types (s : kstate).

Lemma wp_ret (a : A) Q s : Q a s → wp c (mret a) Q s.
Proof. done. Qed.

Lemma wp_bind (m : M A) (f : A → M B) Q s :
  wp c m (λ a s', wp c (f a) Q s') s → wp c (m ≫= f) Q s.
Proof. unfold wp, mbind, M_bind. by destruct (m c s) as [[a s']|]. Qed.

Lemma wp_mono (m : M A) (Q Q' : A → kstate → Prop) s :
  wp c m Q s → (∀ a s', Q a s' → Q' a s') → wp c m Q' s.
Proof. unfold wp. destruct (m c s) as [[a s']|]; naive_solver. Qed.

Lemma wp_Ok (m : M A) Q s a s' : m c s = Ok (a, s') → wp c m Q s → Q a s'.
Proof. unfold wp. by intros ->. Qed.

Lemma wp_total (m : M A) Q s : wp c m Q s → ∃ a s', m c s = Ok (a, s') ∧ Q a s'.
Proof. unfold wp. destruct (m c s) as [[a s']|]; naive_solver. Qed.

Lemma wp_gets (f : kstate → A) Q s : Q (f s) s → wp c (gets f) Q s.
Proof. done. Qed.

Lemma wp_modify f Q s : Q () (f s) → wp c (modify f) Q s.
Proof. done. Qed.

Lemma wp_debug_assert b Q s : b = true → Q () s → wp c (debug_assert b) Q s.
Proof. by intros ->. Qed.

Lemma wp_cpu Q s : Q c s → wp c arch_curr_cpu_num Q s.
Proof. done. Qed.

Lemma wp_get_thread t th Q s : threads s !! t = Some th → Q th s → wp c (get_thread t) Q s.
Proof. unfold wp, get_thread. by intros ->. Qed.

Lemma wp_put_thread t th Q s :
  Q () (set_threads (<[t := th]> (threads s)) s) → wp c (put_thread t th) Q s.
Proof. done. Qed.

Lemma wp_mod_thread t th f Q s :
  threads s !! t = Some th → Q () (set_threads (<[t := f th]> (threads s)) s) →
  wp c (mod_thread t f) Q s.
Proof. unfold wp, mod_thread, mbind, M_bind, get_thread. by intros ->. Qed.

Lemma wp_get_wait_queue w wq Q s :
  wait_queues s !! w = Some wq → Q wq s → wp c (get_wait_queue w) Q s.
Proof. unfold wp, get_wait_queue. by intros ->. Qed.

Lemma wp_put_wait_queue w wq Q s :
  Q () (set_wait_queues (<[w := wq]> (wait_queues s)) s) → wp c (put_wait_queue w wq) Q s.
Proof. done. Qed.

Lemma wp_get_timer t tm Q s : timers s !! t = Some tm → Q tm s → wp c (get_timer t) Q s.
Proof. unfold wp, get_timer. by intros ->. Qed.

Lemma wp_put_timer t tm Q s :
  Q () (set_timers (<[t := tm]> (timers s)) s) → wp c (put_timer t tm) Q s.
Proof. done. Qed.

Lemma wp_get_current_thread t Q s :
  current s !! c = Some t → Q t s → wp c get_current_thread Q s.
Proof. unfold wp, get_current_thread. by intros ->. Qed.

Lemma wp_set_current_thread t Q s :
  Q () (set_current (<[c := t]> (current s)) s) → wp c (set_current_thread t) Q s.
Proof. done. Qed.

Lemma wp_on_queues f p Q s : f (queues s) = Ok p → Q () (set_queues p s) → wp c (on_queues f) Q s.
Proof. unfold wp, on_queues. by intros ->. Qed.

Lemma wp_on_thread_list f p Q s :
  f (thread_list s) = Ok p → Q () (set_thread_list p s) → wp c (on_thread_list f) Q s.
Proof. unfold wp, on_thread_list. by intros ->. Qed.

Lemma wp_on_timer_queue f p Q s :
  f (timer_queue s) = Ok p → Q () (set_timer_queue p s) → wp c (on_timer_queue f) Q s.
Proof. unfold wp, on_timer_queue. by intros ->. Qed.

Lemma wp_pop_queue f r p Q s :
  f (queues s) = Ok (r, p) → Q r (set_queues p s) → wp c (pop_queue f) Q s.
Proof. unfold wp, pop_queue. by intros ->. Qed.

End wp_rules.

(** One step of symbolic execution. *)
Ltac wp_step :=
  match goal with
  | |- wp _ (mbind _ _) _ _ => apply wp_bind
  | |- wp _ (mret _) _ _ => apply wp_ret
  | |- wp _ (gets _) _ _ => apply wp_gets
  | |- wp _ (modify _) _ _ => apply wp_modify
  | |- wp _ arch_curr_cpu_num _ _ => apply wp_cpu
  | |- wp _ (debug_assert _) _ _ => apply wp_debug_assert
  | |- wp _ (get_thread _) _ _ => eapply wp_get_thread
  | |- wp _ (put_thread _ _) _ _ => apply wp_put_thread
  | |- wp _ (mod_thread _ _) _ _ => eapply wp_mod_thread
  | |- wp _ (get_wait_queue _) _ _ => eapply wp_get_wait_queue
  | |- wp _ (put_wait_queue _ _) _ _ => apply wp_put_wait_queue
  | |- wp _ (get_timer _) _ _ => eapply wp_get_timer
  | |- wp _ (put_timer _ _) _ _ => apply wp_put_timer
  | |- wp _ get_current_thread _ _ => eapply wp_get_current_thread
  | |- wp _ (set_current_thread _) _ _ => apply wp_set_current_thread
  end; cbn beta.
