(* ===== verification/Mp.v ===== *)
(** Cpu masks and interprocessor reschedule requests: [kernel/mp.c] and the
    inline functions of [kernel/include/kernel/mp.h]. *)
From stdpp Require Import prelude gmap.
From S2P Require Import Prelude Pow2 IntrusiveList KState.

#[local] Open Scope Z_scope.

Inductive mp_ipi_target :=
| MP_IPI_TARGET_MASK
| MP_IPI_TARGET_ALL
| MP_IPI_TARGET_ALL_BUT_LOCAL.

Definition MP_RESCHEDULE_FLAG_REALTIME : Z := 1.

(** [1U << cpu] *)
Definition cpu_bit (cpu : nat) : Z := bit (Z.of_nat cpu).

(** [x & ~(1U << cpu)] *)
Definition mask_clear (x : Z) (cpu : nat) : Z := clear_bit x (Z.of_nat cpu).

Definition mp_is_cpu_active (s : kstate) (cpu : nat) : bool := has_flag (active_cpus (mp s)) (cpu_bit cpu).
Definition mp_get_active_mask (s : kstate) : Z := active_cpus (mp s).
Definition mp_is_cpu_idle (s : kstate) (cpu : nat) : bool := has_flag (idle_cpus (mp s)) (cpu_bit cpu).
Definition mp_get_idle_mask (s : kstate) : Z := idle_cpus (mp s).
Definition mp_get_realtime_mask (s : kstate) : Z := realtime_cpus (mp s).

Definition mod_mp (f : mp_state → mp_state) : M unit := modify (λ s, set_mp (f (mp s)) s).

Definition mp_set_cpu_idle (cpu : nat) : M unit :=
  mod_mp (λ m, mk_mp (active_cpus m) (Z.lor (idle_cpus m) (cpu_bit cpu)) (realtime_cpus m)).
Definition mp_set_cpu_busy (cpu : nat) : M unit :=
  mod_mp (λ m, mk_mp (active_cpus m) (mask_clear (idle_cpus m) cpu) (realtime_cpus m)).
Definition mp_set_cpu_realtime (cpu : nat) : M unit :=
  mod_mp (λ m, mk_mp (active_cpus m) (idle_cpus m) (Z.lor (realtime_cpus m) (cpu_bit cpu))).
Definition mp_set_cpu_non_realtime (cpu : nat) : M unit :=
  mod_mp (λ m, mk_mp (active_cpus m) (idle_cpus m) (mask_clear (realtime_cpus m) cpu)).

Definition mp_set_curr_cpu_active (active : bool) : M unit :=
  cpu ← arch_curr_cpu_num;
  if active
  then mod_mp (λ m, mk_mp (Z.lor (active_cpus m) (cpu_bit cpu)) (idle_cpus m) (realtime_cpus m))
  else mod_mp (λ m, mk_mp (mask_clear (active_cpus m) cpu) (idle_cpus m) (realtime_cpus m)).

Definition mp_target_to_mask (target : mp_ipi_target) (mask : Z) (local_cpu : nat) : Z :=
  match target with
  | MP_IPI_TARGET_MASK => mask
  | MP_IPI_TARGET_ALL => 2 ^ 32 - 1
  | MP_IPI_TARGET_ALL_BUT_LOCAL => mask_clear (2 ^ 32 - 1) local_cpu
  end.

Definition arch_mp_send_ipi (cpus : Z) (ipi : mp_ipi) : M unit :=
  modify (λ s, set_ipis ((cpus, ipi) :: ipis s) s).

(** The cpus [mp_reschedule] signals. *)
Definition mp_reschedule_mask (target : mp_ipi_target) (mask flags : Z) (local_cpu : nat)
    (m : mp_state) : Z :=
  let cpus := Z.land (mp_target_to_mask target mask local_cpu) (active_cpus m) in
  let cpus := if Z.land flags MP_RESCHEDULE_FLAG_REALTIME =? 0
              then Z.land cpus (Z.lnot (realtime_cpus m)) else cpus in
  mask_clear cpus local_cpu.

Definition mp_reschedule (target : mp_ipi_target) (mask flags : Z) : M unit :=
  local_cpu ← arch_curr_cpu_num;
  m ← gets mp;
  let cpus := mp_reschedule_mask target mask flags local_cpu m in
  if cpus =? 0 then mret () else arch_mp_send_ipi cpus MP_IPI_RESCHEDULE.

Definition mp_mbx_reschedule_irq : M handler_return :=
  cpu ← arch_curr_cpu_num;
  s ← gets id;
  mret (if mp_is_cpu_active s cpu then INT_RESCHEDULE else INT_NO_RESCHEDULE).

(** * Lemmas *)

Lemma mask_clear_testbit x cpu i :
  0 ≤ i → Z.testbit (mask_clear x cpu) i = Z.testbit x i && negb (Z.of_nat cpu =? i).
Proof. intros. unfold mask_clear. apply clear_bit_testbit; lia. Qed.

(** What [mp_reschedule] signals, cpu by cpu. *)
Lemma mp_reschedule_mask_testbit target mask flags local m (cpu : nat) :
  (cpu < 32)%nat →
  Z.testbit (mp_reschedule_mask target mask flags local m) (Z.of_nat cpu) =
    match target with MP_IPI_TARGET_MASK => Z.testbit mask (Z.of_nat cpu) | _ => true end
    && Z.testbit (active_cpus m) (Z.of_nat cpu)
    && (negb (Z.land flags MP_RESCHEDULE_FLAG_REALTIME =? 0)
        || negb (Z.testbit (realtime_cpus m) (Z.of_nat cpu)))
    && negb (Nat.eqb local cpu).
Proof.
  intros Hc. unfold mp_reschedule_mask. cbv zeta. rewrite mask_clear_testbit by lia.
  assert ((Z.of_nat local =? Z.of_nat cpu) = Nat.eqb local cpu) as ->.
  { destruct (Nat.eqb_spec local cpu) as [->|]; [apply Z.eqb_refl|apply Z.eqb_neq; lia]. }
  assert (Z.testbit (mp_target_to_mask target mask local) (Z.of_nat cpu) && negb (Nat.eqb local cpu)
    = match target with MP_IPI_TARGET_MASK => Z.testbit mask (Z.of_nat cpu) | _ => true end
      && negb (Nat.eqb local cpu)) as Ht.
  { destruct target; simpl; [done| |].
    - change (2 ^ 32 - 1) with (Z.ones 32). rewrite Z.ones_spec_low by lia. done.
    - rewrite mask_clear_testbit by lia. change (2 ^ 32 - 1) with (Z.ones 32).
      rewrite Z.ones_spec_low by lia.
      destruct (Nat.eqb_spec local cpu) as [->|]; [by rewrite Z.eqb_refl|].
      by replace (Z.of_nat local =? Z.of_nat cpu) with false by (symmetry; apply Z.eqb_neq; lia). }
  destruct (Z.land flags MP_RESCHEDULE_FLAG_REALTIME =? 0) eqn:Ef;
    rewrite ?Z.land_spec, ?Z.lnot_spec by lia;
    destruct (Nat.eqb local cpu); rewrite ?andb_false_r, ?andb_true_r in *; try done;
    rewrite ?Ht; simpl; rewrite ?andb_true_r; done.
Qed.
