(* ===== verification/MpSync.v ===== *)
(** Running a function on other cpus: [mp_sync_exec] and the generic interrupt of
    [kernel/mp.c].

    A call of [mp_sync_exec] puts one task per remote cpu on the queues of these
    cpus, signals them, runs the function itself if its own cpu is a target, and
    spins until every target has let go.  The tasks and the count of outstanding
    ones are on the stack of the call: a call that has returned is gone from
    [frames], and touching it is a fault.

    Each cpu has a program counter; a step is what a cpu does between two points at
    which the others can see it: a section under [mp_sync_lock], the signal, one run
    of the function, one atomic decrement.  A run of the function is an entry of
    [ran].  The thread that called may be moved to another cpu while it spins, so
    its return is a step of its own. *)
From stdpp Require Import prelude gmap.
From S2P Require Import Prelude Pow2 IntrusiveList KState Mp.

#[local] Open Scope Z_scope.

(** * State *)

(** [__builtin_popcount] *)
Definition popcount (m : Z) : Z := Z.of_nat (length (filter (λ i, Z.testbit m (Z.of_nat i) = true) (seq 0 32))).

#[global] Arguments popcount : simpl never.

(** A call: what it was asked to run, its targets, the tasks that are outstanding
    and whether it has come to its loop. *)
Record frame := mk_frame {
  fr_fn : nat;
  fr_context : Z;
  fr_cpus : Z;
  fr_outstanding : Z;
  fr_waiting : bool;
}.

(** Where a cpu is: in thread code with interrupts on or off; in a call that has
    queued its tasks, or has sent the signal; in the interrupt handler, before it
    takes a task, before it runs one, and before it lets go of one. *)
Inductive cpu_pc :=
| InThread (ints : bool)
| Queued (f : nat) (remote : Z) (ints : bool)
| Sent (f : nat) (ints : bool)
| InIrq
| Took (f : nat)
| Done (f : nat).

Record mp_sync := mk_sync {
  mp_sync_queue : list (list nat);
  frames : gmap nat frame;
  pcs : list cpu_pc;
  pending : Z;
  active : Z;
  ran : list (nat * nat * nat * Z);
  next_frame : nat;
}.

Section updates.
Implicit Types (s : mp_sync).
Definition set_queue (q : list (list nat)) s := mk_sync q (frames s) (pcs s) (pending s) (active s) (ran s) (next_frame s).
Definition set_frames (fs : gmap nat frame) s := mk_sync (mp_sync_queue s) fs (pcs s) (pending s) (active s) (ran s) (next_frame s).
Definition set_pc (c : nat) (pc : cpu_pc) s := mk_sync (mp_sync_queue s) (frames s) (<[c := pc]> (pcs s)) (pending s) (active s) (ran s) (next_frame s).
Definition set_pending (p : Z) s := mk_sync (mp_sync_queue s) (frames s) (pcs s) p (active s) (ran s) (next_frame s).
Definition set_active (a : Z) s := mk_sync (mp_sync_queue s) (frames s) (pcs s) (pending s) a (ran s) (next_frame s).
Definition add_run (f c : nat) (fr : frame) s :=
  mk_sync (mp_sync_queue s) (frames s) (pcs s) (pending s) (active s) ((f, c, fr_fn fr, fr_context fr) :: ran s) (next_frame s).
Definition new_frame (fr : frame) s :=
  mk_sync (mp_sync_queue s) (<[next_frame s := fr]> (frames s)) (pcs s) (pending s) (active s) (ran s) (S (next_frame s)).
End updates.

Definition set_outstanding (n : Z) (fr : frame) : frame := mk_frame (fr_fn fr) (fr_context fr) (fr_cpus fr) n (fr_waiting fr).
Definition set_waiting (fr : frame) : frame := mk_frame (fr_fn fr) (fr_context fr) (fr_cpus fr) (fr_outstanding fr) true.

(** * The code *)

(** [mp_init] on [n] cpus. *)
Definition mp_init (n : nat) : list (list nat) := replicate n [].

(** The loop of [mp_sync_exec] under the lock. *)
Fixpoint queue_loop (fuel : nat) (f : nat) (m : Z) (q : list (list nat)) : res (list (list nat)) :=
  match fuel with
  | O => Fault OutOfFuel
  | S fuel =>
      if m =? 0 then Ok q else
      let cpu := Z.to_nat (ctzl m) in
      l ← of_option BadAccess (q !! cpu);
      queue_loop fuel f (mask_clear m cpu) (<[cpu := l ++ [f]]> q)
  end.

(** [mp_sync_exec] on cpu [c] up to the end of its section under the lock. *)
Definition mp_sync_exec_queue (c : nat) (ints_were_disabled : bool) (target : mp_ipi_target) (mask : Z) (fn : nat) (context : Z)
    (s : mp_sync) : res mp_sync :=
  let cpus := Z.land (mp_target_to_mask target mask c) (active s) in
  let remote := mask_clear cpus c in
  let f := next_frame s in
  if negb (remote =? 0) then
    _ ← assert_ (negb ints_were_disabled);
    q ← queue_loop 33 f remote (mp_sync_queue s);
    Ok (set_pc c (Queued f remote (negb ints_were_disabled))
      (new_frame (mk_frame fn context cpus (popcount remote) false) (set_queue q s)))
  else Ok (set_pc c (Sent f (negb ints_were_disabled)) (new_frame (mk_frame fn context cpus 0 false) s)).

(** [arch_mp_send_ipi(remote, MP_IPI_GENERIC)] *)
Definition mp_sync_exec_send (c f : nat) (remote : Z) (ints : bool) (s : mp_sync) : mp_sync :=
  set_pc c (Sent f ints) (set_pending (Z.lor (pending s) remote) s).

(** The run of the function on the own cpu and the end of the section without
    interrupts. *)
Definition mp_sync_exec_local (c f : nat) (ints : bool) (s : mp_sync) : res mp_sync :=
  fr ← of_option BadAccess (frames s !! f);
  let s := if has_flag (fr_cpus fr) (cpu_bit c) then add_run f c fr s else s in
  Ok (set_pc c (InThread ints) (set_frames (<[f := set_waiting fr]> (frames s)) s)).

(** The end of the spin loop; [None] while it goes on. *)
Definition mp_sync_exec_return (f : nat) (s : mp_sync) : option mp_sync :=
  fr ← frames s !! f;
  if fr_waiting fr && (fr_outstanding fr =? 0) then Some (set_frames (delete f (frames s)) s) else None.

(** The interrupt arrives. *)
Definition mp_mbx_generic_irq (c : nat) (s : mp_sync) : mp_sync := set_pc c InIrq (set_pending (mask_clear (pending s) c) s).

(** One turn of its loop: the next task, or the end. *)
Definition generic_irq_take (c : nat) (s : mp_sync) : res mp_sync :=
  l ← of_option BadAccess (mp_sync_queue s !! c);
  match l with
  | [] => Ok (set_pc c (InThread true) s)
  | f :: l =>
      _ ← of_option BadAccess (frames s !! f);
      Ok (set_pc c (Took f) (set_queue (<[c := l]> (mp_sync_queue s)) s))
  end.

Definition generic_irq_run (c f : nat) (s : mp_sync) : res mp_sync :=
  fr ← of_option BadAccess (frames s !! f);
  Ok (set_pc c (Done f) (add_run f c fr s)).

Definition generic_irq_done (c f : nat) (s : mp_sync) : res mp_sync :=
  fr ← of_option BadAccess (frames s !! f);
  Ok (set_pc c InIrq (set_frames (<[f := set_outstanding (fr_outstanding fr - 1) fr]> (frames s)) s)).

(** What a cpu does next when it is not in thread code. *)
Definition run_cpu (c : nat) (s : mp_sync) : res mp_sync :=
  pc ← of_option BadAccess (pcs s !! c);
  match pc with
  | InThread _ => Ok s
  | Queued f remote ints => Ok (mp_sync_exec_send c f remote ints s)
  | Sent f ints => mp_sync_exec_local c f ints s
  | InIrq => generic_irq_take c s
  | Took f => generic_irq_run c f s
  | Done f => generic_irq_done c f s
  end.

(** * Steps *)

(** What the code does by itself.  A cpu that has interrupts off in thread code
    turns them on at some time. *)
Inductive kernel_step (s : mp_sync) : mp_sync → Prop :=
| step_enable c : pcs s !! c = Some (InThread false) → kernel_step s (set_pc c (InThread true) s)
| step_irq c :
    pcs s !! c = Some (InThread true) → Z.testbit (pending s) (Z.of_nat c) = true → kernel_step s (mp_mbx_generic_irq c s)
| step_cpu c pc s' : pcs s !! c = Some pc → (∀ b, pc ≠ InThread b) → run_cpu c s = Ok s' → kernel_step s s'
| step_return f s' : mp_sync_exec_return f s = Some s' → kernel_step s s'.

(** The contract of [mp_sync_exec]: a call that waits for other cpus has
    interrupts on. *)
Definition may_call (c : nat) (ints : bool) (target : mp_ipi_target) (mask : Z) (s : mp_sync) : Prop :=
  ints = true ∨ mask_clear (Z.land (mp_target_to_mask target mask c) (active s)) c = 0.

(** What threads do: call, turn interrupts off, and bring their cpu up. *)
Inductive client_step (s : mp_sync) : mp_sync → Prop :=
| client_call c ints target mask fn context s' :
    pcs s !! c = Some (InThread ints) → may_call c ints target mask s →
    mp_sync_exec_queue c (negb ints) target mask fn context s = Ok s' → client_step s s'
| client_disable c : pcs s !! c = Some (InThread true) → client_step s (set_pc c (InThread false) s)
| client_up c ints : pcs s !! c = Some (InThread ints) → client_step s (set_active (set_bit (active s) (Z.of_nat c)) s).

Definition boot_sync (n : nat) : mp_sync := mk_sync (mp_init n) ∅ (replicate n (InThread false)) 0 0 [] 0.

Inductive sync_reach (n : nat) : mp_sync → Prop :=
| sync_boot : sync_reach n (boot_sync n)
| sync_kernel s s' : sync_reach n s → kernel_step s s' → sync_reach n s'
| sync_client s s' : sync_reach n s → client_step s s' → sync_reach n s'.

(** * The invariant *)

(** What a cpu has to do with a call. *)
Inductive role := RNone | RCaller | RTook | RDone.

Definition role_of (pc : cpu_pc) (f : nat) : role :=
  match pc with
  | Queued g _ _ | Sent g _ => if decide (g = f) then RCaller else RNone
  | Took g => if decide (g = f) then RTook else RNone
  | Done g => if decide (g = f) then RDone else RNone
  | _ => RNone
  end.

Definition role_at (s : mp_sync) (f c : nat) : role := match pcs s !! c with Some pc => role_of pc f | None => RNone end.
Definition in_queue (s : mp_sync) (f c : nat) : bool := match mp_sync_queue s !! c with Some l => bool_decide (f ∈ l) | None => false end.
Definition runs (s : mp_sync) (f c : nat) : nat := length (filter (λ e, e.1.1 = (f, c)) (ran s)).

Definition is_target (fr : frame) (c : nat) : bool := Z.testbit (fr_cpus fr) (Z.of_nat c).

Definition holder (r : role) : bool := match r with RTook | RDone => true | _ => false end.
Definition to_run (target : bool) (r : role) : bool := match r with RTook => true | RCaller => target | _ => false end.

(** How many of the first [n] cpus. *)
Definition count (P : nat → bool) (n : nat) : nat := length (filter (λ c, P c = true) (seq 0 n)).

#[global] Arguments count : simpl never.

(** A call, seen from the queues, the cpus and the runs.  Each task that is not
    finished is on a queue or with a cpu; each target has run the function or will
    run it, once. *)
Record frame_ok (n : nat) (q : nat → bool) (r : nat → role) (k : nat → nat) (fr : frame) : Prop := {
  fo_out : fr_outstanding fr = Z.of_nat (count (λ c, q c || holder (r c)) n);
  fo_runs : ∀ c, (c < n)%nat → (k c + Nat.b2n (q c) + Nat.b2n (to_run (is_target fr c) (r c)) = Nat.b2n (is_target fr c))%nat;
  fo_caller : if fr_waiting fr then ∀ c, r c ≠ RCaller else ∃ c, (c < n)%nat ∧ r c = RCaller ∧ ∀ c', r c' = RCaller → c' = c;
  fo_excl : ∀ c, q c = true → holder (r c) = false;
  fo_range : 0 ≤ fr_cpus fr < 2 ^ Z.of_nat n;
}.

Definition handling (pc : cpu_pc) : Prop := match pc with InIrq | Took _ | Done _ => True | _ => False end.

(** A cpu with tasks was signalled or will be, or is taking them. *)
Definition signalled (s : mp_sync) (c : nat) : Prop :=
  Z.testbit (pending s) (Z.of_nat c) = true ∨
  (∃ pc, pcs s !! c = Some pc ∧ handling pc) ∨
  ∃ c' f remote ints, pcs s !! c' = Some (Queued f remote ints) ∧ Z.testbit remote (Z.of_nat c) = true.

Record sync_inv (n : nat) (s : mp_sync) : Prop := {
  si_cpus : (n ≤ 32)%nat;
  si_queues : length (mp_sync_queue s) = n;
  si_pcs : length (pcs s) = n;
  si_active : 0 ≤ active s < 2 ^ Z.of_nat n;
  si_nodup : ∀ c l, mp_sync_queue s !! c = Some l → NoDup l;
  si_live_q : ∀ f c, in_queue s f c = true → is_Some (frames s !! f);
  si_live_r : ∀ f c, role_at s f c ≠ RNone → is_Some (frames s !! f);
  si_frame : ∀ f fr, frames s !! f = Some fr → frame_ok n (in_queue s f) (role_at s f) (runs s f) fr;
  si_next : ∀ f, is_Some (frames s !! f) ∨ (∃ c, runs s f c ≠ 0%nat) → (f < next_frame s)%nat;
  si_what : ∀ f fr c fn ctx, frames s !! f = Some fr → (f, c, fn, ctx) ∈ ran s → fn = fr_fn fr ∧ ctx = fr_context fr;
  si_ipi : ∀ c l, mp_sync_queue s !! c = Some l → l ≠ [] → signalled s c;
}.

Section counts.
Implicit Types (P : nat → bool).

Lemma count_S P n : count P (S n) = (count P n + Nat.b2n (P n))%nat.
Proof.
  unfold count. rewrite seq_S, filter_app, length_app. f_equal. rewrite filter_cons, filter_nil. simpl. by destruct (P n).
Qed.

Lemma count_ext P P' n : (∀ c, (c < n)%nat → P c = P' c) → count P n = count P' n.
Proof. intros H. induction n as [|n IH]; [done|]. rewrite !count_S, IH, H by auto with lia. done. Qed.

Lemma count_le P n : (count P n ≤ n)%nat.
Proof. induction n as [|n IH]; [done|]. rewrite count_S. destruct (P n); simpl; lia. Qed.

Lemma count_change P P' c n :
  (c < n)%nat → (∀ c', c' ≠ c → P' c' = P c') → (count P' n + Nat.b2n (P c) = count P n + Nat.b2n (P' c))%nat.
Proof.
  intros Hc H. induction n as [|n IH]; [lia|]. rewrite !count_S. destruct (decide (c = n)) as [->|Hne].
  - rewrite (count_ext P' P n); [lia|]. intros c' Hc'. apply H. lia.
  - rewrite (H n) by done. lia.
Qed.

Lemma count_zero P n c : count P n = 0%nat → (c < n)%nat → P c = false.
Proof.
  induction n as [|n IH]; [lia|]. rewrite count_S. intros H Hc. destruct (decide (c = n)) as [->|]; [destruct (P n); simpl in *; [lia|done]|].
  apply IH; lia.
Qed.
End counts.

(** ** Calls under local changes *)

Lemma frame_ok_ext n q r k q' r' k' fr :
  (∀ c, q' c = q c) → (∀ c, r' c = r c) → (∀ c, k' c = k c) → frame_ok n q r k fr → frame_ok n q' r' k' fr.
Proof.
  intros Hq Hr Hk [H1 H2 H3 H4 H5]. split; [|..|done].
  - rewrite H1. f_equal. apply count_ext. intros c _. by rewrite Hq, Hr.
  - intros c Hc. rewrite Hq, Hr, Hk. auto.
  - destruct (fr_waiting fr); [intros c; by rewrite Hr|]. destruct H3 as (c & ? & ? & H3). exists c. rewrite Hr. split_and!; [done..|].
    intros c'. rewrite Hr. auto.
  - intros c. rewrite Hq, Hr. auto.
Qed.

(** One cpu moves, and the call changes with it. *)
Lemma frame_ok_at n q r k q' r' k' fr fr' c :
  frame_ok n q r k fr → (c < n)%nat → (∀ c', c' ≠ c → q' c' = q c' ∧ r' c' = r c' ∧ k' c' = k c') →
  fr_cpus fr' = fr_cpus fr →
  fr_outstanding fr' + Z.b2z (q c || holder (r c)) = fr_outstanding fr + Z.b2z (q' c || holder (r' c)) →
  (k' c + Nat.b2n (q' c) + Nat.b2n (to_run (is_target fr c) (r' c)) = k c + Nat.b2n (q c) + Nat.b2n (to_run (is_target fr c) (r c)))%nat →
  (if fr_waiting fr' then r' c ≠ RCaller ∧ (fr_waiting fr = false → r c = RCaller) else fr_waiting fr = false ∧ (r' c = RCaller ↔ r c = RCaller)) →
  (q' c = true → holder (r' c) = false) → frame_ok n q' r' k' fr'.
Proof.
  intros [H1 H2 H3 H4 H5] Hc Hoth Ecpus Eout Eruns Hcaller Hexcl.
  assert (∀ c', is_target fr' c' = is_target fr c') as Et by (intros; unfold is_target; by rewrite Ecpus). split.
  - pose proof (count_change (λ c, q c || holder (r c)) (λ c, q' c || holder (r' c)) c n Hc) as Hch. cbv beta in Hch.
    lapply Hch; [clear Hch; intros Hch|intros c' Hne; by destruct (Hoth c' Hne) as (-> & -> & _)].
    destruct (q c || holder (r c)), (q' c || holder (r' c)); simpl in *; lia.
  - intros c' Hc'. rewrite Et. destruct (decide (c' = c)) as [->|Hne]; [by rewrite Eruns; apply H2|].
    destruct (Hoth c' Hne) as (-> & -> & ->). auto.
  - destruct (fr_waiting fr').
    + intros c'. destruct (decide (c' = c)) as [->|Hne]; [apply Hcaller|]. destruct (Hoth c' Hne) as (_ & -> & _).
      destruct (fr_waiting fr); [done|]. destruct H3 as (c0 & _ & _ & Hu). intros E. apply Hne. rewrite (Hu c' E). symmetry. by apply Hu, Hcaller.
    + destruct Hcaller as [Hw Hiff]. rewrite Hw in H3. destruct H3 as (c0 & Hc0 & Hr0 & Hu).
      assert (∀ c', r' c' = RCaller ↔ r c' = RCaller) as Hall.
      { intros c'. destruct (decide (c' = c)) as [->|Hne]; [done|]. by destruct (Hoth c' Hne) as (_ & -> & _). }
      exists c0. split_and!; [done|by apply Hall|]. intros c' ?%Hall. auto.
  - intros c'. destruct (decide (c' = c)) as [->|Hne]; [done|]. destruct (Hoth c' Hne) as (-> & -> & _). auto.
  - by rewrite Ecpus.
Qed.

(** ** The views under updates *)

Lemma role_at_insert s s' c pc f c' :
  (c < length (pcs s))%nat → pcs s' = <[c := pc]> (pcs s) → role_at s' f c' = if decide (c' = c) then role_of pc f else role_at s f c'.
Proof.
  intros Hc E. unfold role_at. rewrite E. destruct (decide (c' = c)) as [->|Hne]; [by rewrite list_lookup_insert_eq|].
  by rewrite list_lookup_insert_ne by done.
Qed.

Lemma in_queue_insert s s' c l f c' :
  (c < length (mp_sync_queue s))%nat → mp_sync_queue s' = <[c := l]> (mp_sync_queue s) →
  in_queue s' f c' = if decide (c' = c) then bool_decide (f ∈ l) else in_queue s f c'.
Proof.
  intros Hc E. unfold in_queue. rewrite E. destruct (decide (c' = c)) as [->|Hne]; [by rewrite list_lookup_insert_eq|].
  by rewrite list_lookup_insert_ne by done.
Qed.

Lemma runs_add s s' f0 c fn ctx (b : bool) f c' :
  ran s' = (if b then (f0, c, fn, ctx) :: ran s else ran s) →
  runs s' f c' = (runs s f c' + if decide ((f, c') = (f0, c)) then Nat.b2n b else 0)%nat.
Proof.
  intros E. unfold runs. rewrite E. destruct b; simpl; [|by destruct (decide _); rewrite Nat.add_0_r].
  rewrite filter_cons. simpl. destruct (decide ((f0, c) = (f, c'))) as [[= -> ->]|Hne].
  - rewrite decide_True by done. simpl. lia.
  - rewrite decide_False by congruence. lia.
Qed.

(** A cpu moves; a signal it has to send is sent. *)
Lemma signalled_move s s' c c' pc0 pc1 :
  signalled s c' → pcs s !! c = Some pc0 → pcs s' = <[c := pc1]> (pcs s) →
  (Z.testbit (pending s) (Z.of_nat c') = true → Z.testbit (pending s') (Z.of_nat c') = true) →
  (c' = c → handling pc0 → handling pc1) →
  (∀ f remote ints, pc0 = Queued f remote ints → Z.testbit remote (Z.of_nat c') = true → Z.testbit (pending s') (Z.of_nat c') = true) →
  signalled s' c'.
Proof.
  intros Hs Hc Ep Hpend Hh Hq. pose proof (lookup_lt_Some _ _ _ Hc) as Hlt. destruct Hs as [H|[(pc & Hpc & H)|(c2 & f & remote & ints & H2 & Hb)]].
  - left. auto.
  - right. left. rewrite Ep. destruct (decide (c' = c)) as [->|Hne].
    + exists pc1. rewrite list_lookup_insert_eq by done. split; [done|]. apply Hh; [done|]. by assert (pc0 = pc) as -> by congruence.
    + exists pc. by rewrite list_lookup_insert_ne.
  - destruct (decide (c2 = c)) as [->|Hne].
    + left. apply (Hq f remote ints); [congruence|done].
    + right. right. exists c2, f, remote, ints. rewrite Ep. by rewrite list_lookup_insert_ne.
Qed.

(** A cpu that has nothing to do with a call goes on to a point of the same kind. *)
Lemma sync_inv_pc n s s' c pc0 pc1 :
  sync_inv n s → pcs s !! c = Some pc0 → (∀ f, role_of pc0 f = RNone) → (∀ f, role_of pc1 f = RNone) →
  pcs s' = <[c := pc1]> (pcs s) → mp_sync_queue s' = mp_sync_queue s → frames s' = frames s → active s' = active s → ran s' = ran s →
  next_frame s' = next_frame s → (∀ c l, mp_sync_queue s !! c = Some l → l ≠ [] → signalled s' c) → sync_inv n s'.
Proof.
  intros [H1 H2 H3 H4 H5 H6 H7 H8 H9 H10 H11] Hc R0 R1 Ep Eq Ef Ea Er En Hs.
  assert (∀ f c', role_at s' f c' = role_at s f c') as Hr.
  { intros f c'. rewrite (role_at_insert s s' c pc1) by (done || by eapply lookup_lt_Some). destruct (decide (c' = c)) as [->|]; [|done].
    rewrite R1. unfold role_at. by rewrite Hc, R0. }
  assert (∀ f c', in_queue s' f c' = in_queue s f c') as Hq by (intros; unfold in_queue; by rewrite Eq).
  assert (∀ f c', runs s' f c' = runs s f c') as Hk by (intros; unfold runs; by rewrite Er).
  split; rewrite ?Eq, ?Ep, ?Ef, ?Ea, ?Er, ?En, ?length_insert; try done.
  - intros f c'. rewrite Hq. apply H6.
  - intros f c'. rewrite Hr. apply H7.
  - intros f fr Hf. eapply frame_ok_ext; [..|by apply H8]; auto.
  - intros f [?|[c' Hc']]; apply H9; [by left|right; exists c'; by rewrite <- Hk].
Qed.

(** A cpu goes on with call [f0]. *)
Lemma sync_inv_move n s s' c pc0 pc1 l0 l1 f0 fr0 fr1 (b : bool) :
  sync_inv n s → pcs s !! c = Some pc0 → mp_sync_queue s !! c = Some l0 → frames s !! f0 = Some fr0 →
  pcs s' = <[c := pc1]> (pcs s) → mp_sync_queue s' = <[c := l1]> (mp_sync_queue s) → frames s' = <[f0 := fr1]> (frames s) →
  active s' = active s → next_frame s' = next_frame s →
  ran s' = (if b then (f0, c, fr_fn fr0, fr_context fr0) :: ran s else ran s) →
  fr_fn fr1 = fr_fn fr0 → fr_context fr1 = fr_context fr0 → fr_cpus fr1 = fr_cpus fr0 → NoDup l1 →
  (∀ f, f ≠ f0 → role_of pc1 f = role_of pc0 f ∧ (f ∈ l1 ↔ f ∈ l0)) →
  fr_outstanding fr1 + Z.b2z (bool_decide (f0 ∈ l0) || holder (role_of pc0 f0)) =
    fr_outstanding fr0 + Z.b2z (bool_decide (f0 ∈ l1) || holder (role_of pc1 f0)) →
  (Nat.b2n b + Nat.b2n (bool_decide (f0 ∈ l1)) + Nat.b2n (to_run (is_target fr0 c) (role_of pc1 f0)) =
    Nat.b2n (bool_decide (f0 ∈ l0)) + Nat.b2n (to_run (is_target fr0 c) (role_of pc0 f0)))%nat →
  (if fr_waiting fr1 then role_of pc1 f0 ≠ RCaller ∧ (fr_waiting fr0 = false → role_of pc0 f0 = RCaller)
   else fr_waiting fr0 = false ∧ (role_of pc1 f0 = RCaller ↔ role_of pc0 f0 = RCaller)) →
  (f0 ∈ l1 → holder (role_of pc1 f0) = false) →
  (∀ c l, mp_sync_queue s' !! c = Some l → l ≠ [] → signalled s' c) → sync_inv n s'.
Proof.
  intros [H1 H2 H3 H4 H5 H6 H7 H8 H9 H10 H11] Hc Hl Hf0 Ep Eq Ef Ea En Er E1 E2 E3 Hnd Hoth Eout Eruns Hcaller Hexcl Hs.
  pose proof (lookup_lt_Some _ _ _ Hc) as Hcp. pose proof (lookup_lt_Some _ _ _ Hl) as Hcq.
  assert (∀ f c', role_at s' f c' = if decide (c' = c) then role_of pc1 f else role_at s f c') as Hr by (intros; by apply role_at_insert).
  assert (∀ f c', in_queue s' f c' = if decide (c' = c) then bool_decide (f ∈ l1) else in_queue s f c') as Hq by (intros; by apply in_queue_insert).
  assert (∀ f c', runs s' f c' = (runs s f c' + if decide ((f, c') = (f0, c)) then Nat.b2n b else 0)%nat) as Hk by (intros; by eapply runs_add).
  assert (∀ f, role_at s f c = role_of pc0 f) as Hr0 by (intros; unfold role_at; by rewrite Hc).
  assert (∀ f, in_queue s f c = bool_decide (f ∈ l0)) as Hq0 by (intros; unfold in_queue; by rewrite Hl).
  assert (∀ f, is_Some (frames s' !! f) ↔ is_Some (frames s !! f)) as Hlive.
  { intros f. rewrite Ef, lookup_insert_is_Some'. split; [|by right]. intros [<-|?]; [by exists fr0|done]. }
  split; rewrite ?Eq, ?Ep, ?length_insert; try done.
  - by rewrite Ea.
  - intros c' l. destruct (decide (c' = c)) as [->|Hne]; [rewrite list_lookup_insert_eq by done; by intros [= <-]|].
    rewrite list_lookup_insert_ne by done. apply H5.
  - intros f c'. rewrite Hlive, Hq. destruct (decide (f = f0)) as [->|Hf]; [by exists fr0|]. destruct (decide (c' = c)) as [->|]; [|apply H6].
    rewrite bool_decide_eq_true. intros Hin. apply (H6 f c). rewrite Hq0. apply bool_decide_eq_true. by apply (Hoth f Hf).
  - intros f c'. rewrite Hlive, Hr. destruct (decide (f = f0)) as [->|Hf]; [by exists fr0|]. destruct (decide (c' = c)) as [->|]; [|apply H7].
    destruct (Hoth f Hf) as [-> _]. rewrite <- Hr0. apply H7.
  - intros f fr. rewrite Ef. intros Hf. apply lookup_insert_Some in Hf as [[<- <-]|[Hne Hf]].
    + apply (frame_ok_at n (in_queue s f0) (role_at s f0) (runs s f0) _ _ _ fr0 fr1 c); [by apply H8|lia| |done|..].
      * intros c' Hc'. rewrite Hr, Hq, Hk, !decide_False by congruence. split_and!; [done..|lia].
      * by rewrite Hr, Hq, Hr0, Hq0, !decide_True.
      * rewrite Hr, Hq, Hk, Hr0, Hq0, !decide_True by done. lia.
      * by rewrite Hr, Hr0, decide_True.
      * rewrite Hr, Hq, !decide_True by done. by rewrite bool_decide_eq_true.
    + eapply frame_ok_ext; [..|by apply H8].
      * intros c'. rewrite Hq. destruct (decide (c' = c)) as [->|]; [|done]. rewrite Hq0. apply bool_decide_ext. by apply Hoth.
      * intros c'. rewrite Hr. destruct (decide (c' = c)) as [->|]; [|done]. rewrite Hr0. by apply Hoth.
      * intros c'. rewrite Hk, decide_False by congruence. lia.
  - intros f Hf. rewrite En. apply H9. destruct Hf as [Hf|[c' Hc']]; [left; by apply Hlive|].
    rewrite Hk in Hc'. destruct (decide ((f, c') = (f0, c))) as [[= -> ->]|]; [left; by exists fr0|]. right. exists c'. lia.
  - intros f fr c' fn ctx. rewrite Ef. intros Hf Hin.
    assert (∀ fr', frames s !! f = Some fr' → (f, c', fn, ctx) ∈ ran s' → fn = fr_fn fr' ∧ ctx = fr_context fr') as Hold.
    { intros fr' Hf' Hin'. rewrite Er in Hin'. destruct b; [|by eapply H10]. apply elem_of_cons in Hin' as [[= -> -> -> ->]|?]; [|by eapply H10].
      assert (fr' = fr0) as -> by congruence. done. }
    apply lookup_insert_Some in Hf as [[<- <-]|[Hne Hf]]; [rewrite E1, E2|]; by apply Hold.
  - rewrite <- Eq. exact Hs.
Qed.

(** * Steps keep the invariant *)

Lemma inv_queue n s c pc : sync_inv n s → pcs s !! c = Some pc → ∃ l, mp_sync_queue s !! c = Some l ∧ NoDup l.
Proof.
  intros Hi Hc. destruct (lookup_lt_is_Some_2 (mp_sync_queue s) c) as [l Hl].
  - rewrite (si_queues _ _ Hi), <- (si_pcs _ _ Hi). by eapply lookup_lt_Some.
  - exists l. split; [done|]. by eapply si_nodup.
Qed.

Lemma inv_role n s c pc f : sync_inv n s → pcs s !! c = Some pc → role_of pc f ≠ RNone → ∃ fr, frames s !! f = Some fr.
Proof. intros Hi Hc Hr. apply (si_live_r _ _ Hi f c). unfold role_at. by rewrite Hc. Qed.

(** What the invariant says of a call at one cpu. *)
Lemma inv_frame_at n s c pc l f fr :
  sync_inv n s → pcs s !! c = Some pc → mp_sync_queue s !! c = Some l → frames s !! f = Some fr →
  (runs s f c + Nat.b2n (bool_decide (f ∈ l)) + Nat.b2n (to_run (is_target fr c) (role_of pc f)) = Nat.b2n (is_target fr c))%nat ∧
  (f ∈ l → holder (role_of pc f) = false) ∧ (role_of pc f = RCaller → fr_waiting fr = false).
Proof.
  intros Hi Hc Hl Hf. destruct (si_frame _ _ Hi f fr Hf) as [_ H2 H3 H4 _].
  assert (role_at s f c = role_of pc f) as Er by (unfold role_at; by rewrite Hc).
  assert (in_queue s f c = bool_decide (f ∈ l)) as Eq by (unfold in_queue; by rewrite Hl).
  split_and!.
  - rewrite <- Er, <- Eq. apply H2. rewrite <- (si_pcs _ _ Hi). by eapply lookup_lt_Some.
  - intros Hin. rewrite <- Er. apply H4. rewrite Eq. by apply bool_decide_eq_true.
  - intros E. destruct (fr_waiting fr); [|done]. rewrite <- Er in E. by destruct (H3 c).
Qed.

Lemma send_ok n s c f remote ints :
  sync_inv n s → pcs s !! c = Some (Queued f remote ints) → sync_inv n (mp_sync_exec_send c f remote ints s).
Proof.
  intros Hi Hc. destruct (inv_role n s c _ f Hi Hc) as [fr Hf]; [simpl; by rewrite decide_True|].
  destruct (inv_queue n s c _ Hi Hc) as (l & Hl & Hnd). destruct (inv_frame_at n s c _ l f fr Hi Hc Hl Hf) as (_ & Hex & Hw).
  simpl in Hw. rewrite decide_True in Hw by done. specialize (Hw eq_refl).
  apply (sync_inv_move n s _ c (Queued f remote ints) (Sent f ints) l l f fr fr false); simpl; try done.
  - by rewrite list_insert_id.
  - by rewrite insert_id.
  - rewrite Hw. by rewrite decide_True.
  - intros c' l' Hl' Hne. apply (signalled_move s _ c c' (Queued f remote ints) (Sent f ints)); try done; simpl.
    + by apply (si_ipi _ _ Hi c' l').
    + intros E. by rewrite Z.lor_spec, E.
    + intros g r i [= <- <- <-] E. by rewrite Z.lor_spec, E, orb_true_r.
Qed.

Lemma local_ok n s c f ints :
  sync_inv n s → pcs s !! c = Some (Sent f ints) → ∃ s', mp_sync_exec_local c f ints s = Ok s' ∧ sync_inv n s'.
Proof.
  intros Hi Hc. destruct (inv_role n s c _ f Hi Hc) as [fr Hf]; [simpl; by rewrite decide_True|].
  destruct (inv_queue n s c _ Hi Hc) as (l & Hl & Hnd). destruct (inv_frame_at n s c _ l f fr Hi Hc Hl Hf) as (Hrun & Hex & Hw).
  simpl in *. rewrite decide_True in * by done. simpl in *.
  unfold mp_sync_exec_local. rewrite Hf. cbn [of_option mbind res_bind]. eexists. split; [done|].
  assert (has_flag (fr_cpus fr) (cpu_bit c) = is_target fr c) as Et by (unfold cpu_bit; apply has_flag_bit; lia).
  apply (sync_inv_move n s _ c (Sent f ints) (InThread ints) l l f fr (set_waiting fr) (is_target fr c)); simpl; rewrite ?decide_True by done; try done.
  - by rewrite Et; destruct (is_target fr c).
  - rewrite list_insert_id by done. by rewrite Et; destruct (is_target fr c).
  - by rewrite Et; destruct (is_target fr c).
  - by rewrite Et; destruct (is_target fr c).
  - by rewrite Et; destruct (is_target fr c).
  - by rewrite Et; destruct (is_target fr c).
  - intros g Hg. by rewrite decide_False.
  - simpl. lia.
  - intros c' l' Hl' Hne. apply (signalled_move s _ c c' (Sent f ints) (InThread ints)); try done; simpl.
    + apply (si_ipi _ _ Hi c' l'); [|done]. revert Hl'. by rewrite Et; destruct (is_target fr c).
    + by rewrite Et; destruct (is_target fr c).
    + by rewrite Et; destruct (is_target fr c).
Qed.

Lemma take_ok n s c : sync_inv n s → pcs s !! c = Some InIrq → ∃ s', generic_irq_take c s = Ok s' ∧ sync_inv n s'.
Proof.
  intros Hi Hc. destruct (inv_queue n s c _ Hi Hc) as (l & Hl & Hnd). unfold generic_irq_take. rewrite Hl. cbn [of_option mbind res_bind].
  destruct l as [|f l].
  { eexists. split; [done|]. apply (sync_inv_pc n s _ c InIrq (InThread true)); try done. intros c' l' Hl' Hne.
    apply (signalled_move s _ c c' InIrq (InThread true)); try done; [by apply (si_ipi _ _ Hi c' l')|]. intros ->. congruence. }
  destruct (si_live_q _ _ Hi f c) as [fr Hf]; [unfold in_queue; rewrite Hl; apply bool_decide_eq_true; left|].
  rewrite Hf. cbn [of_option mbind res_bind]. eexists. split; [done|]. apply NoDup_cons in Hnd as [Hfl Hnd].
  apply (sync_inv_move n s _ c InIrq (Took f) (f :: l) l f fr fr false); simpl; rewrite ?decide_True by done; try done.
  - by rewrite insert_id.
  - intros g Hg. rewrite decide_False by done. split; [done|]. rewrite elem_of_cons. naive_solver.
  - rewrite (bool_decide_eq_true_2 (f ∈ f :: l)) by (by left). by rewrite (bool_decide_eq_false_2 (f ∈ l)).
  - rewrite (bool_decide_eq_true_2 (f ∈ f :: l)) by (by left). by rewrite (bool_decide_eq_false_2 (f ∈ l)).
  - destruct (si_frame _ _ Hi f fr Hf) as [_ _ H3 _ _]. by destruct (fr_waiting fr).
  - intros c' l' Hl' Hne. apply (signalled_move s _ c c' InIrq (Took f)); try done.
    destruct (decide (c' = c)) as [->|Hcc]; [by apply (si_ipi _ _ Hi c (f :: l))|]. rewrite list_lookup_insert_ne in Hl' by done. by apply (si_ipi _ _ Hi c' l').
Qed.

Lemma irq_run_ok n s c f : sync_inv n s → pcs s !! c = Some (Took f) → ∃ s', generic_irq_run c f s = Ok s' ∧ sync_inv n s'.
Proof.
  intros Hi Hc. destruct (inv_role n s c _ f Hi Hc) as [fr Hf]; [simpl; by rewrite decide_True|].
  destruct (inv_queue n s c _ Hi Hc) as (l & Hl & Hnd). destruct (inv_frame_at n s c _ l f fr Hi Hc Hl Hf) as (_ & Hex & _).
  simpl in Hex. rewrite decide_True in Hex by done. unfold generic_irq_run. rewrite Hf. cbn [of_option mbind res_bind]. eexists. split; [done|].
  assert (f ∉ l) as Hfl by (intros Hin; discriminate (Hex Hin)).
  apply (sync_inv_move n s _ c (Took f) (Done f) l l f fr fr true); simpl; rewrite ?decide_True by done; try done.
  - by rewrite list_insert_id.
  - by rewrite insert_id.
  - intros g Hg. by rewrite !decide_False.
  - by destruct (fr_waiting fr).
  - intros c' l' Hl' Hne. apply (signalled_move s _ c c' (Took f) (Done f)); try done. by apply (si_ipi _ _ Hi c' l').
Qed.

Lemma done_ok n s c f : sync_inv n s → pcs s !! c = Some (Done f) → ∃ s', generic_irq_done c f s = Ok s' ∧ sync_inv n s'.
Proof.
  intros Hi Hc. destruct (inv_role n s c _ f Hi Hc) as [fr Hf]; [simpl; by rewrite decide_True|].
  destruct (inv_queue n s c _ Hi Hc) as (l & Hl & Hnd). destruct (inv_frame_at n s c _ l f fr Hi Hc Hl Hf) as (_ & Hex & _).
  simpl in Hex. rewrite decide_True in Hex by done. unfold generic_irq_done. rewrite Hf. cbn [of_option mbind res_bind]. eexists. split; [done|].
  assert (f ∉ l) as Hfl by (intros Hin; discriminate (Hex Hin)).
  apply (sync_inv_move n s _ c (Done f) InIrq l l f fr (set_outstanding (fr_outstanding fr - 1) fr) false); simpl; rewrite ?decide_True by done; try done.
  - by rewrite list_insert_id.
  - intros g Hg. by rewrite decide_False.
  - rewrite bool_decide_eq_false_2 by done. simpl. lia.
  - by destruct (fr_waiting fr).
  - intros c' l' Hl' Hne. apply (signalled_move s _ c c' (Done f) InIrq); try done. by apply (si_ipi _ _ Hi c' l').
Qed.

Lemma run_cpu_ok n s c pc :
  sync_inv n s → pcs s !! c = Some pc → (∀ b, pc ≠ InThread b) → ∃ s', run_cpu c s = Ok s' ∧ sync_inv n s'.
Proof.
  intros Hi Hc Hn. unfold run_cpu. rewrite Hc. cbn [of_option mbind res_bind].
  destruct pc as [ints|f remote ints|f ints| |f|f]; [by destruct (Hn ints)|..].
  - eexists. split; [done|]. by apply send_ok.
  - by apply local_ok.
  - by apply take_ok.
  - by apply irq_run_ok.
  - by apply done_ok.
Qed.

Lemma thread_ok n s c i i' : sync_inv n s → pcs s !! c = Some (InThread i) → sync_inv n (set_pc c (InThread i') s).
Proof.
  intros Hi Hc. apply (sync_inv_pc n s _ c (InThread i) (InThread i')); try done. intros c' l Hl Hne.
  apply (signalled_move s _ c c' (InThread i) (InThread i')); try done. by apply (si_ipi _ _ Hi c' l).
Qed.

Lemma irq_ok n s c : sync_inv n s → pcs s !! c = Some (InThread true) → sync_inv n (mp_mbx_generic_irq c s).
Proof.
  intros Hi Hc. apply (sync_inv_pc n s _ c (InThread true) InIrq); try done. intros c' l Hl Hne.
  destruct (decide (c' = c)) as [->|Hcc].
  - right. left. exists InIrq. simpl. rewrite list_lookup_insert_eq by (by eapply lookup_lt_Some). done.
  - apply (signalled_move s _ c c' (InThread true) InIrq); try done; [by apply (si_ipi _ _ Hi c' l)|]. simpl.
    rewrite mask_clear_testbit by lia. intros ->. rewrite (proj2 (Z.eqb_neq _ _)) by lia. done.
Qed.

(** A call that returns has let go of everything. *)
Lemma returned_free n s f fr :
  sync_inv n s → frames s !! f = Some fr → fr_waiting fr = true → fr_outstanding fr = 0 → ∀ c, in_queue s f c = false ∧ role_at s f c = RNone.
Proof.
  intros Hi Hf Hw Ho c. destruct (si_frame _ _ Hi f fr Hf) as [H1 _ H3 _ _]. rewrite Hw in H3. rewrite Ho in H1.
  destruct (decide (c < n)%nat) as [Hc|Hc].
  - assert (count (λ c, in_queue s f c || holder (role_at s f c)) n = 0%nat) as H0 by lia.
    pose proof (count_zero _ n c H0 Hc) as [Hq Hh]%orb_false_iff. split; [done|]. specialize (H3 c). by destruct (role_at s f c).
  - unfold in_queue, role_at. rewrite !lookup_ge_None_2; [done|rewrite (si_pcs _ _ Hi); lia|rewrite (si_queues _ _ Hi); lia].
Qed.

Lemma return_ok n s f s' : sync_inv n s → mp_sync_exec_return f s = Some s' → sync_inv n s'.
Proof.
  intros Hi H. unfold mp_sync_exec_return in H. destruct (frames s !! f) as [fr|] eqn:Hf; [|done]. simpl in H.
  destruct (fr_waiting fr && (fr_outstanding fr =? 0)) eqn:E; [|done]. apply andb_true_iff in E as [Hw Ho%Z.eqb_eq]. injection H as <-.
  pose proof (returned_free n s f fr Hi Hf Hw Ho) as Hfree. destruct Hi as [H1 H2 H3 H4 H5 H6 H7 H8 H9 H10 H11]. split; simpl; try done.
  - intros g c Hq. change (in_queue s g c = true) in Hq. rewrite lookup_delete_ne; [by eapply H6|]. intros ->. destruct (Hfree c). congruence.
  - intros g c Hr. change (role_at s g c ≠ RNone) in Hr. rewrite lookup_delete_ne; [by eapply H7|]. intros ->. destruct (Hfree c). congruence.
  - intros g fg [_ Hg]%lookup_delete_Some. by apply H8.
  - intros g [[fg [_ Hg]%lookup_delete_Some]|Hr]; apply H9; [left; eauto|by right].
  - intros g fg c fn ctx [_ Hg]%lookup_delete_Some. by apply H10.
Qed.

(** ** A new call *)

Lemma count_none P n n' : (n ≤ n')%nat → (∀ c, (n ≤ c)%nat → P c = false) → count P n' = count P n.
Proof. intros Hle H. induction Hle as [|n' Hle IH]; [done|]. rewrite count_S, IH, (H n') by lia. simpl. lia. Qed.

Definition bits (m : Z) (c : nat) : bool := Z.testbit m (Z.of_nat c).

Lemma bits_above m n c : 0 ≤ m < 2 ^ Z.of_nat n → (n ≤ c)%nat → bits m c = false.
Proof. intros Hm Hc. apply (testbit_above m (Z.of_nat n)); lia. Qed.

Lemma popcount_count m n : 0 ≤ m < 2 ^ Z.of_nat n → (n ≤ 32)%nat → popcount m = Z.of_nat (count (bits m) n).
Proof. intros Hm Hn. unfold popcount. f_equal. apply (count_none (bits m) n 32); [done|]. intros c. by apply bits_above. Qed.

Lemma clear_range m c n : 0 ≤ m < 2 ^ Z.of_nat n → 0 ≤ mask_clear m c < 2 ^ Z.of_nat n.
Proof.
  intros Hm. destruct (Z.testbit m (Z.of_nat c)) eqn:Eb.
  - assert (0 < m) by (destruct (Z.eq_dec m 0) as [->|]; [by rewrite Z.bits_0 in Eb|lia]).
    pose proof (clear_bit_lt m (Z.of_nat c) ltac:(done) Eb). unfold mask_clear. lia.
  - replace (mask_clear m c) with m; [done|]. apply Z.bits_inj'. intros i Hi. rewrite mask_clear_testbit by done.
    destruct (Z.eqb_spec (Z.of_nat c) i) as [<-|]; [by rewrite Eb|by rewrite andb_true_r].
Qed.

Lemma bits_clear m c c' : bits (mask_clear m c) c' = bits m c' && negb (bool_decide (c' = c)).
Proof.
  unfold bits. rewrite mask_clear_testbit by lia. do 2 f_equal. destruct (decide (c' = c)) as [->|].
  - by rewrite Z.eqb_refl, bool_decide_eq_true_2.
  - rewrite bool_decide_eq_false_2 by done. apply Z.eqb_neq. lia.
Qed.

(** The queue of each remote cpu has the task at its end. *)
Lemma queue_loop_ok n f : (n ≤ 32)%nat → ∀ fuel m q,
  0 ≤ m < 2 ^ Z.of_nat n → length q = n → (count (bits m) n < fuel)%nat →
  ∃ q', queue_loop fuel f m q = Ok q' ∧ ∀ c, q' !! c = (λ l, if bits m c then l ++ [f] else l) <$> q !! c.
Proof.
  intros Hn fuel. induction fuel as [|fuel IH]; intros m q Hm Hlen Hf; [lia|]. cbn [queue_loop]. destruct (Z.eqb_spec m 0) as [->|Hnz].
  { exists q. split; [done|]. intros c. unfold bits. rewrite Z.bits_0. by destruct (q !! c). }
  destruct (ctzl_spec m ltac:(lia)) as (H0 & H1 & _). set (c := Z.to_nat (ctzl m)).
  assert (bits m c = true) as Hb by (unfold bits, c; by rewrite Z2Nat.id by lia).
  assert (c < n)%nat as Hc by (destruct (decide (c < n)%nat); [done|]; rewrite (bits_above m n c) in Hb by lia; done).
  destruct (lookup_lt_is_Some_2 q c) as [l Hl]; [lia|]. rewrite Hl. cbn [of_option mbind res_bind].
  destruct (IH (mask_clear m c) (<[c := l ++ [f]]> q)) as (q' & E & Hq').
  - by apply clear_range.
  - by rewrite length_insert.
  - pose proof (count_change (bits m) (bits (mask_clear m c)) c n Hc) as Hch. rewrite Hb, bits_clear, bool_decide_eq_true_2, andb_false_r in Hch by done.
    simpl in Hch. lapply Hch; [lia|]. intros c' Hne. by rewrite bits_clear, bool_decide_eq_false_2, andb_true_r.
  - exists q'. split; [done|]. intros c'. rewrite Hq', bits_clear. destruct (decide (c' = c)) as [->|Hne].
    + rewrite list_lookup_insert_eq by lia. rewrite Hl, Hb, bool_decide_eq_true_2 by done. done.
    + rewrite list_lookup_insert_ne by done. by rewrite bool_decide_eq_false_2, andb_true_r by done.
Qed.

Lemma popcount_0 : popcount 0 = 0.
Proof. reflexivity. Qed.

#[local] Opaque queue_loop popcount.

(** The call as it is made: the tasks of the remote cpus are on their queues. *)
Lemma new_frame_ok n q r k c cpus fn ctx :
  (n ≤ 32)%nat → (c < n)%nat → 0 ≤ cpus < 2 ^ Z.of_nat n → (∀ c', (c' < n)%nat → q c' = bits (mask_clear cpus c) c') →
  (∀ c', r c' = if decide (c' = c) then RCaller else RNone) → (∀ c', k c' = 0%nat) →
  frame_ok n q r k (mk_frame fn ctx cpus (popcount (mask_clear cpus c)) false).
Proof.
  intros Hn Hc Hcpus Hq Hr Hk. split; simpl; [|..|done].
  - rewrite (popcount_count _ n) by (done || by apply clear_range). f_equal. apply count_ext. intros c' Hc'.
    rewrite Hq, Hr by done. by destruct (decide (c' = c)); rewrite orb_false_r.
  - intros c' Hc'. rewrite Hk, Hq, Hr, bits_clear by done. change (is_target _ c') with (bits cpus c').
    destruct (decide (c' = c)) as [->|]; [rewrite bool_decide_eq_true_2 by done|rewrite bool_decide_eq_false_2 by done];
      simpl; destruct (bits cpus _); simpl; lia.
  - exists c. split_and!; [done|by rewrite Hr, decide_True|]. intros c'. rewrite Hr. by destruct (decide (c' = c)).
  - intros c' _. rewrite Hr. by destruct (decide (c' = c)).
Qed.

Lemma call_inv n s s' c i pc1 fn ctx cpus :
  sync_inv n s → pcs s !! c = Some (InThread i) → 0 ≤ cpus < 2 ^ Z.of_nat n →
  let f := next_frame s in
  let remote := mask_clear cpus c in
  (pc1 = Queued f remote i ∨ remote = 0 ∧ pc1 = Sent f i) →
  pcs s' = <[c := pc1]> (pcs s) → length (mp_sync_queue s') = n →
  (∀ c', mp_sync_queue s' !! c' = (λ l, if bits remote c' then l ++ [f] else l) <$> mp_sync_queue s !! c') →
  frames s' = <[f := mk_frame fn ctx cpus (popcount remote) false]> (frames s) →
  pending s' = pending s → active s' = active s → ran s' = ran s → next_frame s' = S f → sync_inv n s'.
Proof.
  intros Hi Hc Hcpus f remote Hpc Ep Hlq Eq Ef Epe Ea Er En. pose proof Hi as [H1 H2 H3 H4 H5 H6 H7 H8 H9 H10 H11].
  pose proof (lookup_lt_Some _ _ _ Hc) as Hcp. assert (c < n)%nat as Hcn by lia.
  assert (frames s !! f = None) as Hnew.
  { destruct (frames s !! f) eqn:E; [|done]. assert (f < next_frame s)%nat by (apply H9; left; eauto). unfold f in *. lia. }
  assert (∀ g, role_of pc1 g = if decide (f = g) then RCaller else RNone) as Hpc1 by (intros g; by destruct Hpc as [->|[_ ->]]).
  assert (∀ g c', role_at s' g c' = if decide (c' = c) then role_of pc1 g else role_at s g c') as Hr by (intros; by apply role_at_insert).
  assert (∀ c', role_at s f c' = RNone) as Hr0.
  { intros c'. destruct (role_at s f c') eqn:E; [done|..]; destruct (H7 f c') as [? ?]; congruence. }
  assert (∀ c', in_queue s f c' = false) as Hq0.
  { intros c'. destruct (in_queue s f c') eqn:E; [|done]. destruct (H6 f c' E) as [? ?]; congruence. }
  assert (∀ g c', g ≠ f → in_queue s' g c' = in_queue s g c') as Hqg.
  { intros g c' Hg. unfold in_queue. rewrite Eq. destruct (mp_sync_queue s !! c') as [l|]; [|done]. simpl. apply bool_decide_ext.
    destruct (bits remote c'); [|done]. rewrite elem_of_app, list_elem_of_singleton. naive_solver. }
  assert (∀ c', (c' < n)%nat → in_queue s' f c' = bits remote c') as Hqf.
  { intros c' Hc'. specialize (Hq0 c'). unfold in_queue in *. rewrite Eq. destruct (lookup_lt_is_Some_2 (mp_sync_queue s) c') as [l Hl]; [lia|].
    rewrite Hl in *. simpl. apply bool_decide_eq_false in Hq0. destruct (bits remote c'); [|by apply bool_decide_eq_false].
    apply bool_decide_eq_true. set_solver. }
  assert (∀ g c', runs s' g c' = runs s g c') as Hk by (intros; unfold runs; by rewrite Er).
  assert (∀ c', runs s f c' = 0%nat) as Hk0.
  { intros c'. destruct (decide (runs s f c' = 0%nat)) as [|Hne]; [done|]. assert (f < next_frame s)%nat by (apply H9; right; eauto). unfold f in *. lia. }
  split; rewrite ?Ep, ?length_insert, ?Ea; try done.
  - intros c' l. rewrite Eq. destruct (mp_sync_queue s !! c') as [l0|] eqn:E; [|done]. simpl. intros [= <-]. specialize (H5 c' l0 E).
    specialize (Hq0 c'). unfold in_queue in Hq0. rewrite E in Hq0. apply bool_decide_eq_false in Hq0.
    destruct (bits remote c'); [|done]. apply NoDup_app. split_and!; [done|set_solver|apply NoDup_singleton].
  - intros g c'. rewrite Ef, lookup_insert_is_Some'. destruct (decide (f = g)) as [->|Hg]; [by left|]. rewrite Hqg by done. right. by eapply H6.
  - intros g c' Hrg. rewrite Ef, lookup_insert_is_Some'. destruct (decide (f = g)) as [->|Hg]; [by left|]. right. rewrite Hr, Hpc1 in Hrg.
    rewrite (decide_False (P := f = g)) in Hrg by done. destruct (decide (c' = c)) as [->|]; [done|by eapply H7].
  - intros g fr Hg. rewrite Ef in Hg. apply lookup_insert_Some in Hg as [[<- <-]|[Hne Hg]].
    + apply new_frame_ok; try done; intros c'; [|by rewrite Hk, Hk0]. rewrite Hr, Hr0, Hpc1. by rewrite (decide_True (P := f = f)).
    + eapply frame_ok_ext; [..|by apply H8]; [intros c'; by apply Hqg| |done].
      intros c'. rewrite Hr. destruct (decide (c' = c)) as [->|]; [|done]. rewrite Hpc1, decide_False by done. unfold role_at. by rewrite Hc.
  - intros g Hg. rewrite En. destruct (decide (g = f)) as [->|Hne]; [lia|].
    assert (g < next_frame s)%nat; [|unfold f; lia]. apply H9. destruct Hg as [Hg|[c' Hc']]; [left|right; exists c'; by rewrite <- Hk].
    rewrite Ef, lookup_insert_is_Some' in Hg. destruct Hg; [congruence|done].
  - intros g fr c' fn' ctx'. rewrite Ef, Er. intros Hg Hin. apply lookup_insert_Some in Hg as [[<- <-]|[Hne Hg]]; [|by eapply H10].
    exfalso. pose proof (Hk0 c') as H0. unfold runs in H0. apply length_zero_iff_nil in H0. apply (not_elem_of_nil (f, c', fn', ctx')). rewrite <- H0.
    by apply list_elem_of_filter.
  - intros c' l' Hl' Hne. rewrite Eq in Hl'. destruct (mp_sync_queue s !! c') as [l0|] eqn:E; [|done]. simpl in Hl'. injection Hl' as <-.
    destruct (bits remote c') eqn:Eb.
    + right. right. destruct Hpc as [->|[Hz _]]; [|rewrite Hz in Eb; unfold bits in Eb; by rewrite Z.bits_0 in Eb].
      exists c, f, remote, i. rewrite Ep, list_lookup_insert_eq by done. done.
    + apply (signalled_move s s' c c' (InThread i) pc1); try done; [by apply (H11 c' l0)|by rewrite Epe].
Qed.

Lemma targets_range n s x : sync_inv n s → 0 ≤ Z.land x (active s) < 2 ^ Z.of_nat n.
Proof.
  intros Hi. pose proof (si_active _ _ Hi) as Ha. split; [apply Z.land_nonneg; lia|]. apply bits_bound; [apply Z.land_nonneg; lia|lia|].
  intros i Hl. rewrite Z.land_spec, (testbit_above (active s) (Z.of_nat n) i) by lia. apply andb_false_r.
Qed.

(** A call that has queued its tasks. *)
Lemma queued_ok n s c fn ctx cpus :
  sync_inv n s → pcs s !! c = Some (InThread true) → 0 ≤ cpus < 2 ^ Z.of_nat n →
  ∃ q, queue_loop 33 (next_frame s) (mask_clear cpus c) (mp_sync_queue s) = Ok q ∧
    sync_inv n (set_pc c (Queued (next_frame s) (mask_clear cpus c) true)
      (new_frame (mk_frame fn ctx cpus (popcount (mask_clear cpus c)) false) (set_queue q s))).
Proof.
  intros Hi Hc Hcpus. pose proof (si_cpus _ _ Hi) as Hn. pose proof (si_queues _ _ Hi) as Hlen.
  destruct (queue_loop_ok n (next_frame s) Hn 33 (mask_clear cpus c) (mp_sync_queue s)) as (q & E & Hq); [by apply clear_range|done| |].
  { pose proof (count_le (bits (mask_clear cpus c)) n). lia. }
  exists q. split; [done|].
  apply (call_inv n s _ c true (Queued (next_frame s) (mask_clear cpus c) true) fn ctx cpus); try done; [by left|].
  change (length q = n). apply Nat.le_antisymm; apply Nat.nlt_ge; intros Hlt.
  - apply lookup_lt_is_Some_2 in Hlt as [l Hl]. rewrite Hq, lookup_ge_None_2 in Hl by lia. done.
  - pose proof (Hq (length q)) as Hx. rewrite lookup_ge_None_2 in Hx by lia.
    destruct (lookup_lt_is_Some_2 (mp_sync_queue s) (length q)) as [l Hl]; [lia|]. by rewrite Hl in Hx.
Qed.

Lemma exec_local_eq c ints target mask fn ctx s :
  let cpus := Z.land (mp_target_to_mask target mask c) (active s) in
  mask_clear cpus c = 0 →
  mp_sync_exec_queue c (negb ints) target mask fn ctx s = Ok (set_pc c (Sent (next_frame s) ints) (new_frame (mk_frame fn ctx cpus 0 false) s)).
Proof. intros cpus Hz. unfold mp_sync_exec_queue. fold cpus. rewrite Hz, negb_involutive. reflexivity. Qed.

Lemma exec_remote_eq c target mask fn ctx s q :
  let cpus := Z.land (mp_target_to_mask target mask c) (active s) in
  mask_clear cpus c ≠ 0 → queue_loop 33 (next_frame s) (mask_clear cpus c) (mp_sync_queue s) = Ok q →
  mp_sync_exec_queue c false target mask fn ctx s =
    Ok (set_pc c (Queued (next_frame s) (mask_clear cpus c) true)
      (new_frame (mk_frame fn ctx cpus (popcount (mask_clear cpus c)) false) (set_queue q s))).
Proof. intros cpus Hz E. unfold mp_sync_exec_queue. fold cpus. rewrite (proj2 (Z.eqb_neq _ _) Hz), E. reflexivity. Qed.

Lemma call_ok n s c ints target mask fn ctx :
  sync_inv n s → pcs s !! c = Some (InThread ints) → may_call c ints target mask s →
  ∃ s', mp_sync_exec_queue c (negb ints) target mask fn ctx s = Ok s' ∧ sync_inv n s'.
Proof.
  intros Hi Hc Hm. unfold may_call in Hm.
  pose proof (targets_range n s (mp_target_to_mask target mask c) Hi) as Hcpus.
  destruct (Z.eq_dec (mask_clear (Z.land (mp_target_to_mask target mask c) (active s)) c) 0) as [Hz|Hnz].
  - rewrite exec_local_eq by done. eexists. split; [done|].
    apply (call_inv n s _ c ints (Sent (next_frame s) ints) fn ctx (Z.land (mp_target_to_mask target mask c) (active s))); try done.
    + by right.
    + apply Hi.
    + intros c'. rewrite Hz. unfold bits. rewrite Z.bits_0. by destruct (mp_sync_queue s !! c') eqn:E.
    + by rewrite Hz, popcount_0.
  - destruct Hm as [->|]; [|done]. destruct (queued_ok n s c fn ctx _ Hi Hc Hcpus) as (q & E & Hq).
    eexists. split; [|exact Hq]. by apply exec_remote_eq.
Qed.

Lemma up_ok n s c i : sync_inv n s → pcs s !! c = Some (InThread i) → sync_inv n (set_active (set_bit (active s) (Z.of_nat c)) s).
Proof.
  intros [H1 H2 H3 H4 H5 H6 H7 H8 H9 H10 H11] Hc. apply lookup_lt_Some in Hc. split; simpl; try done.
  split; [apply set_bit_nonneg; lia|]. apply bits_bound; [apply set_bit_nonneg; lia|lia|]. intros j Hj.
  rewrite set_bit_testbit, (testbit_above (active s) (Z.of_nat n) j) by lia. apply Z.eqb_neq. lia.
Qed.

Lemma boot_inv n : (n ≤ 32)%nat → sync_inv n (boot_sync n).
Proof.
  intros Hn. split; simpl; try done.
  - by apply length_replicate.
  - by rewrite length_replicate.
  - split; [done|]. apply Z.pow_pos_nonneg; lia.
  - intros c l [-> _]%lookup_replicate_1. constructor.
  - intros f c. unfold in_queue. simpl. destruct (mp_init n !! c) as [l|] eqn:E; [|done]. apply lookup_replicate_1 in E as [-> _].
    rewrite bool_decide_eq_false_2; [done|apply not_elem_of_nil].
  - intros f c. unfold role_at. simpl. destruct (replicate n (InThread false) !! c) as [pc|] eqn:E; [|done]. by apply lookup_replicate_1 in E as [-> _].
  - intros f [[fr Hf]|[c Hc]]; [by rewrite lookup_empty in Hf|done].
  - intros c l [-> _]%lookup_replicate_1. done.
Qed.

Lemma kernel_step_ok n s s' : sync_inv n s → kernel_step s s' → sync_inv n s'.
Proof.
  intros Hi Hs. destruct Hs as [c Hc|c Hc Hp|c pc s' Hc Hn E|f s' E].
  - by eapply thread_ok.
  - by apply irq_ok.
  - destruct (run_cpu_ok n s c pc Hi Hc Hn) as (s2 & E2 & H2). congruence.
  - by eapply return_ok.
Qed.

Lemma client_step_ok n s s' : sync_inv n s → client_step s s' → sync_inv n s'.
Proof.
  intros Hi Hs. destruct Hs as [c ints target mask fn ctx s' Hc Hm E|c Hc|c ints Hc].
  - destruct (call_ok n s c ints target mask fn ctx Hi Hc Hm) as (s2 & E2 & H2). congruence.
  - by eapply thread_ok.
  - by eapply up_ok.
Qed.

Lemma reach_inv n s : (n ≤ 32)%nat → sync_reach n s → sync_inv n s.
Proof. intros Hn Hr. induction Hr; [by apply boot_inv|by eapply kernel_step_ok|by eapply client_step_ok]. Qed.

(** * Progress *)

Definition pc_weight (pc : cpu_pc) : nat :=
  match pc with
  | InThread true => 0
  | InThread false => 1
  | Queued _ _ _ => 70
  | Sent _ _ => 2
  | InIrq => 1
  | Took _ => 4
  | Done _ => 3
  end.

(** The work that is left: the tasks on the queues, the positions of the cpus, the
    signals that have not arrived and the calls that have not returned. *)
Definition work (s : mp_sync) : nat :=
  (sum_list_with (λ l, 4 * length l) (mp_sync_queue s) + sum_list_with pc_weight (pcs s) + 2 * count (bits (pending s)) 32 + size (frames s))%nat.

Lemma sum_list_with_insert {A} (w : A → nat) (l : list A) i x y :
  l !! i = Some x → (sum_list_with w (<[i := y]> l) + w x = sum_list_with w l + w y)%nat.
Proof.
  revert i. induction l as [|z l IH]; intros [|i] H; simplify_eq/=; [lia|]. specialize (IH i H). lia.
Qed.

Lemma size_frames_insert (fs : gmap nat frame) f fr fr' : fs !! f = Some fr → size (<[f := fr']> fs) = size fs.
Proof. intros H. rewrite map_size_insert, H. done. Qed.

(** Every step of the code leaves less to do. *)
Lemma kernel_step_work n s s' : sync_inv n s → kernel_step s s' → (work s' < work s)%nat.
Proof.
  intros Hi Hs. pose proof (si_cpus _ _ Hi) as Hn. destruct Hs as [c Hc|c Hc Hp|c pc s' Hc Hne E|f s' E].
  - pose proof (sum_list_with_insert pc_weight _ c _ (InThread true) Hc). unfold work. simpl in *. lia.
  - pose proof (sum_list_with_insert pc_weight _ c _ InIrq Hc). unfold work. simpl in *.
    apply lookup_lt_Some in Hc. pose proof (count_change (bits (pending s)) (bits (mask_clear (pending s) c)) c 32) as Hch.
    rewrite bits_clear, bool_decide_eq_true_2, andb_false_r in Hch by done. change (bits (pending s) c) with (Z.testbit (pending s) (Z.of_nat c)) in Hch.
    rewrite Hp in Hch. simpl in Hch. rewrite (si_pcs _ _ Hi) in Hc. lapply Hch; [|lia]. intros Hx. lapply Hx; [lia|]. intros c' Hcc. by rewrite bits_clear, bool_decide_eq_false_2, andb_true_r.
  - unfold run_cpu in E. rewrite Hc in E. cbn [of_option mbind res_bind] in E. destruct pc as [ints|f remote ints|f ints| |f|f]; [by destruct (Hne ints)|..].
    + injection E as <-. pose proof (sum_list_with_insert pc_weight _ c _ (Sent f ints) Hc). unfold work. simpl in *.
      pose proof (count_le (bits (Z.lor (pending s) remote)) 32). lia.
    + unfold mp_sync_exec_local in E. destruct (frames s !! f) as [fr|] eqn:Hf; [|done]. cbn [of_option mbind res_bind] in E. injection E as <-.
      pose proof (sum_list_with_insert pc_weight _ c _ (InThread ints) Hc).
      unfold work. destruct (has_flag _ _); simpl in *; rewrite (size_frames_insert _ _ fr) by done; destruct ints; simpl in *; lia.
    + unfold generic_irq_take in E. destruct (mp_sync_queue s !! c) as [[|f l]|] eqn:Hl; [| |done]; cbn [of_option mbind res_bind] in E.
      * injection E as <-. pose proof (sum_list_with_insert pc_weight _ c _ (InThread true) Hc). unfold work. simpl in *. lia.
      * destruct (frames s !! f); [|done]. cbn [of_option mbind res_bind] in E. injection E as <-.
        pose proof (sum_list_with_insert pc_weight _ c _ (Took f) Hc). pose proof (sum_list_with_insert (λ l, 4 * length l)%nat _ c _ l Hl).
        unfold work. simpl in *. lia.
    + unfold generic_irq_run in E. destruct (frames s !! f) as [fr|]; [|done]. cbn [of_option mbind res_bind] in E. injection E as <-.
      pose proof (sum_list_with_insert pc_weight _ c _ (Done f) Hc). unfold work. simpl in *. lia.
    + unfold generic_irq_done in E. destruct (frames s !! f) as [fr|] eqn:Hf; [|done]. cbn [of_option mbind res_bind] in E. injection E as <-.
      pose proof (sum_list_with_insert pc_weight _ c _ InIrq Hc). unfold work. simpl in *. rewrite (size_frames_insert _ _ fr) by done. lia.
  - unfold mp_sync_exec_return in E. destruct (frames s !! f) as [fr|] eqn:Hf; [|done]. simpl in E.
    destruct (fr_waiting fr && (fr_outstanding fr =? 0)); [|done]. injection E as <-. unfold work. simpl.
    rewrite map_size_delete, Hf. assert (size (frames s) ≠ 0%nat); [|lia]. apply map_size_non_empty_iff. intros E. by rewrite E, lookup_empty in Hf.
Qed.

(** Nothing is left to do only when every call has returned. *)
Lemma stuck_returned n s : sync_inv n s → (∀ s', ¬ kernel_step s s') → frames s = ∅.
Proof.
  intros Hi Hstuck.
  assert (∀ c pc, pcs s !! c = Some pc → pc = InThread true) as Hpcs.
  { intros c pc Hc. destruct pc as [[]|f remote ints|f ints| |f|f] eqn:Epc; [done|by destruct (Hstuck _ (step_enable s c Hc))|..].
    all: destruct (run_cpu_ok n s c _ Hi Hc ltac:(done)) as (s' & E & _); by destruct (Hstuck _ (step_cpu s c _ s' Hc ltac:(done) E)). }
  assert (∀ c l, mp_sync_queue s !! c = Some l → l = []) as Hqs.
  { intros c l Hl. destruct l as [|f l]; [done|]. destruct (si_ipi _ _ Hi c (f :: l) Hl ltac:(done)) as [Hp|[(pc & Hpc & H)|(c' & g & r & i & H & _)]].
    - destruct (lookup_lt_is_Some_2 (pcs s) c) as [pc Hpc]; [rewrite (si_pcs _ _ Hi), <- (si_queues _ _ Hi); by eapply lookup_lt_Some|].
      rewrite (Hpcs c pc Hpc) in Hpc. by destruct (Hstuck _ (step_irq s c Hpc Hp)).
    - by rewrite (Hpcs c pc Hpc) in H.
    - discriminate (Hpcs c' _ H). }
  apply map_empty. intros f. destruct (frames s !! f) as [fr|] eqn:Hf; [|done]. exfalso. destruct (si_frame _ _ Hi f fr Hf) as [H1 _ H3 _ _].
  assert (∀ c, role_at s f c = RNone) as Hr.
  { intros c. unfold role_at. destruct (pcs s !! c) as [pc|] eqn:E; [|done]. by rewrite (Hpcs c pc E). }
  assert (∀ c, in_queue s f c = false) as Hq.
  { intros c. unfold in_queue. destruct (mp_sync_queue s !! c) as [l|] eqn:E; [|done]. rewrite (Hqs c l E). apply bool_decide_eq_false_2, not_elem_of_nil. }
  assert (fr_waiting fr = true) as Hw by (destruct (fr_waiting fr); [done|]; destruct H3 as (c & _ & H3 & _); by rewrite Hr in H3).
  assert (fr_outstanding fr = 0) as Ho.
  { rewrite H1, (count_none _ 0 n); [done|lia|]. intros c _. by rewrite Hq, Hr. }
  apply (Hstuck (set_frames (delete f (frames s)) s)), (step_return s f). unfold mp_sync_exec_return. rewrite Hf. simpl. by rewrite Hw, Ho.
Qed.


(** C7: Every call of [mp_sync_exec] returns: from any state, also when all cpus
    call at once and wait for each other, the steps of the code come to an end, and
    when they do every call has returned. *)
Theorem mp_sync_exec_returns n s :
  (n ≤ 32)%nat → sync_reach n s →
  Acc (λ s2 s1, kernel_step s1 s2) s ∧ ∀ s', rtc kernel_step s s' → (∀ s2, ¬ kernel_step s' s2) → frames s' = ∅.
Proof.
  intros Hn Hr. pose proof (reach_inv n s Hn Hr) as Hi. split.
  - clear Hr. remember (work s) as w eqn:Ew. revert s Ew Hi. induction (lt_wf w) as [w _ IH]. intros s -> Hi. constructor. intros s2 Hs.
    apply (IH (work s2)); [by eapply kernel_step_work|done|by eapply kernel_step_ok].
  - intros s' Hs Hstuck. apply (stuck_returned n); [|done]. clear Hstuck Hr. induction Hs; [done|]. apply IHHs. by eapply kernel_step_ok.
Qed.

(** * Two cpus *)

Definition ok_or (d : mp_sync) (r : res mp_sync) : mp_sync := match r with Ok s => s | Fault _ => d end.

(** Both cpus are up with interrupts on. *)
Definition ex_up : mp_sync := mk_sync [[]; []] ∅ [InThread true; InThread true] 0 3 [] 0.

(** Both call at once for all cpus. *)
Definition ex_call (c : nat) (s : mp_sync) : mp_sync := ok_or s (mp_sync_exec_queue c false MP_IPI_TARGET_ALL 0 (10 + c) 42 s).
Definition ex_both : mp_sync := ex_call 1 (ex_call 0 ex_up).

Fixpoint ex_run (l : list nat) (s : mp_sync) : mp_sync :=
  match l with [] => s | c :: l => ex_run l (ok_or s (run_cpu c s)) end.

(** They send their signals, run the function and wait; then cpu 1 handles the
    request of cpu 0. *)
Definition ex_wait : mp_sync := ex_run [0; 0; 1; 1]%nat ex_both.
Definition ex_handled : mp_sync := ex_run [1; 1; 1; 1]%nat (mp_mbx_generic_irq 1 ex_wait).

Lemma ex_up_reach : sync_reach 2 ex_up.
Proof.
  set (s1 := set_pc 0 (InThread true) (boot_sync 2)). set (s2 := set_active 1 s1). set (s3 := set_pc 1 (InThread true) s2).
  assert (sync_reach 2 s1) as H1 by (eapply sync_kernel; [apply sync_boot|by apply step_enable]).
  assert (sync_reach 2 s2) as H2 by (eapply sync_client; [apply H1|by apply (client_up s1 0 true)]).
  assert (sync_reach 2 s3) as H3 by (eapply sync_kernel; [apply H2|by apply step_enable]).
  eapply sync_client; [apply H3|by apply (client_up s3 1 true)].
Qed.

Lemma ex_call_reach c s :
  sync_reach 2 s → pcs s !! c = Some (InThread true) → (∃ s', mp_sync_exec_queue c false MP_IPI_TARGET_ALL 0 (10 + c) 42 s = Ok s') → sync_reach 2 (ex_call c s).
Proof.
  intros Hr Hc [s' E]. unfold ex_call. rewrite E. eapply sync_client; [done|]. by apply (client_call s c true MP_IPI_TARGET_ALL 0 (10 + c) 42); [|left|].
Qed.

Lemma ex_run_reach l s : sync_reach 2 s → sync_reach 2 (ex_run l s).
Proof.
  revert s. induction l as [|c l IH]; intros s Hr; [done|]. simpl. apply IH. destruct (run_cpu c s) as [s'|] eqn:E; [|done].
  unfold run_cpu in E. destruct (pcs s !! c) as [pc|] eqn:Hc; [|done]. cbn [of_option mbind res_bind] in E.
  destruct pc as [b| | | | |]; [by injection E as <-|..].
  all: eapply sync_kernel; [done|]; eapply step_cpu; [done..|]; unfold run_cpu; by rewrite Hc.
Qed.

Lemma ex_both_reach : sync_reach 2 ex_both.
Proof. apply ex_call_reach; [apply ex_call_reach; [apply ex_up_reach|done|by eexists]|done|by eexists]. Qed.

Lemma ex_handled_reach : sync_reach 2 ex_handled.
Proof.
  apply ex_run_reach. eapply sync_kernel; [apply (ex_run_reach [0; 0; 1; 1]%nat), ex_both_reach|]. by apply step_irq.
Qed.


Lemma mp_sync_exec_returns_witness :
  Acc (λ s2 s1, kernel_step s1 s2) ex_both ∧ ∀ s', rtc kernel_step ex_both s' → (∀ s2, ¬ kernel_step s' s2) → frames s' = ∅.
Proof. apply (mp_sync_exec_returns 2); [lia|apply ex_both_reach]. Defined.
