(* ===== verification/Timer.v ===== *)
(** Kernel timers: [kernel/timer.c], with the dynamic one-shot hardware timer
    ([PLATFORM_HAS_DYNAMIC_TIMER]).

    Each cpu has a queue of timers sorted by due time and a hardware timer that
    is armed for the head of that queue.  Times are 32 bit milliseconds that
    wrap around; [TIME_LT] and its relatives compare them by the sign of their
    difference. *)
From stdpp Require Import prelude gmap sorting.
From S2P Require Import Prelude Pow2 IntrusiveList KState.

#[local] Open Scope Z_scope.

Definition SMP_MAX_CPUS : nat := 4.

Definition timer_in_list (t : timid) : M bool := gets (λ s, Pool.in_list (timer_queue s) t).
Definition timer_head (cpu : nat) : M (option timid) := gets (λ s, Pool.peek_head (timer_queue s) cpu).

(** The hardware timer is programmed relative to the current time. *)
Definition platform_set_oneshot_timer (delay : Z) : M unit := λ c s,
  Ok ((), set_hw_timer (<[c := u32 (now s + delay)]> (hw_timer s)) s).
Definition platform_stop_timer : M unit := λ c s,
  Ok ((), set_hw_timer (delete c (hw_timer s)) s).

(** Overwriting the node of a linked timer would break the queue: a fault. *)
Definition timer_initialize (t : timid) : M unit :=
  linked ← timer_in_list t;
  if linked : bool then lift (Fault BadAccess)
  else put_timer t (mk_timer TIMER_MAGIC 0 0 None None).

(** The first entry of the queue that is due after [when]. *)
Fixpoint find_later (tms : gmap timid timer) (when : Z) (l : list timid) : res (option timid) :=
  match l with
  | [] => Ok None
  | e :: l =>
      tm ← of_option BadAccess (tms !! e);
      if TIME_GT (tm_scheduled_time tm) when then Ok (Some e) else find_later tms when l
  end.

Definition insert_timer_in_queue (cpu : nat) (t : timid) : M unit :=
  tm ← get_timer t;
  tms ← gets timers;
  q ← gets (λ s, Pool.members (timer_queue s) cpu);
  entry ← lift (find_later tms (tm_scheduled_time tm) q);
  match entry with
  | Some e => on_timer_queue (Pool.add_before e t)
  | None => on_timer_queue (Pool.add_tail cpu t)
  end.

Definition timer_set (t : timid) (delay period : Z) (callback : timer_callback) (arg : option nat) :
    M unit :=
  tm ← get_timer t;
  debug_assert (tm_magic tm =? TIMER_MAGIC);;
  linked ← timer_in_list t;
  if linked : bool then panic else
  now ← current_time;
  put_timer t (mk_timer (tm_magic tm) (u32 (now + delay)) period (Some callback) arg);;
  cpu ← arch_curr_cpu_num;
  insert_timer_in_queue cpu t;;
  head ← timer_head cpu;
  if decide (head = Some t) then platform_set_oneshot_timer delay else mret ().

Definition timer_set_oneshot (t : timid) (delay : Z) (callback : timer_callback) (arg : option nat) :
    M unit :=
  timer_set t (if delay =? 0 then 1 else delay) 0 callback arg.

Definition timer_set_periodic (t : timid) (period : Z) (callback : timer_callback) (arg : option nat) :
    M unit :=
  let period := if period =? 0 then 1 else period in
  timer_set t period period callback arg.

Definition timer_cancel (t : timid) : M unit :=
  tm ← get_timer t;
  debug_assert (tm_magic tm =? TIMER_MAGIC);;
  cpu ← arch_curr_cpu_num;
  oldhead ← timer_head cpu;
  linked ← timer_in_list t;
  (if linked : bool then on_timer_queue (Pool.delete_node t) else mret ());;
  put_timer t (mk_timer (tm_magic tm) (tm_scheduled_time tm) 0 None None);;
  newhead ← timer_head cpu;
  match newhead with
  | None => platform_stop_timer
  | Some h =>
      if decide (newhead = oldhead) then mret () else
      htm ← get_timer h;
      now ← current_time;
      platform_set_oneshot_timer
        (if TIME_LT (tm_scheduled_time htm) now then 0 else u32 (tm_scheduled_time htm - now))
  end.

(** The interrupt handler calls through the function pointers of the timers;
    [call] is that call. *)
Section timer_tick.
Context (call : timer_callback → timid → Z → option nat → M handler_return).

(** One expired timer: dequeue, call, and requeue if periodic. *)
Definition timer_fire (cpu : nat) (now : Z) (t : timid) : M handler_return :=
  tm ← get_timer t;
  debug_assert (tm_magic tm =? TIMER_MAGIC);;
  on_timer_queue (Pool.delete_node t);;
  let periodic := 0 <? tm_periodic_time tm in
  r ← match tm_callback tm with
      | Some cb => call cb t now (tm_arg tm)
      | None => lift (Fault BadAccess)
      end;
  (if periodic
   then linked ← timer_in_list t;
        tm ← get_timer t;
        if negb linked && (0 <? tm_periodic_time tm) then
          let due := u32 (tm_scheduled_time tm + tm_periodic_time tm) in
          let due := if TIME_LT due now then u32 (now + tm_periodic_time tm) else due in
          put_timer t (mk_timer (tm_magic tm) due (tm_periodic_time tm) (tm_callback tm) (tm_arg tm));;
          insert_timer_in_queue cpu t
        else mret ()
   else mret ());;
  mret r.

Fixpoint timer_tick_loop (fuel : nat) (cpu : nat) (now : Z) (ret : handler_return) :
    M handler_return :=
  match fuel with
  | O => lift (Fault OutOfFuel)
  | S fuel =>
      head ← timer_head cpu;
      match head with
      | None => mret ret
      | Some t =>
          tm ← get_timer t;
          if TIME_LT now (tm_scheduled_time tm) then mret ret else
          r ← timer_fire cpu now t;
          timer_tick_loop fuel cpu now (if decide (r = INT_RESCHEDULE) then INT_RESCHEDULE else ret)
      end
  end.

Definition timer_tick (fuel : nat) (now : Z) : M handler_return :=
  cpu ← arch_curr_cpu_num;
  ret ← timer_tick_loop fuel cpu now INT_NO_RESCHEDULE;
  head ← timer_head cpu;
  match head with
  | None => mret ret
  | Some t =>
      tm ← get_timer t;
      debug_assert (TIME_GT (tm_scheduled_time tm) now);;
      platform_set_oneshot_timer (u32 (tm_scheduled_time tm - now));;
      mret ret
  end.
End timer_tick.

Definition timer_init (s : kstate) : kstate :=
  set_timer_queue (foldr Pool.init_list (timer_queue s) (seq 0 SMP_MAX_CPUS)) s.

(** * Due times relative to the current time *)

(** How far [x] lies after [n], as the signed reading of their difference. *)
Definition rel (n x : Z) : Z := s32 (u32 (x - n)).

Definition due (s : kstate) (t : timid) : Z :=
  match timers s !! t with Some tm => rel (now s) (tm_scheduled_time tm) | None => 0 end.

Lemma due_eq s t tm : timers s !! t = Some tm → due s t = rel (now s) (tm_scheduled_time tm).
Proof. unfold due. by intros ->. Qed.

(** The half range within which times are compared without ambiguity. *)
Definition HORIZON : Z := 2 ^ 30.

Lemma s32_congr x y : x `mod` 2 ^ 32 = y `mod` 2 ^ 32 → s32 x = s32 y.
Proof.
  intros E. unfold s32. f_equal. rewrite <- (Zplus_mod_idemp_l x), E, Zplus_mod_idemp_l. done.
Qed.

Lemma rel_congr n x : (rel n x) `mod` 2 ^ 32 = (x - n) `mod` 2 ^ 32.
Proof.
  unfold rel, s32, u32. rewrite Zminus_mod_idemp_l, Z.add_simpl_r. by apply Zmod_mod.
Qed.

Lemma rel_diff n a b :
  - HORIZON ≤ rel n a < HORIZON → - HORIZON ≤ rel n b < HORIZON →
  s32 (u32 (a - b)) = rel n a - rel n b.
Proof.
  intros Ha Hb. unfold HORIZON in *. rewrite <- (s32_u32_diff (rel n a - rel n b)) by lia.
  unfold u32. apply s32_congr. rewrite !Zmod_mod.
  rewrite (Zminus_mod (rel n a)), !rel_congr, <- Zminus_mod. f_equal. lia.
Qed.

Lemma rel_TIME_GT n a b :
  - HORIZON ≤ rel n a < HORIZON → - HORIZON ≤ rel n b < HORIZON →
  TIME_GT a b = (rel n b <? rel n a).
Proof.
  intros. unfold TIME_GT. rewrite (rel_diff n) by done.
  destruct (Z.ltb_spec 0 (rel n a - rel n b)), (Z.ltb_spec (rel n b) (rel n a)); lia.
Qed.

Lemma rel_self n : rel n n = 0.
Proof. unfold rel. by rewrite Z.sub_diag. Qed.

Lemma rel_TIME_LT_now n a : TIME_LT n a = true ↔ 0 < rel n a ∨ rel n a = - 2 ^ 31.
Proof.
  unfold TIME_LT, rel. rewrite Z.ltb_lt.
  pose proof (s32_range (u32 (n - a))). pose proof (s32_range (u32 (a - n))).
  assert ((s32 (u32 (n - a)) + s32 (u32 (a - n))) `mod` 2 ^ 32 = 0) as E.
  { rewrite Zplus_mod. change (s32 (u32 (n - a))) with (rel a n).
    change (s32 (u32 (a - n))) with (rel n a). rewrite !rel_congr, <- Zplus_mod.
    by replace (n - a + (a - n)) with 0 by lia. }
  apply Z.mod_divide in E as [k E]; [|lia]. lia.
Qed.

Lemma rel_TIME_LT_past n a : TIME_LT a n = (rel n a <? 0).
Proof. done. Qed.

Lemma rel_add n d : - 2 ^ 31 ≤ d < 2 ^ 31 → rel n (u32 (n + d)) = d.
Proof.
  intros. unfold rel. rewrite <- (s32_u32_diff d) at 2 by done. f_equal.
  unfold u32. rewrite Zminus_mod_idemp_l. f_equal. lia.
Qed.

Lemma rel_advance n x d : - 2 ^ 31 ≤ rel n x + d < 2 ^ 31 → rel n (u32 (x + d)) = rel n x + d.
Proof.
  intros. rewrite <- (s32_u32_diff (rel n x + d)) by done. unfold rel at 1, u32.
  apply s32_congr. rewrite !Zmod_mod, Zminus_mod_idemp_l.
  rewrite <- (Zplus_mod_idemp_l (rel n x)), rel_congr, Zplus_mod_idemp_l. f_equal. lia.
Qed.

(** * Invariant of the timer queues *)

Definition timer_live (s : kstate) (t : timid) : Prop :=
  ∃ tm, timers s !! t = Some tm ∧ tm_magic tm = TIMER_MAGIC ∧ is_Some (tm_callback tm) ∧
        0 ≤ tm_periodic_time tm < HORIZON ∧
        - HORIZON ≤ rel (now s) (tm_scheduled_time tm) < HORIZON.

Record tqinv (s : kstate) : Prop := {
  tq_wf : Pool.wf (timer_queue s);
  tq_live : ∀ cpu t, t ∈ Pool.members (timer_queue s) cpu → timer_live s t;
  tq_sorted : ∀ cpu, StronglySorted (λ a b, due s a ≤ due s b) (Pool.members (timer_queue s) cpu);
}.

(** Whenever a cpu has a pending timer its hardware timer is armed, no later
    than the first timer is due (or at once when that is in the past). *)
Definition hw_armed (s : kstate) (cpu : nat) : Prop :=
  ∀ t, Pool.peek_head (timer_queue s) cpu = Some t →
    ∃ h, hw_timer s !! cpu = Some h ∧ rel (now s) h ≤ Z.max 0 (due s t).

(** Reference insertion: after every entry that is not due later. *)
Fixpoint insert_due (key : timid → Z) (t : timid) (l : list timid) : list timid :=
  match l with
  | [] => [t]
  | e :: l' => if key t <? key e then t :: l else e :: insert_due key t l'
  end.

Lemma insert_due_perm key t l : insert_due key t l ≡ₚ t :: l.
Proof.
  induction l as [|e l IH]; simpl; [done|]. destruct (key t <? key e); [done|].
  rewrite IH. constructor.
Qed.

Lemma insert_due_sorted key t l :
  StronglySorted (λ a b, key a ≤ key b) l → StronglySorted (λ a b, key a ≤ key b) (insert_due key t l).
Proof.
  induction 1 as [|e l Hs IH Hf]; simpl; [repeat constructor|].
  destruct (Z.ltb_spec (key t) (key e)).
  - constructor; [by constructor|]. constructor; [lia|].
    eapply Forall_impl; [done|]. simpl. lia.
  - constructor; [done|]. rewrite insert_due_perm. constructor; [lia|done].
Qed.

(** [find_later] computes the reference insertion point. *)
Lemma find_later_spec s t tm l :
  (∀ e, e ∈ l → timer_live s e) → timers s !! t = Some tm →
  - HORIZON ≤ rel (now s) (tm_scheduled_time tm) < HORIZON →
  (find_later (timers s) (tm_scheduled_time tm) l = Ok None ∧ insert_due (due s) t l = l ++ [t]) ∨
  (∃ xs e ys, l = xs ++ e :: ys ∧ find_later (timers s) (tm_scheduled_time tm) l = Ok (Some e) ∧
     insert_due (due s) t l = xs ++ t :: e :: ys).
Proof.
  intros Hl Ht Hw. induction l as [|e l IH]; simpl; [by left|].
  destruct (Hl e ltac:(left)) as (etm & He & _ & _ & _ & Hew). rewrite He. simpl.
  rewrite (rel_TIME_GT (now s)) by done. rewrite <- (due_eq _ _ _ He), <- (due_eq _ _ _ Ht).
  destruct (due s t <? due s e); [right; exists [], e, l; done|].
  destruct IH as [[E1 E2]|(xs & e' & ys & -> & E1 & E2)]; [intros; apply Hl; by right| |].
  - left. rewrite E2. done.
  - right. exists (e :: xs), e', ys. rewrite E2. done.
Qed.

(** * Symbolic execution of the queue operations *)

Definition same_heads {L N} `{Countable L, Countable N} (p p' : Pool.pool L N) : Prop :=
  ∀ q, is_Some (Pool.lists p' !! q) ↔ is_Some (Pool.lists p !! q).

Lemma link_same_heads {L N} `{Countable L, Countable N} (p : Pool.pool L N) q n l :
  is_Some (Pool.lists p !! q) → same_heads p (Pool.link q n l p).
Proof.
  intros Hq q'. unfold Pool.link. simpl. destruct (decide (q' = q)) as [->|].
  - rewrite lookup_insert_eq. naive_solver.
  - by rewrite lookup_insert_ne.
Qed.

Lemma delete_same_heads {L N} `{Countable L, Countable N} (p p' : Pool.pool L N) n :
  Pool.wf p → Pool.delete_node n p = Ok p' → same_heads p p'.
Proof.
  intros Hwf (q & Hq & ->)%Pool.delete_node_Ok q'. simpl.
  pose proof (Pool.wf_init _ Hwf _ _ Hq). destruct (decide (q' = q)) as [->|].
  - rewrite lookup_insert_eq. naive_solver.
  - by rewrite lookup_insert_ne.
Qed.

Lemma same_heads_trans {L N} `{Countable L, Countable N} (p1 p2 p3 : Pool.pool L N) :
  same_heads p1 p2 → same_heads p2 p3 → same_heads p1 p3.
Proof. unfold same_heads. naive_solver. Qed.

Lemma wp_insert_timer c cpu t tm s (Q : unit → kstate → Prop) :
  tqinv s → timers s !! t = Some tm →
  - HORIZON ≤ rel (now s) (tm_scheduled_time tm) < HORIZON →
  Pool.in_list (timer_queue s) t = false → is_Some (Pool.lists (timer_queue s) !! cpu) →
  (∀ p, Pool.wf p → same_heads (timer_queue s) p →
     (∀ q, Pool.members p q =
        if decide (q = cpu) then insert_due (due s) t (Pool.members (timer_queue s) cpu)
        else Pool.members (timer_queue s) q) →
     Q () (set_timer_queue p s)) →
  wp c (insert_timer_in_queue cpu t) Q s.
Proof.
  intros Hinv Ht Hw Hn Hq HQ. unfold insert_timer_in_queue.
  wp_step. eapply wp_get_timer; [done|]. do 2 (wp_step; wp_step).
  assert (∀ p l, p = Pool.link cpu t l (timer_queue s) →
    l = insert_due (due s) t (Pool.members (timer_queue s) cpu) → Q () (set_timer_queue p s)) as HQ'.
  { intros p l -> ->. apply HQ.
    - apply Pool.wf_link; [apply Hinv|done|apply insert_due_perm].
    - by apply link_same_heads.
    - intros q. unfold Pool.link. by rewrite Pool.members_insert. }
  wp_step. unfold wp at 1, lift.
  destruct (find_later_spec s t tm (Pool.members (timer_queue s) cpu))
    as [[-> E]|(xs & e & ys & El & -> & E)]; [by apply Hinv|done|done| |].
  - eapply wp_on_timer_queue; [by apply Pool.add_tail_Ok; eauto|]. by eapply HQ'.
  - eapply (wp_on_timer_queue _ _ (Pool.link cpu t (xs ++ t :: e :: ys) _)); [|by eapply HQ'].
    assert (Pool.owner (timer_queue s) !! e = Some cpu) as He.
    { apply (Pool.wf_owner _ (tq_wf _ Hinv)). rewrite El. set_solver. }
    unfold Pool.add_before. rewrite He, Hn. simpl. f_equal. f_equal.
    rewrite El. apply Pool.insert_before_split.
    pose proof (Pool.wf_nodup _ (tq_wf _ Hinv) cpu) as Hnd.
    rewrite El, NoDup_app in Hnd. set_solver.
Qed.

(** Storing a timer that is not linked does not touch the queues. *)
Lemma tqinv_put_unlinked s t tm :
  tqinv s → Pool.in_list (timer_queue s) t = false →
  tqinv (set_timers (<[t := tm]> (timers s)) s).
Proof.
  intros Hinv Hn. pose proof (proj1 (Pool.in_list_false _ _ (tq_wf _ Hinv)) Hn) as Hni.
  assert (∀ u, u ≠ t → due (set_timers (<[t := tm]> (timers s)) s) u = due s u) as Hdue.
  { intros. unfold due. simpl. by rewrite lookup_insert_ne. }
  split; simpl; [apply Hinv| |].
  - intros cpu u Hu. assert (u ≠ t) by (intros ->; by apply (Hni cpu)).
    destruct (tq_live _ Hinv _ _ Hu) as (utm & ? & ?).
    exists utm. simpl. by rewrite lookup_insert_ne.
  - intros cpu. pose proof (tq_sorted _ Hinv cpu) as Hs.
    specialize (Hni cpu). induction Hs as [|a l Hs IH Hf]; constructor.
    + apply IH. set_solver.
    + rewrite Hdue by set_solver. rewrite Forall_forall in *. intros b Hb.
      rewrite Hdue; [by apply Hf|]. set_solver.
Qed.

(** Moving to a pool whose lists are sorted permutations of live timers. *)
Lemma tqinv_insert s t p cpu :
  tqinv s → timer_live s t → Pool.wf p →
  (∀ q, Pool.members p q =
     if decide (q = cpu) then insert_due (due s) t (Pool.members (timer_queue s) cpu)
     else Pool.members (timer_queue s) q) →
  tqinv (set_timer_queue p s).
Proof.
  intros Hinv Ht Hwf Hm. split; simpl; [done| |].
  - intros q u Hu. change (timer_live s u). rewrite Hm in Hu. case_decide; [|by eapply tq_live].
    rewrite insert_due_perm, elem_of_cons in Hu. destruct Hu as [->|Hu]; [done|by eapply tq_live].
  - intros q. rewrite Hm. case_decide; [|by apply (tq_sorted _ Hinv)].
    apply insert_due_sorted. by apply (tq_sorted _ Hinv).
Qed.

Lemma remove_sorted {A} `{EqDecision A} (R : A → A → Prop) n l :
  StronglySorted R l → StronglySorted R (Pool.remove n l).
Proof.
  unfold Pool.remove. induction 1 as [|a l Hs IH Hf]; [constructor|].
  destruct (decide (a = n)); [by rewrite filter_cons_False by naive_solver|].
  rewrite filter_cons_True by done. constructor; [done|].
  rewrite Forall_forall in *. intros b Hb. apply list_elem_of_filter in Hb as [_ Hb]. by apply Hf.
Qed.

(** * Timers never fault *)

Definition timer_ok (s : kstate) (t : timid) : Prop :=
  ∃ tm, timers s !! t = Some tm ∧ tm_magic tm = TIMER_MAGIC.

(** Only the timer state changes. *)
Definition timer_only (s s' : kstate) : Prop :=
  ∃ m p h, s' = set_hw_timer h (set_timer_queue p (set_timers m s)).

(** What an operation on timer [t] leaves: [t] satisfies [new], the timers for
    which [linked] holds are linked, everything else about the kernel is as
    before. *)
Record timer_post (s s' : kstate) (t : timid) (new : timer → Prop) (linked : timid → Prop) : Prop := {
  tp_only : timer_only s s';
  tp_tqinv : tqinv s';
  tp_heads : same_heads (timer_queue s) (timer_queue s');
  tp_ok : ∀ u, timer_ok s u → timer_ok s' u;
  tp_same : ∀ u, u ≠ t → timers s' !! u = timers s !! u;
  tp_new : ∃ tm, timers s' !! t = Some tm ∧ tm_magic tm = TIMER_MAGIC ∧ new tm;
  tp_linked : ∀ u, Pool.in_list (timer_queue s') u = true ↔ linked u;
}.

Definition set_to (period : Z) (cb : timer_callback) (arg : option nat) (tm : timer) : Prop :=
  tm_callback tm = Some cb ∧ tm_arg tm = arg ∧ tm_periodic_time tm = period.

Lemma in_list_delete {L N} `{Countable L, Countable N} (p p' : Pool.pool L N) n u :
  Pool.delete_node n p = Ok p' →
  Pool.in_list p' u = true ↔ u ≠ n ∧ Pool.in_list p u = true.
Proof.
  intros (q & _ & ->)%Pool.delete_node_Ok. unfold Pool.in_list. rewrite !bool_decide_eq_true. simpl.
  destruct (decide (u = n)) as [->|]; [rewrite lookup_delete_eq; split; [by intros []|naive_solver]|].
  rewrite lookup_delete_ne by done. naive_solver.
Qed.

Lemma delete_node_total {L N} `{Countable L, Countable N} (p : Pool.pool L N) n :
  Pool.in_list p n = true → ∃ p', Pool.delete_node n p = Ok p'.
Proof.
  unfold Pool.in_list, Pool.delete_node. rewrite bool_decide_eq_true. intros [q ->]. simpl. eauto.
Qed.

Lemma timer_ok_put s t tm u :
  tm_magic tm = TIMER_MAGIC → timer_ok s u → timer_ok (set_timers (<[t := tm]> (timers s)) s) u.
Proof.
  intros Hm (utm & Hu & Hum). destruct (decide (u = t)) as [->|].
  - exists tm. simpl. by rewrite lookup_insert_eq.
  - exists utm. simpl. by rewrite lookup_insert_ne.
Qed.

Lemma tq_ok s cpu t : tqinv s → t ∈ Pool.members (timer_queue s) cpu → timer_ok s t.
Proof. intros H Ht. destruct (tq_live _ H _ _ Ht) as (tm & ? & ? & _). by exists tm. Qed.

Lemma remove_id {A} `{EqDecision A} (n : A) l : n ∉ l → Pool.remove n l = l.
Proof.
  unfold Pool.remove. induction l as [|a l IH]; intros Hn; [done|].
  rewrite filter_cons_True by set_solver. rewrite IH; set_solver.
Qed.

Lemma delete_members {L N} `{Countable L, Countable N} (p p' : Pool.pool L N) n q :
  Pool.wf p → Pool.delete_node n p = Ok p' →
  Pool.members p' q = Pool.remove n (Pool.members p q).
Proof.
  intros Hwf (q' & Hq & ->)%Pool.delete_node_Ok. rewrite Pool.members_insert.
  case_decide; [by subst|]. rewrite remove_id; [done|].
  intros Hin. apply (Pool.wf_owner _ Hwf) in Hin. congruence.
Qed.

Lemma tqinv_delete s n p :
  tqinv s → Pool.delete_node n (timer_queue s) = Ok p → tqinv (set_timer_queue p s).
Proof.
  intros Hinv Hd. pose proof (λ q, delete_members _ _ _ q (tq_wf _ Hinv) Hd) as Hm.
  split; simpl.
  - by eapply Pool.wf_delete_node; [apply Hinv|].
  - intros cpu t. rewrite Hm, Pool.elem_of_remove. intros [Ht _]. by apply (tq_live _ Hinv cpu).
  - intros cpu. rewrite Hm. apply remove_sorted. apply (tq_sorted _ Hinv).
Qed.

(** The linked timers after an insertion. *)
Lemma in_list_insert_due (q0 p : Pool.pool nat timid) t c key u :
  Pool.wf q0 → Pool.wf p →
  (∀ q, Pool.members p q = if decide (q = c)
     then insert_due key t (Pool.members q0 c) else Pool.members q0 q) →
  Pool.in_list p u = true ↔ u = t ∨ Pool.in_list q0 u = true.
Proof.
  intros Hwf0 Hwf Hm. rewrite !Pool.in_list_true by done. split.
  - intros [q Hq]. rewrite Hm in Hq. case_decide; [|naive_solver].
    rewrite insert_due_perm, elem_of_cons in Hq. naive_solver.
  - intros [->|[q Hq]]; [exists c|exists q]; rewrite Hm.
    + rewrite decide_True, insert_due_perm by done. left.
    + case_decide; [|done]. subst. rewrite insert_due_perm. by right.
Qed.

Lemma tqinv_hw s h : tqinv s → tqinv (set_hw_timer h s).
Proof. by intros [? ? ?]. Qed.

Lemma timer_only_refl s : timer_only s s.
Proof. by exists (timers s), (timer_queue s), (hw_timer s); destruct s. Qed.

Lemma timer_only_trans s1 s2 s3 : timer_only s1 s2 → timer_only s2 s3 → timer_only s1 s3.
Proof. intros (? & ? & ? & ->) (m & p & h & ->). by exists m, p, h. Qed.

Lemma timer_only_timers s m : timer_only s (set_timers m s).
Proof. by exists m, (timer_queue s), (hw_timer s). Qed.

Lemma timer_only_queue s p : timer_only s (set_timer_queue p s).
Proof. by exists (timers s), p, (hw_timer s); destruct s. Qed.

Lemma timer_only_hw s h : timer_only s (set_hw_timer h s).
Proof. by exists (timers s), (timer_queue s), h; destruct s. Qed.
#[export] Hint Resolve timer_only_refl timer_only_timers timer_only_queue timer_only_hw : lk.

Lemma timer_post_hw s s' h t N P : timer_post s s' t N P → timer_post s (set_hw_timer h s') t N P.
Proof.
  intros [? ? ? ? ? ? ?]. split; try done; [|by apply tqinv_hw].
  by eapply timer_only_trans; [|apply timer_only_hw].
Qed.

Lemma wp_timer_in_list c t Q s :
  Q (Pool.in_list (timer_queue s) t) s → wp c (timer_in_list t) Q s.
Proof. done. Qed.

Lemma wp_timer_initialize c t Q s :
  Pool.in_list (timer_queue s) t = false →
  Q () (set_timers (<[t := mk_timer TIMER_MAGIC 0 0 None None]> (timers s)) s) →
  wp c (timer_initialize t) Q s.
Proof. intros Hn HQ. unfold timer_initialize. wp_step. apply wp_timer_in_list. by rewrite Hn. Qed.

(** Setting a timer that is not linked never faults. *)
Lemma wp_timer_set c t delay period cb arg Q s :
  tqinv s → timer_ok s t → Pool.in_list (timer_queue s) t = false →
  is_Some (Pool.lists (timer_queue s) !! c) → 0 ≤ delay < HORIZON → 0 ≤ period < HORIZON →
  (∀ s', timer_post s s' t (set_to period cb arg)
     (λ u, u = t ∨ Pool.in_list (timer_queue s) u = true) → Q () s') →
  wp c (timer_set t delay period cb arg) Q s.
Proof.
  intros Hinv (tm & Ht & Hm) Hn Hq Hd Hp HQ. unfold timer_set.
  wp_step. eapply wp_get_timer; [done|]. wp_step. wp_step; [by rewrite Hm|].
  wp_step. apply wp_timer_in_list. rewrite Hn. wp_step. apply wp_gets. do 2 wp_step. do 2 wp_step. wp_step.
  set (tm' := mk_timer _ _ _ _ _). set (s1 := set_timers _ s).
  assert (rel (now s) (tm_scheduled_time tm') = delay) as Hrel.
  { simpl. apply rel_add. unfold HORIZON in *. lia. }
  assert (tqinv s1) as Hinv1 by by apply tqinv_put_unlinked.
  assert (timers s1 !! t = Some tm') as Ht1 by by simpl; rewrite lookup_insert_eq.
  eapply (wp_insert_timer _ _ _ tm'); [done|done|simpl now; rewrite Hrel; unfold HORIZON in *; lia|done|done|].
  intros p Hwf Hsh Hmem. wp_step. apply wp_gets.
  assert (timer_post s (set_timer_queue p s1) t (set_to period cb arg)
    (λ u, u = t ∨ Pool.in_list (timer_queue s) u = true)) as Hpost.
  { split; try done.
    - eapply timer_only_trans; [apply timer_only_timers|apply timer_only_queue].
    - eapply tqinv_insert; [done| |done|done]. exists tm'. simpl now. rewrite Hrel. unfold HORIZON in *.
      split_and!; try done; simpl; lia.
    - intros u Hu. by apply (timer_ok_put s t tm' u).
    - intros u Hu. simpl. by rewrite lookup_insert_ne.
    - by exists tm'.
    - intros u. eapply in_list_insert_due; [apply Hinv|done|exact Hmem]. }
  destruct (decide _); [|by apply HQ]. apply HQ. by apply timer_post_hw.
Qed.

Lemma wp_timer_set_oneshot c t delay cb arg Q s :
  tqinv s → timer_ok s t → Pool.in_list (timer_queue s) t = false →
  is_Some (Pool.lists (timer_queue s) !! c) → 0 ≤ delay < HORIZON →
  (∀ s', timer_post s s' t (set_to 0 cb arg)
     (λ u, u = t ∨ Pool.in_list (timer_queue s) u = true) → Q () s') →
  wp c (timer_set_oneshot t delay cb arg) Q s.
Proof.
  intros ? ? ? ? Hd ?. apply wp_timer_set; try done. unfold HORIZON in *. destruct (delay =? 0); lia.
Qed.

Lemma wp_timer_set_periodic c t period cb arg Q s :
  tqinv s → timer_ok s t → Pool.in_list (timer_queue s) t = false →
  is_Some (Pool.lists (timer_queue s) !! c) → 0 ≤ period < HORIZON →
  (∀ s', timer_post s s' t (set_to (if period =? 0 then 1 else period) cb arg)
     (λ u, u = t ∨ Pool.in_list (timer_queue s) u = true) → Q () s') →
  wp c (timer_set_periodic t period cb arg) Q s.
Proof.
  intros ? ? ? ? Hd ?. apply wp_timer_set; try done; unfold HORIZON in *; destruct (period =? 0); lia.
Qed.

(** Neither does cancelling one. *)
Lemma wp_timer_cancel c t Q s :
  tqinv s → timer_ok s t →
  (∀ s', timer_post s s' t (λ tm, tm_callback tm = None)
     (λ u, u ≠ t ∧ Pool.in_list (timer_queue s) u = true) → Q () s') →
  wp c (timer_cancel t) Q s.
Proof.
  intros Hinv (tm & Ht & Hm) HQ. unfold timer_cancel.
  wp_step. eapply wp_get_timer; [done|]. wp_step. wp_step; [by rewrite Hm|].
  do 2 wp_step. wp_step. apply wp_gets. wp_step. apply wp_timer_in_list. wp_step.
  set (k := λ (_ : unit), _). set (oh := Pool.peek_head _ _) in *. clearbody oh.
  assert (∀ s', timer_post s s' t (λ _, True) (λ u, u ≠ t ∧ Pool.in_list (timer_queue s) u = true) →
    k () s') as Hk.
  { intros s' Hp. unfold k. wp_step. wp_step. set (tm' := mk_timer _ _ _ _ _).
    set (s2 := set_timers _ s').
    assert (timer_post s s2 t (λ tm, tm_callback tm = None)
      (λ u, u ≠ t ∧ Pool.in_list (timer_queue s) u = true)) as Hp'.
    { destruct Hp as [? ? ? Hok Hsame ? Hl]. split; eauto using timer_only_trans with lk.
      - apply tqinv_put_unlinked; [done|]. apply not_true_iff_false. rewrite Hl. naive_solver.
      - intros u Hu. by apply (timer_ok_put s' t tm' u), Hok.
      - intros u Hu. simpl. rewrite lookup_insert_ne by done. by apply Hsame.
      - exists tm'. simpl. by rewrite lookup_insert_eq. }
    wp_step. apply wp_gets.
    destruct (Pool.peek_head _ c) as [h|] eqn:Eh; [|apply HQ; by apply timer_post_hw].
    case_decide; [by apply HQ|].
    assert (h ∈ Pool.members (timer_queue s2) c) as Hin by (by apply head_Some_elem_of).
    destruct (tq_ok _ _ _ (tp_tqinv _ _ _ _ _ Hp') Hin) as (htm & Hh & _).
    wp_step. eapply wp_get_timer; [done|]. wp_step. apply wp_gets. apply HQ. by apply timer_post_hw. }
  destruct (Pool.in_list (timer_queue s) t) eqn:El.
  - destruct (delete_node_total _ _ El) as [p Hp]. eapply wp_on_timer_queue; [done|].
    apply Hk. split; try done.
    + apply timer_only_queue.
    + by eapply tqinv_delete.
    + eapply delete_same_heads; [apply Hinv|done].
    + by exists tm.
    + intros u. by apply in_list_delete.
  - wp_step. apply Hk. split; [apply timer_only_refl|done|done|done|done|by exists tm|].
    intros u. split; [|tauto]. intros Hu. split; [|done]. intros ->. congruence.
Qed.

(** * The queues stay sorted and the hardware timer armed *)

Lemma due_queue s p t : due (set_timer_queue p s) t = due s t.
Proof. done. Qed.

Lemma due_hw s h t : due (set_hw_timer h s) t = due s t.
Proof. done. Qed.

Lemma due_put_ne s t tm u : u ≠ t → due (set_timers (<[t := tm]> (timers s)) s) u = due s u.
Proof. intros. unfold due. simpl. by rewrite lookup_insert_ne. Qed.

Lemma due_put_eq s t tm :
  due (set_timers (<[t := tm]> (timers s)) s) t = rel (now s) (tm_scheduled_time tm).
Proof. unfold due. simpl. by rewrite lookup_insert_eq. Qed.

Lemma insert_due_ext key key' t l :
  (∀ u, u ∈ t :: l → key u = key' u) → insert_due key t l = insert_due key' t l.
Proof.
  induction l as [|e l IH]; intros Hk; simpl; [done|].
  rewrite (Hk t), (Hk e) by set_solver. rewrite IH by set_solver. done.
Qed.

Lemma insert_due_head key t l h :
  head (insert_due key t l) = Some h → h ≠ t → head l = Some h ∧ key h ≤ key t.
Proof.
  destruct l as [|e l]; simpl; [congruence|].
  destruct (Z.ltb_spec (key t) (key e)); simpl; intros; simplify_eq. done.
Qed.

(** Setting a timer inserts it in its cpu's queue behind every timer that
    is not due later and before every timer that is, leaves the other queues
    alone, keeps the queues sorted, and keeps every cpu's hardware timer armed
    no later than its first timer is due. *)
Theorem timer_set_sorted c t tm delay period cb arg s :
  tqinv s → (∀ cpu, hw_armed s cpu) → timers s !! t = Some tm → tm_magic tm = TIMER_MAGIC →
  Pool.in_list (timer_queue s) t = false → is_Some (Pool.lists (timer_queue s) !! c) →
  0 ≤ delay < HORIZON → 0 ≤ period < HORIZON →
  wp c (timer_set t delay period cb arg) (λ _ s',
    tqinv s' ∧ (∀ cpu, hw_armed s' cpu) ∧ due s' t = delay ∧
    (∀ cpu, Pool.members (timer_queue s') cpu =
       if decide (cpu = c) then insert_due (due s') t (Pool.members (timer_queue s) c)
       else Pool.members (timer_queue s) cpu)) s.
Proof.
  intros Hinv Hhw Ht Hm Hn Hq Hd Hp. unfold timer_set.
  wp_step. eapply wp_get_timer; [done|]. wp_step. wp_step; [by rewrite Hm|].
  wp_step. apply wp_timer_in_list. rewrite Hn. wp_step. apply wp_gets. do 2 wp_step. do 2 wp_step. wp_step.
  set (tm' := mk_timer _ _ _ _ _). set (s1 := set_timers _ s).
  assert (rel (now s) (tm_scheduled_time tm') = delay) as Hrel.
  { simpl. apply rel_add. unfold HORIZON in *. lia. }
  assert (tqinv s1) as Hinv1 by by apply tqinv_put_unlinked.
  assert (timers s1 !! t = Some tm') as Ht1 by by simpl; rewrite lookup_insert_eq.
  eapply (wp_insert_timer _ _ _ tm'); [done|done|simpl now; rewrite Hrel; unfold HORIZON in *; lia|done|done|].
  intros p Hwf _ Hmem.
  assert (timer_live s1 t) as Hlive.
  { exists tm'. simpl now. rewrite Hrel. unfold HORIZON in *.
    split_and!; try done; simpl; lia. }
  assert (tqinv (set_timer_queue p s1)) as Hinv2 by (by eapply tqinv_insert).
  assert (due s1 t = delay) as Hdue by (unfold s1; by rewrite due_put_eq).
  assert (∀ cpu h, Pool.peek_head p cpu = Some h → (cpu, h) ≠ (c, t) →
    ∃ x, hw_timer s !! cpu = Some x ∧ rel (now s) x ≤ Z.max 0 (due s1 h)) as Hkeep.
  { intros cpu h Hh Hne. unfold Pool.peek_head in Hh. rewrite Hmem in Hh.
    assert (Pool.peek_head (timer_queue s) cpu = Some h ∧ h ≠ t) as [Hold Hht].
    { destruct (decide (cpu = c)) as [->|].
      - apply insert_due_head in Hh as [Hh _]; [|by intros ->]. split; [done|by intros ->].
      - split; [done|]. intros ->. apply head_Some_elem_of in Hh.
        by apply (proj1 (Pool.in_list_false _ _ (tq_wf _ Hinv)) Hn cpu). }
    destruct (Hhw _ _ Hold) as (x & Hx & Hle). exists x. split; [done|].
    unfold s1. by rewrite due_put_ne. }
  wp_step. apply wp_gets. case_decide as Hhd.
  - unfold wp. simpl. split_and!; [by apply tqinv_hw|..|done|done].
    intros cpu h Hh. simpl in *. change (due _ h) with (due s1 h). destruct (decide (cpu = c)) as [->|].
    + rewrite lookup_insert_eq. eexists. split; [done|]. simplify_eq.
      rewrite Hdue, rel_add by (unfold HORIZON in *; lia). lia.
    + rewrite lookup_insert_ne by done. apply Hkeep; [done|]. congruence.
  - unfold wp. simpl. split_and!; [done|..|done|done].
    intros cpu h Hh. simpl in *. apply Hkeep; [done|]. naive_solver.
Qed.

(** Removing a member of a sorted list does not move its head earlier. *)
Lemma sorted_remove_head (key : timid → Z) t l h :
  StronglySorted (λ a b, key a ≤ key b) l → head (Pool.remove t l) = Some h →
  ∃ h0, head l = Some h0 ∧ key h0 ≤ key h.
Proof.
  intros Hs Hh. apply head_Some_elem_of, Pool.elem_of_remove in Hh as [Hin _].
  destruct Hs as [|a l Hs Hf]; [by apply not_elem_of_nil in Hin|]. exists a. split; [done|].
  apply elem_of_cons in Hin as [->|Hin]; [lia|]. rewrite Forall_forall in Hf. by apply Hf.
Qed.

(** The delay [timer_cancel] arms the hardware timer with. *)
Lemma rearm_due n x :
  - HORIZON ≤ rel n x < HORIZON →
  rel n (u32 (n + (if TIME_LT x n then 0 else u32 (x - n)))) ≤ Z.max 0 (rel n x).
Proof.
  intros Hw. rewrite rel_TIME_LT_past. unfold HORIZON in Hw.
  destruct (Z.ltb_spec (rel n x) 0).
  - rewrite rel_add by lia. lia.
  - assert (u32 (x - n) = rel n x) as ->; [|rewrite rel_add; lia].
    unfold u32. rewrite <- rel_congr, Z.mod_small; lia.
Qed.

(** Cancelling a timer takes it off its queue, whichever cpu's queue that
    is, and disarms it; the queues stay sorted and every cpu with a pending
    timer has its hardware timer armed in time. *)
Theorem timer_cancel_sorted c t tm s :
  tqinv s → (∀ cpu, hw_armed s cpu) → timers s !! t = Some tm → tm_magic tm = TIMER_MAGIC →
  wp c (timer_cancel t) (λ _ s',
    tqinv s' ∧ (∀ cpu, hw_armed s' cpu) ∧
    timers s' !! t = Some (mk_timer TIMER_MAGIC (tm_scheduled_time tm) 0 None None) ∧
    (∀ cpu, Pool.members (timer_queue s') cpu = Pool.remove t (Pool.members (timer_queue s) cpu))) s.
Proof.
  intros Hinv Hhw Ht Hm. unfold timer_cancel.
  wp_step. eapply wp_get_timer; [done|]. wp_step. wp_step; [by rewrite Hm|].
  do 2 wp_step. wp_step. apply wp_gets. wp_step. apply wp_timer_in_list. wp_step.
  set (k := λ (_ : unit), _).
  assert (∀ p, tqinv (set_timer_queue p s) →
    (∀ cpu, Pool.members p cpu = Pool.remove t (Pool.members (timer_queue s) cpu)) →
    Pool.in_list p t = false → k () (set_timer_queue p s)) as Hk.
  { intros p Hinvp Hmem Hnp. unfold k. wp_step. wp_step. set (tm' := mk_timer _ _ _ _ _).
    set (s' := set_timers _ _). assert (tqinv s') as Hinv' by (by apply tqinv_put_unlinked).
    assert (timers s' !! t = Some (mk_timer TIMER_MAGIC (tm_scheduled_time tm) 0 None None)) as Ht'.
    { simpl. rewrite lookup_insert_eq. unfold tm'. by rewrite Hm. }
    assert (∀ u, due s' u = due s u) as Hdue.
    { intros u. unfold due, s'. simpl. destruct (decide (u = t)) as [->|];
        [by rewrite lookup_insert_eq, Ht|by rewrite lookup_insert_ne]. }
    assert (∀ cpu h, Pool.peek_head p cpu = Some h →
      ∃ x, hw_timer s !! cpu = Some x ∧ rel (now s) x ≤ Z.max 0 (due s' h)) as Hkeep.
    { intros cpu h Hh. unfold Pool.peek_head in Hh. rewrite Hmem in Hh.
      destruct (sorted_remove_head (due s) _ _ _ (tq_sorted _ Hinv cpu) Hh) as (h0 & Hh0 & Hle).
      destruct (Hhw _ _ Hh0) as (x & Hx & Hxle). exists x. rewrite Hdue. split; [done|lia]. }
    wp_step. apply wp_gets. destruct (Pool.peek_head (timer_queue s') c) as [h|] eqn:Eh.
    - case_decide; [wp_step; by split_and!|].
      assert (h ∈ Pool.members (timer_queue s') c) as Hin by (by apply head_Some_elem_of).
      destruct (tq_live _ Hinv' _ _ Hin) as (htm & Hhtm & _ & _ & _ & Hwin).
      wp_step. eapply wp_get_timer; [done|]. wp_step. apply wp_gets. unfold wp. simpl.
      split_and!; [by apply tqinv_hw|..|done|done].
      intros cpu h' Hh'. simpl in *. change (due _ h') with (due s' h').
      destruct (decide (cpu = c)) as [->|]; [|rewrite lookup_insert_ne by done; by apply Hkeep].
      rewrite lookup_insert_eq. eexists. split; [done|]. simplify_eq.
      rewrite (due_eq s' _ _ Hhtm). by apply rearm_due.
    - unfold wp. simpl. split_and!; [by apply tqinv_hw|..|done|done].
      intros cpu h' Hh'. simpl in *. change (due _ h') with (due s' h').
      destruct (decide (cpu = c)) as [->|]; [congruence|].
      rewrite lookup_delete_ne by done. by apply Hkeep. }
  destruct (Pool.in_list (timer_queue s) t) eqn:El.
  - destruct (delete_node_total _ _ El) as [p Hp]. eapply wp_on_timer_queue; [done|].
    apply Hk; [by eapply tqinv_delete|intros; eapply delete_members; [apply Hinv|done]|].
    apply not_true_iff_false. rewrite (in_list_delete _ _ _ _ Hp). naive_solver.
  - wp_step. replace s with (set_timer_queue (timer_queue s) s) by by destruct s.
    apply Hk; [by destruct s| |done]. intros cpu. rewrite remove_id; [done|].
    by apply (Pool.in_list_false _ _ (tq_wf _ Hinv)).
Qed.

(** * The timer interrupt *)

(** What a handler may assume and must guarantee: it is called for an expired
    timer that has just been unlinked, preserves the kernel invariant [Inv]
    and leaves the timers alone.  Re-arming a periodic timer preserves [Inv]. *)
Class handlers_ok (c : nat) (call : timer_callback → timid → Z → option nat → M handler_return)
    (Inv : kstate → Prop) : Prop := {
  handler_call : ∀ s t tm cb p,
    Inv s → timers s !! t = Some tm → tm_callback tm = Some cb →
    Pool.in_list (timer_queue s) t = true → Pool.delete_node t (timer_queue s) = Ok p →
    wp c (call cb t (now s) (tm_arg tm)) (λ _ s',
      Inv s' ∧ timers s' = timers s ∧ timer_queue s' = p ∧ now s' = now s ∧ hw_timer s' = hw_timer s)
      (set_timer_queue p s);
  handler_rearm : ∀ s0 s t tm w p,
    Inv s0 → Pool.in_list (timer_queue s0) t = true → timers s = timers s0 →
    Inv s → timers s !! t = Some tm → 0 < tm_periodic_time tm < HORIZON →
    0 ≤ rel (now s) w < HORIZON → tqinv s → Pool.wf p → same_heads (timer_queue s) p →
    (∀ u, Pool.in_list p u = true ↔ u = t ∨ Pool.in_list (timer_queue s) u = true) →
    tqinv (set_timer_queue p (set_timers (<[t := mk_timer (tm_magic tm) w (tm_periodic_time tm)
      (tm_callback tm) (tm_arg tm)]> (timers s)) s)) →
    Inv (set_timer_queue p (set_timers (<[t := mk_timer (tm_magic tm) w (tm_periodic_time tm)
      (tm_callback tm) (tm_arg tm)]> (timers s)) s));
  handler_hw : ∀ s h, Inv s → Inv (set_hw_timer h s);
}.

Definition period (s : kstate) (t : timid) : Z :=
  match timers s !! t with Some tm => tm_periodic_time tm | None => 0 end.

(** How often [t] can still fire in this interrupt. *)
Definition tick_cost (s : kstate) (t : timid) : nat :=
  if 0 <? due s t then 0%nat else if due s t =? 0 then 1%nat else 2%nat.

Lemma tqinv_ext s s' :
  timers s' = timers s → timer_queue s' = timer_queue s → now s' = now s → tqinv s → tqinv s'.
Proof.
  intros E1 E2 E3 [Hw Hl Hs].
  assert (∀ t, due s' t = due s t) as Hd by (intros; unfold due; by rewrite E1, E3).
  split; rewrite ?E2; [done| |].
  - intros cpu t Ht. destruct (Hl _ _ Ht) as (tm & ? & ?). exists tm. by rewrite E1, E3.
  - intros cpu. specialize (Hs cpu). induction Hs as [|a l ? IH Hf]; constructor; [done|].
    eapply Forall_impl; [exact Hf|]. intros b. simpl. by rewrite !Hd.
Qed.

Lemma tick_cost_ext s s' t : due s' t = due s t → tick_cost s' t = tick_cost s t.
Proof. unfold tick_cost. by intros ->. Qed.

Section tick_spec.
Context (call : timer_callback → timid → Z → option nat → M handler_return).
Context (c : nat) (Inv : kstate → Prop) `{!handlers_ok c call Inv}.

(** What firing the head [t] of the queue does. *)
Record fired (t : timid) (rest : list timid) (s s' : kstate) : Prop := {
  fd_tqinv : tqinv s';
  fd_inv : Inv s';
  fd_now : now s' = now s;
  fd_hw : hw_timer s' = hw_timer s;
  fd_heads : same_heads (timer_queue s) (timer_queue s');
  fd_mem : Pool.members (timer_queue s') c =
             if 0 <? period s t then insert_due (due s') t rest else rest;
  fd_others : ∀ q, q ≠ c → Pool.members (timer_queue s') q = Pool.members (timer_queue s) q;
  fd_timers : ∀ u, u ≠ t → timers s' !! u = timers s !! u;
  fd_period : period s' t = period s t;
  fd_oneshot : ¬ 0 < period s t → due s' t = due s t;
  fd_cost : 0 < period s t → (tick_cost s' t < tick_cost s t)%nat;
}.

Lemma rearmed_due n w per :
  0 < per < HORIZON → - HORIZON ≤ rel n w ≤ 0 →
  let due := u32 (w + per) in
  let due := if TIME_LT due n then u32 (n + per) else due in
  0 ≤ rel n due < HORIZON ∧ (rel n w = 0 → 0 < rel n due).
Proof.
  intros Hp Hr. unfold HORIZON in *. cbv zeta. rewrite rel_TIME_LT_past, rel_advance by lia.
  destruct (Z.ltb_spec (rel n w + per) 0); [rewrite rel_add by lia; lia|].
  rewrite rel_advance by lia. lia.
Qed.

(** Dequeuing the head of a queue. *)
Lemma dequeue_head t rest s :
  tqinv s → Pool.members (timer_queue s) c = t :: rest →
  ∃ p, Pool.delete_node t (timer_queue s) = Ok p ∧ tqinv (set_timer_queue p s) ∧
    Pool.members p c = rest ∧
    (∀ q, q ≠ c → Pool.members p q = Pool.members (timer_queue s) q) ∧
    Pool.in_list (timer_queue s) t = true ∧ Pool.in_list p t = false ∧
    same_heads (timer_queue s) p ∧ is_Some (Pool.lists p !! c).
Proof.
  intros Hinv Hmem. assert (t ∈ Pool.members (timer_queue s) c) as Hin by (rewrite Hmem; left).
  assert (Pool.in_list (timer_queue s) t = true) as Hlk.
  { apply (Pool.in_list_true _ _ (tq_wf _ Hinv)). by exists c. }
  destruct (delete_node_total _ _ Hlk) as [p Hp]. exists p.
  pose proof (λ q, delete_members _ _ _ q (tq_wf _ Hinv) Hp) as Hmp.
  pose proof (Pool.wf_nodup _ (tq_wf _ Hinv) c) as Hnd. rewrite Hmem, NoDup_cons in Hnd.
  assert (same_heads (timer_queue s) p) as Hsh by (eapply delete_same_heads; [apply Hinv|done]).
  split_and!; [done|by eapply tqinv_delete|..|done| |done|].
  - rewrite Hmp, Hmem. apply (Pool.remove_split t []); set_solver.
  - intros q Hq. rewrite Hmp. apply remove_id. intros Hin'. apply Hq.
    by eapply (Pool.members_disjoint _ t); [apply Hinv| |].
  - apply not_true_iff_false. rewrite (in_list_delete _ _ _ _ Hp). tauto.
  - apply Hsh. apply (Pool.wf_init _ (tq_wf _ Hinv) t). by apply (Pool.wf_owner _ (tq_wf _ Hinv)).
Qed.

(** Re-arming a periodic timer that has been called. *)
Lemma wp_timer_rearm t tm w s0 s (Q : unit → kstate → Prop) :
  let tm' := mk_timer (tm_magic tm) w (tm_periodic_time tm) (tm_callback tm) (tm_arg tm) in
  let s2 := set_timers (<[t := tm']> (timers s)) s in
  Inv s0 → Pool.in_list (timer_queue s0) t = true → timers s = timers s0 →
  tqinv s → Inv s → timers s !! t = Some tm → tm_magic tm = TIMER_MAGIC →
  is_Some (tm_callback tm) → 0 < tm_periodic_time tm < HORIZON →
  0 ≤ rel (now s) w < HORIZON → Pool.in_list (timer_queue s) t = false →
  is_Some (Pool.lists (timer_queue s) !! c) →
  (∀ p, tqinv (set_timer_queue p s2) → Inv (set_timer_queue p s2) →
     same_heads (timer_queue s) p →
     (∀ q, Pool.members p q = if decide (q = c)
        then insert_due (due s2) t (Pool.members (timer_queue s) c) else Pool.members (timer_queue s) q) →
     Q () (set_timer_queue p s2)) →
  wp c (put_timer t tm';; insert_timer_in_queue c t) Q s.
Proof using handlers_ok0.
  intros tm' s2 HI0 Hl0 E0 Hinv HI Ht Hmg Hcb Hper Hw Hnl Hq HQ. wp_step. wp_step. fold s2.
  assert (tqinv s2) as Hinv2 by by apply tqinv_put_unlinked.
  assert (timers s2 !! t = Some tm') as Ht2 by by simpl; rewrite lookup_insert_eq.
  eapply (wp_insert_timer _ _ _ tm'); [done|done|simpl; unfold HORIZON in *; lia|done|done|].
  intros p Hwf Hsh Hmem.
  assert (tqinv (set_timer_queue p s2)) as Hinvp.
  { apply (tqinv_insert s2 t p c); [done| |done|done].
    exists tm'. split_and!; simpl; unfold HORIZON in *; try done; lia. }
  apply HQ; [done| |done|done].
  apply (handler_rearm s0 _ _ tm w); try done.
  intros u. eapply in_list_insert_due; [apply Hinv|done|exact Hmem].
Qed.

Lemma wp_timer_fire t rest s (Q : handler_return → kstate → Prop) :
  tqinv s → Inv s → Pool.members (timer_queue s) c = t :: rest → due s t ≤ 0 →
  (∀ r s', fired t rest s s' → Q r s') → wp c (timer_fire call c (now s) t) Q s.
Proof using handlers_ok0.
  intros Hinv HI Hmem Hdue HQ.
  destruct (tq_live _ Hinv c t) as (tm & Ht & Hmg & [cb Hcb] & Hper & Hwin); [rewrite Hmem; left|].
  destruct (dequeue_head _ _ _ Hinv Hmem) as (p & Hp & Hinvp & Hmc & Hmo & Hlk & Hnl & Hsh & Hq).
  unfold timer_fire. wp_step. eapply wp_get_timer; [done|]. wp_step. wp_step; [by rewrite Hmg|].
  wp_step. eapply wp_on_timer_queue; [done|]. wp_step. rewrite Hcb.
  eapply wp_mono; [by eapply handler_call|]. cbn beta.
  intros r s1 (HI1 & E1 & E2 & E3 & E4).
  assert (tqinv s1) as Hinv1 by (by eapply (tqinv_ext (set_timer_queue p s))).
  assert (period s t = tm_periodic_time tm) as Hps by (unfold period; by rewrite Ht).
  wp_step. rewrite (due_eq _ _ _ Ht) in Hdue. destruct (0 <? tm_periodic_time tm) eqn:Eper.
  - wp_step. apply wp_timer_in_list. wp_step. eapply wp_get_timer; [by rewrite E1|].
    rewrite E2, Hnl, Eper. simpl negb. cbn [andb]. zbool.
    destruct (rearmed_due (now s) (tm_scheduled_time tm) (tm_periodic_time tm)
      ltac:(lia) ltac:(lia)) as [Hrw Hr0].
    set (w := if TIME_LT _ _ then _ else _) in *.
    apply (wp_timer_rearm _ _ _ s); [done|done|done|done|done|by rewrite E1|done|by rewrite Hcb|lia|by rewrite E3|by rewrite E2|by rewrite E2|].
    set (s2 := set_timers _ s1). rewrite E2, Hmc. intros p2 Hinv2 HI2 Hsh2 Hmem2. wp_step. apply HQ.
    assert (due s2 t = rel (now s) w) as Hd2.
    { unfold s2. rewrite due_put_eq. simpl. by rewrite E3. }
    split; simpl; try done.
    + by eapply same_heads_trans.
    + rewrite Hps, Hmem2, decide_True by done. by rewrite (proj2 (Z.ltb_lt _ _) Eper).
    + intros q Hq'. rewrite Hmem2, decide_False by done. by apply Hmo.
    + intros u Hu. rewrite lookup_insert_ne by done. by rewrite E1.
    + unfold period. simpl. by rewrite lookup_insert_eq, Ht.
    + rewrite Hps. lia.
    + intros _. unfold tick_cost. rewrite due_queue, Hd2, (due_eq _ _ _ Ht).
      repeat case_match; zbool; lia.
  - do 2 wp_step. apply HQ. split; rewrite ?E1, ?E2; try done.
    + by rewrite Hps, Eper.
    + unfold period. by rewrite E1.
    + intros _. unfold due. by rewrite E1, E3.
    + rewrite Hps. zbool. lia.
Qed.

(** The loop of [timer_tick], relative to the state [s0] it starts in. *)
Record tick_inv (s0 s : kstate) : Prop := {
  ti_tqinv : tqinv s;
  ti_inv : Inv s;
  ti_now : now s = now s0;
  ti_heads : same_heads (timer_queue s0) (timer_queue s);
  ti_others : ∀ q, q ≠ c → Pool.members (timer_queue s) q = Pool.members (timer_queue s0) q;
  ti_period : ∀ u, period s u = period s0 u;
  ti_sub : ∀ u, u ∈ Pool.members (timer_queue s) c → u ∈ Pool.members (timer_queue s0) c;
  ti_keep : ∀ u, u ∈ Pool.members (timer_queue s0) c → 0 < due s0 u ∨ 0 < period s0 u →
              u ∈ Pool.members (timer_queue s) c;
  ti_oneshot : ∀ u, ¬ 0 < period s0 u → due s u = due s0 u;
}.

Definition tick_total (s : kstate) : nat :=
  sum_list_with (tick_cost s) (Pool.members (timer_queue s) c).

Lemma fired_due t rest s s' u : fired t rest s s' → u ≠ t → due s' u = due s u.
Proof. intros Hf Hu. unfold due. by rewrite (fd_timers _ _ _ _ Hf u Hu), (fd_now _ _ _ _ Hf). Qed.

Lemma sum_cost_ext s s' l :
  (∀ u, u ∈ l → due s' u = due s u) → sum_list_with (tick_cost s') l = sum_list_with (tick_cost s) l.
Proof.
  induction l as [|u l IH]; intros Hd; [done|]. simpl.
  rewrite IH by set_solver. by rewrite (tick_cost_ext s s' u) by set_solver.
Qed.

Lemma tick_total_bound s :
  (tick_total s ≤ 2 * length (Pool.members (timer_queue s) c))%nat.
Proof.
  unfold tick_total. induction (Pool.members (timer_queue s) c) as [|u l IH]; simpl; [lia|].
  assert (tick_cost s u ≤ 2)%nat by (unfold tick_cost; repeat case_match; lia). lia.
Qed.

Lemma sum_list_with_perm {A} (f : A → nat) l l' :
  l ≡ₚ l' → sum_list_with f l = sum_list_with f l'.
Proof. induction 1; simpl; lia. Qed.

Lemma fired_total t rest s s' :
  tqinv s → Pool.members (timer_queue s) c = t :: rest → due s t ≤ 0 →
  fired t rest s s' → (tick_total s' < tick_total s)%nat.
Proof.
  intros Hinv Hmem Hd Hf. unfold tick_total. rewrite Hmem, (fd_mem _ _ _ _ Hf). simpl.
  pose proof (Pool.wf_nodup _ (tq_wf _ Hinv) c) as Hnd. rewrite Hmem, NoDup_cons in Hnd.
  assert (sum_list_with (tick_cost s') rest = sum_list_with (tick_cost s) rest) as Hr.
  { apply sum_cost_ext. intros u Hu. eapply fired_due; [done|]. set_solver. }
  destruct (Z.ltb_spec 0 (period s t)) as [Hp|Hp].
  - rewrite (sum_list_with_perm _ _ _ (insert_due_perm _ _ _)). simpl.
    pose proof (fd_cost _ _ _ _ Hf Hp). lia.
  - rewrite Hr. unfold tick_cost at 2. repeat case_match; zbool; lia.
Qed.

Lemma tick_inv_fired s0 t rest s s' :
  tick_inv s0 s → Pool.members (timer_queue s) c = t :: rest → due s t ≤ 0 →
  fired t rest s s' → tick_inv s0 s'.
Proof.
  intros Hi Hmem Hd Hf.
  assert (∀ u, u ∈ Pool.members (timer_queue s') c → u ∈ t :: rest) as Hsub.
  { intros u. rewrite (fd_mem _ _ _ _ Hf). case_match; [by rewrite insert_due_perm|].
    set_solver. }
  split.
  - apply Hf.
  - apply Hf.
  - by rewrite (fd_now _ _ _ _ Hf), (ti_now _ _ Hi).
  - eapply same_heads_trans; [apply Hi|apply Hf].
  - intros q Hq. rewrite (fd_others _ _ _ _ Hf) by done. by apply Hi.
  - intros u. rewrite <- (ti_period _ _ Hi). destruct (decide (u = t)) as [->|]; [apply Hf|].
    unfold period. by rewrite (fd_timers _ _ _ _ Hf).
  - intros u Hu%Hsub. apply (ti_sub _ _ Hi). by rewrite Hmem.
  - intros u Hu0 Hu. pose proof (ti_keep _ _ Hi u Hu0 Hu) as Hin.
    rewrite Hmem, elem_of_cons in Hin. rewrite (fd_mem _ _ _ _ Hf).
    destruct (Z.ltb_spec 0 (period s t)); [rewrite insert_due_perm, elem_of_cons; done|].
    destruct Hin as [->|Hin]; [|done]. rewrite (ti_period _ _ Hi) in *.
    rewrite (ti_oneshot _ _ Hi) in Hd by lia. lia.
  - intros u Hu. rewrite <- (ti_oneshot _ _ Hi) by done. destruct (decide (u = t)) as [->|];
      [|by eapply fired_due].
    apply (fd_oneshot _ _ _ _ Hf).
    by rewrite (ti_period _ _ Hi).
Qed.

Lemma wp_timer_tick_loop s0 fuel s ret (Q : handler_return → kstate → Prop) :
  tick_inv s0 s → (tick_total s < fuel)%nat →
  (∀ r s', tick_inv s0 s' → (∀ t, t ∈ Pool.members (timer_queue s') c → 0 < due s' t) → Q r s') →
  wp c (timer_tick_loop call fuel c (now s0) ret) Q s.
Proof using handlers_ok0.
  revert s ret. induction fuel as [|fuel IH]; intros s ret Hi Hf HQ; [lia|]. simpl.
  wp_step. apply wp_gets. unfold Pool.peek_head.
  destruct (Pool.members (timer_queue s) c) as [|t rest] eqn:Hmem; simpl.
  { wp_step. apply HQ; [done|]. rewrite Hmem. set_solver. }
  destruct (tq_live _ (ti_tqinv _ _ Hi) c t) as (tm & Ht & _ & _ & _ & Hw); [rewrite Hmem; left|].
  wp_step. eapply wp_get_timer; [done|].
  pose proof (rel_TIME_LT_now (now s0) (tm_scheduled_time tm)) as Hlt.
  rewrite <- (ti_now _ _ Hi) in *. rewrite <- (due_eq _ _ _ Ht) in *. unfold HORIZON in Hw.
  destruct (TIME_LT _ _).
  - wp_step. apply HQ; [done|]. pose proof (tq_sorted _ (ti_tqinv _ _ Hi) c) as Hs.
    rewrite Hmem in *. apply StronglySorted_inv in Hs as [_ Hs]. rewrite Forall_forall in Hs.
    assert (0 < due s t) by naive_solver lia.
    intros u [->|Hu]%elem_of_cons; [done|]. specialize (Hs u Hu). simpl in Hs. lia.
  - assert (due s t ≤ 0) as Hd by (destruct (decide (due s t ≤ 0)); [done|naive_solver lia]).
    wp_step. eapply wp_timer_fire; [apply Hi|apply Hi|done|done|].
    intros r s' Hfd. apply IH; [by eapply tick_inv_fired| |done].
    pose proof (fired_total _ _ _ _ (ti_tqinv _ _ Hi) Hmem Hd Hfd). lia.
Qed.

Lemma wp_timer_tick fuel s :
  tqinv s → Inv s → (2 * length (Pool.members (timer_queue s) c) < fuel)%nat →
  wp c (timer_tick call fuel (now s)) (λ _ s',
    tqinv s' ∧ Inv s' ∧ hw_armed s' c ∧ same_heads (timer_queue s) (timer_queue s') ∧
    (∀ t, t ∈ Pool.members (timer_queue s') c → 0 < due s' t) ∧
    (∀ t, t ∈ Pool.members (timer_queue s') c ↔
       t ∈ Pool.members (timer_queue s) c ∧ (0 < due s t ∨ 0 < period s t)) ∧
    (∀ q, q ≠ c → Pool.members (timer_queue s') q = Pool.members (timer_queue s) q)) s.
Proof using handlers_ok0.
  intros Hinv HI Hf. unfold timer_tick. do 2 wp_step. wp_step.
  eapply (wp_timer_tick_loop s).
  { split; try done. }
  { pose proof (tick_total_bound s). lia. }
  intros r s' Hi Hpos.
  assert (∀ t, t ∈ Pool.members (timer_queue s') c ↔
    t ∈ Pool.members (timer_queue s) c ∧ (0 < due s t ∨ 0 < period s t)) as Hmem.
  { intros t. split; [|intros [? ?]; by apply (ti_keep _ _ Hi)].
    intros Ht. split; [by apply (ti_sub _ _ Hi)|].
    destruct (decide (0 < period s t)); [by right|]. left.
    rewrite <- (ti_oneshot _ _ Hi) by done. by apply Hpos. }
  wp_step. apply wp_gets. destruct (Pool.peek_head (timer_queue s') c) as [h|] eqn:Eh.
  - assert (h ∈ Pool.members (timer_queue s') c) as Hin by (by apply head_Some_elem_of).
    destruct (tq_live _ (ti_tqinv _ _ Hi) _ _ Hin) as (tm & Ht & _ & _ & _ & Hw).
    pose proof (Hpos h Hin) as Hd. rewrite (due_eq _ _ _ Ht) in Hd. rewrite (ti_now _ _ Hi) in Hd, Hw.
    wp_step. eapply wp_get_timer; [done|]. wp_step. wp_step; [by apply Z.ltb_lt|].
    wp_step. unfold wp at 1. simpl. wp_step. split_and!; try apply Hi; try done.
    + by apply tqinv_hw, Hi.
    + by eapply handler_hw, Hi.
    + intros t Et. simpl in *. rewrite lookup_insert_eq. eexists. split; [done|].
      simplify_eq. rewrite due_hw, (due_eq _ _ _ Ht), (ti_now _ _ Hi).
      assert (u32 (tm_scheduled_time tm - now s) = rel (now s) (tm_scheduled_time tm)) as ->.
      { unfold u32, HORIZON in *. rewrite <- rel_congr, Z.mod_small; lia. }
      rewrite rel_add; unfold HORIZON in *; lia.
  - wp_step. split_and!; try apply Hi; try done. intros t Et. congruence.
Qed.

End tick_spec.

(** * A state with two pending timers, for the examples *)

Definition ex_timers : gmap timid timer :=
  {[ TmUser 1 := mk_timer TIMER_MAGIC 95 10 (Some (CbOther 0)) None;
     TmUser 2 := mk_timer TIMER_MAGIC 120 0 (Some (CbOther 1)) None;
     TmUser 3 := mk_timer TIMER_MAGIC 0 0 None None ]}.
Definition ex_queue : Pool.pool nat timid :=
  Pool.link 0%nat (TmUser 2) [TmUser 1; TmUser 2]
    (Pool.link 0%nat (TmUser 1) [TmUser 1] (Pool.init_list 0%nat Pool.empty_pool)).
Definition ex_state : kstate :=
  set_now 100 (set_hw_timer {[ 0%nat := 95 ]} (set_timers ex_timers (set_timer_queue ex_queue kstate0))).

Lemma ex_members q : Pool.members ex_queue q = if decide (q = 0%nat) then [TmUser 1; TmUser 2] else [].
Proof.
  unfold ex_queue, Pool.link, Pool.init_list. rewrite Pool.members_insert. case_decide; [done|].
  rewrite Pool.members_insert, decide_False by done.
  rewrite (Pool.members_insert Pool.empty_pool), decide_False by done.
  unfold Pool.members. simpl. by rewrite lookup_empty.
Qed.

Lemma ex_wf : Pool.wf ex_queue.
Proof.
  apply Pool.wf_link; [apply Pool.wf_link; [apply Pool.wf_init_list; [apply Pool.wf_empty|done]|..]|..];
    try done. by rewrite Permutation_swap.
Qed.

Lemma ex_tqinv : tqinv ex_state.
Proof.
  split; simpl; [apply ex_wf|..].
  - intros q t. rewrite ex_members. case_decide; [|set_solver].
    rewrite !elem_of_cons, elem_of_nil. intros [->|[->|[]]];
      (eexists; split; [reflexivity|]; split_and!; solve [zcalc | by eexists]).
  - intros q. rewrite ex_members. case_decide; repeat constructor; zcalc.
Qed.

Lemma ex_hw cpu : hw_armed ex_state cpu.
Proof.
  intros t. unfold Pool.peek_head. simpl. rewrite ex_members. case_decide; [|done]. subst.
  intros [= <-]. exists 95. split; [done|]. zcalc.
Qed.

Lemma timer_set_sorted_witness :
  wp 0 (timer_set (TmUser 3) 20 0 (CbOther 2) None) (λ _ s',
    tqinv s' ∧ due s' (TmUser 3) = 20 ∧ hw_armed s' 0) ex_state.
Proof.
  eapply wp_mono.
  - apply (timer_set_sorted 0 (TmUser 3) (mk_timer TIMER_MAGIC 0 0 None None) 20 0 (CbOther 2) None ex_state);
      [apply ex_tqinv|apply ex_hw|reflexivity|reflexivity|reflexivity|by eexists|unfold HORIZON; lia|unfold HORIZON; lia].
  - intros _ s' (Hi & Hh & Hd & _). by split_and!.
Defined.

Lemma timer_cancel_sorted_witness :
  wp 0 (timer_cancel (TmUser 1)) (λ _ s',
    tqinv s' ∧ Pool.members (timer_queue s') 0%nat = [TmUser 2]) ex_state.
Proof.
  eapply wp_mono.
  - apply (timer_cancel_sorted 0 (TmUser 1) (mk_timer TIMER_MAGIC 95 10 (Some (CbOther 0)) None));
      [apply ex_tqinv|apply ex_hw|reflexivity|reflexivity].
  - intros _ s' (Hi & _ & _ & Hm). by rewrite Hm.
Defined.

(** Handlers that do nothing. *)
Definition quiet (cb : timer_callback) (t : timid) (n : Z) (arg : option nat) : M handler_return :=
  mret INT_NO_RESCHEDULE.

Lemma quiet_ok : handlers_ok 0 quiet (λ _, True).
Proof. split; [|done..]. intros. apply wp_ret. by split_and!. Qed.

