(* ===== verification/Thread.v ===== *)
(** Threads, the scheduler and wait queues: [kernel/thread.c], for a kernel
    built with [WITH_SMP], [WITH_KERNEL_VM] and [PLATFORM_HAS_DYNAMIC_TIMER].

    Code that runs under one hold of the thread lock is in the monad [M].  Code
    that switches threads or releases the lock in between is a resumption [K]:
    a sequence of operations with break points.  At a break other cpus and
    threads can act; the thread continues when it is again (or still) current
    on a cpu, possibly another one. *)
From stdpp Require Import prelude gmap strings.
From S2P Require Import Prelude Pow2 IntrusiveList KState Mp Timer.

#[local] Open Scope Z_scope.

(** * Resumptions *)

Inductive K (A : Type) : Type :=
| KRet (a : A)
| KOp {X : Type} (m : M X) (k : X → K A)
| KBreak (k : K A).
Arguments KRet {A} a.
Arguments KOp {A X} m k.
Arguments KBreak {A} k.

Fixpoint K_bind {A B} (f : A → K B) (k : K A) : K B :=
  match k with
  | KRet a => f a
  | KOp m g => KOp m (λ x, K_bind f (g x))
  | KBreak k => KBreak (K_bind f k)
  end.
#[global] Instance K_mret : MRet K := @KRet.
#[global] Instance K_mbind : MBind K := @K_bind.

Definition op {A} (m : M A) : K A := KOp m KRet.

(** Run up to the end or the next break. *)
Fixpoint exec {A} (c : nat) (k : K A) (s : kstate) : res ((A + K A) * kstate) :=
  match k with
  | KRet a => Ok (inl a, s)
  | KOp m g => match m c s with Ok (x, s') => exec c (g x) s' | Fault e => Fault e end
  | KBreak k => Ok (inr k, s)
  end.

(** * Run queues *)

Definition on_bitmap (f : Z → Z) : M unit :=
  modify (λ s, set_run_queue_bitmap (f (run_queue_bitmap s)) s).
Definition queue_node_in_list (t : tid) : M bool := gets (λ s, Pool.in_list (queues s) t).

Definition insert_in_run_queue_head (t : tid) : M unit :=
  th ← get_thread t;
  debug_assert (t_magic th =? THREAD_MAGIC);;
  debug_assert (bool_decide (t_state th = THREAD_READY));;
  linked ← queue_node_in_list t;
  debug_assert (negb linked);;
  on_queues (Pool.add_head (RunQ (t_priority th)) t);;
  on_bitmap (λ b, set_bit b (t_priority th)).

Definition insert_in_run_queue_tail (t : tid) : M unit :=
  th ← get_thread t;
  debug_assert (t_magic th =? THREAD_MAGIC);;
  debug_assert (bool_decide (t_state th = THREAD_READY));;
  linked ← queue_node_in_list t;
  debug_assert (negb linked);;
  on_queues (Pool.add_tail (RunQ (t_priority th)) t);;
  on_bitmap (λ b, set_bit b (t_priority th)).

Definition wakeup_cpu_for_thread (t : tid) : M unit :=
  th ← get_thread t;
  if t_pinned_cpu th <? 0 then mp_reschedule MP_IPI_TARGET_ALL_BUT_LOCAL 0 0
  else mp_reschedule MP_IPI_TARGET_MASK (bit (t_pinned_cpu th)) 0.

(** * Thread properties *)

Definition thread_is_realtime (th : thread) : bool :=
  has_flag (t_flags th) THREAD_FLAG_REAL_TIME && (DEFAULT_PRIORITY <? t_priority th).
Definition thread_is_idle (th : thread) : bool := has_flag (t_flags th) THREAD_FLAG_IDLE.
Definition thread_is_real_time_or_idle (th : thread) : bool :=
  has_flag (t_flags th) (Z.lor THREAD_FLAG_REAL_TIME THREAD_FLAG_IDLE).

(** * Wait queue initialisation *)

(** Reinitialising a queue that has waiters would lose them: a fault. *)
Definition wait_queue_init (w : wqid) : M unit :=
  l ← gets (λ s, Pool.members (queues s) (WaitQ w));
  match l with
  | [] => modify (λ s, set_queues (Pool.init_list (WaitQ w) (queues s)) s);;
          put_wait_queue w (mk_wait_queue WAIT_QUEUE_MAGIC 0)
  | _ :: _ => lift (Fault BadAccess)
  end.

(** * Creation *)

Definition MAX_TLS_ENTRY : nat := 1.

(** [strlcpy] into [char name[32]] *)
Definition thread_name (name : string) : string := String.substring 0 31 name.

(** Clearing a thread that is linked would break the lists: a fault. *)
Definition init_thread_struct (t : tid) (name : string) : M unit :=
  linked ← gets (λ s, Pool.in_list (queues s) t || Pool.in_list (thread_list s) t);
  if linked : bool then lift (Fault BadAccess) else
  put_thread t (mk_thread THREAD_MAGIC 0 THREAD_SUSPENDED 0 0 0 (-1) None None 0 None 0 0 0 0
                  (replicate MAX_TLS_ENTRY 0) (thread_name name));;
  put_wait_queue (WqRetcode t) (mk_wait_queue 0 0).

(** The results of the two calls of [malloc] are arguments. *)
Definition thread_create_etc (t malloc_thread : option tid) (name : string) (entry arg : nat)
    (priority : Z) (stack malloc_stack : option nat) (stack_size : Z) : M (option tid) :=
  match (match t with Some t => Some (t, 0) | None => (λ t, (t, THREAD_FLAG_FREE_STRUCT)) <$> malloc_thread end) with
  | None => mret None
  | Some (t, flags) =>
      init_thread_struct t name;;
      mod_thread t (λ th, with_curr_cpu (-1) (with_wait_queue_block_ret NO_ERROR
        (with_blocking_wait_queue None (with_state THREAD_SUSPENDED (with_priority priority
        (with_arg arg (with_entry entry th)))))));;
      mod_thread t (with_retcode 0);;
      wait_queue_init (WqRetcode t);;
      mod_thread t (with_aspace None);;
      match (match stack with Some s => Some (s, flags)
             | None => (λ s, (s, Z.lor flags THREAD_FLAG_FREE_STACK)) <$> malloc_stack end) with
      | None =>
          (if has_flag flags THREAD_FLAG_FREE_STRUCT
           then modify (λ s, set_freed (ObjThread t :: freed s)
                  (set_threads (delete t (threads s))
                  (set_wait_queues (delete (WqRetcode t) (wait_queues s)) s)))
           else mret ());;
          mret None
      | Some (stk, flags) =>
          mod_thread t (λ th, with_flags flags (with_stack_size stack_size (with_stack (Some stk) th)));;
          current_thread ← get_current_thread;
          cth ← get_thread current_thread;
          mod_thread t (with_tls (<[0%nat := 0]> (t_tls cth)));;
          on_thread_list (Pool.add_head () t);;
          mret (Some t)
      end
  end.

Definition thread_create (malloc_thread : option tid) (name : string) (entry arg : nat)
    (priority : Z) (malloc_stack : option nat) (stack_size : Z) : M (option tid) :=
  thread_create_etc None malloc_thread name entry arg priority None malloc_stack stack_size.

Definition thread_set_real_time (t : option tid) : M Z :=
  match t with
  | None => mret ERR_INVALID_ARGS
  | Some t =>
      th ← get_thread t;
      debug_assert (t_magic th =? THREAD_MAGIC);;
      current_thread ← get_current_thread;
      cpu ← arch_curr_cpu_num;
      (if decide (t = current_thread) then timer_cancel (TmPreempt cpu) else mret ());;
      mod_thread t (λ th, with_flags (Z.lor (t_flags th) THREAD_FLAG_REAL_TIME) th);;
      mret NO_ERROR
  end.

(** * The scheduler *)

(** The statically allocated idle threads come first. *)
Definition idle_thread (cpu : nat) : tid := cpu.

(** Whether a thread may run on [cpu]. *)
Definition cpu_eligible (cpu : nat) (th : thread) : bool :=
  (t_pinned_cpu th <? 0) || (t_pinned_cpu th =? Z.of_nat cpu).

(** [list_for_every_entry] over one run queue. *)
Fixpoint find_eligible (ths : gmap tid thread) (cpu : nat) (l : list tid) : res (option tid) :=
  match l with
  | [] => Ok None
  | t :: l =>
      th ← of_option BadAccess (ths !! t);
      if cpu_eligible cpu th then Ok (Some t) else find_eligible ths cpu l
  end.

Fixpoint get_top_thread_loop (fuel : nat) (cpu : nat) (local_run_queue_bitmap : Z) : M tid :=
  match fuel with
  | O => lift (Fault OutOfFuel)
  | S fuel =>
      if local_run_queue_bitmap =? 0 then mret (idle_thread cpu) else
      let next_queue := 32 - 1 - clz32 local_run_queue_bitmap in
      ths ← gets threads;
      l ← gets (λ s, Pool.members (queues s) (RunQ next_queue));
      newthread ← lift (find_eligible ths cpu l);
      match newthread with
      | Some t =>
          on_queues (Pool.delete_node t);;
          empty ← gets (λ s, Pool.is_empty (queues s) (RunQ next_queue));
          (if empty : bool then on_bitmap (λ b, clear_bit b next_queue) else mret ());;
          mret t
      | None => get_top_thread_loop fuel cpu (clear_bit local_run_queue_bitmap next_queue)
      end
  end.

(** The loop clears one of 32 bits in each iteration. *)
Definition get_top_thread (cpu : nat) : M tid :=
  b ← gets run_queue_bitmap;
  get_top_thread_loop 33 cpu b.

(** [vmm_context_switch]: load the new address space on this cpu. *)
Definition vmm_context_switch (oldspace newaspace : option nat) : M unit := λ c s,
  Ok ((), set_mmu (<[c := newaspace]> (mmu s)) s).

(** The part of [thread_resched] that switches to a different thread. *)
Definition resched_switch (cpu : nat) (oldthread newthread : tid) : M unit :=
  mod_thread newthread (λ th, if t_remaining_quantum th <=? 0 then with_remaining_quantum 5 th else th);;
  mod_thread oldthread (with_curr_cpu (-1));;
  mod_thread newthread (with_curr_cpu (Z.of_nat cpu));;
  nth ← get_thread newthread;
  oth ← get_thread oldthread;
  (if thread_is_idle nth then mp_set_cpu_idle cpu else mp_set_cpu_busy cpu);;
  (if thread_is_realtime nth then mp_set_cpu_realtime cpu else mp_set_cpu_non_realtime cpu);;
  (if thread_is_real_time_or_idle nth
   then if thread_is_real_time_or_idle oth then mret () else timer_cancel (TmPreempt cpu)
   else if thread_is_real_time_or_idle oth
        then timer_set_periodic (TmPreempt cpu) 10 CbThreadTimerTick None
        else mret ());;
  set_current_thread newthread;;
  (if decide (t_aspace nth = t_aspace oth) then mret ()
   else vmm_context_switch (t_aspace oth) (t_aspace nth)).

(** Returns whether another thread now runs on this cpu. *)
Definition thread_resched : M bool :=
  current_thread ← get_current_thread;
  cpu ← arch_curr_cpu_num;
  cth ← get_thread current_thread;
  debug_assert (bool_decide (t_state cth ≠ THREAD_RUNNING));;
  newthread ← get_top_thread cpu;
  mod_thread newthread (with_state THREAD_RUNNING);;
  if decide (newthread = current_thread) then mret false else
  resched_switch cpu current_thread newthread;;
  mret true.

(** The call of [thread_resched] as seen by the calling thread: it returns
    when that thread runs again. *)
Definition resched : K unit :=
  switched ← op thread_resched;
  if switched : bool then KBreak (KRet ()) else KRet ().

Definition thread_yield : K unit :=
  op (current_thread ← get_current_thread;
      cth ← get_thread current_thread;
      debug_assert (t_magic cth =? THREAD_MAGIC);;
      debug_assert (bool_decide (t_state cth = THREAD_RUNNING));;
      mod_thread current_thread (λ th, with_remaining_quantum 0 (with_state THREAD_READY th));;
      if thread_is_idle cth then mret () else insert_in_run_queue_tail current_thread);;
  resched.

Definition thread_preempt : K unit :=
  op (current_thread ← get_current_thread;
      cth ← get_thread current_thread;
      debug_assert (t_magic cth =? THREAD_MAGIC);;
      debug_assert (bool_decide (t_state cth = THREAD_RUNNING));;
      mod_thread current_thread (with_state THREAD_READY);;
      if thread_is_idle cth then mret ()
      else if 0 <? t_remaining_quantum cth then insert_in_run_queue_head current_thread
      else insert_in_run_queue_tail current_thread);;
  resched.

Definition thread_block : K unit :=
  op (current_thread ← get_current_thread;
      cth ← get_thread current_thread;
      debug_assert (t_magic cth =? THREAD_MAGIC);;
      debug_assert (bool_decide (t_state cth = THREAD_BLOCKED));;
      debug_assert (negb (thread_is_idle cth)));;
  resched.

Definition thread_unblock (t : tid) (rsc : bool) : K unit :=
  op (th ← get_thread t;
      debug_assert (t_magic th =? THREAD_MAGIC);;
      debug_assert (bool_decide (t_state th = THREAD_BLOCKED));;
      debug_assert (negb (thread_is_idle th));;
      mod_thread t (with_state THREAD_READY);;
      insert_in_run_queue_head t;;
      wakeup_cpu_for_thread t);;
  if rsc then resched else KRet ().

(** [arch_ints_disabled()] at the call is the argument [ints_disabled]. *)
Definition thread_resume (t : tid) (ints_disabled : bool) : K Z :=
  rsc ← op (
      th ← get_thread t;
      debug_assert (t_magic th =? THREAD_MAGIC);;
      debug_assert (bool_decide (t_state th ≠ THREAD_DEATH));;
      rsc ← (if decide (t_state th = THREAD_SUSPENDED)
             then mod_thread t (with_state THREAD_READY);;
                  insert_in_run_queue_head t;;
                  mret (negb ints_disabled)
             else mret false);
      wakeup_cpu_for_thread t;;
      mret rsc);
  (if rsc : bool then KBreak (KRet ());; thread_yield else KRet ());;
  KRet NO_ERROR.

Definition thread_set_priority (priority : Z) : K unit :=
  op (current_thread ← get_current_thread;
      let priority := if priority <=? IDLE_PRIORITY then IDLE_PRIORITY + 1 else priority in
      let priority := if HIGHEST_PRIORITY <? priority then HIGHEST_PRIORITY else priority in
      mod_thread current_thread (with_priority priority);;
      mod_thread current_thread (with_state THREAD_READY);;
      insert_in_run_queue_head current_thread);;
  resched.

(** * Timer callbacks and sleeping *)

Definition thread_timer_tick : M handler_return :=
  current_thread ← get_current_thread;
  cth ← get_thread current_thread;
  if thread_is_real_time_or_idle cth then mret INT_NO_RESCHEDULE else
  let q := s32 (t_remaining_quantum cth - 1) in
  mod_thread current_thread (with_remaining_quantum q);;
  if q <=? 0 then mret INT_RESCHEDULE else mret INT_NO_RESCHEDULE.

Definition thread_sleep_handler (t : tid) : M handler_return :=
  th ← get_thread t;
  debug_assert (t_magic th =? THREAD_MAGIC);;
  debug_assert (bool_decide (t_state th = THREAD_SLEEPING));;
  mod_thread t (with_state THREAD_READY);;
  insert_in_run_queue_head t;;
  mret INT_RESCHEDULE.

Definition thread_sleep (delay : Z) : K unit :=
  op (current_thread ← get_current_thread;
      cth ← get_thread current_thread;
      debug_assert (t_magic cth =? THREAD_MAGIC);;
      debug_assert (bool_decide (t_state cth = THREAD_RUNNING));;
      debug_assert (negb (thread_is_idle cth));;
      timer_initialize (TmStack current_thread);;
      timer_set_oneshot (TmStack current_thread) delay CbThreadSleepHandler (Some current_thread);;
      mod_thread current_thread (with_state THREAD_SLEEPING));;
  resched.

(** * Wait queues *)

Definition wait_queue_timeout_handler_ret (r : Z) : handler_return :=
  if NO_ERROR <=? r then INT_RESCHEDULE else INT_NO_RESCHEDULE.

Definition wait_queue_dec (w : wqid) : M unit :=
  wq ← get_wait_queue w;
  put_wait_queue w (mk_wait_queue (wq_magic wq) (wq_count wq - 1)).

Definition thread_unblock_from_wait_queue (t : tid) (wait_queue_error : Z) : M Z :=
  th ← get_thread t;
  debug_assert (t_magic th =? THREAD_MAGIC);;
  if decide (t_state th ≠ THREAD_BLOCKED) then mret ERR_NOT_BLOCKED else
  debug_assert (bool_decide (t_blocking_wait_queue th ≠ None));;
  w ← lift (of_option BadAccess (t_blocking_wait_queue th));
  wq ← get_wait_queue w;
  debug_assert (wq_magic wq =? WAIT_QUEUE_MAGIC);;
  linked ← queue_node_in_list t;
  debug_assert linked;;
  on_queues (Pool.delete_node t);;
  wait_queue_dec w;;
  mod_thread t (λ th, with_wait_queue_block_ret wait_queue_error (with_state THREAD_READY
    (with_blocking_wait_queue None th)));;
  insert_in_run_queue_head t;;
  wakeup_cpu_for_thread t;;
  mret NO_ERROR.

Definition wait_queue_timeout_handler (t : tid) : M handler_return :=
  th ← get_thread t;
  debug_assert (t_magic th =? THREAD_MAGIC);;
  r ← thread_unblock_from_wait_queue t ERR_TIMED_OUT;
  mret (wait_queue_timeout_handler_ret r).

(** The part of [wait_queue_block] before the reschedule. *)
Definition wait_queue_enqueue (w : wqid) (timeout : Z) : M tid :=
  current_thread ← get_current_thread;
  on_queues (Pool.add_tail (WaitQ w) current_thread);;
  wq ← get_wait_queue w;
  put_wait_queue w (mk_wait_queue (wq_magic wq) (wq_count wq + 1));;
  mod_thread current_thread (λ th, with_wait_queue_block_ret NO_ERROR
    (with_blocking_wait_queue (Some w) (with_state THREAD_BLOCKED th)));;
  (if timeout =? INFINITE_TIME then mret () else
   timer_initialize (TmStack current_thread);;
   timer_set_oneshot (TmStack current_thread) timeout CbWaitQueueTimeoutHandler (Some current_thread));;
  mret current_thread.

Definition wait_queue_block (w : wqid) (timeout : Z) : K Z :=
  op (current_thread ← get_current_thread;
      wq ← get_wait_queue w;
      debug_assert (wq_magic wq =? WAIT_QUEUE_MAGIC);;
      cth ← get_thread current_thread;
      debug_assert (bool_decide (t_state cth = THREAD_RUNNING)));;
  if timeout =? 0 then KRet ERR_TIMED_OUT else
  current_thread ← op (wait_queue_enqueue w timeout);
  resched;;
  op ((if timeout =? INFINITE_TIME then mret () else timer_cancel (TmStack current_thread));;
      cth ← get_thread current_thread;
      mret (t_wait_queue_block_ret cth)).

(** Up to the reschedule; the result is the number of threads woken. *)
Definition wait_queue_wake_one_core (w : wqid) (reschedule : bool) (wait_queue_error : Z) : M Z :=
  current_thread ← get_current_thread;
  wq ← get_wait_queue w;
  debug_assert (wq_magic wq =? WAIT_QUEUE_MAGIC);;
  t ← pop_queue (Pool.remove_head (WaitQ w));
  match t with
  | None => mret 0
  | Some t =>
      wait_queue_dec w;;
      th ← get_thread t;
      debug_assert (bool_decide (t_state th = THREAD_BLOCKED));;
      mod_thread t (λ th, with_blocking_wait_queue None (with_wait_queue_block_ret wait_queue_error
        (with_state THREAD_READY th)));;
      (if reschedule
       then mod_thread current_thread (with_state THREAD_READY);;
            insert_in_run_queue_head current_thread
       else mret ());;
      insert_in_run_queue_head t;;
      wakeup_cpu_for_thread t;;
      mret 1
  end.

Definition wait_queue_wake_one (w : wqid) (reschedule : bool) (wait_queue_error : Z) : K Z :=
  ret ← op (wait_queue_wake_one_core w reschedule wait_queue_error);
  (if reschedule && (0 <? ret) then resched else KRet ());;
  KRet ret.

(** The loop of [wait_queue_wake_all]; it pops the waiters from the tail and
    collects the target of the reschedule request. *)
Fixpoint wake_all_loop (fuel : nat) (w : wqid) (wait_queue_error : Z)
    (target : mp_ipi_target) (cpu_mask ret : Z) : M (mp_ipi_target * Z * Z) :=
  match fuel with
  | O => lift (Fault OutOfFuel)
  | S fuel =>
      t ← pop_queue (Pool.remove_tail (WaitQ w));
      match t with
      | None => mret (target, cpu_mask, ret)
      | Some t =>
          wait_queue_dec w;;
          th ← get_thread t;
          debug_assert (bool_decide (t_state th = THREAD_BLOCKED));;
          mod_thread t (λ th, with_blocking_wait_queue None (with_wait_queue_block_ret wait_queue_error
            (with_state THREAD_READY th)));;
          let '(target, cpu_mask) :=
            if t_pinned_cpu th <? 0 then (MP_IPI_TARGET_ALL_BUT_LOCAL, cpu_mask)
            else (target, set_bit cpu_mask (t_pinned_cpu th)) in
          insert_in_run_queue_head t;;
          wake_all_loop fuel w wait_queue_error target cpu_mask (ret + 1)
      end
  end.

Definition wait_queue_wake_all_core (w : wqid) (reschedule : bool) (wait_queue_error : Z) : M Z :=
  current_thread ← get_current_thread;
  wq ← get_wait_queue w;
  debug_assert (wq_magic wq =? WAIT_QUEUE_MAGIC);;
  (if reschedule && (0 <? wq_count wq)
   then mod_thread current_thread (with_state THREAD_READY);;
        insert_in_run_queue_head current_thread
   else mret ());;
  n ← gets (λ s, length (Pool.members (queues s) (WaitQ w)));
  '(target, cpu_mask, ret) ← wake_all_loop (S n) w wait_queue_error MP_IPI_TARGET_MASK 0 0;
  wq ← get_wait_queue w;
  debug_assert (wq_count wq =? 0);;
  (if 0 <? ret then mp_reschedule target cpu_mask 0 else mret ());;
  mret ret.

Definition wait_queue_wake_all (w : wqid) (reschedule : bool) (wait_queue_error : Z) : K Z :=
  ret ← op (wait_queue_wake_all_core w reschedule wait_queue_error);
  (if reschedule && (0 <? ret) then resched else KRet ());;
  KRet ret.

Definition wait_queue_destroy (w : wqid) (reschedule : bool) : K unit :=
  op (wq ← get_wait_queue w; debug_assert (wq_magic wq =? WAIT_QUEUE_MAGIC));;
  wait_queue_wake_all w reschedule ERR_OBJECT_DESTROYED;;
  op (wq ← get_wait_queue w; put_wait_queue w (mk_wait_queue 0 (wq_count wq))).

(** * Termination *)

Definition free_obj (o : heap_obj) : M unit := modify (λ s, set_freed (o :: freed s) s).

(** [free] of a thread structure: its memory is gone. *)
Definition free_thread (t : tid) : M unit :=
  free_obj (ObjThread t);;
  modify (λ s, set_threads (delete t (threads s))
                 (set_wait_queues (delete (WqRetcode t) (wait_queues s)) s)).

(** Returns the status and, on success, the thread's return code. *)
Definition thread_join (t : tid) (timeout : Z) : K (Z * option Z) :=
  th ← op (th ← get_thread t; debug_assert (t_magic th =? THREAD_MAGIC);; mret th);
  if has_flag (t_flags th) THREAD_FLAG_DETACHED then KRet (ERR_THREAD_DETACHED, None) else
  err ← (if decide (t_state th ≠ THREAD_DEATH) then wait_queue_block (WqRetcode t) timeout
         else KRet NO_ERROR);
  if err <? 0 then KRet (err, None) else
  th ← op (
    th ← get_thread t;
    debug_assert (t_magic th =? THREAD_MAGIC);;
    debug_assert (bool_decide (t_state th = THREAD_DEATH));;
    debug_assert (bool_decide (t_blocking_wait_queue th = None));;
    linked ← queue_node_in_list t;
    debug_assert (negb linked);;
    on_thread_list (Pool.delete_node t);;
    mod_thread t (with_magic 0);;
    mret th);
  KBreak (KRet ());;
  op (match t_stack th with
      | Some stk => if has_flag (t_flags th) THREAD_FLAG_FREE_STACK then free_obj (ObjStack stk) else mret ()
      | None => mret ()
      end;;
      if has_flag (t_flags th) THREAD_FLAG_FREE_STRUCT then free_thread t else mret ());;
  KRet (NO_ERROR, Some (t_retcode th)).

Definition thread_detach (t : tid) : K Z :=
  op (th ← get_thread t; debug_assert (t_magic th =? THREAD_MAGIC));;
  wait_queue_wake_all (WqRetcode t) false ERR_THREAD_DETACHED;;
  th ← op (get_thread t);
  if decide (t_state th = THREAD_DEATH) then
    op (mod_thread t (λ th, with_flags (Z.ldiff (t_flags th) THREAD_FLAG_DETACHED) th));;
    KBreak (KRet ());;
    r ← thread_join t 0;
    KRet r.1
  else
    op (mod_thread t (λ th, with_flags (Z.lor (t_flags th) THREAD_FLAG_DETACHED) th));;
    KRet NO_ERROR.

Definition thread_detach_and_resume (t : tid) (ints_disabled : bool) : K Z :=
  err ← thread_detach t;
  if err <? 0 then KRet err else KBreak (KRet ());; thread_resume t ints_disabled.

Definition thread_exit (retcode : Z) : K unit :=
  op (current_thread ← get_current_thread;
      cth ← get_thread current_thread;
      debug_assert (t_magic cth =? THREAD_MAGIC);;
      debug_assert (bool_decide (t_state cth = THREAD_RUNNING));;
      debug_assert (negb (thread_is_idle cth));;
      mod_thread current_thread (λ th, with_retcode retcode (with_state THREAD_DEATH th));;
      if has_flag (t_flags cth) THREAD_FLAG_DETACHED then
        on_thread_list (Pool.delete_node current_thread);;
        mod_thread current_thread (with_magic 0);;
        match t_stack cth with
        | Some stk =>
            if has_flag (t_flags cth) THREAD_FLAG_FREE_STACK
            then free_obj (ObjStack stk);;
                 mod_thread current_thread (λ th,
                   with_flags (Z.ldiff (t_flags th) THREAD_FLAG_DEBUG_STACK_BOUNDS_CHECK) th)
            else mret ()
        | None => mret ()
        end;;
        (if has_flag (t_flags cth) THREAD_FLAG_FREE_STRUCT
         then free_obj (ObjThread current_thread) else mret ())
      else
        wait_queue_wake_all_core (WqRetcode current_thread) false 0;;
        mret ());;
  resched;;
  op panic.

(** * Initialisation *)

Definition thread_init_early : M unit :=
  cpu ← arch_curr_cpu_num;
  debug_assert (Nat.eqb cpu 0);;
  modify (λ s, set_queues (foldr (λ i, Pool.init_list (RunQ (Z.of_nat i))) (queues s)
                             (seq 0 (Z.to_nat NUM_PRIORITIES))) s);;
  modify (λ s, set_thread_list (Pool.init_list () (thread_list s)) s);;
  init_thread_struct (idle_thread 0) "bootstrap";;
  mod_thread (idle_thread 0) (λ th, with_pinned_cpu 0 (with_curr_cpu 0
    (with_flags THREAD_FLAG_DETACHED (with_state THREAD_RUNNING (with_priority HIGHEST_PRIORITY th)))));;
  wait_queue_init (WqRetcode (idle_thread 0));;
  on_thread_list (Pool.add_head () (idle_thread 0));;
  set_current_thread (idle_thread 0).

Fixpoint init_preempt_timers (cpus : list nat) : M unit :=
  match cpus with
  | [] => mret ()
  | c :: cpus => timer_initialize (TmPreempt c);; init_preempt_timers cpus
  end.

Definition thread_init : M unit := init_preempt_timers (seq 0 SMP_MAX_CPUS).

Definition thread_set_name (name : string) : M unit :=
  current_thread ← get_current_thread;
  mod_thread current_thread (with_name (thread_name name)).

(** The name printed with ["idle %u"] is the argument [name].  The endless loop
    that follows the yield only idles the cpu. *)
Definition thread_become_idle (name : string) : K unit :=
  op (t ← get_current_thread;
      cpu ← arch_curr_cpu_num;
      thread_set_name name;;
      mod_thread t (λ th, with_pinned_cpu (Z.of_nat cpu) (with_flags (Z.lor (t_flags th) THREAD_FLAG_IDLE)
        (with_priority IDLE_PRIORITY th)));;
      mp_set_curr_cpu_active true;;
      mp_set_cpu_idle cpu);;
  KBreak (KRet ());;
  thread_yield.

Definition thread_secondary_cpu_init_early : M unit :=
  cpu ← arch_curr_cpu_num;
  th ← get_thread (idle_thread cpu);
  debug_assert (bool_decide (t_state th = THREAD_RUNNING) && has_flag (t_flags th) THREAD_FLAG_IDLE);;
  set_current_thread (idle_thread cpu).

Definition thread_create_secondary_cpu_idle_thread (cpu : nat) (name : string) : M unit :=
  let t := idle_thread cpu in
  init_thread_struct t name;;
  mod_thread t (λ th, with_pinned_cpu (Z.of_nat cpu) (with_curr_cpu (Z.of_nat cpu)
    (with_flags (Z.lor THREAD_FLAG_DETACHED THREAD_FLAG_IDLE) (with_state THREAD_RUNNING
    (with_priority HIGHEST_PRIORITY th)))));;
  wait_queue_init (WqRetcode t);;
  on_thread_list (Pool.add_head () t).

Definition thread_secondary_cpu_entry : K unit :=
  op (cpu ← arch_curr_cpu_num;
      t ← get_current_thread;
      th ← get_thread t;
      debug_assert (bool_decide (t_state th = THREAD_RUNNING) && has_flag (t_flags th) THREAD_FLAG_IDLE);;
      mod_thread t (with_priority IDLE_PRIORITY);;
      mp_set_curr_cpu_active true;;
      mp_set_cpu_idle cpu);;
  KBreak (KRet ());;
  thread_yield.
