(* ===== verification/ThreadInv.v ===== *)
(** The scheduler's invariant and the specifications of the operations of
    [kernel/thread.c] that run under the thread lock.

    [qinv E] ties the run queues, the wait queues and the run queue bitmap to
    the states of the threads, for all threads outside the set [E] of threads
    that are just being moved and are on no queue.  [cinv] ties the cpus to the
    threads they run. *)
From stdpp Require Import prelude gmap strings.
From S2P Require Import Prelude Pow2 IntrusiveList KState Mp Timer Thread.

#[local] Open Scope Z_scope.

(** * Queue invariant *)

Definition schedulable (th : thread) : Prop :=
  t_magic th = THREAD_MAGIC ∧ thread_is_idle th = false.

Record qinvF (E : gset tid) (ths : gmap tid thread) (qs : Pool.pool qid tid) (bm : Z)
    (wqs : gmap wqid wait_queue) : Prop := {
  qi_wf : Pool.wf qs;
  qi_init : ∀ p, 0 ≤ p < 32 → is_Some (Pool.lists qs !! RunQ p);
  qi_range : 0 ≤ bm < 2 ^ 32;
  qi_bitmap : ∀ p, 0 ≤ p < 32 → Z.testbit bm p = true ↔ Pool.members qs (RunQ p) ≠ [];
  qi_run : ∀ p t, t ∈ Pool.members qs (RunQ p) → t ∉ E ∧ 0 ≤ p < 32 ∧
    ∃ th, ths !! t = Some th ∧ t_state th = THREAD_READY ∧ t_priority th = p ∧ schedulable th;
  qi_wait : ∀ w t, t ∈ Pool.members qs (WaitQ w) → t ∉ E ∧
    ∃ th, ths !! t = Some th ∧ t_state th = THREAD_BLOCKED ∧
      t_blocking_wait_queue th = Some w ∧ schedulable th;
  qi_ready : ∀ t th, ths !! t = Some th → t ∉ E → t_state th = THREAD_READY →
    thread_is_idle th = false → t ∈ Pool.members qs (RunQ (t_priority th));
  qi_blocked : ∀ t th, ths !! t = Some th → t ∉ E → t_state th = THREAD_BLOCKED →
    ∃ w, t_blocking_wait_queue th = Some w ∧ t ∈ Pool.members qs (WaitQ w);
  qi_count : ∀ w wq, wqs !! w = Some wq → wq_magic wq = WAIT_QUEUE_MAGIC →
    is_Some (Pool.lists qs !! WaitQ w) ∧ wq_count wq = Z.of_nat (length (Pool.members qs (WaitQ w)));
  qi_live : ∀ w t, t ∈ Pool.members qs (WaitQ w) →
    ∃ wq, wqs !! w = Some wq ∧ wq_magic wq = WAIT_QUEUE_MAGIC;
  qi_prio : ∀ t th, ths !! t = Some th → 0 ≤ t_priority th < 32;
}.

Abbreviation qinv E s := (qinvF E (threads s) (queues s) (run_queue_bitmap s) (wait_queues s)).

Section qinv_lemmas.
Implicit Types (ths : gmap tid thread) (qs : Pool.pool qid tid) (wqs : gmap wqid wait_queue).
Context {E : gset tid} {ths : gmap tid thread} {qs : Pool.pool qid tid} {bm : Z}
  {wqs : gmap wqid wait_queue}.

(** A thread that is being moved is on no queue. *)
Lemma qinv_unlinked t : qinvF E ths qs bm wqs → t ∈ E → Pool.in_list qs t = false.
Proof.
  intros H Ht. apply (Pool.in_list_false _ _ (qi_wf _ _ _ _ _ H)). intros [p|w] Hin.
  - by apply (qi_run _ _ _ _ _ H) in Hin as [? _].
  - by apply (qi_wait _ _ _ _ _ H) in Hin as [? _].
Qed.

(** Linked threads are ready or blocked. *)
Lemma qinv_not_linked t th :
  qinvF E ths qs bm wqs → ths !! t = Some th →
  (t_state th = THREAD_READY → thread_is_idle th = true) → t_state th ≠ THREAD_BLOCKED →
  Pool.in_list qs t = false.
Proof.
  intros H Ht Hr Hb. apply (Pool.in_list_false _ _ (qi_wf _ _ _ _ _ H)). intros [p|w] Hin.
  - apply (qi_run _ _ _ _ _ H) in Hin as (_ & _ & th' & ? & Hs & _ & _ & Hi).
    simplify_eq. apply Hr in Hs. congruence.
  - apply (qi_wait _ _ _ _ _ H) in Hin as (_ & th' & ? & ? & _). by simplify_eq.
Qed.

Lemma qinv_ready_linked t th :
  qinvF E ths qs bm wqs → ths !! t = Some th → t ∉ E → t_state th = THREAD_READY →
  thread_is_idle th = false → Pool.in_list qs t = true.
Proof.
  intros H ? ? ? ?. apply (Pool.in_list_true _ _ (qi_wf _ _ _ _ _ H)). eexists.
  by eapply (qi_ready _ _ _ _ _ H).
Qed.

(** Changing a thread that is being moved. *)
Lemma qinv_update t th' :
  qinvF E ths qs bm wqs → t ∈ E → 0 ≤ t_priority th' < 32 →
  qinvF E (<[t := th']> ths) qs bm wqs.
Proof.
  intros [] Ht Hp. split; try done.
  - intros p u Hu. destruct (qi_run0 p u Hu) as (HuE & Hpr & th & Hth).
    split; [done|]. split; [done|]. exists th. rewrite lookup_insert_ne by set_solver. done.
  - intros w u Hu. destruct (qi_wait0 w u Hu) as (HuE & th & Hth).
    split; [done|]. exists th. rewrite lookup_insert_ne by set_solver. done.
  - intros u th Hu HuE. rewrite lookup_insert_ne in Hu by set_solver. by apply qi_ready0.
  - intros u th Hu HuE. rewrite lookup_insert_ne in Hu by set_solver. by apply qi_blocked0.
  - intros u th [[<- <-]|[_ Hu]]%lookup_insert_Some; [done|by eapply qi_prio0].
Qed.

(** Starting and ending a move. *)
Lemma qinv_exclude t :
  qinvF E ths qs bm wqs → Pool.in_list qs t = false → qinvF ({[t]} ∪ E) ths qs bm wqs.
Proof.
  intros H Hn. pose proof (proj1 (Pool.in_list_false _ _ (qi_wf _ _ _ _ _ H)) Hn) as Hni.
  destruct H. split; try done.
  - intros p u Hu. destruct (qi_run0 p u Hu) as (? & ? & ?). split; [|done].
    assert (u ≠ t) by (by intros ->; apply (Hni (RunQ p))). set_solver.
  - intros w u Hu. destruct (qi_wait0 w u Hu) as (? & ?). split; [|done].
    assert (u ≠ t) by (by intros ->; apply (Hni (WaitQ w))). set_solver.
  - intros u th Hu HuE. apply qi_ready0; [done|set_solver].
  - intros u th Hu HuE. apply qi_blocked0; [done|set_solver].
Qed.

Lemma qinv_include t th :
  qinvF ({[t]} ∪ E) ths qs bm wqs → ths !! t = Some th →
  (t_state th = THREAD_READY → thread_is_idle th = true) → t_state th ≠ THREAD_BLOCKED →
  qinvF E ths qs bm wqs.
Proof.
  intros [] Ht Hr Hb. split; try done.
  - intros p u Hu. destruct (qi_run0 p u Hu) as (? & ? & ?). split; [set_solver|done].
  - intros w u Hu. destruct (qi_wait0 w u Hu) as (? & ?). split; [set_solver|done].
  - intros u th' Hu HuE Hs Hi. destruct (decide (u = t)) as [->|].
    + simplify_eq. rewrite Hr in Hi by done. done.
    + apply qi_ready0; [done|set_solver|done|done].
  - intros u th' Hu HuE Hs. destruct (decide (u = t)) as [->|]; [by simplify_eq|].
    apply qi_blocked0; [done|set_solver|done].
Qed.

End qinv_lemmas.

Lemma length_remove {A} `{EqDecision A} (n : A) l :
  NoDup l → n ∈ l → length l = S (length (Pool.remove n l)).
Proof.
  intros Hnd Hin. apply list_elem_of_split in Hin as (xs & ys & ->).
  rewrite NoDup_app, NoDup_cons in Hnd. rewrite Pool.remove_split by set_solver.
  rewrite !length_app. simpl. lia.
Qed.

Section qinv_moves.
Context {E : gset tid} {ths : gmap tid thread} {qs : Pool.pool qid tid} {bm : Z}
  {wqs : gmap wqid wait_queue}.

(** A member of one queue, after linking [t] into [q]. *)
Lemma elem_of_link q t l (q' : qid) u :
  l ≡ₚ t :: Pool.members qs q →
  u ∈ Pool.members (Pool.link q t l qs) q' ↔ (u = t ∧ q' = q) ∨ u ∈ Pool.members qs q'.
Proof.
  intros Hl. unfold Pool.link. rewrite Pool.members_insert. case_decide; [|naive_solver].
  subst. rewrite Hl, elem_of_cons. naive_solver.
Qed.

Lemma members_link_ne q t l (q' : qid) :
  q' ≠ q → Pool.members (Pool.link q t l qs) q' = Pool.members qs q'.
Proof. intros. unfold Pool.link. by rewrite Pool.members_insert, decide_False. Qed.

Lemma members_link_eq q t l : Pool.members (Pool.link q t l qs) q = l.
Proof. unfold Pool.link. by rewrite Pool.members_insert, decide_True. Qed.

(** Putting a ready thread on its run queue ends its move. *)
Lemma qinv_make_ready t th l :
  qinvF ({[t]} ∪ E) ths qs bm wqs → t ∉ E → ths !! t = Some th → t_state th = THREAD_READY →
  schedulable th → l ≡ₚ t :: Pool.members qs (RunQ (t_priority th)) →
  qinvF E ths (Pool.link (RunQ (t_priority th)) t l qs) (set_bit bm (t_priority th)) wqs.
Proof.
  intros H HtE Ht Hs Hsch Hl. pose proof (qinv_unlinked t H ltac:(set_solver)) as Hn.
  destruct H. pose proof (qi_prio0 _ _ Ht) as Hp.
  split; try done.
  - by apply Pool.wf_link.
  - intros p Hpr. unfold Pool.link. simpl. destruct (decide (RunQ p = RunQ (t_priority th))) as [->|].
    + rewrite lookup_insert_eq. eauto.
    + rewrite lookup_insert_ne by done. by apply qi_init0.
  - split; [apply set_bit_nonneg; lia|]. apply bits_bound; [apply set_bit_nonneg; lia|lia|].
    intros i Hi. rewrite set_bit_testbit by lia. rewrite (testbit_above _ 32) by lia.
    apply Z.eqb_neq. lia.
  - intros p Hpr. rewrite set_bit_testbit by lia.
    destruct (decide (p = t_priority th)) as [->|].
    + rewrite Z.eqb_refl, orb_true_r, members_link_eq. split; [|done].
      intros _ ->. by apply Permutation_nil_cons in Hl.
    + rewrite members_link_ne by congruence. rewrite <- qi_bitmap0 by done.
      replace (t_priority th =? p) with false by (symmetry; apply Z.eqb_neq; lia).
      by rewrite orb_false_r.
  - intros p u Hu. apply elem_of_link in Hu as [[-> [= ->]]|Hu]; [| |done].
    + split; [done|]. split; [done|]. eauto.
    + destruct (qi_run0 p u Hu) as (? & ?). split; [set_solver|done].
  - intros w u Hu. rewrite members_link_ne in Hu by done.
    destruct (qi_wait0 w u Hu) as (? & ?). split; [set_solver|done].
  - intros u th' Hu HuE Hus Hi. apply elem_of_link; [done|].
    destruct (decide (u = t)) as [->|]; [left; by simplify_eq|right].
    apply qi_ready0; [done|set_solver|done|done].
  - intros u th' Hu HuE Hus. destruct (decide (u = t)) as [->|]; [simplify_eq; congruence|].
    destruct (qi_blocked0 u th' Hu) as (w & ? & ?); [set_solver|done|].
    exists w. by rewrite members_link_ne.
  - intros w wq Hw Hm. rewrite members_link_ne by done. destruct (qi_count0 w wq Hw Hm).
    split; [|done]. unfold Pool.link. simpl. by rewrite lookup_insert_ne.
  - intros w u Hu. rewrite members_link_ne in Hu by done. by eapply qi_live0.
Qed.

(** Blocking the thread being moved on a wait queue. *)
Lemma qinv_make_blocked t th' w wq :
  qinvF ({[t]} ∪ E) ths qs bm wqs → t ∉ E → t_state th' = THREAD_BLOCKED →
  t_blocking_wait_queue th' = Some w → schedulable th' → 0 ≤ t_priority th' < 32 →
  wqs !! w = Some wq → wq_magic wq = WAIT_QUEUE_MAGIC →
  qinvF E (<[t := th']> ths) (Pool.link (WaitQ w) t (Pool.members qs (WaitQ w) ++ [t]) qs) bm
    (<[w := mk_wait_queue (wq_magic wq) (wq_count wq + 1)]> wqs).
Proof.
  intros H HtE Hs Hb Hsch Hp Hw Hm. pose proof (qinv_unlinked t H ltac:(set_solver)) as Hn.
  assert (Pool.members qs (WaitQ w) ++ [t] ≡ₚ t :: Pool.members qs (WaitQ w)) as Hl
    by (by rewrite Permutation_app_comm).
  destruct (qi_count _ _ _ _ _ H _ _ Hw Hm) as [Hinit Hcnt]. destruct H.
  split; try done.
  - by apply Pool.wf_link.
  - intros p Hpr. unfold Pool.link. simpl. rewrite lookup_insert_ne by done. by apply qi_init0.
  - intros p Hpr. rewrite members_link_ne by done. by apply qi_bitmap0.
  - intros p u Hu. rewrite members_link_ne in Hu by done.
    destruct (qi_run0 p u Hu) as (? & ? & th & ?). split; [set_solver|]. split; [done|].
    exists th. rewrite lookup_insert_ne by set_solver. done.
  - intros w' u Hu. apply elem_of_link in Hu as [[-> [= ->]]|Hu]; [| |done].
    + split; [done|]. exists th'. by rewrite lookup_insert_eq.
    + destruct (qi_wait0 w' u Hu) as (? & th & ?). split; [set_solver|].
      exists th. rewrite lookup_insert_ne by set_solver. done.
  - intros u th Hu HuE Hus Hi. rewrite members_link_ne by done.
    destruct (decide (u = t)) as [->|]; [rewrite lookup_insert_eq in Hu; simplify_eq; congruence|].
    rewrite lookup_insert_ne in Hu by done. apply qi_ready0; [done|set_solver|done|done].
  - intros u th Hu HuE Hus. destruct (decide (u = t)) as [->|].
    + rewrite lookup_insert_eq in Hu. simplify_eq. exists w. split; [done|].
      apply elem_of_link; [done|]. by left.
    + rewrite lookup_insert_ne in Hu by done.
      destruct (qi_blocked0 u th Hu) as (w' & ? & ?); [set_solver|done|].
      exists w'. split; [done|]. apply elem_of_link; [done|]. by right.
  - intros w' wq' Hw' Hm'. destruct (decide (w' = w)) as [->|].
    + rewrite lookup_insert_eq in Hw'. simplify_eq. rewrite members_link_eq, length_app. simpl.
      split; [rewrite lookup_insert_eq; by eexists|]. rewrite Hcnt. lia.
    + rewrite lookup_insert_ne in Hw' by done. rewrite members_link_ne by congruence.
      destruct (qi_count0 w' wq' Hw' Hm'). split; [|done].
      unfold Pool.link. simpl. rewrite lookup_insert_ne by congruence. done.
  - intros w' u Hu. apply elem_of_link in Hu as [[-> [= ->]]|Hu]; [| |done].
    + rewrite lookup_insert_eq. by eexists.
    + destruct (decide (w' = w)) as [->|]; [rewrite lookup_insert_eq; by eexists|].
      rewrite lookup_insert_ne by done. by eapply qi_live0.
  - intros u th [[<- <-]|[_ Hu]]%lookup_insert_Some; [done|by eapply qi_prio0].
Qed.

(** Taking a thread off a queue starts its move: the parts of the invariant
    that do not depend on which queue it was. *)
Lemma qinv_unlink t qs' :
  qinvF E ths qs bm wqs → Pool.delete_node t qs = Ok qs' →
  Pool.wf qs' ∧ same_heads qs qs' ∧ Pool.in_list qs t = true ∧
  (∀ q, Pool.members qs' q = Pool.remove t (Pool.members qs q)) ∧
  (∀ q, t ∉ Pool.members qs q → Pool.members qs' q = Pool.members qs q).
Proof.
  intros H Hd. pose proof (qi_wf _ _ _ _ _ H) as Hwf.
  assert (∀ q, Pool.members qs' q = Pool.remove t (Pool.members qs q)) as Hm.
  { intros. by eapply delete_members. }
  split_and!; [by eapply Pool.wf_delete_node|by eapply delete_same_heads| |done|].
  - apply Pool.delete_node_Ok in Hd as (q & Hq & _). unfold Pool.in_list.
    apply bool_decide_eq_true. eauto.
  - intros q Hq. rewrite Hm. by apply remove_id.
Qed.

Lemma qinv_pop_wait t w wq qs' :
  qinvF E ths qs bm wqs → t ∈ Pool.members qs (WaitQ w) → Pool.delete_node t qs = Ok qs' →
  wqs !! w = Some wq → wq_magic wq = WAIT_QUEUE_MAGIC →
  qinvF ({[t]} ∪ E) ths qs' bm (<[w := mk_wait_queue (wq_magic wq) (wq_count wq - 1)]> wqs).
Proof.
  intros H Hin Hd Hw Hm. destruct (qinv_unlink t qs' H Hd) as (Hwf & Hsh & _ & Hmem & Hid).
  destruct (qi_count _ _ _ _ _ H _ _ Hw Hm) as [Hinit Hcnt].
  assert (∀ p, t ∉ Pool.members qs (RunQ p)) as Hnr.
  { intros p Hp. by pose proof (Pool.members_disjoint _ _ _ _ (qi_wf _ _ _ _ _ H) Hin Hp). }
  destruct H. split; try done.
  - intros p Hp. by apply Hsh, qi_init0.
  - intros p Hp. rewrite Hid by done. by apply qi_bitmap0.
  - intros p u Hu. rewrite Hid in Hu by done. destruct (qi_run0 p u Hu) as (? & ?). split; [|done].
    assert (u ≠ t) by (by intros ->; apply (Hnr p)). set_solver.
  - intros w' u Hu. rewrite Hmem, Pool.elem_of_remove in Hu. destruct Hu as [Hu ?].
    destruct (qi_wait0 w' u Hu) as (? & ?). split; [set_solver|done].
  - intros u th Hu HuE Hs Hi. rewrite Hid by done. apply qi_ready0; [done|set_solver|done|done].
  - intros u th Hu HuE Hs. destruct (qi_blocked0 u th Hu) as (w' & ? & ?); [set_solver|done|].
    exists w'. rewrite Hmem, Pool.elem_of_remove. set_solver.
  - intros w' wq' Hw' Hm'. destruct (decide (w' = w)) as [->|].
    + rewrite lookup_insert_eq in Hw'. simplify_eq. split; [by apply Hsh|]. simpl.
      rewrite Hcnt, Hmem, (length_remove t (Pool.members qs (WaitQ w))); [lia| |done].
      apply (Pool.wf_nodup _ qi_wf0).
    + rewrite lookup_insert_ne in Hw' by done. destruct (qi_count0 w' wq' Hw' Hm').
      split; [by apply Hsh|]. rewrite Hid; [done|]. intros Hin'.
      pose proof (Pool.members_disjoint _ _ _ _ qi_wf0 Hin Hin'). congruence.
  - intros w' u Hu. rewrite Hmem, Pool.elem_of_remove in Hu. destruct Hu as [Hu _].
    destruct (decide (w' = w)) as [->|]; [rewrite lookup_insert_eq; by eexists|].
    rewrite lookup_insert_ne by done. by eapply qi_live0.
Qed.

Lemma qinv_pop_run t p qs' :
  qinvF E ths qs bm wqs → t ∈ Pool.members qs (RunQ p) → Pool.delete_node t qs = Ok qs' →
  qinvF ({[t]} ∪ E) ths qs' (if Pool.is_empty qs' (RunQ p) then clear_bit bm p else bm) wqs.
Proof.
  intros H Hin Hd. destruct (qinv_unlink t qs' H Hd) as (Hwf & Hsh & _ & Hmem & Hid).
  destruct (qi_run _ _ _ _ _ H _ _ Hin) as (_ & Hp & _).
  assert (∀ q, q ≠ RunQ p → t ∉ Pool.members qs q) as Hnr.
  { intros q Hq Hin'. by pose proof (Pool.members_disjoint _ _ _ _ (qi_wf _ _ _ _ _ H) Hin Hin'). }
  destruct H. split; try done.
  - intros p' Hp'. by apply Hsh, qi_init0.
  - case_match; [|done]. split; [apply clear_bit_nonneg; lia|].
    apply bits_bound; [apply clear_bit_nonneg; lia|lia|]. intros i Hi.
    rewrite clear_bit_testbit by lia. by rewrite (testbit_above _ 32) by lia.
  - intros p' Hp'. unfold Pool.is_empty. destruct (decide (p' = p)) as [->|].
    + case_bool_decide as He; [rewrite clear_bit_testbit, Z.eqb_refl, andb_false_r by lia; naive_solver|].
      split; [done|]. intros _. apply qi_bitmap0; [done|]. intros E2. rewrite E2 in Hin. set_solver.
    + rewrite (Hid (RunQ p')) by (apply Hnr; congruence). rewrite <- qi_bitmap0 by done.
      case_match; [|done]. rewrite clear_bit_testbit by lia.
      replace (p =? p') with false by (symmetry; apply Z.eqb_neq; lia). by rewrite andb_true_r.
  - intros p' u Hu. rewrite Hmem, Pool.elem_of_remove in Hu. destruct Hu as [Hu ?].
    destruct (qi_run0 p' u Hu) as (? & ?). split; [set_solver|done].
  - intros w u Hu. rewrite Hmem, Pool.elem_of_remove in Hu. destruct Hu as [Hu ?].
    destruct (qi_wait0 w u Hu) as (? & ?). split; [set_solver|done].
  - intros u th Hu HuE Hs Hi. rewrite Hmem, Pool.elem_of_remove.
    split; [apply qi_ready0; [done|set_solver|done|done]|set_solver].
  - intros u th Hu HuE Hs. destruct (qi_blocked0 u th Hu) as (w' & ? & ?); [set_solver|done|].
    exists w'. rewrite Hid by (apply Hnr; congruence). done.
  - intros w' wq' Hw' Hm'. destruct (qi_count0 w' wq' Hw' Hm'). split; [by apply Hsh|].
    by rewrite Hid by (apply Hnr; congruence).
  - intros w' u Hu. rewrite Hmem, Pool.elem_of_remove in Hu. destruct Hu as [Hu _]. by eapply qi_live0.
Qed.

End qinv_moves.

(** * Picking the next thread *)

Definition eligible (s : kstate) (cpu : nat) (t : tid) : Prop :=
  ∃ th, threads s !! t = Some th ∧ cpu_eligible cpu th = true.

Lemma find_eligible_spec s cpu l :
  (∀ t, t ∈ l → is_Some (threads s !! t)) →
  (find_eligible (threads s) cpu l = Ok None ∧ ∀ t, t ∈ l → ¬ eligible s cpu t) ∨
  (∃ xs t ys, l = xs ++ t :: ys ∧ find_eligible (threads s) cpu l = Ok (Some t) ∧
     eligible s cpu t ∧ ∀ u, u ∈ xs → ¬ eligible s cpu u).
Proof.
  induction l as [|t l IH]; intros Hl; simpl; [left; split; [done|set_solver]|].
  destruct (Hl t ltac:(left)) as [th Ht]. rewrite Ht. simpl.
  destruct (cpu_eligible cpu th) eqn:Ee.
  { right. exists [], t, l. split_and!; [done|done|by exists th|set_solver]. }
  assert (¬ eligible s cpu t) as Hne by (intros (th' & ? & ?); congruence).
  destruct IH as [[E1 E2]|(xs & t' & ys & -> & E1 & E2 & E3)]; [intros; apply Hl; by right| |].
  - left. split; [done|]. intros u [->|Hu]%elem_of_cons; [done|by apply E2].
  - right. exists (t :: xs), t', ys. split_and!; [done..|].
    intros u [->|Hu]%elem_of_cons; [done|by apply E3].
Qed.

(** [t] is the first eligible thread of the highest priority that has one. *)
Definition top_choice (s : kstate) (cpu : nat) (p : Z) (t : tid) : Prop :=
  eligible s cpu t ∧
  (∃ xs ys, Pool.members (queues s) (RunQ p) = xs ++ t :: ys ∧ ∀ u, u ∈ xs → ¬ eligible s cpu u) ∧
  (∀ p' u, u ∈ Pool.members (queues s) (RunQ p') → eligible s cpu u → p' ≤ p).

(** The state with [t] taken off run queue [p]. *)
Definition dequeued (s : kstate) (p : Z) (t : tid) (s' : kstate) : Prop :=
  ∃ qs, Pool.delete_node t (queues s) = Ok qs ∧
    s' = set_run_queue_bitmap
           (if Pool.is_empty qs (RunQ p) then clear_bit (run_queue_bitmap s) p else run_queue_bitmap s)
           (set_queues qs s).

Lemma qinv_dequeued (E : gset tid) s p t s' :
  qinv E s → t ∈ Pool.members (queues s) (RunQ p) → dequeued s p t s' → qinv ({[t]} ∪ E) s'.
Proof. intros Hinv Hin (qs & Hd & ->). simpl. by eapply qinv_pop_run. Qed.

Lemma clear_log2 x : 0 < x → clear_bit x (Z.log2 x) < 2 ^ Z.log2 x.
Proof.
  intros Hx. pose proof (Z.log2_nonneg x). apply bits_bound; [apply clear_bit_nonneg; lia|done|].
  intros i Hi. rewrite clear_bit_testbit by lia. destruct (Z.eqb_spec (Z.log2 x) i); [by rewrite andb_false_r|].
  rewrite Z.bits_above_log2 by lia. done.
Qed.

Lemma wp_get_top_thread_loop (E : gset tid) c cpu fuel (k : nat) b s (Q : tid → kstate → Prop) :
  qinv E s → 0 ≤ b < 2 ^ Z.of_nat k → (k < fuel)%nat → (k ≤ 32)%nat →
  (∀ p, 0 ≤ p < 32 → Z.testbit b p = true → Z.testbit (run_queue_bitmap s) p = true) →
  (∀ p u, u ∈ Pool.members (queues s) (RunQ p) → eligible s cpu u → Z.testbit b p = true) →
  (∀ p t s', top_choice s cpu p t → dequeued s p t s' → t ∈ Pool.members (queues s) (RunQ p) → Q t s') →
  ((∀ p u, u ∈ Pool.members (queues s) (RunQ p) → ¬ eligible s cpu u) → Q (idle_thread cpu) s) →
  wp c (get_top_thread_loop fuel cpu b) Q s.
Proof.
  intros Hinv. revert k b. induction fuel as [|fuel IH]; intros k b Hb Hf Hk Hsub Hel HQ1 HQ2; [lia|].
  cbn [get_top_thread_loop]. cbv zeta. destruct (Z.eqb_spec b 0) as [->|Hb0].
  { wp_step. apply HQ2. intros p u Hu He. specialize (Hel p u Hu He). by rewrite Z.bits_0 in Hel. }
  unfold clz32. replace (32 - 1 - (31 - Z.log2 b)) with (Z.log2 b) by lia.
  destruct (log2_highest b (Z.log2 b) ltac:(lia)) as [Htop _]. pose proof (Z.log2_nonneg b).
  assert (Z.log2 b < Z.of_nat k) as Hlk by (apply Z.log2_lt_pow2; lia).
  do 2 (wp_step; wp_step). wp_step. unfold wp at 1, lift.
  destruct (find_eligible_spec s cpu (Pool.members (queues s) (RunQ (Z.log2 b))))
    as [[-> Hno]|(xs & t & ys & Hm & -> & He & Hxs)].
  - intros t Ht. apply (qi_run _ _ _ _ _ Hinv) in Ht as (_ & _ & th & ? & _). eauto.
  - apply (IH (Z.to_nat (Z.log2 b))); [|lia|lia| | |done|done].
    + split; [apply clear_bit_nonneg; lia|]. rewrite Z2Nat.id by lia. apply clear_log2. lia.
    + intros p Hp. rewrite clear_bit_testbit by lia. rewrite andb_true_iff. intros [? _]. by apply Hsub.
    + intros p u Hu Heu. pose proof (qi_run _ _ _ _ _ Hinv _ _ Hu) as (_ & ? & _).
      rewrite clear_bit_testbit by lia. rewrite (Hel p u) by done.
      destruct (Z.eqb_spec (Z.log2 b) p) as [<-|]; [|done]. by destruct (Hno u Hu).
  - assert (t ∈ Pool.members (queues s) (RunQ (Z.log2 b))) as Hin by (rewrite Hm; set_solver).
    destruct (delete_node_total (queues s) t) as [qs Hqs].
    { apply (Pool.in_list_true _ _ (qi_wf _ _ _ _ _ Hinv)). eauto. }
    wp_step. eapply wp_on_queues; [done|]. wp_step. wp_step.
    assert (∀ s', dequeued s (Z.log2 b) t s' → Q t s') as HQ'.
    { intros s' Hd. apply (HQ1 (Z.log2 b)); [|done|done]. split_and!; [done|by exists xs, ys|].
      intros p u Hu Heu. specialize (Hel p u Hu Heu).
      destruct (decide (p ≤ Z.log2 b)); [done|]. rewrite Z.bits_above_log2 in Hel by lia. done. }
    wp_step. simpl queues. destruct (Pool.is_empty qs (RunQ (Z.log2 b))) eqn:Eem.
    + apply wp_modify. wp_step. apply HQ'. exists qs. by rewrite Eem.
    + wp_step. wp_step. apply HQ'. exists qs. rewrite Eem. split; [done|]. by destruct s.
Qed.

Lemma wp_get_top_thread (E : gset tid) c cpu s (Q : tid → kstate → Prop) :
  qinv E s →
  (∀ p t s', top_choice s cpu p t → dequeued s p t s' → t ∈ Pool.members (queues s) (RunQ p) → Q t s') →
  ((∀ p u, u ∈ Pool.members (queues s) (RunQ p) → ¬ eligible s cpu u) → Q (idle_thread cpu) s) →
  wp c (get_top_thread cpu) Q s.
Proof.
  intros Hinv HQ1 HQ2. unfold get_top_thread. wp_step. wp_step.
  eapply (wp_get_top_thread_loop E _ _ _ 32); [done|apply Hinv|lia|lia|done| |done|done].
  intros p u Hu _. destruct (qi_run _ _ _ _ _ Hinv _ _ Hu) as (_ & Hp & _).
  apply (qi_bitmap _ _ _ _ _ Hinv); [done|]. intros E0. rewrite E0 in Hu. set_solver.
Qed.

(** The scheduler picks, among the ready threads that may run on the cpu,
    the one of highest priority that has waited longest at that priority, and
    takes just that one off its run queue; it picks the idle thread, and
    changes nothing, exactly when no ready thread may run on the cpu. *)
Theorem get_top_thread_highest c cpu s :
  qinv ∅ s →
  wp c (get_top_thread cpu) (λ t s',
    (∃ p, top_choice s cpu p t ∧ dequeued s p t s' ∧ qinv {[t]} s') ∨
    (t = idle_thread cpu ∧ s' = s ∧
     ∀ p u, u ∈ Pool.members (queues s) (RunQ p) → ¬ eligible s cpu u)) s.
Proof.
  intros Hinv. eapply wp_get_top_thread; [done| |].
  - intros p t s' Hc Hd Hin. left. exists p. split_and!; [done..|].
    rewrite <- (union_empty_r_L {[t]}). by eapply qinv_dequeued.
  - intros Hno. right. by split_and!.
Qed.

(** * Cpu invariant

    With [X = Some c], cpu [c] is about to reschedule: its current thread has
    already left the running state. *)

Record cinvF (X : option nat) (ths : gmap tid thread) (cur : gmap nat tid) : Prop := {
  ci_cur : ∀ c t, cur !! c = Some t → ∃ th, ths !! t = Some th ∧
    (X ≠ Some c → t_state th = THREAD_RUNNING ∧ t_magic th = THREAD_MAGIC);
  ci_inj : ∀ c c' t, cur !! c = Some t → cur !! c' = Some t → c = c';
  ci_run : ∀ t th, ths !! t = Some th → t_state th = THREAD_RUNNING →
    (∃ c, cur !! c = Some t ∧ X ≠ Some c) ∨ (∃ c, t = idle_thread c ∧ cur !! c = None);
  ci_idle : ∀ c, is_Some (cur !! c) → ∃ ith, ths !! idle_thread c = Some ith ∧
    thread_is_idle ith = true ∧ t_magic ith = THREAD_MAGIC ∧
    ((cur !! c = Some (idle_thread c) ∧ X ≠ Some c) ∨ t_state ith = THREAD_READY);
}.

Abbreviation cinv X s := (cinvF X (threads s) (current s)).

(** * Timer invariant

    The preemption timer runs only under ordinary threads.  A pending timer on
    the stack of a thread belongs to that thread, which sleeps if the timer is
    that of [thread_sleep]. *)

Definition stack_timer (ths : gmap tid thread) (u : tid) (tm : timer) : Prop :=
  tm_arg tm = Some u ∧ tm_periodic_time tm = 0 ∧
  ∃ th, ths !! u = Some th ∧ t_magic th = THREAD_MAGIC ∧
    ((tm_callback tm = Some CbThreadSleepHandler ∧ t_state th = THREAD_SLEEPING ∧
      thread_is_idle th = false) ∨
     tm_callback tm = Some CbWaitQueueTimeoutHandler).

Record tinv (s : kstate) : Prop := {
  tv_wf : tqinv s;
  tv_init : ∀ c, is_Some (current s !! c) →
    is_Some (Pool.lists (timer_queue s) !! c) ∧ timer_ok s (TmPreempt c);
  tv_preempt : ∀ c t th, current s !! c = Some t → threads s !! t = Some th →
    Pool.in_list (timer_queue s) (TmPreempt c) = true → thread_is_real_time_or_idle th = false;
  tv_tick : ∀ c tm, timers s !! TmPreempt c = Some tm →
    Pool.in_list (timer_queue s) (TmPreempt c) = true → tm_callback tm = Some CbThreadTimerTick;
  tv_stack : ∀ u tm, timers s !! TmStack u = Some tm →
    Pool.in_list (timer_queue s) (TmStack u) = true → stack_timer (threads s) u tm;
  tv_user : ∀ n tm, timers s !! TmUser n = Some tm →
    Pool.in_list (timer_queue s) (TmUser n) = true → ∃ k, tm_callback tm = Some (CbOther k);
}.

Record kinv (s : kstate) : Prop := {
  ki_q : qinv ∅ s;
  ki_c : cinv None s;
  ki_t : tinv s;
}.

(** The state in which cpu [c] calls [thread_resched]. *)
Record kresched (c : nat) (s : kstate) : Prop := {
  kr_q : qinv ∅ s;
  kr_c : cinv (Some c) s;
  kr_t : tinv s;
  kr_cur : ∃ t th, current s !! c = Some t ∧ threads s !! t = Some th ∧ t_state th ≠ THREAD_RUNNING;
}.

(** What the invariants look at in a thread. *)
Definition sview (th : thread) :=
  (t_magic th, t_priority th, t_state th, t_flags th, t_blocking_wait_queue th).

Definition same_view (ths ths' : gmap tid thread) : Prop :=
  ∀ t, sview <$> ths' !! t = sview <$> ths !! t.

Lemma same_view_lookup ths ths' t th' :
  same_view ths ths' → ths' !! t = Some th' →
  ∃ th, ths !! t = Some th ∧ t_magic th' = t_magic th ∧ t_priority th' = t_priority th ∧
    t_state th' = t_state th ∧ t_flags th' = t_flags th ∧
    t_blocking_wait_queue th' = t_blocking_wait_queue th.
Proof.
  intros Hv Ht. specialize (Hv t). rewrite Ht in Hv. destruct (ths !! t) as [th|]; [|done].
  simpl in Hv. injection Hv as ? ? ? ? ?. by exists th.
Qed.

Lemma same_view_sym ths ths' : same_view ths ths' → same_view ths' ths.
Proof. intros H t. by rewrite H. Qed.

Lemma same_view_insert ths t th th' :
  ths !! t = Some th → sview th' = sview th → same_view ths (<[t := th']> ths).
Proof.
  intros Ht Hv u. destruct (decide (u = t)) as [->|].
  - rewrite lookup_insert_eq, Ht. simpl. by rewrite Hv.
  - by rewrite lookup_insert_ne.
Qed.

Lemma qinv_view E ths ths' qs bm wqs :
  same_view ths ths' → qinvF E ths qs bm wqs → qinvF E ths' qs bm wqs.
Proof.
  intros Hv []. pose proof (same_view_sym _ _ Hv) as Hv'. split; try done.
  - intros p t Hin. destruct (qi_run0 p t Hin) as (? & ? & th & Ht & ? & ? & Hs).
    destruct (same_view_lookup _ _ _ _ Hv' Ht) as (th' & Ht' & ? & ? & ? & Hf & ?).
    split; [done|]. split; [done|]. exists th'. unfold schedulable, thread_is_idle in *. split_and!; try congruence.
    + destruct Hs. congruence.
    + destruct Hs. by rewrite <- Hf.
  - intros w t Hin. destruct (qi_wait0 w t Hin) as (? & th & Ht & ? & ? & Hs).
    destruct (same_view_lookup _ _ _ _ Hv' Ht) as (th' & Ht' & ? & ? & ? & Hf & ?).
    split; [done|]. exists th'. unfold schedulable, thread_is_idle in *. split_and!; try congruence.
    + destruct Hs. congruence.
    + destruct Hs. by rewrite <- Hf.
  - intros t th' Ht' HE Hs Hi. destruct (same_view_lookup _ _ _ _ Hv Ht') as (th & Ht & ? & Hp & ? & Hf & ?).
    rewrite Hp. apply qi_ready0; [done|done|congruence|]. unfold thread_is_idle in *. by rewrite <- Hf.
  - intros t th' Ht' HE Hs. destruct (same_view_lookup _ _ _ _ Hv Ht') as (th & Ht & ? & ? & ? & ? & Hb).
    rewrite Hb. apply (qi_blocked0 t th); [done|done|congruence].
  - intros t th' Ht'. destruct (same_view_lookup _ _ _ _ Hv Ht') as (th & Ht & ? & -> & _).
    by eapply qi_prio0.
Qed.

Lemma cinv_view X ths ths' cur : same_view ths ths' → cinvF X ths cur → cinvF X ths' cur.
Proof.
  intros Hv []. pose proof (same_view_sym _ _ Hv) as Hv'. split; try done.
  - intros c t Hc. destruct (ci_cur0 c t Hc) as (th & Ht & Hr).
    destruct (same_view_lookup _ _ _ _ Hv' Ht) as (th' & Ht' & ? & ? & ? & ? & ?).
    exists th'. split; [done|]. intros HX. destruct (Hr HX). split; congruence.
  - intros t th' Ht' Hs. destruct (same_view_lookup _ _ _ _ Hv Ht') as (th & Ht & ? & ? & ? & ? & ?).
    apply (ci_run0 t th); [done|congruence].
  - intros c Hc. destruct (ci_idle0 c Hc) as (ith & Ht & Hi & ? & Hs).
    destruct (same_view_lookup _ _ _ _ Hv' Ht) as (th' & Ht' & ? & ? & ? & Hf & ?).
    exists th'. unfold thread_is_idle in *. rewrite <- Hf.
    split_and!; [done|done|congruence|]. destruct Hs; [by left|right; congruence].
Qed.

(** Cpu [c] takes up thread [n]. *)
Lemma cinv_switch c ths cur n nth nth' :
  cinvF (Some c) ths cur → is_Some (cur !! c) → ths !! n = Some nth →
  t_state nth ≠ THREAD_RUNNING → (n = idle_thread c ∨ thread_is_idle nth = false) →
  t_state nth' = THREAD_RUNNING → t_magic nth' = THREAD_MAGIC → t_flags nth' = t_flags nth →
  cinvF None (<[n := nth']> ths) (<[c := n]> cur).
Proof.
  intros [] Hc Hn Hs Hidle Hs' Hm' Hf'.
  assert (∀ c', cur !! c' = Some n → c' = c) as Huniq.
  { intros c' Hc'. destruct (decide (c' = c)); [done|].
    destruct (ci_cur0 _ _ Hc') as (th & ? & Hr). simplify_eq. destruct Hr; congruence. }
  split.
  - intros c' t. destruct (decide (c' = c)) as [->|].
    + rewrite lookup_insert_eq. intros [= <-]. exists nth'. by rewrite lookup_insert_eq.
    + rewrite lookup_insert_ne by done. intros Ht. destruct (ci_cur0 _ _ Ht) as (th & Hth & Hr).
      assert (t ≠ n) by (by intros ->; apply n0, Huniq).
      exists th. rewrite lookup_insert_ne by done. split; [done|]. intros _. apply Hr. congruence.
  - intros c1 c2 t. destruct (decide (c1 = c)) as [->|], (decide (c2 = c)) as [->|];
      rewrite ?lookup_insert_eq, ?lookup_insert_ne by done; intros; simplify_eq; try done.
    + symmetry. by apply Huniq.
    + by apply Huniq.
    + by eapply ci_inj0.
  - intros t th. destruct (decide (t = n)) as [->|].
    + intros _ _. left. exists c. by rewrite lookup_insert_eq.
    + rewrite lookup_insert_ne by done. intros Ht Hr.
      destruct (ci_run0 _ _ Ht Hr) as [(c' & Hc' & HX)|(c' & -> & Hc')]; [left|right]; exists c'.
      * by rewrite lookup_insert_ne by congruence.
      * split; [done|]. rewrite lookup_insert_ne; [done|]. intros ->. rewrite Hc' in Hc. by destruct Hc.
  - intros c' Hc'. assert (is_Some (cur !! c')) as Hc2.
    { destruct (decide (c' = c)) as [->|]; [done|]. by rewrite lookup_insert_ne in Hc'. }
    destruct (ci_idle0 c' Hc2) as (ith & Hi & Hfl & Hmg & Hst).
    destruct (decide (idle_thread c' = n)) as [En|En].
    + assert (c' = c) as ->.
      { destruct Hidle as [->|Hni]; [done|]. rewrite En in Hi. simplify_eq. congruence. }
      exists nth'. rewrite En, !lookup_insert_eq. rewrite En in Hi. simplify_eq.
      unfold thread_is_idle in *. rewrite Hf'. split_and!; [done..|]. left. done.
    + exists ith. rewrite lookup_insert_ne by done. split_and!; [done..|].
      destruct Hst as [[Hcc HX]|Hst]; [|by right]. left.
      rewrite lookup_insert_ne by congruence. done.
Qed.

(** * Rescheduling *)

(** What scheduling leaves alone: the synchronization objects, the wait queues,
    the clock, and what a thread's waker left for it. *)
Record sched_frame (s s' : kstate) : Prop := {
  sf_mutexes : mutexes s' = mutexes s;
  sf_semaphores : semaphores s' = semaphores s;
  sf_events : events s' = events s;
  sf_wait_queues : wait_queues s' = wait_queues s;
  sf_thread_list : thread_list s' = thread_list s;
  sf_now : now s' = now s;
  sf_ret : ∀ u th, threads s !! u = Some th → ∃ th', threads s' !! u = Some th' ∧
    t_wait_queue_block_ret th' = t_wait_queue_block_ret th ∧ t_flags th' = t_flags th ∧
    t_retcode th' = t_retcode th;
  sf_dead : ∀ u th, threads s !! u = Some th → t_state th = THREAD_DEATH →
    ∃ th', threads s' !! u = Some th' ∧ t_state th' = THREAD_DEATH;
  sf_timers : ∀ u, timers s' !! TmStack u = timers s !! TmStack u;
  sf_stack_timers : ∀ u, Pool.in_list (timer_queue s') (TmStack u) = Pool.in_list (timer_queue s) (TmStack u);
}.

Record rescheduled (c : nat) (t : tid) (s : kstate) (switched : bool) (s' : kstate) : Prop := {
  rs_kinv : kinv s';
  rs_choice : ∃ n, current s' = <[c := n]> (current s) ∧ switched = bool_decide (n ≠ t) ∧
    ((∃ p, top_choice s c p n) ∨
     (n = idle_thread c ∧ ∀ p u, u ∈ Pool.members (queues s) (RunQ p) → ¬ eligible s c u));
  rs_frame : sched_frame s s';
}.

(** The preemption timer is stopped or started as the kinds of the two threads
    require, without a fault. *)
Definition preempt_update (cpu : nat) (nth oth : thread) : M unit :=
  if thread_is_real_time_or_idle nth
  then if thread_is_real_time_or_idle oth then mret () else timer_cancel (TmPreempt cpu)
  else if thread_is_real_time_or_idle oth
       then timer_set_periodic (TmPreempt cpu) 10 CbThreadTimerTick None
       else mret ().

Lemma bool_eq_iff (b b' : bool) : (b = true ↔ b' = true) → b = b'.
Proof. destruct b, b'; naive_solver. Qed.

Record preempt_post (c : nat) (nth : thread) (s s' : kstate) : Prop := {
  pp_only : timer_only s s';
  pp_tqinv : tqinv s';
  pp_heads : same_heads (timer_queue s) (timer_queue s');
  pp_ok : ∀ u, timer_ok s u → timer_ok s' u;
  pp_same : ∀ u, u ≠ TmPreempt c → timers s' !! u = timers s !! u;
  pp_linked : ∀ u, u ≠ TmPreempt c → Pool.in_list (timer_queue s') u = Pool.in_list (timer_queue s) u;
  pp_kind : Pool.in_list (timer_queue s') (TmPreempt c) = true → thread_is_real_time_or_idle nth = false;
  pp_tick : ∀ tm, timers s' !! TmPreempt c = Some tm →
    Pool.in_list (timer_queue s') (TmPreempt c) = true → tm_callback tm = Some CbThreadTimerTick;
}.

Lemma wp_preempt_update c nth oth s (Q : unit → kstate → Prop) :
  tqinv s → timer_ok s (TmPreempt c) → is_Some (Pool.lists (timer_queue s) !! c) →
  (Pool.in_list (timer_queue s) (TmPreempt c) = true → thread_is_real_time_or_idle oth = false) →
  (∀ tm, timers s !! TmPreempt c = Some tm →
    Pool.in_list (timer_queue s) (TmPreempt c) = true → tm_callback tm = Some CbThreadTimerTick) →
  (∀ s', preempt_post c nth s s' → Q () s') →
  wp c (preempt_update c nth oth) Q s.
Proof.
  intros Hwf Hok Hq Hold Htick HQ. unfold preempt_update.
  destruct (thread_is_real_time_or_idle nth) eqn:En, (thread_is_real_time_or_idle oth) eqn:Eo.
  - wp_step. apply HQ. split; try done. apply timer_only_refl.
    intros H%Hold. done.
  - apply wp_timer_cancel; [done..|]. intros s' [Ho Hwf' Hsh Htok Hsame Hnew Hl].
    apply HQ. split; try done.
    + intros u Hu. apply bool_eq_iff. rewrite Hl. naive_solver.
    + intros [? _]%Hl. done.
    + intros tm _ [? _]%Hl. done.
  - apply wp_timer_set_periodic; [done|done| |done|unfold HORIZON; lia|].
    + apply not_true_iff_false. intros H%Hold. done.
    + intros s' [Ho Hwf' Hsh Htok Hsame (tm & Ht & _ & Hcb & _) Hl]. apply HQ. split; try done.
      * intros u Hu. apply bool_eq_iff. rewrite Hl. naive_solver.
      * intros tm' Htm' _. congruence.
  - wp_step. apply HQ. split; try done. apply timer_only_refl.
Qed.

(** The chosen thread is made the running one. *)
Lemma qinv_make_running s n nth nth' :
  qinv ({[n]} ∪ ∅) s → threads s !! n = Some nth → t_priority nth' = t_priority nth →
  t_state nth' = THREAD_RUNNING →
  qinvF ∅ (<[n := nth']> (threads s)) (queues s) (run_queue_bitmap s) (wait_queues s).
Proof.
  intros Hq Hn Hp Hs. eapply (qinv_include n nth'); [|by rewrite lookup_insert_eq|by rewrite Hs..].
  apply qinv_update; [done|set_solver|]. rewrite Hp. by eapply (qi_prio _ _ _ _ _ Hq).
Qed.

Lemma wp_mp_set c cpu (b : bool) s (Q : unit → kstate → Prop) (f g : nat → M unit) :
  (∀ m, Q () (set_mp m s)) →
  (f = mp_set_cpu_idle ∧ g = mp_set_cpu_busy) ∨ (f = mp_set_cpu_realtime ∧ g = mp_set_cpu_non_realtime) →
  wp c (if b then f cpu else g cpu) Q s.
Proof. intros HQ [[-> ->]|[-> ->]]; destruct b; apply HQ. Qed.

(** Threads whose scheduling view, flags and results are as before. *)
Definition same_results (ths ths' : gmap tid thread) : Prop :=
  ∀ u th, ths !! u = Some th → ∃ th', ths' !! u = Some th' ∧
    t_wait_queue_block_ret th' = t_wait_queue_block_ret th ∧ t_flags th' = t_flags th ∧
    t_retcode th' = t_retcode th.

Lemma same_results_insert ths t th th' :
  ths !! t = Some th → t_wait_queue_block_ret th' = t_wait_queue_block_ret th →
  t_flags th' = t_flags th → t_retcode th' = t_retcode th → same_results ths (<[t := th']> ths).
Proof.
  intros Ht ? ? ? u uth Hu. destruct (decide (u = t)) as [->|].
  - exists th'. rewrite lookup_insert_eq. by simplify_eq.
  - exists uth. by rewrite lookup_insert_ne.
Qed.

Lemma same_results_trans ths1 ths2 ths3 :
  same_results ths1 ths2 → same_results ths2 ths3 → same_results ths1 ths3.
Proof.
  intros H1 H2 u th Hu. destruct (H1 u th Hu) as (th2 & Hu2 & ? & ? & ?).
  destruct (H2 u th2 Hu2) as (th3 & Hu3 & ? & ? & ?). exists th3. split_and!; congruence.
Qed.

Lemma same_view_trans ths1 ths2 ths3 : same_view ths1 ths2 → same_view ths2 ths3 → same_view ths1 ths3.
Proof. intros H1 H2 t. by rewrite H2. Qed.

(** Switching from [o] to [n]: only the cpu fields and the quantum of the two
    threads change, and the cpu's own state. *)
Lemma wp_resched_switch c o n oth nth s (Q : unit → kstate → Prop) :
  n ≠ o → threads s !! o = Some oth → threads s !! n = Some nth →
  tqinv s → timer_ok s (TmPreempt c) → is_Some (Pool.lists (timer_queue s) !! c) →
  (Pool.in_list (timer_queue s) (TmPreempt c) = true → thread_is_real_time_or_idle oth = false) →
  (∀ tm, timers s !! TmPreempt c = Some tm →
    Pool.in_list (timer_queue s) (TmPreempt c) = true → tm_callback tm = Some CbThreadTimerTick) →
  (∀ s' ths m mm, same_view (threads s) ths → same_results (threads s) ths →
     preempt_post c nth
       (set_mmu mm (set_mp m (set_current (<[c := n]> (current s)) (set_threads ths s)))) s' →
     Q () s') →
  wp c (resched_switch c o n) Q s.
Proof.
  intros Hne Ho Hn Hwf Hok Hq Hpre Htick HQ. unfold resched_switch.
  wp_step. eapply wp_mod_thread; [done|]. set (nth1 := if _ <=? _ then _ else _).
  assert (sview nth1 = sview nth ∧ t_wait_queue_block_ret nth1 = t_wait_queue_block_ret nth ∧
    t_retcode nth1 = t_retcode nth) as (Hv1 & Hw1 & Hr1) by (unfold nth1; by case_match).
  wp_step. eapply wp_mod_thread; [simpl; by rewrite lookup_insert_ne|].
  wp_step. eapply wp_mod_thread; [simpl; rewrite lookup_insert_ne, lookup_insert_eq by done; done|].
  simpl. set (oth' := with_curr_cpu (-1) oth). set (nth' := with_curr_cpu _ nth1).
  set (ths := <[n := nth']> _).
  assert (ths !! n = Some nth') as Hn' by (unfold ths; by rewrite lookup_insert_eq).
  assert (ths !! o = Some oth') as Ho' by (unfold ths; by rewrite lookup_insert_ne, lookup_insert_eq by done).
  assert (same_view (threads s) ths) as Hview.
  { eapply same_view_trans; [by eapply (same_view_insert _ n nth nth1)|].
    eapply same_view_trans; [eapply (same_view_insert _ o oth oth'); [by rewrite lookup_insert_ne|done]|].
    eapply (same_view_insert _ n nth1); [by rewrite lookup_insert_ne, lookup_insert_eq by done|done]. }
  assert (t_flags nth1 = t_flags nth) as Hf1 by (by injection Hv1).
  assert (same_results (threads s) ths) as Hres.
  { eapply same_results_trans; [by eapply (same_results_insert _ n nth nth1)|].
    eapply same_results_trans; [eapply (same_results_insert _ o oth oth'); [by rewrite lookup_insert_ne|done..]|].
    eapply (same_results_insert _ n nth1); [by rewrite lookup_insert_ne, lookup_insert_eq by done|done..]. }
  wp_step. eapply wp_get_thread; [exact Hn'|]. wp_step. eapply wp_get_thread; [exact Ho'|].
  wp_step. apply wp_mp_set; [|by left]. intros m1. wp_step. apply wp_mp_set; [|by right]. intros m2.
  wp_step. eapply (wp_preempt_update c nth' oth');
    [by apply (tqinv_ext s)|by apply Hok|by apply Hq|by apply Hpre|by apply Htick|].
  intros s1 Hpp. wp_step. wp_step.
  assert (thread_is_real_time_or_idle nth' = thread_is_real_time_or_idle nth) as Hrt.
  { unfold thread_is_real_time_or_idle. simpl. by rewrite Hf1. }
  destruct Hpp as [(tm & tq & th & ->) Hwf1 ? ? ? ? Hk ?]. rewrite Hrt in Hk. case_decide.
  - wp_step. apply (HQ _ ths m2 (mmu s)); [done..|]. split; try done; [|by revert Hwf1; apply tqinv_ext].
    by exists tm, tq, th.
  - unfold wp, vmm_context_switch. apply (HQ _ ths m2 (<[c := t_aspace nth']> (mmu s))); [done..|].
    split; try done; [|by revert Hwf1; apply tqinv_ext]. by exists tm, tq, th.
Qed.

(** What the choice of the next thread gives the switch. *)
Definition chosen (s : kstate) (c : nat) (n : tid) : Prop :=
  (∃ p, top_choice s c p n) ∨
  (n = idle_thread c ∧ ∀ p u, u ∈ Pool.members (queues s) (RunQ p) → ¬ eligible s c u).

Lemma wp_pick c s (Q : tid → kstate → Prop) :
  kresched c s →
  (∀ n nth qs bm, chosen s c n → threads s !! n = Some nth → t_state nth = THREAD_READY →
     t_magic nth = THREAD_MAGIC → (n = idle_thread c ∨ thread_is_idle nth = false) →
     qinvF ({[n]} ∪ ∅) (threads s) qs bm (wait_queues s) →
     Q n (set_run_queue_bitmap bm (set_queues qs s))) →
  wp c (get_top_thread c) Q s.
Proof.
  intros [Hq Hc Ht (t & th & Hcur & Hth & Hst)] HQ. eapply wp_get_top_thread; [done|..].
  - intros p n s' Hch Hd Hin. pose proof (qinv_dequeued _ _ _ _ _ Hq Hin Hd) as Hq'.
    destruct (qi_run _ _ _ _ _ Hq _ _ Hin) as (_ & _ & nth & Hn & Hs & _ & Hm & Hi).
    destruct Hd as (qs & Hd & ->). apply (HQ n nth); try done; [by left; exists p|by right].
  - intros Hno. destruct (ci_idle _ _ _ Hc c) as (ith & Hi & Hfl & Hmg & [[_ ?]|Hs]); [eauto|done|].
    enough (Q (idle_thread c) (set_run_queue_bitmap (run_queue_bitmap s) (set_queues (queues s) s)))
      by (by destruct s).
    apply (HQ _ ith); try done; [by right|by left|].
    apply qinv_exclude; [done|]. eapply (qinv_not_linked _ ith); [done|done|done|by rewrite Hs].
Qed.

(** Changes of threads that the timer invariant does not notice. *)
Definition timer_view (ths ths' : gmap tid thread) : Prop :=
  (∀ t th', ths' !! t = Some th' → ∃ th, ths !! t = Some th ∧ t_flags th' = t_flags th) ∧
  (∀ t th, ths !! t = Some th → t_magic th = THREAD_MAGIC → ∃ th', ths' !! t = Some th' ∧
     t_magic th' = THREAD_MAGIC ∧ t_flags th' = t_flags th ∧
     (t_state th = THREAD_SLEEPING → t_state th' = THREAD_SLEEPING)).

Lemma stack_timer_view ths ths' u tm :
  timer_view ths ths' → stack_timer ths u tm → stack_timer ths' u tm.
Proof.
  intros [_ Hv] (? & ? & th & Hu & Hm & Hcb). split_and!; [done..|].
  destruct (Hv _ _ Hu Hm) as (th' & ? & ? & Hf & Hs). exists th'. split_and!; [done..|].
  destruct Hcb as [(? & Hst & Hi)|?]; [left|by right].
  split_and!; [done|by apply Hs|]. unfold thread_is_idle. by rewrite Hf.
Qed.

Lemma tinv_ext s s' :
  timers s' = timers s → timer_queue s' = timer_queue s → current s' = current s → now s' = now s →
  timer_view (threads s) (threads s') → tinv s → tinv s'.
Proof.
  intros E1 E2 E3 E4 Hv [Hw Hi Hp Htk Hst Hus]. split; rewrite ?E1, ?E2; try done.
  - by apply (tqinv_ext s).
  - intros c. rewrite E3. intros Hc. destruct (Hi c Hc) as [? (tm & ?)].
    split; [done|]. exists tm. by rewrite E1.
  - intros c t th'. rewrite E3. intros Hc Ht Hl. destruct (proj1 Hv _ _ Ht) as (th & Ht0 & Hf).
    unfold thread_is_real_time_or_idle. rewrite Hf. by eapply Hp.
  - intros u tm Hu Hl. eapply stack_timer_view; [done|]. by apply Hst.
Qed.

Lemma timer_view_refl ths : timer_view ths ths.
Proof. split; naive_solver. Qed.

Lemma timer_view_insert ths t th th' :
  ths !! t = Some th → t_flags th' = t_flags th → t_magic th' = t_magic th →
  (t_state th = THREAD_SLEEPING → t_state th' = THREAD_SLEEPING) →
  timer_view ths (<[t := th']> ths).
Proof.
  intros Ht Hf Hm Hs. split.
  - intros u uth [[<- <-]|[_ Hu]]%lookup_insert_Some; eauto.
  - intros u uth Hu Hum. destruct (decide (u = t)) as [->|].
    + simplify_eq. exists th'. rewrite lookup_insert_eq. split_and!; [done|congruence|done|done].
    + exists uth. by rewrite lookup_insert_ne.
Qed.

Lemma same_view_timer_view ths ths' : same_view ths ths' → timer_view ths ths'.
Proof.
  intros Hv. split.
  - intros t th' Ht. destruct (same_view_lookup _ _ _ _ Hv Ht) as (th & ? & ? & ? & ? & ? & ?). eauto.
  - intros t th Ht Hm. destruct (same_view_lookup _ _ _ _ (same_view_sym _ _ Hv) Ht)
      as (th' & ? & ? & ? & ? & ? & ?). exists th'. split_and!; congruence.
Qed.

Lemma timer_view_trans ths1 ths2 ths3 : timer_view ths1 ths2 → timer_view ths2 ths3 → timer_view ths1 ths3.
Proof.
  intros [A1 B1] [A2 B2]. split.
  - intros t th Ht. destruct (A2 _ _ Ht) as (th2 & Ht2 & ?). destruct (A1 _ _ Ht2) as (th1 & ? & ?).
    exists th1. split; congruence.
  - intros t th Ht Hm. destruct (B1 _ _ Ht Hm) as (th2 & Ht2 & Hm2 & ? & ?).
    destruct (B2 _ _ Ht2 Hm2) as (th3 & ? & ? & ? & ?). exists th3. split_and!; try congruence. auto.
Qed.

(** The timer invariant after a switch of cpu [c] to [n]. *)
Lemma tinv_switch c n nth s s1 s' :
  tinv s → is_Some (current s !! c) → timers s1 = timers s → timer_queue s1 = timer_queue s →
  timer_view (threads s) (threads s1) → current s1 = <[c := n]> (current s) →
  (∀ th, threads s1 !! n = Some th → t_flags th = t_flags nth) →
  preempt_post c nth s1 s' → tinv s'.
Proof.
  intros Ht Hc E1 E2 Hv E3 Hn [(m & q & h & ->) Hwf Hsh Hok Hsame Hl Hk Htk]. simpl in *.
  split; simpl; try done.
  - intros c' Hc'. rewrite E3 in Hc'. assert (is_Some (current s !! c')) as Hc2.
    { destruct (decide (c' = c)) as [->|]; [done|]. by rewrite lookup_insert_ne in Hc'. }
    destruct (tv_init _ Ht c' Hc2) as [? (tm & ?)]. rewrite E2 in Hsh. split; [by apply Hsh|].
    apply Hok. exists tm. by rewrite E1.
  - intros c' u uth Hu Huth Hlk. rewrite E3 in Hu. destruct (decide (c' = c)) as [->|].
    + rewrite lookup_insert_eq in Hu. simplify_eq. unfold thread_is_real_time_or_idle in *.
      rewrite (Hn _ Huth). by apply Hk.
    + rewrite lookup_insert_ne in Hu by done. rewrite Hl, E2 in Hlk by congruence.
      destruct (proj1 Hv _ _ Huth) as (uth0 & ? & Hf). unfold thread_is_real_time_or_idle in *.
      rewrite Hf. by eapply (tv_preempt _ Ht c' u).
  - intros c' tm Htm Hlk. destruct (decide (c' = c)) as [->|]; [by apply Htk|].
    rewrite Hsame, E1 in Htm by congruence. rewrite Hl, E2 in Hlk by congruence.
    by eapply (tv_tick _ Ht).
  - intros u tm Htm Hlk. rewrite Hsame, E1 in Htm by done. rewrite Hl, E2 in Hlk by done.
    eapply stack_timer_view; [done|]. by apply (tv_stack _ Ht).
  - intros k tm Htm Hlk. rewrite Hsame, E1 in Htm by done. rewrite Hl, E2 in Hlk by done.
    by eapply (tv_user _ Ht).
Qed.

Lemma insert_flags (ths : gmap tid thread) t th th' :
  ths !! t = Some th → t_flags th' = t_flags th →
  ∀ u uth, <[t := th']> ths !! u = Some uth → ∃ uth0, ths !! u = Some uth0 ∧ t_flags uth = t_flags uth0.
Proof.
  intros Ht Hf u uth [[<- <-]|[_ Hu]]%lookup_insert_Some; eauto.
Qed.

Lemma insert_dead (ths : gmap tid thread) t th th' :
  ths !! t = Some th → t_state th ≠ THREAD_DEATH →
  ∀ u uth, ths !! u = Some uth → t_state uth = THREAD_DEATH →
    ∃ uth', <[t := th']> ths !! u = Some uth' ∧ t_state uth' = THREAD_DEATH.
Proof.
  intros Ht Hs u uth Hu Hd. exists uth. rewrite lookup_insert_ne; [done|]. intros ->. congruence.
Qed.

Lemma wp_thread_resched c t s (Q : bool → kstate → Prop) :
  kresched c s → current s !! c = Some t → (∀ b s', rescheduled c t s b s' → Q b s') →
  wp c thread_resched Q s.
Proof.
  intros Hk Hcur HQ. destruct (kr_cur _ _ Hk) as (t' & th & ? & Hth & Hst). simplify_eq.
  pose proof (kr_c _ _ Hk) as Hc. pose proof (kr_t _ _ Hk) as Ht.
  unfold thread_resched. wp_step. eapply wp_get_current_thread; [done|]. do 2 wp_step. wp_step.
  eapply wp_get_thread; [done|]. wp_step. wp_step; [by apply bool_decide_eq_true|].
  wp_step. apply wp_pick; [done|]. intros n nth qs bm Hch Hn Hns Hnm Hni Hqn.
  wp_step. eapply wp_mod_thread; [done|]. set (nth' := with_state THREAD_RUNNING nth).
  set (ths := <[n := nth']> _). simpl in ths.
  assert (qinvF ∅ ths qs bm (wait_queues s)) as Hq'.
  { by apply (qinv_make_running (set_run_queue_bitmap bm (set_queues qs s)) n nth). }
  assert (cinvF None ths (<[c := n]> (current s))) as Hc'.
  { eapply cinv_switch; [done|eauto|done|congruence|done..]. }
  assert (same_results (threads s) ths) as Hres by (by eapply same_results_insert).
  assert (timer_view (threads s) ths) as Hv.
  { eapply timer_view_insert; [done..|]. rewrite Hns. done. }
  case_decide as Hnt; simpl.
  - wp_step. subst n. rewrite insert_id in Hc' by done. apply HQ. split.
    + split; [done|done|]. by eapply (tinv_ext s).
    + exists t. simpl. rewrite insert_id by done.
      split_and!; [done|by rewrite bool_decide_eq_false_2 by naive_solver|done].
    + split; try done. eapply insert_dead; [done|congruence].
  - wp_step. destruct (tv_init _ Ht c) as [Hh Hok]; [eauto|].
    eapply (wp_resched_switch c t n th nth');
      [done|by simpl; unfold ths; rewrite lookup_insert_ne|by simpl; unfold ths; rewrite lookup_insert_eq|
       by apply (tqinv_ext s); [..|apply Ht]|done|done|by intros; eapply (tv_preempt _ Ht c t)|
       by apply (tv_tick _ Ht)|].
    intros s' ths' m mm Hview Hres' Hpp. wp_step. apply HQ. simpl in *.
    assert (tinv s') as Htv.
    { eapply (tinv_switch c n nth'); [done|eauto| | | | | |exact Hpp]; simpl; try done.
      - eapply timer_view_trans; [done|]. by apply same_view_timer_view.
      - intros nth2 Hn2. destruct (same_view_lookup _ _ _ _ Hview Hn2) as (nth1 & Hn1 & _ & _ & _ & Hf & _).
        unfold ths in Hn1. rewrite lookup_insert_eq in Hn1. by simplify_eq. }
    destruct Hpp as [(tm & tq & h & ->) _ _ Hok' Hsm' Hl' _ _]. split.
    + split; simpl; [by eapply qinv_view|by eapply cinv_view|done].
    + exists n. split_and!; [done|by rewrite bool_decide_eq_true_2 by naive_solver|done].
    + split; simpl; try done; [by eapply same_results_trans| |intros u; by apply Hsm'|intros u; by apply Hl'].
      intros u uth Hu Hd. destruct (insert_dead _ _ _ nth' Hn ltac:(congruence) _ _ Hu Hd) as (uth1 & Hu1 & ?).
      destruct (same_view_lookup _ _ _ _ (same_view_sym _ _ Hview) Hu1) as (uth2 & ? & ? & ? & ? & _).
      exists uth2. split; congruence.
Qed.

