(* ===== verification/ThreadSafety.v ===== *)
(** Safety of the thread operations: started in a state that satisfies the
    kernel invariant, each of them runs without tripping an assertion, keeps
    the invariant at every point where another thread can run, and interferes
    with the other threads only as they tolerate. *)
From stdpp Require Import prelude gmap strings.
From S2P Require Import Prelude Pow2 IntrusiveList KState Mp Timer Thread ThreadInv.

#[local] Open Scope Z_scope.

(** * Rely and guarantee *)

(** What thread [t] relies on between two of its runs: its stack timer is not
    changed or linked behind its back, objects stay allocated, and a dead
    thread stays dead. *)
Record rely (t : tid) (s s' : kstate) : Prop := {
  rl_timer : timers s' !! TmStack t = timers s !! TmStack t;
  rl_unlinked : Pool.in_list (timer_queue s) (TmStack t) = false →
    Pool.in_list (timer_queue s') (TmStack t) = false;
  rl_dead : ∀ th, threads s !! t = Some th → t_state th = THREAD_DEATH →
    ∃ th', threads s' !! t = Some th' ∧ t_state th' = THREAD_DEATH;
  rl_mutexes : ∀ m, is_Some (mutexes s !! m) → is_Some (mutexes s' !! m);
  rl_semaphores : ∀ m, is_Some (semaphores s !! m) → is_Some (semaphores s' !! m);
  rl_events : ∀ m, is_Some (events s !! m) → is_Some (events s' !! m);
}.

Definition guar (t : tid) (s s' : kstate) : Prop := ∀ u, u ≠ t → rely u s s'.

Lemma rely_refl t s : rely t s s.
Proof. split; eauto. Qed.

Lemma rely_trans t s1 s2 s3 : rely t s1 s2 → rely t s2 s3 → rely t s1 s3.
Proof.
  intros [A1 B1 C1 ? ? ?] [A2 B2 C2 ? ? ?]. split; eauto; [congruence|]. intros th Ht Hs.
  destruct (C1 _ Ht Hs) as (th' & ? & ?). eauto.
Qed.

Lemma guar_refl t s : guar t s s.
Proof. intros u _. apply rely_refl. Qed.

Lemma guar_trans t s1 s2 s3 : guar t s1 s2 → guar t s2 s3 → guar t s1 s3.
Proof. intros H1 H2 u Hu. eapply rely_trans; eauto. Qed.
#[export] Hint Resolve rely_refl guar_refl : lk.

(** Thread [t], running [k] on cpu [c] in a run that began in [s0], is safe in
    [s]: it does not fault, and whenever it stops or ends the invariant and its
    guarantee hold. *)
Fixpoint safe {A} (t : tid) (k : K A) (Q : A → nat → kstate → kstate → Prop)
    (c : nat) (s0 s : kstate) : Prop :=
  match k with
  | KRet a => Q a c s0 s
  | KOp m g => wp c m (λ x s', safe t (g x) Q c s0 s') s
  | KBreak k => kinv s ∧ guar t s0 s ∧
      ∀ c' s', kinv s' → rely t s s' → current s' !! c' = Some t → safe t k Q c' s' s'
  end.

Lemma safe_mono {A} t (k : K A) (Q Q' : A → nat → kstate → kstate → Prop) c s0 s :
  safe t k Q c s0 s → (∀ a c s0 s, Q a c s0 s → Q' a c s0 s) → safe t k Q' c s0 s.
Proof.
  intros H HQ. revert c s0 s H. induction k as [a|X m g IH|k IH]; simpl; intros c s0 s.
  - apply HQ.
  - intros H. eapply wp_mono; [done|]. intros x s' Hx. by apply IH.
  - intros (? & ? & H). split_and!; [done..|]. intros. apply IH. by apply H.
Qed.

Lemma safe_bind {A B} t (k : K A) (f : A → K B) Q c s0 s :
  safe t k (λ a c s0 s, safe t (f a) Q c s0 s) c s0 s → safe t (k ≫= f) Q c s0 s.
Proof.
  revert c s0 s. induction k as [a|X m g IH|k IH]; simpl; intros c s0 s.
  - done.
  - intros H. eapply wp_mono; [done|]. intros x s' Hx. by apply IH.
  - intros (? & ? & H). split_and!; [done..|]. intros. apply IH. by apply H.
Qed.

Lemma safe_op {A} t (m : M A) Q c s0 s :
  wp c m (λ a s', Q a c s0 s') s → safe t (op m) Q c s0 s.
Proof. done. Qed.

(** One run of a safe thread. *)
Lemma safe_exec {A} t (k : K A) Q c s0 s :
  safe t k Q c s0 s →
  match exec c k s with
  | Ok (inl a, s') => Q a c s0 s'
  | Ok (inr k', s') => kinv s' ∧ guar t s0 s' ∧
      ∀ c' s'', kinv s'' → rely t s' s'' → current s'' !! c' = Some t → safe t k' Q c' s'' s''
  | Fault _ => False
  end.
Proof.
  revert s. induction k as [a|X m g IH|k IH]; simpl; intros s H; [done| |done].
  unfold wp in H. destruct (m c s) as [[x s']|]; [|done]. by apply IH.
Qed.

(** What holds for the calling thread when an operation returns. *)
Record returned {A} (t : tid) (a : A) (c : nat) (s0 s : kstate) : Prop := {
  rt_kinv : kinv s;
  rt_guar : guar t s0 s;
  rt_cur : current s !! c = Some t;
  rt_timer : Pool.in_list (timer_queue s) (TmStack t) = false;
}.

(** The state in which thread [t] may call an operation on cpu [c]. *)
Record callable (t : tid) (c : nat) (s : kstate) : Prop := {
  cl_kinv : kinv s;
  cl_cur : current s !! c = Some t;
  cl_timer : Pool.in_list (timer_queue s) (TmStack t) = false;
}.

(** * Leaving the running state *)

Lemma sched_frame_rely u s s' : sched_frame s s' → rely u s s'.
Proof.
  intros [Hm Hsem He _ _ _ _ Hd Hok Hst]. split; rewrite ?Hm, ?Hsem, ?He, ?Hst; eauto.
Qed.

Lemma cinv_leave c t th th' ths cur :
  cinvF None ths cur → cur !! c = Some t → ths !! t = Some th →
  t_state th' ≠ THREAD_RUNNING → t_flags th' = t_flags th → t_magic th' = t_magic th →
  (thread_is_idle th = true → t_state th' = THREAD_READY) →
  cinvF (Some c) (<[t := th']> ths) cur.
Proof.
  intros [ci_cur0 ci_inj0 ci_run0 ci_idle0] Hc Ht Hs Hf Hm Hi. split; [|done|..].
  - intros c' u Hu. destruct (decide (u = t)) as [->|].
    + exists th'. rewrite lookup_insert_eq. split; [done|].
      intros HX. destruct HX. f_equal. by eapply ci_inj0.
    + destruct (ci_cur0 _ _ Hu) as (uth & ? & Hr). exists uth.
      rewrite lookup_insert_ne by done. split; [done|]. intros _. by apply Hr.
  - intros u uth Hu Hr. destruct (decide (u = t)) as [->|].
    { rewrite lookup_insert_eq in Hu. congruence. }
    rewrite lookup_insert_ne in Hu by done. destruct (ci_run0 _ _ Hu Hr) as [(c' & ? & _)|?]; [left|by right].
    exists c'. split; [done|]. congruence.
  - intros c' Hc'. destruct (ci_idle0 c' Hc') as (ith & Hith & Hfl & Hmg & Hst).
    destruct (decide (idle_thread c' = t)) as [E|E].
    + exists th'. rewrite E in *. rewrite lookup_insert_eq. simplify_eq.
      unfold thread_is_idle in *. rewrite Hf. split_and!; [done|done|congruence|]. right. by apply Hi.
    + exists ith. rewrite lookup_insert_ne by done. split_and!; [done..|].
      destruct Hst as [[Hcc _]|?]; [|by right]. left. split; [done|]. congruence.
Qed.

(** Another thread, neither running before nor after, changes. *)
Lemma cinv_other X u uth uth' ths cur :
  cinvF X ths cur → ths !! u = Some uth → t_state uth ≠ THREAD_RUNNING →
  t_state uth' ≠ THREAD_RUNNING → thread_is_idle uth = false →
  cinvF X (<[u := uth']> ths) cur.
Proof.
  intros [ci_cur0 ci_inj0 ci_run0 ci_idle0] Hu Hs Hs' Hi. split; [|done|..].
  - intros c v Hv. destruct (ci_cur0 _ _ Hv) as (vth & Hvt & Hr). destruct (decide (v = u)) as [->|].
    + exists uth'. rewrite lookup_insert_eq. split; [done|]. simplify_eq. intros HX.
      by destruct (Hr HX).
    + exists vth. by rewrite lookup_insert_ne.
  - intros v vth Hv Hr. destruct (decide (v = u)) as [->|].
    { rewrite lookup_insert_eq in Hv. congruence. }
    rewrite lookup_insert_ne in Hv by done. by eapply ci_run0.
  - intros c Hc. destruct (ci_idle0 c Hc) as (ith & Hith & Hfl & Hmg & Hst).
    exists ith. rewrite lookup_insert_ne; [done|]. intros E. subst u. congruence.
Qed.

(** The current thread, just before it reschedules. *)
Lemma kresched_leave c t th th' s s' :
  cinv None s → tinv s → current s !! c = Some t → threads s !! t = Some th →
  t_state th' ≠ THREAD_RUNNING → t_flags th' = t_flags th → t_magic th' = t_magic th →
  (thread_is_idle th = true → t_state th' = THREAD_READY) →
  threads s' = <[t := th']> (threads s) → current s' = current s →
  timers s' = timers s → timer_queue s' = timer_queue s → now s' = now s →
  qinv ∅ s' → kresched c s'.
Proof.
  intros Hc Ht Hcur Hth Hs Hf Hm Hi E1 E2 E3 E4 E5 Hq'.
  destruct (ci_cur _ _ _ Hc _ _ Hcur) as (th0 & ? & Hr). simplify_eq.
  destruct (Hr ltac:(done)) as [Hrun _]. split; [done| | |].
  - rewrite E1, E2. by eapply cinv_leave.
  - eapply (tinv_ext s); [done..| |done]. rewrite E1. eapply timer_view_insert; [done..|congruence].
  - exists t, th'. rewrite E1, E2, lookup_insert_eq. done.
Qed.

Lemma safe_resched t c s0 s (Q : unit → nat → kstate → kstate → Prop) :
  kresched c s → current s !! c = Some t → guar t s0 s →
  (∀ c' s0' s', kinv s' → current s' !! c' = Some t → guar t s0' s' → rely t s s' → Q () c' s0' s') →
  safe t resched Q c s0 s.
Proof.
  intros Hk Hcur Hg HQ. unfold resched. simpl. eapply wp_thread_resched; [done..|].
  intros b s' [Hinv (n & Hcur' & -> & _) Hfr].
  assert (guar t s0 s') as Hg'.
  { eapply guar_trans; [done|]. intros u _. by apply sched_frame_rely. }
  case_bool_decide as Hn; simpl.
  - split_and!; [done..|]. intros c' s'' Hinv' Hr Hc'. apply HQ; auto with lk.
    eapply rely_trans; [by apply sched_frame_rely|done].
  - apply HQ; [done| |done|by apply sched_frame_rely].
    rewrite Hcur', lookup_insert_eq. f_equal. destruct (decide (n = t)); [done|]. by destruct Hn.
Qed.

(** * Run queue insertion *)

Lemma wp_insert_head (E : gset tid) c t th s (Q : unit → kstate → Prop) :
  qinv ({[t]} ∪ E) s → t ∉ E → threads s !! t = Some th → t_state th = THREAD_READY → schedulable th →
  (∀ s', s' = set_run_queue_bitmap (set_bit (run_queue_bitmap s) (t_priority th))
           (set_queues (Pool.link (RunQ (t_priority th)) t
              (t :: Pool.members (queues s) (RunQ (t_priority th))) (queues s)) s) →
     qinv E s' → Q () s') →
  wp c (insert_in_run_queue_head t) Q s.
Proof.
  intros Hq HtE Ht Hs Hsch HQ. unfold insert_in_run_queue_head.
  pose proof (qinv_unlinked t Hq ltac:(set_solver)) as Hn. pose proof (qi_prio _ _ _ _ _ Hq _ _ Ht).
  wp_step. eapply wp_get_thread; [done|]. wp_step. wp_step; [destruct Hsch as [-> _]; done|].
  wp_step. wp_step; [by apply bool_decide_eq_true|]. wp_step. apply wp_gets. wp_step. wp_step; [by rewrite Hn|].
  wp_step. eapply wp_on_queues.
  { apply Pool.add_head_Ok. split_and!; [by apply (qi_init _ _ _ _ _ Hq)|done|done]. }
  apply wp_modify. apply HQ; [done|]. simpl. by apply qinv_make_ready.
Qed.

Lemma wp_insert_tail (E : gset tid) c t th s (Q : unit → kstate → Prop) :
  qinv ({[t]} ∪ E) s → t ∉ E → threads s !! t = Some th → t_state th = THREAD_READY → schedulable th →
  (∀ s', s' = set_run_queue_bitmap (set_bit (run_queue_bitmap s) (t_priority th))
           (set_queues (Pool.link (RunQ (t_priority th)) t
              (Pool.members (queues s) (RunQ (t_priority th)) ++ [t]) (queues s)) s) →
     qinv E s' → Q () s') →
  wp c (insert_in_run_queue_tail t) Q s.
Proof.
  intros Hq HtE Ht Hs Hsch HQ. unfold insert_in_run_queue_tail.
  pose proof (qinv_unlinked t Hq ltac:(set_solver)) as Hn. pose proof (qi_prio _ _ _ _ _ Hq _ _ Ht).
  wp_step. eapply wp_get_thread; [done|]. wp_step. wp_step; [destruct Hsch as [-> _]; done|].
  wp_step. wp_step; [by apply bool_decide_eq_true|]. wp_step. apply wp_gets. wp_step. wp_step; [by rewrite Hn|].
  wp_step. eapply wp_on_queues.
  { apply Pool.add_tail_Ok. split_and!; [by apply (qi_init _ _ _ _ _ Hq)|done|done]. }
  apply wp_modify. apply HQ; [done|]. simpl. apply qinv_make_ready; [done..|].
  by rewrite Permutation_app_comm.
Qed.

(** * Operations of the current thread on itself *)

Lemma current_running s c t :
  kinv s → current s !! c = Some t →
  ∃ th, threads s !! t = Some th ∧ t_state th = THREAD_RUNNING ∧ t_magic th = THREAD_MAGIC ∧
    0 ≤ t_priority th < 32 ∧ Pool.in_list (queues s) t = false.
Proof.
  intros Hk Hc. destruct (ci_cur _ _ _ (ki_c _ Hk) _ _ Hc) as (th & Ht & Hr).
  destruct (Hr ltac:(done)) as [Hs Hm]. exists th. split_and!; try done.
  - by eapply (qi_prio _ _ _ _ _ (ki_q _ Hk)).
  - by eapply (qi_prio _ _ _ _ _ (ki_q _ Hk)).
  - eapply (qinv_not_linked _ th); [apply Hk|done|by rewrite Hs|by rewrite Hs].
Qed.

(** Steps that leave the timers and objects alone. *)
Lemma rely_same u s s' :
  timers s' = timers s → timer_queue s' = timer_queue s → mutexes s' = mutexes s →
  semaphores s' = semaphores s → events s' = events s →
  (∀ th, threads s !! u = Some th → t_state th = THREAD_DEATH →
     ∃ th', threads s' !! u = Some th' ∧ t_state th' = THREAD_DEATH) →
  rely u s s'.
Proof.
  intros E1 E2 E3 E4 E5 Hd. split; rewrite ?E1, ?E2, ?E3, ?E4, ?E5; done.
Qed.

Lemma guar_update t th' s s' :
  threads s' = <[t := th']> (threads s) → timers s' = timers s → timer_queue s' = timer_queue s →
  mutexes s' = mutexes s → semaphores s' = semaphores s → events s' = events s → guar t s s'.
Proof.
  intros E ? ? ? ? ? u Hu. apply rely_same; try done. intros th Ht Hd. exists th.
  by rewrite E, lookup_insert_ne.
Qed.

(** The current thread turned into [th'], which is ready, and put on a run
    queue unless it is the idle thread. *)
Lemma qinv_requeue c t th th' s :
  kinv s → current s !! c = Some t → threads s !! t = Some th → 0 ≤ t_priority th' < 32 →
  qinvF ({[t]} ∪ ∅) (<[t := th']> (threads s)) (queues s) (run_queue_bitmap s) (wait_queues s).
Proof.
  intros Hk Hc Ht Hp. destruct (current_running _ _ _ Hk Hc) as (th0 & ? & _ & _ & _ & Hn).
  apply qinv_update; [|set_solver|done]. apply qinv_exclude; [apply Hk|done].
Qed.

Lemma kinv_resched_ready c t th th' s (Q : unit → kstate → Prop) (ins : M unit) :
  kinv s → current s !! c = Some t → threads s !! t = Some th →
  t_state th' = THREAD_READY → t_flags th' = t_flags th → t_magic th' = t_magic th →
  0 ≤ t_priority th' < 32 →
  (ins = insert_in_run_queue_head t ∨ ins = insert_in_run_queue_tail t) →
  (∀ s', kresched c s' → current s' = current s → guar t s s' → rely t s s' → Q () s') →
  wp c (if thread_is_idle th then mret () else ins) Q (set_threads (<[t := th']> (threads s)) s).
Proof.
  intros Hk Hc Ht Hs Hf Hm Hp Hins HQ.
  pose proof (qinv_requeue c t th th' s Hk Hc Ht Hp) as Hq.
  destruct (current_running _ _ _ Hk Hc) as (th0 & ? & Hrun & Hmg & _ & _). simplify_eq.
  assert (∀ s', threads s' = <[t := th']> (threads s) → current s' = current s →
    timers s' = timers s → timer_queue s' = timer_queue s → mutexes s' = mutexes s →
    semaphores s' = semaphores s → events s' = events s → now s' = now s → qinv ∅ s' → Q () s') as HQ'.
  { intros s' E1 E2 E3 E4 E5 E6 E7 E8 Hq'. apply HQ; [|done|by eapply guar_update|].
    - eapply (kresched_leave c t th th' s); try done; [apply Hk|apply Hk|congruence].
    - apply rely_same; [done..|]. intros. congruence. }
  destruct (thread_is_idle th) eqn:Ei.
  - wp_step. apply HQ'; [done..|]. simpl. eapply (qinv_include t th'); [done|by rewrite lookup_insert_eq| |congruence].
    intros _. unfold thread_is_idle. by rewrite Hf.
  - assert (schedulable th') as Hsch.
    { split; [congruence|]. unfold thread_is_idle. by rewrite Hf. }
    destruct Hins as [->| ->];
      [eapply (wp_insert_head ∅ _ _ th')|eapply (wp_insert_tail ∅ _ _ th')];
      [done|set_solver|by simpl; rewrite lookup_insert_eq|done|done| |done|set_solver|by simpl; rewrite lookup_insert_eq|done|done|];
      intros s' -> Hq'; by apply HQ'.
Qed.

Definition api_post {A} (t : tid) (s : kstate) (Q : A → nat → kstate → kstate → Prop) (a : A) : Prop :=
  ∀ c' s0' s', kinv s' → current s' !! c' = Some t → guar t s0' s' → rely t s s' → Q a c' s0' s'.

Lemma safe_yield t c s0 s Q :
  kinv s → current s !! c = Some t → guar t s0 s → api_post t s Q () → safe t thread_yield Q c s0 s.
Proof.
  intros Hk Hc Hg HQ. destruct (current_running _ _ _ Hk Hc) as (th & Ht & Hs & Hm & Hp & _).
  unfold thread_yield. apply safe_bind, safe_op.
  wp_step. eapply wp_get_current_thread; [done|]. wp_step. eapply wp_get_thread; [done|].
  wp_step. wp_step; [by rewrite Hm|]. wp_step. wp_step; [by rewrite Hs|].
  wp_step. eapply wp_mod_thread; [done|].
  eapply (kinv_resched_ready c t th); try done; [by right|].
  intros s' Hk' Hc' Hg' Hr'. apply safe_resched; [done|by rewrite Hc'|by eapply guar_trans|].
  intros. apply HQ; try done. by eapply rely_trans.
Qed.

Lemma safe_preempt t c s0 s Q :
  kinv s → current s !! c = Some t → guar t s0 s → api_post t s Q () → safe t thread_preempt Q c s0 s.
Proof.
  intros Hk Hc Hg HQ. destruct (current_running _ _ _ Hk Hc) as (th & Ht & Hs & Hm & Hp & _).
  unfold thread_preempt. apply safe_bind, safe_op.
  wp_step. eapply wp_get_current_thread; [done|]. wp_step. eapply wp_get_thread; [done|].
  wp_step. wp_step; [by rewrite Hm|]. wp_step. wp_step; [by rewrite Hs|].
  wp_step. eapply wp_mod_thread; [done|].
  eapply (kinv_resched_ready c t th); try done; [by destruct (0 <? _); [left|right]|].
  intros s' Hk' Hc' Hg' Hr'. apply safe_resched; [done|by rewrite Hc'|by eapply guar_trans|].
  intros. apply HQ; try done. by eapply rely_trans.
Qed.

Lemma safe_set_priority t c s0 s priority Q :
  kinv s → current s !! c = Some t → (∀ th, threads s !! t = Some th → thread_is_idle th = false) →
  guar t s0 s → api_post t s Q () → safe t (thread_set_priority priority) Q c s0 s.
Proof.
  intros Hk Hc Hni Hg HQ. destruct (current_running _ _ _ Hk Hc) as (th & Ht & Hs & Hm & Hp & _).
  unfold thread_set_priority. apply safe_bind, safe_op.
  wp_step. eapply wp_get_current_thread; [done|]. cbv zeta. set (p := if _ <? _ then _ else _).
  assert (0 ≤ p < 32) as Hpr.
  { unfold p, HIGHEST_PRIORITY, IDLE_PRIORITY, NUM_PRIORITIES, LOWEST_PRIORITY. repeat case_match; zbool; lia. }
  clearbody p. wp_step. eapply wp_mod_thread; [done|].
  wp_step. eapply wp_mod_thread; [simpl; by rewrite lookup_insert_eq|]. simpl threads.
  rewrite insert_insert_eq.
  pose proof (kinv_resched_ready c t th (with_state THREAD_READY (with_priority p th)) s) as H.
  rewrite (Hni _ Ht) in H. eapply H; try done; [by left|].
  intros s' Hk' Hc' Hg' Hr'. apply safe_resched; [done|by rewrite Hc'|by eapply guar_trans|].
  intros. apply HQ; try done. by eapply rely_trans.
Qed.

(** * The timer on the stack of the current thread *)

Lemma timer_post_after_init s s' t N P :
  timer_post (set_timers (<[t := mk_timer TIMER_MAGIC 0 0 None None]> (timers s)) s) s' t N P →
  timer_post s s' t N P.
Proof.
  intros [Ho Hw Hh Hok Hsame Hn Hl]. split; try done.
  - intros u Hu. apply Hok. by apply timer_ok_put.
  - intros u Hu. rewrite Hsame by done. simpl. by rewrite lookup_insert_ne.
Qed.

Lemma wp_stack_timer c t delay cb s (Q : unit → kstate → Prop) :
  tinv s → is_Some (current s !! c) → Pool.in_list (timer_queue s) (TmStack t) = false →
  0 ≤ delay < HORIZON →
  (∀ s', timer_post s s' (TmStack t) (set_to 0 cb (Some t))
     (λ u, u = TmStack t ∨ Pool.in_list (timer_queue s) u = true) → Q () s') →
  wp c (timer_initialize (TmStack t)) (λ _ s1,
    wp c (timer_set_oneshot (TmStack t) delay cb (Some t)) Q s1) s.
Proof.
  intros Ht Hc Hn Hd HQ. apply wp_timer_initialize; [done|].
  apply wp_timer_set_oneshot; [by apply tqinv_put_unlinked; [apply Ht|]| |done|by apply (tv_init _ Ht)|done|].
  - eexists. simpl. by rewrite lookup_insert_eq.
  - intros s' Hp. apply HQ. by apply timer_post_after_init.
Qed.

(** The timer invariant once thread [t] has armed its stack timer and become
    [th']. *)
Lemma tinv_stack_set s s2 s' t th th' cb :
  tinv s →
  timer_post s s2 (TmStack t) (set_to 0 cb (Some t))
    (λ u, u = TmStack t ∨ Pool.in_list (timer_queue s) u = true) →
  threads s' = <[t := th']> (threads s) → timers s' = timers s2 → timer_queue s' = timer_queue s2 →
  current s' = current s → now s' = now s → threads s !! t = Some th → t_state th ≠ THREAD_SLEEPING →
  t_flags th' = t_flags th → t_magic th' = t_magic th → t_magic th = THREAD_MAGIC →
  (cb = CbThreadSleepHandler ∧ t_state th' = THREAD_SLEEPING ∧ thread_is_idle th' = false) ∨
   cb = CbWaitQueueTimeoutHandler →
  tinv s'.
Proof.
  intros Ht [Ho Hw Hh Hok Hsame (tm & Htm & _ & Hcb & Harg & Hper) Hl] E1 E2 E3 E4 E5 Hth Hns Hf Hm Hmg Hkind.
  assert (timer_view (threads s) (threads s')) as Hv.
  { rewrite E1. by eapply timer_view_insert. }
  assert (∀ u, u ≠ TmStack t → Pool.in_list (timer_queue s') u = true →
    Pool.in_list (timer_queue s) u = true ∧ timers s' !! u = timers s !! u) as Hold.
  { intros u Hu Hlu. rewrite E3 in Hlu. rewrite E2, Hsame by done. split; [|done].
    apply Hl in Hlu. naive_solver. }
  split; rewrite ?E4.
  - apply (tqinv_ext s2); [done..| |done]. destruct Ho as (? & ? & ? & ->). done.
  - intros c Hc. destruct (tv_init _ Ht c Hc) as [Hi Hk]. rewrite E3. split; [by apply Hh|].
    destruct (Hok _ Hk) as (tm' & ?). exists tm'. by rewrite E2.
  - intros c u uth Hu Huth Hlu. destruct (proj1 Hv _ _ Huth) as (uth0 & ? & Hfu).
    unfold thread_is_real_time_or_idle. rewrite Hfu.
    eapply (tv_preempt _ Ht); [done|done|]. by apply Hold.
  - intros c tm' Htm' Hlu. destruct (Hold (TmPreempt c) ltac:(done) Hlu) as [? E]. rewrite E in Htm'.
    by eapply (tv_tick _ Ht).
  - intros u tm' Htm' Hlu. destruct (decide (u = t)) as [->|].
    + rewrite E2 in Htm'. simplify_eq. split; [done|]. split; [done|]. exists th'.
      rewrite E1, lookup_insert_eq. split_and!; [done|congruence|]. naive_solver.
    + destruct (Hold (TmStack u) ltac:(congruence) Hlu) as [? E]. rewrite E in Htm'.
      eapply stack_timer_view; [done|]. by apply (tv_stack _ Ht).
  - intros n tm' Htm' Hlu. destruct (Hold (TmUser n) ltac:(done) Hlu) as [? E]. rewrite E in Htm'.
    by eapply (tv_user _ Ht).
Qed.

Lemma rely_timer_post u s s' t N :
  u ≠ t → timer_post s s' (TmStack t) N (λ v, v = TmStack t ∨ Pool.in_list (timer_queue s) v = true) →
  rely u s s'.
Proof.
  intros Hu [(m & p & h & ->) _ _ _ Hsame _ Hl]. split; simpl in *; eauto.
  { apply Hsame. congruence. }
  intros Hn. apply not_true_iff_false. intros [|]%Hl; congruence.
Qed.

Lemma safe_sleep t c s0 s delay Q :
  callable t c s → (∀ th, threads s !! t = Some th → thread_is_idle th = false) →
  0 ≤ delay < HORIZON → guar t s0 s →
  (∀ c' s0' s', callable t c' s' → guar t s0' s' → Q () c' s0' s') →
  safe t (thread_sleep delay) Q c s0 s.
Proof.
  intros [Hk Hc Htm] Hni Hd Hg HQ. destruct (current_running _ _ _ Hk Hc) as (th & Ht & Hs & Hm & Hp & Hnq).
  unfold thread_sleep. apply safe_bind, safe_op.
  wp_step. eapply wp_get_current_thread; [done|]. wp_step. eapply wp_get_thread; [done|].
  wp_step. wp_step; [by rewrite Hm|]. wp_step. wp_step; [by rewrite Hs|].
  wp_step. wp_step; [by rewrite (Hni _ Ht)|]. wp_step.
  eapply wp_mono; [apply (wp_stack_timer c t delay CbThreadSleepHandler s (λ _ s', timer_post s s' (TmStack t)
     (set_to 0 CbThreadSleepHandler (Some t)) (λ u, u = TmStack t ∨ Pool.in_list (timer_queue s) u = true)));
     [apply Hk|eauto|done|done|done]|].
  intros [] s1 Hw. wp_step. eapply wp_mono; [done|]. intros [] s2 Hpost. cbn beta.
  destruct (tp_only _ _ _ _ _ Hpost) as (m & p & h & E). 
  eapply wp_mod_thread; [by rewrite E|]. set (th' := with_state THREAD_SLEEPING th). set (s' := set_threads _ s2).
  assert (kresched c s') as Hkr.
  { subst s2. split; simpl.
    - eapply (qinv_include t th'); [by eapply qinv_requeue|by rewrite lookup_insert_eq|done|done].
    - eapply cinv_leave; [apply Hk|done..|]. intros Hi. rewrite (Hni _ Ht) in Hi. done.
    - eapply (tinv_stack_set s _ s' t th th' CbThreadSleepHandler); try done; [apply Hk|congruence|].
      left. split_and!; [done..|]. by apply (Hni th).
    - exists t, th'. rewrite lookup_insert_eq. done. }
  assert (guar t s s') as Hg'.
  { intros u Hu. eapply rely_trans; [by eapply rely_timer_post|]. eapply guar_update; done. }
  apply safe_resched; [done|by subst s2|by eapply guar_trans|].
  intros c' s0' s3 Hk3 Hc3 Hg3 Hr3. apply HQ; [|done]. split; [done..|].
  destruct (tp_new _ _ _ _ _ Hpost) as (tm & Htm2 & _ & Hcb & _).
  apply not_true_iff_false. intros Hl. pose proof (rl_timer _ _ _ Hr3) as Etm. simpl in Etm. rewrite Htm2 in Etm.
  destruct (tv_stack _ (ki_t _ Hk3) _ _ Etm Hl) as (_ & _ & th3 & Ht3 & _ & Hst).
  destruct (current_running _ _ _ Hk3 Hc3) as (? & ? & ? & _). simplify_eq.
  destruct Hst as [(_ & ? & _)|?]; congruence.
Qed.

(** * Blocking on a wait queue *)

Definition wq_ok (s : kstate) (w : wqid) : Prop :=
  ∃ wq, wait_queues s !! w = Some wq ∧ wq_magic wq = WAIT_QUEUE_MAGIC.

Definition not_idle (s : kstate) (t : tid) : Prop :=
  ∀ th, threads s !! t = Some th → thread_is_idle th = false.

(** Objects stay allocated. *)
Record objs_kept (s s' : kstate) : Prop := {
  ok_mutexes : ∀ m, is_Some (mutexes s !! m) → is_Some (mutexes s' !! m);
  ok_semaphores : ∀ m, is_Some (semaphores s !! m) → is_Some (semaphores s' !! m);
  ok_events : ∀ m, is_Some (events s !! m) → is_Some (events s' !! m);
}.

Lemma rely_objs u s s' : rely u s s' → objs_kept s s'.
Proof. intros []. by split. Qed.

Lemma objs_kept_trans s1 s2 s3 : objs_kept s1 s2 → objs_kept s2 s3 → objs_kept s1 s3.
Proof. intros [] []. split; eauto. Qed.

Lemma objs_kept_refl s : objs_kept s s.
Proof. by split. Qed.
#[export] Hint Resolve objs_kept_refl : lk.

(** Timeouts the wrap-around comparison of times can tell apart. *)
Definition timeout_ok (timeout : Z) : Prop := timeout = INFINITE_TIME ∨ 0 ≤ timeout < HORIZON.

Lemma timeout_ok_finite timeout : timeout_ok timeout → (timeout =? INFINITE_TIME) = false → 0 ≤ timeout < HORIZON.
Proof. intros [->|?]; [by rewrite Z.eqb_refl|done]. Qed.

(** The state in which [t] has enqueued itself on [w]. *)
Record enqueued (t : tid) (c : nat) (w : wqid) (timeout : Z) (s s' : kstate) : Prop := {
  eq_kresched : kresched c s';
  eq_cur : current s' = current s;
  eq_guar : guar t s s';
  eq_objs : mutexes s' = mutexes s ∧ semaphores s' = semaphores s ∧ events s' = events s;
  eq_fifo : Pool.members (queues s') (WaitQ w) = Pool.members (queues s) (WaitQ w) ++ [t];
  eq_timer : if timeout =? INFINITE_TIME
    then Pool.in_list (timer_queue s') (TmStack t) = false
    else timer_ok s' (TmStack t);
}.

Lemma wp_enqueue t c w timeout s (Q : tid → kstate → Prop) :
  callable t c s → not_idle s t → wq_ok s w → timeout_ok timeout →
  (∀ s', enqueued t c w timeout s s' → Q t s') →
  wp c (wait_queue_enqueue w timeout) Q s.
Proof.
  intros [Hk Hc Htm] Hni (wq & Hw & Hwm) Hto HQ.
  destruct (current_running _ _ _ Hk Hc) as (th & Ht & Hs & Hm & Hp & Hnq).
  destruct (qi_count _ _ _ _ _ (ki_q _ Hk) _ _ Hw Hwm) as [Hinit _].
  unfold wait_queue_enqueue. wp_step. eapply wp_get_current_thread; [done|].
  wp_step. eapply wp_on_queues; [by apply Pool.add_tail_Ok|]. wp_step. eapply wp_get_wait_queue; [done|].
  wp_step. wp_step. wp_step. eapply wp_mod_thread; [done|]. simpl.
  set (th' := with_wait_queue_block_ret _ _). set (s1 := set_threads _ _).
  assert (qinv ∅ s1) as Hq1.
  { simpl. apply qinv_make_blocked; try done; [|split; [done|exact (Hni th Ht)]].
    apply qinv_exclude; [apply Hk|done]. }
  assert (cinv (Some c) s1) as Hc1.
  { eapply cinv_leave; [apply Hk|done..|]. intros Hi. by rewrite (Hni _ Ht) in Hi. }
  assert (guar t s s1) as Hg1 by (by eapply guar_update).
  assert (tinv s1) as Ht1.
  { eapply (tinv_ext s); [done..| |apply Hk]. eapply timer_view_insert; [done..|congruence]. }
  assert (Pool.members (queues s1) (WaitQ w) = Pool.members (queues s) (WaitQ w) ++ [t]) as Hfifo.
  { simpl. apply members_link_eq. }
  assert (threads s1 !! t = Some th') as Hth1 by (simpl; by rewrite lookup_insert_eq).
  wp_step. destruct (timeout =? INFINITE_TIME) eqn:Einf.
  - wp_step. wp_step. apply HQ. split; try done; [|by rewrite Einf].
    split; try done. by exists t, th'.
  - wp_step. eapply wp_mono; [apply (wp_stack_timer c t timeout CbWaitQueueTimeoutHandler s1 (λ _ s', timer_post s1 s' (TmStack t)
      (set_to 0 CbWaitQueueTimeoutHandler (Some t)) (λ u, u = TmStack t ∨ Pool.in_list (timer_queue s1) u = true)));
      [done|by exists t|done|by apply timeout_ok_finite|done]|].
    intros [] s2 Hw2. eapply wp_mono; [done|]. intros [] s3 Hpost. wp_step. apply HQ.
    destruct (tp_only _ _ _ _ _ Hpost) as (m & p & h & E).
    assert (guar t s s3) as Hg3.
    { eapply guar_trans; [done|]. intros u Hu. by eapply rely_timer_post. }
    assert (tinv s3) as Ht3.
    { eapply (tinv_stack_set s1 s3 s3 t th' th' CbWaitQueueTimeoutHandler);
        [done|done| |done|done|by rewrite E|by rewrite E|done|done|done|done|done|by right].
      rewrite E. simpl. by rewrite insert_insert_eq. }
    split; try done; try (by rewrite E).
    + split; [by rewrite E|by rewrite E|done|]. exists t, th'. by rewrite E.
    + rewrite Einf. destruct (tp_new _ _ _ _ _ Hpost) as (tm & Htm3 & Hmg & _). by exists tm.
Qed.

(** Cancelling the stack timer keeps the invariant. *)
Lemma wp_cancel_stack c t s (Q : unit → kstate → Prop) :
  kinv s → timer_ok s (TmStack t) →
  (∀ s', kinv s' → timer_only s s' → guar t s s' →
     Pool.in_list (timer_queue s') (TmStack t) = false → Q () s') →
  wp c (timer_cancel (TmStack t)) Q s.
Proof.
  intros [Hq Hc Ht] Hok HQ. apply wp_timer_cancel; [apply Ht|done|].
  intros s' [(m & p & h & ->) Hw Hh Hok' Hsame _ Hl]. simpl in *.
  assert (∀ u, u ≠ TmStack t → Pool.in_list p u = true →
    Pool.in_list (timer_queue s) u = true ∧ m !! u = timers s !! u) as Hold.
  { intros u Hu Hlu. split; [by apply Hl in Hlu as [_ ?]|by apply Hsame]. }
  apply HQ.
  - split; simpl; [done|done|]. split; simpl; [done|..].
    + intros c' Hc'. destruct (tv_init _ Ht c' Hc') as [? Hk]. split; [by apply Hh|by apply Hok'].
    + intros c' u uth Hu Huth Hlu. eapply (tv_preempt _ Ht); [done|done|by apply Hold].
    + intros c' tm Htm Hlu. destruct (Hold (TmPreempt c') ltac:(done) Hlu) as [? E].
      rewrite E in Htm. by eapply (tv_tick _ Ht).
    + intros u tm Htm Hlu. destruct (decide (u = t)) as [->|].
      { by apply Hl in Hlu as [? _]. }
      destruct (Hold (TmStack u) ltac:(congruence) Hlu) as [? E].
      rewrite E in Htm. by apply (tv_stack _ Ht).
    + intros n tm Htm Hlu. destruct (Hold (TmUser n) ltac:(done) Hlu) as [? E].
      rewrite E in Htm. by eapply (tv_user _ Ht).
  - by exists m, p, h.
  - intros u Hu. split; simpl; eauto; [apply Hsame; congruence|].
    intros Hn. apply not_true_iff_false. intros [_ ?]%Hl. congruence.
  - simpl. apply not_true_iff_false. intros [? _]%Hl. done.
Qed.

Lemma kinv_current_thread s c t : kinv s → current s !! c = Some t → ∃ th, threads s !! t = Some th.
Proof. intros Hk Hc. destruct (current_running _ _ _ Hk Hc) as (th & ? & _). eauto. Qed.

Lemma safe_wait_queue_block t c w timeout s0 s Q :
  callable t c s → not_idle s t → wq_ok s w → timeout_ok timeout → guar t s0 s →
  (∀ r c' s0' s', callable t c' s' → guar t s0' s' → objs_kept s s' → Q r c' s0' s') →
  safe t (wait_queue_block w timeout) Q c s0 s.
Proof.
  intros Hcl Hni Hw Hto Hg HQ. unfold wait_queue_block.
  destruct (current_running _ _ _ (cl_kinv _ _ _ Hcl) (cl_cur _ _ _ Hcl)) as (th & Ht & Hs & Hm & _).
  apply safe_bind, safe_op. wp_step. eapply wp_get_current_thread; [apply Hcl|].
  destruct Hw as (wq & Hw & Hwm).
  wp_step. eapply wp_get_wait_queue; [done|]. wp_step. wp_step; [by rewrite Hwm|].
  wp_step. eapply wp_get_thread; [done|]. wp_step; [by rewrite Hs|].
  destruct (timeout =? 0); [apply HQ; auto with lk|].
  apply safe_bind, safe_op. eapply wp_enqueue; [done|done|by exists wq|done|]. intros s1 He.
  apply safe_bind. apply safe_resched; [apply He|rewrite (eq_cur _ _ _ _ _ _ He); apply Hcl|by eapply guar_trans, He|].
  intros c' s0' s2 Hk2 Hc2 Hg2 Hr2. apply safe_op.
  assert (objs_kept s s2) as Ho2.
  { eapply objs_kept_trans; [|by eapply rely_objs].
    destruct (eq_objs _ _ _ _ _ _ He) as (E1 & E2 & E3). split; by rewrite ?E1, ?E2, ?E3. }
  pose proof (eq_timer _ _ _ _ _ _ He) as Htm. wp_step. destruct (timeout =? INFINITE_TIME).
  - wp_step. destruct (kinv_current_thread _ _ _ Hk2 Hc2) as [th2 Ht2].
    wp_step. eapply wp_get_thread; [done|]. wp_step. apply HQ; [|done|done].
    split; [done..|]. by apply (rl_unlinked _ _ _ Hr2).
  - apply wp_cancel_stack; [done| |].
    { destruct Htm as (tm & ? & ?). exists tm. by rewrite (rl_timer _ _ _ Hr2). }
    intros s3 Hk3 (m & p & h & ->) Hg3 Hl3. destruct (kinv_current_thread _ _ _ Hk2 Hc2) as [th2 Ht2].
    wp_step. eapply wp_get_thread; [done|]. wp_step. apply HQ; [by split|by eapply guar_trans|].
    eapply objs_kept_trans; [done|by split].
Qed.

(** * Waking *)

Definition woken (err : Z) (th : thread) : thread :=
  with_blocking_wait_queue None (with_wait_queue_block_ret err (with_state THREAD_READY th)).

Lemma wp_wakeup_cpu c t th s (Q : unit → kstate → Prop) :
  threads s !! t = Some th → (∀ l, Q () (set_ipis l s)) → wp c (wakeup_cpu_for_thread t) Q s.
Proof.
  intros Ht HQ. unfold wakeup_cpu_for_thread, mp_reschedule, arch_mp_send_ipi.
  assert (Q () s) as HQ0 by (specialize (HQ (ipis s)); by destruct s).
  wp_step. eapply wp_get_thread; [done|].
  case_match; wp_step; (wp_step; wp_step; wp_step; case_match; [by apply wp_ret|by apply wp_modify]).
Qed.

Lemma wp_mp_reschedule c target mask flags s (Q : unit → kstate → Prop) :
  (∀ l, Q () (set_ipis l s)) → wp c (mp_reschedule target mask flags) Q s.
Proof.
  intros HQ. unfold mp_reschedule, arch_mp_send_ipi.
  assert (Q () s) as HQ0 by (specialize (HQ (ipis s)); by destruct s).
  wp_step. wp_step. wp_step. wp_step. case_match; [by apply wp_ret|by apply wp_modify].
Qed.

Lemma wait_front s w u l p (E : gset tid) :
  qinv E s → Pool.members (queues s) (WaitQ w) = u :: l → Pool.delete_node u (queues s) = Ok p →
  Pool.members p (WaitQ w) = l ∧ (∀ q, q ≠ WaitQ w → Pool.members p q = Pool.members (queues s) q).
Proof.
  intros Hq Hm Hd. pose proof (qi_wf _ _ _ _ _ Hq) as Hwf.
  pose proof (Pool.wf_nodup _ Hwf (WaitQ w)) as Hnd. rewrite Hm, NoDup_cons in Hnd.
  split.
  - rewrite (delete_members _ _ _ _ Hwf Hd), Hm. apply (Pool.remove_split u []); set_solver.
  - intros q Hqw. rewrite (delete_members _ _ _ _ Hwf Hd). apply remove_id. intros Hin.
    apply Hqw. eapply (Pool.members_disjoint _ u); [done|done|]. rewrite Hm. left.
Qed.

(** The common part of the wake operations, after [u] has been popped. *)
Lemma wp_wake_prefix {A} (E : gset tid) c w u err p (k : thread → M A) Q s :
  qinv E s → u ∈ Pool.members (queues s) (WaitQ w) → Pool.delete_node u (queues s) = Ok p →
  (∀ th wq, threads s !! u = Some th → t_state th = THREAD_BLOCKED → schedulable th →
     wait_queues s !! w = Some wq →
     let s' := set_threads (<[u := woken err th]> (threads s))
       (set_wait_queues (<[w := mk_wait_queue (wq_magic wq) (wq_count wq - 1)]> (wait_queues s))
       (set_queues p s)) in
     qinv ({[u]} ∪ E) s' → wp c (k th) Q s') →
  wp c (wait_queue_dec w;; th ← get_thread u;
        debug_assert (bool_decide (t_state th = THREAD_BLOCKED));;
        mod_thread u (λ th, with_blocking_wait_queue None (with_wait_queue_block_ret err
          (with_state THREAD_READY th)));; k th) Q (set_queues p s).
Proof.
  intros Hq Hin Hd HQ. destruct (qi_wait _ _ _ _ _ Hq _ _ Hin) as (HuE & th & Hu & Hs & _ & Hsch).
  destruct (qi_live _ _ _ _ _ Hq _ _ Hin) as (wq & Hw & Hwm).
  unfold wait_queue_dec. wp_step. wp_step. eapply wp_get_wait_queue; [done|]. wp_step.
  wp_step. eapply wp_get_thread; [done|]. wp_step. wp_step; [by rewrite Hs|].
  wp_step. eapply wp_mod_thread; [done|]. apply (HQ th wq); try done. simpl.
  apply qinv_update; [by eapply qinv_pop_wait|set_solver|]. simpl. by eapply (qi_prio _ _ _ _ _ Hq).
Qed.

(** Waking [u] changes nothing for the cpus and timers. *)
Lemma cinv_woken X u uth err ths cur :
  cinvF X ths cur → ths !! u = Some uth → t_state uth = THREAD_BLOCKED → schedulable uth →
  cinvF X (<[u := woken err uth]> ths) cur.
Proof. intros Hc Hu Hs [_ Hi]. eapply cinv_other; [done|done|by rewrite Hs|done|done]. Qed.

Lemma tinv_woken u uth err s s' :
  tinv s → threads s !! u = Some uth → t_state uth = THREAD_BLOCKED →
  threads s' = <[u := woken err uth]> (threads s) → timers s' = timers s →
  timer_queue s' = timer_queue s → current s' = current s → now s' = now s → tinv s'.
Proof.
  intros Ht Hu Hs E1 E2 E3 E4 E5. eapply (tinv_ext s); [done..| |done]. rewrite E1.
  eapply timer_view_insert; [done..|congruence].
Qed.

Lemma rely_woken v u uth err s s' :
  threads s !! u = Some uth → t_state uth = THREAD_BLOCKED →
  threads s' = <[u := woken err uth]> (threads s) → timers s' = timers s →
  timer_queue s' = timer_queue s → mutexes s' = mutexes s → semaphores s' = semaphores s →
  events s' = events s → rely v s s'.
Proof.
  intros Hu Hs E1 ? ? ? ? ?. apply rely_same; try done. rewrite E1.
  eapply (insert_dead _ u); [done|congruence].
Qed.

Lemma kinv_ext s s' :
  kinv s → threads s' = threads s → queues s' = queues s → run_queue_bitmap s' = run_queue_bitmap s →
  wait_queues s' = wait_queues s → current s' = current s → timers s' = timers s →
  timer_queue s' = timer_queue s → now s' = now s → kinv s'.
Proof.
  intros [Hq Hc Ht] E1 E2 E3 E4 E5 E6 E7 E8. split; rewrite ?E1, ?E2, ?E3, ?E4, ?E5; [done..|].
  eapply (tinv_ext s); [done..| |done]. rewrite E1. apply timer_view_refl.
Qed.

(** What waking one waiter does. *)
Record woke_one (w : wqid) (err : Z) (s : kstate) (ret : Z) (s' : kstate) : Prop := {
  wo_none : Pool.members (queues s) (WaitQ w) = [] → ret = 0 ∧ s' = s;
  wo_some : ∀ u l, Pool.members (queues s) (WaitQ w) = u :: l → ret = 1 ∧
    Pool.members (queues s') (WaitQ w) = l ∧
    ∃ th, threads s !! u = Some th ∧ threads s' !! u = Some (woken err th) ∧
      head (Pool.members (queues s') (RunQ (t_priority th))) = Some u;
  wo_cur : current s' = current s;
  wo_now : now s' = now s;
  wo_wqs : ∀ w', wq_ok s w' → wq_ok s' w';
  wo_objs : mutexes s' = mutexes s ∧ semaphores s' = semaphores s ∧ events s' = events s;
}.

Lemma wq_ok_insert s s' w wq w' :
  wait_queues s !! w = Some wq →
  wait_queues s' = <[w := mk_wait_queue (wq_magic wq) (wq_count wq - 1)]> (wait_queues s) →
  wq_ok s w' → wq_ok s' w'.
Proof.
  intros Hw E (wq' & Hw' & Hm). unfold wq_ok. rewrite E. destruct (decide (w' = w)) as [->|].
  - rewrite lookup_insert_eq. simplify_eq. eauto.
  - rewrite lookup_insert_ne by done. eauto.
Qed.

(** Popping the first waiter. *)
Lemma wp_pop_head (E : gset tid) c w s (Q : option tid → kstate → Prop) :
  qinv E s →
  (Pool.members (queues s) (WaitQ w) = [] → Q None s) →
  (∀ u l p, Pool.members (queues s) (WaitQ w) = u :: l → Pool.delete_node u (queues s) = Ok p →
     Q (Some u) (set_queues p s)) →
  wp c (pop_queue (Pool.remove_head (WaitQ w))) Q s.
Proof.
  intros Hq H0 H1. unfold wp, pop_queue, Pool.remove_head, Pool.peek_head.
  destruct (Pool.members (queues s) (WaitQ w)) as [|u l] eqn:Em; simpl.
  - destruct s; by apply H0.
  - destruct (delete_node_total (queues s) u) as [p Hp].
    { apply (Pool.in_list_true _ _ (qi_wf _ _ _ _ _ Hq)). exists (WaitQ w). rewrite Em. left. }
    rewrite Hp. simpl. by eapply H1.
Qed.

Lemma wp_wake_one c w err s (Q : Z → kstate → Prop) :
  kinv s → wq_ok s w → is_Some (current s !! c) →
  (∀ ret s', kinv s' → (∀ v, rely v s s') → woke_one w err s ret s' → Q ret s') →
  wp c (wait_queue_wake_one_core w false err) Q s.
Proof.
  intros Hk (wq & Hw & Hwm) [t Hc] HQ. unfold wait_queue_wake_one_core.
  wp_step. eapply wp_get_current_thread; [done|]. wp_step. eapply wp_get_wait_queue; [done|].
  wp_step. wp_step; [by rewrite Hwm|]. wp_step. eapply wp_pop_head; [apply Hk|..].
  { intros Em. wp_step. apply HQ; [done|intros; apply rely_refl|]. split; try done.
    rewrite Em. done. }
  intros u l p Hm Hp. destruct (wait_front s w u l p ∅ (ki_q _ Hk) Hm Hp) as [Hl Hlo].
  eapply (wp_wake_prefix ∅); [apply Hk|by rewrite Hm; left|done|].
  intros th wq' Hu Hs Hsch Hw' s1 Hq1. simplify_eq. do 2 wp_step.
  wp_step. eapply (wp_insert_head ∅ _ _ (woken err th)); [done|set_solver|
    by simpl; rewrite lookup_insert_eq|done|done|]. intros s2 -> Hq2.
  wp_step. eapply (wp_wakeup_cpu _ _ (woken err th)); [by simpl; rewrite lookup_insert_eq|].
  intros ipi. wp_step. apply HQ.
  - split; simpl; [done|eapply cinv_woken; [apply Hk|done..]|].
    by eapply (tinv_woken u th err s); [apply Hk|..].
  - intros v. by eapply (rely_woken v u th err s).
  - split; try done.
    + rewrite Hm. done.
    + intros u' l' Hm'. rewrite Hm in Hm'. simplify_eq. simpl. split; [done|]. split.
      * by rewrite members_link_ne.
      * exists th. rewrite lookup_insert_eq. split_and!; [done..|]. by rewrite members_link_eq.
    + intros w'. by eapply wq_ok_insert.
Qed.

Lemma wp_wake_one_resched c t w err s (Q : Z → kstate → Prop) :
  kinv s → wq_ok s w → current s !! c = Some t → not_idle s t →
  (Pool.members (queues s) (WaitQ w) = [] → Q 0 s) →
  (∀ s', kresched c s' → guar t s s' → rely t s s' → woke_one w err s 1 s' → Q 1 s') →
  wp c (wait_queue_wake_one_core w true err) Q s.
Proof.
  intros Hk (wq & Hw & Hwm) Hc Hni HQ0 HQ. unfold wait_queue_wake_one_core.
  destruct (current_running _ _ _ Hk Hc) as (tth & Ht & Hts & Htm & Htp & Htn).
  wp_step. eapply wp_get_current_thread; [done|]. wp_step. eapply wp_get_wait_queue; [done|].
  wp_step. wp_step; [by rewrite Hwm|]. wp_step. eapply wp_pop_head; [apply Hk|..].
  { intros Em. wp_step. by apply HQ0. }
  intros u l p Hm Hp. destruct (wait_front s w u l p ∅ (ki_q _ Hk) Hm Hp) as [Hl Hlo].
  eapply (wp_wake_prefix ∅); [apply Hk|by rewrite Hm; left|done|].
  intros th wq' Hu Hs Hsch Hw' s1 Hq1. simplify_eq. assert (u ≠ t) as Hut by congruence.
  assert (threads s1 !! t = Some tth) as Ht1 by (simpl; by rewrite lookup_insert_ne).
  wp_step. wp_step. eapply wp_mod_thread; [done|]. simpl. set (tth' := with_state THREAD_READY tth).
  eapply (wp_insert_head ({[u]} ∪ ∅) _ t tth');
    [|set_solver|by simpl; rewrite lookup_insert_eq|done|split; [done|by apply (Hni tth)]|].
  { simpl. apply qinv_update; [|set_solver|done]. apply qinv_exclude; [exact Hq1|].
    eapply (qinv_not_linked _ tth); [exact Hq1|exact Ht1|by rewrite Hts|by rewrite Hts]. }
  intros s2 -> Hq2. wp_step. eapply (wp_insert_head ∅ _ _ (woken err th)); [exact Hq2|set_solver|
    by simpl; rewrite lookup_insert_ne, lookup_insert_eq by done|done|done|]. intros s3 -> Hq3.
  wp_step. eapply (wp_wakeup_cpu _ _ (woken err th));
    [by simpl; rewrite lookup_insert_ne, lookup_insert_eq by done|].
  intros ipi. wp_step. simpl. apply HQ.
  - eapply (kresched_leave c t tth tth' s1); try done;
      [eapply cinv_woken; [apply Hk|done..]|by eapply (tinv_woken u th err s); [apply Hk|..]].
  - intros v Hv. eapply rely_trans; [by eapply (rely_woken v u th err s s1)|].
    eapply (guar_update t tth' s1); done.
  - eapply rely_trans; [by eapply (rely_woken t u th err s s1)|].
    apply rely_same; try done. intros. congruence.
  - split; try done.
    + rewrite Hm. done.
    + intros u' l' Hm'. rewrite Hm in Hm'. simplify_eq. simpl. split; [done|]. split.
      * by rewrite !members_link_ne.
      * exists th. rewrite lookup_insert_ne, lookup_insert_eq by done.
        split_and!; [done..|]. by rewrite members_link_eq.
    + intros w'. by eapply wq_ok_insert.
Qed.

(** Popping the last waiter. *)
Lemma wp_pop_tail (E : gset tid) c w s (Q : option tid → kstate → Prop) :
  qinv E s →
  (Pool.members (queues s) (WaitQ w) = [] → Q None s) →
  (∀ u l p, Pool.members (queues s) (WaitQ w) = l ++ [u] → Pool.delete_node u (queues s) = Ok p →
     Pool.members p (WaitQ w) = l → (∀ q, q ≠ WaitQ w → Pool.members p q = Pool.members (queues s) q) →
     Q (Some u) (set_queues p s)) →
  wp c (pop_queue (Pool.remove_tail (WaitQ w))) Q s.
Proof.
  intros Hq H0 H1. pose proof (qi_wf _ _ _ _ _ Hq) as Hwf.
  unfold wp, pop_queue, Pool.remove_tail, Pool.peek_tail.
  destruct (last (Pool.members (queues s) (WaitQ w))) as [u|] eqn:El.
  - apply last_Some in El as [l Em]. destruct (delete_node_total (queues s) u) as [p Hp].
    { apply (Pool.in_list_true _ _ Hwf). exists (WaitQ w). rewrite Em. set_solver. }
    rewrite Hp. simpl. apply (H1 u l p); [done|done|..].
    + rewrite (delete_members _ _ _ _ Hwf Hp), Em.
      pose proof (Pool.wf_nodup _ Hwf (WaitQ w)) as Hnd. rewrite Em, NoDup_app in Hnd.
      rewrite (Pool.remove_split u l []); [by rewrite app_nil_r|set_solver..].
    + intros q Hqw. rewrite (delete_members _ _ _ _ Hwf Hp). apply remove_id. intros Hin.
      apply Hqw. eapply (Pool.members_disjoint _ u); [done|done|]. rewrite Em. set_solver.
  - apply last_None in El. destruct s; by apply H0.
Qed.

Lemma filter_ext_in {A} (P P' : A → Prop) `{∀ x, Decision (P x), ∀ x, Decision (P' x)} (l : list A) :
  (∀ x, x ∈ l → P x ↔ P' x) → filter P l = filter P' l.
Proof.
  induction l as [|x l IH]; intros Hx; [done|]. rewrite !filter_cons, IH by set_solver.
  specialize (Hx x ltac:(left)). repeat case_decide; naive_solver.
Qed.

(** The waiters of [w] that have priority [p], longest waiting first. *)
Definition waiting_at (s : kstate) (w : wqid) (p : Z) : list tid :=
  filter (λ u, t_priority <$> threads s !! u = Some p) (Pool.members (queues s) (WaitQ w)).

(** What waking all waiters does. *)
Record woke_all (w : wqid) (err : Z) (s s' : kstate) : Prop := {
  wa_empty : Pool.members (queues s') (WaitQ w) = [];
  wa_run : ∀ p, Pool.members (queues s') (RunQ p) = waiting_at s w p ++ Pool.members (queues s) (RunQ p);
  wa_ret : ∀ u th, u ∈ Pool.members (queues s) (WaitQ w) → threads s !! u = Some th →
    threads s' !! u = Some (woken err th);
  wa_other : ∀ u, u ∉ Pool.members (queues s) (WaitQ w) → threads s' !! u = threads s !! u;
  wa_cur : current s' = current s;
  wa_rely : ∀ v, rely v s s';
  wa_wqs : ∀ w', wq_ok s w' → wq_ok s' w';
  wa_objs : mutexes s' = mutexes s ∧ semaphores s' = semaphores s ∧ events s' = events s;
}.

Lemma woke_all_none w err s : Pool.members (queues s) (WaitQ w) = [] → woke_all w err s s.
Proof.
  intros Hm. split; try done.
  - intros p. unfold waiting_at. by rewrite Hm.
  - rewrite Hm. set_solver.
  - intros. apply rely_refl.
Qed.

(** Waking the last waiter and then all others wakes all. *)
Lemma woke_all_step w err s s1 s' u l th :
  Pool.members (queues s) (WaitQ w) = l ++ [u] → u ∉ l → threads s !! u = Some th →
  threads s1 = <[u := woken err th]> (threads s) → current s1 = current s →
  Pool.members (queues s1) (WaitQ w) = l →
  (∀ p, Pool.members (queues s1) (RunQ p) =
     if decide (p = t_priority th) then u :: Pool.members (queues s) (RunQ p)
     else Pool.members (queues s) (RunQ p)) →
  (∀ v, rely v s s1) → (∀ w', wq_ok s w' → wq_ok s1 w') →
  (mutexes s1 = mutexes s ∧ semaphores s1 = semaphores s ∧ events s1 = events s) →
  woke_all w err s1 s' → woke_all w err s s'.
Proof.
  intros Hm Hnl Hu E1 E2 Hm1 Hr1 Hrel Hwq (O1 & O2 & O3) [A1 A2 A3 A4 A5 A6 A7 (P1 & P2 & P3)].
  split; try done.
  - intros p. rewrite A2, Hr1. unfold waiting_at. rewrite Hm, Hm1, filter_app.
    assert (filter (λ v, t_priority <$> threads s1 !! v = Some p) l =
      filter (λ v, t_priority <$> threads s !! v = Some p) l) as ->.
    { apply filter_ext_in. intros v Hv. rewrite E1, lookup_insert_ne; [done|]. intros ->. done. }
    case_decide as Hp.
    + rewrite filter_cons_True by (rewrite Hu; by subst). by rewrite <- app_assoc.
    + rewrite filter_cons_False by (rewrite Hu; simpl; congruence). by rewrite app_nil_r.
  - intros v vth Hv Hvt. rewrite Hm, elem_of_app, list_elem_of_singleton in Hv.
    destruct (decide (v = u)) as [->|].
    + rewrite A4 by (by rewrite Hm1). rewrite E1, lookup_insert_eq. congruence.
    + apply A3; [rewrite Hm1; naive_solver|]. by rewrite E1, lookup_insert_ne.
  - intros v Hv. rewrite Hm, elem_of_app, list_elem_of_singleton in Hv.
    rewrite A4 by (rewrite Hm1; naive_solver). rewrite E1, lookup_insert_ne; naive_solver.
  - congruence.
  - intros v. eapply rely_trans; [apply Hrel|apply A6].
  - intros w' Hw'. by apply A7, Hwq.
  - by rewrite P1, P2, P3.
Qed.

Lemma wp_wake_all_loop X c w err fuel s tgt mask ret (Q : mp_ipi_target * Z * Z → kstate → Prop) :
  qinv ∅ s → cinv X s → tinv s → (length (Pool.members (queues s) (WaitQ w)) < fuel)%nat →
  (∀ s' tgt' mask', qinv ∅ s' → cinv X s' → tinv s' → woke_all w err s s' →
     Q (tgt', mask', ret + Z.of_nat (length (Pool.members (queues s) (WaitQ w)))) s') →
  wp c (wake_all_loop fuel w err tgt mask ret) Q s.
Proof.
  revert s tgt mask ret. induction fuel as [|fuel IH]; intros s tgt mask ret Hq Hc Ht Hf HQ; [lia|].
  cbn [wake_all_loop]. wp_step. eapply wp_pop_tail; [done|..].
  { intros Em. wp_step. replace ret with (ret + Z.of_nat (length (Pool.members (queues s) (WaitQ w))))
      by (rewrite Em; simpl; lia). apply HQ; try done. by apply woke_all_none. }
  intros u l p Hm Hp Hl Hlo.
  pose proof (Pool.wf_nodup _ (qi_wf _ _ _ _ _ Hq) (WaitQ w)) as Hnd. rewrite Hm, NoDup_app in Hnd.
  eapply (wp_wake_prefix ∅); [done|rewrite Hm; set_solver|done|].
  intros th wq Hu Hs Hsch Hw s1 Hq1.
  destruct (if t_pinned_cpu th <? 0 then _ else _) as [tgt' mask'].
  wp_step. eapply (wp_insert_head ∅ _ _ (woken err th)); [done|set_solver|
    by simpl; rewrite lookup_insert_eq|done|done|]. intros s2 E2 Hq2.
  assert (threads s2 = <[u := woken err th]> (threads s)) as Eth by (by rewrite E2).
  assert (current s2 = current s) as Ecur by (by rewrite E2).
  assert (cinv X s2) as Hc2 by (rewrite Eth, Ecur; by eapply cinv_woken).
  assert (tinv s2) as Ht2 by (by eapply (tinv_woken u th err s); rewrite ?E2).
  assert (Pool.members (queues s2) (WaitQ w) = l) as Hm2 by (rewrite E2; simpl; by rewrite members_link_ne).
  rewrite Hm, length_app in *. simpl in *.
  apply IH; [done..|rewrite Hm2; lia|]. intros s' tgt2 mask2 Hq' Hc' Ht' Hwa. rewrite Hm2.
  replace (ret + 1 + Z.of_nat (length l)) with (ret + Z.of_nat (length l + 1)) by lia.
  apply HQ; try done. eapply (woke_all_step w err s s2 s' u l th); try done; try (by rewrite E2).
  - set_solver.
  - intros pr. rewrite E2. simpl. case_decide as Hpr.
    + subst pr. rewrite members_link_eq. f_equal. by apply Hlo.
    + rewrite members_link_ne by congruence. by apply Hlo.
  - intros v. by eapply (rely_woken v u th err s); rewrite ?E2.
  - intros w'. eapply wq_ok_insert; [done|by rewrite E2].
Qed.

(** The part of [wait_queue_wake_all] after the current thread has been put
    aside. *)
Lemma wp_wake_all_tail X c w err s (Q : Z → kstate → Prop) :
  qinv ∅ s → cinv X s → tinv s → wq_ok s w →
  (∀ s', qinv ∅ s' → cinv X s' → tinv s' → woke_all w err s s' →
     Q (Z.of_nat (length (Pool.members (queues s) (WaitQ w)))) s') →
  wp c (n ← gets (λ s, length (Pool.members (queues s) (WaitQ w)));
        '(target, cpu_mask, ret) ← wake_all_loop (S n) w err MP_IPI_TARGET_MASK 0 0;
        wq ← get_wait_queue w;
        debug_assert (wq_count wq =? 0);;
        (if 0 <? ret then mp_reschedule target cpu_mask 0 else mret ());;
        mret ret) Q s.
Proof.
  intros Hq Hc Ht Hwq HQ. wp_step. apply wp_gets. wp_step.
  eapply (wp_wake_all_loop X); [done..|lia|]. intros s' tgt mask Hq' Hc' Ht' Hwa.
  rewrite Z.add_0_l. destruct (wa_wqs _ _ _ _ Hwa w Hwq) as (wq' & Hw' & Hwm').
  wp_step. eapply wp_get_wait_queue; [done|]. wp_step.
  wp_step.
  { destruct (qi_count _ _ _ _ _ Hq' _ _ Hw' Hwm') as [_ ->]. by rewrite (wa_empty _ _ _ _ Hwa). }
  assert (∀ ip, Q (Z.of_nat (length (Pool.members (queues s) (WaitQ w)))) (set_ipis ip s')) as HQ'.
  { intros ip. apply HQ; try done.
    - by eapply (tinv_ext s'); [..|apply timer_view_refl|].
    - destruct Hwa as [? ? ? ? ? Hr ? ?]. split; try done.
      intros v. eapply rely_trans; [by apply Hr|by apply rely_same; eauto]. }
  wp_step. case_match.
  - apply wp_mp_reschedule. intros ip. wp_step. apply HQ'.
  - wp_step. wp_step. specialize (HQ' (ipis s')). by destruct s'.
Qed.

Lemma wp_wake_all X c w err s (Q : Z → kstate → Prop) :
  qinv ∅ s → cinv X s → tinv s → wq_ok s w → is_Some (current s !! c) →
  (∀ s', qinv ∅ s' → cinv X s' → tinv s' → woke_all w err s s' →
     Q (Z.of_nat (length (Pool.members (queues s) (WaitQ w)))) s') →
  wp c (wait_queue_wake_all_core w false err) Q s.
Proof.
  intros Hq Hc Ht Hwq [t Hcur] HQ. pose proof Hwq as (wq & Hw & Hwm). unfold wait_queue_wake_all_core.
  wp_step. eapply wp_get_current_thread; [done|]. wp_step. eapply wp_get_wait_queue; [done|].
  wp_step. wp_step; [by rewrite Hwm|]. cbn [andb]. wp_step. wp_step. by apply (wp_wake_all_tail X).
Qed.

(** With [reschedule]: the current thread gives way to the waiters. *)
Lemma wp_wake_all_resched c t w err s (Q : Z → kstate → Prop) :
  kinv s → wq_ok s w → current s !! c = Some t → not_idle s t →
  (Pool.members (queues s) (WaitQ w) = [] → Q 0 s) →
  (∀ s', Pool.members (queues s) (WaitQ w) ≠ [] → kresched c s' → current s' = current s →
     guar t s s' → rely t s s' → Pool.members (queues s') (WaitQ w) = [] →
     Q (Z.of_nat (length (Pool.members (queues s) (WaitQ w)))) s') →
  wp c (wait_queue_wake_all_core w true err) Q s.
Proof.
  intros Hk Hwq Hc Hni HQ0 HQ. pose proof Hwq as (wq & Hw & Hwm). unfold wait_queue_wake_all_core.
  destruct (current_running _ _ _ Hk Hc) as (th & Ht & Hs & Hm & Hp & Hn).
  wp_step. eapply wp_get_current_thread; [done|]. wp_step. eapply wp_get_wait_queue; [done|].
  wp_step. wp_step; [by rewrite Hwm|]. cbn [andb].
  destruct (qi_count _ _ _ _ _ (ki_q _ Hk) _ _ Hw Hwm) as [_ Hcnt]. rewrite Hcnt.
  destruct (Pool.members (queues s) (WaitQ w)) as [|u l] eqn:Em.
  - simpl. wp_step. wp_step. wp_step. apply wp_gets. rewrite Em. simpl. wp_step. wp_step.
    eapply wp_pop_tail; [apply Hk| |].
    + intros _. wp_step. wp_step. eapply wp_get_wait_queue; [done|]. wp_step. wp_step; [by rewrite Hcnt|].
      wp_step. simpl. wp_step. wp_step. by apply HQ0.
    + intros ? l ? Hl. rewrite Em in Hl. by destruct l.
  - replace (0 <? Z.of_nat (length (u :: l))) with true by (symmetry; apply Z.ltb_lt; simpl; lia).
    wp_step. wp_step. eapply wp_mod_thread; [done|]. set (th' := with_state THREAD_READY th).
    eapply (wp_insert_head ∅ _ t th');
      [exact (qinv_requeue c t th th' s Hk Hc Ht Hp)|set_solver|by simpl; rewrite lookup_insert_eq|
      done|split; [done|exact (Hni th Ht)]|].
    intros s1 E1 Hq1.
    assert (kresched c s1) as Hk1.
    { eapply (kresched_leave c t th th' s); try done; [apply Hk|apply Hk|by rewrite E1..]. }
    assert (Pool.members (queues s1) (WaitQ w) = u :: l) as Em1.
    { rewrite E1. simpl. by rewrite members_link_ne. }
    apply (wp_wake_all_tail (Some c)); [apply Hk1..|by unfold wq_ok; rewrite E1|].
    rewrite Em1. intros s' Hq' Hc' Ht' Hwa.
    assert (threads s' !! t = Some th') as Ht1.
    { rewrite (wa_other _ _ _ _ Hwa); [by rewrite E1; simpl; rewrite lookup_insert_eq|].
      rewrite Em1, <- Em. intros Hin. apply (qi_wait _ _ _ _ _ (ki_q _ Hk)) in Hin as (_ & ? & ? & ? & _).
      congruence. }
    assert (guar t s s1) as Hg1 by (by eapply (guar_update t th'); rewrite E1).
    apply HQ; [done|..].
    + split; try done. exists t, th'. rewrite (wa_cur _ _ _ _ Hwa), E1. done.
    + by rewrite (wa_cur _ _ _ _ Hwa), E1.
    + eapply guar_trans; [done|]. intros v _. apply (wa_rely _ _ _ _ Hwa).
    + eapply rely_trans; [|apply (wa_rely _ _ _ _ Hwa)]. apply rely_same; try (by rewrite E1). congruence.
    + apply (wa_empty _ _ _ _ Hwa).
Qed.


(** [wait_queue_wake_all] wakes every waiter with [err] and counts them;
    among waiters of one priority the order of arrival becomes the order of
    running, ahead of the threads that were already ready; the loop terminates
    with the queue empty. *)
Theorem wait_queue_wake_all_in_order c w err s :
  kinv s → wq_ok s w → is_Some (current s !! c) →
  wp c (wait_queue_wake_all_core w false err) (λ ret s', kinv s' ∧ woke_all w err s s' ∧
    ret = Z.of_nat (length (Pool.members (queues s) (WaitQ w)))) s.
Proof.
  intros [Hq Hc Ht] Hw Hcur. apply (wp_wake_all None); [done..|]. intros s' ? ? ? ?. by split_and!.
Qed.

(** Before it gives way, a blocking thread has become the last of the
    waiters; it has a pending timer on its stack exactly when the wait has a
    timeout, and nothing of the other threads has changed. *)
Theorem wait_queue_block_joins_last t c w timeout s :
  callable t c s → not_idle s t → wq_ok s w → timeout_ok timeout →
  wp c (wait_queue_enqueue w timeout) (λ t' s', t' = t ∧ enqueued t c w timeout s s') s.
Proof. intros Hcl Hni Hw Hto. apply (wp_enqueue t); auto. Qed.
