(* ===== verification/ThreadApi.v ===== *)
(** The thread interface as seen by its callers: waking, timeouts, the timer
    callbacks, exit, and the kernel as a system of threads, interrupts and
    cpus in which nothing ever faults. *)
From stdpp Require Import prelude gmap strings.
From S2P Require Import Prelude Pow2 IntrusiveList KState Mp Timer Thread ThreadInv ThreadSafety.

#[local] Open Scope Z_scope.

(** * Unblocking and the timer callbacks *)

Lemma insert_same_flags (ths : gmap tid thread) t th th' :
  ths !! t = Some th → t_flags th' = t_flags th →
  ∀ u, t_flags <$> <[t := th']> ths !! u = t_flags <$> ths !! u.
Proof.
  intros Ht Hf u. destruct (decide (u = t)) as [->|].
  - rewrite lookup_insert_eq, Ht. simpl. by rewrite Hf.
  - by rewrite lookup_insert_ne.
Qed.

Lemma wp_unblock c u th err s (Q : Z → kstate → Prop) :
  kinv s → threads s !! u = Some th → t_magic th = THREAD_MAGIC →
  (t_state th ≠ THREAD_BLOCKED → Q ERR_NOT_BLOCKED s) →
  (∀ s', t_state th = THREAD_BLOCKED → kinv s' → (∀ v, rely v s s') →
     threads s' !! u = Some (woken err th) → timers s' = timers s → timer_queue s' = timer_queue s →
     current s' = current s → now s' = now s → hw_timer s' = hw_timer s →
     (∀ v, t_flags <$> threads s' !! v = t_flags <$> threads s !! v) → Q NO_ERROR s') →
  wp c (thread_unblock_from_wait_queue u err) Q s.
Proof.
  intros Hk Hu Hm HQ0 HQ. unfold thread_unblock_from_wait_queue.
  wp_step. eapply wp_get_thread; [done|]. wp_step. wp_step; [by rewrite Hm|].
  case_decide as Hs; [wp_step; by apply HQ0|].
  destruct (qi_blocked _ _ _ _ _ (ki_q _ Hk) _ _ Hu ltac:(set_solver) Hs) as (w & Hb & Hin).
  destruct (qi_live _ _ _ _ _ (ki_q _ Hk) _ _ Hin) as (wq & Hw & Hwm).
  destruct (qi_wait _ _ _ _ _ (ki_q _ Hk) _ _ Hin) as (_ & th0 & ? & _ & _ & Hsch). simplify_eq.
  assert (Pool.in_list (queues s) u = true) as Hlk.
  { apply (Pool.in_list_true _ _ (qi_wf _ _ _ _ _ (ki_q _ Hk))). eauto. }
  destruct (delete_node_total _ _ Hlk) as [p Hp].
  wp_step. wp_step; [by rewrite Hb|]. rewrite Hb. wp_step. unfold wp at 1. simpl.
  wp_step. eapply wp_get_wait_queue; [done|]. wp_step. wp_step; [by rewrite Hwm|].
  wp_step. apply wp_gets. wp_step. wp_step; [done|]. wp_step. eapply wp_on_queues; [done|].
  unfold wait_queue_dec. wp_step. wp_step. eapply wp_get_wait_queue; [done|]. wp_step.
  wp_step. eapply wp_mod_thread; [done|]. wp_step. simpl. change (with_wait_queue_block_ret _ _) with (woken err th).
  eapply (wp_insert_head ∅ _ _ (woken err th)); [|set_solver|by simpl; rewrite lookup_insert_eq|done|done|].
  { simpl. apply qinv_update; [eapply qinv_pop_wait; [apply Hk|done..]|set_solver|].
    simpl. by eapply (qi_prio _ _ _ _ _ (ki_q _ Hk)). }
  intros s2 -> Hq2. wp_step. eapply (wp_wakeup_cpu _ _ (woken err th)); [by simpl; rewrite lookup_insert_eq|].
  intros ipi. wp_step. apply HQ; try done.
  - split; simpl; [done|eapply cinv_woken; [apply Hk|done..]|].
    by eapply (tinv_woken u th err s); [apply Hk|..].
  - intros v. by eapply (rely_woken v u th err s).
  - simpl. by rewrite lookup_insert_eq.
  - by apply (insert_same_flags _ _ th).
Qed.

(** What an interrupt-time callback leaves alone. *)
Record irq_frame (s s' : kstate) : Prop := {
  if_rely : ∀ v, rely v s s';
  if_timers : timers s' = timers s;
  if_timer_queue : timer_queue s' = timer_queue s;
  if_current : current s' = current s;
  if_now : now s' = now s;
  if_hw : hw_timer s' = hw_timer s;
  if_flags : ∀ u, t_flags <$> threads s' !! u = t_flags <$> threads s !! u;
}.

Lemma wp_wait_queue_timeout c u th s (Q : handler_return → kstate → Prop) :
  kinv s → threads s !! u = Some th → t_magic th = THREAD_MAGIC →
  (∀ r s', kinv s' → irq_frame s s' → Q r s') →
  wp c (wait_queue_timeout_handler u) Q s.
Proof.
  intros Hk Hu Hm HQ. unfold wait_queue_timeout_handler.
  wp_step. eapply wp_get_thread; [done|]. wp_step. wp_step; [by rewrite Hm|]. wp_step.
  eapply wp_unblock; [done..| |].
  - intros _. wp_step. apply HQ; [done|]. split; try done. intros. apply rely_refl.
  - intros s' Hs Hk' Hr Hu' E1 E2 E3 E4 E5 E6. wp_step. apply HQ; [done|]. by split.
Qed.

Lemma wp_thread_timer_tick c s (Q : handler_return → kstate → Prop) :
  kinv s → is_Some (current s !! c) → (∀ r s', kinv s' → irq_frame s s' → Q r s') →
  wp c thread_timer_tick Q s.
Proof.
  intros Hk [t Hc] HQ. destruct (current_running _ _ _ Hk Hc) as (th & Ht & Hs & Hm & Hp & _).
  unfold thread_timer_tick. wp_step. eapply wp_get_current_thread; [done|]. wp_step. eapply wp_get_thread; [done|].
  assert (irq_frame s s) as Hrefl by (split; try done; intros; apply rely_refl).
  case_match; [wp_step; by apply HQ|]. cbv zeta. wp_step. eapply wp_mod_thread; [done|].
  set (th' := with_remaining_quantum _ th). set (s' := set_threads _ s).
  assert (same_view (threads s) (threads s')) as Hv by (by eapply same_view_insert).
  assert (kinv s') as Hk'.
  { split; [by eapply qinv_view, Hk|by eapply cinv_view, Hk|].
    eapply (tinv_ext s); [done..|exact (same_view_timer_view _ _ Hv)|apply Hk]. }
  assert (irq_frame s s') as Hf.
  { split; try done; [|by apply (insert_same_flags _ _ th)].
    intros v. apply rely_same; try done. eapply (insert_dead _ t); [done|congruence]. }
  case_match; wp_step; by apply HQ.
Qed.

(** A sleeping thread whose timer has just been taken off the queue. *)
Lemma wp_sleep_handler c u th s (Q : handler_return → kstate → Prop) :
  qinv ∅ s → cinv None s → tinv s → Pool.in_list (timer_queue s) (TmStack u) = false →
  threads s !! u = Some th → t_magic th = THREAD_MAGIC → t_state th = THREAD_SLEEPING →
  thread_is_idle th = false → (∀ r s', kinv s' → irq_frame s s' → Q r s') →
  wp c (thread_sleep_handler u) Q s.
Proof.
  intros Hq Hc Ht Hnl Hu Hm Hs Hi HQ. unfold thread_sleep_handler.
  wp_step. eapply wp_get_thread; [done|]. wp_step. wp_step; [by rewrite Hm|]. wp_step. wp_step; [by rewrite Hs|].
  wp_step. eapply wp_mod_thread; [done|]. set (th' := with_state THREAD_READY th).
  wp_step. eapply (wp_insert_head ∅ _ _ th'); [|set_solver|by simpl; rewrite lookup_insert_eq|done|done|].
  { simpl. apply qinv_update; [|set_solver|exact (qi_prio _ _ _ _ _ Hq _ _ Hu)].
    apply qinv_exclude; [done|]. eapply (qinv_not_linked _ th); [done|done|by rewrite Hs|by rewrite Hs]. }
  intros s2 -> Hq2. wp_step. apply HQ.
  - split; simpl; [done|eapply cinv_other; [done|done|by rewrite Hs|done|done]|].
    destruct Ht as [Hw Hin Hp Htk Hst Hus]. split; simpl; try done.
    + by apply (tqinv_ext s).
    + intros c' v vth Hv Hvt. destruct (insert_flags _ _ _ th' Hu eq_refl _ _ Hvt) as (vth0 & ? & Hf).
      unfold thread_is_real_time_or_idle. rewrite Hf. by eapply Hp.
    + intros v tm Htm Hlk. destruct (decide (v = u)) as [->|]; [congruence|].
      destruct (Hst _ _ Htm Hlk) as (? & ? & vth & Hv & ?). split_and!; [done..|].
      exists vth. by rewrite lookup_insert_ne.
  - split; try done; [|by apply (insert_same_flags _ _ th)].
    intros v. apply rely_same; try done. eapply (insert_dead _ u); [done|congruence].
Qed.

(** * The timer interrupt of the kernel *)

Section kernel_tick.

(** The callbacks of drivers: any code that leaves the kernel state alone. *)
Context (other : nat → M handler_return).
Context (other_ok : ∀ n c s, wp c (other n) (λ _ s', s' = s) s).

Definition kernel_call (cb : timer_callback) (t : timid) (now : Z) (arg : option nat) : M handler_return :=
  match cb, arg with
  | CbThreadTimerTick, _ => thread_timer_tick
  | CbThreadSleepHandler, Some u => thread_sleep_handler u
  | CbWaitQueueTimeoutHandler, Some u => wait_queue_timeout_handler u
  | CbOther n, _ => other n
  | _, None => lift (Fault BadAccess)
  end.

(** The kernel invariant, relative to the state [s0] at the interrupt. *)
Record tick_kinv (s0 s : kstate) : Prop := {
  tk_kinv : kinv s;
  tk_cur : current s = current s0;
  tk_flags : ∀ u, t_flags <$> threads s !! u = t_flags <$> threads s0 !! u;
  tk_rely : ∀ v, rely v s0 s;
}.

Lemma kinv_unlink_timer s t p :
  kinv s → Pool.delete_node t (timer_queue s) = Ok p →
  kinv (set_timer_queue p s) ∧ ∀ v, rely v s (set_timer_queue p s).
Proof.
  intros [Hq Hc Ht] Hd. pose proof (λ u, in_list_delete _ _ t u Hd) as Hl. split.
  - split; simpl; [done..|]. destruct Ht as [Hw Hi Hp Htk Hst Hus]. split; simpl.
    + by eapply tqinv_delete.
    + intros c Hc'. destruct (Hi c Hc'). split; [|done].
      by eapply (delete_same_heads _ _ _ (tq_wf _ Hw) Hd).
    + intros c u uth Hu Huth [_ Hlu]%Hl. by eapply Hp.
    + intros c tm Htm [_ Hlu]%Hl. by eapply Htk.
    + intros u tm Htm [_ Hlu]%Hl. by apply Hst.
    + intros n tm Htm [_ Hlu]%Hl. by eapply Hus.
  - intros v. split; simpl; eauto. intros Hn. apply not_true_iff_false. intros [_ ?]%Hl. congruence.
Qed.

(** Re-arming a periodic timer, which is not on a thread's stack. *)
Lemma kinv_rearm s0 s1 s t tm w p :
  tick_kinv s0 s1 → Pool.in_list (timer_queue s1) t = true → timers s = timers s1 →
  tick_kinv s0 s → timers s !! t = Some tm → 0 < tm_periodic_time tm < HORIZON →
  0 ≤ rel (now s) w < HORIZON → tqinv s → Pool.wf p →
  same_heads (timer_queue s) p →
  (∀ u, Pool.in_list p u = true ↔ u = t ∨ Pool.in_list (timer_queue s) u = true) →
  tqinv (set_timer_queue p (set_timers (<[t := mk_timer (tm_magic tm) w (tm_periodic_time tm)
      (tm_callback tm) (tm_arg tm)]> (timers s)) s)) →
  tick_kinv s0 (set_timer_queue p (set_timers (<[t := mk_timer (tm_magic tm) w (tm_periodic_time tm)
      (tm_callback tm) (tm_arg tm)]> (timers s)) s)).
Proof.
  intros [Hk1 Hc1 Hf1 _] Hl1 E [Hk Hc Hf Hr] Ht Hper Hw Hwf Hwp Hsh Hlp Hinv'. set (tm' := mk_timer _ _ _ _ _).
  assert (∀ u, t ≠ TmStack u) as Hns.
  { intros u ->. rewrite E in Ht. destruct (tv_stack _ (ki_t _ Hk1) _ _ Ht Hl1) as (_ & ? & _). lia. }
  assert (tm_magic tm = TIMER_MAGIC) as Hmg.
  { apply (Pool.in_list_true _ _ (tq_wf _ (tv_wf _ (ki_t _ Hk1)))) in Hl1 as [q Hq].
    destruct (tq_ok _ _ _ (tv_wf _ (ki_t _ Hk1)) Hq) as (tm1 & ? & ?). congruence. }
  assert (∀ u, timer_ok s u → timer_ok (set_timers (<[t := tm']> (timers s)) s) u) as Hok
    by (intros; by apply timer_ok_put).
  assert (∀ u, Pool.in_list p u = true → u ≠ t → Pool.in_list (timer_queue s) u = true) as Hlo
    by (intros u ?%Hlp; naive_solver).
  split; simpl; [|done|done|].
  - destruct Hk as [Hq Hci Hti]. split; simpl; [done..|]. split; simpl.
    + done.
    + intros c Hcc. destruct (tv_init _ Hti c Hcc). split; [by apply Hsh|by apply Hok].
    + intros c u uth Hu Huth Hlu. destruct (decide (TmPreempt c = t)) as [<-|Hne].
      * pose proof (Hf1 u) as F1. rewrite <- Hf, Huth in F1.
        destruct (threads s1 !! u) as [uth1|] eqn:Hu1; simplify_eq/=.
        unfold thread_is_real_time_or_idle. rewrite <- F1.
        eapply (tv_preempt _ (ki_t _ Hk1) c u uth1); [by rewrite Hc1, <- Hc|done|done].
      * eapply (tv_preempt _ Hti); [done|done|by apply Hlo].
    + intros c tm2 Htm2 Hlu. destruct (decide (TmPreempt c = t)) as [<-|Hne].
      * rewrite lookup_insert_eq in Htm2. simplify_eq. simpl. rewrite E in Ht.
        by eapply (tv_tick _ (ki_t _ Hk1)).
      * rewrite lookup_insert_ne in Htm2 by done. eapply (tv_tick _ Hti); [done|by apply Hlo].
    + intros u tm2 Htm2 Hlu. rewrite lookup_insert_ne in Htm2 by done.
      by apply (tv_stack _ Hti), Hlo.
    + intros n tm2 Htm2 Hlu. destruct (decide (TmUser n = t)) as [<-|Hne].
      * rewrite lookup_insert_eq in Htm2. simplify_eq. simpl. rewrite E in Ht.
        by eapply (tv_user _ (ki_t _ Hk1)).
      * rewrite lookup_insert_ne in Htm2 by done. eapply (tv_user _ Hti); [done|by apply Hlo].
  - intros v. eapply rely_trans; [apply Hr|]. split; simpl; eauto.
    + by rewrite lookup_insert_ne.
    + intros Hn. apply not_true_iff_false. intros [?|?]%Hlp; [by eapply Hns|congruence].
Qed.

Lemma kernel_handlers c s0 : is_Some (current s0 !! c) → handlers_ok c kernel_call (tick_kinv s0).
Proof using other_ok.
  intros Hc0. split.
  - intros s t tm cb p [Hk Hcur Hf Hr] Ht Hcb Hl Hd.
    destruct (kinv_unlink_timer _ _ _ Hk Hd) as [Hk' Hr'].
    assert (∀ s', kinv s' → irq_frame (set_timer_queue p s) s' →
      tick_kinv s0 s' ∧ timers s' = timers s ∧ timer_queue s' = p ∧ now s' = now s ∧
      hw_timer s' = hw_timer s) as HQ.
    { intros s' Hk2 [Hr2 E1 E2 E3 E4 E5 E6]. split_and!; try done.
      split; [done|by rewrite E3|by intros; rewrite E6|]. intros v. eapply rely_trans; [apply Hr|].
      eapply rely_trans; [apply Hr'|apply Hr2]. }
    destruct t as [c'|u|n].
    + rewrite (tv_tick _ (ki_t _ Hk) _ _ Ht Hl) in Hcb. simplify_eq. simpl.
      apply wp_thread_timer_tick; [done|by simpl; rewrite Hcur|]. intros r s'. apply HQ.
    + destruct (tv_stack _ (ki_t _ Hk) _ _ Ht Hl) as (Harg & _ & th & Hu & Hm & [(Hcb' & Hs & Hi)|Hcb']);
        rewrite Hcb' in Hcb; simplify_eq; rewrite Harg; simpl.
      * eapply (wp_sleep_handler _ _ th);
          [apply Hk'|apply Hk'|apply Hk'| |done|done|done|done|intros r s'; apply HQ].
        simpl. apply not_true_iff_false. rewrite (in_list_delete _ _ _ _ Hd). naive_solver.
      * eapply (wp_wait_queue_timeout _ _ th); [done..|]. intros r s'. apply HQ.
    + destruct (tv_user _ (ki_t _ Hk) _ _ Ht Hl) as [k Hcb']. rewrite Hcb' in Hcb. simplify_eq. simpl.
      eapply wp_mono; [apply other_ok|]. intros r s' ->. apply HQ; [done|].
      split; try done. intros. apply rely_refl.
  - intros s1 s t tm w p. apply kinv_rearm.
  - intros s h [Hk Hcur Hf Hr]. split; [by apply (kinv_ext s)|done|done|].
    intros v. eapply rely_trans; [apply Hr|]. by apply rely_same; eauto.
Qed.
End kernel_tick.

(** * Operations of the running thread *)

(** What holds when an operation started in [s] returns to its caller. *)
Definition post_ok {A} (t : tid) (s : kstate) (Q : A → nat → kstate → kstate → Prop) (a : A) : Prop :=
  ∀ c' s0' s', callable t c' s' → guar t s0' s' → objs_kept s s' → Q a c' s0' s'.

Lemma callable_rely t c s c' s' :
  callable t c s → kinv s' → current s' !! c' = Some t → rely t s s' → callable t c' s'.
Proof. intros [_ _ Htm] Hk Hc Hr. split; [done..|]. by apply (rl_unlinked _ _ _ Hr). Qed.

Lemma post_api {A} t c s (Q : A → nat → kstate → kstate → Prop) a :
  callable t c s → post_ok t s Q a → api_post t s Q a.
Proof.
  intros Hcl HQ c' s0' s' Hk Hc Hg Hr. apply HQ; [by eapply callable_rely|done|by eapply rely_objs].
Qed.

(** A point at which the thread lock is released. *)
Lemma safe_break {A} t c s0 s (k : K A) Q :
  callable t c s → guar t s0 s →
  (∀ c' s', callable t c' s' → objs_kept s s' → rely t s s' → safe t k Q c' s' s') →
  safe t (KBreak k) Q c s0 s.
Proof.
  intros Hcl Hg HQ. split_and!; [apply Hcl|done|]. intros c' s' Hk Hr Hc.
  apply HQ; [by eapply callable_rely|by eapply rely_objs|done].
Qed.

Lemma safe_wake_one t c w (r : bool) err s0 s Q :
  callable t c s → wq_ok s w → (r = true → not_idle s t) → guar t s0 s →
  (∀ ret, post_ok t s Q ret) → safe t (wait_queue_wake_one w r err) Q c s0 s.
Proof.
  intros Hcl Hw Hni Hg HQ. pose proof Hcl as [Hk Hc Htm]. unfold wait_queue_wake_one.
  apply safe_bind, safe_op. destruct r.
  - eapply wp_wake_one_resched; [done|done|done|by apply Hni|..].
    { intros _. apply HQ; auto with lk. }
    intros s' Hk' Hg' Hr' Ho'. apply safe_bind. apply safe_resched; [done|by rewrite (wo_cur _ _ _ _ _ Ho')|by eapply guar_trans|].
    intros c2 s02 s2 Hk2 Hc2 Hg2 Hr2. apply HQ; [|done|].
    + eapply callable_rely; [done..|]. by eapply rely_trans.
    + eapply (rely_objs t). by eapply rely_trans.
  - eapply wp_wake_one; [done|done|eauto|]. intros ret s' Hk' Hr' Ho'. apply HQ.
    + eapply callable_rely; [done|done|by rewrite (wo_cur _ _ _ _ _ Ho')|done].
    + eapply guar_trans; [done|]. intros v _. apply Hr'.
    + by eapply (rely_objs t).
Qed.

Lemma safe_wake_all t c w (r : bool) err s0 s Q :
  callable t c s → wq_ok s w → (r = true → not_idle s t) → guar t s0 s →
  (∀ ret, post_ok t s Q ret) → safe t (wait_queue_wake_all w r err) Q c s0 s.
Proof.
  intros Hcl Hw Hni Hg HQ. pose proof Hcl as [Hk Hc Htm]. unfold wait_queue_wake_all.
  apply safe_bind, safe_op. destruct r.
  - eapply wp_wake_all_resched; [done|done|done|by apply Hni|..].
    { intros _. apply HQ; auto with lk. }
    intros s' Hne Hk' Ec Hg' Hr' _.
    replace (0 <? _) with true by (destruct (Pool.members _ _); [done|symmetry; apply Z.ltb_lt; simpl; lia]).
    apply safe_bind. apply safe_resched; [done|by rewrite Ec|by eapply guar_trans|].
    intros c2 s02 s2 Hk2 Hc2 Hg2 Hr2. apply HQ; [|done|].
    + eapply callable_rely; [done..|]. by eapply rely_trans.
    + eapply (rely_objs t). by eapply rely_trans.
  - eapply (wp_wake_all None); [apply Hk..|done|eauto|]. intros s' Hq' Hc' Ht' Hwa.
    pose proof (wa_rely _ _ _ _ Hwa) as Hr'. apply HQ.
    + eapply callable_rely; [done|done|by rewrite (wa_cur _ _ _ _ Hwa)|done].
    + eapply guar_trans; [done|]. intros v _. apply Hr'.
    + by eapply (rely_objs t).
Qed.

(** Resuming a thread that was created or is suspended. *)
Lemma wp_resume_ready {A} c u th (m : M A) s (Q : A → kstate → Prop) :
  kinv s → threads s !! u = Some th → t_state th = THREAD_SUSPENDED →
  t_magic th = THREAD_MAGIC → thread_is_idle th = false →
  (∀ s', kinv s' → (∀ v, rely v s s') → current s' = current s →
     threads s' !! u = Some (with_state THREAD_READY th) → wp c m Q s') →
  wp c (mod_thread u (with_state THREAD_READY);; insert_in_run_queue_head u;; m) Q s.
Proof.
  intros Hk Hu Hs Hm Hi HQ. set (th' := with_state THREAD_READY th).
  wp_step. eapply wp_mod_thread; [done|]. wp_step.
  eapply (wp_insert_head ∅ _ _ th'); [|set_solver|by simpl; rewrite lookup_insert_eq|done|done|].
  { simpl. apply qinv_update; [|set_solver|exact (qi_prio _ _ _ _ _ (ki_q _ Hk) _ _ Hu)].
    apply qinv_exclude; [apply Hk|]. eapply (qinv_not_linked _ th); [apply Hk|done|by rewrite Hs|by rewrite Hs]. }
  intros s' E Hq'. apply HQ; [|intros v| |]; try (by rewrite E); [|..].
  - split; [done| |].
    + rewrite E. simpl. eapply cinv_other; [apply Hk|done|by rewrite Hs|done|done].
    + eapply (tinv_ext s); [by rewrite E..| |apply Hk]. rewrite E. simpl.
      eapply timer_view_insert; [done..|congruence].
  - apply rely_same; rewrite ?E; try done. eapply insert_dead; [done|congruence].
  - rewrite E. simpl. by rewrite lookup_insert_eq.
Qed.

(** A thread that may be resumed: alive, and schedulable if it is suspended. *)
Definition resumable (s : kstate) (u : tid) : Prop :=
  ∃ th, threads s !! u = Some th ∧ t_magic th = THREAD_MAGIC ∧ t_state th ≠ THREAD_DEATH ∧
    (t_state th = THREAD_SUSPENDED → thread_is_idle th = false).

Lemma safe_resume t c u ints_disabled s0 s Q :
  callable t c s → resumable s u → guar t s0 s → post_ok t s Q NO_ERROR →
  safe t (thread_resume u ints_disabled) Q c s0 s.
Proof.
  intros Hcl (th & Hu & Hm & Hd & Hi) Hg HQ. unfold thread_resume. apply safe_bind, safe_op.
  wp_step. eapply wp_get_thread; [done|]. wp_step. wp_step; [by rewrite Hm|].
  wp_step. wp_step; [by apply bool_decide_eq_true|].
  assert (∀ s' ip (b : bool), kinv s' → (∀ v, rely v s s') → current s' = current s →
    safe t ((if b then KBreak (KRet ());; thread_yield else KRet ());; KRet NO_ERROR) Q c s0 (set_ipis ip s')) as Hrest.
  { intros s' ip b Hk' Hr' Ec.
    assert (∀ v, rely v s (set_ipis ip s')) as Hr2.
    { intros v. eapply rely_trans; [apply Hr'|by apply rely_same; eauto]. }
    assert (callable t c (set_ipis ip s')) as Hcl2.
    { eapply callable_rely; [done|by apply (kinv_ext s')|simpl; rewrite Ec; apply Hcl|done]. }
    assert (guar t s0 (set_ipis ip s')) as Hg2 by (eapply guar_trans; [done|]; intros v _; apply Hr2).
    apply safe_bind. destruct b; [|apply HQ; [done..|by apply (rely_objs t)]].
    apply safe_bind, safe_break; [done..|]. intros c3 s3 Hcl3 Ho3 _. cbn [safe].
    apply safe_yield; [apply Hcl3|apply Hcl3|apply guar_refl|]. eapply post_api; [done|].
    intros c4 s04 s4 Hcl4 Hg4 Ho4. apply HQ; [done|done|].
    eapply objs_kept_trans; [apply (rely_objs t), Hr2|]. by eapply objs_kept_trans. }
  case_decide as Hs.
  - wp_step. eapply wp_resume_ready; [apply Hcl|done|done|done|by apply Hi|].
    intros s' Hk' Hr' Ec Hu'. wp_step. wp_step. eapply wp_wakeup_cpu; [done|]. intros ip. wp_step. by apply Hrest.
  - wp_step. wp_step. wp_step. eapply wp_wakeup_cpu; [done|]. intros ip. wp_step.
    apply (Hrest _ _ false); [apply Hcl|intros; apply rely_refl|done].
Qed.

(** The state of a thread that exits. *)
Lemma exit_state c t th th' s s' :
  callable t c s → threads s !! t = Some th → thread_is_idle th = false →
  t_state th' = THREAD_DEATH → t_priority th' = t_priority th → thread_is_idle th' = false →
  thread_is_real_time_or_idle th' = thread_is_real_time_or_idle th →
  threads s' = <[t := th']> (threads s) → queues s' = queues s → run_queue_bitmap s' = run_queue_bitmap s →
  wait_queues s' = wait_queues s → current s' = current s → timers s' = timers s →
  timer_queue s' = timer_queue s → now s' = now s →
  qinv ∅ s' ∧ cinv (Some c) s' ∧ tinv s'.
Proof.
  intros [Hk Hc Htm] Ht Hi Hs Hp Hi' Hrt E1 E2 E3 E4 E5 E6 E7 E8.
  rewrite E1, E2, E3, E4, E5. split_and!.
  - apply (qinv_include t th'); [|by rewrite lookup_insert_eq|congruence|congruence].
    eapply qinv_requeue; [done..|]. rewrite Hp. by eapply (qi_prio _ _ _ _ _ (ki_q _ Hk)).
  - rewrite <- (insert_insert_eq (threads s) t th' (with_state THREAD_DEATH th)).
    eapply (cinv_other _ t (with_state THREAD_DEATH th)); [|by rewrite lookup_insert_eq|done|congruence|done].
    eapply cinv_leave; [apply Hk|done..|congruence].
  - destruct (ki_t _ Hk) as [Hw Hin Hpr Htk Hst Hus]. split; rewrite ?E5, ?E6, ?E7; try done.
    + by apply (tqinv_ext s).
    + intros c' Hc'. destruct (Hin c' Hc') as [? (tm & ?)]. split; [done|]. exists tm. by rewrite E6.
    + intros c' u uth Hu. rewrite E1. intros [[<- <-]|[Hne Hut]]%lookup_insert_Some Hl.
      * rewrite Hrt. by eapply Hpr.
      * by eapply Hpr.
    + intros u tm Hu Hl. destruct (Hst _ _ Hu Hl) as (? & ? & uth & ? & ?). split_and!; [done..|].
      exists uth. rewrite E1, lookup_insert_ne; [done|]. intros ->. congruence.
Qed.

(** A thread may exit when it is not the idle thread and, if detached, is on the
    list of threads. *)
Record exitable (s : kstate) (t : tid) : Prop := {
  ex_idle : not_idle s t;
  ex_retcode : wq_ok s (WqRetcode t);
  ex_list : ∃ p, Pool.delete_node t (thread_list s) = Ok p;
}.

Lemma debug_flag_kept f x :
  Z.land THREAD_FLAG_DEBUG_STACK_BOUNDS_CHECK x = 0 →
  has_flag (Z.ldiff f THREAD_FLAG_DEBUG_STACK_BOUNDS_CHECK) x = has_flag f x.
Proof.
  intros Hx. unfold has_flag. do 2 f_equal. apply Z.bits_inj'. intros n Hn.
  rewrite !Z.land_spec, Z.ldiff_spec. apply (f_equal (λ z, Z.testbit z n)) in Hx.
  rewrite Z.land_spec, Z.bits_0 in Hx. destruct (Z.testbit f n), (Z.testbit x n), (Z.testbit _ n); done.
Qed.

Lemma safe_exit t c retcode s0 s Q :
  callable t c s → exitable s t → guar t s0 s → safe t (thread_exit retcode) Q c s0 s.
Proof.
  intros Hcl [Hni Hwq [p Ep]] Hg. pose proof Hcl as [Hk Hc Htm].
  destruct (current_running _ _ _ Hk Hc) as (th & Ht & Hs & Hm & Hp & Hnq).
  assert (∀ s' th', current s' = current s → qinv ∅ s' → cinv (Some c) s' → tinv s' → guar t s s' →
    threads s' !! t = Some th' → t_state th' = THREAD_DEATH →
    safe t (resched;; op panic) Q c s0 s') as Hrest.
  { intros s' th' Ec Hq' Hc' Ht' Hg' Hth' Hd'. apply safe_bind, safe_resched.
    - split; [done..|]. exists t, th'. rewrite Ec, Hd'. done.
    - by rewrite Ec.
    - by eapply guar_trans.
    - intros c2 s02 s2 Hk2 Hc2 _ Hr2. destruct (rl_dead _ _ _ Hr2 _ Hth' Hd') as (th2 & ? & ?).
      destruct (current_running _ _ _ Hk2 Hc2) as (? & ? & ? & _). simplify_eq. congruence. }
  unfold thread_exit. apply safe_bind, safe_op.
  wp_step. eapply wp_get_current_thread; [done|]. wp_step. eapply wp_get_thread; [done|].
  wp_step. wp_step; [by rewrite Hm|]. wp_step. wp_step; [by rewrite Hs|]. wp_step.
  wp_step; [by rewrite (Hni _ Ht)|]. wp_step. eapply wp_mod_thread; [done|].
  set (th1 := with_retcode _ _). set (s1 := set_threads _ s).
  destruct (has_flag (t_flags th) THREAD_FLAG_DETACHED).
  - wp_step. eapply wp_on_thread_list; [done|]. wp_step. eapply wp_mod_thread; [by simpl; rewrite lookup_insert_eq|].
    assert (∀ th' fr, t_state th' = THREAD_DEATH → t_priority th' = t_priority th →
      (t_flags th' = t_flags th ∨ t_flags th' = Z.ldiff (t_flags th) THREAD_FLAG_DEBUG_STACK_BOUNDS_CHECK) →
      safe t (resched;; op panic) Q c s0
        (set_freed fr (set_threads (<[t := th']> (threads s)) (set_thread_list p s)))) as Hend.
    { intros th' fr Hd Hpr Hf. 
      assert (∀ x, Z.land THREAD_FLAG_DEBUG_STACK_BOUNDS_CHECK x = 0 →
        has_flag (t_flags th') x = has_flag (t_flags th) x) as Hfl.
      { intros x Hx. destruct Hf as [->| ->]; [done|by apply debug_flag_kept]. }
      set (s' := set_freed _ _).
      destruct (exit_state c t th th' s s') as (? & ? & ?); try done.
      - exact (Hni _ Ht).
      - unfold thread_is_idle. rewrite Hfl by done. exact (Hni _ Ht).
      - unfold thread_is_real_time_or_idle. by rewrite Hfl.
      - eapply Hrest; [done..|by eapply (guar_update t th')|by simpl; rewrite lookup_insert_eq|done]. }
    simpl threads. rewrite insert_insert_eq. wp_step.
    assert (∀ th' fr, t_state th' = THREAD_DEATH → t_priority th' = t_priority th →
      (t_flags th' = t_flags th ∨ t_flags th' = Z.ldiff (t_flags th) THREAD_FLAG_DEBUG_STACK_BOUNDS_CHECK) →
      wp c (if has_flag (t_flags th) THREAD_FLAG_FREE_STRUCT then free_obj (ObjThread t) else mret ())
        (λ _ s', safe t (resched;; op panic) Q c s0 s')
        (set_freed fr (set_threads (<[t := th']> (threads s)) (set_thread_list p s)))) as Hfree.
    { intros th' fr ? ? ?. case_match; [apply wp_modify|wp_step]; by apply Hend. }
    destruct (t_stack th); [destruct (has_flag _ THREAD_FLAG_FREE_STACK)|];
      [|wp_step; by apply (Hfree (with_magic 0 th1) (freed s)); [..|left]..].
    wp_step. apply wp_modify. eapply wp_mod_thread; [by simpl; rewrite lookup_insert_eq|].
    simpl. rewrite insert_insert_eq. by apply (Hfree (with_flags _ (with_magic 0 th1))); [..|right].
  - wp_step. edestruct (exit_state c t th th1 s s1) as (? & ? & ?); try done; [exact (Hni _ Ht)|exact (Hni _ Ht)|].
    eapply (wp_wake_all (Some c)); [done|done|done|done|by exists t|]. intros s' Hq' Hc' Ht' Hwa. wp_step.
    eapply Hrest; [by rewrite (wa_cur _ _ _ _ Hwa)|done..| | |].
    + apply (guar_trans _ _ s1); [by eapply (guar_update t th1)|]. intros v _. apply (wa_rely _ _ _ _ Hwa).
    + rewrite (wa_other _ _ _ _ Hwa); [by simpl; rewrite lookup_insert_eq|].
      intros Hin. apply (qi_wait _ _ _ _ _ (ki_q _ Hk)) in Hin as (_ & ? & ? & ? & _). congruence.
    + done.
Qed.

(** Taking a thread off the queue it waits on (as a timeout does) makes it
    ready with [err] as the result of its wait; a thread that does not wait is
    left alone, and the caller is told. *)
Theorem thread_unblock_spec c u th err s :
  kinv s → threads s !! u = Some th → t_magic th = THREAD_MAGIC →
  wp c (thread_unblock_from_wait_queue u err) (λ r s', kinv s' ∧
    if decide (t_state th = THREAD_BLOCKED)
    then r = NO_ERROR ∧ threads s' !! u = Some (woken err th)
    else r = ERR_NOT_BLOCKED ∧ s' = s) s.
Proof.
  intros Hk Hu Hm. eapply wp_unblock; [done..| |].
  - intros Hs. by rewrite decide_False.
  - intros s' Hs Hk' _ Hu' _ _ _ _ _ _. by rewrite decide_True.
Qed.

(** C23: [thread_exit] never returns to its caller, whatever runs afterwards:
    the final panic is unreachable. *)
Theorem thread_exit_never_returns t c retcode s :
  callable t c s → exitable s t → safe t (thread_exit retcode) (λ _ _ _ _, False) c s s.
Proof. intros Hcl He. apply safe_exit; auto with lk. Qed.
