(* ===== verification/Sync.v ===== *)
(** Mutexes, semaphores and events: [kernel/mutex.c], [kernel/semaphore.c],
    [kernel/event.c].

    The checks that [LK_DEBUGLEVEL > 0] compiles in are part of the model.  The
    checks made just before the thread lock is taken are evaluated together
    with the critical section they guard. *)
From stdpp Require Import prelude gmap strings.
From S2P Require Import Prelude Pow2 IntrusiveList KState Mp Timer Thread ThreadInv ThreadSafety.
From S2P Require Import ThreadApi.

#[local] Open Scope Z_scope.

Definition get_mutex (m : nat) : M mutex := λ _ s,
  match mutexes s !! m with Some x => Ok (x, s) | None => Fault BadAccess end.
Definition put_mutex (m : nat) (x : mutex) : M unit :=
  modify (λ s, set_mutexes (<[m := x]> (mutexes s)) s).
Definition get_sem (n : nat) : M semaphore := λ _ s,
  match semaphores s !! n with Some x => Ok (x, s) | None => Fault BadAccess end.
Definition put_sem (n : nat) (x : semaphore) : M unit :=
  modify (λ s, set_semaphores (<[n := x]> (semaphores s)) s).
Definition get_event (e : nat) : M event := λ _ s,
  match events s !! e with Some x => Ok (x, s) | None => Fault BadAccess end.
Definition put_event (e : nat) (x : event) : M unit :=
  modify (λ s, set_events (<[e := x]> (events s)) s).

(** * Mutexes *)

Definition mutex_init (m : nat) : M unit :=
  wait_queue_init (WqMutex m);;
  put_mutex m (mk_mutex MUTEX_MAGIC 0 None).

Definition mutex_destroy (m : nat) : K unit :=
  op (x ← get_mutex m;
      debug_assert (m_magic x =? MUTEX_MAGIC);;
      current_thread ← get_current_thread;
      (if decide (m_holder x ≠ None ∧ m_holder x ≠ Some current_thread) then panic else mret ());;
      put_mutex m (mk_mutex 0 0 (m_holder x)));;
  wait_queue_destroy (WqMutex m) true.

Definition mutex_acquire_timeout (m : nat) (timeout : Z) : K Z :=
  count ← op (
    x ← get_mutex m;
    debug_assert (m_magic x =? MUTEX_MAGIC);;
    current_thread ← get_current_thread;
    (if decide (m_holder x = Some current_thread) then panic else mret ());;
    put_mutex m (mk_mutex (m_magic x) (m_count x + 1) (m_holder x));;
    mret (m_count x + 1));
  ret ← (if 1 <? count then wait_queue_block (WqMutex m) timeout else KRet NO_ERROR);
  if ret <? NO_ERROR then
    (if ret =? ERR_TIMED_OUT
     then op (x ← get_mutex m; put_mutex m (mk_mutex (m_magic x) (m_count x - 1) (m_holder x)))
     else KRet ());;
    KRet ret
  else
    op (x ← get_mutex m;
        current_thread ← get_current_thread;
        put_mutex m (mk_mutex (m_magic x) (m_count x) (Some current_thread)));;
    KRet ret.

Definition mutex_acquire (m : nat) : K Z := mutex_acquire_timeout m INFINITE_TIME.

Definition mutex_release (m : nat) : K Z :=
  count ← op (
    x ← get_mutex m;
    debug_assert (m_magic x =? MUTEX_MAGIC);;
    current_thread ← get_current_thread;
    (if decide (m_holder x = Some current_thread) then mret () else panic);;
    put_mutex m (mk_mutex (m_magic x) (m_count x - 1) None);;
    mret (m_count x - 1));
  (if 1 <=? count then wait_queue_wake_one (WqMutex m) true NO_ERROR;; KRet () else KRet ());;
  KRet NO_ERROR.

Definition is_mutex_held (m : nat) : M bool :=
  x ← get_mutex m;
  current_thread ← get_current_thread;
  mret (bool_decide (m_holder x = Some current_thread)).

(** * Semaphores *)

Definition sem_init (n : nat) (initial_count : Z) : M unit :=
  wait_queue_init (WqSem n);;
  put_sem n (mk_sem SEMAPHORE_MAGIC initial_count).

Definition sem_destroy (n : nat) : K unit :=
  op (x ← get_sem n; put_sem n (mk_sem (sem_magic x) 0));;
  wait_queue_destroy (WqSem n) true.

Definition sem_add (n : nat) (d : Z) : M Z :=
  x ← get_sem n;
  let count := s32 (sem_count x + d) in
  put_sem n (mk_sem (sem_magic x) count);;
  mret count.

Definition sem_post (n : nat) (rsc : bool) : K Z :=
  count ← op (sem_add n 1);
  if count <=? 0 then wait_queue_wake_one (WqSem n) rsc NO_ERROR else KRet 0.

Definition sem_wait (n : nat) : K Z :=
  count ← op (sem_add n (-1));
  if count <? 0 then wait_queue_block (WqSem n) INFINITE_TIME else KRet NO_ERROR.

Definition sem_trywait (n : nat) : K Z :=
  op (x ← get_sem n;
      if sem_count x <=? 0 then mret ERR_NOT_READY
      else sem_add n (-1);; mret NO_ERROR).

Definition sem_timedwait (n : nat) (timeout : Z) : K Z :=
  count ← op (sem_add n (-1));
  if count <? 0 then
    ret ← wait_queue_block (WqSem n) timeout;
    (if (ret <? NO_ERROR) && (ret =? ERR_TIMED_OUT) then op (sem_add n 1);; KRet () else KRet ());;
    KRet ret
  else KRet NO_ERROR.

(** * Events *)

Definition event_init (e : nat) (initial : bool) (flags : Z) : M unit :=
  wait_queue_init (WqEvent e);;
  put_event e (mk_event EVENT_MAGIC (if initial then 1 else 0) flags).

Definition event_destroy (e : nat) : K unit :=
  op (x ← get_event e;
      debug_assert (e_magic x =? EVENT_MAGIC);;
      put_event e (mk_event 0 0 0));;
  wait_queue_destroy (WqEvent e) true.

Definition event_wait_timeout (e : nat) (timeout : Z) : K Z :=
  signaled ← op (
    x ← get_event e;
    debug_assert (e_magic x =? EVENT_MAGIC);;
    (if negb (e_signaled x =? 0) && has_flag (e_flags x) EVENT_FLAG_AUTOUNSIGNAL
     then put_event e (mk_event (e_magic x) 0 (e_flags x)) else mret ());;
    mret (negb (e_signaled x =? 0)));
  if signaled : bool then KRet NO_ERROR else wait_queue_block (WqEvent e) timeout.

Definition event_set_signaled (e : nat) (v : Z) : M unit :=
  x ← get_event e; put_event e (mk_event (e_magic x) v (e_flags x)).

Definition event_signal (e : nat) (reschedule : bool) : K Z :=
  x ← op (x ← get_event e; debug_assert (e_magic x =? EVENT_MAGIC);; mret x);
  if negb (e_signaled x =? 0) then KRet 0
  else if has_flag (e_flags x) EVENT_FLAG_AUTOUNSIGNAL then
    ret ← wait_queue_wake_one (WqEvent e) reschedule NO_ERROR;
    (if ret <=? 0 then op (event_set_signaled e 1) else KRet ());;
    KRet ret
  else
    op (event_set_signaled e 1);;
    wait_queue_wake_all (WqEvent e) reschedule NO_ERROR.

Definition event_unsignal (e : nat) : M Z :=
  x ← get_event e;
  debug_assert (e_magic x =? EVENT_MAGIC);;
  event_set_signaled e 0;;
  mret NO_ERROR.

(** * Access to the objects *)

Lemma wp_get_mutex c m x s (Q : mutex → kstate → Prop) :
  mutexes s !! m = Some x → Q x s → wp c (get_mutex m) Q s.
Proof. intros H. unfold wp, get_mutex. by rewrite H. Qed.

Lemma wp_get_sem c n x s (Q : semaphore → kstate → Prop) :
  semaphores s !! n = Some x → Q x s → wp c (get_sem n) Q s.
Proof. intros H. unfold wp, get_sem. by rewrite H. Qed.

Lemma wp_get_event c e x s (Q : event → kstate → Prop) :
  events s !! e = Some x → Q x s → wp c (get_event e) Q s.
Proof. intros H. unfold wp, get_event. by rewrite H. Qed.

(** Changes confined to the objects. *)
Record objs_only (s s' : kstate) : Prop := {
  oo_state : ∃ ms ss es, s' = set_mutexes ms (set_semaphores ss (set_events es s));
  oo_kept : objs_kept s s';
}.

Lemma objs_only_put_mutex m x s : objs_only s (set_mutexes (<[m := x]> (mutexes s)) s).
Proof.
  split; [exists (<[m := x]> (mutexes s)), (semaphores s), (events s); by destruct s|]. split; try done.
  intros m'. simpl. destruct (decide (m' = m)) as [->|]; [by rewrite lookup_insert_eq|by rewrite lookup_insert_ne].
Qed.

Lemma objs_only_put_sem n x s : objs_only s (set_semaphores (<[n := x]> (semaphores s)) s).
Proof.
  split; [exists (mutexes s), (<[n := x]> (semaphores s)), (events s); by destruct s|]. split; try done.
  intros m'. simpl. destruct (decide (m' = n)) as [->|]; [by rewrite lookup_insert_eq|by rewrite lookup_insert_ne].
Qed.

Lemma objs_only_put_event e x s : objs_only s (set_events (<[e := x]> (events s)) s).
Proof.
  split; [exists (mutexes s), (semaphores s), (<[e := x]> (events s)); by destruct s|]. split; try done.
  intros m'. simpl. destruct (decide (m' = e)) as [->|]; [by rewrite lookup_insert_eq|by rewrite lookup_insert_ne].
Qed.
#[export] Hint Resolve objs_only_put_mutex objs_only_put_sem objs_only_put_event : lk.

(** Such a change disturbs no thread. *)
Lemma objs_only_rely v s s' : objs_only s s' → rely v s s'.
Proof. intros [(ms & ss & es & ->) []]. split; simpl; eauto. Qed.

Lemma objs_only_callable t c s s' : objs_only s s' → callable t c s → callable t c s'.
Proof.
  intros Ho Hcl. eapply callable_rely; [done| | |by apply objs_only_rely].
  - destruct Ho as [(ms & ss & es & ->) _]. apply (kinv_ext s); [apply Hcl|done..].
  - destruct Ho as [(ms & ss & es & ->) _]. apply Hcl.
Qed.

Lemma objs_only_guar t s0 s s' : objs_only s s' → guar t s0 s → guar t s0 s'.
Proof. intros Ho Hg. eapply guar_trans; [done|]. intros v _. by apply objs_only_rely. Qed.

Lemma objs_only_wq s s' w : objs_only s s' → wq_ok s w → wq_ok s' w.
Proof. by intros [(ms & ss & es & ->) _]. Qed.

Lemma objs_only_idle s s' t : objs_only s s' → not_idle s t → not_idle s' t.
Proof. by intros [(ms & ss & es & ->) _]. Qed.

(** An object whose state has been updated, as seen by the rest of the
    operation. *)
Lemma post_ok_objs {A} t s s' (Q : A → nat → kstate → kstate → Prop) a :
  objs_kept s s' → post_ok t s Q a → post_ok t s' Q a.
Proof. intros Ho HQ c' s0' s2 Hcl Hg Ho2. apply HQ; [done..|]. by eapply objs_kept_trans. Qed.

Lemma post_ok_here {A} t c s0 s s' (Q : A → nat → kstate → kstate → Prop) a :
  callable t c s → guar t s0 s → objs_only s s' → post_ok t s Q a → Q a c s0 s'.
Proof.
  intros Hcl Hg Ho HQ. apply HQ; [by eapply objs_only_callable|by eapply objs_only_guar|apply Ho].
Qed.

(** * Mutexes are safe to use *)

Definition mutex_ok (s : kstate) (m : nat) : Prop :=
  ∃ x, mutexes s !! m = Some x ∧ m_magic x = MUTEX_MAGIC ∧ wq_ok s (WqMutex m).

Definition holds (s : kstate) (m : nat) (t : tid) : Prop :=
  ∃ x, mutexes s !! m = Some x ∧ m_holder x = Some t.

Lemma safe_mutex_acquire t c m timeout s0 s Q :
  callable t c s → not_idle s t → mutex_ok s m → ¬ holds s m t → timeout_ok timeout → guar t s0 s →
  (∀ r, post_ok t s Q r) → safe t (mutex_acquire_timeout m timeout) Q c s0 s.
Proof.
  intros Hcl Hni (x & Hx & Hmg & Hw) Hh Hto Hg HQ. unfold mutex_acquire_timeout. apply safe_bind, safe_op.
  wp_step. eapply wp_get_mutex; [done|]. wp_step. wp_step; [by rewrite Hmg|].
  wp_step. eapply wp_get_current_thread; [apply Hcl|]. rewrite decide_False by (intros ?; apply Hh; by exists x).
  wp_step. wp_step. wp_step. apply wp_modify. wp_step.
  set (s1 := set_mutexes _ s). assert (objs_only s s1) as Ho by apply objs_only_put_mutex.
  assert (∀ r c' s0' s', callable t c' s' → guar t s0' s' → objs_kept s s' → is_Some (mutexes s' !! m) →
    safe t (if r <? NO_ERROR then
      (if r =? ERR_TIMED_OUT
       then op (x ← get_mutex m; put_mutex m (mk_mutex (m_magic x) (m_count x - 1) (m_holder x)))
       else KRet ());; KRet r
      else op (x ← get_mutex m; current_thread ← get_current_thread;
        put_mutex m (mk_mutex (m_magic x) (m_count x) (Some current_thread)));; KRet r) Q c' s0' s') as Hrest.
  { intros r c' s0' s' Hcl' Hg' Ho' [y Hy].
    pose proof (post_ok_objs _ _ _ _ _ Ho' (HQ r)) as HQ'.
    destruct (r <? NO_ERROR); [destruct (r =? ERR_TIMED_OUT)|].
    - apply safe_bind, safe_op. wp_step. eapply wp_get_mutex; [done|]. apply wp_modify.
      eapply post_ok_here; eauto with lk.
    - by apply HQ.
    - apply safe_bind, safe_op. wp_step. eapply wp_get_mutex; [done|].
      wp_step. eapply wp_get_current_thread; [apply Hcl'|]. apply wp_modify.
      eapply post_ok_here; eauto with lk. }
  apply safe_bind. destruct (1 <? _).
  - apply safe_wait_queue_block; [by eapply objs_only_callable|by eapply objs_only_idle|
      by eapply objs_only_wq|done|by eapply objs_only_guar|].
    intros r c' s0' s' Hcl' Hg' Ho'.
    assert (objs_kept s s') as Ho2 by (eapply objs_kept_trans; [apply Ho|done]).
    apply Hrest; [done..|]. apply (ok_mutexes _ _ Ho2). eauto.
  - apply Hrest; [by eapply objs_only_callable|by eapply objs_only_guar|apply Ho|]. apply Ho. eauto.
Qed.

Lemma safe_mutex_release t c m s0 s Q :
  callable t c s → not_idle s t → mutex_ok s m → holds s m t → guar t s0 s →
  post_ok t s Q NO_ERROR → safe t (mutex_release m) Q c s0 s.
Proof.
  intros Hcl Hni (x & Hx & Hmg & Hw) (x' & ? & Hh) Hg HQ. simplify_eq. unfold mutex_release. apply safe_bind, safe_op.
  wp_step. eapply wp_get_mutex; [done|]. wp_step. wp_step; [by rewrite Hmg|].
  wp_step. eapply wp_get_current_thread; [apply Hcl|]. rewrite decide_True by done.
  wp_step. wp_step. wp_step. apply wp_modify. wp_step.
  set (s1 := set_mutexes _ s). assert (objs_only s s1) as Ho by apply objs_only_put_mutex.
  apply safe_bind. destruct (1 <=? _).
  - apply safe_bind, safe_wake_one; [by eapply objs_only_callable|by eapply objs_only_wq|
      intros _; by eapply objs_only_idle|by eapply objs_only_guar|].
    intros r. eapply post_ok_objs; [apply Ho|done].
  - by eapply (post_ok_here t c s0 s).
Qed.

(** * Semaphores are safe to use *)

Definition sem_ok (s : kstate) (n : nat) : Prop := is_Some (semaphores s !! n) ∧ wq_ok s (WqSem n).

Lemma wp_sem_add c n d s (Q : Z → kstate → Prop) :
  is_Some (semaphores s !! n) → (∀ r s', objs_only s s' → Q r s') → wp c (sem_add n d) Q s.
Proof.
  intros [x Hx] HQ. unfold sem_add. wp_step. eapply wp_get_sem; [done|]. cbv zeta. wp_step. apply wp_modify.
  wp_step. apply HQ. auto with lk.
Qed.

Lemma safe_sem_post t c n rsc s0 s Q :
  callable t c s → not_idle s t → sem_ok s n → guar t s0 s →
  (∀ r, post_ok t s Q r) → safe t (sem_post n rsc) Q c s0 s.
Proof.
  intros Hcl Hni [Hx Hw] Hg HQ. unfold sem_post. apply safe_bind, safe_op.
  apply wp_sem_add; [done|]. intros r s1 Ho. case_match.
  - apply safe_wake_one; [by eapply objs_only_callable|by eapply objs_only_wq|
      intros _; by eapply objs_only_idle|by eapply objs_only_guar|].
    intros r'. eapply post_ok_objs; [apply Ho|done].
  - eapply (post_ok_here t c s0 s); [done..|apply HQ].
Qed.

Lemma safe_sem_timedwait t c n timeout s0 s Q :
  callable t c s → not_idle s t → sem_ok s n → timeout_ok timeout → guar t s0 s →
  (∀ r, post_ok t s Q r) → safe t (sem_timedwait n timeout) Q c s0 s.
Proof.
  intros Hcl Hni [Hx Hw] Hto Hg HQ. unfold sem_timedwait. apply safe_bind, safe_op.
  apply wp_sem_add; [done|]. intros r s1 Ho. case_match; [|eapply (post_ok_here t c s0 s); [done..|apply HQ]].
  apply safe_bind, safe_wait_queue_block; [by eapply objs_only_callable|by eapply objs_only_idle|
    by eapply objs_only_wq|done|by eapply objs_only_guar|].
  intros r' c' s0' s' Hcl' Hg' Ho'.
  assert (objs_kept s s') as Ho2 by (eapply objs_kept_trans; [apply Ho|done]).
  apply safe_bind. case_match; [|by apply HQ].
  apply safe_bind, safe_op, wp_sem_add; [by apply (ok_semaphores _ _ Ho2)|]. intros r2 s2 Ho3.
  eapply (post_ok_here t c' s0' s'); [done..|]. by eapply post_ok_objs, HQ.
Qed.

Lemma safe_sem_wait t c n s0 s Q :
  callable t c s → not_idle s t → sem_ok s n → guar t s0 s →
  (∀ r, post_ok t s Q r) → safe t (sem_wait n) Q c s0 s.
Proof.
  intros Hcl Hni [Hx Hw] Hg HQ. unfold sem_wait. apply safe_bind, safe_op.
  apply wp_sem_add; [done|]. intros r s1 Ho. case_match; [|eapply (post_ok_here t c s0 s); [done..|apply HQ]].
  apply safe_wait_queue_block; [by eapply objs_only_callable|by eapply objs_only_idle|
    by eapply objs_only_wq|by left|by eapply objs_only_guar|].
  intros r'. eapply post_ok_objs; [apply Ho|done].
Qed.

Lemma safe_sem_trywait t c n s0 s Q :
  callable t c s → sem_ok s n → guar t s0 s →
  (∀ r, post_ok t s Q r) → safe t (sem_trywait n) Q c s0 s.
Proof.
  intros Hcl [[x Hx] Hw] Hg HQ. unfold sem_trywait. apply safe_op. wp_step. eapply wp_get_sem; [done|].
  case_match; [wp_step; apply HQ; auto with lk|]. wp_step. apply wp_sem_add; [eauto|]. intros r s1 Ho. wp_step.
  eapply (post_ok_here t c s0 s); [done..|apply HQ].
Qed.

(** * Events are safe to use *)

Definition event_ok (s : kstate) (e : nat) : Prop :=
  ∃ x, events s !! e = Some x ∧ e_magic x = EVENT_MAGIC ∧ wq_ok s (WqEvent e).

Lemma wp_event_set_signaled c e v s (Q : unit → kstate → Prop) :
  is_Some (events s !! e) → (∀ s', objs_only s s' → Q () s') → wp c (event_set_signaled e v) Q s.
Proof.
  intros [x Hx] HQ. unfold event_set_signaled. wp_step. eapply wp_get_event; [done|]. apply wp_modify.
  apply HQ. auto with lk.
Qed.

Lemma safe_event_wait t c e timeout s0 s Q :
  callable t c s → not_idle s t → event_ok s e → timeout_ok timeout → guar t s0 s →
  (∀ r, post_ok t s Q r) → safe t (event_wait_timeout e timeout) Q c s0 s.
Proof.
  intros Hcl Hni (x & Hx & Hm & Hw) Hto Hg HQ. unfold event_wait_timeout. apply safe_bind, safe_op.
  wp_step. eapply wp_get_event; [done|]. wp_step. wp_step; [by rewrite Hm|]. wp_step.
  destruct (e_signaled x =? 0) eqn:Es; cbn [negb andb].
  - wp_step. wp_step. apply safe_wait_queue_block; [done..|]. intros r c' s0' s' ? ? ?. by apply HQ.
  - case_match; [apply wp_modify|]; wp_step; [|wp_step]; eapply (post_ok_here t c s0 s); eauto with lk.
    split; [|auto with lk]. exists (mutexes s), (semaphores s), (events s). by destruct s.
Qed.

Lemma safe_event_signal t c e (r : bool) s0 s Q :
  callable t c s → not_idle s t → event_ok s e → guar t s0 s →
  (∀ ret, post_ok t s Q ret) → safe t (event_signal e r) Q c s0 s.
Proof.
  intros Hcl Hni (x & Hx & Hm & Hw) Hg HQ. unfold event_signal. apply safe_bind, safe_op.
  wp_step. eapply wp_get_event; [done|]. wp_step. wp_step; [by rewrite Hm|]. wp_step.
  destruct (negb _); [apply HQ; auto with lk|]. case_match.
  - apply safe_bind, safe_wake_one; [done..|]. intros ret c' s0' s' Hcl' Hg' Ho'. apply safe_bind.
    case_match; [|by apply HQ]. apply safe_op, wp_event_set_signaled; [apply (ok_events _ _ Ho'); eauto|].
    intros s2 Ho2. eapply (post_ok_here t c' s0' s'); [done..|]. by eapply post_ok_objs, HQ.
  - apply safe_bind, safe_op, wp_event_set_signaled; [eauto|]. intros s1 Ho.
    apply safe_wake_all; [by eapply objs_only_callable|by eapply objs_only_wq|
      intros _; by eapply objs_only_idle|by eapply objs_only_guar|].
    intros r'. eapply post_ok_objs; [apply Ho|done].
Qed.

Lemma safe_event_unsignal t c e s0 s Q :
  callable t c s → event_ok s e → guar t s0 s →
  post_ok t s Q NO_ERROR → safe t (op (event_unsignal e)) Q c s0 s.
Proof.
  intros Hcl (x & Hx & Hm & _) Hg HQ. apply safe_op. unfold event_unsignal.
  wp_step. eapply wp_get_event; [done|]. wp_step. wp_step; [by rewrite Hm|]. wp_step.
  apply wp_event_set_signaled; [eauto|]. intros s' Ho. wp_step. eapply (post_ok_here t c s0 s); [done..|apply HQ].
Qed.
