(* ===== verification/Create.v ===== *)
(** Creating threads and synchronisation objects, and starting the kernel: the
    invariant of the kernel holds when the first thread has become the idle
    thread of the boot cpu, and creation preserves it. *)
From stdpp Require Import prelude gmap strings.
From S2P Require Import Prelude Pow2 IntrusiveList KState Mp Timer Thread ThreadInv ThreadSafety.
From S2P Require Import ThreadApi Sync.

#[local] Open Scope Z_scope.

(** * New wait queues *)

Lemma members_init_list (p : Pool.pool qid tid) q q' :
  Pool.members p q = [] → Pool.members (Pool.init_list q p) q' = Pool.members p q'.
Proof.
  intros Hq. unfold Pool.init_list. rewrite Pool.members_insert. case_decide; [by subst|done].
Qed.

Lemma qinv_init_wait (E : gset tid) ths qs bm wqs w :
  qinvF E ths qs bm wqs → Pool.members qs (WaitQ w) = [] →
  qinvF E ths (Pool.init_list (WaitQ w) qs) bm (<[w := mk_wait_queue WAIT_QUEUE_MAGIC 0]> wqs).
Proof.
  intros [] Hm. split; try setoid_rewrite members_init_list; try done.
  - by apply Pool.wf_init_list.
  - intros p Hp. simpl. rewrite lookup_insert_ne by done. by apply qi_init.
  - intros w' wq. simpl. destruct (decide (w' = w)) as [->|].
    + rewrite !lookup_insert_eq, Hm. intros [= <-] _. by split.
    + rewrite !lookup_insert_ne by congruence. by apply qi_count.
  - intros w' t Hin. destruct (decide (w' = w)) as [->|]; [rewrite Hm in Hin; set_solver|].
    rewrite lookup_insert_ne by done. by eapply qi_live.
Qed.

(** The state after [wait_queue_init]. *)
Definition with_wait_queue (w : wqid) (s : kstate) : kstate :=
  set_wait_queues (<[w := mk_wait_queue WAIT_QUEUE_MAGIC 0]> (wait_queues s))
    (set_queues (Pool.init_list (WaitQ w) (queues s)) s).

Lemma wp_wait_queue_init c w s (Q : unit → kstate → Prop) :
  Pool.members (queues s) (WaitQ w) = [] → Q () (with_wait_queue w s) → wp c (wait_queue_init w) Q s.
Proof. intros Hm HQ. unfold wait_queue_init. wp_step. wp_step. rewrite Hm. do 3 wp_step. done. Qed.

Lemma kinv_with_wait_queue w s :
  kinv s → Pool.members (queues s) (WaitQ w) = [] → kinv (with_wait_queue w s).
Proof.
  intros [Hq Hc Ht] Hm. split; simpl; [by apply qinv_init_wait|done|].
  by eapply (tinv_ext s); [..|apply timer_view_refl|].
Qed.

Lemma wq_ok_with s w : wq_ok (with_wait_queue w s) w.
Proof. eexists. simpl. by rewrite lookup_insert_eq. Qed.

(** * New synchronisation objects *)

(** What the initialisation of an object whose wait queue is [w] does. *)
Record initialised (w : wqid) (s s' : kstate) : Prop := {
  in_kinv : kinv s';
  in_rely : ∀ v, rely v s s';
  in_wq : wq_ok s' w;
  in_current : current s' = current s;
  in_others : ∀ w', w' ≠ w → wait_queues s' !! w' = wait_queues s !! w';
}.

Lemma initialised_objs w s s' :
  kinv s → Pool.members (queues s) (WaitQ w) = [] → objs_only (with_wait_queue w s) s' → initialised w s s'.
Proof.
  intros Hk Hm Ho. pose proof (kinv_with_wait_queue _ _ Hk Hm) as Hk'.
  assert (∀ v, rely v s s') as Hr.
  { intros v. eapply rely_trans; [|by apply objs_only_rely]. by apply rely_same; eauto. }
  destruct Ho as [(ms & ss & es & ->) Ho]. split; try done.
  - by apply (kinv_ext (with_wait_queue w s)).
  - apply wq_ok_with.
  - intros w' Hw. simpl. by rewrite lookup_insert_ne.
Qed.

Lemma wp_mutex_init c m s (Q : unit → kstate → Prop) :
  kinv s → Pool.members (queues s) (WaitQ (WqMutex m)) = [] →
  (∀ s', initialised (WqMutex m) s s' → mutex_ok s' m → (∀ t, ¬ holds s' m t) → Q () s') →
  wp c (mutex_init m) Q s.
Proof.
  intros Hk Hm HQ. unfold mutex_init. wp_step. apply wp_wait_queue_init; [done|]. apply wp_modify.
  pose proof (initialised_objs _ _ _ Hk Hm
    (objs_only_put_mutex m (mk_mutex MUTEX_MAGIC 0 None) (with_wait_queue (WqMutex m) s))) as Hi.
  apply HQ; [done|..].
  - eexists. split; [simpl; by rewrite lookup_insert_eq|]. split; [done|apply Hi].
  - intros t (x & Hx & Hh). simpl in Hx. rewrite lookup_insert_eq in Hx. by simplify_eq.
Qed.

Lemma wp_sem_init c n count s (Q : unit → kstate → Prop) :
  kinv s → Pool.members (queues s) (WaitQ (WqSem n)) = [] →
  (∀ s', initialised (WqSem n) s s' → sem_ok s' n → Q () s') → wp c (sem_init n count) Q s.
Proof.
  intros Hk Hm HQ. unfold sem_init. wp_step. apply wp_wait_queue_init; [done|]. apply wp_modify.
  pose proof (initialised_objs _ _ _ Hk Hm
    (objs_only_put_sem n (mk_sem SEMAPHORE_MAGIC count) (with_wait_queue (WqSem n) s))) as Hi.
  apply HQ; [done|]. split; [simpl; by rewrite lookup_insert_eq|apply Hi].
Qed.

Lemma wp_event_init c e initial flags s (Q : unit → kstate → Prop) :
  kinv s → Pool.members (queues s) (WaitQ (WqEvent e)) = [] →
  (∀ s', initialised (WqEvent e) s s' → event_ok s' e → Q () s') → wp c (event_init e initial flags) Q s.
Proof.
  intros Hk Hm HQ. unfold event_init. wp_step. apply wp_wait_queue_init; [done|]. apply wp_modify.
  pose proof (initialised_objs _ _ _ Hk Hm (objs_only_put_event e
    (mk_event EVENT_MAGIC (if initial then 1 else 0) flags) (with_wait_queue (WqEvent e) s))) as Hi.
  apply HQ; [done|]. eexists. split; [simpl; by rewrite lookup_insert_eq|]. split; [done|apply Hi].
Qed.

(** * New threads *)

Lemma qinv_new_thread ths qs bm wqs t th :
  qinvF ∅ ths qs bm wqs → ths !! t = None → t_state th = THREAD_SUSPENDED → 0 ≤ t_priority th < 32 →
  qinvF ∅ (<[t := th]> ths) qs bm wqs.
Proof.
  intros Hq Ht Hs Hp. apply (qinv_include t th); [|by rewrite lookup_insert_eq|congruence|congruence].
  apply qinv_update; [|set_solver|done]. apply qinv_exclude; [done|].
  apply (Pool.in_list_false _ _ (qi_wf _ _ _ _ _ Hq)). intros [p|w] Hin.
  - apply (qi_run _ _ _ _ _ Hq) in Hin as (_ & _ & ? & ? & _). congruence.
  - apply (qi_wait _ _ _ _ _ Hq) in Hin as (_ & ? & ? & _). congruence.
Qed.

Lemma cinv_new_thread X ths cur t th :
  cinvF X ths cur → ths !! t = None → t_state th ≠ THREAD_RUNNING → cinvF X (<[t := th]> ths) cur.
Proof.
  intros [Hcur Hinj Hrun Hidle] Ht Hs. split; [|done|..].
  - intros c u Hu. destruct (Hcur _ _ Hu) as (uth & ? & ?). exists uth. rewrite lookup_insert_ne by congruence. done.
  - intros u uth [[<- <-]|[? ?]]%lookup_insert_Some Hr; [done|]. by eapply Hrun.
  - intros c Hc. destruct (Hidle c Hc) as (ith & ? & ?). exists ith. rewrite lookup_insert_ne by congruence. done.
Qed.

Lemma tinv_new_thread s s' t th :
  tinv s → cinv None s → threads s !! t = None → threads s' = <[t := th]> (threads s) →
  timers s' = timers s → timer_queue s' = timer_queue s → current s' = current s → now s' = now s → tinv s'.
Proof.
  intros [Hw Hi Hp Htk Hst Hus] Hc Ht E1 E2 E3 E4 E5. split; rewrite ?E1, ?E2, ?E3, ?E4; try done.
  - by apply (tqinv_ext s).
  - intros c Hcc. destruct (Hi c Hcc) as [? (tm & ?)]. split; [done|]. exists tm. by rewrite E2.
  - intros c u uth Hu [[<- _]|[? ?]]%lookup_insert_Some Hl; [|by eapply Hp].
    destruct (ci_cur _ _ _ Hc _ _ Hu) as (? & ? & _). congruence.
  - intros u tm Hu Hl. destruct (Hst _ _ Hu Hl) as (? & ? & uth & ? & ?). split_and!; [done..|].
    exists uth. rewrite lookup_insert_ne by congruence. done.
Qed.

(** Memory for a thread that is not in use. *)
Record creatable (s : kstate) (t : tid) : Prop := {
  cr_thread : threads s !! t = None;
  cr_retcode : wait_queues s !! WqRetcode t = None;
  cr_list : is_Some (Pool.lists (thread_list s) !! ());
  cr_unlisted : Pool.in_list (thread_list s) t = false;
}.

(** A thread as [thread_create_etc] leaves it. *)
Record fresh_thread (name : string) (entry arg : nat) (priority : Z) (th : thread) : Prop := {
  fr_magic : t_magic th = THREAD_MAGIC;
  fr_state : t_state th = THREAD_SUSPENDED;
  fr_priority : t_priority th = priority;
  fr_pinned : t_pinned_cpu th = -1;
  fr_entry : t_entry th = entry ∧ t_arg th = arg;
  fr_queue : t_blocking_wait_queue th = None;
  fr_name : t_name th = thread_name name;
}.

Lemma retcode_empty s t :
  kinv s → creatable s t → Pool.members (queues s) (WaitQ (WqRetcode t)) = [].
Proof.
  intros Hk Hcr. destruct (Pool.members _ _) as [|u l] eqn:Em; [done|].
  destruct (qi_live _ _ _ _ _ (ki_q _ Hk) (WqRetcode t) u) as (wq & Hw & _); [rewrite Em; left|].
  rewrite (cr_retcode _ _ Hcr) in Hw. done.
Qed.

Lemma kinv_new_thread s s' t th :
  kinv s → creatable s t → t_state th = THREAD_SUSPENDED → 0 ≤ t_priority th < 32 →
  threads s' = <[t := th]> (threads s) → queues s' = Pool.init_list (WaitQ (WqRetcode t)) (queues s) →
  run_queue_bitmap s' = run_queue_bitmap s →
  wait_queues s' = <[WqRetcode t := mk_wait_queue WAIT_QUEUE_MAGIC 0]> (wait_queues s) →
  current s' = current s → timers s' = timers s → timer_queue s' = timer_queue s → now s' = now s →
  kinv s'.
Proof.
  intros Hk Hcr Hs Hp E1 E2 E3 E4 E5 E6 E7 E8. split.
  - rewrite E1, E2, E3, E4. apply qinv_init_wait.
    + apply qinv_new_thread; [apply Hk|apply Hcr|done|done].
    + by apply retcode_empty.
  - rewrite E1, E5. apply cinv_new_thread; [apply Hk|apply Hcr|congruence].
  - eapply (tinv_new_thread s _ t th); [apply Hk|apply Hk|apply Hcr|done..].
Qed.

Lemma creatable_unlinked s t : kinv s → creatable s t → Pool.in_list (queues s) t = false.
Proof.
  intros Hk Hcr. apply (Pool.in_list_false _ _ (qi_wf _ _ _ _ _ (ki_q _ Hk))). intros [p|w] Hin.
  - apply (qi_run _ _ _ _ _ (ki_q _ Hk)) in Hin as (_ & _ & ? & ? & _).
    rewrite (cr_thread _ _ Hcr) in *. done.
  - apply (qi_wait _ _ _ _ _ (ki_q _ Hk)) in Hin as (_ & ? & ? & _).
    rewrite (cr_thread _ _ Hcr) in *. done.
Qed.

Lemma wp_thread_create c t0 t name entry arg priority stk stack_size s (Q : option tid → kstate → Prop) :
  kinv s → current s !! c = Some t0 → creatable s t → 0 ≤ priority < 32 →
  (∀ s' th, kinv s' → (∀ v, rely v s s') → current s' = current s →
     threads s' = <[t := th]> (threads s) → fresh_thread name entry arg priority th →
     thread_is_idle th = false → wq_ok s' (WqRetcode t) → Q (Some t) s') →
  wp c (thread_create (Some t) name entry arg priority (Some stk) stack_size) Q s.
Proof.
  intros Hk Hc Hcr Hp HQ. destruct (kinv_current_thread _ _ _ Hk Hc) as [th0 Ht0].
  assert (t0 ≠ t) as Hne by (intros ->; rewrite (cr_thread _ _ Hcr) in Ht0; done).
  unfold thread_create, thread_create_etc. simpl. unfold init_thread_struct.
  wp_step. wp_step. wp_step. rewrite (creatable_unlinked _ _ Hk Hcr), (cr_unlisted _ _ Hcr). cbn [orb].
  do 3 wp_step.
  wp_step. eapply wp_mod_thread; [simpl; by rewrite lookup_insert_eq|]. simpl. rewrite insert_insert_eq.
  wp_step. eapply wp_mod_thread; [simpl; by rewrite lookup_insert_eq|]. simpl. rewrite insert_insert_eq.
  wp_step. apply wp_wait_queue_init; [exact (retcode_empty s t Hk Hcr)|].
  wp_step. eapply wp_mod_thread; [simpl; by rewrite lookup_insert_eq|]. simpl. rewrite insert_insert_eq.
  wp_step. eapply wp_mod_thread; [simpl; by rewrite lookup_insert_eq|]. simpl. rewrite insert_insert_eq.
  wp_step. eapply wp_get_current_thread; [done|].
  wp_step. eapply wp_get_thread; [simpl; by rewrite lookup_insert_ne|].
  wp_step. eapply wp_mod_thread; [simpl; by rewrite lookup_insert_eq|]. simpl. rewrite insert_insert_eq.
  wp_step. eapply wp_on_thread_list; [apply Pool.add_head_Ok; split_and!; [apply Hcr|apply Hcr|done]|].
  wp_step. set (th := with_tls _ _).
  apply (HQ _ th); try done.
  - eapply (kinv_new_thread s _ t th); try done. simpl. unfold with_wait_queue. simpl. by rewrite insert_insert_eq.
  - intros v. apply rely_same; try done. simpl. intros uth Hv Hd. exists uth.
    rewrite lookup_insert_ne; [done|]. intros <-. rewrite (cr_thread _ _ Hcr) in Hv. done.
  - exists (mk_wait_queue WAIT_QUEUE_MAGIC 0). simpl. by rewrite lookup_insert_eq.
Qed.

(** * Starting the kernel *)

(** The calls of [lk_main] that concern threads, on the boot cpu. *)
Definition boot_threads : M unit :=
  modify timer_init;; thread_init_early;; thread_init.

Definition boot : K unit :=
  op boot_threads;; thread_become_idle "idle 0".

Definition no_members {L N} `{Countable L, Countable N} (p : Pool.pool L N) : Prop :=
  Pool.owner p = ∅ ∧ ∀ q, Pool.members p q = [].

Lemma no_members_init {L N A} `{Countable L, Countable N} (p : Pool.pool L N) (f : A → L) l :
  no_members p → no_members (foldr (λ i, Pool.init_list (f i)) p l).
Proof.
  intros Hp. induction l as [|i l IH]; [done|]. simpl. destruct IH as [Ho Hm]. split; [done|].
  intros q. unfold Pool.init_list. rewrite Pool.members_insert. case_decide; [done|apply Hm].
Qed.

Lemma no_members_empty {L N} `{Countable L, Countable N} : no_members (Pool.empty_pool : Pool.pool L N).
Proof. split; [done|]. intros q. unfold Pool.members. simpl. by rewrite lookup_empty. Qed.

Lemma no_members_wf {L N} `{Countable L, Countable N} (p : Pool.pool L N) : no_members p → Pool.wf p.
Proof.
  intros [Ho Hm]. split; intros *; rewrite ?Ho, ?Hm, ?lookup_empty; [set_solver|constructor|done].
Qed.

Lemma no_members_unlinked {L N} `{Countable L, Countable N} (p : Pool.pool L N) n :
  no_members p → Pool.in_list p n = false.
Proof. intros [Ho _]. unfold Pool.in_list. by rewrite Ho, lookup_empty. Qed.

Lemma foldr_init_lists {L N A} `{Countable L, Countable N} (p : Pool.pool L N) (f : A → L) l i :
  i ∈ l → is_Some (Pool.lists (foldr (λ i, Pool.init_list (f i)) p l) !! f i).
Proof.
  induction l as [|j l IH]; [set_solver|]. simpl. intros Hi.
  destruct (decide (f j = f i)) as [->|]; [by rewrite lookup_insert_eq|].
  rewrite lookup_insert_ne by done. apply IH. apply elem_of_cons in Hi as [->|]; done.
Qed.

(** The boot cpu after [thread_become_idle]. *)
Lemma kinv_boot s th :
  threads s = {[ idle_thread 0 := th ]} → current s = {[ 0%nat := idle_thread 0 ]} →
  t_state th = THREAD_RUNNING → t_magic th = THREAD_MAGIC → thread_is_idle th = true →
  0 ≤ t_priority th < 32 → no_members (queues s) → no_members (timer_queue s) →
  (∀ p, 0 ≤ p < 32 → is_Some (Pool.lists (queues s) !! RunQ p)) → run_queue_bitmap s = 0 →
  is_Some (Pool.lists (timer_queue s) !! 0%nat) → timer_ok s (TmPreempt 0) →
  (∀ w wq, wait_queues s !! w = Some wq →
     is_Some (Pool.lists (queues s) !! WaitQ w) ∧ wq_count wq = 0) →
  kinv s.
Proof.
  intros Eth Ecur Hs Hm Hi Hp Hq Htq Hrun Hbm Hti Hpt Hwq.
  pose proof (proj2 Hq) as Hqm. pose proof (proj2 Htq) as Htm.
  pose proof (λ t, no_members_unlinked _ t Htq) as Hul. split.
  - rewrite Eth. split; [by apply no_members_wf|done|by rewrite Hbm|..].
    + intros p _. rewrite Hbm, Z.bits_0, Hqm. naive_solver.
    + intros p t. rewrite Hqm, elem_of_nil. done.
    + intros w t. rewrite Hqm, elem_of_nil. done.
    + intros t tth [<- <-]%lookup_singleton_Some. congruence.
    + intros t tth [<- <-]%lookup_singleton_Some. congruence.
    + intros w wq Hw _. rewrite Hqm. by apply Hwq.
    + intros w t. rewrite Hqm, elem_of_nil. done.
    + by intros t tth [<- <-]%lookup_singleton_Some.
  - rewrite Eth, Ecur. split.
    + intros c t [<- <-]%lookup_singleton_Some. exists th. by rewrite lookup_singleton_eq.
    + intros c c' t [<- <-]%lookup_singleton_Some [<- _]%lookup_singleton_Some. done.
    + intros t tth [<- <-]%lookup_singleton_Some _. left. exists 0%nat. by rewrite lookup_singleton_eq.
    + intros c [t [<- <-]%lookup_singleton_Some]. exists th. rewrite lookup_singleton_eq.
      split_and!; [done..|]. left. by rewrite lookup_singleton_eq.
  - split.
    + split; [by apply no_members_wf|intros q t; rewrite Htm, elem_of_nil; done|].
      intros q. rewrite Htm. constructor.
    + intros c. rewrite Ecur. intros [t [<- <-]%lookup_singleton_Some]. done.
    + intros c t tth _ _. by rewrite Hul.
    + intros c tm _. by rewrite Hul.
    + intros u tm _. by rewrite Hul.
    + intros n tm _. by rewrite Hul.
Qed.

Lemma wp_init_preempt_timers c l s (Q : unit → kstate → Prop) :
  (∀ s', timer_queue s' = timer_queue s → (∃ m, s' = set_timers m s) →
     (∀ cpu, cpu ∈ l → timer_ok s' (TmPreempt cpu)) →
     (∀ u, timer_ok s u → timer_ok s' u) → Q () s') →
  (∀ cpu, Pool.in_list (timer_queue s) (TmPreempt cpu) = false) →
  wp c (init_preempt_timers l) Q s.
Proof.
  revert s Q. induction l as [|cpu l IH]; intros s Q HQ Hul; cbn [init_preempt_timers].
  - wp_step. apply HQ; [done|exists (timers s); by destruct s|set_solver|done].
  - wp_step. apply wp_timer_initialize; [by apply Hul|].
    apply IH; [|done]. intros s' E (m & ->) Hok Hkeep. apply HQ; [done|eexists; reflexivity|..].
    + intros cpu' [->|?]%elem_of_cons; [|by apply Hok]. apply Hkeep. eexists. simpl.
      rewrite lookup_insert_eq. done.
    + intros u Hu. apply Hkeep. by apply timer_ok_put.
Qed.

Lemma wp_boot_threads (Q : unit → kstate → Prop) :
  (∀ s th, threads s = {[ idle_thread 0 := th ]} → current s = {[ 0%nat := idle_thread 0 ]} →
     t_state th = THREAD_RUNNING → t_magic th = THREAD_MAGIC →
     no_members (queues s) → no_members (timer_queue s) →
     (∀ p, 0 ≤ p < 32 → is_Some (Pool.lists (queues s) !! RunQ p)) → run_queue_bitmap s = 0 →
     is_Some (Pool.lists (timer_queue s) !! 0%nat) → timer_ok s (TmPreempt 0) →
     (∀ w wq, wait_queues s !! w = Some wq →
        is_Some (Pool.lists (queues s) !! WaitQ w) ∧ wq_count wq = 0) →
     is_Some (Pool.lists (thread_list s) !! ()) →
     Pool.members (thread_list s) () = [idle_thread 0] → Q () s) →
  wp 0 boot_threads Q kstate0.
Proof.
  intros HQ. unfold boot_threads. wp_step. apply wp_modify. unfold thread_init_early.
  wp_step. do 3 wp_step. wp_step; [done|]. wp_step. apply wp_modify. wp_step. apply wp_modify.
  set (qs := foldr _ _ _).
  assert (no_members qs) as Hqs
    by apply (no_members_init _ (λ i, RunQ (Z.of_nat i))), no_members_empty.
  assert (∀ p, 0 ≤ p < 32 → is_Some (Pool.lists qs !! RunQ p)) as Hrun.
  { intros p Hp. rewrite <- (Z2Nat.id p) by lia. apply (foldr_init_lists _ (λ i, RunQ (Z.of_nat i))).
    apply elem_of_seq. unfold NUM_PRIORITIES. lia. }
  clearbody qs.
  wp_step. unfold init_thread_struct. wp_step. wp_step. change (queues _) with qs.
  rewrite (no_members_unlinked _ _ Hqs), orb_false_l.
  change (Pool.in_list _ _) with false. cbv match. do 3 wp_step.
  wp_step. eapply wp_mod_thread; [simpl; by rewrite lookup_insert_eq|]. simpl.
  wp_step. apply wp_wait_queue_init; [apply Hqs|].
  wp_step. eapply wp_on_thread_list; [by apply Pool.add_head_Ok; split_and!; [eexists|..]|].
  wp_step. unfold thread_init. 
  assert (no_members (foldr Pool.init_list (Pool.empty_pool : Pool.pool nat timid) (seq 0 SMP_MAX_CPUS))) as Htq
    by apply (no_members_init _ id), no_members_empty.
  apply wp_init_preempt_timers; [|intros cpu; by apply no_members_unlinked].
  intros s' E (m & ->) Hok _. eapply HQ; simpl; try done.
  - split; [apply Hqs|]. intros q. rewrite members_init_list; apply Hqs.
  - intros p Hp. rewrite lookup_insert_ne by done. by apply Hrun.
  - apply Hok, elem_of_seq. unfold SMP_MAX_CPUS. lia.
  - intros w wq. rewrite insert_insert_eq. rewrite insert_empty. intros [<- <-]%lookup_singleton_Some. by rewrite lookup_insert_eq.
Qed.

(** [k] runs without a fault up to its end or its next break. *)
Definition run_to {A} (c : nat) (k : K A) (Q : A + K A → kstate → Prop) (s : kstate) : Prop :=
  match exec c k s with Ok (r, s') => Q r s' | Fault _ => False end.

Lemma run_to_op {A B} c (m : M A) (f : A → K B) Q s :
  wp c m (λ x s', run_to c (f x) Q s') s → run_to c (op m ≫= f) Q s.
Proof. unfold wp, run_to. simpl. by destruct (m c s) as [[]|]. Qed.

Lemma has_flag_lor f x : x ≠ 0 → has_flag (Z.lor f x) x = true.
Proof.
  intros Hx. unfold has_flag. assert (Z.land (Z.lor f x) x = x) as ->.
  { apply Z.bits_inj'. intros n _. rewrite Z.land_spec, Z.lor_spec.
    by destruct (Z.testbit f n), (Z.testbit x n). }
  by apply negb_true_iff, Z.eqb_neq.
Qed.

(** The boot sequence runs without a fault up to the point where interrupts are
    enabled; there the invariant holds, with the boot thread idle on cpu 0 and
    the cpu marked active. *)
Lemma boot_runs :
  run_to 0 boot (λ r s, r = inr thread_yield ∧ callable (idle_thread 0) 0 s ∧
    mp_is_cpu_active s 0 = true ∧ is_Some (Pool.lists (thread_list s) !! ()) ∧
    Pool.members (thread_list s) () = [idle_thread 0]) kstate0.
Proof.
  unfold boot. apply run_to_op, wp_boot_threads.
  intros s th Eth Ecur Hs Hm Hq Htq Hrun Hbm Hti Hpt Hwq Htl Htm.
  unfold thread_become_idle. apply run_to_op.
  wp_step. eapply wp_get_current_thread; [rewrite Ecur; by rewrite lookup_singleton_eq|].
  wp_step. wp_step. wp_step. unfold thread_set_name. wp_step.
  eapply wp_get_current_thread; [rewrite Ecur; by rewrite lookup_singleton_eq|].
  eapply wp_mod_thread; [rewrite Eth; by rewrite lookup_singleton_eq|].
  wp_step. eapply wp_mod_thread; [simpl; by rewrite lookup_insert_eq|]. simpl. rewrite insert_insert_eq.
  wp_step. unfold mp_set_curr_cpu_active. do 2 wp_step. apply wp_modify. apply wp_modify.
  unfold run_to. simpl. split; [done|]. split_and!; [|by apply has_flag_lor|done|done]. set (th' := with_pinned_cpu _ _).
  split; simpl.
  - apply (kinv_boot _ th'); simpl; try done.
    + rewrite Eth. by rewrite insert_singleton_eq.
    + by apply has_flag_lor.
  - rewrite Ecur. by rewrite lookup_singleton_eq.
  - by apply no_members_unlinked.
Qed.

(** Creating a thread in unused memory preserves the invariant; the new
    thread is suspended, carries the given priority, entry point, argument and
    name, is not the idle thread and can be joined. *)
Theorem thread_create_spec c t0 t name entry arg priority stk stack_size s :
  kinv s → current s !! c = Some t0 → creatable s t → 0 ≤ priority < 32 →
  wp c (thread_create (Some t) name entry arg priority (Some stk) stack_size) (λ r s',
    r = Some t ∧ kinv s' ∧ wq_ok s' (WqRetcode t) ∧
    ∃ th, threads s' = <[t := th]> (threads s) ∧ fresh_thread name entry arg priority th ∧
      thread_is_idle th = false) s.
Proof.
  intros Hk Hc Hcr Hp. eapply wp_thread_create; [done..|]. intros s' th ? ? ? ? ? ? ?. eauto 10.
Qed.
