(* ===== verification/PortKernel.v ===== *)
(** Ports on the wait queues of the kernel.

    [kernel_queues c] is the interface that ports use, implemented by the wait
    queues of the scheduler as cpu [c] calls it: each read port and each group has
    the queue [WqPort p].  Its laws hold in every state that has the invariant of
    the scheduler, so what is proved of ports holds of ports in the kernel, whatever
    the threads do between the calls. *)
From stdpp Require Import prelude gmap strings.
From S2P Require Import Prelude Pow2 IntrusiveList KState Mp Timer Thread ThreadInv ThreadSafety Create Port PortInv PortSafe PortCalls.

#[local] Open Scope Z_scope.

(** The end of [wait_queue_destroy]. *)
Definition wait_queue_retire (w : wqid) : M unit :=
  wq ← get_wait_queue w; put_wait_queue w (mk_wait_queue 0 (wq_count wq)).

Definition kernel_queues (c : nat) : WaitQueues kstate := {|
  wq_init q s := '(_, s') ← wait_queue_init (WqPort q) c s; Ok s';
  wq_wake_one q code s := wait_queue_wake_one_core (WqPort q) false code c s;
  wq_wake_all q code s := wait_queue_wake_all_core (WqPort q) false code c s;
  wq_retire q s := '(_, s') ← wait_queue_retire (WqPort q) c s; Ok s';
|}.

(** The scheduler is in order and the cpu runs a thread. *)
Definition kernel_ok (c : nat) (s : kstate) : Prop := kinv s ∧ is_Some (current s !! c).
Definition kernel_ready (s : kstate) (q : nat) : Prop := wq_ok s (WqPort q).
Definition kernel_waiters (s : kstate) (q : nat) : list nat := Pool.members (queues s) (WaitQ (WqPort q)).

Lemma qinv_retire (E : gset tid) ths qs bm wqs w n :
  qinvF E ths qs bm wqs → Pool.members qs (WaitQ w) = [] → qinvF E ths qs bm (<[w := mk_wait_queue 0 n]> wqs).
Proof.
  intros [] Hm. split; try done.
  - intros w' wq. destruct (decide (w' = w)) as [->|]; [|rewrite lookup_insert_ne by done; by apply qi_count].
    rewrite lookup_insert_eq. by intros [= <-] ?.
  - intros w' t Hin. destruct (decide (w' = w)) as [->|]; [rewrite Hm in Hin; set_solver|].
    rewrite lookup_insert_ne by done. by eapply qi_live.
Qed.

Lemma wp_wait_queue_retire c w s (Q : unit → kstate → Prop) :
  kinv s → wq_ok s w → Pool.members (queues s) (WaitQ w) = [] →
  (∀ s', kinv s' → current s' = current s → (∀ w', w' ≠ w → wq_ok s w' → wq_ok s' w') → Q () s') →
  wp c (wait_queue_retire w) Q s.
Proof.
  intros [Hq Hc Ht] (wq & Hw & _) Hm HQ. unfold wait_queue_retire. wp_step. eapply wp_get_wait_queue; [done|]. apply wp_modify. apply HQ.
  - split; simpl; [by apply qinv_retire|done|]. by eapply (tinv_ext s); [..|apply timer_view_refl|].
  - done.
  - intros w' Hne (wq' & ? & ?). exists wq'. simpl. by rewrite lookup_insert_ne.
Qed.

(** The wait queues of the kernel implement what ports rely on. *)
Lemma kernel_queues_laws c : @WaitQueueLaws kstate (kernel_queues c) (kernel_ok c) kernel_ready kernel_waiters.
Proof.
  split.
  - intros q s [Hk Hc] Hm. exists (with_wait_queue (WqPort q) s).
    pose proof (wp_wait_queue_init c (WqPort q) s (λ _ s', s' = with_wait_queue (WqPort q) s) Hm eq_refl) as H. unfold wp in H.
    simpl. destruct (wait_queue_init _ c s) as [[[] s']|]; [subst s'|done]. split_and!; try done.
    + split; [by apply kinv_with_wait_queue|done].
    + apply wq_ok_with.
    + intros q' (wq & Hw & Hm'). destruct (decide (q' = q)) as [->|]; [apply wq_ok_with|]. exists wq. simpl. by rewrite lookup_insert_ne by congruence.
  - intros q code s [Hk Hc] Hr. simpl.
    pose proof (wp_wake_one c (WqPort q) code s (λ ret s', kinv s' ∧ woke_one (WqPort q) code s ret s') Hk Hr Hc ltac:(by intros)) as H.
    unfold wp in H. destruct (wait_queue_wake_one_core _ _ _ c s) as [[ret s']|]; [|done]. destruct H as [Hk' Hwo]. exists s'.
    unfold kernel_waiters. destruct (Pool.members (queues s) (WaitQ (WqPort q))) as [|u l] eqn:Em.
    + destruct (wo_none _ _ _ _ _ Hwo Em) as [-> ->]. rewrite Em. by split_and!.
    + destruct (wo_some _ _ _ _ _ Hwo u l Em) as (-> & Hl & _). split_and!; [done|split; [done|by rewrite (wo_cur _ _ _ _ _ Hwo)]|done|].
      intros q'. apply (wo_wqs _ _ _ _ _ Hwo).
  - intros q code s [[Hq Hci Ht] Hc] Hr. simpl.
    pose proof (wp_wake_all None c (WqPort q) code s (λ ret s', ret = Z.of_nat (length (kernel_waiters s q)) ∧ kinv s' ∧ woke_all (WqPort q) code s s')
      Hq Hci Ht Hr Hc ltac:(by intros)) as H.
    unfold wp in H. destruct (wait_queue_wake_all_core _ _ _ c s) as [[ret s']|]; [|done]. destruct H as (-> & Hk' & Hwa). exists s'.
    split_and!; [done|split; [done|by rewrite (wa_cur _ _ _ _ Hwa)]|apply (wa_empty _ _ _ _ Hwa)|]. intros q'. apply (wa_wqs _ _ _ _ Hwa).
  - intros q s [Hk Hc] Hr Hm. simpl.
    pose proof (wp_wait_queue_retire c (WqPort q) s (λ _ s', kinv s' ∧ current s' = current s ∧ ∀ w', w' ≠ WqPort q → wq_ok s w' → wq_ok s' w')
      Hk Hr Hm ltac:(by intros)) as H.
    unfold wp in H. destruct (wait_queue_retire _ c s) as [[[] s']|]; [|done]. destruct H as (Hk' & Ec & Hw). exists s'.
    split_and!; [done|split; [done|by rewrite Ec]|]. intros q' Hne. apply Hw. congruence.
Qed.

(** * Calls of ports by the threads of the kernel *)

Abbreviation kpinv := (pinv kinv kernel_ready).

Lemma kpinv_cpu c C (s : ports kstate) : pinv (kernel_ok c) kernel_ready C s ↔ kpinv C s ∧ is_Some (current (wqs s) !! c).
Proof. split; [intros [[? ?] ? ?]; by split|]. intros [[? ? ?] ?]. by split. Qed.

(** The states after start-up and any number of calls, each by the thread that
    runs on some cpu.  Between the calls the kernel goes on by itself: threads
    block, time out and are switched, and the queues of ports are not destroyed. *)
Inductive kport_reach : gset nat → ports kstate → Prop :=
| kport_start w : kinv w → kport_reach ∅ (mk_ports ∅ [] w)
| kport_call c C s pc C' s' :
    kport_reach C s → is_Some (current (wqs s) !! c) → port_call_ok kernel_waiters C s pc →
    run_port_call (WQ := kernel_queues c) C pc s = Ok (C', s') → kport_reach C' s'
| kport_kernel C s w' :
    kport_reach C s → kinv w' → (∀ q, kernel_ready (wqs s) q → kernel_ready w' q) → kport_reach C (with_wqs w' s).

Lemma kport_call_ok c C s pc :
  kpinv C s → is_Some (current (wqs s) !! c) → port_call_ok kernel_waiters C s pc →
  ∃ C' s', run_port_call (WQ := kernel_queues c) C pc s = Ok (C', s') ∧ kpinv C' s'.
Proof.
  intros Hp Hc Hok. pose proof (run_port_call_ok (WQ := kernel_queues c) (kernel_ok c) kernel_ready kernel_waiters (LAWS := kernel_queues_laws c) C pc s (proj2 (kpinv_cpu c C s) (conj Hp Hc)) Hok) as H.
  unfold pwp in H. destruct (run_port_call _ _ _) as [[C' s']|]; [|done]. exists C', s'. split; [done|]. by apply (kpinv_cpu c).
Qed.

Lemma kpinv_start w : kinv w → kpinv ∅ (mk_ports ∅ [] w).
Proof.
  intros Hw. split; simpl; [done| |by intros p o; rewrite lookup_empty].
  split; try done; try (unfold writes, reads, groups; intros *; by rewrite lookup_empty); [constructor|].
  intros w'. split; [by intros ?%elem_of_nil|]. intros [wp Hwp]. unfold writes in Hwp. by rewrite lookup_empty in Hwp.
Qed.

