(* ===== verification/SyncSpec.v ===== *)
(** What the synchronisation primitives do, call by call, up to the point where
    the calling thread stops running. *)
From stdpp Require Import prelude gmap strings.
From S2P Require Import Prelude Pow2 IntrusiveList KState Mp Timer Thread ThreadInv ThreadSafety.
From S2P Require Import ThreadApi Sync Create.

#[local] Open Scope Z_scope.

(** * Runs *)

Lemma run_to_ret {A} c (a : A) (Q : A + K A → kstate → Prop) s : Q (inl a) s → run_to c (KRet a) Q s.
Proof. done. Qed.

Lemma run_to_last {A} c (m : M A) (Q : A + K A → kstate → Prop) s :
  wp c m (λ x s', Q (inl x) s') s → run_to c (op m) Q s.
Proof. unfold wp, run_to. simpl. by destruct (m c s) as [[]|]. Qed.

Lemma run_to_bind {A B} c (k : K A) (f : A → K B) (Q : B + K B → kstate → Prop) s :
  run_to c k (λ r s', match r with inl a => run_to c (f a) Q s' | inr k' => Q (inr (k' ≫= f)) s' end) s →
  run_to c (k ≫= f) Q s.
Proof.
  revert s. induction k as [a|X m g IH|k IH]; intros s; [done| |done].
  unfold run_to. simpl. destruct (m c s) as [[x s']|]; [|done]. apply IH.
Qed.

Lemma run_to_mono {A} c (k : K A) (Q Q' : A + K A → kstate → Prop) s :
  run_to c k Q s → (∀ r s', Q r s' → Q' r s') → run_to c k Q' s.
Proof. unfold run_to. destruct (exec c k s) as [[]|]; naive_solver. Qed.

Lemma run_to_resched c t s (Q : unit + K unit → kstate → Prop) :
  kresched c s → current s !! c = Some t → (∀ r b s', rescheduled c t s b s' → Q r s') →
  run_to c resched Q s.
Proof.
  intros Hk Hc HQ. unfold resched. apply run_to_op. eapply wp_thread_resched; [done..|].
  intros b s' Hr. destruct b; by eapply HQ.
Qed.

(** Waking one waiter, up to the point where the caller gives way. *)
Lemma run_to_wake_one c t w (rsc : bool) err s (Q : Z + K Z → kstate → Prop) :
  callable t c s → wq_ok s w → (rsc = true → not_idle s t) →
  (∀ r ret s2 s3, woke_one w err s ret s2 → qinv ∅ s2 → s3 = s2 ∨ sched_frame s2 s3 →
     (∀ a, r = inl a → a = ret) → Q r s3) →
  run_to c (wait_queue_wake_one w rsc err) Q s.
Proof.
  intros Hcl Hw Hni HQ. unfold wait_queue_wake_one. apply run_to_op. destruct rsc.
  - eapply wp_wake_one_resched; [apply Hcl|done|apply Hcl|by apply Hni|..].
    { intros Em. eapply run_to_ret, HQ; [|apply Hcl|by left|naive_solver].
      split; try done. by rewrite Em. }
    intros s2 Hk2 _ _ Hwo. apply run_to_bind.
    eapply run_to_resched; [done|rewrite (wo_cur _ _ _ _ _ Hwo); apply Hcl|].
    intros r b s3 [_ _ Hfr]. destruct r; [apply run_to_ret|]; eapply HQ; try done;
      [apply Hk2|by right|naive_solver|apply Hk2|by right].
  - eapply wp_wake_one; [apply Hcl|done|eexists; apply Hcl|]. intros ret s' Hk' _ Hwo.
    eapply run_to_ret, HQ; [done|apply Hk'|by left|naive_solver].
Qed.

(** The number of waiters after waking one. *)
Lemma woke_one_count w err s ret s2 s3 :
  qinv ∅ s → woke_one w err s ret s2 → qinv ∅ s2 → wq_ok s w → s3 = s2 ∨ sched_frame s2 s3 →
  ∃ wq wq', wait_queues s !! w = Some wq ∧ wait_queues s3 !! w = Some wq' ∧
    wq_magic wq' = WAIT_QUEUE_MAGIC ∧ wq_count wq' = Z.max 0 (wq_count wq - 1).
Proof.
  intros Hq Hwo Hq2 Hw H3. pose proof Hw as (wq & Hwq & Hmg).
  destruct (wo_wqs _ _ _ _ _ Hwo w Hw) as (wq' & Hwq' & Hmg').
  exists wq, wq'. split; [done|]. split; [destruct H3 as [->|Hf]; [done|by rewrite (sf_wait_queues _ _ Hf)]|].
  split; [done|]. rewrite (proj2 (qi_count _ _ _ _ _ Hq _ _ Hwq Hmg)).
  rewrite (proj2 (qi_count _ _ _ _ _ Hq2 _ _ Hwq' Hmg')).
  destruct (Pool.members (queues s) (WaitQ w)) as [|u l] eqn:Em.
  - destruct (wo_none _ _ _ _ _ Hwo Em) as [_ ->]. by rewrite Em.
  - destruct (wo_some _ _ _ _ _ Hwo u l Em) as (_ & -> & _). simpl. lia.
Qed.

(** Blocking for ever, up to the point where the caller gives way: it is the
    last of the waiters. *)
Lemma run_to_block c t w s (Q : Z + K Z → kstate → Prop) :
  callable t c s → not_idle s t → wq_ok s w →
  (∀ r wq wq' s', wait_queues s !! w = Some wq → wait_queues s' !! w = Some wq' →
     wq_magic wq' = WAIT_QUEUE_MAGIC → wq_count wq' = wq_count wq + 1 →
     mutexes s' = mutexes s → semaphores s' = semaphores s → events s' = events s → Q r s') →
  run_to c (wait_queue_block w INFINITE_TIME) Q s.
Proof.
  intros Hcl Hni Hw HQ. pose proof Hw as (wq & Hwq & Hmg).
  destruct (current_running _ _ _ (cl_kinv _ _ _ Hcl) (cl_cur _ _ _ Hcl)) as (th & Ht & Hs & _).
  unfold wait_queue_block. apply run_to_op. wp_step. eapply wp_get_current_thread; [apply Hcl|].
  wp_step. eapply wp_get_wait_queue; [done|]. wp_step. wp_step; [by rewrite Hmg|].
  wp_step. eapply wp_get_thread; [done|]. wp_step; [by rewrite Hs|]. change (INFINITE_TIME =? 0) with false.
  apply run_to_op. eapply wp_enqueue; [done|done|done|by left|]. intros s1 He.
  pose proof (eq_kresched _ _ _ _ _ _ He) as Hk1.
  destruct (qi_live _ _ _ _ _ (kr_q _ _ Hk1) w t) as (wq' & Hwq' & Hmg').
  { rewrite (eq_fifo _ _ _ _ _ _ He). set_solver. }
  assert (wq_count wq' = wq_count wq + 1) as Hcnt.
  { rewrite (proj2 (qi_count _ _ _ _ _ (kr_q _ _ Hk1) _ _ Hwq' Hmg')), (eq_fifo _ _ _ _ _ _ He), length_app.
    rewrite (proj2 (qi_count _ _ _ _ _ (ki_q _ (cl_kinv _ _ _ Hcl)) _ _ Hwq Hmg)). simpl. lia. }
  destruct (eq_objs _ _ _ _ _ _ He) as (E1 & E2 & E3). apply run_to_bind.
  eapply run_to_resched; [done|rewrite (eq_cur _ _ _ _ _ _ He); apply Hcl|]. intros r b s2 [Hk2 Hch Hfr].
  assert (∀ r', Q r' s2) as HQ'.
  { intros r'. apply (HQ r' wq wq'); try done; [by rewrite (sf_wait_queues _ _ Hfr)|..];
      [rewrite (sf_mutexes _ _ Hfr)|rewrite (sf_semaphores _ _ Hfr)|rewrite (sf_events _ _ Hfr)]; done. }
  destruct r; [|by apply HQ']. apply run_to_last. rewrite Z.eqb_refl. wp_step. wp_step. wp_step.
  destruct (kr_cur _ _ Hk1) as (t' & th1 & Hc1 & Ht1 & _). rewrite (eq_cur _ _ _ _ _ _ He), (cl_cur _ _ _ Hcl) in Hc1.
  simplify_eq. destruct (sf_ret _ _ Hfr _ _ Ht1) as (th2 & Ht2 & _).
  eapply wp_get_thread; [done|]. wp_step. apply HQ'.
Qed.

(** * Mutexes *)

(** C24: an uncontended mutex costs no context switch: acquiring it makes the
    caller the holder, and releasing it again restores the state exactly. *)
Theorem mutex_acquire_release_roundtrip c t m timeout s :
  current s !! c = Some t → mutexes s !! m = Some (mk_mutex MUTEX_MAGIC 0 None) →
  let s1 := set_mutexes (<[m := mk_mutex MUTEX_MAGIC 1 (Some t)]> (mutexes s)) s in
  exec c (mutex_acquire_timeout m timeout) s = Ok (inl NO_ERROR, s1) ∧
  exec c (mutex_release m) s1 = Ok (inl NO_ERROR, s).
Proof.
  intros Hc Hm s1. split.
  - unfold mutex_acquire_timeout, get_mutex, get_current_thread, mbind, K_mbind, M_bind. simpl.
    rewrite Hm. simpl. rewrite Hc. simpl. rewrite lookup_insert_eq. simpl. rewrite Hc. simpl.
    unfold s1. by rewrite insert_insert_eq.
  - unfold mutex_release, get_mutex, get_current_thread, mbind, K_mbind, M_bind. simpl.
    rewrite lookup_insert_eq. simpl. rewrite Hc. simpl. rewrite decide_True by done. simpl.
    rewrite insert_insert_eq. do 3 f_equal. destruct s. simpl in *. by rewrite insert_id.
Qed.

(** Releasing a contended mutex wakes the thread that has waited longest,
    with success; the mutex stays claimed for it (the count still includes it)
    and has no holder until it runs. *)
Theorem mutex_release_wakes_first c t m x u l s :
  callable t c s → not_idle s t → wq_ok s (WqMutex m) →
  mutexes s !! m = Some x → m_magic x = MUTEX_MAGIC → m_holder x = Some t → 2 ≤ m_count x →
  Pool.members (queues s) (WaitQ (WqMutex m)) = u :: l →
  run_to c (mutex_release m) (λ _ s',
    mutexes s' !! m = Some (mk_mutex MUTEX_MAGIC (m_count x - 1) None) ∧
    (∃ wq, wait_queues s' !! WqMutex m = Some wq ∧ wq_count wq = Z.of_nat (length l)) ∧
    ∃ th', threads s' !! u = Some th' ∧ t_wait_queue_block_ret th' = NO_ERROR) s.
Proof.
  intros Hcl Hni Hw Hx Hm Hh Hn Hq. unfold mutex_release. apply run_to_op.
  wp_step. eapply wp_get_mutex; [done|]. wp_step. wp_step; [by rewrite Hm|].
  wp_step. eapply wp_get_current_thread; [apply Hcl|]. rewrite decide_True by done.
  wp_step. wp_step. wp_step. apply wp_modify. wp_step.
  replace (1 <=? m_count x - 1) with true by (symmetry; apply Z.leb_le; lia).
  set (s1 := set_mutexes _ s). assert (objs_only s s1) as Ho by apply objs_only_put_mutex.
  pose proof (objs_only_callable _ _ _ _ Ho Hcl) as Hcl1.
  apply run_to_bind, run_to_bind. eapply run_to_wake_one; [done|done|done|].
  intros r ret s2 s3 Hwo Hq2 H3 _.
  destruct (wo_some _ _ _ _ _ Hwo u l Hq) as (_ & Hl & th & Hu & Hu2 & _).
  destruct (woke_one_count _ _ _ _ _ _ (ki_q _ (cl_kinv _ _ _ Hcl1)) Hwo Hq2 Hw H3)
    as (wq & wq' & Hwq & Hwq' & _ & Hcnt).
  destruct Hw as (wq0 & Hw0 & Hmg). assert (wq0 = wq) as -> by (simpl in Hwq; congruence).
  rewrite (proj2 (qi_count _ _ _ _ _ (ki_q _ (cl_kinv _ _ _ Hcl)) _ _ Hw0 Hmg)), Hq in Hcnt. simpl in Hcnt.
  assert (mutexes s3 !! m = Some (mk_mutex MUTEX_MAGIC (m_count x - 1) None)) as Hm3.
  { assert (mutexes s3 = mutexes s2) as -> by (destruct H3 as [->|Hf]; [done|apply Hf]).
    rewrite (proj1 (wo_objs _ _ _ _ _ Hwo)). simpl. by rewrite lookup_insert_eq, Hm. }
  assert (∃ th', threads s3 !! u = Some th' ∧ t_wait_queue_block_ret th' = NO_ERROR) as Hth3.
  { destruct H3 as [->|Hf]; [by exists (woken NO_ERROR th)|].
    destruct (sf_ret _ _ Hf _ _ Hu2) as (th' & ? & ? & _). by exists th'. }
  assert (wq_count wq' = Z.of_nat (length l)) by lia. destruct r; simpl; split_and!; eauto.
Qed.

(** * Semaphores *)

(** A negative count is the number of waiting threads; no thread waits while
    the count is not negative. *)
Definition sem_balanced (s : kstate) (n : nat) : Prop :=
  ∃ x wq, semaphores s !! n = Some x ∧ wait_queues s !! WqSem n = Some wq ∧
    wq_magic wq = WAIT_QUEUE_MAGIC ∧ wq_count wq = Z.max 0 (- sem_count x).

Definition sem_value (s : kstate) (n : nat) : option Z := sem_count <$> semaphores s !! n.

(** C25: posting a semaphore adds one to its count and keeps the count in
    balance with the waiting threads: if there is a waiter, exactly one, the
    first, is woken. *)
Theorem sem_post_balanced c t n rsc s v :
  callable t c s → not_idle s t → sem_balanced s n → sem_value s n = Some v → - 2 ^ 31 ≤ v + 1 < 2 ^ 31 →
  run_to c (sem_post n rsc) (λ _ s', sem_balanced s' n ∧ sem_value s' n = Some (v + 1)) s.
Proof.
  intros Hcl Hni (x & wq & Hx & Hwq & Hmg & Hcnt) Hv Hr. unfold sem_value in Hv. rewrite Hx in Hv.
  simplify_eq/=. unfold sem_post. apply run_to_op. unfold sem_add. wp_step. eapply wp_get_sem; [done|]. cbv zeta.
  rewrite s32_small by done. wp_step. apply wp_modify. wp_step.
  set (s1 := set_semaphores _ s). assert (objs_only s s1) as Ho by apply objs_only_put_sem.
  assert (wq_ok s1 (WqSem n)) as Hw1 by (by exists wq).
  destruct (Z.leb_spec (sem_count x + 1) 0) as [Hle|Hgt].
  - pose proof (objs_only_callable _ _ _ _ Ho Hcl) as Hcl1.
    eapply run_to_wake_one; [done|done|done|]. intros r ret s2 s3 Hwo Hq2 H3 _.
    destruct (woke_one_count _ _ _ _ _ _ (ki_q _ (cl_kinv _ _ _ Hcl1)) Hwo Hq2 Hw1 H3)
      as (wq0 & wq' & Hwq0 & Hwq' & Hmg' & Hcnt'). simpl in Hwq0. simplify_eq.
    assert (semaphores s3 !! n = Some (mk_sem (sem_magic x) (sem_count x + 1))) as Hx3.
    { assert (semaphores s3 = semaphores s2) as -> by (destruct H3 as [->|Hf]; [done|apply Hf]).
      rewrite (proj1 (proj2 (wo_objs _ _ _ _ _ Hwo))). simpl. by rewrite lookup_insert_eq. }
    unfold sem_value. rewrite Hx3. split; [|done]. exists (mk_sem (sem_magic x) (sem_count x + 1)), wq'.
    split_and!; [done..|]. simpl. lia.
  - apply run_to_ret. unfold sem_value. simpl. rewrite lookup_insert_eq. split; [|done].
    exists (mk_sem (sem_magic x) (sem_count x + 1)), wq. simpl. rewrite lookup_insert_eq. split_and!; [done..|]. lia.
Qed.

(** Waiting for a semaphore subtracts one from its count and keeps the
    balance: the caller returns at once when the count was positive, and joins
    the waiting threads otherwise. *)
Theorem sem_wait_balanced c t n s v :
  callable t c s → not_idle s t → sem_balanced s n → sem_value s n = Some v → - 2 ^ 31 ≤ v - 1 < 2 ^ 31 →
  run_to c (sem_wait n) (λ r s',
    sem_balanced s' n ∧ sem_value s' n = Some (v - 1) ∧ (0 < v → r = inl NO_ERROR)) s.
Proof.
  intros Hcl Hni (x & wq & Hx & Hwq & Hmg & Hcnt) Hv Hr. unfold sem_value in Hv. rewrite Hx in Hv.
  simplify_eq/=. unfold sem_wait. apply run_to_op. unfold sem_add. wp_step. eapply wp_get_sem; [done|]. cbv zeta.
  change (sem_count x + -1) with (sem_count x - 1). rewrite s32_small by done. wp_step. apply wp_modify. wp_step.
  set (s1 := set_semaphores _ s). assert (objs_only s s1) as Ho by apply objs_only_put_sem.
  assert (wq_ok s1 (WqSem n)) as Hw1 by (by exists wq).
  destruct (Z.ltb_spec (sem_count x - 1) 0) as [Hlt|Hge].
  - eapply run_to_block; [by eapply objs_only_callable|done|done|].
    intros r wq0 wq' s' Hwq0 Hwq' Hmg' Hcnt' _ Es _. simpl in Hwq0. simplify_eq.
    unfold sem_value. rewrite Es. simpl. rewrite lookup_insert_eq. split_and!; [|done|lia].
    exists (mk_sem (sem_magic x) (sem_count x - 1)), wq'. rewrite Es. simpl. rewrite lookup_insert_eq.
    split_and!; [done..|]. lia.
  - apply run_to_ret. unfold sem_value. simpl. rewrite lookup_insert_eq. split_and!; [|done|done].
    exists (mk_sem (sem_magic x) (sem_count x - 1)), wq. simpl. rewrite lookup_insert_eq. split_and!; [done..|]. lia.
Qed.

(** * Events *)

Definition event_with (v : Z) (x : event) : event := mk_event (e_magic x) v (e_flags x).

(** Signalling an event (without rescheduling).  A signaled event is left
    alone.  An auto-unsignal event wakes the first waiter and stays unsignaled,
    or becomes signaled when nobody waits.  Any other event becomes signaled and
    all its waiters are woken. *)
Theorem event_signal_spec c t e x s :
  callable t c s → wq_ok s (WqEvent e) → events s !! e = Some x → e_magic x = EVENT_MAGIC →
  let waiters := Pool.members (queues s) (WaitQ (WqEvent e)) in
  run_to c (event_signal e false) (λ r s',
    if negb (e_signaled x =? 0) then r = inl 0 ∧ s' = s
    else if has_flag (e_flags x) EVENT_FLAG_AUTOUNSIGNAL then
      if decide (waiters = []) then r = inl 0 ∧ s' = set_events (<[e := event_with 1 x]> (events s)) s
      else r = inl 1 ∧ woke_one (WqEvent e) NO_ERROR s 1 s' ∧ events s' !! e = Some x
    else r = inl (Z.of_nat (length waiters)) ∧ events s' !! e = Some (event_with 1 x) ∧
      woke_all (WqEvent e) NO_ERROR (set_events (<[e := event_with 1 x]> (events s)) s) s') s.
Proof.
  intros Hcl Hw Hx Hm waiters. unfold event_signal. apply run_to_op.
  wp_step. eapply wp_get_event; [done|]. wp_step. wp_step; [by rewrite Hm|]. wp_step.
  destruct (negb _); [by apply run_to_ret|]. destruct (has_flag _ _).
  - apply run_to_bind. unfold wait_queue_wake_one. apply run_to_op.
    eapply wp_wake_one; [apply Hcl|done|eexists; apply Hcl|]. intros ret s' _ _ Hwo. apply run_to_ret.
    destruct (decide (waiters = [])) as [E|E].
    + destruct (wo_none _ _ _ _ _ Hwo E) as [-> ->]. apply run_to_op. unfold event_set_signaled.
      wp_step. eapply wp_get_event; [done|]. apply wp_modify. by apply run_to_ret.
    + destruct waiters as [|u l] eqn:Ew; [done|].
      destruct (wo_some _ _ _ _ _ Hwo u l Ew) as (-> & _). apply run_to_ret. split_and!; [done..|].
      by rewrite (proj2 (proj2 (wo_objs _ _ _ _ _ Hwo))).
  - apply run_to_op. unfold event_set_signaled. wp_step. eapply wp_get_event; [done|]. apply wp_modify.
    set (s1 := set_events _ s). assert (objs_only s s1) as Ho by apply objs_only_put_event.
    pose proof (objs_only_callable _ _ _ _ Ho Hcl) as Hcl1. pose proof (cl_kinv _ _ _ Hcl1) as Hk1.
    unfold wait_queue_wake_all. apply run_to_op.
    eapply (wp_wake_all None); [apply Hk1..|done|eexists; apply Hcl1|]. intros s' _ _ _ Hwa.
    apply run_to_ret. split_and!; [done| |done].
    rewrite (proj2 (proj2 (wa_objs _ _ _ _ Hwa))). simpl. by rewrite lookup_insert_eq.
Qed.
