(* ===== verification/System.v ===== *)
(** The kernel as a whole: threads that call the kernel, timer interrupts,
    reschedule interrupts and passing time, on any number of cpus.  Started by
    the boot sequence, it never trips an assertion, panics or touches memory it
    should not, and its invariant always holds. *)
From stdpp Require Import prelude gmap strings sorting.
From S2P Require Import Prelude Pow2 IntrusiveList KState Mp Timer Thread ThreadInv ThreadSafety.
From S2P Require Import ThreadApi Sync Create.

#[local] Open Scope Z_scope.

(** * The calls a thread can make *)

Inductive api :=
| ThreadYield
| ThreadSleep (delay : Z)
| ThreadSetPriority (priority : Z)
| ThreadCreate (t : tid) (name : string) (entry arg : nat) (priority : Z) (stack : nat) (stack_size : Z)
| ThreadResume (t : tid) (ints_disabled : bool)
| ThreadExit (retcode : Z)
| MutexInit (m : nat)
| MutexAcquireTimeout (m : nat) (timeout : Z)
| MutexRelease (m : nat)
| SemInit (n : nat) (count : Z)
| SemPost (n : nat) (resched : bool)
| SemWait (n : nat)
| SemTrywait (n : nat)
| SemTimedwait (n : nat) (timeout : Z)
| EventInit (e : nat) (initial : bool) (flags : Z)
| EventWaitTimeout (e : nat) (timeout : Z)
| EventSignal (e : nat) (reschedule : bool)
| EventUnsignal (e : nat).

Definition void {A} (k : K A) : K unit := k;; KRet ().

Definition api_code (a : api) : K unit :=
  match a with
  | ThreadYield => thread_yield
  | ThreadSleep delay => thread_sleep delay
  | ThreadSetPriority priority => thread_set_priority priority
  | ThreadCreate t name entry arg priority stack stack_size =>
      void (op (thread_create (Some t) name entry arg priority (Some stack) stack_size))
  | ThreadResume t ints_disabled => void (thread_resume t ints_disabled)
  | ThreadExit retcode => thread_exit retcode
  | MutexInit m => op (mutex_init m)
  | MutexAcquireTimeout m timeout => void (mutex_acquire_timeout m timeout)
  | MutexRelease m => void (mutex_release m)
  | SemInit n count => op (sem_init n count)
  | SemPost n rsc => void (sem_post n rsc)
  | SemWait n => void (sem_wait n)
  | SemTrywait n => void (sem_trywait n)
  | SemTimedwait n timeout => void (sem_timedwait n timeout)
  | EventInit e initial flags => op (event_init e initial flags)
  | EventWaitTimeout e timeout => void (event_wait_timeout e timeout)
  | EventSignal e rsc => void (event_signal e rsc)
  | EventUnsignal e => void (op (event_unsignal e))
  end.

(** The contract of each call: what the kernel asserts of its caller. *)
Definition api_pre (s : kstate) (t : tid) (a : api) : Prop :=
  match a with
  | ThreadYield => True
  | ThreadSleep delay => not_idle s t ∧ 0 ≤ delay < HORIZON
  | ThreadSetPriority _ => not_idle s t
  | ThreadCreate u _ _ _ priority _ _ => creatable s u ∧ 0 ≤ priority < 32
  | ThreadResume u _ => resumable s u
  | ThreadExit _ => exitable s t
  | MutexInit m => Pool.members (queues s) (WaitQ (WqMutex m)) = []
  | MutexAcquireTimeout m timeout => not_idle s t ∧ mutex_ok s m ∧ ¬ holds s m t ∧ timeout_ok timeout
  | MutexRelease m => not_idle s t ∧ mutex_ok s m ∧ holds s m t
  | SemInit n _ => Pool.members (queues s) (WaitQ (WqSem n)) = []
  | SemPost n _ => not_idle s t ∧ sem_ok s n
  | SemWait n => not_idle s t ∧ sem_ok s n
  | SemTrywait n => sem_ok s n
  | SemTimedwait n timeout => not_idle s t ∧ sem_ok s n ∧ timeout_ok timeout
  | EventInit e _ _ => Pool.members (queues s) (WaitQ (WqEvent e)) = []
  | EventWaitTimeout e timeout => not_idle s t ∧ event_ok s e ∧ timeout_ok timeout
  | EventSignal e _ => not_idle s t ∧ event_ok s e
  | EventUnsignal e => event_ok s e
  end.

(** What holds when a call returns. *)
Definition call_done (t : tid) (_ : unit) (c : nat) (s0 s : kstate) : Prop :=
  callable t c s ∧ guar t s0 s.

Lemma post_ok_done t s : post_ok t s (call_done t) ().
Proof. intros c' s0' s' ? ? _. by split. Qed.

Lemma post_ok_void {A} t s (a : A) :
  post_ok t s (λ _ c s0 s, call_done t () c s0 s) a.
Proof. intros c' s0' s' ? ? _. by split. Qed.

Lemma safe_void {A} t (k : K A) c s0 s :
  safe t k (λ _ c s0 s, call_done t () c s0 s) c s0 s → safe t (void k) (call_done t) c s0 s.
Proof. intros H. by apply safe_bind. Qed.
#[export] Hint Resolve post_ok_done post_ok_void : lk.

Lemma initialised_done t c s w s' : callable t c s → initialised w s s' → call_done t () c s s'.
Proof.
  intros Hcl [Hk Hr _ Ec _]. split; [|intros v _; apply Hr].
  eapply callable_rely; [done|done|rewrite Ec; apply Hcl|apply Hr].
Qed.

Lemma api_safe t c a s :
  callable t c s → api_pre s t a → safe t (api_code a) (call_done t) c s s.
Proof.
  intros Hcl Hpre. pose proof (guar_refl t s) as Hg. pose proof Hcl as [Hk Hc Htm].
  destruct a; simpl in Hpre; cbn [api_code]; destruct_and?; 
    lazymatch goal with |- safe _ (void _) _ _ _ _ => apply safe_void | _ => idtac end.
  - apply safe_yield; [done..|]. eapply post_api; [done|apply post_ok_done].
  - apply safe_sleep; [done..|]. by split.
  - apply safe_set_priority; [done..|]. eapply post_api; [done|apply post_ok_done].
  - apply safe_op. eapply wp_thread_create; [done..|]. intros s' th Hk' Hr' Ec _ _ _ _. split.
    + eapply callable_rely; [done|done|by rewrite Ec|done].
    + intros v _. apply Hr'.
  - apply safe_resume; auto with lk.
  - by apply safe_exit.
  - apply safe_op, wp_mutex_init; [done..|]. intros. by eapply initialised_done.
  - apply safe_mutex_acquire; auto with lk.
  - apply safe_mutex_release; auto with lk.
  - apply safe_op, wp_sem_init; [done..|]. intros. by eapply initialised_done.
  - apply safe_sem_post; auto with lk.
  - apply safe_sem_wait; auto with lk.
  - apply safe_sem_trywait; auto with lk.
  - apply safe_sem_timedwait; auto with lk.
  - apply safe_op, wp_event_init; [done..|]. intros. by eapply initialised_done.
  - apply safe_event_wait; auto with lk.
  - apply safe_event_signal; auto with lk.
  - apply safe_event_unsignal; auto with lk.
Qed.

(** * Configurations and steps *)

(** The kernel state, and for every thread inside a kernel call what is left of
    that call. *)
Record config := mk_config { cf_state : kstate; cf_conts : gmap tid (K unit) }.

(** Thread [t] runs [k] on cpu [c] up to its next break. *)
Definition run (c : nat) (t : tid) (k : K unit) (cf : config) : res config :=
  '(r, s') ← exec c k (cf_state cf);
  Ok (mk_config s' (match r with
                    | inl _ => delete t (cf_conts cf)
                    | inr k' => <[t := k']> (cf_conts cf)
                    end)).

(** The end of an interrupt handler on cpu [c], which runs thread [t]. *)
Definition irq_exit (c : nat) (t : tid) (ret : handler_return) (cf : config) : res config :=
  match ret with
  | INT_NO_RESCHEDULE => Ok cf
  | INT_RESCHEDULE =>
      '(r, s') ← exec c thread_preempt (cf_state cf);
      Ok (mk_config s' (match r with
                        | inl _ => cf_conts cf
                        | inr k' => <[t := k';; default (KRet ()) (cf_conts cf !! t)]> (cf_conts cf)
                        end))
  end.

(** A handler that runs in the interrupt. *)
Definition irq (c : nat) (t : tid) (handler : M handler_return) (cf : config) : res config :=
  '(ret, s') ← handler c (cf_state cf);
  irq_exit c t ret (mk_config s' (cf_conts cf)).

Section system.
Context (other : nat → M handler_return).
Context (other_ok : ∀ n c s, wp c (other n) (λ _ s', s' = s) s).

(** Enough for every timer of the cpu to fire twice. *)
Definition tick_fuel (s : kstate) (c : nat) : nat :=
  S (2 * length (Pool.members (timer_queue s) c)).

(** Time passes, but not so far beyond a pending timer that the comparison of
    times wraps around. *)
Definition may_advance (d : Z) (s : kstate) : Prop :=
  0 ≤ d ∧ ∀ q t, t ∈ Pool.members (timer_queue s) q → - HORIZON ≤ due s t - d.

Inductive sys_step (cf : config) : res config → Prop :=
| step_call c t a :
    current (cf_state cf) !! c = Some t → cf_conts cf !! t = None → api_pre (cf_state cf) t a →
    sys_step cf (run c t (api_code a) cf)
| step_resume c t k :
    current (cf_state cf) !! c = Some t → cf_conts cf !! t = Some k → sys_step cf (run c t k cf)
| step_timer_irq c t :
    current (cf_state cf) !! c = Some t →
    sys_step cf (irq c t (timer_tick (kernel_call other) (tick_fuel (cf_state cf) c) (now (cf_state cf))) cf)
| step_reschedule_irq c t :
    current (cf_state cf) !! c = Some t → sys_step cf (irq c t mp_mbx_reschedule_irq cf)
| step_time d :
    may_advance d (cf_state cf) →
    sys_step cf (Ok (mk_config (set_now (u32 (now (cf_state cf) + d)) (cf_state cf)) (cf_conts cf))).

Definition steps_to (cf cf' : config) : Prop := sys_step cf (Ok cf').

(** A call that can be resumed in any state the thread tolerates. *)
Definition resumes (t : tid) (k : K unit) (s : kstate) : Prop :=
  ∀ c' s', kinv s' → rely t s s' → current s' !! c' = Some t → safe t k (call_done t) c' s' s'.

Record sys_ok (cf : config) : Prop := {
  so_kinv : kinv (cf_state cf);
  so_conts : ∀ t k, cf_conts cf !! t = Some k → resumes t k (cf_state cf);
  so_idle : ∀ t, cf_conts cf !! t = None → Pool.in_list (timer_queue (cf_state cf)) (TmStack t) = false;
}.

Lemma resumes_rely t k s s' : resumes t k s → rely t s s' → resumes t k s'.
Proof. intros H Hr c2 s2 Hk2 Hr2 Hc2. apply H; [done| |done]. by eapply rely_trans. Qed.

(** The state changed, and thread [t] has what is left to do in [o]. *)
Lemma sys_ok_update t o s s' cs cs' :
  sys_ok (mk_config s cs) → kinv s' → guar t s s' →
  (∀ u, u ≠ t → cs' !! u = cs !! u) →
  (match o with
   | Some k => resumes t k s'
   | None => Pool.in_list (timer_queue s') (TmStack t) = false end) → cs' !! t = o →
  sys_ok (mk_config s' cs').
Proof.
  intros [_ Hco Hid] Hk Hg Hcs Ho Et. split; [done|..]; simpl in *.
  - intros u k Hu. destruct (decide (u = t)) as [->|]; [by rewrite <- Et, Hu in Ho|].
    eapply resumes_rely; [|by apply Hg]. apply Hco. by rewrite <- Hcs.
  - intros u Hu. destruct (decide (u = t)) as [->|]; [by rewrite <- Et, Hu in Ho|].
    apply (rl_unlinked u s s' (Hg u ltac:(done))), Hid. by rewrite <- Hcs.
Qed.

(** One run of a safe call. *)
Lemma run_ok c t k cf :
  sys_ok cf → safe t k (call_done t) c (cf_state cf) (cf_state cf) →
  ∃ cf', run c t k cf = Ok cf' ∧ sys_ok cf'.
Proof.
  intros Hok Hs. apply safe_exec in Hs. unfold run. destruct cf as [s cs]; simpl in *.
  destruct (exec c k s) as [[[[]|k'] s']|]; simpl; [..|done]; eexists; (split; [done|]).
  - destruct Hs as [[Hk _ Htm] Hg]. eapply (sys_ok_update t None); [done|done|done| |done|].
    + intros u Hu. by rewrite lookup_delete_ne.
    + by rewrite lookup_delete_eq.
  - destruct Hs as (Hk & Hg & Hr). eapply (sys_ok_update t (Some k')); [done|done|done| |done|].
    + intros u Hu. by rewrite lookup_insert_ne.
    + by rewrite lookup_insert_eq.
Qed.

(** A change that no thread notices, such as an interrupt handler makes. *)
Lemma sys_ok_irq s s' cs :
  sys_ok (mk_config s cs) → kinv s' → (∀ v, rely v s s') → sys_ok (mk_config s' cs).
Proof.
  intros [_ Hco Hid] Hk Hr. split; [done|..]; simpl in *.
  - intros u k Hu. eapply resumes_rely; [by apply Hco|done].
  - intros u Hu. apply (rl_unlinked u s s' (Hr u)). by apply Hid.
Qed.

(** A run may have begun earlier. *)
Lemma safe_begin t (k : K unit) c s0 s1 s :
  safe t k (call_done t) c s1 s → guar t s0 s1 → safe t k (call_done t) c s0 s.
Proof.
  intros H Hg. revert s H. induction k as [a|X m g IH|k IH]; simpl; intros s.
  - intros [? ?]. split; [done|]. by eapply guar_trans.
  - intros H. eapply wp_mono; [done|]. intros x s' Hx. by apply IH.
  - intros (? & ? & ?). split_and!; [done| |done]. by eapply guar_trans.
Qed.

Lemma irq_exit_ok c t ret cf :
  sys_ok cf → current (cf_state cf) !! c = Some t → ∃ cf', irq_exit c t ret cf = Ok cf' ∧ sys_ok cf'.
Proof.
  intros Hok Hc. destruct ret; [by exists cf|]. destruct cf as [s cs].
  cbn [irq_exit cf_state cf_conts] in *.
  pose proof (safe_preempt t c s s (λ _ c' s0' s', kinv s' ∧ guar t s0' s' ∧ rely t s s' ∧
    current s' !! c' = Some t) (so_kinv _ Hok) Hc (guar_refl t s)) as Hs.
  assert (∀ k, cs !! t = Some k → resumes t k s) as Hres by apply Hok.
  assert (cs !! t = None → Pool.in_list (timer_queue s) (TmStack t) = false) as Hidle by apply Hok.
  specialize (Hs ltac:(by intros c' s0' s' ? ? ? ?; split_and!)). apply safe_exec in Hs.
  destruct (exec c thread_preempt s) as [[[[]|k'] s']|]; simpl; [..|done]; eexists; (split; [done|]).
  - destruct Hs as (Hk & Hg & Hr & _).
    eapply sys_ok_irq; [done|done|]. intros v. destruct (decide (v = t)) as [->|]; [done|by apply Hg].
  - destruct Hs as (Hk & Hg & Hs). eapply (sys_ok_update t (Some _)); [done|done|done| | |by rewrite lookup_insert_eq].
    { intros u Hu. by rewrite lookup_insert_ne. }
    intros c2 s2 Hk2 Hr2 Hc2. apply safe_bind. eapply safe_mono; [by apply Hs|]. simpl.
    intros _ c3 s03 s3 (Hk3 & Hg3 & Hr3 & Hc3). destruct (cs !! t) as [k|] eqn:Ek; simpl.
    + eapply safe_begin; [|done]. by apply (Hres k).
    + split; [|done]. split; [done..|]. by apply (rl_unlinked _ _ _ Hr3), Hidle.
Qed.

Lemma timer_irq_ok c t s cs :
  sys_ok (mk_config s cs) → current s !! c = Some t →
  wp c (timer_tick (kernel_call other) (tick_fuel s c) (now s)) (λ _ s',
    sys_ok (mk_config s' cs) ∧ current s' = current s) s.
Proof using other_ok.
  intros Hok Hc. pose proof (so_kinv _ Hok) as Hk.
  pose proof (kernel_handlers other other_ok c s ltac:(eauto)) as Hh.
  eapply wp_mono; [apply (wp_timer_tick _ c (tick_kinv s))|].
  - apply (ki_t _ Hk).
  - split; try done. intros. apply rely_refl.
  - unfold tick_fuel. lia.
  - intros r s' (_ & [Hk' Ec _ Hr] & _). split; [by eapply sys_ok_irq|done].
Qed.

Lemma due_advance s d t :
  0 ≤ d → - HORIZON ≤ due s t < HORIZON → - HORIZON ≤ due s t - d →
  timer_live s t → due (set_now (u32 (now s + d)) s) t = due s t - d.
Proof.
  intros Hd Hr Hr' (tm & Ht & _). rewrite !(due_eq _ _ tm) in * by done. simpl.
  set (x := tm_scheduled_time tm) in *. unfold HORIZON in *.
  pose proof (rel_congr (now s) x) as Hc. pose proof (rel_congr (u32 (now s + d)) x) as Hc'.
  unfold rel in *. rewrite <- (s32_small (s32 (u32 (x - now s)) - d)) by lia.
  apply s32_congr. unfold u32 in *. rewrite Zmod_mod.
  rewrite Zminus_mod_idemp_r. rewrite <- (Zminus_mod_idemp_l _ d), Hc, Zminus_mod_idemp_l. f_equal. lia.
Qed.

Lemma sorted_weaken {A} (R R' : A → A → Prop) l :
  (∀ x y, x ∈ l → y ∈ l → R x y → R' x y) → StronglySorted R l → StronglySorted R' l.
Proof.
  intros HR Hs. induction Hs as [|x l Hs IH Hx]; constructor; [apply IH; set_solver|].
  rewrite Forall_forall in *. intros y Hy. apply HR; [left|by right|by apply Hx].
Qed.

Lemma tqinv_advance s d : tqinv s → may_advance d s → tqinv (set_now (u32 (now s + d)) s).
Proof.
  intros [Hw Hl Hs] [Hd Hd'].
  assert (∀ q t, t ∈ Pool.members (timer_queue s) q →
    due (set_now (u32 (now s + d)) s) t = due s t - d ∧ - HORIZON ≤ due s t < HORIZON) as Hdue.
  { intros q t Ht. pose proof (Hl _ _ Ht) as (tm & Hlt & Hm & Hcb & Hp & Hr).
    rewrite <- (due_eq _ _ _ Hlt) in Hr. split; [|done].
    apply due_advance; [done|done|by eapply Hd'|exact (Hl _ _ Ht)]. }
  split; simpl; [done|..].
  - intros q t Ht. pose proof (Hl _ _ Ht) as (tm & Hlt & Hm & Hcb & Hp & _). exists tm. split_and!; try done;
      destruct (Hdue _ _ Ht) as [E Hr]; pose proof (Hd' _ _ Ht); rewrite (due_eq _ _ tm) in E by done; simpl in *; lia.
  - intros q. eapply sorted_weaken; [|apply Hs]. intros x y Hx Hy Hxy. cbn beta in *.
    rewrite (proj1 (Hdue _ _ Hx)), (proj1 (Hdue _ _ Hy)). lia.
Qed.

Lemma kinv_advance s d : kinv s → may_advance d s → kinv (set_now (u32 (now s + d)) s).
Proof.
  intros [Hq Hc [Hw Hi Hp Htk Hst Hus]] Hd. split; simpl; [done..|]. split; simpl; try done.
  by apply tqinv_advance.
Qed.

Lemma sys_step_ok cf r : sys_ok cf → sys_step cf r → ∃ cf', r = Ok cf' ∧ sys_ok cf'.
Proof using other_ok.
  intros Hok Hstep. destruct Hstep as [c t a Hc Hn Hpre|c t k Hc Hk|c t Hc|c t Hc|d Hd].
  - apply run_ok; [done|]. apply api_safe; [|done]. split; [apply Hok|done|by apply Hok].
  - apply run_ok; [done|]. apply (so_conts _ Hok t k Hk); [apply Hok|apply rely_refl|done].
  - destruct cf as [s cs]. simpl in *. pose proof (timer_irq_ok _ _ _ _ Hok Hc) as Hw.
    unfold irq. simpl. unfold wp in Hw. destruct (timer_tick _ _ _ c s) as [[ret s']|]; [|done]. simpl.
    apply irq_exit_ok; [apply Hw|]. simpl. by rewrite (proj2 Hw).
  - unfold irq. simpl. apply irq_exit_ok; [|done]. by destruct cf.
  - eexists. split; [done|]. destruct cf as [s cs]. simpl in *. eapply sys_ok_irq; [done|..].
    + apply kinv_advance; [apply Hok|done].
    + intros v. by apply rely_same; eauto.
Qed.

Lemma sys_reachable_ok cf cf' : sys_ok cf → rtc steps_to cf cf' → sys_ok cf'.
Proof using other_ok.
  intros Hok Hr. induction Hr as [|cf cf1 cf2 Hstep _ IH]; [done|]. apply IH.
  destruct (sys_step_ok _ _ Hok Hstep) as (cf' & [= ->] & ?). done.
Qed.

End system.

(** * The kernel after boot *)

Definition boot_config : config :=
  match exec 0 boot kstate0 with
  | Ok (inr k, s) => mk_config s {[ idle_thread 0 := k ]}
  | _ => mk_config kstate0 ∅
  end.

Lemma boot_config_spec :
  callable (idle_thread 0) 0 (cf_state boot_config) ∧ cf_conts boot_config = {[ idle_thread 0 := thread_yield ]}.
Proof.
  pose proof boot_runs as H. unfold run_to in H. unfold boot_config.
  destruct (exec 0 boot kstate0) as [[[|k] s]|]; [naive_solver| |done].
  destruct H as ([= ->] & Hcl & _). done.
Qed.

Lemma boot_config_ok : sys_ok boot_config.
Proof.
  destruct boot_config_spec as [Hcl Ek]. split; [apply Hcl|..].
  - intros t k. rewrite Ek. intros [<- <-]%lookup_singleton_Some c' s' Hk Hr Hc.
    apply safe_yield; [done|done|apply guar_refl|]. eapply post_api; [by eapply callable_rely|apply post_ok_done].
  - intros t _. apply not_true_iff_false. intros Hl. 
    destruct (decide (t = idle_thread 0)) as [->|Hne]; [by rewrite (cl_timer _ _ _ Hcl) in Hl|].
    vm_compute in Hl. done.
Qed.


(** * A run: the idle thread yields, creates a thread and resumes it; a timer
    interrupt lets the new thread run. *)

Definition quiet_driver (n : nat) : M handler_return := mret INT_NO_RESCHEDULE.

Definition after (r : res config) : config :=
  match r with Ok cf => cf | Fault _ => mk_config kstate0 ∅ end.

Definition run1 : config := after (run 0 (idle_thread 0) thread_yield boot_config).
Definition run2 : config :=
  after (run 0 (idle_thread 0) (api_code (ThreadCreate 7 "worker" 1 2 16 3 4096)) run1).
Definition run3 : config :=
  after (run 0 (idle_thread 0) (api_code (ThreadResume 7 true)) run2).
Definition run4 : config := after (irq 0 (idle_thread 0) mp_mbx_reschedule_irq run3).

Lemma run3_reached : rtc (steps_to quiet_driver) boot_config run3.
Proof.
  eapply rtc_l; [|eapply rtc_l; [|eapply rtc_l; [|apply rtc_refl]]]; unfold steps_to.
  - replace (Ok run1) with (run 0 (idle_thread 0) thread_yield boot_config) by (by vm_compute).
    by apply step_resume.
  - replace (Ok run2) with (run 0 (idle_thread 0) (api_code (ThreadCreate 7 "worker" 1 2 16 3 4096)) run1)
      by (by vm_compute).
    apply step_call; [by vm_compute..|]. split; [|lia]. split; vm_compute; eauto.
  - replace (Ok run3) with (run 0 (idle_thread 0) (api_code (ThreadResume 7 true)) run2) by (by vm_compute).
    apply step_call; [by vm_compute..|]. eexists. split; [by vm_compute|]. by vm_compute.
Qed.

Lemma run4_reached : rtc (steps_to quiet_driver) boot_config run4.
Proof.
  eapply rtc_r; [apply run3_reached|]. unfold steps_to.
  replace (Ok run4) with (irq 0 (idle_thread 0) mp_mbx_reschedule_irq run3) by (by vm_compute).
  by apply step_reschedule_irq; vm_compute.
Qed.

