(* ===== verification/LostWakeup.v ===== *)
(** Two runs of the kernel in which a timeout races with a release.

    A waiter whose timeout has fired is no longer on the wait queue but has not
    yet taken its own count back.  In that window a release finds no one to wake,
    and the next acquirer still sees the count of the waiter and blocks, although
    nobody holds the object. *)
From stdpp Require Import prelude gmap strings.
From S2P Require Import Prelude Pow2 IntrusiveList KState Mp Timer Thread ThreadInv ThreadSafety.
From S2P Require Import ThreadApi Sync Create System.

#[local] Open Scope Z_scope.

(** * Scripts of events *)

Inductive ev :=
| Call (c : nat) (t : tid) (a : api)
| Resume (c : nat) (t : tid)
| TimerIrq (c : nat) (t : tid)
| Pass (d : Z).

Definition do_ev (e : ev) (cf : config) : res config :=
  match e with
  | Call c t a => run c t (api_code a) cf
  | Resume c t => match cf_conts cf !! t with Some k => run c t k cf | None => Fault BadAccess end
  | TimerIrq c t =>
      irq c t (timer_tick (kernel_call quiet_driver) (tick_fuel (cf_state cf) c) (now (cf_state cf))) cf
  | Pass d => Ok (mk_config (set_now (u32 (now (cf_state cf) + d)) (cf_state cf)) (cf_conts cf))
  end.

(** The event is possible in [cf]. *)
Definition ev_pre (e : ev) (cf : config) : Prop :=
  match e with
  | Call c t a => current (cf_state cf) !! c = Some t ∧ cf_conts cf !! t = None ∧ api_pre (cf_state cf) t a
  | Resume c t => current (cf_state cf) !! c = Some t ∧ is_Some (cf_conts cf !! t)
  | TimerIrq c t => current (cf_state cf) !! c = Some t
  | Pass d => may_advance d (cf_state cf)
  end.

Lemma ev_step e cf : ev_pre e cf → sys_step quiet_driver cf (do_ev e cf).
Proof.
  destruct e; simpl; [intros (? & ? & ?)|intros [? [k Hk]]|intros ?|intros ?]; rewrite ?Hk; by econstructor.
Qed.

Fixpoint play (es : list ev) (cf : config) : res config :=
  match es with
  | [] => Ok cf
  | e :: es => cf' ← do_ev e cf; play es cf'
  end.

(** * The conditions of the events, decided *)

Definition wq_okb (s : kstate) (w : wqid) : bool :=
  match wait_queues s !! w with Some wq => wq_magic wq =? WAIT_QUEUE_MAGIC | None => false end.
Definition not_idleb (s : kstate) (t : tid) : bool :=
  match threads s !! t with Some th => negb (thread_is_idle th) | None => true end.
Definition timeout_okb (timeout : Z) : bool :=
  (timeout =? INFINITE_TIME) || ((0 <=? timeout) && (timeout <? HORIZON)).
Definition mutex_okb (s : kstate) (m : nat) : bool :=
  match mutexes s !! m with Some x => (m_magic x =? MUTEX_MAGIC) && wq_okb s (WqMutex m) | None => false end.
Definition holdsb (s : kstate) (m : nat) (t : tid) : bool :=
  match mutexes s !! m with Some x => bool_decide (m_holder x = Some t) | None => false end.
Definition event_okb (s : kstate) (e : nat) : bool :=
  match events s !! e with Some x => (e_magic x =? EVENT_MAGIC) && wq_okb s (WqEvent e) | None => false end.
Definition sem_okb (s : kstate) (n : nat) : bool :=
  bool_decide (is_Some (semaphores s !! n)) && wq_okb s (WqSem n).

(** Only the calls the scripts make. *)
Definition api_preb (s : kstate) (t : tid) (a : api) : bool :=
  match a with
  | ThreadYield => true
  | ThreadCreate u _ _ _ priority _ _ =>
      bool_decide (threads s !! u = None) && bool_decide (wait_queues s !! WqRetcode u = None) &&
      bool_decide (is_Some (Pool.lists (thread_list s) !! ())) && negb (Pool.in_list (thread_list s) u) &&
      (0 <=? priority) && (priority <? 32)
  | ThreadResume u _ =>
      match threads s !! u with
      | Some th => (t_magic th =? THREAD_MAGIC) && bool_decide (t_state th ≠ THREAD_DEATH) &&
                   negb (thread_is_idle th)
      | None => false
      end
  | MutexInit m => bool_decide (Pool.members (queues s) (WaitQ (WqMutex m)) = [])
  | MutexAcquireTimeout m timeout =>
      not_idleb s t && mutex_okb s m && negb (holdsb s m t) && timeout_okb timeout
  | MutexRelease m => not_idleb s t && mutex_okb s m && holdsb s m t
  | SemInit n _ => bool_decide (Pool.members (queues s) (WaitQ (WqSem n)) = [])
  | SemPost n _ | SemWait n => not_idleb s t && sem_okb s n
  | SemTimedwait n timeout => not_idleb s t && sem_okb s n && timeout_okb timeout
  | EventInit e _ _ => bool_decide (Pool.members (queues s) (WaitQ (WqEvent e)) = [])
  | EventWaitTimeout e timeout => not_idleb s t && event_okb s e && timeout_okb timeout
  | _ => false
  end.

Lemma wq_okb_spec s w : wq_okb s w = true → wq_ok s w.
Proof. unfold wq_okb, wq_ok. destruct (wait_queues s !! w); [|done]. intros ?%Z.eqb_eq. eauto. Qed.

Lemma not_idleb_spec s t : not_idleb s t = true → not_idle s t.
Proof. unfold not_idleb, not_idle. intros H th Ht. rewrite Ht in H. by apply negb_true_iff. Qed.

Lemma timeout_okb_spec timeout : timeout_okb timeout = true → timeout_ok timeout.
Proof. unfold timeout_okb, timeout_ok. intros [H|H]%orb_true_iff; zbool; [by left|right; lia]. Qed.

Lemma mutex_okb_spec s m : mutex_okb s m = true → mutex_ok s m.
Proof.
  unfold mutex_okb, mutex_ok. destruct (mutexes s !! m); [|done].
  intros [?%Z.eqb_eq ?%wq_okb_spec]%andb_true_iff. eauto.
Qed.

Lemma event_okb_spec s e : event_okb s e = true → event_ok s e.
Proof.
  unfold event_okb, event_ok. destruct (events s !! e); [|done].
  intros [?%Z.eqb_eq ?%wq_okb_spec]%andb_true_iff. eauto.
Qed.

Lemma holdsb_spec s m t : holdsb s m t = true ↔ holds s m t.
Proof.
  unfold holdsb, holds. destruct (mutexes s !! m); [|naive_solver]. rewrite bool_decide_eq_true. naive_solver.
Qed.

Lemma sem_okb_spec s n : sem_okb s n = true → sem_ok s n.
Proof. intros [?%bool_decide_eq_true ?%wq_okb_spec]%andb_true_iff. by split. Qed.

Ltac split_andb :=
  repeat match goal with H : _ && _ = true |- _ => apply andb_true_iff in H as [? ?] end.

Lemma api_preb_spec s t a : api_preb s t a = true → api_pre s t a.
Proof.
  destruct a; simpl; try done; intros H; split_andb;
    try by split_and?; auto using not_idleb_spec, mutex_okb_spec, timeout_okb_spec, sem_okb_spec, event_okb_spec.
  - repeat match goal with H : bool_decide _ = true |- _ => apply bool_decide_eq_true in H end; zbool.
    split; [split|]; solve [done|by apply negb_true_iff|lia].
  - destruct (threads s !! t0) as [th|] eqn:Et; [|done]. split_andb. exists th.
    repeat match goal with H : bool_decide _ = true |- _ => apply bool_decide_eq_true in H end; zbool.
    split_and!; solve [done|intros _; by apply negb_true_iff].
  - by apply bool_decide_eq_true in H.
  - split_and!; auto using not_idleb_spec, mutex_okb_spec, timeout_okb_spec.
    rewrite <- holdsb_spec. by apply not_true_iff_false, negb_true_iff.
  - split_and!; auto using not_idleb_spec, mutex_okb_spec. by apply holdsb_spec.
  - by apply bool_decide_eq_true in H.
  - by apply bool_decide_eq_true in H.
Qed.

Definition may_advanceb (d : Z) (s : kstate) : bool :=
  (0 <=? d) && bool_decide (map_Forall (λ _ l, Forall (λ t, - HORIZON ≤ due s t - d) l)
                              (Pool.lists (timer_queue s))).

Lemma may_advanceb_spec d s : may_advanceb d s = true → may_advance d s.
Proof.
  intros [H1 H2%bool_decide_eq_true]%andb_true_iff. zbool. split; [done|]. intros q t.
  unfold Pool.members. destruct (Pool.lists (timer_queue s) !! q) as [l|] eqn:El; simpl; [|set_solver].
  specialize (H2 q l El). simpl in H2. rewrite Forall_forall in H2. apply H2.
Qed.

Definition ev_preb (e : ev) (cf : config) : bool :=
  match e with
  | Call c t a => bool_decide (current (cf_state cf) !! c = Some t) &&
      match cf_conts cf !! t with None => true | Some _ => false end && api_preb (cf_state cf) t a
  | Resume c t => bool_decide (current (cf_state cf) !! c = Some t) &&
      match cf_conts cf !! t with None => false | Some _ => true end
  | TimerIrq c t => bool_decide (current (cf_state cf) !! c = Some t)
  | Pass d => may_advanceb d (cf_state cf)
  end.

Lemma ev_preb_spec e cf : ev_preb e cf = true → ev_pre e cf.
Proof.
  destruct e; simpl; intros H; split_andb;
    repeat match goal with H : bool_decide _ = true |- _ => apply bool_decide_eq_true in H end.
  - split_and!; [done|by destruct (cf_conts cf !! t)|by apply api_preb_spec].
  - split; [done|]. destruct (cf_conts cf !! t); [eauto|done].
  - done.
  - by apply may_advanceb_spec.
Qed.

(** Every event of the script is possible when its turn comes. *)
Fixpoint playable (es : list ev) (cf : config) : bool :=
  match es with
  | [] => true
  | e :: es => ev_preb e cf && match do_ev e cf with Ok cf' => playable es cf' | Fault _ => false end
  end.

Lemma playable_reaches es cf :
  playable es cf = true → rtc (steps_to quiet_driver) cf (after (play es cf)).
Proof.
  revert cf. induction es as [|e es IH]; simpl; intros cf; [intros _; apply rtc_refl|].
  intros [He Hes]%andb_true_iff. pose proof (ev_step _ _ (ev_preb_spec _ _ He)) as Hs.
  destruct (do_ev e cf) as [cf1|]; [|done]. eapply rtc_l; [exact Hs|]. by apply IH.
Qed.

(** Thread 7 holds mutex 0; thread 8 waits for it with a timeout of 10 ms. *)
Definition mutex_race : list ev :=
  [Call 0 7 (MutexInit 0); Call 0 7 (MutexAcquireTimeout 0 INFINITE_TIME);
   Call 0 7 (ThreadCreate 8 "waiter" 1 2 16 4 4096); Call 0 7 (ThreadResume 8 true);
   Call 0 7 ThreadYield; Call 0 8 (MutexAcquireTimeout 0 10); Resume 0 7; Pass 10; TimerIrq 0 7;
   Call 0 7 (MutexRelease 0); Call 0 7 (MutexAcquireTimeout 0 INFINITE_TIME); Resume 0 8].

Definition mutex_raced : config := after (play mutex_race run4).


(** Thread 8 waits for semaphore 0 with a timeout of 10 ms. *)
Definition sem_race : list ev :=
  [Call 0 7 (SemInit 0 0); Call 0 7 (ThreadCreate 8 "waiter" 1 2 16 4 4096); Call 0 7 (ThreadResume 8 true);
   Call 0 7 ThreadYield; Call 0 8 (SemTimedwait 0 10); Resume 0 7; Pass 10; TimerIrq 0 7;
   Call 0 7 (SemPost 0 false); Call 0 7 (SemWait 0); Resume 0 8; Call 0 8 (SemPost 0 false)].

Definition sem_raced : config := after (play sem_race run4).

(** A semaphore can end up with a positive count and a thread blocked on
    it.  In the run [sem_race] a post falls into the window between the timeout
    of a waiter and its return; a later waiter blocks and is not woken by the
    next post either. *)
Theorem sem_timeout_loses_wakeup :
  rtc (steps_to quiet_driver) run4 sem_raced ∧
  semaphores (cf_state sem_raced) !! 0%nat = Some (mk_sem SEMAPHORE_MAGIC 1) ∧
  Pool.members (queues (cf_state sem_raced)) (WaitQ (WqSem 0)) = [7%nat] ∧
  Pool.in_list (timer_queue (cf_state sem_raced)) (TmStack 7) = false.
Proof. split_and!; [by apply playable_reaches; vm_compute|by vm_compute..]. Qed.
