(* ===== verification/Examples.v ===== *)
(** The theorems about the kernel at concrete states, which are reached by
    running the kernel from its boot. *)
From stdpp Require Import prelude gmap strings.
From S2P Require Import Prelude Pow2 IntrusiveList KState Mp Timer Thread ThreadInv ThreadSafety.
From S2P Require Import ThreadApi Sync Create SyncSpec System LostWakeup.

#[local] Open Scope Z_scope.

(** * States *)

Lemma run4_ok : sys_ok run4.
Proof. eapply (sys_reachable_ok quiet_driver ltac:(done)); [apply boot_config_ok|apply run4_reached]. Qed.

(** A script that can be played after boot leads to a sound configuration. *)
Lemma played_ok es : playable es run4 = true → sys_ok (after (play es run4)).
Proof. intros H. eapply (sys_reachable_ok quiet_driver ltac:(done)); [apply run4_ok|by apply playable_reaches]. Qed.

Lemma sys_ok_callable cf c t :
  sys_ok cf → current (cf_state cf) !! c = Some t →
  match cf_conts cf !! t with None => true | Some _ => false end = true → callable t c (cf_state cf).
Proof. intros Hok Hc Hn. split; [apply Hok|done|]. apply Hok. by destruct (cf_conts cf !! t). Qed.

(** Thread 7 runs. *)
Definition st_run : kstate := cf_state run4.
Lemma st_run_callable : callable 7 0 st_run.
Proof. apply sys_ok_callable; [apply run4_ok|by vm_compute..]. Qed.

(** Thread 7 holds mutex 0, for which thread 8 waits. *)
Definition st_mutex : kstate := cf_state (after (play (take 7 mutex_race) run4)).
Lemma st_mutex_callable : callable 7 0 st_mutex.
Proof. apply sys_ok_callable; [apply played_ok; by vm_compute|by vm_compute..]. Qed.

(** Thread 8 waits for semaphore 0; thread 7 runs. *)
Definition st_sem : kstate := cf_state (after (play (take 6 sem_race) run4)).
Lemma st_sem_callable : callable 7 0 st_sem.
Proof. apply sys_ok_callable; [apply played_ok; by vm_compute|by vm_compute..]. Qed.

(** Thread 8 waits for the auto-unsignal event 0; thread 7 runs. *)
Definition event_script : list ev :=
  [Call 0 7 (EventInit 0 false EVENT_FLAG_AUTOUNSIGNAL); Call 0 7 (ThreadCreate 8 "waiter" 1 2 16 4 4096);
   Call 0 7 (ThreadResume 8 true); Call 0 7 ThreadYield; Call 0 8 (EventWaitTimeout 0 INFINITE_TIME); Resume 0 7].
Definition st_event : kstate := cf_state (after (play event_script run4)).
Lemma st_event_callable : callable 7 0 st_event.
Proof. apply sys_ok_callable; [apply played_ok; by vm_compute|by vm_compute..]. Qed.

Definition the_thread (s : kstate) (t : tid) : thread :=
  default (mk_thread 0 0 THREAD_SUSPENDED 0 0 0 0 None None 0 None 0 0 0 0 [] "") (threads s !! t).

(** * Witnesses *)

(** Thread 7 is ready and the idle thread runs. *)
Definition st_ready : kstate := cf_state run3.
Lemma st_ready_kinv : kinv st_ready.
Proof. apply (sys_reachable_ok quiet_driver ltac:(done) boot_config run3 boot_config_ok run3_reached). Qed.

Lemma get_top_thread_highest_witness :
  wp 0 (get_top_thread 0) (λ t s', (∃ p, top_choice st_ready 0 p t ∧ qinv {[t]} s') ∨ t = idle_thread 0) st_ready.
Proof.
  eapply wp_mono; [exact (get_top_thread_highest 0 0 st_ready (ki_q _ st_ready_kinv))|].
  intros t s' [(p & ? & _ & ?)|(? & _)]; [left; by exists p|by right].
Defined.

(** A thread that has just died and gives way. *)
Definition die (t : tid) (th : thread) (s : kstate) : kstate :=
  set_threads (<[t := with_state THREAD_DEATH th]> (threads s)) s.

Lemma die_kresched c t th s :
  callable t c s → threads s !! t = Some th → thread_is_idle th = false → kresched c (die t th s).
Proof.
  intros Hcl Ht Hi. destruct (exit_state c t th (with_state THREAD_DEATH th) s (die t th s)) as (? & ? & ?); try done.
  split; [done..|]. exists t, (with_state THREAD_DEATH th). simpl. rewrite lookup_insert_eq. split; [apply Hcl|done].
Qed.

Definition st_dead : kstate := die 7 (the_thread st_run 7) st_run.



Lemma wait_queue_wake_all_in_order_witness :
  wp 0 (wait_queue_wake_all_core (WqMutex 0) false ERR_OBJECT_DESTROYED) (λ ret s', kinv s' ∧ ret = 1) st_mutex.
Proof.
  eapply wp_mono; [apply (wait_queue_wake_all_in_order 0 (WqMutex 0) ERR_OBJECT_DESTROYED st_mutex)|].
  - apply st_mutex_callable.
  - apply wq_okb_spec. by vm_compute.
  - by eexists; vm_compute.
  - intros ret s' (Hk & _ & ->). split; [done|]. by vm_compute.
Defined.

Lemma wait_queue_block_joins_last_witness :
  wp 0 (wait_queue_enqueue (WqRetcode 7) 20) (λ _ s', kresched 0 s' ∧ timer_ok s' (TmStack 7)) st_run.
Proof.
  eapply wp_mono; [apply (wait_queue_block_joins_last 7 0 (WqRetcode 7) 20 st_run)|].
  - apply st_run_callable.
  - apply not_idleb_spec. by vm_compute.
  - apply wq_okb_spec. by vm_compute.
  - apply timeout_okb_spec. by vm_compute.
  - intros t' s' [_ He]. split; [apply He|]. exact (eq_timer _ _ _ _ _ _ He).
Defined.

Lemma thread_unblock_spec_witness :
  wp 0 (thread_unblock_from_wait_queue 8 ERR_TIMED_OUT) (λ r s', kinv s' ∧ r = NO_ERROR) st_mutex.
Proof.
  eapply wp_mono; [apply (thread_unblock_spec 0 8 (the_thread st_mutex 8) ERR_TIMED_OUT st_mutex)|].
  - apply st_mutex_callable.
  - by vm_compute.
  - by vm_compute.
  - intros r s' [Hk H]. rewrite decide_True in H by (by vm_compute). split; [done|apply H].
Defined.

Lemma thread_exit_never_returns_witness : safe 7 (thread_exit 5) (λ _ _ _ _, False) 0 st_run st_run.
Proof.
  apply (thread_exit_never_returns 7 0 5 st_run); [apply st_run_callable|]. split.
  - apply not_idleb_spec. by vm_compute.
  - apply wq_okb_spec. by vm_compute.
  - by vm_compute; eexists.
Defined.

Lemma thread_create_spec_witness :
  wp 0 (thread_create (Some 9%nat) "new" 1 2 16 (Some 5%nat) 4096) (λ r s', r = Some 9%nat ∧ kinv s') st_run.
Proof.
  eapply wp_mono; [apply (thread_create_spec 0 7 9 "new" 1 2 16 5 4096 st_run)|].
  - exact (cl_kinv _ _ _ st_run_callable).
  - exact (cl_cur _ _ _ st_run_callable).
  - split; [by vm_compute|by vm_compute|by eexists; vm_compute|by vm_compute].
  - lia.
  - intros r s' (? & ? & _). done.
Defined.

Lemma mutex_acquire_release_roundtrip_witness :
  let s := set_mutexes {[ 0%nat := mk_mutex MUTEX_MAGIC 0 None ]} st_run in
  exec 0 (mutex_release 0)
    (set_mutexes (<[0%nat := mk_mutex MUTEX_MAGIC 1 (Some 7%nat)]> (mutexes s)) s) = Ok (inl NO_ERROR, s).
Proof. by apply (mutex_acquire_release_roundtrip 0 7 0 100); vm_compute. Defined.

Lemma mutex_release_wakes_first_witness :
  run_to 0 (mutex_release 0) (λ _ s', mutexes s' !! 0%nat = Some (mk_mutex MUTEX_MAGIC 1 None)) st_mutex.
Proof.
  eapply run_to_mono;
    [apply (mutex_release_wakes_first 0 7 0 (mk_mutex MUTEX_MAGIC 2 (Some 7%nat)) 8 [] st_mutex)|].
  - apply st_mutex_callable.
  - apply not_idleb_spec. by vm_compute.
  - apply wq_okb_spec. by vm_compute.
  - by vm_compute.
  - done.
  - done.
  - done.
  - by vm_compute.
  - intros r s' (Hm & _). exact Hm.
Defined.

Lemma st_sem_balanced : sem_balanced st_sem 0.
Proof. eexists _, _. by vm_compute. Qed.

Lemma sem_post_balanced_witness :
  run_to 0 (sem_post 0 true) (λ _ s', sem_balanced s' 0 ∧ sem_value s' 0 = Some 0) st_sem.
Proof.
  apply (sem_post_balanced 0 7 0 true st_sem (-1)); [apply st_sem_callable| |apply st_sem_balanced|by vm_compute|lia].
  apply not_idleb_spec. by vm_compute.
Defined.

Lemma sem_wait_balanced_witness :
  run_to 0 (sem_wait 0) (λ _ s', sem_balanced s' 0 ∧ sem_value s' 0 = Some (-2)) st_sem.
Proof.
  eapply run_to_mono;
    [apply (sem_wait_balanced 0 7 0 st_sem (-1)); [apply st_sem_callable| |apply st_sem_balanced|by vm_compute|lia]|].
  - apply not_idleb_spec. by vm_compute.
  - intros r s' (? & ? & _). done.
Defined.

Lemma event_signal_spec_witness :
  run_to 0 (event_signal 0 false) (λ r s', r = inl 1 ∧ woke_one (WqEvent 0) NO_ERROR st_event 1 s') st_event.
Proof.
  eapply run_to_mono;
    [apply (event_signal_spec 0 7 0 (mk_event EVENT_MAGIC 0 EVENT_FLAG_AUTOUNSIGNAL) st_event)|].
  - apply st_event_callable.
  - apply wq_okb_spec. by vm_compute.
  - by vm_compute.
  - done.
  - intros r s' H. cbv beta zeta in H. cbn [e_signaled e_flags] in H.
    change (negb (0 =? 0)) with false in H.
    change (has_flag EVENT_FLAG_AUTOUNSIGNAL EVENT_FLAG_AUTOUNSIGNAL) with true in H. cbv iota in H.
    assert (Pool.members (queues st_event) (WaitQ (WqEvent 0)) ≠ []) as Hne by (vm_compute; discriminate).
    revert H. match goal with |- (if ?d then _ else _) → _ => generalize d end. intros d H.
    destruct d as [E|_]; [by destruct (Hne E)|]. exact (conj (proj1 H) (proj1 (proj2 H))).
Defined.
