(* ===== verification/PortExamples.v ===== *)
(** Ports at concrete states.

    A queue of waiting threads per port is the smallest implementation of the wait
    queues that ports use.  On it: the witnesses of the theorems about ports, and
    the run in which a reader that was woken finds its port freed. *)
From stdpp Require Import prelude gmap strings.
From S2P Require Import Prelude Pow2 IntrusiveList KState Mp Timer Thread ThreadInv ThreadSafety ThreadApi Sync Create.
From S2P Require Import System LostWakeup Examples Port PortInv PortSafe PortCalls PortKernel.

#[local] Open Scope Z_scope.

(** * Queues as lists *)

Abbreviation list_queues := (gmap nat (list nat)).

#[local] Instance list_queues_ops : WaitQueues list_queues := {
  wq_init q w := Ok (<[q := []]> w);
  wq_wake_one q _ w :=
    l ← of_option AssertFailed (w !! q);
    Ok (match l with [] => (0, w) | _ :: l => (1, <[q := l]> w) end);
  wq_wake_all q _ w :=
    l ← of_option AssertFailed (w !! q);
    Ok (Z.of_nat (length l), <[q := []]> w);
  wq_retire q w := _ ← of_option AssertFailed (w !! q); Ok (delete q w);
}.

Definition list_ready (w : list_queues) (q : nat) : Prop := is_Some (w !! q).
Definition list_waiters (w : list_queues) (q : nat) : list nat := default [] (w !! q).

Lemma list_ready_insert w q l q' : list_ready w q' → list_ready (<[q := l]> w) q'.
Proof. intros H. apply lookup_insert_is_Some'. by right. Qed.

#[local] Instance list_queues_laws : WaitQueueLaws list_queues (λ _, True) list_ready list_waiters.
Proof.
  split; unfold list_waiters; simpl.
  - intros q w _ _. exists (<[q := []]> w). split_and!; [done|done|by exists []; apply lookup_insert_eq|]. intros; by apply list_ready_insert.
  - intros q _ w _ [l Hl]. rewrite Hl. destruct l as [|t l]; simpl.
    + exists w. by rewrite Hl.
    + exists (<[q := l]> w). rewrite lookup_insert_eq. split_and!; try done. intros; by apply list_ready_insert.
  - intros q _ w _ [l Hl]. rewrite Hl. exists (<[q := []]> w). rewrite lookup_insert_eq. split_and!; try done. intros; by apply list_ready_insert.
  - intros q w _ [l Hl] _. rewrite Hl. exists (delete q w). split_and!; try done. intros q' Hne [l' Hl']. exists l'. by rewrite lookup_delete_ne.
Qed.

Abbreviation lpinv := (pinv (λ _ : list_queues, True) list_ready).

(** * A port with a reader in a group *)

Definition after_call (c : port_call) (s : ports list_queues) : ports list_queues :=
  match run_port_call ∅ c s with Ok (_, s') => s' | Fault _ => s end.

Lemma after_call_ok c s :
  lpinv ∅ s → port_call_ok list_waiters ∅ s c →
  match run_port_call ∅ c s with Ok (C', _) => bool_decide (C' = ∅) | Fault _ => false end = true → lpinv ∅ (after_call c s).
Proof.
  intros Hp Hc Hn. pose proof (run_port_call_ok (λ _, True) list_ready list_waiters ∅ c s Hp Hc) as H. unfold pwp in H. unfold after_call.
  destruct (run_port_call ∅ c s) as [[C' s']|]; [|done]. apply bool_decide_eq_true in Hn as ->. done.
Qed.

Definition ex_s0 : ports list_queues := mk_ports ∅ [] ∅.
Definition ex_s1 := after_call (CallCreateBegin 100 (Some "a"%string) PORT_MODE_BROADCAST true) ex_s0.
Definition ex_s2 := after_call (CallCreateEnd 100 "a" PORT_MODE_BROADCAST (Some 1%nat) true) ex_s1.
Definition ex_s3 := after_call (CallOpen (Some "a"%string) 7 true (Some 2%nat) true) ex_s2.
Definition ex_s4 := after_call (CallGroup (Some [2%nat]) 1 true (Some 3%nat)) ex_s3.

Lemma ex_s0_ok : lpinv ∅ ex_s0.
Proof.
  split; simpl; [done| |by intros p o; rewrite lookup_empty].
  split; try done; try (unfold writes, reads, groups; intros *; by rewrite lookup_empty); [constructor|].
  intros w'. split; [by intros ?%elem_of_nil|]. intros [wp Hwp]. unfold writes in Hwp. by rewrite lookup_empty in Hwp.
Qed.

Lemma ex_fresh s p : heap s !! p = None → list_waiters (wqs s) p = [] → fresh list_waiters ∅ s (Some p).
Proof. intros H1 H2 p' [= <-]. split_and!; [done|set_solver|done]. Qed.

Lemma ex_s3_ok : lpinv ∅ ex_s3.
Proof.
  apply after_call_ok; [|apply ex_fresh; by vm_compute|by vm_compute].
  apply after_call_ok; [|split; [eexists; split_and!; [by vm_compute|done..]|intros p [= <-]; by vm_compute]|by vm_compute].
  apply after_call_ok; [apply ex_s0_ok|by vm_compute|by vm_compute].
Qed.

Lemma ex_s4_ok : lpinv ∅ ex_s4.
Proof.
  apply after_call_ok; [apply ex_s3_ok| |by vm_compute]. split_and!; [apply ex_fresh; by vm_compute|done|].
  intros l [= <-]. split; [done|]. intros p ->%list_elem_of_singleton. split; [set_solver|]. eexists. split; [by vm_compute|by intros].
Qed.

(** * Witnesses *)

(** The port as it was created, with its reader. *)
Definition ex_wp (b : option port_buf) : write_port := mk_wp WRITEPORT_MAGIC_W b [2%nat] PORT_MODE_BROADCAST "a".

Definition ex_pk : list packet := [[1]; [2]; [3]].


(** The reader has the three packets; its group is read. *)
Definition ex_s5 := after_call (CallWrite (Some 1%nat) (Some ex_pk)) ex_s4.

Lemma ex_s5_ok : lpinv ∅ ex_s5.
Proof.
  apply after_call_ok; [apply ex_s4_ok| |by vm_compute]. intros p [= <-]. split; [set_solver|]. eexists. split; [by vm_compute|]. by intros wp [= <-].
Qed.

Lemma port_read_takes_oldest_witness :
  ∃ s', port_read (Some 3%nat) 0 true ex_s5 = Ok (Returned NO_ERROR (Some (7, [1])), s') ∧ lpinv ∅ s' ∧ took (heap ex_s5) (heap s') 2 7 [1].
Proof.
  assert (readable ∅ (heap ex_s5) 3) as Hr by (split; [set_solver|right; eexists; by vm_compute]).
  destruct (port_read_takes_oldest (λ _, True) list_ready list_waiters ∅ ex_s5 3 0 ex_s5_ok Hr) as (r & s' & E & Hp & H).
  assert (r = Returned NO_ERROR (Some (7, [1]))) as -> by (vm_compute in E; by injection E).
  exists s'. split_and!; [exact E|exact Hp|]. destruct H as [(l1 & q & l2 & ctx & pk & Es & _ & Ht & [= <- <-])|(_ & _ & Er)]; [|by vm_compute in Er].
  change (sources (heap ex_s5) 3) with [2%nat] in Es. destruct l1 as [|? [|? ?]]; simpl in Es; [|discriminate Es..]. injection Es as <- _. exact Ht.
Defined.

Lemma port_write_read_roundtrip_witness :
  ∃ yield s1 s2, port_write (Some 1%nat) (Some ex_pk) ex_s4 = Ok (NO_ERROR, yield, s1) ∧
    drain 2 3 s1 = Ok ((λ x, Returned NO_ERROR (Some (7, x))) <$> ex_pk, s2) ∧ queued (heap s2) 2 7 [].
Proof.
  assert (queued (heap ex_s4) 2 7 []) as Hq.
  { destruct (make_buf_ok (has_flag PORT_MODE_BROADCAST PORT_MODE_BIG_BUFFER)) as (b & Eb & Hb).
    exists (mk_rp READPORT_MAGIC (Some b) 7 (Some 1%nat) (Some 3%nat)), b. split_and!; try done. injection Eb as <-. by vm_compute. }
  exact (port_write_read_roundtrip (λ _, True) list_ready list_waiters ∅ ex_s4 1 (ex_wp None) 2 7 ex_pk [] ex_s4_ok
    ltac:(by vm_compute) eq_refl eq_refl Hq ltac:(by vm_compute)).
Defined.


(** * A reader that outlives its port *)

(** Thread 8 waits on read port 2. *)
Definition ex_blocked : ports list_queues := with_wqs (<[2%nat := [8%nat]]> (wqs ex_s3)) ex_s3.

(** A write wakes it, and before it runs the port is closed: no thread waits any
    more, so nothing is left to cancel, and the port is freed. *)
Definition ex_closed : res (ports list_queues) :=
  '(_, s) ← port_write (Some 1%nat) (Some [[5]]) ex_blocked;
  '(_, s) ← port_close_begin (Some 2%nat) s;
  '(_, s) ← port_close_end 2 s;
  Ok s.

Definition INFINITE_TIMEOUT : Z := 0xffffffff.

(** The wait returns success, and the reader reads the freed port. *)
Example woken_reader_reads_freed_port :
  port_read (Some 2%nat) INFINITE_TIMEOUT true ex_s3 = Ok (Blocked 2, ex_s3) ∧
  (s ← ex_closed; port_read_woken 2 INFINITE_TIMEOUT NO_ERROR s) = Fault BadAccess.
Proof. split; by vm_compute. Qed.
